(* ===== verification/_CoqProject ===== *)
-Q . S2P
Prelude.v
Str.v
Ip.v
Address.v
Json.v
Scheduled.v
SendOnce.v
WsFrame.v
Socks.v
ProxyStore.v
Keeper.v
Attachment.v
Net.v
Groups.v
Frames.v
Engine.v
Delivery.v
Rosters.v
GroupWire.v
Chat.v
Files.v
Media.v
Effects.v
Footprint.v
GroupInv.v
Ops.v
Scene.v
Safety.v
Delivered.v
Exchange.v
History.v
Inbound.v
Catchup.v
Membership.v
Pairing.v
Redact.v
Logger.v
BgEvents.v
Readers.v
Paths.v
MediaServer.v
ChatLink.v
Crash.v
DbMigrate.v
KeyWrap.v
PageFiles.v
Webxdc.v
Tickets.v
Identity.v
Xdc.v
Cryptex.v
