(* ===== verification/Prelude.v ===== *)
(** * Velta: a verification development

    Velta is a messenger around the Delta Chat core.  This library models the
    program's own Rust code, under [src/velta-app/src-tauri/src] (below: [tauri/])
    and [src/packages/attachment-crypto], and proves what makes it correct.

    ** The parts and where they are modelled

    - The local chat ([tauri/p2p.rs], [tauri/p2p/groups.rs]): one-to-one and group
      chats between devices of a network, over QUIC sessions that carry JSON lines.
      [Groups]: signed rosters, [groups.json] and the message log of a group;
      [Frames]: the frames and stored rows; [Engine]: the state [P2p] behind the
      engine's locks, its files, the effects; [Delivery]: sending and receiving
      group messages; [Rosters], [GroupWire]: editing, applying and announcing
      rosters, dispatch of group frames; [Chat]: pairing, sessions, texts;
      [Files], [Media]: files received and sent, [session_frame]; [Ops]: all ways
      into the engine as one transition system, restart included; [Pairing]: incoming
      connections, step by step between its awaits.
    - The WebSocket client ([tauri/lufi.rs], [tauri/ws_transport.rs]): [WsFrame],
      frames, message assembly and the byte tunnel; [Address], proxy addresses and
      what the handshake sends; [Socks], the local SOCKS5 server.  [Ip] is what
      the code uses of Rust's numbers and IP addresses.
    - The saved proxies ([tauri/proxy_store.rs]): [ProxyStore]; the task that
      brings the selected one to the accounts ([tauri/proxy.rs]): [Keeper].
    - Encrypted attachments ([packages/attachment-crypto]): [Attachment].
    - Scheduled messages ([tauri/scheduled_store.rs], [tauri/scheduled.rs]):
      [Scheduled], [SendOnce].
    - The log ([tauri/log.rs]): [Redact], what is taken out of a message; [Logger],
      the threads that log and the one that writes.
    - Events on Android while the page sleeps ([tauri/bg_events.rs] and its callers in
      [tauri/lib.rs]): [BgEvents].
    - Attachments for the page ([tauri/lib.rs], media server and blob protocol):
      [Readers], reading a stored attachment; [Paths], a file system with links;
      [MediaServer], requests, ranges and thumbnails.
    - What the page may name ([tauri/lib.rs], commands with paths; [tauri/picked.rs]):
      [PageFiles]; on Android the documents copied for other programs are in the
      cache directory, otherwise the same.
    - The files of webxdc apps ([tauri/webxdc_serve.rs], routing of lines in
      [tauri/sidecar.rs]): [Webxdc].
    - The token of chat links ([tauri/lib.rs]): [ChatLink].
    - The encryption of the databases ([tauri/db_key.rs], [tauri/win_hello.rs]):
      [Crash], steps that fail or are the last before a crash; [DbMigrate], the
      start, which encrypts, swaps and restores; [KeyWrap], the PIN file, Windows
      Hello, the keychain, and the key that moves between them.
    - Invitations of the local chat ([tauri/p2p.rs], tickets): [Tickets]; the key of
      the device ([load_or_create_identity]): [Identity].
    - Built-in apps ([tauri/builtin_xdc.rs]): [Xdc].  Large files over a server
      ([tauri/cryptex.rs]): [Cryptex].

    [Prelude] and [Str] hold machine integers, bytes, results, sorting and Rust's
    strings; [Net] and [Json] the interfaces to other crates.

    ** How the code is represented

    An operation that locks the engine is a function in the monad [Engine.M]: it
    takes the state and gives a state and a result, keeping the changes made
    before a failure.  What the code reads from outside (clock, random ids, which
    system call fails) comes from the class [Env], indexed by a counter in the
    state, so a theorem for every [Env] is a theorem for every outcome.  Code of
    other crates is a class with its documented laws as a second class
    ([Platform]/[PlatformLaws], [Serde], [Json]/[JsonLaws], [Aead], [Kdf]); each
    has a concrete instance, on which the witnesses run.  Integers are [N] or [Z]
    at their width: [u64] addition wraps, as it does in the release profile.
    Maps that the code iterates over only to look up are [gmap]s; the order of
    [HashMap] iteration is that of the [gmap].

    ** What is proved

    - One author and one reader of a group, over a network that loses, repeats and
      reorders: the reader's log holds a prefix of what the author wrote, each
      message once and in order ([Exchange.delivered_in_order]); that of a member
      that comes back gets everything it missed ([Catchup.member_catches_up]).
      Behind it: [GroupInv] and [Safety], the counters of a group and its log agree
      after any operation ([counters_match_logs]) and after a restart on an older
      [groups.json] ([restart_recovers_counters]).  These take appends to be whole
      ([WholeAppends]; [cut_append_takes_next] is what one cut short does), and
      restarts otherwise to find the groups saved ([admissible]);
      [Delivered], logs only grow; [Effects] and [Footprint], what each operation
      can touch, as classes of relations that the elementary steps satisfy.
    - Rosters: what is accepted was signed by the creator and is newer
      ([accepted_roster_authentic]), the signed bytes determine the roster
      ([sign_bytes_injective]), [validate] is its declarative reading;
      [Membership]: no frame, whoever sends it, moves a roster backwards or lets
      anyone but its creator change it; a restart takes the saved one.
    - One-to-one chats: [History], the screen shows what a restart reads back
      once the rows on their way are there, in order ([history_matches_disk]; out of
      order, [late_row]).
      Nobody is paired without a proof ([paired_with_proof]).
    - Files that arrive: [Inbound], bounded in size, and in number by the limits
      and the sessions at work ([inbound_bounded], [limit_passed]); stored under
      plain fresh names in the right directories.
    - Attachments: round trip, a container that was tampered with yields no wrong
      plaintext, errors.
    - WebSocket frames: reassembly, transparency of the tunnel, termination.
    - Scheduled messages: sent once, whatever is interleaved ([SendOnce]).
    - The SOCKS5 server: without the password nothing reaches the proxy, and a
      request has exactly the lines it is meant to have ([proxy_asked]); the reads
      do not matter ([reads_irrelevant]); the way in leads to a tunnel
      ([tunnel_opens]).  Addresses have a canonical form ([canonical_url]).
    - The log: what it must not show does not matter to it ([redact_hides]); under
      any interleaving of threads the rate is bounded ([rate_bounded]) and no line
      is lost in silence ([drops_told]).
    - Events in the background: every batch is shown or notified once, in order,
      however the tasks interleave ([events_once]).
    - Attachments for the page: only files of the accounts, only to who has the
      token ([media_confined]), the right bytes ([media_bytes]), the same from both
      servers ([servers_agree]); the token of chat links ([token_stable],
      [tokens_differ]).
    - Invitations: what is scanned is what was shown, and pairs ([invite_pairs]); no
      text makes the reader panic ([any_text_read]).  The key of the device stays
      when writes are whole ([identity_kept]); two ways to lose it
      ([identity_lost]).
    - Bundled apps: the check against a writer of zip files ([valid_xdc_iff]).
      Uploads and downloads: a reader gets the parts of the form
      ([multipart_reads_back]), a download by itself touches one file
      ([download_lands]); and what goes wrong ([downloads_mix],
      [cancel_never_ends]).
    - Paths from the page stay in the data directory ([page_paths_confined]), or are
      what the user picked ([picked_confined]).
    - A frame of a webxdc app reads the files of the app that is open, and the right
      ones ([webxdc_gated]); one way in which its script comes too late
      ([shim_after_header]).
    - The databases and their key: while databases open, no failure and no crash
      loses the data of an account ([data_survives]); while writes of the wraps are
      whole and they can be read, none loses the key ([key_kept]).  Exceptions: an
      encrypted database that fails to open ([failing_open_rolls_back]), a torn PIN
      file ([torn_wrap_locks_out]) and a start without the key
      ([missing_key_rolls_back]).
    - The proxy keeper: what a user set up in an account before a run looks at it
      stays, whatever is interleaved ([user_proxy_kept]); and three ways it goes wrong
      ([raced_proxy_lost], [stale_proxy_stays], [added_proxy_lost]).

    ** Bounds and fuel

    Recursion is structural except where a reader consumes its input: there the
    fuel is one more than the length of the input, and termination theorems
    ([recv_text_total]) say that this much always gives the result.  The 128
    nested levels of the JSON parser and its inexact floats are the predicate
    [Json.plain].

    ** Not modelled

    Sockets, TLS, QUIC, timeouts and the tasks that wait on them: a session is what it
    receives and what it puts on its channel, and a stream of file chunks is sent in
    one step.  An operation of the engine is one step of the model, also where the
    code takes its locks more than once within it, with two exceptions, whose second
    halves are operations of their own that come at any later time: the rows that
    [persist_messages] writes after the lock is released ([Ops.OWriteRow]) and the
    insertion of a transfer whose begin passed the limits ([Ops.OFinishBegin]).  So
    two sessions that check for a duplicate, or choose a free file name, at the same
    time are not in the model.  The rate limit of incoming group frames and the
    progress events of one-to-one sends are left out.  Appends to the logs can fail
    and can leave a part of the line ([append_outcome], [row_outcome]).  User interface
    events are the constructors of [Engine.Event], not their JSON text.  The
    vendored mail core ([src/core]), the other Tauri commands and windows
    ([lib.rs]), the key stores of the systems, push services and platform bindings
    are not modelled: SQL, IMAP, OpenPGP and operating system calls are most of what
    they do.  [DbMigrate] takes SQLite's file and journal as one. *)

From stdpp Require Export prelude gmap list strings.
From Stdlib Require Import Sorted.
From Stdlib Require Export NArith ZArith Lia.

Set Default Proof Using "Type".
#[export] Set Default Goal Selector "!".

Declare Scope velta_scope.
Delimit Scope velta_scope with velta.
Open Scope velta_scope.

(** ** Machine integers

    A Rust [u8], [u16], [u32], [u64] or [usize] (64-bit targets) is an [N]
    below its bound; the release profile leaves overflow checks off, so [+]
    on [u64] wraps. *)

Abbreviation u64_bound := 18446744073709551616%N.
Abbreviation u32_bound := 4294967296%N.
Abbreviation u16_bound := 65536%N.

Definition wadd64 (a b : N) : N := ((a + b) mod u64_bound)%N.
Definition sat_sub (a b : N) : N := (a - b)%N.
Definition checked_add64 (a b : N) : option N :=
  if (a + b <? u64_bound)%N then Some (a + b)%N else None.
Definition checked_mul64 (a b : N) : option N :=
  if (a * b <? u64_bound)%N then Some (a * b)%N else None.

Lemma wadd64_small a b : (a + b < u64_bound)%N → wadd64 a b = (a + b)%N.
Proof. intros. by apply N.mod_small. Qed.

(** ** Bytes

    A byte string is a list of [N], each below 256. *)

Abbreviation bytes := (list N).

Definition is_byte (b : N) : Prop := (b < 256)%N.
Abbreviation wf_bytes := (Forall is_byte).

(** [x.to_be_bytes()] for an [n]-byte integer, and [from_be_bytes]. *)
Fixpoint be_bytes (n : nat) (x : N) : bytes :=
  match n with
  | O => []
  | S n' => ((x / 256 ^ N.of_nat n') mod 256)%N :: be_bytes n' x
  end.

Definition be_value (l : bytes) : N := foldl (λ acc b, acc * 256 + b)%N 0%N l.

Lemma length_be_bytes n x : length (be_bytes n x) = n.
Proof. induction n; simpl; congruence. Qed.

Lemma be_bytes_wf n x : wf_bytes (be_bytes n x).
Proof.
  induction n; simpl; constructor; [|done].
  apply N.mod_upper_bound. lia.
Qed.

Lemma foldl_be_acc l a :
  foldl (λ acc b, acc * 256 + b)%N a l
  = (a * 256 ^ N.of_nat (length l) + be_value l)%N.
Proof.
  unfold be_value. revert a. induction l as [|b l IH]; intros a; simpl; [lia|].
  rewrite IH, (IH (0 * 256 + b)%N). rewrite Nat2N.inj_succ, N.pow_succ_r'. lia.
Qed.

Lemma be_value_cons b l :
  be_value (b :: l) = (b * 256 ^ N.of_nat (length l) + be_value l)%N.
Proof. unfold be_value at 1. simpl. by rewrite foldl_be_acc. Qed.

Lemma be_value_app l1 l2 :
  be_value (l1 ++ l2) = (be_value l1 * 256 ^ N.of_nat (length l2) + be_value l2)%N.
Proof. unfold be_value at 1. rewrite foldl_app, foldl_be_acc. done. Qed.

Lemma be_value_bytes n x : be_value (be_bytes n x) = (x mod 256 ^ N.of_nat n)%N.
Proof.
  induction n as [|n IH]; simpl.
  { by rewrite N.mod_1_r. }
  rewrite be_value_cons, IH, length_be_bytes, Nat2N.inj_succ, N.pow_succ_r'.
  assert (256 ^ N.of_nat n ≠ 0)%N by (apply N.pow_nonzero; lia).
  rewrite (N.mul_comm 256), N.Div0.mod_mul_r. lia.
Qed.

Lemma be_value_bytes_small n x :
  (x < 256 ^ N.of_nat n)%N → be_value (be_bytes n x) = x.
Proof. intros. rewrite be_value_bytes. by apply N.mod_small. Qed.

Lemma be_value_bound l : wf_bytes l → (be_value l < 256 ^ N.of_nat (length l))%N.
Proof.
  induction 1 as [|b l Hb Hl IH]; [done|].
  rewrite be_value_cons. cbn [length]. rewrite Nat2N.inj_succ, N.pow_succ_r'.
  unfold is_byte in Hb. nia.
Qed.

Lemma be_bytes_inj n x y :
  (x < 256 ^ N.of_nat n)%N → (y < 256 ^ N.of_nat n)%N →
  be_bytes n x = be_bytes n y → x = y.
Proof.
  intros Hx Hy Heq. apply (f_equal be_value) in Heq.
  by rewrite !be_value_bytes_small in Heq.
Qed.

(** ** Results

    [Result<A, E>]; [?] is the bind of stdpp's monad notations. *)

Inductive result (E A : Type) : Type :=
| Ok (a : A)
| Err (e : E).
Arguments Ok {E A} a.
Arguments Err {E A} e.

#[export] Instance result_ret E : MRet (result E) := λ A a, Ok a.
#[export] Instance result_bind E : MBind (result E) :=
  λ A B f r, match r with Ok a => f a | Err e => Err e end.
#[export] Instance result_fmap E : FMap (result E) :=
  λ A B f r, match r with Ok a => Ok (f a) | Err e => Err e end.

#[export] Instance result_eq_dec E A `{EqDecision E, EqDecision A} :
  EqDecision (result E A).
Proof. solve_decision. Defined.

Definition is_ok {E A} (r : result E A) : bool :=
  match r with Ok _ => true | Err _ => false end.

Definition ok_or {E A} (o : option A) (e : E) : result E A :=
  match o with Some a => Ok a | None => Err e end.

Definition map_err {E F A} (f : E → F) (r : result E A) : result F A :=
  match r with Ok a => Ok a | Err e => Err (f e) end.

Definition result_ok {E A} (r : result E A) : option A :=
  match r with Ok a => Some a | Err _ => None end.

Definition ensure {E} (b : bool) (e : E) : result E unit :=
  if b then Ok tt else Err e.

Lemma bind_ok {E A B} (r : result E A) (f : A → result E B) b :
  r ≫= f = Ok b ↔ ∃ a, r = Ok a ∧ f a = Ok b.
Proof. destruct r; cbn; split; [eauto|naive_solver..]. Qed.

Lemma ensure_ok {E} b (e : E) u : ensure b e = Ok u ↔ b = true.
Proof. destruct b, u; cbn; split; congruence. Qed.

Lemma ok_or_ok {E A} (o : option A) (e : E) a : ok_or o e = Ok a ↔ o = Some a.
Proof. destruct o; cbn; split; congruence. Qed.

(** ** Readers

    A blocking byte source is the bytes that are still to come;
    [read_exact] either fills its buffer or fails at end of file. *)

Definition read_exact {E} (eof : E) (n : N) (s : bytes) : result E (bytes * bytes) :=
  if (N.of_nat (length s) <? n)%N then Err eof
  else Ok (take (N.to_nat n) s, drop (N.to_nat n) s).

Lemma read_exact_app {E} (eof : E) (l s : bytes) :
  read_exact eof (N.of_nat (length l)) (l ++ s) = Ok (l, s).
Proof.
  unfold read_exact. rewrite length_app.
  destruct (N.ltb_spec (N.of_nat (length l + length s)) (N.of_nat (length l))); [lia|].
  by rewrite Nat2N.id, take_app_length, drop_app_length.
Qed.

Lemma read_exact_app' {E} (eof : E) n (l s : bytes) :
  n = N.of_nat (length l) → read_exact eof n (l ++ s) = Ok (l, s).
Proof. intros ->. apply read_exact_app. Qed.

Lemma read_exact_ok {E} (eof : E) n s l r :
  read_exact eof n s = Ok (l, r) → s = l ++ r ∧ N.of_nat (length l) = n.
Proof.
  unfold read_exact. destruct (N.ltb_spec (N.of_nat (length s)) n); [done|].
  intros [= <- <-]. rewrite take_drop, length_take. split; [done|]. lia.
Qed.

(** ** Tactics *)

(** Case analysis on every [match]/[if] of a hypothesis or of the goal,
    discharging the contradictory branches. *)
Ltac destr_step :=
  match goal with
  | H : context [match ?x with _ => _ end] |- _ =>
      first [ is_var x; destruct x | let E := fresh "E" in destruct x eqn:E ];
      cbn in H; try congruence
  end.
Ltac destr_goal :=
  match goal with
  | |- context [match ?x with _ => _ end] =>
      first [ is_var x; destruct x | let E := fresh "E" in destruct x eqn:E ]; cbn
  end.
Ltac inv_ok :=
  repeat match goal with
  | H : Ok _ = Ok _ |- _ => injection H as H; subst
  | H : Err _ = Ok _ |- _ => discriminate H
  | H : Ok _ = Err _ |- _ => discriminate H
  | H : ensure _ _ = Ok _ |- _ => apply ensure_ok in H
  | H : ok_or _ _ = Ok _ |- _ => apply ok_or_ok in H
  | H : _ ≫= _ = Ok _ |- _ =>
      let a := fresh "a" in let Ha := fresh "Ha" in
      apply bind_ok in H as (a & Ha & H); try (destruct a)
  | H : ∃ _, _ |- _ => destruct H
  | H : _ ∧ _ |- _ => destruct H
  end.

Create HintDb velta.
Create Rewrite HintDb velta.
#[export] Hint Resolve be_bytes_wf : velta.
#[export] Hint Rewrite length_be_bytes be_value_bytes : velta.

(** ** Byte ranges *)

(** [&l[off .. off + n]] (where it exists). *)
Definition slice (off n : N) (l : bytes) : bytes := take (N.to_nat n) (drop (N.to_nat off) l).

Lemma slice_app_l off n l1 l2 :
  (off + n ≤ N.of_nat (length l1))%N → slice off n (l1 ++ l2) = slice off n l1.
Proof.
  intros H. unfold slice. rewrite drop_app_le by lia.
  rewrite take_app_le; [done|]. rewrite length_drop. lia.
Qed.

Lemma slice_app_r off n l1 l2 :
  (N.of_nat (length l1) ≤ off)%N →
  slice off n (l1 ++ l2) = slice (off - N.of_nat (length l1)) n l2.
Proof.
  intros H. unfold slice. rewrite drop_app_ge by lia. do 2 f_equal. lia.
Qed.

Lemma slice_0 n l : slice 0 n l = take (N.to_nat n) l.
Proof. done. Qed.

Lemma slice_all n l : (N.of_nat (length l) ≤ n)%N → slice 0 n l = l.
Proof. intros. apply take_ge. cbn. lia. Qed.

Lemma length_slice off n l :
  (off + n ≤ N.of_nat (length l))%N → N.of_nat (length (slice off n l)) = n.
Proof. intros. unfold slice. rewrite length_take, length_drop. lia. Qed.

(** Two adjacent ranges make one. *)
Lemma slice_add off n m l : slice off (n + m) l = slice off n l ++ slice (off + n) m l.
Proof.
  unfold slice. rewrite !N2Nat.inj_add, <- drop_drop.
  by rewrite take_take_drop.
Qed.

Lemma slice_slice off n off' n' l :
  (off' + n' ≤ n)%N → slice off' n' (slice off n l) = slice (off + off') n' l.
Proof.
  intros H. unfold slice. rewrite N2Nat.inj_add, <- drop_drop.
  rewrite skipn_firstn_comm, take_take. f_equal. lia.
Qed.

Lemma slice_mid n l1 l2 l3 :
  n = N.of_nat (length l2) → slice (N.of_nat (length l1)) n (l1 ++ l2 ++ l3) = l2.
Proof.
  intros ->. rewrite slice_app_r, N.sub_diag, slice_0, Nat2N.id, take_app_length by lia. done.
Qed.

(** ** Filtering *)

Lemma filter_all {A} (Q : A → Prop) `{!∀ x, Decision (Q x)} (l : list A) :
  Forall Q l → base.filter Q l = l.
Proof. induction 1 as [|x l Hx _ IH]; [done|]. by rewrite filter_cons_True, IH. Qed.
Lemma filter_none {A} (Q : A → Prop) `{!∀ x, Decision (Q x)} (l : list A) :
  Forall (λ x, ¬ Q x) l → base.filter Q l = [].
Proof. induction 1 as [|x l Hx _ IH]; [done|]. by rewrite filter_cons_False. Qed.
Lemma filter_sub {A} (Q R : A → Prop) `{!∀ x, Decision (Q x)} (l : list A) :
  Forall R l → Forall R (base.filter Q l).
Proof. rewrite !Forall_forall. intros Hl x [_ Hx]%list_elem_of_filter. auto. Qed.

(** ** Stable sorting

    [v.sort_by_key(f)], with [le] the comparison of keys. *)

Fixpoint insert_by {A} (le : A → A → bool) (x : A) (l : list A) : list A :=
  match l with
  | [] => [x]
  | y :: l' => if le x y then x :: l else y :: insert_by le x l'
  end.
Definition sort_by {A} (le : A → A → bool) (l : list A) : list A := foldr (insert_by le) [] l.

Lemma insert_by_perm {A} (le : A → A → bool) x l : insert_by le x l ≡ₚ x :: l.
Proof.
  induction l as [|y l IH]; cbn; [done|]. destruct (le x y); [done|].
  rewrite IH. apply Permutation_swap.
Qed.

Lemma sort_by_perm {A} (le : A → A → bool) l : sort_by le l ≡ₚ l.
Proof. induction l as [|x l IH]; cbn; [done|]. by rewrite insert_by_perm, IH. Qed.

Lemma sort_by_nil {A} (le : A → A → bool) l : sort_by le l = [] ↔ l = [].
Proof.
  split; [|by intros ->]. intros H. apply Permutation_nil_r. by rewrite <- (sort_by_perm le l), H.
Qed.

Lemma sort_by_sorted {A} (le : A → A → bool) l :
  (∀ x y, le x y = false → le y x = true) → (∀ x y z, le x y = true → le y z = true → le x z = true) →
  StronglySorted (λ x y, le x y = true) (sort_by le l).
Proof.
  intros Htot Htr. induction l as [|x l IH]; cbn; [constructor|]. fold (sort_by le l).
  induction IH as [|y l' Hl IHl Hy]; cbn; [repeat constructor|].
  destruct (le x y) eqn:E.
  - repeat constructor; try done. eapply Forall_impl; [exact Hy|]. intros z. by apply Htr.
  - constructor; [done|]. rewrite insert_by_perm. constructor; auto.
Qed.
