(* ===== verification/Str.v ===== *)
(** * Rust strings

    A [&str] is the list of its Unicode scalar values ([char]s); its bytes are
    the UTF-8 encoding.  This file models the parts of the standard library's
    string API that the program uses: UTF-8, the ASCII and Unicode character
    classes, trimming, splitting, and decimal and hexadecimal conversion. *)

From S2P Require Import Prelude.
From stdpp Require Import pretty.
From Stdlib Require Ascii String.

Abbreviation str := (list N).

(** A literal of the source, in ASCII. *)
Definition lit (s : string) : str := Ascii.N_of_ascii <$> String.list_ascii_of_string s.
Coercion lit : string >-> list.

(** ** UTF-8 *)

Definition is_scalar (c : N) : Prop := (c < 55296 ∨ (57344 ≤ c ∧ c < 1114112))%N.
Abbreviation wf_str := (Forall is_scalar).

Definition utf8_char (c : N) : bytes :=
  (if c <? 128 then [c]
   else if c <? 2048 then [192 + c / 64; 128 + c mod 64]
   else if c <? 65536 then [224 + c / 4096; 128 + (c / 64) mod 64; 128 + c mod 64]
   else [240 + c / 262144; 128 + (c / 4096) mod 64; 128 + (c / 64) mod 64; 128 + c mod 64])%N.

(** [s.as_bytes()] *)
Definition as_bytes (s : str) : bytes := s ≫= utf8_char.
(** [s.len()] *)
Definition str_len (s : str) : N := N.of_nat (length (as_bytes s)).
(** [s.chars().count()] *)
Definition chars_count (s : str) : N := N.of_nat (length s).

Definition in_range (lo hi b : N) : bool := ((lo <=? b) && (b <=? hi))%N.
Definition is_cont (b : N) : bool := in_range 128 191 b.

(** [str::from_utf8]: [None] for anything that is not well-formed UTF-8
    (overlong forms, surrogates and values above U+10FFFF included). *)
Fixpoint from_utf8 (l : bytes) : option str :=
  match l with
  | [] => Some []
  | b0 :: t0 =>
      if (b0 <? 128)%N then cons b0 <$> from_utf8 t0
      else match t0 with
      | [] => None
      | b1 :: t1 =>
          if in_range 194 223 b0 then
            (if is_cont b1 then cons ((b0 - 192) * 64 + (b1 - 128))%N <$> from_utf8 t1 else None)
          else match t1 with
          | [] => None
          | b2 :: t2 =>
              if in_range 224 239 b0 then
                (if in_range (if (b0 =? 224)%N then 160 else 128)%N
                             (if (b0 =? 237)%N then 159 else 191)%N b1 && is_cont b2
                 then cons ((b0 - 224) * 4096 + (b1 - 128) * 64 + (b2 - 128))%N <$> from_utf8 t2
                 else None)
              else match t2 with
              | [] => None
              | b3 :: t3 =>
                  if in_range 240 244 b0 then
                    (if in_range (if (b0 =? 240)%N then 144 else 128)%N
                                 (if (b0 =? 244)%N then 143 else 191)%N b1
                        && is_cont b2 && is_cont b3
                     then cons ((b0 - 240) * 262144 + (b1 - 128) * 4096
                                + (b2 - 128) * 64 + (b3 - 128))%N <$> from_utf8 t3
                     else None)
                  else None
              end
          end
      end
  end.

(** [String::from_utf8_lossy]: every maximal part that begins no character
    becomes U+FFFD. *)
Fixpoint from_utf8_lossy (l : bytes) : str :=
  match l with
  | [] => []
  | b0 :: t0 =>
      if (b0 <? 128)%N then b0 :: from_utf8_lossy t0
      else match t0 with
      | [] => [65533%N]
      | b1 :: t1 =>
          if in_range 194 223 b0 then
            if is_cont b1 then ((b0 - 192) * 64 + (b1 - 128))%N :: from_utf8_lossy t1
            else 65533%N :: from_utf8_lossy t0
          else if in_range 224 239 b0 && in_range (if (b0 =? 224)%N then 160 else 128)%N
                                                  (if (b0 =? 237)%N then 159 else 191)%N b1 then
            match t1 with
            | [] => [65533%N]
            | b2 :: t2 =>
                if is_cont b2
                then ((b0 - 224) * 4096 + (b1 - 128) * 64 + (b2 - 128))%N :: from_utf8_lossy t2
                else 65533%N :: from_utf8_lossy t1
            end
          else if in_range 240 244 b0 && in_range (if (b0 =? 240)%N then 144 else 128)%N
                                                  (if (b0 =? 244)%N then 143 else 191)%N b1 then
            match t1 with
            | [] => [65533%N]
            | b2 :: t2 =>
                if is_cont b2 then
                  match t2 with
                  | [] => [65533%N]
                  | b3 :: t3 =>
                      if is_cont b3
                      then ((b0 - 240) * 262144 + (b1 - 128) * 4096 + (b2 - 128) * 64 + (b3 - 128))%N
                             :: from_utf8_lossy t3
                      else 65533%N :: from_utf8_lossy t2
                  end
                else 65533%N :: from_utf8_lossy t1
            end
          else 65533%N :: from_utf8_lossy t0
      end
  end.

Ltac range_solve :=
  repeat match goal with
  | |- context [N.ltb ?a ?b] => destruct (N.ltb_spec a b); try (exfalso; lia)
  | |- context [N.leb ?a ?b] => destruct (N.leb_spec a b); try (exfalso; lia)
  | |- context [N.eqb ?a ?b] => destruct (N.eqb_spec a b); try (exfalso; lia)
  end; cbn [andb orb negb].

Lemma div64 c : ∃ q r, (c / 64 = q ∧ c mod 64 = r ∧ c = 64 * q + r ∧ r < 64)%N.
Proof.
  exists (c / 64)%N, (c mod 64)%N. repeat split; [apply N.div_mod; lia|].
  apply N.mod_upper_bound. lia.
Qed.

(** The base-64 digits of a code point, with linear equations in place of
    the divisions. *)
Ltac digits64 c :=
  replace (c / 262144)%N with (c / 64 / 64 / 64)%N by (rewrite !N.Div0.div_div; done);
  replace (c / 4096)%N with (c / 64 / 64)%N by (rewrite !N.Div0.div_div; done);
  let q1 := fresh "q" in let r1 := fresh "r" in
  destruct (div64 c) as (q1 & r1 & -> & -> & ? & ?);
  let q2 := fresh "q" in let r2 := fresh "r" in
  destruct (div64 q1) as (q2 & r2 & -> & -> & ? & ?);
  let q3 := fresh "q" in let r3 := fresh "r" in
  destruct (div64 q2) as (q3 & r3 & -> & -> & ? & ?).

Lemma utf8_char_wf c : is_scalar c → wf_bytes (utf8_char c).
Proof.
  unfold is_scalar, utf8_char, is_byte. intros Hc. digits64 c.
  range_solve; repeat constructor; lia.
Qed.

Lemma in_range_spec lo hi b : in_range lo hi b = true ↔ (lo ≤ b ∧ b ≤ hi)%N.
Proof. unfold in_range. rewrite andb_true_iff, !N.leb_le. done. Qed.
Lemma in_range_false lo hi b : in_range lo hi b = false ↔ (b < lo ∨ hi < b)%N.
Proof. unfold in_range. rewrite andb_false_iff, !N.leb_gt. done. Qed.

(** Decide the condition of the outermost [if] by arithmetic. *)
Ltac if_true := match goal with |- (if ?b then _ else _) = _ =>
  replace b with true; [|symmetry; rewrite ?andb_true_iff; unfold is_cont;
    rewrite ?in_range_spec, ?N.ltb_lt, ?N.eqb_eq; lia] end.
Ltac if_false := match goal with |- (if ?b then _ else _) = _ =>
  replace b with false; [|symmetry; unfold is_cont;
    rewrite ?in_range_false, ?N.ltb_ge, ?N.eqb_neq; lia] end.

Lemma from_utf8_1 b0 l : (b0 < 128)%N → from_utf8 (b0 :: l) = cons b0 <$> from_utf8 l.
Proof. intros. cbn [from_utf8]. by if_true. Qed.

Lemma from_utf8_2 b0 b1 l :
  (194 ≤ b0 ≤ 223)%N → (128 ≤ b1 ≤ 191)%N →
  from_utf8 (b0 :: b1 :: l) = cons ((b0 - 192) * 64 + (b1 - 128))%N <$> from_utf8 l.
Proof. intros. cbn [from_utf8]. if_false. if_true. by if_true. Qed.

Lemma from_utf8_3 b0 b1 b2 l :
  (224 ≤ b0 ≤ 239)%N → (128 ≤ b1 ≤ 191)%N → (128 ≤ b2 ≤ 191)%N →
  (b0 = 224 → 160 ≤ b1)%N → (b0 = 237 → b1 ≤ 159)%N →
  from_utf8 (b0 :: b1 :: b2 :: l)
  = cons ((b0 - 224) * 4096 + (b1 - 128) * 64 + (b2 - 128))%N <$> from_utf8 l.
Proof.
  intros. cbn [from_utf8]. if_false. if_false. if_true.
  destruct (N.eqb_spec b0 224), (N.eqb_spec b0 237); by if_true.
Qed.

Lemma from_utf8_4 b0 b1 b2 b3 l :
  (240 ≤ b0 ≤ 244)%N → (128 ≤ b1 ≤ 191)%N → (128 ≤ b2 ≤ 191)%N → (128 ≤ b3 ≤ 191)%N →
  (b0 = 240 → 144 ≤ b1)%N → (b0 = 244 → b1 ≤ 143)%N →
  from_utf8 (b0 :: b1 :: b2 :: b3 :: l)
  = cons ((b0 - 240) * 262144 + (b1 - 128) * 4096 + (b2 - 128) * 64 + (b3 - 128))%N
      <$> from_utf8 l.
Proof.
  intros. cbn [from_utf8]. if_false. if_false. if_false. if_true.
  destruct (N.eqb_spec b0 240), (N.eqb_spec b0 244); by if_true.
Qed.

Lemma from_utf8_char c l :
  is_scalar c → from_utf8 (utf8_char c ++ l) = cons c <$> from_utf8 l.
Proof.
  intros Hc. unfold is_scalar in Hc. unfold utf8_char. digits64 c.
  destruct (N.ltb_spec c 128); [by apply from_utf8_1|].
  destruct (N.ltb_spec c 2048); [|destruct (N.ltb_spec c 65536)]; cbn [app].
  - rewrite from_utf8_2 by lia. f_equal. f_equal. lia.
  - rewrite from_utf8_3 by lia. f_equal. f_equal. lia.
  - rewrite from_utf8_4 by lia. f_equal. f_equal. lia.
Qed.

Lemma from_utf8_app s l : wf_str s → from_utf8 (as_bytes s ++ l) = app s <$> from_utf8 l.
Proof.
  induction 1 as [|c s Hc Hs IH]; [by cbn; destruct (from_utf8 l)|].
  unfold as_bytes in *. rewrite bind_cons, <- app_assoc, from_utf8_char, IH by done.
  by destruct (from_utf8 l).
Qed.

(** A character cut short is not UTF-8. *)
Lemma from_utf8_cut c p q :
  is_scalar c → utf8_char c = p ++ q → p ≠ [] → q ≠ [] → from_utf8 p = None.
Proof.
  intros Hc. unfold is_scalar in Hc. unfold utf8_char. digits64 c.
  destruct (N.ltb_spec c 128); [|destruct (N.ltb_spec c 2048);
    [|destruct (N.ltb_spec c 65536)]];
  destruct p as [|b0 [|b1 [|b2 [|b3 p]]]]; intros Heq; try done; intros _ Hq; injection Heq;
  intros; subst; try done; try (destruct p; done); cbn [from_utf8]; repeat if_false; try done.
Qed.

(** Encoding then decoding gives the string back. *)
Lemma from_utf8_as_bytes s : wf_str s → from_utf8 (as_bytes s) = Some s.
Proof.
  induction 1 as [|c s Hc Hs IH]; [done|].
  unfold as_bytes. rewrite bind_cons, from_utf8_char by done. unfold as_bytes in IH.
  by rewrite IH.
Qed.

(** On what is UTF-8 the lossy decoder loses nothing. *)
Lemma from_utf8_lossy_valid l s : from_utf8 l = Some s → from_utf8_lossy l = s.
Proof.
  remember (length l) as n eqn:Hn. revert l Hn s. induction (lt_wf n) as [n _ IH]. intros l -> s.
  assert (IH1 : ∀ t s, length t < length l → from_utf8 t = Some s → from_utf8_lossy t = s) by (intros t s0 ?; by eapply IH).
  clear IH. destruct l as [|b0 t0]; [by intros [= <-]|]. cbn [from_utf8 from_utf8_lossy].
  destruct (b0 <? 128)%N; [intros (s0 & H & ->)%fmap_Some; f_equal; apply IH1; [cbn; lia|done]|].
  destruct t0 as [|b1 t1]; [done|]. destruct (in_range 194 223 b0).
  { destruct (is_cont b1); [|done]. intros (s0 & H & ->)%fmap_Some; f_equal; apply IH1; [cbn; lia|done]. }
  destruct t1 as [|b2 t2]; [done|]. destruct (in_range 224 239 b0).
  { destruct (in_range _ _ b1); [|done]. cbn [andb]. destruct (is_cont b2); [|done].
    intros (s0 & H & ->)%fmap_Some; f_equal; apply IH1; [cbn; lia|done]. }
  cbn [andb]. destruct t2 as [|b3 t3]; [done|]. destruct (in_range 240 244 b0); [|done]. cbn [andb].
  destruct (in_range _ _ b1); [|done]. destruct (is_cont b2); [|done]. destruct (is_cont b3); [|done].
  intros (s0 & H & ->)%fmap_Some; f_equal; apply IH1; [cbn; lia|done].
Qed.
Lemma from_utf8_lossy_bytes s : wf_str s → from_utf8_lossy (as_bytes s) = s.
Proof. intros Hs. by apply from_utf8_lossy_valid, from_utf8_as_bytes. Qed.

Lemma as_bytes_inj s1 s2 : wf_str s1 → wf_str s2 → as_bytes s1 = as_bytes s2 → s1 = s2.
Proof.
  intros H1 H2 H. apply (f_equal from_utf8) in H.
  rewrite !from_utf8_as_bytes in H by done. congruence.
Qed.

Lemma as_bytes_app s1 s2 : as_bytes (s1 ++ s2) = as_bytes s1 ++ as_bytes s2.
Proof. apply bind_app. Qed.

Lemma as_bytes_wf s : wf_str s → wf_bytes (as_bytes s).
Proof.
  induction 1; [constructor|]. unfold as_bytes. rewrite bind_cons.
  apply Forall_app; split; [by apply utf8_char_wf|done].
Qed.

Definition is_ascii (s : str) : Prop := Forall (λ c, (c < 128)%N) s.

Lemma as_bytes_ascii s : is_ascii s → as_bytes s = s.
Proof.
  induction 1 as [|c s Hc Hs IH]; [done|].
  unfold as_bytes in *. rewrite bind_cons, IH. unfold utf8_char.
  by destruct (N.ltb_spec c 128); [|lia].
Qed.

(** ** Prefixes and suffixes *)

(** [s.strip_prefix(p)] *)
Fixpoint strip_prefix (p s : str) : option str :=
  match p, s with
  | [], _ => Some s
  | a :: p, b :: s => if (a =? b)%N then strip_prefix p s else None
  | _ :: _, [] => None
  end.
(** [s.strip_suffix(p)] *)
Definition strip_suffix (p s : str) : option str :=
  reverse <$> strip_prefix (reverse p) (reverse s).
Definition starts_with (p s : str) : bool := bool_decide (is_Some (strip_prefix p s)).
Definition ends_with (p s : str) : bool := bool_decide (is_Some (strip_suffix p s)).

Lemma strip_prefix_Some p s t : strip_prefix p s = Some t ↔ s = p ++ t.
Proof.
  revert s. induction p as [|a p IH]; intros [|b s]; cbn; try (split; congruence).
  destruct (N.eqb_spec a b) as [->|]; [rewrite IH|]; split; congruence.
Qed.

Lemma strip_suffix_Some p s t : strip_suffix p s = Some t ↔ s = t ++ p.
Proof.
  unfold strip_suffix. rewrite fmap_Some. split.
  - intros (x & Hx & ->). apply strip_prefix_Some in Hx.
    apply (f_equal reverse) in Hx. rewrite reverse_involutive, reverse_app, reverse_involutive in Hx.
    done.
  - intros ->. exists (reverse t). rewrite strip_prefix_Some, reverse_app, reverse_involutive. done.
Qed.

(** ** Character classes *)

Definition is_ascii_digit (c : N) : bool := in_range 48 57 c.
Definition is_ascii_lower (c : N) : bool := in_range 97 122 c.
Definition is_ascii_upper (c : N) : bool := in_range 65 90 c.
Definition ascii_lower (c : N) : N := if is_ascii_upper c then (c + 32)%N else c.
(** [s.to_ascii_lowercase()] *)
Definition to_ascii_lowercase (s : str) : str := ascii_lower <$> s.
Definition is_ascii_alphanumeric (c : N) : bool :=
  is_ascii_digit c || is_ascii_lower c || is_ascii_upper c.
Definition is_ascii_hexdigit (c : N) : bool :=
  in_range 48 57 c || in_range 65 70 c || in_range 97 102 c.

(** ** Lines *)

Definition strip_cr (l : str) : str := default l (strip_suffix [13%N] l).

(** [s.lines()]; [cur] is the line being read. *)
Fixpoint lines_from (cur s : str) : list str :=
  match s with
  | [] => if bool_decide (cur = []) then [] else [cur]
  | c :: s => if (c =? 10)%N then strip_cr cur :: lines_from [] s else lines_from (cur ++ [c]) s
  end.
Definition lines (s : str) : list str := lines_from [] s.

Lemma lines_from_app_nl cur s1 s2 :
  lines_from cur (s1 ++ [10%N] ++ s2) = lines_from cur (s1 ++ [10%N]) ++ lines s2.
Proof.
  revert cur. induction s1 as [|c s1 IH]; intros cur; cbn; [done|].
  destruct (c =? 10)%N; [|apply IH]. cbn. f_equal. apply IH.
Qed.

Lemma lines_from_no_nl cur s :
  10%N ∉ s → lines_from cur s = if bool_decide (cur ++ s = []) then [] else [cur ++ s].
Proof.
  revert cur. induction s as [|c s IH]; intros cur Hs; cbn; [by rewrite app_nil_r|].
  apply not_elem_of_cons in Hs as [Hc Hs]. destruct (N.eqb_spec c 10); [done|].
  rewrite IH by done. by rewrite <- app_assoc.
Qed.

Lemma strip_cr_id l : 13%N ∉ l → strip_cr l = l.
Proof.
  intros H. unfold strip_cr. destruct (strip_suffix _ l) as [t|] eqn:Hs; [|done].
  apply strip_suffix_Some in Hs as ->. exfalso. apply H, elem_of_app. right. by left.
Qed.

Lemma lines_from_line cur s :
  10%N ∉ s → lines_from cur (s ++ [10%N]) = [strip_cr (cur ++ s)].
Proof.
  revert cur. induction s as [|c s IH]; intros cur Hs; cbn; [by rewrite app_nil_r|].
  apply not_elem_of_cons in Hs as [Hc Hs]. destruct (N.eqb_spec c 10); [done|].
  rewrite IH by done. by rewrite <- app_assoc.
Qed.

(** ** Order *)

(** [Ord for str]: the byte order, which is the order of the code points. *)
Fixpoint str_leb (a b : str) : bool :=
  match a, b with
  | [], _ => true
  | _ :: _, [] => false
  | x :: a, y :: b => if (x <? y)%N then true else if (y <? x)%N then false else str_leb a b
  end.
Definition str_le (a b : str) : Prop := str_leb a b = true.
#[export] Instance str_le_dec : RelDecision str_le.
Proof. intros a b. unfold str_le. apply _. Defined.

(** ** Decimal numbers *)

(** [n.to_string()] *)
Definition show_N (n : N) : str := lit (pretty n).

Lemma lit_inj s1 s2 : lit s1 = lit s2 → s1 = s2.
Proof.
  revert s2. induction s1 as [|c1 s1 IH]; intros [|c2 s2]; try done.
  unfold lit in *. cbn. intros [= Hc Hs].
  apply (f_equal Ascii.ascii_of_N) in Hc. rewrite !Ascii.ascii_N_embedding in Hc.
  f_equal; [done|]. by apply IH.
Qed.

Lemma show_N_inj n m : show_N n = show_N m → n = m.
Proof. intros H%lit_inj. by apply (inj pretty) in H. Qed.

(** [s.contains(k)] *)
Fixpoint contains (k s : str) : bool :=
  starts_with k s || match s with [] => false | _ :: s => contains k s end.

(** [s.split(c).next()]: everything before the first [c]. *)
Fixpoint before_char (c : N) (s : str) : str :=
  match s with
  | [] => []
  | x :: s => if (x =? c)%N then [] else x :: before_char c s
  end.

(** ** White space *)

(** [char::is_whitespace]: the code points with the White_Space property. *)
Definition is_whitespace (c : N) : bool :=
  in_range 9 13 c || (c =? 32)%N || (c =? 133)%N || (c =? 160)%N || (c =? 5760)%N ||
  in_range 8192 8202 c || (c =? 8232)%N || (c =? 8233)%N || (c =? 8239)%N || (c =? 8287)%N ||
  (c =? 12288)%N.

Fixpoint trim_start (s : str) : str :=
  match s with
  | [] => []
  | c :: t => if is_whitespace c then trim_start t else s
  end.
Definition trim_end (s : str) : str := reverse (trim_start (reverse s)).
(** [s.trim()] *)
Definition trim (s : str) : str := trim_end (trim_start s).

(** [s.rsplit(p).next()]: everything after the last character in [p]. *)
Definition after_last (p : N → bool) (s : str) : str :=
  foldl (λ acc c, if p c then [] else acc ++ [c]) [] s.

Lemma show_N_digits n : Forall (λ c, 48 ≤ c ∧ c ≤ 57)%N (show_N n).
Proof.
  unfold show_N. change (pretty n) with (if decide (n = 0)%N then "0"%string else pretty_N_go n "").
  case_decide; [repeat constructor; done|].
  assert (Hnil : Forall (λ c, 48 ≤ c ∧ c ≤ 57)%N (lit "")) by constructor.
  revert Hnil. generalize ""%string. induction n as [n IH] using (well_founded_induction N.lt_wf_0).
  intros s Hs. destruct (decide (n = 0)%N) as [->|Hn]; [done|]. rewrite pretty_N_go_step by lia.
  destruct (decide (n / 10 = 0)%N) as [H0|H0].
  2: apply IH; [apply N.div_lt; lia|done|].
  1: rewrite H0, pretty_N_go_0.
  all: constructor; [|exact Hs]; unfold pretty_N_char; assert (n mod 10 < 10)%N by (apply N.mod_lt; lia);
    destruct (n mod 10)%N as [|p]; [done|]; do 4 (try destruct p as [p|p|]); try (cbn; lia).
Qed.

Lemma after_last_spec p s : Forall (λ c, p c = false) (after_last p s).
Proof.
  unfold after_last. induction s as [|c s IH] using rev_ind; [constructor|].
  rewrite foldl_app. cbn. destruct (p c) eqn:Hc; [constructor|]. apply Forall_app. split; [done|].
  by constructor.
Qed.

(** A character in [p] splits the text in what is before the last one and what
    is after it. *)
Lemma after_last_split p s : existsb p s = true → ∃ s1 c, s = s1 ++ c :: after_last p s ∧ p c = true.
Proof.
  unfold after_last. induction s as [|x s IH] using rev_ind; [done|].
  rewrite existsb_app, foldl_app. cbn. rewrite orb_false_r. destruct (p x) eqn:Hx.
  - intros _. by exists s, x.
  - rewrite orb_false_r. intros (s1 & c & Hs & Hc)%IH. exists s1, c. split; [|done].
    by rewrite Hs at 1; rewrite <- app_assoc.
Qed.
Lemma after_last_in p s c : c ∈ after_last p s → c ∈ s.
Proof.
  unfold after_last. induction s as [|x s IH] using rev_ind; [done|]. rewrite foldl_app. cbn.
  destruct (p x); set_solver.
Qed.

Lemma trim_start_in s c : c ∈ trim_start s → c ∈ s.
Proof. induction s as [|x s IH]; cbn; [done|]. destruct (is_whitespace x); set_solver. Qed.
Lemma trim_in s c : c ∈ trim s → c ∈ s.
Proof.
  unfold trim, trim_end. rewrite elem_of_reverse. intros H%trim_start_in. rewrite elem_of_reverse in H.
  by apply trim_start_in.
Qed.

Lemma trim_id s : Forall (λ c, is_whitespace c = false) s → trim s = s.
Proof.
  intros H. assert (∀ t, Forall (λ c, is_whitespace c = false) t → trim_start t = t) as Hs.
  { intros t Ht. destruct t as [|c t]; [done|]. apply Forall_cons in Ht as [Hc _]. cbn. by rewrite Hc. }
  unfold trim, trim_end. rewrite (Hs s H), Hs; [apply reverse_involutive|]. by apply Forall_reverse.
Qed.
