(* ===== verification/Ip.v ===== *)
(** * Addresses as text ([std::net])

    The parser of [IpAddr] and the printers of the standard library, as functions
    that give the rest of the input. *)

From stdpp Require Import pretty.
From S2P Require Import Prelude Str.

(** ** Strings: splitting *)

Definition ch (s : string) : N := nth 0 (lit s) 0%N.

(** [s.find(c)], cut there: before it, and from it on. *)
Fixpoint cut_at (c : N) (s : str) : option (str * str) :=
  match s with
  | [] => None
  | x :: t => if (x =? c)%N then Some ([], s) else '(a, b) ← cut_at c t; Some (x :: a, b)
  end.

(** [s.split_once(c)] *)
Definition split_once (c : N) (s : str) : option (str * str) :=
  '(a, b) ← cut_at c s; Some (a, tail b).

(** [s.rsplit_once(c)] *)
Definition rsplit_once (c : N) (s : str) : option (str * str) :=
  '(a, b) ← split_once c (reverse s); Some (reverse b, reverse a).

(** [s.split(c)] *)
Fixpoint split_from (c : N) (cur s : str) : list str :=
  match s with
  | [] => [cur]
  | x :: s => if (x =? c)%N then cur :: split_from c [] s else split_from c (cur ++ [x]) s
  end.
Definition split (c : N) (s : str) : list str := split_from c [] s.

(** [s.trim_end_matches(c)] *)
Fixpoint trim_start_char (c : N) (s : str) : str :=
  match s with
  | [] => []
  | x :: t => if (x =? c)%N then trim_start_char c t else s
  end.
Definition trim_end_char (c : N) (s : str) : str := reverse (trim_start_char c (reverse s)).

(** [char::is_control] *)
Definition is_control (c : N) : bool := (c <=? 31)%N || in_range 127 159 c.

(** ** Numbers *)

(** [char::to_digit] for radices up to 16. *)
Definition to_digit (radix c : N) : option N :=
  d ← (if in_range 48 57 c then Some (c - 48)%N
       else if in_range 97 102 c then Some (c - 87)%N
       else if in_range 65 70 c then Some (c - 55)%N else None);
  if (d <? radix)%N then Some d else None.

(** [s.parse::<u16>()]: an optional plus sign, then digits. *)
Definition digits_value (s : str) : option N :=
  foldl (λ acc c, n ← acc; d ← to_digit 10 c; Some (10 * n + d)%N) (Some 0%N) s.
Definition parse_u16 (s : str) : option N :=
  let s := default s (strip_prefix (lit "+") s) in
  match s with
  | [] => None
  | _ => n ← digits_value s; if (n <? u16_bound)%N then Some n else None
  end.

(** [read_number]: as many digits as there are; nothing when there are none, too
    many, or a superfluous leading zero, or when the value does not fit. *)
Fixpoint read_digits (radix bound acc : N) (count : nat) (s : str) : option (N * nat * str) :=
  match s with
  | [] => Some (acc, count, s)
  | c :: t =>
      match to_digit radix c with
      | None => Some (acc, count, s)
      | Some d =>
          let n := (acc * radix + d)%N in
          if (n <? bound)%N then read_digits radix bound n (S count) t else None
      end
  end.
Definition read_number (radix bound : N) (max_digits : nat) (allow_zero_prefix : bool) (s : str)
    : option (N * str) :=
  '(n, count, t) ← read_digits radix bound 0 0 s;
  if (count =? 0)%nat || (max_digits <? count)%nat then None
  else if negb allow_zero_prefix && bool_decide (head s = Some 48%N) && (1 <? count)%nat then None
  else Some (n, t).

(** ** IP addresses *)

(** [Ipv4Addr] as four bytes, [Ipv6Addr] as eight segments. *)
Inductive IpAddr := IpV4 (o : list N) | IpV6 (seg : list N).

#[export] Instance ip_eq_dec : EqDecision IpAddr.
Proof. solve_decision. Defined.

Definition read_given (c : N) (s : str) : option str :=
  match s with x :: t => if (x =? c)%N then Some t else None | [] => None end.

(** [read_separator]: the separator before all items but the first. *)
Definition read_sep {A} (c : N) (i : nat) (p : str → option (A * str)) (s : str) : option (A * str) :=
  match i with O => p s | _ => read_given c s ≫= p end.

Definition octet : str → option (N * str) := read_number 10 256 3 false.

Definition read_ipv4 (s : str) : option (list N * str) :=
  '(a, s) ← octet s; '(b, s) ← read_sep (ch ".") 1 octet s;
  '(c, s) ← read_sep (ch ".") 2 octet s; '(d, s) ← read_sep (ch ".") 3 octet s;
  Some ([a; b; c; d], s).

(** [read_groups] from group [i] on, [n] groups left: the groups, whether they
    ended in a dotted quad, and the rest. *)
Fixpoint read_groups (i n : nat) (s : str) : list N * bool * str :=
  match n with
  | O => ([], false, s)
  | S n' =>
      match (if (1 <=? n')%nat then read_sep (ch ":") i read_ipv4 s else None) with
      | Some (([a; b; c; d], t)) => ([a * 256 + b; c * 256 + d]%N, true, t)
      | _ =>
          match read_sep (ch ":") i (read_number 16 65536 4 true) s with
          | Some (g, t) => let '(gs, v4, r) := read_groups (S i) n' t in (g :: gs, v4, r)
          | None => ([], false, s)
          end
      end
  end.

Definition read_ipv6 (s : str) : option (list N * str) :=
  let '(head, v4, s) := read_groups 0 8 s in
  if (length head =? 8)%nat then Some (head, s)
  else if v4 then None
  else
    s ← read_given (ch ":") s; s ← read_given (ch ":") s;
    let '(tail, _, s) := read_groups 0 (8 - (length head + 1)) s in
    Some (head ++ replicate (8 - length tail - length head) 0%N ++ tail, s).

(** [s.parse::<IpAddr>()] and its two parts. *)
Definition whole {A} (r : option (A * str)) : option A :=
  match r with Some (a, []) => Some a | _ => None end.
Definition parse_ipv4 (s : str) : option (list N) :=
  if (15 <? str_len s)%N then None else whole (read_ipv4 s).
Definition parse_ipv6 (s : str) : option (list N) := whole (read_ipv6 s).
Definition parse_ip (s : str) : option IpAddr :=
  whole (match read_ipv4 s with
         | Some (o, t) => Some (IpV4 o, t)
         | None => '(g, t) ← read_ipv6 s; Some (IpV6 g, t)
         end).

Definition is_loopback (ip : IpAddr) : bool :=
  match ip with
  | IpV4 o => bool_decide (head o = Some 127%N)
  | IpV6 g => bool_decide (g = [0; 0; 0; 0; 0; 0; 0; 1]%N)
  end.

(** ** Printing *)

Fixpoint show_hex_fuel (fuel : nat) (n : N) : str :=
  match fuel with
  | O => []
  | S f => (if (n <? 16)%N then [] else show_hex_fuel f (n / 16)) ++
           [if (n mod 16 <? 10)%N then (48 + n mod 16)%N else (87 + n mod 16)%N]
  end.
(** [format!("{n:x}")], for segments. *)
Definition show_hex (n : N) : str := show_hex_fuel 4 n.

Definition join_str (sep : str) (l : list str) : str :=
  match l with [] => [] | x :: l => x ++ (l ≫= λ y, sep ++ y) end.

Definition show_ipv4 (o : list N) : str := join_str (lit ".") (show_N <$> o).

(** The first of the longest runs of zero segments: its start and length. *)
Fixpoint zero_runs (i : nat) (cur best : nat * nat) (g : list N) : nat * nat :=
  match g with
  | [] => best
  | x :: g =>
      if (x =? 0)%N then
        let cur := (if (cur.2 =? 0)%nat then i else cur.1, S cur.2) in
        zero_runs (S i) cur (if (best.2 <? cur.2)%nat then cur else best) g
      else zero_runs (S i) (0, 0) best g
  end.
Definition show_groups (g : list N) : str := join_str (lit ":") (show_hex <$> g).

Definition show_ipv6 (g : list N) : str :=
  match g with
  | [0; 0; 0; 0; 0; 65535; a; b]%N =>
      lit "::ffff:" ++ show_ipv4 [a / 256; a mod 256; b / 256; b mod 256]%N
  | _ =>
      let '(start, len) := zero_runs 0 (0, 0) (0, 0) g in
      if (1 <? len)%nat then show_groups (take start g) ++ lit "::" ++ show_groups (drop (start + len) g)
      else show_groups g
  end.

Definition show_ip (ip : IpAddr) : str :=
  match ip with IpV4 o => show_ipv4 o | IpV6 g => show_ipv6 g end.

(** ** Cutting *)

Lemma cut_at_Some c s a b : cut_at c s = Some (a, b) ↔ s = a ++ b ∧ (c ∉ a) ∧ head b = Some c.
Proof.
  revert a b. induction s as [|x s IH]; intros a b; cbn.
  { split; [done|]. intros (E & _ & Hb). symmetry in E. by apply app_nil in E as [-> ->]. }
  destruct (N.eqb_spec x c) as [->|Hne].
  - split; [intros [= <- <-]; split_and!; [done|apply not_elem_of_nil|done]|].
    intros (E & Ha & Hb). destruct a as [|y a]; [cbn in E; by rewrite E|]. injection E as -> ->.
    exfalso. apply Ha. by left.
  - split.
    + intros ([a' b'] & Hc & [= <- <-])%bind_Some. apply IH in Hc as (-> & ? & ?).
      split_and!; [done| |done]. apply not_elem_of_cons. done.
    + intros (E & Ha & Hb). destruct a as [|y a].
      { cbn in E. rewrite <- E in Hb. by injection Hb as ->. }
      injection E as -> ->. apply not_elem_of_cons in Ha as [? Ha].
      rewrite (proj2 (IH a b)) by done. done.
Qed.

Lemma cut_at_None c s : cut_at c s = None ↔ c ∉ s.
Proof.
  induction s as [|x s IH]; cbn; [split; [intros _; apply not_elem_of_nil|done]|].
  rewrite not_elem_of_cons. destruct (N.eqb_spec x c) as [->|]; [split; [done|by intros []]|].
  rewrite <- IH. destruct (cut_at c s) as [[]|]; cbn; split; try done. by intros [].
Qed.

Lemma split_once_Some c s a b : split_once c s = Some (a, b) ↔ s = a ++ c :: b ∧ c ∉ a.
Proof.
  unfold split_once. split.
  - intros ([a' [|x b']] & (-> & Ha & [=])%cut_at_Some & [= <- <-])%bind_Some. by subst.
  - intros [-> Ha]. by rewrite (proj2 (cut_at_Some c (a ++ c :: b) a (c :: b))).
Qed.

Lemma split_once_None c s : split_once c s = None ↔ c ∉ s.
Proof. unfold split_once. rewrite <- cut_at_None. destruct (cut_at c s) as [[]|]; done. Qed.

Lemma rsplit_once_Some c s a b : rsplit_once c s = Some (a, b) ↔ s = a ++ c :: b ∧ c ∉ b.
Proof.
  unfold rsplit_once. split.
  - intros ([x y] & (E & Hx)%split_once_Some & [= <- <-])%bind_Some. apply (f_equal reverse) in E.
    rewrite reverse_involutive in E. rewrite E, reverse_app, reverse_cons, <- app_assoc, elem_of_reverse. done.
  - intros [-> Hb]. rewrite reverse_app, reverse_cons, <- app_assoc.
    rewrite (proj2 (split_once_Some c _ (reverse b) (reverse a))) by (by rewrite elem_of_reverse).
    cbn. by rewrite !reverse_involutive.
Qed.

Lemma rsplit_once_None c s : rsplit_once c s = None ↔ c ∉ s.
Proof.
  unfold rsplit_once. rewrite <- elem_of_reverse, <- split_once_None.
  destruct (split_once c (reverse s)) as [[]|]; done.
Qed.

Lemma trim_start_char_spec c s : ∃ n, s = replicate n c ++ trim_start_char c s ∧ head (trim_start_char c s) ≠ Some c.
Proof.
  induction s as [|x s (n & E & IH)]; cbn; [by exists 0|]. destruct (N.eqb_spec x c) as [->|Hne].
  - exists (S n). cbn. by rewrite <- E.
  - exists 0. cbn. split; [done|]. by intros [= ->].
Qed.

Lemma trim_end_char_spec c s : ∃ n, s = trim_end_char c s ++ replicate n c ∧ last (trim_end_char c s) ≠ Some c.
Proof.
  unfold trim_end_char. destruct (trim_start_char_spec c (reverse s)) as (n & E & Hh). exists n.
  rewrite last_reverse. split; [|done]. apply (f_equal reverse) in E.
  by rewrite reverse_involutive, reverse_app, reverse_replicate in E.
Qed.

Lemma trim_end_char_id c s : last s ≠ Some c → trim_end_char c s = s.
Proof.
  intros Hl. destruct (trim_end_char_spec c s) as (n & E & _). destruct n as [|n].
  - by rewrite app_nil_r in E.
  - exfalso. apply Hl. rewrite E, replicate_S_end, app_assoc. apply last_snoc.
Qed.

Lemma split_once_cons c x s :
  split_once c (x :: s) = if (x =? c)%N then Some ([], s) else '(a, b) ← split_once c s; Some (x :: a, b).
Proof. unfold split_once. cbn [cut_at]. destruct (x =? c)%N; [done|]. by destruct (cut_at c s) as [[]|]. Qed.
Lemma split_from_eq c s : ∀ cur, split_from c cur s =
  match split_once c s with Some (a, b) => (cur ++ a) :: split c b | None => [cur ++ s] end.
Proof.
  induction s as [|x s IH]; intros cur; [cbn; by rewrite app_nil_r|]. cbn [split_from]. rewrite split_once_cons.
  destruct (x =? c)%N; [by rewrite app_nil_r|]. rewrite IH.
  destruct (split_once c s) as [[a b]|]; cbn [mbind option_bind]; by rewrite <- app_assoc.
Qed.
Lemma split_eq c s : split c s = match split_once c s with Some (a, b) => a :: split c b | None => [s] end.
Proof. unfold split at 1. by rewrite split_from_eq. Qed.
Lemma split_some c s : ∃ x l, split c s = x :: l.
Proof. rewrite split_eq. destruct (split_once c s) as [[a b]|]; eauto. Qed.
Lemma join_cons sep x l : l ≠ [] → join_str sep (x :: l) = x ++ sep ++ join_str sep l.
Proof. destruct l as [|y l]; [done|]. intros _. cbn. by rewrite !app_assoc. Qed.
Lemma split_join c l : l ≠ [] → Forall (λ x, c ∉ x) l → split c (join_str [c] l) = l.
Proof.
  intros Hl0 Hl. induction Hl as [|x l Hx Hl IH]; [done|]. rewrite split_eq. destruct (decide (l = [])) as [->|Hne].
  - change (join_str [c] [x]) with (x ++ []). rewrite app_nil_r. by apply split_once_None in Hx as ->.
  - rewrite join_cons by done. cbn [app]. rewrite (proj2 (split_once_Some c _ x (join_str [c] l))) by done.
    by rewrite IH.
Qed.
Lemma split_none c s : Forall (λ x, c ∉ x) (split c s).
Proof.
  unfold split. assert (H : c ∉ ([] : str)) by set_solver. revert H. generalize ([] : str) as cur.
  induction s as [|x s IH]; intros cur Hc; cbn [split_from]; [by repeat constructor|].
  destruct (N.eqb_spec x c) as [->|]; [constructor; [done|]|]; apply IH; set_solver.
Qed.

Lemma split_from_chars c cur s x :
  x ∈ cur ++ s → x = c ∨ ∃ l, l ∈ split_from c cur s ∧ x ∈ l.
Proof.
  revert cur. induction s as [|y s IH]; intros cur; cbn.
  - rewrite app_nil_r. right. exists cur. split; [by left|done].
  - destruct (N.eqb_spec y c) as [->|].
    + rewrite elem_of_app, elem_of_cons. intros [Hx|[->|Hx]]; [right; exists cur; split; [by left|done]|by left|].
      destruct (IH [] Hx) as [?|(l & ? & ?)]; [by left|]. right. exists l. split; [by right|done].
    + intros Hx. apply IH. rewrite <- app_assoc. done.
Qed.

(** ** What is read *)

Definition ip_char (c : N) : bool := is_ascii_hexdigit c || (c =? 58)%N || (c =? 46)%N.

(** The reader took characters of addresses only. *)
Definition took (s t : str) : Prop := ∃ u, s = u ++ t ∧ Forall (λ c, ip_char c = true) u.

Lemma took_refl s : took s s.
Proof. by exists []. Qed.
Lemma took_trans s t u : took s t → took t u → took s u.
Proof. intros (a & -> & Ha) (b & -> & Hb). exists (a ++ b). rewrite <- app_assoc. split; [done|]. by apply Forall_app. Qed.

Lemma to_digit_char r c d : to_digit r c = Some d → ip_char c = true.
Proof.
  unfold to_digit, ip_char, is_ascii_hexdigit. destruct (in_range 48 57 c); [done|].
  destruct (in_range 97 102 c); [intros _; by rewrite orb_true_r|]. by destruct (in_range 65 70 c).
Qed.

Lemma read_digits_took r b acc k s n k' t : read_digits r b acc k s = Some (n, k', t) → took s t.
Proof.
  revert acc k. induction s as [|c s IH]; intros acc k; cbn; [intros [= _ _ <-]; apply took_refl|].
  destruct (to_digit r c) eqn:Hd; [|intros [= _ _ <-]; apply took_refl].
  destruct (_ <? b)%N; [|done]. intros (u & -> & Hu)%IH. exists (c :: u). split; [done|].
  constructor; [by eapply to_digit_char|done].
Qed.

Lemma read_number_took r b m z s n t : read_number r b m z s = Some (n, t) → took s t.
Proof.
  unfold read_number. intros ([[n' k] t'] & Hr & H)%bind_Some. apply read_digits_took in Hr.
  destruct (_ || _); [done|]. destruct (_ && _ && _); [done|]. by injection H as _ <-.
Qed.

Lemma read_given_took c s t : ip_char c = true → read_given c s = Some t → took s t.
Proof.
  intros Hc. destruct s as [|x s]; cbn; [done|]. destruct (N.eqb_spec x c) as [->|]; [|done].
  intros [= <-]. exists [c]. split; [done|]. by constructor.
Qed.

Lemma read_sep_took {A} c i (p : str → option (A * str)) s a t :
  ip_char c = true → (∀ s a t, p s = Some (a, t) → took s t) → read_sep c i p s = Some (a, t) → took s t.
Proof.
  intros Hc Hp. destruct i; cbn; [apply Hp|]. intros (u & Hu & Ht)%bind_Some.
  eapply took_trans; [by eapply read_given_took|by eapply Hp].
Qed.

Lemma read_ipv4_took s o t : read_ipv4 s = Some (o, t) → took s t.
Proof.
  unfold read_ipv4. intros ([a s1] & H1 & ([b s2] & H2 & ([c s3] & H3 & ([d s4] & H4 & [= _ <-])%bind_Some)%bind_Some)%bind_Some)%bind_Some.
  unfold octet in *. apply read_number_took in H1.
  apply read_sep_took in H2, H3, H4; try done; try (intros *; apply read_number_took).
  eauto using took_trans.
Qed.

Lemma read_groups_took n : ∀ i s g v4 t, read_groups i n s = (g, v4, t) → took s t.
Proof.
  induction n as [|n IH]; intros i s g v4 t; cbn; [intros [= _ _ <-]; apply took_refl|].
  assert (H : (match read_sep (ch ":") i (read_number 16 65536 4 true) s with
          | Some (g, t) => let '(gs, v4, r) := read_groups (S i) n t in (g :: gs, v4, r)
          | None => ([], false, s)
          end) = (g, v4, t) → took s t).
  { destruct (read_sep _ _ _ s) as [[x s1]|] eqn:Hs; [|intros [= _ _ <-]; apply took_refl].
    apply read_sep_took in Hs; [|done|intros *; apply read_number_took].
    destruct (read_groups (S i) n s1) as [[gs b] r] eqn:Hg. apply IH in Hg.
    intros [= _ _ <-]. by eapply took_trans. }
  destruct n as [|n]; [exact H|]. cbn [Nat.leb]. 
  destruct (read_sep _ i read_ipv4 s) as [[o t1]|] eqn:H4; [|exact H].
  apply read_sep_took in H4; [|done|intros *; apply read_ipv4_took].
  do 5 (destruct o as [|? o]; [try exact H|]); try exact H. by intros [= _ _ <-].
Qed.

Lemma read_ipv6_took s g t : read_ipv6 s = Some (g, t) → took s t.
Proof.
  unfold read_ipv6. destruct (read_groups 0 8 s) as [[h v4] s1] eqn:Hh. apply read_groups_took in Hh.
  destruct (_ =? _)%nat; [by intros [= _ <-]|]. destruct v4; [done|].
  intros (s2 & H2 & (s3 & H3 & H)%bind_Some)%bind_Some. apply read_given_took in H2, H3; [|done..].
  destruct (read_groups 0 _ s3) as [[tl ?] s4] eqn:H4. apply read_groups_took in H4. injection H as _ <-.
  eauto using took_trans.
Qed.

Lemma parse_ip_chars s ip : parse_ip s = Some ip → Forall (λ c, ip_char c = true) s.
Proof.
  unfold parse_ip, whole. destruct (read_ipv4 s) as [[o t]|] eqn:H4.
  - apply read_ipv4_took in H4 as (u & -> & Hu). destruct t; [|done]. by rewrite app_nil_r.
  - destruct (read_ipv6 s) as [[g t]|] eqn:H6; cbn; [|done].
    apply read_ipv6_took in H6 as (u & -> & Hu). destruct t; [|done]. by rewrite app_nil_r.
Qed.

(** ** What is printed *)

Lemma show_hex_chars f n : Forall (λ c, ip_char c = true) (show_hex_fuel f n).
Proof.
  revert n. induction f as [|f IH]; intros n; cbn; [done|]. apply Forall_app. split.
  - destruct (n <? 16)%N; [done|apply IH].
  - apply Forall_singleton. assert (n mod 16 < 16)%N as Hm by (by apply N.mod_upper_bound).
    revert Hm. generalize (n mod 16)%N. intros m Hm. unfold ip_char, is_ascii_hexdigit.
    destruct (N.ltb_spec m 10).
    + rewrite (proj2 (in_range_spec 48 57 _)) by lia. done.
    + rewrite (proj2 (in_range_spec 97 102 _)) by lia. by rewrite orb_true_r.
Qed.

Lemma show_N_chars n : Forall (λ c, ip_char c = true) (show_N n).
Proof.
  eapply Forall_impl; [apply show_N_digits|]. intros c [? ?]. unfold ip_char, is_ascii_hexdigit.
  by rewrite (proj2 (in_range_spec 48 57 c)) by lia.
Qed.

Lemma join_str_forall (Q : N → Prop) sep l : Forall Q sep → Forall (Forall Q) l → Forall Q (join_str sep l).
Proof.
  intros Hs. destruct 1 as [|x l Hx Hl]; cbn; [done|]. apply Forall_app. split; [done|].
  induction Hl; cbn; [done|]. rewrite !Forall_app. done.
Qed.

Lemma show_groups_chars g : Forall (λ c, ip_char c = true) (show_groups g).
Proof.
  apply join_str_forall; [by repeat constructor|]. apply Forall_fmap, Forall_true. intros. apply show_hex_chars.
Qed.
Lemma show_ipv4_chars o : Forall (λ c, ip_char c = true) (show_ipv4 o).
Proof.
  apply join_str_forall; [by repeat constructor|]. apply Forall_fmap, Forall_true. intros. apply show_N_chars.
Qed.

Lemma show_ip_chars ip : Forall (λ c, ip_char c = true) (show_ip ip).
Proof.
  destruct ip as [o|g]; [apply show_ipv4_chars|]. cbn. unfold show_ipv6.
  assert (Forall (λ c, ip_char c = true) (let '(start, len) := zero_runs 0 (0, 0) (0, 0) g in
    if (1 <? len)%nat then show_groups (take start g) ++ lit "::" ++ show_groups (drop (start + len) g)
    else show_groups g)).
  { destruct (zero_runs _ _ _ _) as [st len]. destruct (1 <? len)%nat; [|apply show_groups_chars].
    rewrite !Forall_app. split; [apply show_groups_chars|]. split; [by repeat constructor|apply show_groups_chars]. }
  repeat case_match; try done; apply Forall_app; (split; [by repeat constructor|apply show_ipv4_chars]).
Qed.

(** ** Numbers read back *)

Lemma show_char d : (d < 10)%N → to_digit 10 (Ascii.N_of_ascii (pretty_N_char d)) = Some d.
Proof.
  intros Hd. assert (d ∈ [0; 1; 2; 3; 4; 5; 6; 7; 8; 9]%N) as H.
  { rewrite !elem_of_cons. lia. }
  revert H. rewrite !elem_of_cons, elem_of_nil.
  intros H. repeat destruct H as [->|H]; done.
Qed.

Lemma digits_value_show n : digits_value (show_N n) = Some n.
Proof.
  unfold digits_value, show_N. set (step := λ acc c, _).
  assert (H : ∀ n s, (0 < n)%N → foldl step (Some 0%N) (lit (pretty_N_go n s)) = foldl step (Some n) (lit s)).
  { clear n. induction n as [n IH] using (well_founded_induction N.lt_wf_0). intros s Hn.
    rewrite pretty_N_go_step by done.
    assert (Hstep : ∀ m, step (Some m) (Ascii.N_of_ascii (pretty_N_char (n mod 10))) = Some (10 * m + n mod 10)%N).
    { intros m. unfold step. cbn [mbind option_bind]. rewrite show_char by (by apply N.mod_upper_bound). done. }
    destruct (decide (0 < n / 10)%N) as [Hd|Hd].
    - rewrite IH; [|apply N.div_lt; lia|done].
      change (lit (String ?c s)) with (Ascii.N_of_ascii (pretty_N_char (n mod 10)) :: lit s). cbn [foldl].
      rewrite Hstep. by rewrite <- N.div_mod.
    - assert (n / 10 = 0)%N as E by (revert Hd; generalize (n / 10)%N; lia). rewrite E, pretty_N_go_0.
      change (lit (String ?c s)) with (Ascii.N_of_ascii (pretty_N_char (n mod 10)) :: lit s). cbn [foldl].
      rewrite Hstep. assert (n = 10 * (n / 10) + n mod 10)%N as H2 by (by apply N.div_mod). rewrite E in H2.
      f_equal. by rewrite <- H2. }
  unfold pretty, pretty_N. case_decide as Hn; [by subst|]. rewrite H by lia. done.
Qed.

Lemma parse_u16_show n : (n < u16_bound)%N → parse_u16 (show_N n) = Some n.
Proof.
  intros Hn. unfold parse_u16.
  assert (strip_prefix (lit "+") (show_N n) = None) as ->.
  { destruct (strip_prefix _ _) as [t|] eqn:E; [|done]. apply strip_prefix_Some in E.
    pose proof (show_N_digits n) as Hd. rewrite E in Hd. apply Forall_cons in Hd as [[Hd _] _]. vm_compute in Hd. done. }
  cbn [from_option id]. pose proof (digits_value_show n) as Hv. destruct (show_N n) eqn:E.
  - cbn in Hv. injection Hv as <-. discriminate E.
  - rewrite Hv. cbn [mbind option_bind]. by rewrite (proj2 (N.ltb_lt _ _)).
Qed.
