(* ===== verification/Address.v ===== *)
(** * Proxy addresses and the WebSocket handshake ([ws_transport.rs])

    What a user may enter as a proxy, its canonical form, and what is sent to it
    and accepted from it to open a WebSocket. *)

From S2P Require Import Prelude Str Ip.

(** ** Limits and shapes *)

Definition LABEL_MAX : N := 64.
Definition URL_MAX : N := 512.
Definition TOKEN_MAX : N := 1024.
Definition SUBPROTOCOL : str := lit "velta.v1".

Definition b64url (s : str) : bool :=
  forallb (λ c, is_ascii_alphanumeric c || (c =? ch "-")%N || (c =? ch "_")%N) s.

Definition valid_token (t : str) : bool :=
  (str_len t <=? TOKEN_MAX)%N &&
  match split_once (ch ".") t with
  | Some (p, sig) => (4 <=? str_len p)%N && b64url p && (str_len sig =? 43)%N && b64url sig
  | None => false
  end.

Definition valid_device (d : str) : bool := (16 <=? str_len d)%N && (str_len d <=? 64)%N && b64url d.

(** [opt.filter(p)] *)
Definition keep_if {A} (p : A → bool) (o : option A) : option A := a ← o; if p a then Some a else None.

Definition crlf : str := [13; 10]%N.

Definition auth_header (token device : option str) : str :=
  match keep_if valid_token token with
  | Some t =>
      match keep_if valid_device device with
      | Some d => lit "Sec-WebSocket-Protocol: " ++ SUBPROTOCOL ++ lit ", tok." ++ t ++ lit ", dev." ++ d ++ crlf
      | None => lit "Sec-WebSocket-Protocol: " ++ SUBPROTOCOL ++ lit ", tok." ++ t ++ crlf
      end
  | None => []
  end.

Definition DEVICE_LIMIT : str := lit "invite device limit (403): this invite has reached its device limit".

(** [s.split_whitespace()] *)
Fixpoint words_from (cur s : str) : list str :=
  match s with
  | [] => if bool_decide (cur = []) then [] else [cur]
  | c :: s => if is_whitespace c then (if bool_decide (cur = []) then [] else [cur]) ++ words_from [] s
              else words_from (cur ++ [c]) s
  end.
Definition words (s : str) : list str := words_from [] s.

Definition status_code (head : str) : option str := words (default [] (Str.lines head !! 0)) !! 1.

(** Some header line of the name [k] has the value [v]. *)
Definition has_header (head k v : str) : bool :=
  existsb (λ l, match split_once (ch ":") l with
                | Some (a, b) => bool_decide (to_ascii_lowercase (trim a) = k) && bool_decide (trim b = v)
                | None => false
                end) (Str.lines head).

Definition refusal_text (head : str) : str :=
  let code := status_code head in
  if bool_decide (code = Some (lit "401")) then lit "invite refused (401): invalid, expired or revoked"
  else if bool_decide (code = Some (lit "403")) && has_header head (lit "x-velta-refusal") (lit "device-limit")
  then DEVICE_LIMIT
  else lit "proxy refused the WebSocket: " ++ take 60 (default [] (Str.lines head !! 0)).

(** ** Addresses *)

Record ProxyUrl := MkUrl { pu_tls : bool; pu_host : str; pu_port : N; pu_base : str }.

Definition label_ok (l : str) : bool :=
  negb (bool_decide (l = [])) && (str_len l <=? 63)%N && negb (starts_with (lit "-") l) && negb (ends_with (lit "-") l) &&
  forallb (λ c, is_ascii_alphanumeric c || (c =? ch "-")%N) l.

Definition valid_dns_name (h : str) : bool :=
  (str_len h <=? 253)%N && existsb (λ c, c =? ch ".")%N h && forallb label_ok (split (ch ".") h).

Definition is_ip (h : str) : bool := bool_decide (is_Some (parse_ip h)).

Definition is_loopback_name (h : str) : bool :=
  bool_decide (h = lit "localhost") || from_option is_loopback false (parse_ip h).

(** The messages of [parse_proxy_url]. *)
Inductive url_error := EEnter | ESpaces | EOnlyWss | ECredentials | EPath | EAddress | EPort | EHost.

#[export] Instance url_error_eq_dec : EqDecision url_error.
Proof. solve_decision. Defined.

Definition path_char (c : N) : bool :=
  is_ascii_alphanumeric c || bool_decide (c ∈ lit "/-._~").

Definition default_port (tls : bool) : N := if tls then 443%N else 80%N.

(** Scheme and the rest. *)
Definition scheme_of (lower : str) : result url_error (bool * str) :=
  match strip_prefix (lit "wss://") lower with
  | Some r => Ok (true, r)
  | None =>
      match strip_prefix (lit "ws://") lower with
      | Some r => Ok (false, r)
      | None => if contains (lit "://") lower then Err EOnlyWss else Ok (true, lower)
      end
  end.

(** Host and what follows it, with its colon. *)
Definition host_port (authority : str) : result url_error (str * str) :=
  match strip_prefix (lit "[") authority with
  | Some r => ok_or (split_once (ch "]") r) EAddress
  | None =>
      Ok match rsplit_once (ch ":") authority with
         | Some (h, p) => (h, ch ":" :: p)
         | None => (authority, [])
         end
  end.

Definition port_of (tls : bool) (p : str) : result url_error N :=
  match p with
  | [] => Ok (default_port tls)
  | _ => ok_or (keep_if (λ n, 0 <? n)%N (strip_prefix (lit ":") p ≫= parse_u16)) EPort
  end.

Definition bad_path (path : str) : bool :=
  negb (bool_decide (path = [])) && negb (forallb path_char path)
  || contains (lit "//") path || contains (lit "/../") path || ends_with (lit "/..") path.

Definition parse_proxy_url (raw : str) : result url_error ProxyUrl :=
  let s := trim raw in
  _ ← ensure (negb (bool_decide (s = [])) && (str_len s <=? URL_MAX)%N) EEnter;
  _ ← ensure (negb (existsb (λ c, is_whitespace c || is_control c) s)) ESpaces;
  '(tls, rest) ← scheme_of (to_ascii_lowercase s);
  _ ← ensure (negb (existsb (λ c, bool_decide (c ∈ lit "?#@\")) rest)) ECredentials;
  let '(authority, path) := match cut_at (ch "/") rest with
                            | Some (a, p) => (a, trim_end_char (ch "/") p)
                            | None => (rest, [])
                            end in
  _ ← ensure (negb (bad_path path)) EPath;
  '(host, port) ← host_port authority;
  port ← port_of tls port;
  let host := trim_end_char (ch ".") host in
  _ ← ensure (is_ip host || valid_dns_name host || bool_decide (host = lit "localhost")) EHost;
  _ ← ensure (tls || is_loopback_name host) EOnlyWss;
  Ok (MkUrl tls host port path).

(** The host, in brackets when it has a colon. *)
Definition host_text (h : str) : str :=
  if existsb (λ c, c =? ch ":")%N h then lit "[" ++ h ++ lit "]" else h.

Definition port_text (tls : bool) (port : N) : str :=
  if (port =? default_port tls)%N then [] else lit ":" ++ show_N port.

Definition to_url (p : ProxyUrl) : str :=
  lit (if pu_tls p then "wss" else "ws") ++ lit "://" ++ host_text (pu_host p) ++
  port_text (pu_tls p) (pu_port p) ++ pu_base p.

Definition host_header (p : ProxyUrl) : str := host_text (pu_host p) ++ port_text (pu_tls p) (pu_port p).

Definition dns_path (p : ProxyUrl) (host : str) : str :=
  pu_base p ++ lit "/dns/" ++ to_ascii_lowercase (trim_end_char (ch ".") host).

Definition tcp_path (p : ProxyUrl) (ip : IpAddr) (port : N) : str :=
  pu_base p ++ lit "/tcp/" ++ show_ip ip ++ lit "/" ++ show_N port.

(** ** The handshake *)

(** The request of [ws_connect]; [key] is in base 64. *)
Definition request (p : ProxyUrl) (path key : str) (token device : option str) : str :=
  lit "GET " ++ path ++ lit " HTTP/1.1" ++ crlf ++
  lit "Host: " ++ host_header p ++ crlf ++
  lit "Upgrade: websocket" ++ crlf ++
  lit "Connection: Upgrade" ++ crlf ++
  lit "Sec-WebSocket-Key: " ++ key ++ crlf ++
  lit "Sec-WebSocket-Version: 13" ++ crlf ++
  auth_header token device ++
  lit "User-Agent: Velta" ++ crlf ++ crlf.

Inductive upgrade_error := EClosed | ERefused (text : str) | EAccept.

(** The head of the answer, byte by byte, to the empty line; [None] when it is
    too long or ends before. *)
Fixpoint read_head (head answer : bytes) : option (bytes * bytes) :=
  if ends_with [13; 10; 13; 10]%N head then Some (head, answer)
  else if (8192 <? N.of_nat (length head))%N then None
  else match answer with [] => None | b :: rest => read_head (head ++ [b]) rest end.

(** What [ws_connect] makes of the head; [text] is the head decoded, [want] the
    accept key for the key it sent. *)
Definition judge (text want : str) : result upgrade_error unit :=
  if bool_decide (status_code text = Some (lit "101")) then
    ensure (has_header text (lit "sec-websocket-accept") want) EAccept
  else Err (ERefused (refusal_text text)).

(** ** Characters *)

(** A property of the characters below 128, checked one by one. *)
Lemma ascii_all (Q : N → bool) : forallb (λ n, Q (N.of_nat n)) (seq 0 128) = true → ∀ c, (c < 128)%N → Q c = true.
Proof.
  intros H c Hc. rewrite forallb_forall in H. rewrite <- (N2Nat.id c). apply H, in_seq. lia.
Qed.

(** What an address consists of. *)
Definition url_char (c : N) : bool := is_ascii_alphanumeric c || bool_decide (c ∈ lit "/-._~:[]").
(** A character that ends no word and no line. *)
Definition visible (c : N) : bool := in_range 33 126 c.

Lemma url_char_ascii c : url_char c = true → (c < 128)%N.
Proof.
  unfold url_char, is_ascii_alphanumeric, is_ascii_digit, is_ascii_lower, is_ascii_upper.
  rewrite !orb_true_iff, !in_range_spec, bool_decide_eq_true. intros [?|H]; [lia|].
  assert (Forall (λ c, c < 128)%N (lit "/-._~:[]")) as Hf by (by repeat constructor).
  rewrite Forall_forall in Hf. by apply Hf.
Qed.

Lemma url_char_plain c : url_char c = true →
  is_whitespace c = false ∧ is_control c = false ∧ (c ∉ lit "?#@\") ∧ visible c = true.
Proof.
  intros Hc. pose proof (ascii_all (λ c, negb (url_char c) || (negb (is_whitespace c) && negb (is_control c)
    && negb (bool_decide (c ∈ lit "?#@\")) && visible c)) eq_refl c (url_char_ascii c Hc)) as H.
  cbv beta in H. rewrite Hc in H. cbn [negb orb] in H.
  rewrite !andb_true_iff, !negb_true_iff, bool_decide_eq_false in H. tauto.
Qed.

Lemma ip_char_url c : ip_char c = true → url_char c = true.
Proof.
  unfold ip_char, url_char, is_ascii_hexdigit, is_ascii_alphanumeric, is_ascii_digit, is_ascii_lower, is_ascii_upper.
  rewrite !orb_true_iff, !in_range_spec, !N.eqb_eq, bool_decide_eq_true.
  intros [[[[?|?]|?]| ->]| ->]; [left; lia..|right; by apply (bool_decide_unpack _)|right; by apply (bool_decide_unpack _)].
Qed.

Lemma path_char_url c : path_char c = true → url_char c = true.
Proof.
  unfold path_char, url_char. rewrite !orb_true_iff, !bool_decide_eq_true. intros [?|H]; [by left|right].
  assert (Forall (λ c, c ∈ lit "/-._~:[]") (lit "/-._~")) as Hf by (apply (bool_decide_unpack _); by vm_compute).
  rewrite Forall_forall in Hf. by apply Hf.
Qed.

Lemma b64url_visible s : b64url s = true → Forall (λ c, visible c = true) s.
Proof.
  unfold b64url. rewrite forallb_forall. intros H. apply Forall_forall. intros c Hc%list_elem_of_In.
  specialize (H c Hc). revert H.
  unfold visible, is_ascii_alphanumeric, is_ascii_digit, is_ascii_lower, is_ascii_upper.
  rewrite !orb_true_iff, !in_range_spec, !N.eqb_eq. intros [[[[?|?]|?]| ->]| ->]; try lia; by vm_compute.
Qed.

Lemma split_chars c s x : x ∈ s → x = c ∨ ∃ l, l ∈ split c s ∧ x ∈ l.
Proof. intros H. by apply (split_from_chars c [] s). Qed.

Definition host_form (h : str) : bool := is_ip h || valid_dns_name h || bool_decide (h = lit "localhost").

(** The characters of a host; a colon only in an IP address. *)
Lemma host_chars h : host_form h = true → Forall (λ c, url_char c = true ∧ c ≠ ch "/" ∧ c ≠ ch "]" ∧ c ≠ ch "[") h.
Proof.
  unfold host_form. rewrite !orb_true_iff, bool_decide_eq_true. intros [[H|H]| ->].
  - unfold is_ip in H. apply bool_decide_eq_true in H as [ip H]. apply parse_ip_chars in H.
    eapply Forall_impl; [exact H|]. intros c Hc. split; [by apply ip_char_url|].
    split_and!; intros ->; by vm_compute in Hc.
  - unfold valid_dns_name in H. apply andb_prop in H as [_ H]. rewrite forallb_forall in H.
    apply Forall_forall. intros c Hc. apply (split_chars (ch ".")) in Hc as [->|(l & Hl & Hc)].
    { split_and!; by vm_compute. }
    apply list_elem_of_In, H in Hl. unfold label_ok in Hl. apply andb_prop in Hl as [_ Hl].
    rewrite forallb_forall in Hl. apply list_elem_of_In, Hl in Hc. apply orb_prop in Hc as [Hc|Hc%N.eqb_eq].
    + split; [unfold url_char; by rewrite Hc|]. split_and!; intros ->; by vm_compute in Hc.
    + subst. split_and!; by vm_compute.
  - apply (bool_decide_unpack _). by vm_compute.
Qed.

Lemma no_colon h : host_form h = true → ch ":" ∈ h → is_ip h = true.
Proof.
  unfold host_form. rewrite !orb_true_iff, bool_decide_eq_true. intros [[H|H]| ->] Hin; [done| |].
  - exfalso. unfold valid_dns_name in H. apply andb_prop in H as [_ H]. rewrite forallb_forall in H.
    apply (split_chars (ch ".")) in Hin as [E|(l & Hl & Hc)]; [by vm_compute in E|].
    apply list_elem_of_In, H in Hl. unfold label_ok in Hl. apply andb_prop in Hl as [_ Hl].
    rewrite forallb_forall in Hl. apply list_elem_of_In, Hl in Hc. by vm_compute in Hc.
  - exfalso. revert Hin. apply (bool_decide_unpack _). by vm_compute.
Qed.

(** ** What the parser gives *)

Record wf_url (p : ProxyUrl) : Prop := {
  wu_host : host_form (pu_host p) = true;
  wu_lower : Forall (λ c, is_ascii_upper c = false) (pu_host p ++ pu_base p);
  wu_dot : last (pu_host p) ≠ Some (ch ".");
  wu_port : (0 < pu_port p < u16_bound)%N;
  wu_base : pu_base p = [] ∨ head (pu_base p) = Some (ch "/");
  wu_slash : last (pu_base p) ≠ Some (ch "/");
  wu_path : bad_path (pu_base p) = false;
  wu_tls : pu_tls p || is_loopback_name (pu_host p) = true;
}.

Lemma lowered s : Forall (λ c, is_ascii_upper c = false) (to_ascii_lowercase s).
Proof.
  apply Forall_fmap, Forall_true. intros c. unfold ascii_lower, compose, is_ascii_upper.
  destruct (in_range 65 90 c) eqn:E; [|done]. apply in_range_spec in E. apply in_range_false. lia.
Qed.

Lemma to_lower_id s : Forall (λ c, is_ascii_upper c = false) s → to_ascii_lowercase s = s.
Proof. induction 1 as [|c s Hc _ IH]; cbn; [done|]. unfold ascii_lower at 1. rewrite Hc. f_equal. exact IH. Qed.

(** Parts of a text keep what holds of its characters. *)
Lemma trim_end_char_sub (Q : N → Prop) c s : Forall Q s → Forall Q (trim_end_char c s).
Proof. destruct (trim_end_char_spec c s) as (n & E & _). rewrite E at 1. by rewrite Forall_app; intros []. Qed.

Lemma scheme_sub (Q : N → Prop) s tls r : scheme_of s = Ok (tls, r) → Forall Q s → Forall Q r.
Proof.
  unfold scheme_of. destruct (strip_prefix (lit "wss://") s) eqn:E1.
  { apply strip_prefix_Some in E1. subst. intros [= _ <-]. by rewrite Forall_app; intros []. }
  destruct (strip_prefix (lit "ws://") s) eqn:E2.
  { apply strip_prefix_Some in E2. subst. intros [= _ <-]. by rewrite Forall_app; intros []. }
  destruct (contains _ _); [done|]. by intros [= _ <-].
Qed.

Lemma host_port_sub (Q : N → Prop) a h p : host_port a = Ok (h, p) → Forall Q a → Forall Q h.
Proof.
  unfold host_port. destruct (strip_prefix (lit "[") a) as [r|] eqn:E.
  - apply strip_prefix_Some in E. subst. intros [-> _]%ok_or_ok%split_once_Some. rewrite !Forall_app. by intros (_ & ? & _).
  - destruct (rsplit_once (ch ":") a) as [[x y]|] eqn:E2; intros [= <- <-]; [|done].
    apply rsplit_once_Some in E2 as [-> _]. by rewrite Forall_app; intros [].
Qed.

Lemma digits_below s n : parse_u16 s = Some n → (n < u16_bound)%N.
Proof.
  unfold parse_u16. destruct (default _ _); [done|]. intros (m & _ & H)%bind_Some.
  destruct (N.ltb_spec m u16_bound); [|done]. by injection H as ->.
Qed.

Lemma port_of_range tls p n : port_of tls p = Ok n → (0 < n < u16_bound)%N.
Proof.
  unfold port_of. destruct p as [|c p]; [intros [= <-]; by destruct tls|].
  intros H%ok_or_ok. unfold keep_if in H. apply bind_Some in H as (m & Hm & H).
  apply bind_Some in Hm as (q & _ & Hm%digits_below).
  destruct (N.ltb_spec 0 m); [|done]. by injection H as <-.
Qed.

Lemma parse_proxy_url_wf raw p : parse_proxy_url raw = Ok p → wf_url p.
Proof.
  unfold parse_proxy_url. cbv zeta. set (s := trim raw).
  intros ([] & _ & ([] & _ & ([tls rest] & Hsch & ([] & _ & H)%bind_ok)%bind_ok)%bind_ok)%bind_ok.
  pose proof (scheme_sub _ _ _ _ Hsch (lowered s)) as Hlow.
  set (ap := match cut_at (ch "/") rest with Some (a, q) => (a, trim_end_char (ch "/") q) | None => (rest, []) end) in H.
  assert (Hap : Forall (λ c, is_ascii_upper c = false) ap.1 ∧ Forall (λ c, is_ascii_upper c = false) ap.2 ∧
    (ap.2 = [] ∨ head ap.2 = Some (ch "/")) ∧ last ap.2 ≠ Some (ch "/")).
  { subst ap. destruct (cut_at (ch "/") rest) as [[a q]|] eqn:E; [|split_and!; try done; by left].
    apply cut_at_Some in E as (-> & _ & Hh). apply Forall_app in Hlow as [Ha Hq]. cbn [fst snd].
    destruct (trim_end_char_spec (ch "/") q) as (n & Eq & Hl).
    split_and!; [done|by apply trim_end_char_sub| |done].
    destruct (trim_end_char (ch "/") q) as [|x t]; [by left|right]. rewrite Eq in Hh. exact Hh. }
  destruct ap as [authority path]. cbn [fst snd] in Hap. destruct Hap as (Hla & Hlp & Hb & Hs).
  apply bind_ok in H as ([] & Hpath%ensure_ok & H). apply bind_ok in H as ([host pt] & Hhp & H).
  apply bind_ok in H as (port & Hport & H). apply bind_ok in H as ([] & Hform%ensure_ok & H).
  apply bind_ok in H as ([] & Htls%ensure_ok & [= <-]).
  pose proof (host_port_sub _ _ _ _ Hhp Hla) as Hlh.
  destruct (trim_end_char_spec (ch ".") host) as (n & _ & Hdot).
  split; cbn [pu_host pu_port pu_base pu_tls]; try done.
  - apply Forall_app. split; [by apply trim_end_char_sub|done].
  - by eapply port_of_range.
  - by apply negb_true_iff.
Qed.

(** ** Canonical addresses *)

Lemma forall_not_in {A} (l : list A) x : Forall (λ y, y ≠ x) l → x ∉ l.
Proof. rewrite Forall_forall. intros H Hx. by apply (H x). Qed.

Lemma port_text_cases tls n :
  (port_text tls n = [] ∧ n = default_port tls) ∨ port_text tls n = ch ":" :: show_N n.
Proof. unfold port_text. destruct (N.eqb_spec n (default_port tls)); [by left|by right]. Qed.

Lemma show_N_in n c : c ∈ show_N n → is_ascii_digit c = true.
Proof.
  pose proof (show_N_digits n) as H. rewrite Forall_forall in H. intros [? ?]%H. by apply in_range_spec.
Qed.

Lemma port_text_chars tls n : Forall (λ c, url_char c = true ∧ c ≠ ch "/" ∧ c ≠ ch "]" ∧ c ≠ ch "[" ∧
  is_ascii_upper c = false) (port_text tls n).
Proof.
  destruct (port_text_cases tls n) as [[-> _]| ->]; [constructor|]. constructor; [split_and!; by vm_compute|].
  apply Forall_forall. intros c Hc%show_N_in.
  pose proof (ascii_all (λ c, negb (is_ascii_digit c) || (url_char c && negb (c =? ch "/")%N && negb (c =? ch "]")%N
    && negb (c =? ch "[")%N && negb (is_ascii_upper c))) eq_refl c) as H.
  cbv beta in H. rewrite Hc in H. cbn [negb orb] in H.
  rewrite !andb_true_iff, !negb_true_iff, !N.eqb_neq in H.
  assert (c < 128)%N by (apply in_range_spec in Hc; lia). tauto.
Qed.

(** The host as written, read back. *)
Lemma host_text_cases h : host_form h = true →
  (host_text h = h ∧ (ch ":" ∉ h)) ∨ (host_text h = lit "[" ++ h ++ lit "]" ∧ is_ip h = true).
Proof.
  intros Hf. unfold host_text. destruct (existsb _ h) eqn:E.
  - right. split; [done|]. apply no_colon; [done|]. apply existsb_exists in E as (c & Hc & ->%N.eqb_eq).
    by apply list_elem_of_In.
  - left. split; [done|]. intros Hin. apply list_elem_of_In in Hin.
    assert (existsb (λ c, c =? ch ":")%N h = true) as E'; [|by rewrite E in E'].
    apply existsb_exists. exists (ch ":"). split; [done|by vm_compute].
Qed.

Lemma host_text_chars h : host_form h = true →
  Forall (λ c, url_char c = true ∧ c ≠ ch "/") (host_text h).
Proof.
  intros Hf. assert (Forall (λ c, url_char c = true ∧ c ≠ ch "/") h) as Hh.
  { eapply Forall_impl; [by apply host_chars|]. cbv beta. tauto. }
  destruct (host_text_cases h Hf) as [[-> _]|[-> _]]; [done|].
  apply Forall_app. split; [by repeat constructor|]. apply Forall_app. split; [done|by repeat constructor].
Qed.

Lemma host_port_read h tls n : host_form h = true → host_port (host_text h ++ port_text tls n) = Ok (h, port_text tls n).
Proof.
  intros Hf. pose proof (host_chars h Hf) as Hh. unfold host_port.
  destruct (host_text_cases h Hf) as [[-> Hc]|[-> _]].
  - assert (strip_prefix (lit "[") (h ++ port_text tls n) = None) as ->.
    { destruct (strip_prefix _ _) as [t|] eqn:E; [|done]. apply strip_prefix_Some in E.
      assert (ch "[" ∉ h ++ port_text tls n) as Hno; [|rewrite E in Hno; by destruct Hno; left].
      apply forall_not_in, Forall_app. split.
      - eapply Forall_impl; [exact Hh|]. cbv beta. tauto.
      - eapply Forall_impl; [apply port_text_chars|]. cbv beta. tauto. }
    destruct (port_text_cases tls n) as [[-> _]| ->].
    + by rewrite app_nil_r, (proj2 (rsplit_once_None _ _) Hc).
    + rewrite (proj2 (rsplit_once_Some (ch ":") _ h (show_N n))); [done|]. split; [done|].
      intros Hin%show_N_in. by vm_compute in Hin.
  - rewrite <- app_assoc, (proj2 (strip_prefix_Some _ _ (h ++ lit "]" ++ port_text tls n))) by (by rewrite <- app_assoc).
    rewrite (proj2 (split_once_Some (ch "]") _ h (port_text tls n))); [done|]. split; [done|].
    apply forall_not_in. eapply Forall_impl; [exact Hh|]. cbv beta. tauto.
Qed.

Lemma port_of_read tls n : (0 < n < u16_bound)%N → port_of tls (port_text tls n) = Ok n.
Proof.
  intros [Hn Hb]. destruct (port_text_cases tls n) as [[-> ->]| ->]; [done|]. unfold port_of.
  rewrite (proj2 (strip_prefix_Some (lit ":") _ (show_N n))) by done. cbn [mbind option_bind].
  rewrite parse_u16_show by done. unfold keep_if. cbn [mbind option_bind].
  by rewrite (proj2 (N.ltb_lt 0 n)).
Qed.

Lemma bad_path_chars b : bad_path b = false → Forall (λ c, url_char c = true) b.
Proof.
  unfold bad_path. rewrite !orb_false_iff, andb_false_iff, !negb_false_iff. intros [[[[H|H] _] _] _].
  - apply bool_decide_eq_true in H. by subst.
  - apply Forall_forall. intros c Hc%list_elem_of_In. rewrite forallb_forall in H. by apply path_char_url, H.
Qed.

Lemma to_url_chars p : wf_url p → Forall (λ c, url_char c = true ∧ is_ascii_upper c = false) (to_url p).
Proof.
  intros H. unfold to_url. pose proof (wu_lower p H) as Hl. apply Forall_app in Hl as [Hlh Hlb].
  rewrite !Forall_app. split_and!.
  - destruct (pu_tls p); by repeat constructor.
  - by repeat constructor.
  - assert (Forall (λ c, is_ascii_upper c = false) (host_text (pu_host p))) as Hu.
    { destruct (host_text_cases _ (wu_host p H)) as [[-> _]|[-> _]]; [done|].
      apply Forall_app. split; [by repeat constructor|]. apply Forall_app. split; [done|by repeat constructor]. }
    apply Forall_and. split; [|done]. eapply Forall_impl; [by apply host_text_chars, wu_host|]. by intros c [].
  - eapply Forall_impl; [apply port_text_chars|]. cbv beta. tauto.
  - apply Forall_and. split; [by apply bad_path_chars, wu_path|done].
Qed.

Lemma scheme_of_url (tls : bool) (r : str) : scheme_of (lit (if tls then "wss" else "ws") ++ lit "://" ++ r) = Ok (tls, r).
Proof. by destruct tls. Qed.

Lemma existsb_false_forall {A} (f : A → bool) l : Forall (λ x, f x = false) l → existsb f l = false.
Proof. induction 1 as [|x l Hx _ IH]; cbn; [done|]. by rewrite Hx. Qed.

(** The canonical form of an address reads back as that address. *)
Lemma parse_to_url p : wf_url p → (str_len (to_url p) ≤ URL_MAX)%N → parse_proxy_url (to_url p) = Ok p.
Proof.
  intros H Hlen. pose proof (to_url_chars p H) as Hc.
  assert (Forall (λ c, url_char c = true) (to_url p)) as Hu by (eapply Forall_impl; [exact Hc|]; by intros c []).
  assert (Forall (λ c, is_ascii_upper c = false) (to_url p)) as Hlow by (eapply Forall_impl; [exact Hc|]; by intros c []).
  unfold parse_proxy_url. cbv zeta. rewrite trim_id.
  2: { eapply Forall_impl; [exact Hu|]. intros c Hx. by apply url_char_plain. }
  rewrite (bool_decide_false (to_url p = [])) by (unfold to_url; by destruct (pu_tls p)).
  rewrite (proj2 (N.leb_le _ _) Hlen). cbn [negb andb ensure mbind result_bind].
  rewrite existsb_false_forall.
  2: { eapply Forall_impl; [exact Hu|]. intros c Hx. apply url_char_plain in Hx as (-> & -> & _). done. }
  cbn [negb ensure mbind result_bind]. rewrite (to_lower_id _ Hlow).
  unfold to_url in Hu |- *. rewrite scheme_of_url. cbn [mbind result_bind]. rewrite !Forall_app in Hu.
  set (auth := host_text (pu_host p) ++ port_text (pu_tls p) (pu_port p)). rewrite app_assoc. fold auth.
  rewrite existsb_false_forall.
  2: { apply (Forall_impl (λ c, url_char c = true)); [subst auth; rewrite !Forall_app; tauto|].
       intros c Hx. apply bool_decide_eq_false. by apply url_char_plain. }
  cbn [negb ensure mbind result_bind].
  assert (ch "/" ∉ auth) as Hslash.
  { apply forall_not_in. unfold auth. apply Forall_app. split.
    - eapply Forall_impl; [by apply host_text_chars, wu_host|]. by intros c [].
    - eapply Forall_impl; [apply port_text_chars|]. cbv beta. tauto. }
  assert (match cut_at (ch "/") (auth ++ pu_base p) with
          | Some (a, q) => (a, trim_end_char (ch "/") q) | None => (auth ++ pu_base p, []) end = (auth, pu_base p)) as ->.
  { destruct (wu_base p H) as [E|E].
    - by rewrite E, app_nil_r, (proj2 (cut_at_None _ _) Hslash).
    - rewrite (proj2 (cut_at_Some (ch "/") _ auth (pu_base p))) by done. by rewrite trim_end_char_id by apply H. }
  rewrite (wu_path p H). cbn [negb ensure mbind result_bind]. unfold auth.
  rewrite host_port_read by apply H. cbn [mbind result_bind]. rewrite port_of_read by apply H.
  cbn [mbind result_bind]. rewrite trim_end_char_id by apply H. pose proof (wu_host p H) as Hf. unfold host_form in Hf.
  rewrite Hf. cbn [ensure mbind result_bind]. rewrite (wu_tls p H). by destruct p.
Qed.

(** an address that is accepted is stored in its canonical form, which is
    accepted again and means the same, unless adding the scheme has made it longer
    than an address may be. *)
Theorem canonical_url raw p :
  parse_proxy_url raw = Ok p →
  wf_url p ∧ (parse_proxy_url (to_url p) = Ok p ∨ (URL_MAX < str_len (to_url p))%N).
Proof.
  intros H%parse_proxy_url_wf. split; [done|].
  destruct (decide (str_len (to_url p) ≤ URL_MAX)%N); [left; by apply parse_to_url|right; lia].
Qed.

Lemma canonical_url_witness :
  parse_proxy_url (lit " WSS://[::1]:8443/Relay/ ") = Ok (MkUrl true (lit "::1") 8443 (lit "/relay")) ∧
  wf_url (MkUrl true (lit "::1") 8443 (lit "/relay")) ∧
  (parse_proxy_url (lit "wss://[::1]:8443/relay") = Ok (MkUrl true (lit "::1") 8443 (lit "/relay")) ∨
   (URL_MAX < str_len (lit "wss://[::1]:8443/relay"))%N).
Proof.
  assert (parse_proxy_url (lit " WSS://[::1]:8443/Relay/ ") = Ok (MkUrl true (lit "::1") 8443 (lit "/relay"))) as H
    by (vm_compute; reflexivity).
  split; [exact H|]. exact (canonical_url _ _ H).
Defined.

(** ** What the request says *)

(** Text that stays on its line. *)
Abbreviation one_line := (Forall (λ c : N, c ≠ 10 ∧ c ≠ 13)%N).

Lemma visible_one_line s : Forall (λ c, visible c = true) s → one_line s.
Proof. intros H. eapply Forall_impl; [exact H|]. intros c [? ?]%in_range_spec. lia. Qed.

Lemma url_chars_visible s : Forall (λ c, url_char c = true) s → Forall (λ c, visible c = true) s.
Proof. intros H. eapply Forall_impl; [exact H|]. intros c Hc. by apply url_char_plain. Qed.

Definition block (ls : list str) : str := ls ≫= λ l, l ++ crlf.

(** Lines put one below the other are the lines of the text. *)
Lemma lines_block ls : Forall one_line ls → Str.lines (block ls) = ls.
Proof.
  induction 1 as [|l ls Hl _ IH]; [done|]. unfold block. rewrite bind_cons.
  change (l ++ crlf) with (l ++ [13] ++ [10])%N. rewrite app_assoc, <- app_assoc.
  unfold Str.lines at 1. rewrite lines_from_app_nl, lines_from_line.
  - unfold block in IH. rewrite IH. cbn [app]. f_equal. unfold strip_cr.
    by rewrite (proj2 (strip_suffix_Some _ _ l)).
  - rewrite elem_of_app. intros [H|H%list_elem_of_singleton]; [|done]. rewrite Forall_forall in Hl.
    by destruct (Hl _ H) as [Hn _].
Qed.

Lemma visible_space c : visible c = true → is_whitespace c = false.
Proof.
  intros [? ?]%in_range_spec. unfold is_whitespace. rewrite !orb_false_iff, !in_range_false, !N.eqb_neq. lia.
Qed.

(** The words of a text without spaces in between. *)
Lemma words_from_visible cur s t :
  Forall (λ c, visible c = true) s → words_from cur (s ++ t) = words_from (cur ++ s) t.
Proof.
  intros Hs. revert cur. induction Hs as [|c s Hc _ IH]; intros cur; cbn; [by rewrite app_nil_r|].
  rewrite (visible_space c Hc).
  by rewrite IH, <- app_assoc.
Qed.

(** The lines of the request, the answer to what the caller asks for apart. *)
Definition request_lines (p : ProxyUrl) (path key : str) (token device : option str) : list str :=
  [lit "GET " ++ path ++ lit " HTTP/1.1"; lit "Host: " ++ host_header p; lit "Upgrade: websocket";
   lit "Connection: Upgrade"; lit "Sec-WebSocket-Key: " ++ key; lit "Sec-WebSocket-Version: 13"] ++
  match keep_if valid_token token with
  | Some t => [lit "Sec-WebSocket-Protocol: " ++ SUBPROTOCOL ++ lit ", tok." ++ t ++
                 from_option (λ d, lit ", dev." ++ d) [] (keep_if valid_device device)]
  | None => []
  end ++ [lit "User-Agent: Velta"; []].

Lemma keep_if_Some {A} (Q : A → bool) o x : keep_if Q o = Some x → Q x = true.
Proof. unfold keep_if. intros (y & _ & H)%bind_Some. destruct (Q y) eqn:E; [|done]. by injection H as <-. Qed.

Lemma token_visible t : valid_token t = true → Forall (λ c, visible c = true) t.
Proof.
  unfold valid_token. intros [_ H]%andb_prop. destruct (split_once (ch ".") t) as [[a b]|] eqn:E; [|done].
  apply split_once_Some in E as [-> _]. rewrite !andb_true_iff in H. destruct H as (((_ & Ha) & _) & Hb).
  apply Forall_app. split; [by apply b64url_visible|]. constructor; [done|by apply b64url_visible].
Qed.

Lemma device_visible d : valid_device d = true → Forall (λ c, visible c = true) d.
Proof. unfold valid_device. rewrite !andb_true_iff. intros [_ H]. by apply b64url_visible. Qed.

Lemma host_header_visible p : wf_url p → Forall (λ c, visible c = true) (host_header p).
Proof.
  intros H. apply url_chars_visible. unfold host_header. apply Forall_app. split.
  - eapply Forall_impl; [by apply host_text_chars, H|]. by intros c [].
  - eapply Forall_impl; [apply port_text_chars|]. cbv beta. tauto.
Qed.

Lemma request_block p path key token device :
  request p path key token device = block (request_lines p path key token device).
Proof.
  unfold request, request_lines, auth_header. unfold block. rewrite !bind_app, !bind_cons. cbn [mbind list_bind].
  destruct (keep_if valid_token token) as [t|]; [destruct (keep_if valid_device device) as [d|]|];
    cbn [mbind list_bind from_option]; rewrite ?app_nil_r, <- ?app_assoc, ?app_nil_l; reflexivity.
Qed.

(** The request has the lines it is meant to have and no other. *)
Lemma lines_request p path key token device :
  wf_url p → Forall (λ c, visible c = true) path → Forall (λ c, visible c = true) key →
  Str.lines (request p path key token device) = request_lines p path key token device.
Proof.
  intros Hp Hpath%visible_one_line Hkey%visible_one_line. rewrite request_block. apply lines_block.
  pose proof (visible_one_line _ (host_header_visible p Hp)) as Hh.
  assert (∀ a b : str, one_line a → one_line b → one_line (a ++ b)) as Happ by (intros a b; apply Forall_app_2).
  unfold request_lines. apply Forall_app. split; [|apply Forall_app; split].
  - rewrite !Forall_cons. split_and!; try apply Forall_nil_2.
    all: repeat (assumption || apply Happ); apply (bool_decide_unpack _); by vm_compute.
  - destruct (keep_if valid_token token) as [t|] eqn:Et; [|constructor].
    apply keep_if_Some, token_visible, visible_one_line in Et. constructor; [|constructor].
    repeat (apply Happ || assumption); try (by repeat constructor).
    destruct (keep_if valid_device device) as [d|] eqn:Ed; cbn [from_option]; [|constructor].
    apply keep_if_Some, device_visible, visible_one_line in Ed. apply Happ; [by repeat constructor|done].
  - by repeat constructor.
Qed.

Lemma words_request path : Forall (λ c, visible c = true) path → path ≠ [] →
  words (lit "GET " ++ path ++ lit " HTTP/1.1") = [lit "GET"; path; lit "HTTP/1.1"].
Proof.
  intros Hp Hne. unfold words. change (lit "GET " ++ path ++ lit " HTTP/1.1")
    with (lit "GET" ++ 32%N :: (path ++ 32%N :: lit "HTTP/1.1")).
  rewrite words_from_visible by (by repeat constructor). cbn [words_from app].
  rewrite words_from_visible by done. cbn [words_from app].
  rewrite (bool_decide_false (path = [])) by done. reflexivity.
Qed.
