(* ===== verification/Json.v ===== *)
(** * JSON documents

    The stores of the application are functions on [serde_json::Value], which
    is another crate's: [Json] is the part of its interface that the code uses,
    [JsonLaws] what the crate documents of it.  [tree] is an instance, for
    concrete runs. *)

From stdpp Require Import countable.
From S2P Require Import Prelude Str.

(** ** Signed machine integers *)

Abbreviation i64_max := 9223372036854775807%Z.
Abbreviation i64_min := (-9223372036854775808)%Z.
Definition is_i64 (z : Z) : Prop := (i64_min ≤ z ≤ i64_max)%Z.

(** [+] and [-] on [i64], which wrap. *)
Definition wrap_i64 (z : Z) : Z := ((z - i64_min) mod 18446744073709551616 + i64_min)%Z.
Definition add_i64 (a b : Z) : Z := wrap_i64 (a + b).
Definition sub_i64 (a b : Z) : Z := wrap_i64 (a - b).

#[export] Instance is_i64_dec z : Decision (is_i64 z).
Proof. unfold is_i64. apply _. Defined.

Lemma wrap_i64_range z : is_i64 (wrap_i64 z).
Proof. unfold is_i64, wrap_i64. pose proof (Z.mod_pos_bound (z - i64_min) 18446744073709551616). lia. Qed.
Lemma wrap_i64_id z : is_i64 z → wrap_i64 z = z.
Proof. unfold is_i64, wrap_i64. intros H. rewrite Z.mod_small; lia. Qed.

(** A finite [f64]: a sign, a mantissa and a power of two. *)
Record f64 := F64 { f_neg : bool; f_mant : N; f_exp : Z }.

(** [f.round() as i64]: half away from zero, saturating. *)
Definition f64_round_i64 (f : f64) : Z :=
  let m := Z.of_N (f_mant f) in
  let a := if (0 <=? f_exp f)%Z then (m * 2 ^ f_exp f)%Z
           else ((m + 2 ^ (- f_exp f - 1)) / 2 ^ (- f_exp f))%Z in
  Z.max i64_min (Z.min i64_max (if f_neg f then (- a)%Z else a)).

Lemma f64_round_range f : is_i64 (f64_round_i64 f).
Proof. unfold is_i64, f64_round_i64. lia. Qed.

(** ** The interface *)

Class Json := {
  value : Type;
  value_eq_dec :: EqDecision value;
  null : value;
  of_bool : bool → value;
  of_i64 : Z → value;
  of_u64 : N → value;
  of_str : str → value;
  of_list : list value → value;
  (** [json!({ ... })] *)
  obj : list (str * value) → value;
  as_bool : value → option bool;
  as_i64 : value → option Z;
  as_u64 : value → option N;
  as_f64 : value → option f64;
  as_str : value → option str;
  as_array : value → option (list value);
  is_object : value → bool;
  (** [v.get(k)] *)
  get : value → str → option value;
  (** [v[k] = x]; [None]: it panics, [v] is neither an object nor null. *)
  set : value → str → value → option value;
  (** [serde_json::from_str], [v.to_string()]. *)
  from_str : str → option value;
  to_string : value → str;
}.

(** [v[k]]: null when there is no such entry, or no object. *)
Definition index `{Json} (v : value) (k : str) : value := default null (get v k).

(** [&mut v[k]] makes the entry first. *)
Definition touch `{Json} (v : value) (k : str) : option value :=
  match get v k with Some _ => Some v | None => set v k null end.

Notation "v .[ k ]" := (index v (lit k)) (at level 1, left associativity, format "v .[ k ]") : velta_scope.

(** [plain n v]: the numbers in [v] are integers and arrays and objects nest at
    most [n] deep.  The parser stops at 128 levels, and it does not read every
    [f64] back exactly. *)
Class JsonLaws {J : Json} := {
  plain : nat → value → Prop;
  as_bool_of b : as_bool (of_bool b) = Some b;
  as_i64_of z : is_i64 z → as_i64 (of_i64 z) = Some z;
  as_u64_of n : (n < u64_bound)%N → as_u64 (of_u64 n) = Some n;
  as_str_of s : as_str (of_str s) = Some s;
  as_array_of l : as_array (of_list l) = Some l;
  as_str_inv v s : as_str v = Some s → v = of_str s;
  as_array_inv v l : as_array v = Some l → v = of_list l;
  as_i64_range v z : as_i64 v = Some z → is_i64 z;
  as_null : as_bool null = None ∧ as_i64 null = None ∧ as_u64 null = None ∧ as_f64 null = None ∧
            as_str null = None ∧ as_array null = None ∧ is_object null = false;
  of_bool_inj b c : of_bool b = of_bool c → b = c;
  null_bool b : null ≠ of_bool b;
  object_bool v : is_object v = true → as_bool v = None;
  get_is_object v k x : get v k = Some x → is_object v = true;
  obj_is_object l : is_object (obj l) = true;
  get_obj l k x : NoDup l.*1 → (k, x) ∈ l → get (obj l) k = Some x;
  get_obj_none l k : k ∉ l.*1 → get (obj l) k = None;
  set_object v k x : is_object v = true → is_Some (set v k x);
  set_null k x : set null k x = Some (obj [(k, x)]);
  set_is_object v k x v' : set v k x = Some v' → is_object v' = true;
  get_set v k x v' : set v k x = Some v' → get v' k = Some x;
  get_set_ne v k x v' j : set v k x = Some v' → j ≠ k → get v' j = get v j;
  plain_leaf n : plain n null ∧ (∀ b, plain n (of_bool b)) ∧ (∀ z, plain n (of_i64 z)) ∧
                 (∀ m, plain n (of_u64 m)) ∧ (∀ s, plain n (of_str s));
  plain_list n l : plain (S n) (of_list l) ↔ Forall (plain n) l;
  plain_obj n l : Forall (plain n) l.*2 → plain (S n) (obj l);
  plain_get n v k x : plain (S n) v → get v k = Some x → plain n x;
  plain_set n v k x v' : plain (S n) v → plain n x → set v k x = Some v' → plain (S n) v';
  from_to_string v : plain 127 v → from_str (to_string v) = Some v;
}.
#[export] Existing Instance value_eq_dec.

Section JsonFacts.
Context {J : Json} {JL : JsonLaws}.

Lemma index_get v k x : get v k = Some x → index v k = x.
Proof. unfold index. by intros ->. Qed.

Lemma index_set v k x v' : set v k x = Some v' → index v' k = x.
Proof. intros H. eapply index_get, get_set, H. Qed.

Lemma index_set_ne v k x v' j : set v k x = Some v' → j ≠ k → index v' j = index v j.
Proof. intros H Hj. unfold index. by rewrite (get_set_ne _ _ _ _ _ H Hj). Qed.

Lemma index_obj l k x : NoDup l.*1 → (k, x) ∈ l → index (obj l) k = x.
Proof. intros. by apply index_get, get_obj. Qed.

Lemma touch_is_object v k v' : touch v k = Some v' → is_object v' = true.
Proof.
  unfold touch. destruct (get v k) eqn:E; [intros [= <-]; by eapply get_is_object|apply set_is_object].
Qed.

Lemma index_is_object v k : index v k ≠ null → is_object v = true.
Proof. unfold index. destruct (get v k) eqn:E; [intros _; by eapply get_is_object|done]. Qed.

Lemma as_str_object v k s : as_str (index v k) = Some s → is_object v = true.
Proof. intros H. apply (index_is_object _ k). intros E. rewrite E in H. by rewrite (proj1 (proj2 (proj2 (proj2 (proj2 as_null))))) in H. Qed.

Lemma as_bool_null : as_bool null = None. Proof. apply as_null. Qed.
Lemma as_i64_null : as_i64 null = None. Proof. apply as_null. Qed.
Lemma as_str_null : as_str null = None. Proof. apply as_null. Qed.
Lemma as_array_null : as_array null = None. Proof. apply as_null. Qed.

Lemma plain_null n : plain n null. Proof. apply plain_leaf. Qed.
Lemma plain_bool n b : plain n (of_bool b). Proof. apply plain_leaf. Qed.
Lemma plain_i64 n z : plain n (of_i64 z). Proof. apply plain_leaf. Qed.
Lemma plain_str n s : plain n (of_str s). Proof. apply plain_leaf. Qed.
Lemma plain_i64_option n o : plain n (default null (of_i64 <$> o)).
Proof. destruct o; apply plain_leaf. Qed.

End JsonFacts.

Create HintDb plain.
#[export] Hint Resolve plain_null plain_bool plain_i64 plain_str plain_i64_option : plain.

Create Rewrite HintDb json.
#[export] Hint Rewrite @as_bool_of @as_str_of @as_array_of @as_bool_null @as_i64_null @as_str_null
  @as_array_null : json.

(** Two literal keys differ. *)
Ltac keys := first [done | apply (bool_decide_unpack _); vm_compute; exact I].

(** ** A concrete implementation *)

Module Tree.

#[local] Set Warnings "-register-all".
Inductive tree :=
  | Null | Bool (b : bool) | Num (z : Z) | Str (s : str)
  | Arr (l : list tree) | Obj (l : list (str * tree)).

Fixpoint to_gen (t : tree) : gen_tree (bool + Z + str) :=
  match t with
  | Null => GenNode 0 [] | Bool b => GenLeaf (inl (inl b)) | Num z => GenLeaf (inl (inr z))
  | Str s => GenLeaf (inr s) | Arr l => GenNode 1 (to_gen <$> l)
  | Obj l => GenNode 2 ((λ kv, GenNode 3 [GenLeaf (inr kv.1); to_gen kv.2]) <$> l)
  end.
Fixpoint of_gen (g : gen_tree (bool + Z + str)) : tree :=
  match g with
  | GenLeaf (inl (inl b)) => Bool b | GenLeaf (inl (inr z)) => Num z | GenLeaf (inr s) => Str s
  | GenNode 1 l => Arr (of_gen <$> l)
  | GenNode 2 l => Obj ((λ g, match g with GenNode _ [GenLeaf (inr k); v] => (k, of_gen v) | _ => ([], Null) end) <$> l)
  | GenNode _ _ => Null
  end.

Lemma of_to_gen : ∀ t, of_gen (to_gen t) = t.
Proof.
  fix IH 1. intros [|b|z|s|l|l]; [reflexivity..| |].
  - cbn. f_equal. induction l as [|x l IHl]; [done|]. cbn. by rewrite IH, IHl.
  - cbn. f_equal. induction l as [|[k x] l IHl]; [done|]. cbn. by rewrite IH, IHl.
Qed.
#[export] Instance tree_eq_dec : EqDecision tree.
Proof.
  assert (Inj (=) (=) to_gen) by (intros x y E; by rewrite <- (of_to_gen x), <- (of_to_gen y), E).
  exact (inj_eq_dec to_gen).
Defined.

Definition print (t : tree) : str := (λ x, Npos (encode x)) <$> gen_tree_to_list (to_gen t).
Definition parse (s : str) : option tree :=
  of_gen <$> (mapM (λ n, match n with N0 => None | Npos p => decode p end) s ≫= gen_tree_of_list []).

Lemma parse_print t : parse (print t) = Some t.
Proof.
  unfold parse, print.
  assert (mapM (λ n, match n with N0 => None | Npos p => decode p end)
    ((λ x, Npos (encode x)) <$> gen_tree_to_list (to_gen t)) = Some (gen_tree_to_list (to_gen t))) as ->.
  { apply mapM_Some, Forall2_fmap_l, Forall_Forall2_diag, Forall_forall. intros x _. apply decode_encode. }
  cbn. rewrite <- (right_id_L [] (++) (gen_tree_to_list _)), gen_tree_of_to_list. cbn. by rewrite of_to_gen.
Qed.

(** *** Objects, sorted by key *)
Fixpoint find (k : str) (l : list (str * tree)) : option tree :=
  match l with [] => None | (j, x) :: l => if bool_decide (j = k) then Some x else find k l end.
Fixpoint ins (k : str) (x : tree) (l : list (str * tree)) : list (str * tree) :=
  match l with
  | [] => [(k, x)]
  | (j, y) :: l => if bool_decide (j = k) then (k, x) :: l
                   else if str_leb k j then (k, x) :: (j, y) :: l else (j, y) :: ins k x l
  end.
Definition build (l : list (str * tree)) : list (str * tree) := foldl (λ a kv, ins kv.1 kv.2 a) [] l.

Lemma find_ins k x l : find k (ins k x l) = Some x.
Proof.
  induction l as [|[j y] l IH]; cbn; [by rewrite bool_decide_true|].
  repeat case_match; cbn; repeat case_bool_decide; done.
Qed.
Lemma find_ins_ne k x l j : j ≠ k → find j (ins k x l) = find j l.
Proof.
  intros Hj. induction l as [|[i y] l IH]; cbn; [by rewrite bool_decide_false|].
  repeat case_match; cbn; repeat case_bool_decide; simplify_eq; done.
Qed.

Lemma find_build_out l k a : k ∉ l.*1 → find k (foldl (λ a kv, ins kv.1 kv.2 a) a l) = find k a.
Proof.
  revert a. induction l as [|[j y] l IH]; intros a Hk; cbn; [done|].
  cbn in Hk. apply not_elem_of_cons in Hk as [? Hk]. rewrite IH by done. by apply find_ins_ne.
Qed.
Lemma find_build l k x a : NoDup l.*1 → (k, x) ∈ l → find k (foldl (λ a kv, ins kv.1 kv.2 a) a l) = Some x.
Proof.
  revert a. induction l as [|[j y] l IH]; intros a Hnd Hin; [by apply elem_of_nil in Hin|].
  cbn in *. apply NoDup_cons in Hnd as [Hj Hnd]. apply elem_of_cons in Hin as [[= -> ->]|Hin].
  - rewrite find_build_out by done. apply find_ins.
  - by apply IH.
Qed.

(** *** Nesting *)
Fixpoint depth (t : tree) : nat :=
  match t with
  | Arr l => S (foldr (λ x m, max (depth x) m) 0 l)
  | Obj l => S (foldr (λ kv m, max (depth kv.2) m) 0 l)
  | _ => 0
  end.

Lemma depth_list n l : foldr (λ x m, max (depth x) m) 0 l ≤ n ↔ Forall (λ x, depth x ≤ n) l.
Proof. induction l as [|x l IH]; cbn; [split; [done|lia]|]. rewrite Forall_cons, <- IH. lia. Qed.
Lemma depth_obj n (l : list (str * tree)) :
  foldr (λ kv m, max (depth kv.2) m) 0 l ≤ n ↔ Forall (λ kv, depth kv.2 ≤ n) l.
Proof. induction l as [|x l IH]; cbn; [split; [done|lia]|]. rewrite Forall_cons, <- IH. lia. Qed.

Lemma ins_forall (Q : tree → Prop) k x l :
  Q x → Forall (λ kv, Q kv.2) l → Forall (λ kv : str * tree, Q kv.2) (ins k x l).
Proof. intros Hx. induction 1 as [|[j y] l Hy Hl IH]; cbn; repeat case_match; repeat constructor; done. Qed.
Lemma build_forall (Q : tree → Prop) l a :
  Forall Q l.*2 → Forall (λ kv, Q kv.2) a →
  Forall (λ kv : str * tree, Q kv.2) (foldl (λ a kv, ins kv.1 kv.2 a) a l).
Proof.
  revert a. induction l as [|[j y] l IH]; intros a Hl Ha; cbn in *; [done|].
  apply Forall_cons in Hl as [? ?]. apply IH; [done|]. by apply ins_forall.
Qed.
Lemma find_forall (Q : tree → Prop) k x l : Forall (λ kv, Q kv.2) l → find k l = Some x → Q x.
Proof. induction 1 as [|[j y] l Hy Hl IH]; cbn; [done|]. case_bool_decide; [by intros [= <-]|done]. Qed.

#[export] Instance json : Json := {|
  value := tree; null := Null; of_bool := Bool; of_i64 := Num; of_u64 n := Num (Z.of_N n);
  of_str := Str; of_list := Arr; obj l := Obj (build l);
  as_bool t := match t with Bool b => Some b | _ => None end;
  as_i64 t := match t with Num z => if decide (is_i64 z) then Some z else None | _ => None end;
  as_u64 t := match t with Num z => if bool_decide (0 ≤ z < 18446744073709551616)%Z then Some (Z.to_N z) else None | _ => None end;
  as_f64 t := match t with Num z => Some (F64 (z <? 0)%Z (Z.abs_N z) 0) | _ => None end;
  as_str t := match t with Str s => Some s | _ => None end;
  as_array t := match t with Arr l => Some l | _ => None end;
  is_object t := match t with Obj _ => true | _ => false end;
  get t k := match t with Obj l => find k l | _ => None end;
  set t k x := match t with Obj l => Some (Obj (ins k x l)) | Null => Some (Obj (build [(k, x)])) | _ => None end;
  from_str := parse; to_string := print |}.

#[export] Instance json_laws : JsonLaws.
Proof.
  unshelve econstructor; [exact (λ n t, depth t ≤ n)|..].
  all: try done; try solve [intros []; intros; simplify_eq/=; done].
  - intros z Hz. cbn. by rewrite decide_True.
  - intros n Hn. cbn. rewrite bool_decide_true by lia. by rewrite N2Z.id.
  - intros [| |y| | |] z; cbn; try done. case_decide; [by intros [= <-]|done].
  - intros l k x Hnd Hin. by apply find_build.
  - intros l k Hk. cbn. unfold build. by rewrite find_build_out.
  - intros [| | | | |l] k x v' [= <-]; apply find_ins.
  - intros [| | | | |l] k x v' j [= <-] Hj; cbn; [by rewrite bool_decide_false|by apply find_ins_ne].
  - intros n. cbn. repeat split; intros; lia.
  - intros n l. cbn. rewrite <- Nat.succ_le_mono. apply depth_list.
  - intros n l Hl. cbn. rewrite <- Nat.succ_le_mono. apply depth_obj. by apply (build_forall (λ t, depth t ≤ n)).
  - intros n [| | | | |l] k x; cbn; try done. rewrite <- Nat.succ_le_mono, depth_obj.
    intros Hl. by apply (find_forall (λ t, depth t ≤ n)).
  - intros n [| | | | |l] k x v' Hv Hx [= <-]; cbn in *; [lia|]. rewrite <- Nat.succ_le_mono, depth_obj in *.
    by apply (ins_forall (λ t, depth t ≤ n)).
  - intros v _. apply parse_print.
Defined.

End Tree.
