(* ===== verification/Scheduled.v ===== *)
(** * Messages to be sent later ([scheduled_store.rs], [scheduled.rs])

    The document of scheduled messages, the operations on it, and the run that
    sends what is due while the page keeps editing. *)

From S2P Require Import Prelude Str Json.

Section Store.
Context {J : Json}.

(** ** The document *)

Definition TEXT_MAX : N := 65536.
Definition STALE_SENDING_MS : Z := 120000.
Definition BACKOFF_MS : list Z := [60000; 300000; 900000; 3600000]%Z.

Definition empty : value := obj [(lit "version", of_i64 1); (lit "items", of_list [])].

Definition backoff_ms (attempts : Z) : Z :=
  nth (Z.to_nat (Z.max 1 (Z.min attempts (Z.of_nat (length BACKOFF_MS))) - 1)) BACKOFF_MS 0%Z.

Definition is_string (v : value) : bool := bool_decide (is_Some (as_str v)).

Definition normalize (doc : value) : value :=
  match get doc (lit "items") ≫= as_array with
  | Some items =>
      obj [(lit "version", of_i64 1); (lit "items", of_list (base.filter (λ it, is_string it.["id"] = true) items))]
  | None => empty
  end.

(** [items_mut]: the document with the array it makes if there is none, and the
    array. *)
Definition items_mut (doc : value) : option (value * list value) :=
  doc ← match as_array doc.["items"] with
        | Some _ => Some doc
        | None => set doc (lit "items") (of_list [])
        end;
  pair doc <$> as_array doc.["items"].

Definition items (doc : value) : list value := default [] (as_array doc.["items"]).

Definition status (it : value) : str := default [] (as_str it.["status"]).
Definition uncertain (it : value) : bool := default false (as_bool it.["uncertain"]).

Definition i (v : value) : option Z :=
  match as_i64 v with Some z => Some z | None => f64_round_i64 <$> as_f64 v end.

(** [t.encode_utf16().count()] *)
Definition utf16_len (t : str) : N := foldr (λ c n, (if c <? 65536 then 1 else 2) + n)%N 0%N t.

Definition valid_text (t : str) : bool :=
  negb (bool_decide (trim t = [])) && (utf16_len t <=? TEXT_MAX)%N.

(** ** The operations *)

Definition op_id (op : value) : str := default [] (as_str op.["id"]).

Definition has_id (id : str) (it : value) : bool := bool_decide (as_str it.["id"] = Some id).

(** The closure [find] of [apply]. *)
Definition find (doc : value) (id : str) : option (value * list value * option nat) :=
  '(doc, l) ← items_mut doc; Some (doc, l, fst <$> list_find (λ it, has_id id it = true) l).

(** Several assignments [it[k] = x] in a row. *)
Definition assign (it : value) (l : list (str * value)) : option value :=
  foldl (λ v kx, v ≫= λ v, set v kx.1 kx.2) (Some it) l.

(** The document with its items replaced. *)
Definition put (doc : value) (l : list value) (r : value) : option (value * value) :=
  doc ← set doc (lit "items") (of_list l); Some (doc, r).

Definition new_item (nid : str) (acc chat : Z) (text : str) (quote : option Z) (due now : Z) : value :=
  obj [(lit "id", of_str nid); (lit "accountId", of_i64 acc); (lit "chatId", of_i64 chat);
       (lit "text", of_str text); (lit "quoteId", default null (of_i64 <$> quote));
       (lit "dueAt", of_i64 due); (lit "createdAt", of_i64 now); (lit "status", of_str (lit "pending"));
       (lit "error", null); (lit "attempts", of_i64 0); (lit "retryAt", null); (lit "claimedAt", null);
       (lit "uncertain", of_bool false)].

Definition bad (what : string) : value := obj [(lit "error", of_str (lit what))].

Definition op_add (doc op : value) (now : Z) (nid : str) : option (value * value) :=
  let src := op.["item"] in
  let text := default [] (as_str src.["text"]) in
  match i src.["dueAt"], i src.["accountId"], i src.["chatId"] with
  | Some due, Some acc, Some chat =>
      if negb (valid_text text) || (due <=? 0)%Z then Some (doc, bad "empty or too long")
      else '(doc, l) ← items_mut doc;
           put doc (l ++ [new_item nid acc chat text (i src.["quoteId"]) due now])
             (obj [(lit "id", of_str nid)])
  | _, _, _ => Some (doc, bad "bad item")
  end.

Definition op_update (doc op : value) : option (value * value) :=
  '(doc, l, ix) ← find doc (op_id op);
  match ix with
  | None => Some (doc, of_bool false)
  | Some ix =>
      it ← l !! ix;
      if bool_decide (status it = lit "sending") then Some (doc, of_bool false)
      else
        let finish it := 
          it ← assign it [(lit "status", of_str (lit "pending")); (lit "error", null);
                          (lit "retryAt", null); (lit "uncertain", of_bool false)];
          put doc (<[ix := it]> l) (of_bool true) in
        let time it :=
          if bool_decide (op.["dueAt"] = null) then finish it
          else match i op.["dueAt"] with
               | Some d => if (0 <? d)%Z then it ← set it (lit "dueAt") (of_i64 d); finish it
                           else put doc (<[ix := it]> l) (of_bool false)
               | None => put doc (<[ix := it]> l) (of_bool false)
               end in
        match as_str op.["text"] with
        | Some t => if valid_text t then it ← set it (lit "text") (of_str t); time it
                    else Some (doc, of_bool false)
        | None => time it
        end
  end.

Definition op_remove (doc op : value) : option (value * value) :=
  '(doc, l, ix) ← find doc (op_id op);
  match ix with
  | None => Some (doc, of_bool false)
  | Some ix =>
      it ← l !! ix;
      if bool_decide (status it = lit "sending") then Some (doc, of_bool false)
      else put doc (delete ix l) (of_bool true)
  end.

Definition op_claim (doc op : value) (now : Z) : option (value * value) :=
  '(doc, l, ix) ← find doc (op_id op);
  match ix with
  | None => Some (doc, of_bool false)
  | Some ix =>
      it ← l !! ix;
      if bool_decide (status it = lit "sending") || uncertain it then Some (doc, of_bool false)
      else it ← assign it [(lit "status", of_str (lit "sending")); (lit "claimedAt", of_i64 now)];
           put doc (<[ix := it]> l) (of_bool true)
  end.

Definition op_done (doc op : value) : option (value * value) :=
  '(doc, l, ix) ← find doc (op_id op);
  match ix with
  | None => Some (doc, of_bool false)
  | Some ix => put doc (delete ix l) (of_bool true)
  end.

Definition op_fail (doc op : value) (now : Z) : option (value * value) :=
  '(doc, l, ix) ← find doc (op_id op);
  match ix with
  | None => Some (doc, of_bool false)
  | Some ix =>
      let unc := default false (as_bool op.["uncertain"]) in
      let err := take 300 (default (lit "Send failed") (as_str op.["error"])) in
      it ← l !! ix;
      let attempts := add_i64 (default 0%Z (as_i64 it.["attempts"])) 1 in
      it ← assign it [(lit "attempts", of_i64 attempts); (lit "status", of_str (lit "error"));
                      (lit "error", of_str err); (lit "claimedAt", null); (lit "uncertain", of_bool unc);
                      (lit "retryAt", if unc then null else of_i64 (add_i64 now (backoff_ms attempts)))];
      put doc (<[ix := it]> l) (of_bool true)
  end.

Definition INTERRUPTED : str :=
  lit "Interrupted while sending " ++ [8212%N] ++ lit " check the chat before sending again".

Definition interrupted (now : Z) (it : value) : bool :=
  let claimed := default 0%Z (as_i64 it.["claimedAt"]) in
  bool_decide (status it = lit "sending") && (STALE_SENDING_MS <=? sub_i64 now claimed)%Z.

Fixpoint recover_items (now : Z) (l : list value) : option (list value * Z) :=
  match l with
  | [] => Some ([], 0%Z)
  | it :: l =>
      '(it, k) ← (if interrupted now it then
                    it ← assign it [(lit "status", of_str (lit "error"));
                                    (lit "error", of_str INTERRUPTED);
                                    (lit "uncertain", of_bool true); (lit "retryAt", null);
                                    (lit "claimedAt", null)];
                    Some (it, 1%Z)
                  else Some (it, 0%Z));
      '(l, n) ← recover_items now l; Some (it :: l, (k + n)%Z)
  end.

Definition op_recover (doc : value) (now : Z) : option (value * value) :=
  '(doc, l) ← items_mut doc; '(l, n) ← recover_items now l; put doc l (of_i64 n).

(** [apply]: the new document and the result; [None]: it panics. *)
Definition apply (doc op : value) (now : Z) (new_id : str) : option (value * value) :=
  let name := default [] (as_str op.["op"]) in
  if bool_decide (name = lit "list") then Some (doc, of_bool true)
  else if bool_decide (name = lit "add") then op_add doc op now new_id
  else if bool_decide (name = lit "update") then op_update doc op
  else if bool_decide (name = lit "remove") then op_remove doc op
  else if bool_decide (name = lit "claim") then op_claim doc op now
  else if bool_decide (name = lit "done") then op_done doc op
  else if bool_decide (name = lit "fail") then op_fail doc op now
  else if bool_decide (name = lit "recover") then op_recover doc now
  else Some (doc, of_bool false).

(** ** What is due *)

Definition due_key (it : value) : Z * Z :=
  (default 0%Z (as_i64 it.["dueAt"]), default 0%Z (as_i64 it.["createdAt"])).
Definition key_leb (a b : Z * Z) : bool := (a.1 <? b.1)%Z || ((a.1 =? b.1) && (a.2 <=? b.2))%Z.

Definition is_due (now : Z) (wake : bool) (it : value) : bool :=
  (default i64_max (as_i64 it.["dueAt"]) <=? now)%Z &&
  (if bool_decide (status it = lit "pending") then true
   else if bool_decide (status it = lit "error")
   then negb (uncertain it) && (wake || (default 0 (as_i64 it.["retryAt"]) <=? now)%Z)
   else false).

Definition due (doc : value) (now : Z) (wake : bool) : list value :=
  sort_by (λ a b, key_leb (due_key a) (due_key b))
    (base.filter (λ it, is_due now wake it = true) (items doc)).

Definition wake_at (it : value) : option Z :=
  d ← as_i64 it.["dueAt"];
  if bool_decide (status it = lit "pending") then Some d
  else if bool_decide (status it = lit "error") && negb (uncertain it)
  then Some (Z.max d (default d (as_i64 it.["retryAt"])))
  else None.

Definition min_list (l : list Z) : option Z :=
  match l with [] => None | x :: l => Some (foldl Z.min x l) end.
Definition next_wake (doc : value) : option Z := min_list (omap wake_at (items doc)).

(** ** Sending *)

(** [json!([accountId, chatId, {...}])] *)
Definition send_params (it : value) : value :=
  let q := it.["quoteId"] in
  of_list [it.["accountId"]; it.["chatId"];
           obj [(lit "text", it.["text"]); (lit "quotedMessageId", q); (lit "quoted_message_id", q)]].

Definition is_uncertain_error (e : str) : bool :=
  let e := to_ascii_lowercase e in
  existsb (λ k, contains k e)
    [lit "timed out"; lit "timeout"; lit "dropped"; lit "closed"; lit "restart"; lit "not running"; lit "disconnect"].

(** ** The file *)

Definition read (file : option str) : value := default empty (normalize <$> (file ≫= from_str)).

(** [op_at]: the file after it, and the document and the result when it could
    be written ([written]). *)
Definition op_at (file : option str) (op : value) (now : Z) (new_id : str) (written : bool)
    : option (option str * result unit (value * value)) :=
  '(doc, r) ← apply (read file) op now new_id;
  Some (if bool_decide (as_str op.["op"] = Some (lit "list")) then (file, Ok (doc, r))
        else if written then (Some (to_string doc), Ok (doc, r)) else (file, Err tt)).

(** ** The run

    [run_due] is one task; between two of its operations the page may do any
    operation of its own, and the process may end. *)

Inductive phase := Idle | Loop (rest : list value) | Sending (id : str) (rest : list value).

(** What has happened: an operation that was written, a message handed to the
    core. *)
Inductive event := Applied (op r : value) | Sent (id : str) (params : value).

#[export] Instance event_eq_dec : EqDecision event.
Proof. solve_decision. Defined.

Record shell := Shell { file : option str; run : phase; log : list event }.

Definition op_on (s : shell) (op : value) (now : Z) (new_id : str) (written : bool)
    : option (shell * result unit (value * value)) :=
  '(f, r) ← op_at (file s) op now new_id written;
  Some (Shell f (run s) (log s ++ match r with Ok (_, x) => [Applied op x] | Err _ => [] end), r).

Definition become (p : phase) (s : shell) : shell := Shell (file s) p (log s).

Definition simple_op (name id : str) : value := obj [(lit "op", of_str name); (lit "id", of_str id)].
Definition fail_op (id e : str) : value :=
  obj [(lit "op", of_str (lit "fail")); (lit "id", of_str id); (lit "error", of_str e);
       (lit "uncertain", of_bool (is_uncertain_error e))].

Inductive action :=
  | Page (op : value) (now : Z) (new_id : str) (written : bool)
  | Begin (now now' : Z) (wake written : bool)
  | Next (now : Z) (written : bool)
  | Answer (r : result str unit) (now : Z) (written : bool)
  | Killed.

(** One step: a page command, or a stretch of [run_due] up to its next
    operation; [?] ends the run. *)
Definition step (s : shell) (a : action) : option shell :=
  match a with
  | Page op now nid w => fst <$> op_on s op now nid w
  | Begin now now' wake w =>
      match run s with
      | Idle => '(s, r) ← op_on s (obj [(lit "op", of_str (lit "recover"))]) now [] w;
                Some (match r with Ok (doc, _) => become (Loop (due doc now' wake)) s | Err _ => s end)
      | _ => None
      end
  | Next now w =>
      match run s with
      | Loop [] => Some (become Idle s)
      | Loop (it :: rest) =>
          let id := default [] (as_str it.["id"]) in
          '(s, r) ← op_on s (simple_op (lit "claim") id) now [] w;
          Some (match r with
                | Err _ => become Idle s
                | Ok (_, won) =>
                    if bool_decide (won = of_bool true)
                    then Shell (file s) (Sending id rest) (log s ++ [Sent id (send_params it)])
                    else become (Loop rest) s
                end)
      | _ => None
      end
  | Answer r now w =>
      match run s with
      | Sending id rest =>
          let op := match r with Ok _ => simple_op (lit "done") id | Err e => fail_op id e end in
          '(s, r) ← op_on s op now [] w;
          Some (become (match r with Ok _ => Loop rest | Err _ => Idle end) s)
      | _ => None
      end
  | Killed => Some (become Idle s)
  end.

End Store.
