(* ===== verification/SendOnce.v ===== *)
(** * A scheduled message is sent once

    What the operations do to the items of a document, and that no interleaving
    of the page, the run and crashes sends a message twice by itself. *)

From Stdlib Require Import Sorted.
From S2P Require Import Prelude Str Json Scheduled.

Section Facts.
Context {J : Json} {JL : JsonLaws}.

Definition id_of (it : value) : option str := as_str it.["id"].
(** Nothing sends the item by itself. *)
Definition blocked (it : value) : Prop := status it = lit "sending" ∨ uncertain it = true.

Definition item_ok (it : value) : Prop := is_Some (id_of it) ∧ plain 125 it.
(** A document as [read] gives it, with its items. *)
Definition doc_ok (doc : value) (l : list value) : Prop :=
  get doc (lit "items") = Some (of_list l) ∧ plain 127 doc ∧ Forall (λ it, is_Some (id_of it)) l.

(** ** Documents *)

Lemma doc_items doc l : doc_ok doc l → items doc = l.
Proof. intros (H & _). unfold items. by rewrite (index_get _ _ _ H), as_array_of. Qed.

Lemma doc_items_mut doc l : doc_ok doc l → items_mut doc = Some (doc, l).
Proof.
  intros (H%index_get & _). unfold items_mut. rewrite H, as_array_of. cbn [mbind option_bind].
  by rewrite H, as_array_of.
Qed.

Lemma doc_item_ok doc l : doc_ok doc l → Forall item_ok l.
Proof.
  intros (H & Hp & Hl). apply (plain_get 126) with (2 := H), plain_list in Hp.
  by apply Forall_and.
Qed.

Lemma put_ok doc l l' r :
  doc_ok doc l → Forall item_ok l' → ∃ doc', put doc l' r = Some (doc', r) ∧ doc_ok doc' l'.
Proof.
  intros (H & Hp & _) [Hid Hpl]%Forall_and. unfold put.
  destruct (set_object doc (lit "items") (of_list l')) as [doc' Hd]; [by eapply get_is_object|].
  exists doc'. rewrite Hd. split; [done|]. repeat split; [by eapply get_set| |done].
  eapply (plain_set 126); [done| |done]. by apply plain_list.
Qed.

Lemma find_ok doc l id :
  doc_ok doc l → find doc id = Some (doc, l, fst <$> list_find (λ it, has_id id it = true) l).
Proof. intros H. unfold find. by rewrite (doc_items_mut _ _ H). Qed.

Lemma found l id ix :
  fst <$> list_find (λ it, has_id id it = true) l = Some ix → ∃ it, l !! ix = Some it ∧ id_of it = Some id.
Proof.
  destruct (list_find _ l) as [[j it]|] eqn:E; [|done]. intros [= <-].
  apply list_find_Some in E as (Hl & Hid & _). exists it. split; [done|].
  by apply bool_decide_eq_true in Hid.
Qed.

(** ** Items *)

Lemma assign_snoc it l kx : assign it (l ++ [kx]) = assign it l ≫= λ v, set v kx.1 kx.2.
Proof. unfold assign. by rewrite foldl_app. Qed.

Lemma assign_ok it n l :
  is_object it = true → plain (S n) it → Forall (plain n) l.*2 →
  ∃ it', assign it l = Some it' ∧ is_object it' = true ∧ plain (S n) it' ∧
    (∀ k, k ∉ l.*1 → index it' k = index it k) ∧
    (NoDup l.*1 → ∀ k x, (k, x) ∈ l → index it' k = x).
Proof.
  intros Hobj Hp. induction l as [|[k x] l IH] using rev_ind; intros Hl.
  { exists it. repeat split; try done. intros _ k x []%elem_of_nil. }
  rewrite fmap_app, Forall_app in Hl. destruct Hl as [Hl [Hx _]%Forall_cons].
  destruct (IH Hl) as (v & Hv & Ho & Hpv & Hout & Hin).
  destruct (set_object v k x Ho) as [v' Hs]. exists v'.
  rewrite assign_snoc, Hv. cbn. repeat split; [done|by eapply set_is_object|by eapply plain_set| |].
  - intros j Hj. rewrite fmap_app, not_elem_of_app in Hj. cbn in Hj. rewrite list_elem_of_singleton in Hj.
    rewrite (index_set_ne _ _ _ _ j Hs) by tauto. apply Hout. tauto.
  - rewrite fmap_app. intros (Hnd & Hd & _)%NoDup_app j y [Hj|Hj]%elem_of_app.
    + rewrite (index_set_ne _ _ _ _ j Hs); [by apply Hin|]. intros ->.
      apply (Hd k); [apply list_elem_of_fmap; by exists (k, y)|by left].
    + apply list_elem_of_singleton in Hj as [= -> ->]. by eapply index_set.
Qed.

Lemma id_object it : is_Some (id_of it) → is_object it = true.
Proof. intros [s Hs]. by eapply as_str_object. Qed.

Lemma set_item it n k x :
  is_object it = true → plain (S n) it → plain n x →
  ∃ it', set it k x = Some it' ∧ is_object it' = true ∧ plain (S n) it' ∧
    index it' k = x ∧ ∀ j, j ≠ k → index it' j = index it j.
Proof.
  intros Ho Hp Hx. destruct (set_object it k x Ho) as [it' Hs]. exists it'.
  repeat split; [done|by eapply set_is_object|by eapply plain_set|by eapply index_set|].
  intros j Hj. by eapply index_set_ne.
Qed.

(** ** What an operation does to the items *)

Definition op_name (op : value) : str := default [] (as_str op.["op"]).

(** The effect of an operation on the item it names. *)
Inductive turn (op it it' : value) : value → Prop :=
  | turn_edit : op_name op = lit "update" → status it ≠ lit "sending" →
      status it' = lit "pending" → uncertain it' = false → turn op it it' (of_bool true)
  | turn_half : op_name op = lit "update" → status it ≠ lit "sending" →
      status it' = status it → uncertain it' = uncertain it → turn op it it' (of_bool false)
  | turn_claim : op_name op = lit "claim" → ¬ blocked it → status it' = lit "sending" →
      turn op it it' (of_bool true)
  | turn_fail : op_name op = lit "fail" → status it' = lit "error" →
      uncertain it' = default false (as_bool op.["uncertain"]) → turn op it it' (of_bool true).

Inductive change (op : value) (nid : str) (l : list value) : list value → value → Prop :=
  | change_none r : op_name op = lit "list" ∨ r ≠ of_bool true → change op nid l l r
  | change_add it : op_name op = lit "add" → id_of it = Some nid →
      change op nid l (l ++ [it]) (obj [(lit "id", of_str nid)])
  | change_item j it it' r : l !! j = Some it → id_of it = Some (op_id op) → id_of it' = id_of it →
      turn op it it' r → change op nid l (<[j := it']> l) r
  | change_drop j it : l !! j = Some it → id_of it = Some (op_id op) →
      op_name op = lit "done" ∨ (op_name op = lit "remove" ∧ status it ≠ lit "sending") →
      change op nid l (delete j l) (of_bool true)
  | change_recover l' n : op_name op = lit "recover" →
      Forall2 (λ it it', it' = it ∨ (id_of it' = id_of it ∧ status it = lit "sending" ∧ blocked it')) l l' →
      change op nid l l' (of_i64 n).

Definition acts (op : value) (nid : str) (l : list value) (o : option (value * value)) : Prop :=
  ∃ doc l' r, o = Some (doc, r) ∧ doc_ok doc l' ∧ change op nid l l' r.

Lemma act_none doc op nid l r :
  doc_ok doc l → op_name op = lit "list" ∨ r ≠ of_bool true → acts op nid l (Some (doc, r)).
Proof. intros. exists doc, l, r. split_and!; [done..|by apply change_none]. Qed.

Lemma act_refuse doc op nid l : doc_ok doc l → acts op nid l (Some (doc, of_bool false)).
Proof. intros. apply act_none; [done|right]. intros E%of_bool_inj. done. Qed.

Lemma act_put doc op nid l l' r :
  doc_ok doc l → Forall item_ok l' → change op nid l l' r → acts op nid l (put doc l' r).
Proof. intros H Hl Hc. destruct (put_ok doc l l' r H Hl) as (doc' & E & Hd). by exists doc', l', r. Qed.

Lemma act_edit doc op nid l j it it' r :
  doc_ok doc l → l !! j = Some it → id_of it = Some (op_id op) → plain 125 it' → id_of it' = id_of it →
  turn op it it' r → acts op nid l (put doc (<[j := it']> l) r).
Proof.
  intros H Hj Hid Hp Hid' Ht. apply act_put; [done| |by econstructor].
  apply Forall_insert; [by eapply doc_item_ok|]. split; [rewrite Hid', Hid; by eexists|done].
Qed.

(** The operations on one item start by finding it. *)
Lemma act_find doc op nid l (k : value → list value → nat → value → option (value * value)) :
  doc_ok doc l →
  (∀ j it, l !! j = Some it → id_of it = Some (op_id op) → is_object it = true → plain 125 it →
    acts op nid l (k doc l j it)) →
  acts op nid l ('(doc, l, ix) ← find doc (op_id op);
    match ix with None => Some (doc, of_bool false) | Some ix => it ← l !! ix; k doc l ix it end).
Proof.
  intros H Hk. rewrite (find_ok _ _ _ H). cbn [mbind option_bind].
  destruct (fst <$> _) as [j|] eqn:E; [|by apply act_refuse].
  apply found in E as (it & Hj & Hid). rewrite Hj. cbn [mbind option_bind].
  pose proof (doc_item_ok _ _ H) as Hl. eapply Forall_lookup_1 in Hl as [Hs Hp]; [|done].
  apply Hk; [done..|by apply id_object|done].
Qed.

Lemma status_index it it' : index it' (lit "status") = index it (lit "status") → status it' = status it.
Proof. unfold status. by intros ->. Qed.
Lemma status_str it s : index it (lit "status") = of_str s → status it = s.
Proof. unfold status. intros ->. by rewrite as_str_of. Qed.
Lemma uncertain_index it it' :
  index it' (lit "uncertain") = index it (lit "uncertain") → uncertain it' = uncertain it.
Proof. unfold uncertain. by intros ->. Qed.
Lemma uncertain_bool it b : index it (lit "uncertain") = of_bool b → uncertain it = b.
Proof. unfold uncertain. intros ->. by rewrite as_bool_of. Qed.
Lemma id_index it it' : index it' (lit "id") = index it (lit "id") → id_of it' = id_of it.
Proof. unfold id_of. by intros ->. Qed.

(** [assign] and [set] on an item, for any key but the id. *)
Ltac field :=
  match goal with
  | Hin : NoDup _ → ∀ k x, (k, x) ∈ _ → index ?it k = x |- index ?it _ = _ =>
      apply Hin; [apply (bool_decide_unpack _); vm_compute; exact I|
        solve [repeat first [left; reflexivity|right]]]
  | Hout : ∀ k, k ∉ _ → index ?it k = _ |- index ?it _ = _ =>
      apply Hout; apply (bool_decide_unpack _); vm_compute; exact I
  | Hne : ∀ j, j ≠ _ → index ?it j = _ |- index ?it _ = _ => apply Hne; keys
  end.

Ltac assigning it :=
  edestruct (assign_ok it 124) as (? & -> & ? & ? & ? & ?); [done|done|
    cbn; repeat case_match; auto 10 with plain|].
Ltac setting it :=
  edestruct (set_item it 124) as (? & -> & ? & ? & ? & ?); [done|done|auto with plain|]; cbn [mbind option_bind].

Lemma claim_acts doc op now nid l :
  doc_ok doc l → op_name op = lit "claim" → acts op nid l (op_claim doc op now).
Proof.
  intros H Hn. unfold op_claim. apply act_find; [done|]. intros j it Hj Hid Ho Hp.
  case_bool_decide as Hs; [by apply act_refuse|]. destruct (uncertain it) eqn:Hu; [by apply act_refuse|].
  assigning it. cbn [mbind option_bind orb]. eapply act_edit; [done..| |].
  - apply id_index. field.
  - apply turn_claim; [done|intros [?|?]; congruence|]. apply status_str. field.
Qed.

Lemma edit_acts doc op nid l :
  doc_ok doc l → op_name op = lit "update" → acts op nid l (op_update doc op).
Proof.
  intros H Hn. unfold op_update. apply act_find; [done|]. intros j it Hj Hid Ho Hp.
  case_bool_decide as Hs; [by apply act_refuse|]. cbv zeta.
  pose (fin v := assign v [(lit "status", of_str (lit "pending")); (lit "error", null);
    (lit "retryAt", null); (lit "uncertain", of_bool false)]
    ≫= λ v, put doc (<[j := v]> l) (of_bool true)).
  assert (Hfin : ∀ v, is_object v = true → plain 125 v → id_of v = id_of it → acts op nid l (fin v)).
  { clear Ho Hp. unfold fin. intros v Ho Hp Hv. assigning v. cbn [mbind option_bind]. eapply act_edit; [done..| |].
    - rewrite <- Hv. apply id_index. field.
    - apply turn_edit; [done..| |]; [apply status_str|apply uncertain_bool]; field. }
  assert (Hhalf : ∀ v, plain 125 v → id_of v = id_of it → status v = status it →
    uncertain v = uncertain it → acts op nid l (put doc (<[j := v]> l) (of_bool false))).
  { intros v Hp1 Hid1 Hs1 Hu1. eapply act_edit; [done..|]. by apply turn_half. }
  assert (Htime : ∀ v, is_object v = true → plain 125 v → id_of v = id_of it →
    status v = status it → uncertain v = uncertain it →
    acts op nid l (if bool_decide (op.["dueAt"] = null) then fin v
      else match i op.["dueAt"] with
           | Some d => if (0 <? d)%Z then set v (lit "dueAt") (of_i64 d) ≫= fin
                       else put doc (<[j := v]> l) (of_bool false)
           | None => put doc (<[j := v]> l) (of_bool false)
           end)).
  { intros v Ho1 Hp1 Hid1 Hs1 Hu1. case_bool_decide; [by apply Hfin|].
    destruct (i _) as [d|]; [|by apply Hhalf]. destruct (0 <? d)%Z; [|by apply Hhalf].
    setting v. apply Hfin; [done|done|]. rewrite <- Hid1. apply id_index. field. }
  destruct (as_str op.["text"]) as [t|]; [|by apply (Htime it)].
  destruct (valid_text t); [|by apply act_refuse].
  setting it. eapply Htime; [done|done|apply id_index|apply status_index|apply uncertain_index]; field.
Qed.

Lemma remove_acts doc op nid l :
  doc_ok doc l → op_name op = lit "remove" → acts op nid l (op_remove doc op).
Proof.
  intros H Hn. unfold op_remove. apply act_find; [done|]. intros j it Hj Hid _ _.
  case_bool_decide; [by apply act_refuse|].
  apply act_put; [done|by apply Forall_delete; eapply doc_item_ok|]. eapply change_drop; [done..|by right].
Qed.

Lemma done_acts doc op nid l :
  doc_ok doc l → op_name op = lit "done" → acts op nid l (op_done doc op).
Proof.
  intros H Hn. unfold op_done. rewrite (find_ok _ _ _ H). cbn [mbind option_bind].
  destruct (fst <$> _) as [j|] eqn:E; [|by apply act_refuse]. apply found in E as (it & Hj & Hid).
  apply act_put; [done|by apply Forall_delete; eapply doc_item_ok|]. eapply change_drop; [done..|by left].
Qed.

Lemma fail_acts doc op now nid l :
  doc_ok doc l → op_name op = lit "fail" → acts op nid l (op_fail doc op now).
Proof.
  intros H Hn. unfold op_fail. apply act_find; [done|]. intros j it Hj Hid Ho Hp. cbv zeta.
  assigning it. cbn [mbind option_bind]. eapply act_edit; [done..| |].
  - apply id_index. field.
  - apply turn_fail; [done| |]; [apply status_str|apply uncertain_bool]; field.
Qed.

Lemma bad_not_true what : bad what ≠ of_bool true.
Proof.
  intros E. assert (as_bool (bad what) = None) as H by apply object_bool, obj_is_object.
  by rewrite E, as_bool_of in H.
Qed.

Lemma new_item_ok nid acc chat text quote due now :
  item_ok (new_item nid acc chat text quote due now) ∧
  id_of (new_item nid acc chat text quote due now) = Some nid.
Proof.
  assert (id_of (new_item nid acc chat text quote due now) = Some nid) as E.
  { unfold id_of, new_item. rewrite (index_obj _ _ (of_str nid)); [apply as_str_of| |by left].
    apply (bool_decide_unpack _); vm_compute; exact I. }
  split; [|done]. split; [by rewrite E|]. apply (plain_obj 124). cbn. auto 20 with plain.
Qed.

Lemma add_acts doc op now nid l :
  doc_ok doc l → op_name op = lit "add" → acts op nid l (op_add doc op now nid).
Proof.
  intros H Hn. unfold op_add. cbv zeta.
  destruct (i op.["item"].["dueAt"]) as [due|], (i op.["item"].["accountId"]) as [acc|],
    (i op.["item"].["chatId"]) as [chat|];
    try (apply act_none; [done|right; apply bad_not_true]).
  destruct (_ || _); [apply act_none; [done|right; apply bad_not_true]|].
  rewrite (doc_items_mut _ _ H). cbn [mbind option_bind].
  edestruct new_item_ok as [Hok Hid]. apply act_put; [done| |by apply change_add].
  apply Forall_app; split; [by eapply doc_item_ok|by apply Forall_singleton].
Qed.

Lemma recover_items_ok now l :
  Forall item_ok l → ∃ l' n, recover_items now l = Some (l', n) ∧ Forall item_ok l' ∧
    Forall2 (λ it it', it' = it ∨ (id_of it' = id_of it ∧ status it = lit "sending" ∧ blocked it')) l l'.
Proof.
  induction 1 as [|it l Hit Hl (l' & n & E & Hl' & Hf)]; [by exists [], 0%Z|]. cbn [recover_items].
  destruct (interrupted now it) eqn:Hi; cbn [mbind option_bind].
  - destruct Hit as [Hid Hp]. pose proof (id_object _ Hid). assigning it. cbn [mbind option_bind].
    rewrite E. cbn [mbind option_bind]. eexists _, _. split; [done|].
    assert (id_of x = id_of it) as Hx by (apply id_index; field).
    split; constructor; try done; [split; [by rewrite Hx|done]|]. right. split; [done|].
    split; [|right; apply uncertain_bool; field].
    unfold interrupted in Hi. apply andb_prop in Hi as [Hi _]. by apply bool_decide_eq_true in Hi.
  - rewrite E. cbn [mbind option_bind]. eexists _, _. split; [done|]. split; constructor; try done. by left.
Qed.

Lemma recover_acts doc op now nid l :
  doc_ok doc l → op_name op = lit "recover" → acts op nid l (op_recover doc now).
Proof.
  intros H Hn. unfold op_recover. rewrite (doc_items_mut _ _ H). cbn [mbind option_bind].
  destruct (recover_items_ok now l) as (l' & n & -> & Hl' & Hf); [by eapply doc_item_ok|].
  cbn [mbind option_bind]. apply act_put; [done..|by apply change_recover].
Qed.

(** Every operation on a document does not panic, and changes the items in one
    of the ways of [change]. *)
Lemma apply_acts doc op now nid l : doc_ok doc l → acts op nid l (apply doc op now nid).
Proof.
  intros H. unfold apply. fold (op_name op). cbv zeta.
  repeat (case_bool_decide; [first [by apply add_acts|by apply edit_acts|by apply remove_acts|by apply claim_acts
    |by apply done_acts|by apply fail_acts|by apply recover_acts|by apply act_none; [done|left]]|]).
  by apply act_refuse.
Qed.

(** ** The file *)

Lemma normalize_ok doc : plain 127 doc → ∃ l, doc_ok (normalize doc) l ∧
  ∀ l0, doc_ok doc l0 → l = l0.
Proof.
  intros Hp. unfold normalize. destruct (get doc (lit "items") ≫= as_array) as [l0|] eqn:E.
  - apply bind_Some in E as (v & Hv & ->%as_array_inv). pose proof (plain_get _ _ _ _ Hp Hv) as Hl.
    rewrite plain_list in Hl.
    exists (base.filter (λ it, is_string it.["id"] = true) l0). split.
    + split_and!.
      * apply get_obj; [|by right; left]. apply (bool_decide_unpack _); vm_compute; exact I.
      * apply (plain_obj 126). cbn. repeat constructor; [apply plain_i64|]. apply plain_list.
        by apply filter_sub.
      * apply Forall_forall. intros it [Hs _]%list_elem_of_filter. unfold is_string in Hs.
        by apply bool_decide_eq_true in Hs.
    + intros l (Hl' & _ & Hid). rewrite Hv in Hl'. injection Hl' as Hl'.
      apply (f_equal as_array) in Hl'. rewrite !as_array_of in Hl'. injection Hl' as ->.
      apply filter_all. eapply Forall_impl; [exact Hid|]. intros it. apply bool_decide_eq_true_2.
  - exists []. split.
    + split_and!; [apply get_obj; [|by right; left]| |done].
      * apply (bool_decide_unpack _); vm_compute; exact I.
      * apply (plain_obj 126). cbn. repeat constructor; [apply plain_i64|]. by apply plain_list.
    + intros l (Hl' & _). rewrite Hl' in E. cbn in E. by rewrite as_array_of in E.
Qed.

(** What is on disk was written by the application or reads back exactly. *)
Definition good_file (f : option str) : Prop := ∀ doc, f ≫= from_str = Some doc → plain 127 doc.

Lemma read_ok f : good_file f → ∃ l, doc_ok (read f) l.
Proof.
  intros Hf. unfold read. destruct (f ≫= from_str) as [doc|] eqn:E; cbn.
  - destruct (normalize_ok doc) as (l & H & _); [by apply Hf|by exists l].
  - exists []. split_and!; [apply get_obj; [|by right; left]| |done].
    + apply (bool_decide_unpack _); vm_compute; exact I.
    + apply (plain_obj 126). cbn. repeat constructor; [apply plain_i64|]. by apply plain_list.
Qed.

Lemma read_written doc l : doc_ok doc l → doc_ok (read (Some (to_string doc))) l.
Proof.
  intros H. unfold read. cbn. rewrite from_to_string by apply H. cbn.
  destruct (normalize_ok doc) as (l' & Hl' & E); [by apply H|]. by rewrite <- (E _ H).
Qed.

Lemma written_good doc l : doc_ok doc l → good_file (Some (to_string doc)).
Proof. intros (_ & Hp & _) d. cbn. rewrite from_to_string by done. by intros [= <-]. Qed.

(** ** Sent once *)

Definition ids (l : list value) : list str := omap id_of l.
Definition settled (id : str) (l : list value) : Prop := Forall (λ it, id_of it = Some id → blocked it) l.

(** After [e] the message [id] may be sent (again): the user edited it, it
    failed for certain, or it is a new one. *)
Definition reopens (id : str) (e : event) : Prop :=
  match e with
  | Applied op r =>
      (op_name op = lit "update" ∧ op_id op = id ∧ r = of_bool true) ∨
      (op_name op = lit "fail" ∧ op_id op = id ∧ default false (as_bool op.["uncertain"]) = false) ∨
      (op_name op = lit "add" ∧ r = obj [(lit "id", of_str id)])
  | Sent _ _ => False
  end.
#[export] Instance reopens_dec id e : Decision (reopens id e).
Proof. destruct e; cbn; apply _. Defined.

Lemma ids_insert l j it it' :
  l !! j = Some it → id_of it' = id_of it → ids (<[j := it']> l) = ids l.
Proof.
  intros Hj Hid. unfold ids. rewrite <- (take_drop_middle l j it Hj) at 2.
  rewrite insert_take_drop by (by eapply lookup_lt_Some). rewrite !omap_app. cbn. by rewrite Hid.
Qed.

Lemma change_ids op nid l l' r :
  change op nid l l' r → NoDup (ids l) → (op_name op = lit "add" → nid ∉ ids l) → NoDup (ids l').
Proof.
  destruct 1 as [r _|it Hn Hid|j it it' r Hj Hid Hid' _|j it Hj _ _|l' n Hn Hf]; intros Hnd Hfresh.
  - done.
  - unfold ids. rewrite omap_app. cbn. rewrite Hid. apply NoDup_app. split_and!; [done| |apply NoDup_singleton].
    intros x Hx ->%list_elem_of_singleton. by apply Hfresh.
  - by rewrite (ids_insert _ _ _ _ Hj Hid').
  - eapply sublist_NoDup; [exact Hnd|]. unfold ids. rewrite delete_take_drop.
    replace (omap id_of l) with (omap id_of (take j l ++ it :: drop (S j) l)) by (by rewrite take_drop_middle).
    rewrite !omap_app. apply sublist_app; [done|]. cbn.
    destruct (id_of it); [by apply sublist_cons|done].
  - assert (ids l' = ids l) as ->; [|done]. clear -Hf. unfold ids.
    induction Hf as [|it it' l l' [->|[E _]] Hf IH]; [done| |]; cbn; [by rewrite IH|by rewrite E, IH].
Qed.

Lemma change_settled op nid l l' r id :
  change op nid l l' r → settled id l → ¬ reopens id (Applied op r) → settled id l'.
Proof.
  unfold settled. destruct 1 as [r _|it Hn Hid|j it it' r Hj Hid Hid' Ht|j it Hj _ _|l' n Hn Hf]; intros Hs Hr.
  - done.
  - apply Forall_app; split; [done|]. apply Forall_singleton. rewrite Hid. intros [= ->].
    exfalso. apply Hr. right; right. done.
  - apply Forall_insert; [done|]. rewrite Hid', Hid. intros [= <-].
    eapply Forall_lookup_1 in Hs; [|exact Hj]. specialize (Hs Hid).
    destruct Ht as [Hn H1 H2 H3|Hn H1 H2 H3|Hn H1 H2|Hn H1 H2].
    + exfalso. apply Hr. by left.
    + unfold blocked. by rewrite H2, H3.
    + done.
    + right. rewrite H2. destruct (default _ _) eqn:E; [done|]. exfalso. apply Hr. right; left. done.
  - by apply Forall_delete.
  - clear Hr. induction Hf as [|it it' l l' H1 Hf IH]; [done|]. apply Forall_cons in Hs as [Hi Hs].
    constructor; [|by apply IH]. destruct H1 as [->|(_ & _ & ?)]; [done|]. by intros _.
Qed.

(** A claim is won on an item that was not settled, and settles it. *)
Lemma claim_wins op nid l l' :
  op_name op = lit "claim" → change op nid l l' (of_bool true) → NoDup (ids l) →
  ¬ settled (op_id op) l ∧ settled (op_id op) l'.
Proof.
  intros Hn Hc. inversion Hc as [r [E|E]|it E|j it it' r Hj Hid Hid' Ht|j it Hj _ E|l1 n E]; subst;
    try (rewrite Hn in E; discriminate E); try done.
  2: { destruct E as [E|[E _]]; rewrite Hn in E; discriminate E. }
  intros Hnd. inversion Ht as [E|E|_ Hb Hs|E]; try (rewrite Hn in E; discriminate E).
  unfold settled. split.
  - intros Hl. eapply Forall_lookup_1 in Hl; [|exact Hj]. auto.
  - assert (Forall (λ v, id_of v ≠ Some (op_id op)) (take j l ++ drop (S j) l)) as Ho.
    { rewrite <- (take_drop_middle l j it Hj) in Hnd. unfold ids in Hnd. rewrite omap_app in Hnd. cbn in Hnd.
      rewrite Hid, <- Permutation_middle, <- omap_app, NoDup_cons in Hnd. destruct Hnd as [Hnd _].
      apply Forall_forall. intros v Hv E. apply Hnd. apply list_elem_of_omap. eauto. }
    rewrite insert_take_drop by (by eapply lookup_lt_Some).
    apply Forall_app in Ho as [Ho1 Ho2]. apply Forall_app. split; [|constructor; [by left|]].
    + eapply Forall_impl; [exact Ho1|]. done.
    + eapply Forall_impl; [exact Ho2|]. done.
Qed.

(** The last sending of [id] has not been followed by an event that reopens it. *)
Definition closed (id : str) (L : list event) : Prop :=
  ∃ l1 q l2, L = l1 ++ Sent id q :: l2 ∧ Forall (λ e, ¬ reopens id e) l2.
(** Between two sendings of a message there is such an event. *)
Definition once (L : list event) : Prop :=
  ∀ l1 id q1 l2 q2 l3, L = l1 ++ Sent id q1 :: l2 ++ Sent id q2 :: l3 → Exists (reopens id) l2.

Lemma closed_snoc id L e : closed id (L ++ [e]) → (∃ q, e = Sent id q) ∨ (closed id L ∧ ¬ reopens id e).
Proof.
  intros (l1 & q & l2 & E & Hf). destruct l2 as [|x l2 _] using rev_ind.
  - apply app_inj_tail in E as [-> ->]. left. by exists q.
  - rewrite app_comm_cons, app_assoc in E. apply app_inj_tail in E as [-> ->].
    apply Forall_app in Hf as [Hf [Hx _]%Forall_cons]. right. split; [by exists l1, q, l2|exact Hx].
Qed.

Lemma once_applied L op r : once L → once (L ++ [Applied op r]).
Proof.
  intros H l1 id q1 l2 q2 l3 E. destruct l3 as [|x l3 _] using rev_ind.
  - rewrite app_comm_cons, app_assoc in E. by apply app_inj_tail in E as [_ [=]].
  - rewrite !app_comm_cons, !app_assoc in E. apply app_inj_tail in E as [E _].
    apply (H l1 id q1 l2 q2 l3). by rewrite E, <- !app_assoc.
Qed.

Lemma once_sent L id q : once L → ¬ closed id L → once (L ++ [Sent id q]).
Proof.
  intros H Hc l1 id' q1 l2 q2 l3 E. destruct l3 as [|x l3 _] using rev_ind.
  - rewrite app_comm_cons, app_assoc in E. apply app_inj_tail in E as [-> [= -> ->]].
    destruct (decide (Exists (reopens id') l2)) as [?|Hn]; [done|]. exfalso. apply Hc.
    exists l1, q1, l2. split; [done|]. by apply Forall_Exists_neg.
  - rewrite !app_comm_cons, !app_assoc in E. apply app_inj_tail in E as [E _].
    apply (H l1 id' q1 l2 q2 l3). by rewrite E, <- !app_assoc.
Qed.

(** ** The shell *)

Definition op_fresh (op : value) (nid : str) (f : option str) : Prop :=
  op_name op = lit "add" → nid ∉ ids (items (read f)).

(** Ids of new items are fresh. *)
Definition fresh (s : shell) (a : action) : Prop :=
  match a with Page op _ nid _ => op_fresh op nid (file s) | _ => True end.

Definition inv (s : shell) : Prop :=
  good_file (file s) ∧ (∃ l, doc_ok (read (file s)) l ∧ NoDup (ids l) ∧ ∀ id, closed id (log s) → settled id l) ∧
  once (log s).

(** The file after an operation. *)
Lemma op_on_inv s op now nid w :
  inv s → op_fresh op nid (file s) → ∃ s' res, op_on s op now nid w = Some (s', res) ∧ run s' = run s ∧ inv s' ∧
    match res with
    | Ok (_, r) => ∃ l l', doc_ok (read (file s)) l ∧ doc_ok (read (file s')) l' ∧ NoDup (ids l) ∧
        change op nid l l' r ∧ log s' = log s ++ [Applied op r]
    | Err _ => s' = s
    end.
Proof.
  intros (Hf & (l & Hl & Hnd & Hset) & Ho) Hfr. unfold op_on, op_at.
  destruct (apply_acts _ op now nid l Hl) as (doc & l' & r & E & Hd & Hc).
  assert (∀ f' l1, good_file f' → doc_ok (read f') l1 → change op nid l l1 r →
    inv (Shell f' (run s) (log s ++ [Applied op r]))) as Hinv.
  { intros f' l1 Hg H1 Hc1. split; [done|]. split; [|by apply once_applied]. exists l1. split_and!; [done| |].
    - eapply change_ids; [done..|]. intros Hn. rewrite <- (doc_items _ _ Hl). by apply Hfr.
    - intros id [[q [=]]|[Hcl Hr]]%closed_snoc. eapply change_settled; [done|by apply Hset|done]. }
  rewrite E. cbn [mbind option_bind]. case_bool_decide as Hlist.
  - assert (op_name op = lit "list") as Hn by (unfold op_name; by rewrite Hlist).
    assert (change op nid l l r) as Hc' by (apply change_none; by left).
    eexists _, _. split; [done|]. split; [done|]. split; [by eapply Hinv|]. exists l, l. done.
  - destruct w; eexists _, _; (split; [done|]); (split; [done|]).
    + split; [eapply Hinv; [by eapply written_good|by apply read_written|done]|].
      exists l, l'. split_and!; try done. by apply read_written.
    + rewrite app_nil_r. split; [split; [done|]; split; [by exists l|done]|]. by destruct s.
Qed.

Lemma become_inv p s : inv s → inv (become p s).
Proof. done. Qed.

Lemma obj_name l k : NoDup l.*1 → (lit "op", of_str k) ∈ l → op_name (obj l) = k.
Proof. intros. unfold op_name. erewrite index_obj by done. by rewrite as_str_of. Qed.
Lemma obj_op_id l k : NoDup l.*1 → (lit "id", of_str k) ∈ l → op_id (obj l) = k.
Proof. intros. unfold op_id. erewrite index_obj by done. by rewrite as_str_of. Qed.

Lemma claim_name id : op_name (simple_op (lit "claim") id) = lit "claim" ∧ op_id (simple_op (lit "claim") id) = id.
Proof.
  split; [apply obj_name; [|by left]|apply obj_op_id; [|by right; left]];
    apply (bool_decide_unpack _); vm_compute; exact I.
Qed.

Lemma sent_inv s id q p :
  inv s → ¬ closed id (log s) → (∀ l, doc_ok (read (file s)) l → settled id l) →
  inv (Shell (file s) p (log s ++ [Sent id q])).
Proof.
  intros (Hf & (l & Hl & Hnd & Hset) & Ho) Hc Hs. split; [done|]. split; [|by apply once_sent].
  exists l. split_and!; [done..|]. intros id' [[q' [= <- <-]]|[Hcl _]]%closed_snoc; [by apply Hs|by apply Hset].
Qed.

(** The actions that make sense in a phase. *)
Definition enabled (s : shell) (a : action) : Prop :=
  match a, run s with
  | Page _ _ _ _, _ | Killed, _ | Begin _ _ _ _, Idle | Next _ _, Loop _ | Answer _ _ _, Sending _ _ => True
  | _, _ => False
  end.

Lemma other_fresh l k nid f :
  NoDup l.*1 → (lit "op", of_str k) ∈ l → k ≠ lit "add" → op_fresh (obj l) nid f.
Proof. intros Hn Hi Hk E. by rewrite (obj_name l k) in E. Qed.

(** A fresh enabled action does not panic and keeps the invariant. *)
Lemma shell_step_inv s a : inv s → fresh s a → enabled s a → ∃ s', step s a = Some s' ∧ inv s'.
Proof.
  intros Hi Hfr Hen. destruct a as [op now nid w|now now' wake w|now w|r now w|]; cbn [step fresh] in *.
  - destruct (op_on_inv s op now nid w) as (s' & r & -> & _ & H & _); [done..|]. by exists s'.
  - unfold enabled in Hen. destruct (run s); try done.
    edestruct (op_on_inv s) as (s' & r & -> & _ & H & _); [done|eapply other_fresh; [| |]|].
    1: apply (bool_decide_unpack _); vm_compute; exact I. 1: by left. 1: by keys.
    cbn [mbind option_bind]. eexists. split; [done|]. destruct r as [[]|]; [by apply become_inv|done].
  - unfold enabled in Hen. destruct (run s) as [|[|it rest]|]; try done; [eexists; split; [done|by apply become_inv]|].
    set (id := default [] (as_str it.["id"])). destruct (claim_name id) as [Hn Hid].
    edestruct (op_on_inv s (simple_op (lit "claim") id)) as (s' & r & -> & _ & H & Hr);
      [done|intros E; rewrite Hn in E; discriminate E|].
    cbn [mbind option_bind]. eexists. split; [done|].
    destruct r as [[doc won]|]; [|by apply become_inv]. case_bool_decide as Hw; [|by apply become_inv].
    destruct Hr as (l & l' & Hl & Hl' & Hnd & Hc & El). rewrite Hw in Hc.
    destruct (claim_wins _ _ _ _ Hn Hc Hnd) as [Hns Hs]. rewrite Hid in Hns, Hs.
    apply sent_inv; [done| |].
    + rewrite El. intros [[q [=]]|[Hcl _]]%closed_snoc. apply Hns.
      destruct Hi as (_ & (l0 & Hl0 & _ & Hset) & _).
      rewrite <- (doc_items _ _ Hl), (doc_items _ _ Hl0). by apply Hset.
    + intros l1 Hl1. by rewrite <- (doc_items _ _ Hl1), (doc_items _ _ Hl').
  - unfold enabled in Hen. destruct (run s) as [| |id rest]; try done. cbv zeta.
    assert (op_fresh (match r with Ok _ => simple_op (lit "done") id | Err e => fail_op id e end) [] (file s)) as Hop.
    { destruct r; (eapply other_fresh; [|by left|by keys]); apply (bool_decide_unpack _); vm_compute; exact I. }
    destruct (op_on_inv s _ now [] w Hi Hop) as (s' & r' & -> & _ & H & _).
    cbn [mbind option_bind]. eexists. split; [done|by apply become_inv].
  - eexists. split; [done|by apply become_inv].
Qed.

(** Runs of the shell. *)
Inductive runs : shell → list action → shell → Prop :=
  | runs_nil s : runs s [] s
  | runs_cons s a s1 l s2 : fresh s a → step s a = Some s1 → runs s1 l s2 → runs s (a :: l) s2.

#[export] Instance fresh_dec s a : Decision (fresh s a).
Proof. destruct a; cbn; unfold op_fresh; apply _. Defined.

(** [runs] as a function. *)
Fixpoint play (s : shell) (l : list action) : option shell :=
  match l with
  | [] => Some s
  | a :: l => if decide (fresh s a) then s1 ← step s a; play s1 l else None
  end.

Lemma play_runs l s s' : play s l = Some s' → runs s l s'.
Proof.
  revert s. induction l as [|a l IH]; intros s; cbn; [intros [= ->]; constructor|].
  case_decide; [|done]. intros (s1 & ? & ?)%bind_Some. econstructor; eauto.
Qed.

(** The application starts on a file it wrote. *)
Definition started (s : shell) : Prop :=
  good_file (file s) ∧ NoDup (ids (items (read (file s)))) ∧ run s = Idle ∧ log s = [].

Lemma started_inv s : started s → inv s.
Proof.
  intros (Hf & Hnd & _ & El). destruct (read_ok _ Hf) as [l Hl]. rewrite (doc_items _ _ Hl) in Hnd.
  split; [done|]. rewrite El. split.
  - exists l. split_and!; [done..|]. by intros id (l1 & q & l2 & [] %app_cons_not_nil & _).
  - by intros l1 id q1 l2 q2 l3 []%app_cons_not_nil.
Qed.

Lemma step_enabled s a s' : step s a = Some s' → enabled s a.
Proof. unfold enabled. destruct a; cbn; try done; destruct (run s) as [|[]|]; done. Qed.

Lemma runs_inv s l s' : runs s l s' → inv s → inv s'.
Proof.
  induction 1 as [|s a s1 l s2 Hf Hs _ IH]; [done|]. intros Hi. apply IH.
  destruct (shell_step_inv s a) as (s1' & E & H); [done..|by eapply step_enabled|]. congruence.
Qed.

(** [C6]: whatever the page does meanwhile, whatever fails to be written and
    whenever the process is killed, a message is handed to the core a second
    time only after the user edited it, or it failed for certain, or it was
    added anew. *)
Theorem sent_once s l s' l1 id q1 l2 q2 l3 :
  started s → runs s l s' → log s' = l1 ++ Sent id q1 :: l2 ++ Sent id q2 :: l3 →
  Exists (reopens id) l2.
Proof.
  intros Hs Hr E. destruct (runs_inv _ _ _ Hr (started_inv _ Hs)) as (_ & _ & Ho). by eapply Ho.
Qed.

(** The operation that an action does on the file, with its time, the id for a new
    item, and whether the file can be written. *)
Definition action_op (s : shell) (a : action) : option (value * Z * str * bool) :=
  match a, run s with
  | Page op now nid w, _ => Some (op, now, nid, w)
  | Begin now _ _ w, _ => Some (obj [(lit "op", of_str (lit "recover"))], now, [], w)
  | Next now w, Loop (it :: _) => Some (simple_op (lit "claim") (default [] (as_str it.["id"])), now, [], w)
  | Answer r now w, Sending id _ =>
      Some (match r with Ok _ => simple_op (lit "done") id | Err e => fail_op id e end, now, [], w)
  | _, _ => None
  end.

(** What is on the disk after an action, as the next start reads it. *)
Definition saved (f f' : option str) (o : option (value * Z * str * bool)) : Prop :=
  match o with
  | Some (op, now, nid, true) =>
      if bool_decide (as_str op.["op"] = Some (lit "list")) then f' = f else
      ∃ doc r its its', apply (read f) op now nid = Some (doc, r) ∧
        doc_ok (read f) its ∧ doc_ok doc its' ∧ doc_ok (read f') its' ∧ change op nid its its' r
  | _ => f' = f
  end.

Lemma op_on_saved s op now nid w s' res : inv s → op_on s op now nid w = Some (s', res) → saved (file s) (file s') (Some (op, now, nid, w)).
Proof.
  intros (_ & (l & Hl & _) & _). unfold op_on, op_at, saved.
  destruct (apply_acts _ op now nid l Hl) as (doc & l' & r & E & Hd & Hc). rewrite E. cbn [mbind option_bind].
  case_bool_decide; [intros [= <- <-]; by destruct w|]. destruct w; intros [= <- <-]; [|done]. cbn [file].
  exists doc, r, l, l'. split_and!; try done. by apply read_written.
Qed.

Lemma step_saved s a s1 : inv s → step s a = Some s1 → saved (file s) (file s1) (action_op s a).
Proof.
  intros Hi. destruct a as [op now nid w|now now' wake w|now w|r now w|]; cbn [step action_op].
  - destruct (op_on s op now nid w) as [[s' r]|] eqn:E; [|done]. intros [= <-]. by eapply op_on_saved.
  - destruct (run s); [|done..]. destruct (op_on s _ now [] w) as [[s' r]|] eqn:E; [|done]. cbn [mbind option_bind]. intros [= <-].
    pose proof (op_on_saved _ _ _ _ _ _ _ Hi E) as H. by destruct r as [[]|].
  - destruct (run s) as [|[|it rest]|]; [done|by intros [= <-]| |done].
    destruct (op_on s _ now [] w) as [[s' r]|] eqn:E; [|done]. cbn [mbind option_bind]. intros [= <-].
    pose proof (op_on_saved _ _ _ _ _ _ _ Hi E) as H. destruct r as [[]|]; [case_bool_decide|]; exact H.
  - destruct (run s) as [| |id rest]; [done..|]. cbv zeta. destruct (op_on s _ now [] w) as [[s' r']|] eqn:E; [|done].
    cbn [mbind option_bind]. intros [= <-]. exact (op_on_saved _ _ _ _ _ _ _ Hi E).
  - by intros [= <-].
Qed.


(** ** The alarm *)

Lemma key_leb_total a b : key_leb a b = false → key_leb b a = true.
Proof. unfold key_leb. intros. destruct a as [a1 a2], b as [b1 b2]. cbn in *. lia. Qed.
Lemma key_leb_trans a b c : key_leb a b = true → key_leb b c = true → key_leb a c = true.
Proof.
  unfold key_leb. destruct a as [a1 a2], b as [b1 b2], c as [c1 c2]. cbn.
  rewrite !orb_true_iff, !andb_true_iff, !Z.ltb_lt, !Z.eqb_eq, !Z.leb_le. intros [?|[? ?]] [?|[? ?]]; lia.
Qed.

Lemma due_wake_at now it :
  (0 ≤ now < i64_max)%Z → is_due now false it = true ↔ ∃ t, wake_at it = Some t ∧ (t ≤ now)%Z.
Proof.
  intros Hn. unfold is_due, wake_at. destruct (as_i64 it.["dueAt"]) as [d|];
    cbn [from_option mbind option_bind id].
  2: { split; [intros [? _]%andb_prop; lia|by intros (? & ? & _)]. }
  rewrite andb_true_iff, Z.leb_le. repeat case_bool_decide; cbn [andb negb].
  - split; [intros [? _]; by exists d|intros (? & [= <-] & ?); done].
  - destruct (uncertain it); cbn [andb orb negb]; [split; [by intros [_ ?]|by intros (? & ? & _)]|].
    rewrite Z.leb_le. destruct (as_i64 it.["retryAt"]) as [r|];
    cbn [from_option id]; split.
    + intros [? ?]. eexists. split; [done|]. lia.
    + intros (? & [= <-] & ?). lia.
    + intros [? _]. eexists. split; [done|]. lia.
    + intros (? & [= <-] & ?). lia.
  - split; [by intros [_ ?]|by intros (? & ? & _)].
Qed.

Lemma min_list_le l now : (∃ t, min_list l = Some t ∧ (t ≤ now)%Z) ↔ ∃ x, x ∈ l ∧ (x ≤ now)%Z.
Proof.
  destruct l as [|x l]; cbn; [split; [by intros (? & ? & _)|intros (? & []%elem_of_nil & _)]|].
  assert (∀ a, (foldl Z.min a l ≤ now)%Z ↔ (a ≤ now)%Z ∨ ∃ y, y ∈ l ∧ (y ≤ now)%Z) as H.
  { induction l as [|y l IH]; intros a; cbn.
    - split; [by left|intros [?|(? & []%elem_of_nil & _)]; done].
    - rewrite IH, Z.min_le_iff. split.
      + intros [[?|?]|(z & ? & ?)]; [by left|right; exists y; split; [by left|done]|].
        right. exists z. split; [by right|done].
      + intros [?|(z & [->|?]%elem_of_cons & ?)]; [by left; left|by left; right|right; by exists z]. }
  split.
  - intros (t & [= <-] & [?|(y & ? & ?)]%H); [exists x; split; [by left|done]|exists y; split; [by right|done]].
  - intros (y & [->|?]%elem_of_cons & ?); (eexists; split; [done|]); apply H; [by left|right; by exists y].
Qed.

(** what is sent are the due items, oldest first; and the alarm is set to
    the first instant at which there is one, so that it neither rings in vain nor
    too late. *)
Theorem due_and_wake doc now :
  (0 ≤ now < i64_max)%Z →
  due doc now false ≡ₚ base.filter (λ it, is_due now false it = true) (items doc) ∧
  StronglySorted (λ a b, key_leb (due_key a) (due_key b) = true) (due doc now false) ∧
  (due doc now false ≠ [] ↔ ∃ t, next_wake doc = Some t ∧ (t ≤ now)%Z).
Proof.
  intros Hn. unfold due. split; [apply sort_by_perm|]. split.
  - apply (sort_by_sorted (λ a b, key_leb (due_key a) (due_key b))); intros *; [apply key_leb_total|apply key_leb_trans].
  - unfold next_wake. rewrite min_list_le. setoid_rewrite list_elem_of_omap.
    rewrite sort_by_nil.
    split.
    + intros H. destruct (base.filter _ _) as [|it l] eqn:E; [done|].
      assert (it ∈ base.filter (λ it, is_due now false it = true) (items doc)) as [Hd Hi]%list_elem_of_filter
        by (rewrite E; by left).
      apply due_wake_at in Hd as (t & Ht & Hle); [|done]. exists t. eauto.
    + intros (t & (it & Hi & Ht) & Hle) E.
      assert (it ∈ base.filter (λ it, is_due now false it = true) (items doc)) as H.
      { apply list_elem_of_filter. split; [|done]. apply due_wake_at; eauto. }
      rewrite E in H. by apply elem_of_nil in H.
Qed.

End Facts.

(** ** On concrete documents *)

Module Later.
Import Tree.

Definition add_op (text : str) (due : Z) : value :=
  obj [(lit "op", of_str (lit "add"));
       (lit "item", obj [(lit "accountId", of_i64 1); (lit "chatId", of_i64 10); (lit "text", of_str text);
                         (lit "dueAt", of_i64 due)])].
Definition edit_op (id text : str) : value :=
  obj [(lit "op", of_str (lit "update")); (lit "id", of_str id); (lit "text", of_str text)].

Definition phone : shell := Shell None Idle [].
Definition day : list action :=
  [Page (add_op (lit "hello") 50) 5 (lit "a") true; Begin 60 60 true true; Next 60 true;
   Answer (Err (lit "no network")) 61 true; Killed; Begin 70 70 true true; Next 70 true].

Lemma phone_started : started phone.
Proof. split_and!; [by intros doc [=]| |done..]. vm_compute. constructor. Qed.

Definition after (l : list action) : shell := default phone (play phone l).

Lemma after_runs l : is_Some (play phone l) → runs phone l (after l).
Proof. intros [s Hs]. apply play_runs. unfold after. by rewrite Hs. Qed.

(** The list of messages handed to the core, with their texts. *)
Definition texts (L : list event) : list (str * option str) :=
  omap (λ e, match e with
             | Sent id q => Some (id, as_str (index (nth 2 (default [] (as_array q)) null) (lit "text")))
             | _ => None end) L.

(** Two messages are due; while the first is being sent the user edits the second. *)
Definition edited : list action :=
  [Page (add_op (lit "one") 50) 5 (lit "a") true; Page (add_op (lit "two") 51) 5 (lit "b") true;
   Begin 60 60 false true; Next 60 true; Page (edit_op (lit "b") (lit "better")) 61 [] true;
   Answer (Ok tt) 62 true; Next 62 true; Answer (Ok tt) 63 true].

(** an edit made while a run is under way is accepted, and yet the run
    sends the text from before the edit and then drops the item, since it sends
    from the list it took when it began. *)
Theorem edit_lost :
  Applied (edit_op (lit "b") (lit "better")) (of_bool true) ∈ log (after edited) ∧
  texts (log (after edited)) = [(lit "a", Some (lit "one")); (lit "b", Some (lit "two"))] ∧
  items (read (file (after edited))) = [].
Proof.
  split; [apply (bool_decide_unpack _); vm_compute; exact I|split; vm_compute; reflexivity].
Qed.

Lemma sent_once_witness :
  ∃ l1 q1 l2 q2 l3, log (after day) = l1 ++ Sent (lit "a") q1 :: l2 ++ Sent (lit "a") q2 :: l3 ∧
    Exists (reopens (lit "a")) l2.
Proof.
  pose (L := log (after day)). pose (q i := match nth i L (Sent [] null) with Sent _ q => q | _ => null end).
  exists (take 3 L), (q 3), (take 3 (drop 4 L)), (q 7), (drop 8 L).
  assert (L = take 3 L ++ Sent (lit "a") (q 3) :: take 3 (drop 4 L) ++ Sent (lit "a") (q 7) :: drop 8 L) as E
    by (apply (bool_decide_unpack _); vm_compute; exact I).
  split; [exact E|]. refine (sent_once phone day (after day) _ _ _ _ _ _ phone_started _ E).
  apply after_runs. apply (bool_decide_unpack _); vm_compute; exact I.
Defined.


Lemma due_and_wake_witness :
  let doc := read (file (after (take 1 day))) in
  next_wake doc = Some 50%Z ∧ (due doc 50 false ≠ [] ↔ ∃ t, next_wake doc = Some t ∧ (t ≤ 50)%Z).
Proof.
  intros doc. split; [vm_compute; reflexivity|]. refine (proj2 (proj2 (due_and_wake doc 50 _))).
  split; vm_compute; congruence.
Defined.

End Later.
