(* ===== verification/WsFrame.v ===== *)
(** * WebSocket framing

    The client side of RFC 6455 as the program has it: [encode_frame] and
    [read_frame] of [lufi.rs] and [ws_transport.rs], the message assembly
    [Ws::recv_text] of the Lufi uploader, and the two directions of the byte
    tunnel [pipe] of the WebSocket transport. *)

From S2P Require Import Prelude Str.

(** ** Frames *)

Definition MAX_REPLY : N := (4 * 1024 * 1024)%N.
Definition MAX_FRAME : N := N.shiftl 1 20.

Inductive ws_error :=
| IoError            (* read/write failed, end of stream included *)
| TooLarge           (* "reply too large" / "frame too large" *)
| ServerClosed       (* "server closed the connection" *)
| UnexpectedFrame    (* "unexpected WebSocket frame" *)
| NotUtf8.           (* "reply is not UTF-8" *)

#[export] Instance ws_error_eq_dec : EqDecision ws_error.
Proof. solve_decision. Defined.

(** [payload.iter().enumerate().map(|(i, b)| b ^ mask[i % 4])], from index [i] on. *)
Fixpoint apply_mask (mask : bytes) (i : nat) (p : bytes) : bytes :=
  match p with
  | [] => []
  | b :: p' => N.lxor b (nth (i mod 4) mask 0%N) :: apply_mask mask (S i) p'
  end.

Definition encode_frame (opcode : N) (payload mask : bytes) : bytes :=
  let n := N.of_nat (length payload) in
  [N.lor 128 opcode] ++
  (if (n <? 126)%N then [N.lor 128 n]
   else if (n <=? 65535)%N then [N.lor 128 126] ++ be_bytes 2 n
   else [N.lor 128 127] ++ be_bytes 8 n) ++
  mask ++ apply_mask mask 0 payload.

(** The length field: the 7-bit length of the header byte, or the extended
    16- or 64-bit length that follows it. *)
Definition read_len (b1 : N) (s : bytes) : result ws_error (N * bytes) :=
  let len := N.land b1 127 in
  if (len =? 126)%N then
    '(b, s) ← read_exact IoError 2 s; Ok (be_value b, s)
  else if (len =? 127)%N then
    '(b, s) ← read_exact IoError 8 s; Ok (be_value b, s)
  else Ok (len, s).

Definition read_frame (max : N) (s : bytes) : result ws_error (bool * N * bytes * bytes) :=
  '(h, s) ← read_exact IoError 2 s;
  let b0 := nth 0 h 0%N in
  let b1 := nth 1 h 0%N in
  let fin := negb (N.land b0 128 =? 0)%N in
  let op := N.land b0 15 in
  let masked := negb (N.land b1 128 =? 0)%N in
  '(len, s) ← read_len b1 s;
  if (max <? len)%N then Err TooLarge else
  '(mask, s) ← (if masked then read_exact IoError 4 s else Ok ([0; 0; 0; 0]%N, s));
  '(p, s) ← read_exact IoError len s;
  Ok (fin, op, if masked then apply_mask mask 0 p else p, s).

(** [crate::random_bytes()]: the mask of the [k]-th frame sent. *)
Definition masks := nat → bytes.
Definition wf_masks (rnd : masks) : Prop := ∀ k, length (rnd k) = 4.

(** ** Receiving a text message ([Ws::recv_text])

    [wok k] tells whether the [k]-th write (a pong) succeeds; [k] counts the
    pongs.  The result carries the text, the bytes written, and the rest of
    the stream; [None] is "out of fuel". *)
Fixpoint recv_text (fuel : nat) (rnd : masks) (wok : nat → bool) (k : nat)
    (msg : bytes) (s : bytes) : option (result ws_error (str * bytes) * bytes) :=
  match fuel with
  | O => None
  | S fuel =>
      match read_frame MAX_REPLY s with
      | Err e => Some (Err e, [])
      | Ok (fin, op, p, s) =>
          if (op =? 9)%N then
            let f := encode_frame 10 p (rnd k) in
            if wok k then
              '(r, out) ← recv_text fuel rnd wok (S k) msg s; Some (r, f ++ out)
            else Some (Err IoError, [])
          else if (op =? 10)%N then recv_text fuel rnd wok k msg s
          else if (op =? 8)%N then Some (Err ServerClosed, [])
          else if (op <=? 2)%N then
            let msg := msg ++ p in
            if (MAX_REPLY <? N.of_nat (length msg))%N then Some (Err TooLarge, [])
            else if fin then
              match from_utf8 msg with
              | Some t => Some (Ok (t, s), [])
              | None => Some (Err NotUtf8, [])
              end
            else recv_text fuel rnd wok k msg s
          else Some (Err UnexpectedFrame, [])
      end
  end.

(** ** The tunnel ([pipe])

    Upwards: the chunks the client socket delivers (a read of zero bytes or
    an error ends the stream, and a close frame is sent). *)
Definition close_frame (mask : bytes) : bytes := encode_frame 8 (be_bytes 2 1000) mask.

Fixpoint pipe_up (rnd : masks) (wok : nat → bool) (k : nat) (reads : list bytes) : bytes :=
  match reads with
  | [] => close_frame (rnd k)
  | [] :: _ => close_frame (rnd k)
  | c :: reads =>
      if wok k then encode_frame 2 c (rnd k) ++ pipe_up rnd wok (S k) reads else []
  end.

(** Downwards: the bytes written to the client and the frames (pongs)
    written to the proxy; [cok j] is whether the [j]-th client write
    succeeds. *)
Fixpoint pipe_down (fuel : nat) (rnd : masks) (cok : nat → bool) (k j : nat) (s : bytes)
    : option (bytes * bytes) :=
  match fuel with
  | O => None
  | S fuel =>
      match read_frame MAX_FRAME s with
      | Err _ => Some ([], [])
      | Ok (_, op, data, s) =>
          if (op <=? 2)%N then
            if cok j then
              '(c, w) ← pipe_down fuel rnd cok k (S j) s; Some (data ++ c, w)
            else Some ([], [])
          else if (op =? 9)%N then
            '(c, w) ← pipe_down fuel rnd cok (S k) j s;
            Some (c, encode_frame 10 data (rnd k) ++ w)
          else if (op =? 8)%N then Some ([], [])
          else pipe_down fuel rnd cok k j s
      end
  end.

(** ** Lemmas *)

Lemma length_apply_mask m i p : length (apply_mask m i p) = length p.
Proof. revert i. induction p; intros; simpl; congruence. Qed.

(** Masking is an involution. *)
Lemma apply_mask_involutive m i p : apply_mask m i (apply_mask m i p) = p.
Proof.
  revert i. induction p as [|b p IH]; intros i; [done|]. cbn [apply_mask].
  rewrite IH. f_equal. rewrite N.lxor_assoc, N.lxor_nilpotent. apply N.lxor_0_r.
Qed.

(** [0x80 | x] sets the top bit and keeps the low seven. *)
Lemma lor128_high x : (N.land (N.lor 128 x) 128 =? 0)%N = false.
Proof.
  apply N.eqb_neq. intros H.
  assert (N.testbit (N.land (N.lor 128 x) 128) 7 = false) by (by rewrite H).
  rewrite N.land_spec, N.lor_spec in *. done.
Qed.

Lemma lor128_low x : (x < 128)%N → N.land (N.lor 128 x) 127 = x.
Proof.
  intros Hx. rewrite N.land_lor_distr_l. change (N.land 128 127) with 0%N.
  rewrite N.lor_0_l. change 127%N with (N.ones 7). rewrite N.land_ones.
  by apply N.mod_small.
Qed.

Lemma lor128_op x : (x < 16)%N → N.land (N.lor 128 x) 15 = x.
Proof.
  intros Hx. rewrite N.land_lor_distr_l. change (N.land 128 15) with 0%N.
  rewrite N.lor_0_l. change 15%N with (N.ones 4). rewrite N.land_ones.
  by apply N.mod_small.
Qed.

(** A frame as any peer may put it on the wire: [fin], opcode, payload, and a
    mask or none (servers do not mask). *)
Record wire_frame := WireFrame
  { wf_fin : bool; wf_op : N; wf_data : bytes; wf_mask : option bytes }.

Definition wire_len (masked : bool) (n : N) : bytes :=
  let hi := if masked then 128%N else 0%N in
  if (n <? 126)%N then [(hi + n)%N]
  else if (n <=? 65535)%N then (hi + 126)%N :: be_bytes 2 n
  else (hi + 127)%N :: be_bytes 8 n.

Definition wire (f : wire_frame) : bytes :=
  [((if wf_fin f then 128 else 0) + wf_op f)%N] ++
  wire_len (bool_decide (is_Some (wf_mask f))) (N.of_nat (length (wf_data f))) ++
  match wf_mask f with
  | Some m => m ++ apply_mask m 0 (wf_data f)
  | None => wf_data f
  end.

Definition wire_ok (max : N) (f : wire_frame) : Prop :=
  (wf_op f < 16)%N ∧ (N.of_nat (length (wf_data f)) ≤ max)%N
  ∧ (N.of_nat (length (wf_data f)) < u64_bound)%N
  ∧ (∀ m, wf_mask f = Some m → length m = 4).

Lemma lor_128 x : (x < 128)%N → N.lor 128 x = (128 + x)%N.
Proof.
  intros Hx. rewrite <- N.lxor_lor, <- N.add_nocarry_lxor; [done|..].
  all: apply N.bits_inj_0; intros i; rewrite N.land_spec.
  all: change 128%N with (2 ^ 7)%N; destruct (decide (i = 7%N)) as [->|].
  all: try (rewrite N.pow2_bits_false by done; done).
  all: rewrite N.pow2_bits_true; destruct (decide (x = 0%N)) as [->|]; [done|].
  all: rewrite N.bits_above_log2; [done|]; apply N.log2_lt_pow2; cbn; lia.
Qed.

Lemma encode_frame_wire op p m :
  (op < 16)%N → encode_frame op p m = wire (WireFrame true op p (Some m)).
Proof.
  intros Hop. unfold encode_frame, wire, wire_len. cbn [wf_fin wf_op wf_data wf_mask].
  rewrite bool_decide_true by done. rewrite lor_128 by lia.
  destruct (N.ltb_spec (N.of_nat (length p)) 126); [by rewrite lor_128 by lia|].
  by destruct (_ <=? _)%N.
Qed.

Lemma read_len_wire masked n tl :
  (n < u64_bound)%N →
  ∃ b1 l, wire_len masked n = b1 :: l ∧ read_len b1 (l ++ tl) = Ok (n, tl)
    ∧ negb (N.land b1 128 =? 0)%N = masked.
Proof.
  intros Hn. unfold read_len, wire_len.
  destruct (N.ltb_spec n 126); [|destruct (N.leb_spec n 65535)].
  - eexists _, []. split; [done|].
    assert (∀ hi, (hi = 0 ∨ hi = 128)%N → N.land (hi + n) 127 = n) as Hland.
    { intros hi [-> | ->]; [|rewrite <- lor_128, lor128_low by lia; done].
      change 127%N with (N.ones 7). rewrite N.land_ones. apply N.mod_small; cbn; lia. }
    rewrite Hland by (destruct masked; auto).
    replace (n =? 126)%N with false by (symmetry; apply N.eqb_neq; lia).
    replace (n =? 127)%N with false by (symmetry; apply N.eqb_neq; lia).
    split; [done|]. destruct masked.
    + by rewrite <- lor_128, lor128_high by lia.
    + rewrite N.add_0_l. replace (N.land n 128) with 0%N; [done|].
      symmetry. apply N.bits_inj_0. intros i. rewrite N.land_spec.
      change 128%N with (2 ^ 7)%N. destruct (decide (i = 7%N)) as [->|].
      * destruct (decide (n = 0%N)) as [->|]; [done|].
        rewrite N.bits_above_log2; [done|]. apply N.log2_lt_pow2; cbn; lia.
      * by rewrite N.pow2_bits_false, andb_false_r by done.
  - eexists _, _. split; [done|]. destruct masked; cbn -[be_bytes read_exact N.land];
      (change (N.land _ 127) with 126%N); cbn -[be_bytes read_exact];
      rewrite read_exact_app' by (rewrite length_be_bytes; done); cbn -[be_bytes];
      by rewrite be_value_bytes_small by (cbn; lia).
  - eexists _, _. split; [done|]. destruct masked; cbn -[be_bytes read_exact N.land];
      (change (N.land _ 127) with 127%N); cbn -[be_bytes read_exact];
      rewrite read_exact_app' by (rewrite length_be_bytes; done); cbn -[be_bytes];
      by rewrite be_value_bytes_small by (cbn; lia).
Qed.

Lemma fin_bits (fin : bool) op :
  (op < 16)%N →
  N.land ((if fin then 128 else 0) + op) 15 = op
  ∧ negb (N.land ((if fin then 128 else 0) + op) 128 =? 0)%N = fin.
Proof.
  intros Hop.
  assert (Forall (λ op, (N.land ((if fin then 128 else 0) + op) 15 = op)
    ∧ negb (N.land ((if fin then 128 else 0) + op) 128 =? 0)%N = fin)
    (N.of_nat <$> seq 0 16)) as HF.
  { apply list.Forall_forall. intros x Hx. destruct fin; vm_compute in Hx;
      repeat (apply elem_of_cons in Hx as [->|Hx]; [done|]); by apply elem_of_nil in Hx. }
  rewrite list.Forall_forall in HF. apply HF, list_elem_of_fmap.
  exists (N.to_nat op). split; [lia|]. apply elem_of_seq. lia.
Qed.

(** What [read_frame] does on a well-formed frame of any size. *)
Lemma read_frame_wire_gen max f tl :
  (wf_op f < 16)%N → (N.of_nat (length (wf_data f)) < u64_bound)%N →
  (∀ m, wf_mask f = Some m → length m = 4) →
  read_frame max (wire f ++ tl)
  = if (max <? N.of_nat (length (wf_data f)))%N then Err TooLarge
    else Ok (wf_fin f, wf_op f, wf_data f, tl).
Proof.
  destruct f as [fin op p mask]. unfold wire, read_frame.
  cbn [wf_fin wf_op wf_data wf_mask]. intros Hop Hp Hm.
  destruct (fin_bits fin op Hop) as [Hop' Hfin].
  set (body := match mask with Some m => _ | None => _ end).
  destruct (read_len_wire (bool_decide (is_Some mask)) (N.of_nat (length p)) (body ++ tl) Hp)
    as (b1 & l & -> & Hlen & Hmask).
  rewrite <- !app_assoc.
  change ([?b0] ++ (b1 :: l) ++ ?t) with ([b0; b1] ++ l ++ t).
  rewrite read_exact_app' by done. cbn [mbind result_bind nth].
  rewrite Hlen. cbn [mbind result_bind]. rewrite Hmask, Hop', Hfin.
  destruct (_ <? _)%N; [done|]. subst body. destruct mask as [m|].
  - rewrite bool_decide_true by done. rewrite <- app_assoc.
    rewrite read_exact_app' by (rewrite (Hm m); done). cbn [mbind result_bind].
    rewrite read_exact_app' by (rewrite length_apply_mask; done). cbn [mbind result_bind].
    by rewrite apply_mask_involutive.
  - rewrite bool_decide_false by (intros [? ?]; done). cbn [mbind result_bind].
    by rewrite read_exact_app'.
Qed.

Lemma read_frame_wire max f tl :
  wire_ok max f → read_frame max (wire f ++ tl) = Ok (wf_fin f, wf_op f, wf_data f, tl).
Proof.
  intros (? & ? & ? & ?). rewrite read_frame_wire_gen by done.
  by destruct (N.ltb_spec max (N.of_nat (length (wf_data f)))); [lia|].
Qed.

Lemma read_frame_encode max op p mask tl :
  (op < 16)%N → length mask = 4 → (N.of_nat (length p) < u64_bound)%N →
  read_frame max (encode_frame op p mask ++ tl)
  = if (max <? N.of_nat (length p))%N then Err TooLarge else Ok (true, op, p, tl).
Proof.
  intros. rewrite encode_frame_wire by done.
  rewrite read_frame_wire_gen; cbn [wf_op wf_data wf_mask]; try done.
  by intros m [= <-].
Qed.

Lemma length_wire f : 2 ≤ length (wire f).
Proof.
  unfold wire, wire_len. rewrite !length_app.
  destruct (_ <? _)%N; [|destruct (_ <=? _)%N]; cbn; lia.
Qed.

Lemma length_encode_frame op p mask :
  length mask = 4 → 6 + length p ≤ length (encode_frame op p mask).
Proof.
  intros Hm. unfold encode_frame. rewrite !length_app, length_apply_mask, Hm.
  destruct (_ <? _)%N; [|destruct (_ <=? _)%N]; cbn; lia.
Qed.

Lemma read_exact_shorter n s l (r : bytes) :
  read_exact IoError n s = Ok (l, r) → length s = length l + length r ∧ N.of_nat (length l) = n.
Proof. intros [-> ?]%read_exact_ok. by rewrite length_app. Qed.

Lemma read_len_ok b s n s' : read_len b s = Ok (n, s') → length s' ≤ length s.
Proof.
  unfold read_len. destruct (_ =? 126)%N; [|destruct (_ =? 127)%N].
  - intros ([l r] & [? _]%read_exact_shorter & [= <- <-])%bind_ok. lia.
  - intros ([l r] & [? _]%read_exact_shorter & [= <- <-])%bind_ok. lia.
  - by intros [= <- <-].
Qed.

(** Whatever the peer sends: an accepted frame is within the limit and
    strictly shortens the stream. *)
Lemma read_frame_ok max s fin op p s' :
  read_frame max s = Ok (fin, op, p, s') →
  (N.of_nat (length p) ≤ max)%N ∧ (op < 16)%N ∧ length s' < length s.
Proof.
  unfold read_frame.
  intros ([h s1] & [Hs Hh]%read_exact_shorter & H)%bind_ok.
  apply bind_ok in H as ([len s2] & Hlen%read_len_ok & H).
  destruct (N.ltb_spec max len); [done|].
  apply bind_ok in H as ([mask s3] & Hmask & H).
  assert (length s3 ≤ length s2).
  { destruct (negb _); [|by injection Hmask as _ ->].
    apply read_exact_shorter in Hmask as [? _]. lia. }
  apply bind_ok in H as ([q s4] & [? Hq]%read_exact_shorter & [= _ <- <- <-]).
  repeat split.
  - destruct (negb _); rewrite ?length_apply_mask; lia.
  - change 15%N with (N.ones 4). rewrite N.land_ones. by apply N.mod_upper_bound.
  - lia.
Qed.

(** ** Receiving *)

(** One more fuel than bytes is enough: every frame shortens the stream. *)
Lemma recv_text_fuel rnd wok fuel k msg s :
  length s < fuel → recv_text fuel rnd wok k msg s ≠ None.
Proof.
  revert k msg s. induction fuel as [|fuel IH]; intros k msg s Hf; [lia|]. cbn [recv_text].
  destruct (read_frame MAX_REPLY s) as [[[[fin op] p] s']|e] eqn:Hr; [|done].
  apply read_frame_ok in Hr as (_ & _ & Hlt).
  destruct (op =? 9)%N; [destruct (wok k); [|done]|].
  { specialize (IH (S k) msg s' ltac:(lia)). by destruct (recv_text fuel _ _ _ _ _) as [[]|]. }
  destruct (op =? 10)%N; [apply IH; lia|]. destruct (op =? 8)%N; [done|].
  destruct (op <=? 2)%N; [|done]. destruct (_ <? _)%N; [done|].
  destruct fin; [by destruct (from_utf8 _)|]. apply IH. lia.
Qed.

(** Whatever the server sends, the text that comes back is bounded. *)
Lemma recv_text_bounded rnd wok fuel k msg s t s' out :
  recv_text fuel rnd wok k msg s = Some (Ok (t, s'), out) →
  ∃ m, from_utf8 m = Some t ∧ (N.of_nat (length m) ≤ MAX_REPLY)%N.
Proof.
  revert k msg s out. induction fuel as [|fuel IH]; intros k msg s out; [done|]. cbn [recv_text].
  destruct (read_frame MAX_REPLY s) as [[[[fin op] p] s1]|e]; [|done].
  destruct (op =? 9)%N; [destruct (wok k); [|done]|].
  { destruct (recv_text fuel rnd wok (S k) msg s1) as [[r o]|] eqn:Hr; cbn; [|done].
    intros [= -> _]. by eapply IH. }
  destruct (op =? 10)%N; [apply IH|]. destruct (op =? 8)%N; [done|].
  destruct (op <=? 2)%N; [|done]. destruct (N.ltb_spec MAX_REPLY (N.of_nat (length (msg ++ p)))); [done|].
  destruct fin; [|apply IH].
  destruct (from_utf8 (msg ++ p)) eqn:Hu; [|done]. intros [= <- _ _]. eauto.
Qed.

(** What a message made of frames [fs] contributes to the text, and the pongs
    that answer its pings, the [k]-th one first. *)
Definition frame_data (f : wire_frame) : bytes := if (wf_op f <=? 2)%N then wf_data f else [].
Fixpoint pongs (rnd : masks) (k : nat) (fs : list wire_frame) : bytes :=
  match fs with
  | [] => []
  | f :: fs =>
      if (wf_op f =? 9)%N then encode_frame 10 (wf_data f) (rnd k) ++ pongs rnd (S k) fs
      else pongs rnd k fs
  end.

(** A frame that does not end a message: a non-final fragment, a ping or a pong. *)
Definition interim (f : wire_frame) : Prop :=
  ((wf_op f ≤ 2)%N ∧ wf_fin f = false) ∨ wf_op f = 9%N ∨ wf_op f = 10%N.

Lemma recv_text_assembles rnd wok fs last tl : ∀ fuel k msg,
  Forall (λ f, wire_ok MAX_REPLY f ∧ interim f) fs →
  wire_ok MAX_REPLY last → (wf_op last ≤ 2)%N → wf_fin last = true →
  (∀ i, wok i = true) →
  (N.of_nat (length (msg ++ ((fs ++ [last]) ≫= frame_data))) ≤ MAX_REPLY)%N →
  length fs < fuel →
  recv_text fuel rnd wok k msg (((fs ++ [last]) ≫= wire) ++ tl)
  = Some (match from_utf8 (msg ++ ((fs ++ [last]) ≫= frame_data)) with
          | Some t => Ok (t, tl) | None => Err NotUtf8 end, pongs rnd k fs).
Proof.
  induction fs as [|f fs IH]; intros fuel k msg Hfs Hlast Hop Hfin Hw Hlen Hfuel;
    (destruct fuel as [|fuel]; [cbn in Hfuel; lia|]); cbn [recv_text app].
  - cbn [app] in *. rewrite bind_cons in *. cbn [mbind list_bind] in *. rewrite !app_nil_r in *. rewrite read_frame_wire by done.
    unfold frame_data in *. destruct (N.leb_spec (wf_op last) 2); [|lia].
    destruct (N.eqb_spec (wf_op last) 9); [lia|]. destruct (N.eqb_spec (wf_op last) 10); [lia|].
    destruct (N.eqb_spec (wf_op last) 8); [lia|].
    destruct (N.ltb_spec MAX_REPLY (N.of_nat (length (msg ++ wf_data last)))); [lia|].
    rewrite Hfin. by destruct (from_utf8 _).
  - apply Forall_cons in Hfs as [[Hok Hint] Hfs]. cbn [app] in Hlen |- *. rewrite bind_cons in Hlen |- *.
    rewrite bind_cons, <- app_assoc, read_frame_wire by done.
    cbn [pongs length] in Hfuel |- *. unfold frame_data at 1 in Hlen. unfold frame_data at 1.
    destruct Hint as [[Hop2 Hff]|[Hop9|Hop10]].
    + destruct (N.leb_spec (wf_op f) 2); [|lia].
      destruct (N.eqb_spec (wf_op f) 9); [lia|]. destruct (N.eqb_spec (wf_op f) 10); [lia|].
      destruct (N.eqb_spec (wf_op f) 8); [lia|].
      rewrite app_assoc in Hlen |- *.
      destruct (N.ltb_spec MAX_REPLY (N.of_nat (length (msg ++ wf_data f))));
        [rewrite !length_app in *; lia|].
      rewrite Hff. apply IH; try done. lia.
    + rewrite Hop9 in *. cbn in Hlen |- *. rewrite Hw. rewrite IH by (try done; lia). done.
    + rewrite Hop10 in *. cbn in Hlen |- *. apply IH; try done. lia.
Qed.

(** ** The tunnel *)

Lemma pipe_down_fuel rnd cok fuel k j s :
  length s < fuel → pipe_down fuel rnd cok k j s ≠ None.
Proof.
  revert k j s. induction fuel as [|fuel IH]; intros k j s Hf; [lia|]. cbn [pipe_down].
  destruct (read_frame MAX_FRAME s) as [[[[fin op] p] s']|e] eqn:Hr; [|done].
  apply read_frame_ok in Hr as (_ & _ & Hlt).
  destruct (op <=? 2)%N; [destruct (cok j); [|done]|destruct (op =? 9)%N].
  - specialize (IH k (S j) s' ltac:(lia)). by destruct (pipe_down fuel _ _ _ _ _) as [[]|].
  - specialize (IH (S k) j s' ltac:(lia)). by destruct (pipe_down fuel _ _ _ _ _) as [[]|].
  - destruct (op =? 8)%N; [done|]. apply IH. lia.
Qed.

Lemma pipe_down_up rnd rnd' wok cok tl reads : ∀ fuel k k' j,
  wf_masks rnd → (∀ i, wok i = true) → (∀ i, cok i = true) →
  Forall (λ c, c ≠ [] ∧ (N.of_nat (length c) ≤ MAX_FRAME)%N) reads →
  length (pipe_up rnd wok k reads ++ tl) < fuel →
  pipe_down fuel rnd' cok k' j (pipe_up rnd wok k reads ++ tl) = Some (concat reads, []).
Proof.
  induction reads as [|c reads IH]; intros fuel k k' j Hm Hw Hc Hr Hf;
    (destruct fuel as [|fuel]; [lia|]); cbn [pipe_up pipe_down concat].
  - unfold close_frame. rewrite read_frame_encode by (done || apply Hm). done.
  - apply Forall_cons in Hr as [[Hne Hle] Hr]. destruct c as [|b c]; [done|].
    cbn [pipe_up] in Hf. rewrite Hw in Hf |- *. rewrite <- app_assoc in Hf |- *.
    assert (MAX_FRAME < u64_bound)%N by done.
    rewrite read_frame_encode by (try apply Hm; try done; lia).
    destruct (N.ltb_spec MAX_FRAME (N.of_nat (length (b :: c)))); [lia|].
    cbn [N.leb N.compare]. rewrite Hc.
    rewrite IH; [done|try done..].
    rewrite length_app in Hf. pose proof (length_encode_frame 2 (b :: c) (rnd k) (Hm k)). lia.
Qed.

(** ** Properties *)

(** A text message the server sends as any interleaving of fragments,
    pings and pongs is reassembled exactly: [recv_text] returns the UTF-8
    decoding of the concatenated fragments, leaves the stream right after the
    final frame, and has answered every ping, in order, with a pong that
    echoes its payload.  One unit of fuel per frame is enough. *)
Theorem recv_text_reassembles rnd wok fs last tl :
  Forall (λ f, wire_ok MAX_REPLY f ∧ interim f) fs →
  wire_ok MAX_REPLY last → (wf_op last ≤ 2)%N → wf_fin last = true →
  (∀ i, wok i = true) →
  (N.of_nat (length ((fs ++ [last]) ≫= frame_data)) ≤ MAX_REPLY)%N →
  recv_text (S (length fs)) rnd wok 0 [] (((fs ++ [last]) ≫= wire) ++ tl)
  = Some (match from_utf8 ((fs ++ [last]) ≫= frame_data) with
          | Some t => Ok (t, tl) | None => Err NotUtf8 end, pongs rnd 0 fs).
Proof.
  intros. rewrite (recv_text_assembles rnd wok fs last tl _ 0 []); [done..|]. lia.
Qed.

Ltac wire_tac := repeat split; first [by vm_compute | by intros ? [= <-] | by intros ? [=]].

Lemma recv_text_reassembles_witness :
  let ping := WireFrame true 9 [1%N] None in
  let f1 := WireFrame false 1 [104%N; 195%N] None in
  let f2 := WireFrame true 0 [169%N] (Some [7; 8; 9; 10]%N) in
  recv_text 3 (λ _, [1; 2; 3; 4]%N) (λ _, true) 0 [] (wire f1 ++ wire ping ++ wire f2 ++ [42%N])
  = Some (Ok ([104%N; 233%N], [42%N]), encode_frame 10 [1%N] [1; 2; 3; 4]%N).
Proof.
  pose proof (recv_text_reassembles (λ _, [1; 2; 3; 4]%N) (λ _, true)
    [WireFrame false 1 [104%N; 195%N] None; WireFrame true 9 [1%N] None]
    (WireFrame true 0 [169%N] (Some [7; 8; 9; 10]%N)) [42%N]) as H.
  apply H; [|wire_tac|by vm_compute|done|done|by vm_compute].
  repeat apply Forall_cons_2; try apply Forall_nil_2; (split; [wire_tac|]).
  - left. by vm_compute.
  - right; left. done.
Defined.

(** [C39] Against a hostile server: on every byte stream [recv_text] finishes
    within [length s + 1] iterations of its loop, and a text it returns is
    decoded from at most [MAX_REPLY] (4 MiB) accumulated bytes. *)
Theorem recv_text_total rnd wok s :
  ∃ r out, recv_text (S (length s)) rnd wok 0 [] s = Some (r, out) ∧
    ∀ t s', r = Ok (t, s') →
      ∃ m, from_utf8 m = Some t ∧ (N.of_nat (length m) ≤ MAX_REPLY)%N.
Proof.
  destruct (recv_text (S (length s)) rnd wok 0 [] s) as [[r out]|] eqn:Hr.
  - exists r, out. split; [done|]. intros t s' ->. by eapply recv_text_bounded.
  - by apply recv_text_fuel in Hr; [|lia].
Qed.

(** The tunnel carries bytes unchanged: what the upward direction puts on
    the WebSocket for any sequence of socket reads (each at most the frame
    limit), the downward direction of a peer decodes to exactly the
    concatenation of the reads, stops at the close frame and answers nothing;
    the masks do not matter. *)
Theorem tunnel_transparent rnd rnd' wok cok reads :
  wf_masks rnd → (∀ i, wok i = true) → (∀ i, cok i = true) →
  Forall (λ c, c ≠ [] ∧ (N.of_nat (length c) ≤ MAX_FRAME)%N) reads →
  let s := pipe_up rnd wok 0 reads in
  pipe_down (S (length s)) rnd' cok 0 0 s = Some (concat reads, []).
Proof.
  intros Hm Hw Hc Hr s. rewrite <- (app_nil_r s) at 2.
  apply pipe_down_up; try done. rewrite app_nil_r. unfold s. lia.
Qed.

Lemma tunnel_transparent_witness :
  let s := pipe_up (λ k, [N.of_nat k; 2; 3; 4]%N) (λ _, true) 0 [[65; 66]%N; [67]%N] in
  pipe_down (S (length s)) (λ _, [0; 0; 0; 0]%N) (λ _, true) 0 0 s = Some ([65; 66; 67]%N, []).
Proof.
  apply (tunnel_transparent (λ k, [N.of_nat k; 2; 3; 4]%N) (λ _, [0; 0; 0; 0]%N)
    (λ _, true) (λ _, true) [[65; 66]%N; [67]%N]); [done..|].
  repeat constructor; by vm_compute.
Defined.
