(* ===== verification/Socks.v ===== *)
(** * The local SOCKS5 server ([ws_transport.rs])

    What [handle] does with one connection: the greeting, the password, the
    request, the name lookup and the upgrade to a tunnel.  The bytes the client
    sends come as a list of reads; what is sent, and asked of the proxy, is a
    trace.  The tunnel itself is in [WsFrame]. *)

From S2P Require Import Prelude Str Ip Address Json WsFrame.

(** ** Messages ([mod socks]) *)

Inductive Target := TIp (ip : IpAddr) (port : N) | TName (name : str) (port : N).

Definition REP_GENERAL : N := 1.
Definition REP_HOST_UNREACHABLE : N := 4.
Definition REP_CMD_UNSUPPORTED : N := 7.
Definition REP_ATYP_UNSUPPORTED : N := 8.

(** [b.get(i)] as a length, [b.get(i..i + n)]. *)
Definition len_at (b : bytes) (i : nat) : option nat := N.to_nat <$> b !! i.
Definition slice (b : bytes) (i n : nat) : option bytes :=
  if (i + n <=? length b)%nat then Some (take n (drop i b)) else None.

Inductive socks_error := NotSocks5 | BadGreeting | BadAuth.

Definition greeting_offers_userpass (b : bytes) : result socks_error bool :=
  match b with
  | v :: n :: methods =>
      if (v =? 5)%N then
        if (n =? 0)%N || negb (length b =? 2 + N.to_nat n)%nat then Err BadGreeting
        else Ok (existsb (λ m, m =? 2)%N methods)
      else Err NotSocks5
  | _ => Err NotSocks5
  end.

Definition parse_userpass (b : bytes) : result socks_error (bytes * bytes) :=
  _ ← ensure ((3 <=? length b)%nat && bool_decide (b !! 0%nat = Some 1%N)) BadAuth;
  ul ← ok_or (len_at b 1) BadAuth;
  u ← ok_or (slice b 2 ul) BadAuth;
  pl ← ok_or (len_at b (2 + ul)) BadAuth;
  p ← ok_or (slice b (3 + ul) pl) BadAuth;
  _ ← ensure (length b =? 3 + ul + pl)%nat BadAuth;
  Ok (u, p).

(** [Ipv6Addr::from(bytes)] *)
Fixpoint segments (b : bytes) : list N :=
  match b with x :: y :: b => (x * 256 + y)%N :: segments b | _ => [] end.

Definition port_at (b : bytes) (i : nat) : result N N :=
  _ ← ensure (length b =? i + 2)%nat REP_GENERAL; Ok (be_value (take 2 (drop i b))).

Definition parse_request (b : bytes) : result N Target :=
  match b with
  | ver :: cmd :: rsv :: atyp :: _ =>
      if negb (ver =? 5)%N || negb (rsv =? 0)%N then Err REP_GENERAL
      else if negb (cmd =? 1)%N then Err REP_CMD_UNSUPPORTED
      else if (atyp =? 1)%N then
        a ← ok_or (slice b 4 4) REP_GENERAL; port ← port_at b 8; Ok (TIp (IpV4 a) port)
      else if (atyp =? 4)%N then
        a ← ok_or (slice b 4 16) REP_GENERAL; port ← port_at b 20; Ok (TIp (IpV6 (segments a)) port)
      else if (atyp =? 3)%N then
        n ← ok_or (len_at b 4) REP_GENERAL;
        name ← ok_or (slice b 5 n) REP_GENERAL;
        name ← ok_or (from_utf8 name) REP_GENERAL;
        let name := to_ascii_lowercase (trim_end_char (ch ".") name) in
        port ← port_at b (5 + n);
        match parse_ip name with
        | Some ip => Ok (TIp ip port)
        | None => if valid_dns_name name then Ok (TName name port) else Err REP_HOST_UNREACHABLE
        end
      else Err REP_ATYP_UNSUPPORTED
  | _ => Err REP_GENERAL
  end.

Definition request_len (b : bytes) : option nat :=
  atyp ← b !! 3%nat;
  if (atyp =? 1)%N then if (10 <=? length b)%nat then Some 10%nat else None
  else if (atyp =? 4)%N then if (22 <=? length b)%nat then Some 22%nat else None
  else if (atyp =? 3)%N then
    n ← len_at b 4; if (7 + n <=? length b)%nat then Some (7 + n)%nat else None
  else Some (length b).

Definition reply (code : N) : bytes := [5; code; 0; 1; 0; 0; 0; 0; 0; 0]%N.

(** The closures of [handle]: the length of a greeting and of a password message. *)
Definition greeting_len (b : bytes) : option nat :=
  n ← len_at b 1; if (2 + n <=? length b)%nat then Some (2 + n)%nat else None.
Definition userpass_len (b : bytes) : option nat :=
  ul ← len_at b 1; pl ← len_at b (2 + ul);
  if (3 + ul + pl <=? length b)%nat then Some (3 + ul + pl)%nat else None.

Definition ct_eq (a b : bytes) : bool :=
  (length a =? length b)%nat && (foldl (λ acc '(x, y), N.lor acc (N.lxor x y)) 0 (zip a b) =? 0)%N.

(** ** One connection *)

(** [Ctx]: who may come in and where it goes. *)
Record Ctx := MkCtx {
  x_proxy : ProxyUrl; x_token : option str; x_device : option str; x_user : str; x_pass : str;
}.

Definition DNS_CACHE : N := 300000.

Inductive event :=
| ESent (b : bytes)     (* written to the client *)
| EAsked (req : str)    (* a request written to a fresh connection to the proxy *)
| EClosed (b : bytes).  (* the close frame written to the connection just used *)

(** The world around a connection, by what has happened so far: whether a write
    to the client succeeds, the stream a request to the proxy opens ([None]: it
    cannot be reached), the key drawn for a request, the mask drawn for a frame, the clock in milliseconds;
    [accept key] is the answer the protocol wants to a key. *)
Record world := World {
  w_client : list event → bool;
  w_proxy : list event → str → option bytes;
  w_key : list event → str;
  w_mask : list event → bytes;
  w_now : list event → N;
  w_accept : str → str;
}.

Record conn := Conn {
  c_buf : bytes; c_in : list bytes; c_trace : list event; c_cache : gmap str (N * list IpAddr);
}.

(** A computation may end the connection. *)
Definition M (A : Type) : Type := conn → option A * conn.

#[export] Instance M_ret : MRet M := λ A a c, (Some a, c).
#[export] Instance M_bind : MBind M := λ A B f m c,
  match m c with (Some a, c) => f a c | (None, c) => (None, c) end.

Definition stop {A} : M A := λ c, (None, c).
Definition reads {A} (f : conn → A) : M A := λ c, (Some (f c), c).
Definition log (e : event) : M unit := λ c, (Some tt, Conn (c_buf c) (c_in c) (c_trace c ++ [e]) (c_cache c)).

Section Handle.
Context {J : Json} (x : Ctx) (w : world).

(** [s.write_all(b)], and with the error ending the connection. *)
Definition write (b : bytes) : M bool := ok ← reads (λ c, w_client w (c_trace c)); log (ESent b);; mret ok.
Definition write_or_stop (b : bytes) : M unit := ok ← write b; if ok : bool then mret tt else stop.

(** [read_some]; a read of no bytes is the end. *)
Fixpoint read_some_from (done : bytes → option nat) (buf : bytes) (chunks : list bytes)
    : option (bytes * bytes * list bytes) :=
  match done buf with
  | Some n => Some (take n buf, drop n buf, chunks)
  | None =>
      if (600 <? length buf)%nat then None
      else match chunks with
      | [] | [] :: _ => None
      | b :: chunks => read_some_from done (buf ++ b) chunks
      end
  end.
Definition read_some (done : bytes → option nat) : M bytes := λ c,
  match read_some_from done (c_buf c) (c_in c) with
  | Some (m, buf, chunks) => (Some m, Conn buf chunks (c_trace c) (c_cache c))
  | None => (None, c)
  end.

(** [ws_connect]: the stream after the head of the answer. *)
Definition ws_connect (path : str) : M (option bytes) :=
  key ← reads (λ c, w_key w (c_trace c));
  let req := request (x_proxy x) path key (x_token x) (x_device x) in
  answer ← reads (λ c, w_proxy w (c_trace c) req);
  match answer with
  | None => mret None
  | Some a =>
      log (EAsked req);;
      mret ('(head, rest) ← read_head [] a;
            match judge (from_utf8_lossy head) (w_accept w key) with Ok _ => Some rest | Err _ => None end)
  end.

(** The message of [resolve]. *)
Fixpoint read_answer (fuel : nat) (msg s : bytes) : option bytes :=
  match fuel with
  | O => None
  | S fuel =>
      match read_frame MAX_FRAME s with
      | Err _ => None
      | Ok (fin, op, data, s) =>
          if (op <=? 2)%N then if fin then Some (msg ++ data) else read_answer fuel (msg ++ data) s
          else if (op =? 8)%N then None else read_answer fuel msg s
      end
  end.

Definition parse_dns_answer (text : str) : option (list IpAddr) :=
  v ← from_str text; arr ← as_array v; Some (take 16 (omap (λ x, as_str x ≫= parse_ip) arr)).

Definition resolve (host : str) : M (option (list IpAddr)) :=
  s ← ws_connect (dns_path (x_proxy x) host);
  match (s ← s; read_answer (S (length s)) [] s) with
  | None => mret None
  | Some msg =>
      mask ← reads (λ c, w_mask w (c_trace c));
      log (EClosed (close_frame mask));;
      mret (parse_dns_answer (from_utf8_lossy msg))
  end.

Definition cached (name : str) : M (option (list IpAddr)) :=
  reads (λ c, '(t, v) ← c_cache c !! name; if (w_now w (c_trace c) - t <? DNS_CACHE)%N then Some v else None).

Definition remember (name : str) (v : list IpAddr) : M unit := λ c,
  (Some tt, Conn (c_buf c) (c_in c) (c_trace c) (<[name := (w_now w (c_trace c), v)]> (c_cache c))).

Definition addresses (t : Target) : M (list IpAddr * N) :=
  match t with
  | TIp ip port => mret ([ip], port)
  | TName name port =>
      known ← cached name;
      match known with
      | Some v => mret (v, port)
      | None =>
          r ← resolve name;
          match r with
          | Some (ip :: ips) => remember name (ip :: ips);; mret (ip :: ips, port)
          | _ => mret ([], port)
          end
      end
  end.

Fixpoint connect_any (port : N) (ips : list IpAddr) : M (option bytes) :=
  match ips with
  | [] => mret None
  | ip :: ips =>
      s ← ws_connect (tcp_path (x_proxy x) ip port);
      match s with Some s => mret (Some s) | None => connect_any port ips end
  end.

(** [handle] from the target on, up to the tunnel: what is left to send up it, read
    by read, and the stream that comes down. *)
Definition serve (t : Target) : M (list bytes * bytes) :=
  '(ips, port) ← addresses t;
  ws ← connect_any port (take 4 ips);
  match ws with
  | None => write (reply REP_HOST_UNREACHABLE);; stop
  | Some s =>
      write_or_stop (reply 0);;
      reads (λ c, (if bool_decide (c_buf c = []) then c_in c else c_buf c :: c_in c, s))
  end.

(** [handle] to the accepted password. *)
Definition login : M unit :=
  g ← read_some greeting_len;
  match greeting_offers_userpass g with
  | Err _ => stop
  | Ok false => write [5; 255]%N;; stop
  | Ok true =>
      write_or_stop [5; 2]%N;;
      a ← read_some userpass_len;
      match parse_userpass a with
      | Err _ => stop
      | Ok (u, p) =>
          if ct_eq u (as_bytes (x_user x)) && ct_eq p (as_bytes (x_pass x)) then write_or_stop [1; 0]%N
          else write [1; 1]%N;; stop
      end
  end.

Definition handle : M (list bytes * bytes) :=
  login;;
  req ← read_some request_len;
  match parse_request req with
  | Err code => write (reply code);; stop
  | Ok t => serve t
  end.

End Handle.

(** ** Reading *)

(** Bytes are neither lost nor invented. *)
Lemma read_some_from_app done chunks : ∀ buf m buf' chunks',
  read_some_from done buf chunks = Some (m, buf', chunks') → buf ++ concat chunks = m ++ buf' ++ concat chunks'.
Proof.
  induction chunks as [|b chunks IH]; intros buf m buf' chunks'; cbn [read_some_from concat];
    destruct (done buf) as [n|].
  - intros [= <- <- <-]. cbn [concat]. by rewrite !app_nil_r, take_drop.
  - by destruct (Nat.ltb 600 (length buf)).
  - intros [= <- <- <-]. by rewrite (app_assoc (take n buf)), take_drop.
  - destruct (Nat.ltb 600 (length buf)); [done|]. destruct b as [|y b]; [done|]. intros H%IH. rewrite <- H.
    by rewrite <- app_assoc.
Qed.

(** When [done] says the same of every beginning of [s] that is long enough, the
    reads do not matter. *)
Lemma read_some_from_spec done s :
  (∀ b z n, s = b ++ z → done b = Some n → n ≤ length b ∧ done s = Some n) →
  (∀ b z, s = b ++ z → 600 < length b → is_Some (done b)) →
  ∀ chunks buf, buf ++ concat chunks = s → Forall (.≠ []) chunks →
  match read_some_from done buf chunks with
  | Some (m, buf', chunks') => ∃ n, done s = Some n ∧ m = take n s ∧ buf' ++ concat chunks' = drop n s ∧
                                    Forall (.≠ []) chunks'
  | None => done s = None
  end.
Proof.
  intros Hst Hb. induction chunks as [|c chunks IH]; intros buf E Hne; cbn [read_some_from];
    destruct (done buf) as [n|] eqn:Ed.
  1, 3: destruct (Hst _ _ _ (eq_sym E) Ed) as [Hn Hs]; exists n; subst s; rewrite take_app_le, drop_app_le by done;
    by split_and!.
  - cbn in E. rewrite app_nil_r in E. subst. by destruct (600 <? _)%nat.
  - apply Forall_cons in Hne as [Hc Hne]. destruct (Nat.ltb_spec 600 (length buf)) as [Hl|_].
    { destruct (Hb buf _ (eq_sym E) Hl) as [? E']. by rewrite Ed in E'. }
    destruct c as [|y c]; [done|]. apply IH; [|done]. by rewrite <- E, <- app_assoc.
Qed.

Lemma len_at_app b z i n : len_at b i = Some n → len_at (b ++ z) i = Some n.
Proof. unfold len_at. destruct (b !! i) as [a|] eqn:E; [|done]. by rewrite (lookup_app_l_Some _ _ _ _ E). Qed.

Lemma len_at_byte b i n : wf_bytes b → len_at b i = Some n → n < 256.
Proof.
  intros Hb. unfold len_at. destruct (b !! i) as [a|] eqn:E; [|done]. intros [= <-].
  pose proof (Forall_lookup_1 _ _ _ _ Hb E) as Ha. unfold is_byte in Ha. lia.
Qed.

Lemma len_at_lt b i : i < length b → is_Some (len_at b i).
Proof. intros H. unfold len_at. apply lookup_lt_is_Some in H as [? ->]. by eexists. Qed.

Lemma long_enough n m (k : nat) : (if (n <=? m)%nat then Some n else None) = Some k ↔ n ≤ m ∧ k = n.
Proof. destruct (Nat.leb_spec n m); split; [by intros [= <-]|by intros [_ ->]|done|lia]. Qed.

Lemma greeting_len_stable b z n : greeting_len b = Some n → n ≤ length b ∧ greeting_len (b ++ z) = Some n.
Proof.
  unfold greeting_len. intros (k & Hk & [Hle ->]%long_enough)%bind_Some. split; [done|].
  apply (len_at_app _ z) in Hk. rewrite Hk. apply long_enough. rewrite length_app. split; [lia|done].
Qed.

Lemma userpass_len_stable b z n : userpass_len b = Some n → n ≤ length b ∧ userpass_len (b ++ z) = Some n.
Proof.
  unfold userpass_len. intros (k & Hk & (j & Hj & [Hle ->]%long_enough)%bind_Some)%bind_Some. split; [done|].
  rewrite (len_at_app _ z _ _ Hk). cbn [mbind option_bind]. rewrite (len_at_app _ z _ _ Hj).
  apply long_enough. rewrite length_app. split; [lia|done].
Qed.

Definition good_atyp (b : bytes) : Prop := ∀ a, b !! 3 = Some a → a = 1%N ∨ a = 4%N ∨ a = 3%N.

Lemma request_len_stable b z n : good_atyp (b ++ z) → request_len b = Some n → n ≤ length b ∧ request_len (b ++ z) = Some n.
Proof.
  unfold request_len. intros Hg (a & Ha & H)%bind_Some.
  rewrite (lookup_app_l_Some _ _ _ _ Ha). cbn [mbind option_bind].
  specialize (Hg a (lookup_app_l_Some _ _ _ _ Ha)).
  destruct Hg as [-> | [-> | ->]]; cbn [N.eqb Pos.eqb] in *.
  1, 2: apply long_enough in H as [? ->]; rewrite length_app; split; [lia|apply long_enough; lia].
  apply bind_Some in H as (k & Hk & [Hle ->]%long_enough). split; [done|].
  rewrite (len_at_app _ z _ _ Hk). apply long_enough. rewrite length_app. split; [lia|done].
Qed.

(** A message that is not complete fits the limit of [read_some]. *)
Lemma greeting_len_long b : wf_bytes b → 600 < length b → is_Some (greeting_len b).
Proof.
  intros Hb Hl. unfold greeting_len. destruct (len_at_lt b 1) as [k E]; [lia|]. rewrite E. cbn [mbind option_bind].
  apply len_at_byte in E; [|done]. destruct (Nat.leb_spec (2 + k) (length b)); [done|lia].
Qed.

Lemma userpass_len_long b : wf_bytes b → 600 < length b → is_Some (userpass_len b).
Proof.
  intros Hb Hl. unfold userpass_len. destruct (len_at_lt b 1) as [k E]; [lia|]. rewrite E. cbn [mbind option_bind].
  apply len_at_byte in E; [|done]. destruct (len_at_lt b (2 + k)) as [j Ej]; [lia|]. rewrite Ej. cbn [mbind option_bind].
  apply len_at_byte in Ej; [|done]. destruct (Nat.leb_spec (3 + k + j) (length b)); [done|lia].
Qed.

Lemma request_len_long b : wf_bytes b → 600 < length b → is_Some (request_len b).
Proof.
  intros Hb Hl. unfold request_len. destruct (proj2 (lookup_lt_is_Some b 3)) as [a ->]; [lia|]. cbn [mbind option_bind].
  destruct (a =? 1)%N; [destruct (Nat.leb_spec 10 (length b)); [done|lia]|].
  destruct (a =? 4)%N; [destruct (Nat.leb_spec 22 (length b)); [done|lia]|].
  destruct (a =? 3)%N; [|done]. destruct (len_at_lt b 4) as [k E]; [lia|]. rewrite E. cbn [mbind option_bind].
  apply len_at_byte in E; [|done]. destruct (Nat.leb_spec (7 + k) (length b)); [done|lia].
Qed.

(** A request of another address type is refused whatever else it says. *)
Lemma parse_bad_atyp b z : 4 ≤ length b → ¬ good_atyp (b ++ z) →
  parse_request (b ++ z) = parse_request b ∧ ∃ code, parse_request b = Err code.
Proof.
  intros Hl Hbad. destruct b as [|b0 [|b1 [|b2 [|b3 b]]]]; cbn in Hl; try lia. cbn.
  destruct (negb (b0 =? 5)%N || negb (b2 =? 0)%N); [by eauto|]. destruct (negb (b1 =? 1)%N); [by eauto|].
  assert (b3 ≠ 1 ∧ b3 ≠ 4 ∧ b3 ≠ 3)%N as (H1 & H4 & H3) by (split_and!; intros ->; apply Hbad; intros ? [= <-]; tauto).
  apply N.eqb_neq in H1, H4, H3. rewrite H1, H4, H3. by eauto.
Qed.

(** ** The reads do not matter *)

(** The same connection, with the bytes to come cut into other reads. *)
Record alike (c1 c2 : conn) : Prop := {
  al_pending : c_buf c1 ++ concat (c_in c1) = c_buf c2 ++ concat (c_in c2);
  al_trace : c_trace c1 = c_trace c2;
  al_cache : c_cache c1 = c_cache c2;
  al_left : Forall (.≠ []) (c_in c1);
  al_right : Forall (.≠ []) (c_in c2);
  al_bytes : wf_bytes (c_buf c1 ++ concat (c_in c1));
}.

(** Two ways to end a step agree. *)
Definition agree {A} (R : A → A → Prop) (o1 o2 : option A * conn) : Prop :=
  match o1, o2 with
  | (Some a1, c1), (Some a2, c2) => R a1 a2 ∧ alike c1 c2
  | (None, c1), (None, c2) => c_trace c1 = c_trace c2 ∧ c_cache c1 = c_cache c2
  | _, _ => False
  end.
Definition steady {A} (R : A → A → Prop) (m : M A) : Prop := ∀ c1 c2, alike c1 c2 → agree R (m c1) (m c2).

Create HintDb steady.

Lemma steady_bind {A B} (R : A → A → Prop) (m : M A) (f : A → M B) Q c1 c2 :
  agree R (m c1) (m c2) → (∀ a1 a2 d1 d2, R a1 a2 → alike d1 d2 → agree Q (f a1 d1) (f a2 d2)) →
  agree Q ((m ≫= f) c1) ((m ≫= f) c2).
Proof.
  intros Hm Hf. unfold mbind, M_bind, agree in *. destruct (m c1) as [[a1|] d1], (m c2) as [[a2|] d2]; try done.
  destruct Hm as [? ?]. by apply Hf.
Qed.

Lemma steady_bind_eq {A B} (m : M A) (f : A → M B) Q : steady (=) m → (∀ a, steady Q (f a)) → steady Q (m ≫= f).
Proof. intros Hm Hf c1 c2 Hc. eapply steady_bind; [by apply Hm|]. intros a ? d1 d2 <- ?. by apply Hf. Qed.

Lemma steady_ret {A} (a : A) : steady (=) (mret a : M A).
Proof. by intros c1 c2 Hc. Qed.
Lemma steady_stop {A} (Q : A → A → Prop) : steady Q (stop : M A).
Proof. intros c1 c2 []. done. Qed.
Lemma steady_reads {A} (f : conn → A) : (∀ c1 c2, c_trace c1 = c_trace c2 → c_cache c1 = c_cache c2 → f c1 = f c2) → steady (=) (reads f).
Proof. intros Hf c1 c2 Hc. split; [by apply Hf; apply Hc|done]. Qed.
Lemma steady_log e : steady (=) (log e).
Proof. intros c1 c2 []. split; [done|]. split; try done. cbn. by f_equal. Qed.
Lemma steady_if {A} (b : bool) (m1 m2 : M A) Q : steady Q m1 → steady Q m2 → steady Q (if b then m1 else m2).
Proof. by destruct b. Qed.
#[export] Hint Resolve steady_ret steady_stop steady_log steady_if : steady.
#[export] Hint Extern 2 (steady _ (_ ≫= _)) => apply steady_bind_eq : steady.
#[export] Hint Extern 2 (steady _ (reads _)) => apply steady_reads; intros ? ? -> ->; reflexivity : steady.

Section Steady.
Context {J : Json} (x : Ctx) (w : world).

Lemma steady_write b : steady (=) (write w b).
Proof.
  unfold write. apply steady_bind_eq; [apply steady_reads; intros ? ? -> _; done|]. auto with steady.
Qed.
Lemma steady_write_or_stop b : steady (=) (write_or_stop w b).
Proof. unfold write_or_stop. apply steady_bind_eq; [apply steady_write|]. intros []; auto with steady. Qed.

Lemma agree_read_some done c1 c2 s :
  alike c1 c2 → s = c_buf c1 ++ concat (c_in c1) →
  (∀ b z n, s = b ++ z → done b = Some n → n ≤ length b ∧ done s = Some n) →
  (∀ b z, s = b ++ z → 600 < length b → is_Some (done b)) →
  agree (=) (read_some done c1) (read_some done c2).
Proof.
  intros [] Es Hst Hl. unfold agree, read_some.
  pose proof (read_some_from_spec done s Hst Hl (c_in c1) (c_buf c1) (eq_sym Es) al_left0) as H1.
  rewrite al_pending0 in Es.
  pose proof (read_some_from_spec done s Hst Hl (c_in c2) (c_buf c2) (eq_sym Es) al_right0) as H2.
  destruct (read_some_from done (c_buf c1) (c_in c1)) as [[[m1 b1] i1]|],
    (read_some_from done (c_buf c2) (c_in c2)) as [[[m2 b2] i2]|].
  - destruct H1 as (n & Hn & -> & Hr1 & ?), H2 as (n' & Hn' & -> & Hr2 & ?).
    rewrite Hn in Hn'. injection Hn' as <-. split; [done|]. split; cbn; try done; [by rewrite Hr1, Hr2|].
    rewrite Hr1. rewrite al_pending0, <- Es, <- (take_drop n s) in al_bytes0. by apply Forall_app in al_bytes0 as [].
  - by destruct H1 as (? & E & _); rewrite E in H2.
  - by destruct H2 as (? & E & _); rewrite E in H1.
  - done.
Qed.

(** The parts of the bytes to come are bytes. *)
Lemma wf_part (b z s : bytes) : wf_bytes s → s = b ++ z → wf_bytes b.
Proof. intros H ->. by apply Forall_app in H as []. Qed.

Lemma steady_read_some done :
  (∀ b z n, done b = Some n → n ≤ length b ∧ done (b ++ z) = Some n) →
  (∀ b, wf_bytes b → 600 < length b → is_Some (done b)) → steady (=) (read_some done).
Proof.
  intros Hst Hl c1 c2 Hc. eapply agree_read_some; [done..| |].
  - intros b z n ->. apply Hst.
  - intros b z E. apply Hl. eapply wf_part; [apply Hc|exact E].
Qed.

Lemma steady_ws_connect path : steady (=) (ws_connect x w path).
Proof.
  unfold ws_connect. apply steady_bind_eq; [apply steady_reads; intros ? ? -> _; done|]. intros key.
  apply steady_bind_eq; [apply steady_reads; intros ? ? -> _; done|]. intros [a|]; auto with steady.
Qed.

Lemma steady_resolve host : steady (=) (resolve x w host).
Proof.
  unfold resolve. apply steady_bind_eq; [apply steady_ws_connect|]. intros s.
  destruct (s ≫= _); auto with steady.
  apply steady_bind_eq; [apply steady_reads; intros ? ? -> _; done|]. auto with steady.
Qed.

Lemma steady_remember name v : steady (=) (remember w name v).
Proof. intros c1 c2 []. split; [done|]. split; try done. cbn. by rewrite al_trace0, al_cache0. Qed.

Lemma steady_addresses t : steady (=) (addresses x w t).
Proof.
  destruct t as [ip port|name port]; cbn [addresses]; auto with steady.
  apply steady_bind_eq; [apply steady_reads; intros ? ? -> ->; done|]. intros [v|]; auto with steady.
  apply steady_bind_eq; [apply steady_resolve|]. intros [[|ip ips]|]; auto with steady.
  apply steady_bind_eq; [apply steady_remember|]. auto with steady.
Qed.

Lemma steady_connect_any port ips : steady (=) (connect_any x w port ips).
Proof.
  induction ips as [|ip ips IH]; cbn [connect_any]; auto with steady.
  apply steady_bind_eq; [apply steady_ws_connect|]. intros [s|]; auto with steady.
Qed.

(** A request with another address type is handed on somewhere after its type. *)
Lemma read_bad_atyp s chunks : ∀ buf, ¬ good_atyp s → wf_bytes s → buf ++ concat chunks = s → Forall (.≠ []) chunks →
  ∃ m z rest, read_some_from request_len buf chunks = Some (m, rest.1, rest.2) ∧ s = m ++ z ∧ 4 ≤ length m.
Proof.
  assert (∀ buf n ch, ¬ good_atyp s → buf ++ concat ch = s → request_len buf = Some n →
    ∃ m z (rest : bytes * list bytes), Some (take n buf, drop n buf, ch) = Some (m, rest.1, rest.2) ∧ s = m ++ z ∧ 4 ≤ length m) as Hdone.
  { intros buf n ch Hbad <- Hn. unfold request_len in Hn. apply bind_Some in Hn as (a & Ha & Hn).
    assert (a ≠ 1 ∧ a ≠ 4 ∧ a ≠ 3)%N as (H1 & H4 & H3).
    { split_and!; intros ->; apply Hbad; intros y; rewrite (lookup_app_l_Some _ _ _ _ Ha); intros [= <-]; tauto. }
    apply N.eqb_neq in H1, H4, H3. rewrite H1, H4, H3 in Hn. injection Hn as <-.
    exists buf, (concat ch), (drop (length buf) buf, ch). rewrite take_ge by done. split_and!; [done..|].
    apply lookup_lt_Some in Ha. lia. }
  induction chunks as [|c chunks IH]; intros buf Hbad Hb E Hne; cbn [read_some_from];
    (destruct (request_len buf) as [n|] eqn:En; [by apply Hdone|]).
  - exfalso. cbn in E. rewrite app_nil_r in E. subst. apply Hbad. intros a Ha.
    unfold request_len in En. rewrite Ha in En. cbn [mbind option_bind] in En.
    destruct (N.eqb_spec a 1); [by left|]. destruct (N.eqb_spec a 4); [by right; left|].
    destruct (N.eqb_spec a 3); [by right; right|done].
  - apply Forall_cons in Hne as [Hc Hne]. destruct (Nat.ltb_spec 600 (length buf)) as [Hl|_].
    { destruct (request_len_long buf) as [? E']; [by eapply wf_part|done|]. by rewrite En in E'. }
    destruct c as [|y c]; [done|]. apply IH; try done. by rewrite <- E, <- app_assoc.
Qed.

(** The request is the same, or it is refused with the same code. *)
Lemma steady_request {B} (f : bytes → M B) Q :
  (∀ a, steady Q (f a)) →
  (∀ a a' code c1 c2, parse_request a = Err code → parse_request a' = Err code →
     c_trace c1 = c_trace c2 → c_cache c1 = c_cache c2 → agree Q (f a c1) (f a' c2)) →
  steady Q (read_some request_len ≫= f).
Proof.
  intros Hf Hbad c1 c2 Hc. pose proof Hc as [Hp Ht Hk Hl Hr Hb].
  remember (c_buf c1 ++ concat (c_in c1)) as s eqn:Es.
  assert (Decision (good_atyp s)) as [Hg|Hg].
  { unfold good_atyp. destruct (s !! 3) as [a|]; [|by left].
    destruct (decide (a = 1 ∨ a = 4 ∨ a = 3)%N); [left; by intros ? [= <-]|right; eauto]. }
  - eapply (steady_bind (=)); [|intros a ? d1 d2 <-; apply Hf]. eapply agree_read_some; [done..| |].
    + intros b z n ->. by apply request_len_stable.
    + intros b z E. apply request_len_long. eapply wf_part; [exact Hb|exact E].
  - destruct (read_bad_atyp s (c_in c1) (c_buf c1)) as (m1 & z1 & [b1 i1] & E1 & Hs1 & H1); [done..|].
    destruct (read_bad_atyp s (c_in c2) (c_buf c2)) as (m2 & z2 & [b2 i2] & E2 & Hs2 & H2); [done..|].
    unfold mbind, M_bind, read_some. rewrite E1, E2. cbn [fst snd].
    destruct (parse_bad_atyp m1 z1) as [P1 [code C1]]; [done|by rewrite <- Hs1|].
    destruct (parse_bad_atyp m2 z2) as [P2 _]; [done|by rewrite <- Hs2|].
    eapply Hbad; [exact C1| |done..]. by rewrite <- P2, <- Hs2, Hs1, P1.
Qed.

Lemma steady_login : steady (=) (login x w).
Proof.
  unfold login.
  apply steady_bind_eq; [apply steady_read_some; [apply greeting_len_stable|apply greeting_len_long]|]. intros g.
  destruct (greeting_offers_userpass g) as [[]|]; [|apply steady_bind_eq; [apply steady_write|auto with steady]|auto with steady].
  apply steady_bind_eq; [apply steady_write_or_stop|]. intros _.
  apply steady_bind_eq; [apply steady_read_some; [apply userpass_len_stable|apply userpass_len_long]|]. intros a.
  destruct (parse_userpass a) as [[u p]|]; [|auto with steady].
  destruct (_ && _); [apply steady_write_or_stop|apply steady_bind_eq; [apply steady_write|auto with steady]].
Qed.

Lemma steady_handle : steady (λ r1 r2, concat r1.1 = concat r2.1 ∧ r1.2 = r2.2) (handle x w).
Proof.
  unfold handle. apply steady_bind_eq; [apply steady_login|]. intros _. apply steady_request.
  - intros req. destruct (parse_request req) as [t|code]; [|apply steady_bind_eq; [apply steady_write|auto with steady]].
    unfold serve. apply steady_bind_eq; [apply steady_addresses|]. intros [ips port].
    apply steady_bind_eq; [apply steady_connect_any|]. intros [s|]; [|apply steady_bind_eq; [apply steady_write|auto with steady]].
    apply steady_bind_eq; [apply steady_write_or_stop|]. intros _ c1 c2 Hc. split; [|done]. split; [|done].
    assert (∀ c, concat (if bool_decide (c_buf c = []) then c_in c else c_buf c :: c_in c) = c_buf c ++ concat (c_in c)) as E.
    { intros c. case_bool_decide as Hb; [by rewrite Hb|done]. }
    cbn [fst]. rewrite !E. apply Hc.
  - intros a1 a2 code c1 c2 E1 E2 Ht Hk. rewrite E1, E2.
    unfold agree, write, log, reads, stop, mbind, M_bind, mret, M_ret. cbn. by rewrite Ht.
Qed.

End Steady.

(** ** What is asked of the proxy *)

(** All a computation asks of the proxy satisfies [P]. *)
Definition asks {A} (P : str → Prop) (m : M A) : Prop :=
  ∀ c, ∃ l, c_trace (m c).2 = c_trace c ++ l ∧ ∀ q, EAsked q ∈ l → P q.

Lemma asks_none {A} P (m : M A) : (∀ c, c_trace (m c).2 = c_trace c) → asks P m.
Proof. intros H c. exists []. rewrite H, app_nil_r. split; [done|]. by intros q ?%elem_of_nil. Qed.

Lemma asks_bind {A B} P (m : M A) (f : A → M B) : asks P m → (∀ a, asks P (f a)) → asks P (m ≫= f).
Proof.
  intros Hm Hf c. unfold mbind, M_bind. destruct (Hm c) as (l & El & Hl). destruct (m c) as [[a|] d]; cbn in *; [|by eauto].
  destruct (Hf a d) as (k & Ek & Hk). exists (l ++ k). rewrite Ek, El, app_assoc. split; [done|].
  intros q [?|?]%elem_of_app; auto.
Qed.

Lemma asks_log P e : (∀ q, e = EAsked q → P q) → asks P (log e).
Proof. intros He c. exists [e]. split; [done|]. intros q E%list_elem_of_singleton. by apply He. Qed.

Section Asks.
Context {J : Json} (x : Ctx) (w : world).

(** What [handle] may ask for a target: with a key of its own, the path of a
    name, or of an address. *)
Definition path_for (t : Target) (path : str) : Prop :=
  match t with
  | TIp ip port => path = tcp_path (x_proxy x) ip port
  | TName name port => path = dns_path (x_proxy x) name ∨ ∃ ip, path = tcp_path (x_proxy x) ip port
  end.
Definition asked_for (t : Target) (q : str) : Prop :=
  ∃ path tr, path_for t path ∧ q = request (x_proxy x) path (w_key w tr) (x_token x) (x_device x).

Lemma asks_write P b : asks P (write w b).
Proof.
  unfold write. apply asks_bind; [by apply asks_none|]. intros ok. apply asks_bind; [by apply asks_log|].
  intros _. by apply asks_none.
Qed.
Lemma asks_write_or_stop P b : asks P (write_or_stop w b).
Proof. unfold write_or_stop. apply asks_bind; [apply asks_write|]. intros []; by apply asks_none. Qed.

Lemma asks_ws_connect (P : str → Prop) path :
  (∀ tr, P (request (x_proxy x) path (w_key w tr) (x_token x) (x_device x))) → asks P (ws_connect x w path).
Proof.
  intros HP c. unfold ws_connect, reads, log, mbind, M_bind, mret, M_ret.
  destruct (w_proxy _ _ _) as [a|]; cbn.
  - eexists. split; [done|]. intros q [= ->]%list_elem_of_singleton. apply HP.
  - exists []. rewrite app_nil_r. split; [done|]. by intros q ?%elem_of_nil.
Qed.

Lemma asks_addresses t : asks (asked_for t) (addresses x w t).
Proof.
  destruct t as [ip port|name port]; cbn [addresses]; [by apply asks_none|].
  apply asks_bind; [by apply asks_none|]. intros [v|]; [by apply asks_none|].
  apply asks_bind.
  - unfold resolve. apply asks_bind.
    + apply asks_ws_connect. intros tr. eexists _, tr. split; [by left|done].
    + intros s. destruct (s ≫= _); [|by apply asks_none]. apply asks_bind; [by apply asks_none|].
      intros m. apply asks_bind; [by apply asks_log|]. intros _. by apply asks_none.
  - intros [[|ip ips]|]; by apply asks_none.
Qed.

(** The port is the target's, and an address given is the address used. *)
Definition of_target (t : Target) (r : list IpAddr * N) : Prop :=
  match t with TIp ip port => r = ([ip], port) | TName _ port => r.2 = port end.

Lemma addresses_of_target t c r c' : addresses x w t c = (Some r, c') → of_target t r.
Proof.
  destruct t as [ip port|name port]; cbn [addresses of_target]; [by intros [= <- _]|].
  unfold mbind, M_bind. cbn. destruct (c_cache c !! name ≫= _) as [v|]; [by intros [= <- _]|].
  destruct (resolve x w name c) as [[[[|ip ips]|]|] d]; try done; by intros [= <- _].
Qed.

Lemma asks_connect_any t ips port :
  (∀ ip, ip ∈ ips → of_target t ([ip], port)) → asks (asked_for t) (connect_any x w port ips).
Proof.
  induction ips as [|ip ips IH]; intros Hp; cbn [connect_any]; [by apply asks_none|].
  apply asks_bind.
  - apply asks_ws_connect. intros tr. eexists _, tr. split; [|done]. specialize (Hp ip ltac:(by left)).
    destruct t as [ip' port'|name port']; cbn in *; [by injection Hp as -> ->|]. subst. right. by eexists.
  - intros [s|]; [by apply asks_none|]. apply IH. intros ip' ?. apply Hp. by right.
Qed.

Lemma of_target_take t ips port n ip : of_target t (ips, port) → ip ∈ take n ips → of_target t ([ip], port).
Proof.
  destruct t as [ip' port'|name port']; cbn; [|done]. intros [= -> ->] Hin.
  destruct n; cbn in Hin; [by apply elem_of_nil in Hin|]. rewrite take_nil in Hin.
  apply list_elem_of_singleton in Hin as ->. done.
Qed.

Lemma asks_serve t : asks (asked_for t) (serve x w t).
Proof.
  intros c. unfold serve, mbind at 1, M_bind. destruct (asks_addresses t c) as (l & El & Hl).
  destruct (addresses x w t c) as [[[ips port]|] d] eqn:E; cbn in *; [|by eauto].
  apply addresses_of_target in E.
  assert (∀ m : M (list bytes * bytes), asks (asked_for t) m → ∃ l0, c_trace (m d).2 = c_trace c ++ l0 ∧
    ∀ q, EAsked q ∈ l0 → asked_for t q) as Hgo.
  { intros m Hm. destruct (Hm d) as (k & Ek & Hk). exists (l ++ k). rewrite Ek, El, app_assoc. split; [done|].
    intros q [?|?]%elem_of_app; auto. }
  apply Hgo. apply asks_bind.
  - apply asks_connect_any. intros ip. by apply of_target_take.
  - intros [s|]; [|apply asks_bind; [apply asks_write|intros; by apply asks_none]].
    apply asks_bind; [apply asks_write_or_stop|intros; by apply asks_none].
Qed.

End Asks.

(** ** Coming in *)

Lemma slice_Some b i n z : slice b i n = Some z → z = take n (drop i b) ∧ length z = n.
Proof. unfold slice. destruct (Nat.leb_spec (i + n) (length b)); [|done]. intros [= <-]. rewrite length_take, length_drop. split; [done|lia]. Qed.

Lemma lxor_all_zero a b acc : length a = length b →
  foldl (λ acc '(x, y), N.lor acc (N.lxor x y)) acc (zip a b) = 0%N → acc = 0%N ∧ a = b.
Proof.
  revert b acc. induction a as [|x a IH]; intros [|y b] acc Hl; cbn; try done.
  intros [[Ha Hx]%N.lor_eq_0_iff ->]%IH; [|by injection Hl]. apply N.lxor_eq in Hx. by subst.
Qed.

(** The comparison without early exit is equality. *)
Lemma ct_eq_spec a b : ct_eq a b = true ↔ a = b.
Proof.
  unfold ct_eq. rewrite andb_true_iff, Nat.eqb_eq, N.eqb_eq. split.
  - by intros [Hl [_ ?]%lxor_all_zero].
  - intros <-. split; [done|]. induction a as [|x a IH]; cbn; [done|]. by rewrite N.lxor_nilpotent.
Qed.

(** The password message for a user and a password. *)
Definition userpass (u p : bytes) : bytes :=
  1%N :: N.of_nat (length u) :: u ++ N.of_nat (length p) :: p.

Lemma parse_userpass_inv a u p : parse_userpass a = Ok (u, p) → a = userpass u p.
Proof.
  unfold parse_userpass.
  intros ([] & [Hl H0]%ensure_ok%andb_prop & (ul & Hul%ok_or_ok & (u' & [Hu Lu]%ok_or_ok%slice_Some &
    (pl & Hpl%ok_or_ok & (p' & [Hp Lp]%ok_or_ok%slice_Some & ([] & Hn%ensure_ok & [= <- <-])%bind_ok)%bind_ok)%bind_ok)%bind_ok)%bind_ok)%bind_ok.
  apply bool_decide_eq_true in H0. apply Nat.eqb_eq in Hn.
  destruct a as [|a0 [|a1 rest]]; cbn in *; try lia. injection H0 as ->. injection Hul as <-.
  unfold len_at in Hpl. change ((1%N :: a1 :: rest) !! (2 + N.to_nat a1)) with (rest !! N.to_nat a1) in Hpl.
  destruct (rest !! N.to_nat a1) as [c|] eqn:Ec; [|done]. injection Hpl as <-.
  rewrite drop_0 in Hu. unfold userpass. rewrite Lu, N2Nat.id. do 2 f_equal.
  rewrite <- (take_drop_middle rest _ _ Ec), <- Hu. f_equal. rewrite Lp, N2Nat.id. f_equal.
  subst p'. symmetry. apply take_ge. rewrite length_drop. lia.
Qed.

Lemma parse_request_name b name port : parse_request b = Ok (TName name port) →
  host_form name = true ∧ Forall (λ c, is_ascii_upper c = false) name ∧ last name ≠ Some (ch ".").
Proof.
  destruct b as [|v [|c [|r [|a b]]]]; try done. cbn [parse_request].
  destruct (_ || _); [done|]. destruct (negb _); [done|].
  destruct (a =? 1)%N; [by intros (? & _ & (? & _ & [=])%bind_ok)%bind_ok|].
  destruct (a =? 4)%N; [by intros (? & _ & (? & _ & [=])%bind_ok)%bind_ok|].
  destruct (a =? 3)%N; [|done]. cbv zeta.
  intros (? & _ & (? & _ & (t & _ & (? & _ & H)%bind_ok)%bind_ok)%bind_ok)%bind_ok.
  destruct (parse_ip _); [done|]. destruct (valid_dns_name _) eqn:E; [|done]. injection H as <- _.
  split_and!; [unfold host_form; by rewrite E, orb_true_r|apply lowered|].
  destruct (trim_end_char_spec (ch ".") t) as (n & _ & Hd). unfold to_ascii_lowercase. rewrite fmap_last.
  destruct (last (trim_end_char (ch ".") t)) as [y|]; [|done]. cbn. intros [= Ey]. apply Hd. f_equal.
  unfold ascii_lower, is_ascii_upper in Ey. destruct (in_range 65 90 y) eqn:Er; [|done].
  apply in_range_spec in Er. change (ch ".") with 46%N in *. lia.
Qed.

Lemma path_visible x t path req : wf_url (x_proxy x) → parse_request req = Ok t → path_for x t path →
  Forall (λ c, visible c = true) path ∧ path ≠ [].
Proof.
  intros Hw Ht Hp. apply parse_request_name in Ht as Hn || idtac.
  assert (∀ ip port, Forall (λ c, visible c = true) (tcp_path (x_proxy x) ip port) ∧ tcp_path (x_proxy x) ip port ≠ []) as Htcp.
  { intros ip port. unfold tcp_path. split; [|by destruct (pu_base (x_proxy x))].
    apply url_chars_visible. rewrite !Forall_app. split_and!.
    - by apply bad_path_chars, Hw.
    - by repeat constructor.
    - eapply Forall_impl; [apply show_ip_chars|]. apply ip_char_url.
    - by repeat constructor.
    - eapply Forall_impl; [apply show_N_chars|]. apply ip_char_url. }
  destruct t as [ip port|name port]; cbn in Hp; [subst; apply Htcp|].
  destruct Hp as [->|[ip ->]]; [|apply Htcp].
  apply parse_request_name in Ht as (Hf & Hlow & Hd). unfold dns_path. split; [|by destruct (pu_base (x_proxy x))].
  rewrite trim_end_char_id, to_lower_id by done.
  apply url_chars_visible. rewrite !Forall_app. split_and!.
  - by apply bad_path_chars, Hw.
  - by repeat constructor.
  - eapply Forall_impl; [by apply host_chars|]. by intros c [].
Qed.

Section Asked.
Context {J : Json} (x : Ctx) (w : world).

(** One step of a trace of [handle]: nothing asked before, or the step fails. *)
Lemma bind_run {A B} (m : M A) (f : A → M B) c r : (m ≫= f) c = r →
  (∃ a d, m c = (Some a, d) ∧ f a d = r) ∨ (∃ d, m c = (None, d) ∧ r = (None, d)).
Proof. unfold mbind, M_bind. destruct (m c) as [[a|] d]; intros <-; [left|right]; eauto. Qed.

Lemma read_some_run done c a d : read_some done c = (a, d) →
  c_trace d = c_trace c ∧ ∀ m, a = Some m → c_buf c ++ concat (c_in c) = m ++ c_buf d ++ concat (c_in d).
Proof.
  unfold read_some. destruct (read_some_from done (c_buf c) (c_in c)) as [[[m b] i]|] eqn:E; intros [= <- <-]; [|done].
  split; [done|]. intros ? [= <-]. by eapply read_some_from_app.
Qed.

Lemma write_run b c : (∃ ok, write w b c = (Some ok, Conn (c_buf c) (c_in c) (c_trace c ++ [ESent b]) (c_cache c))).
Proof. by eexists. Qed.

Lemma write_or_stop_run b c a d : write_or_stop w b c = (a, d) →
  d = Conn (c_buf c) (c_in c) (c_trace c ++ [ESent b]) (c_cache c).
Proof.
  unfold write_or_stop, mbind, M_bind. destruct (write_run b c) as [ok E]. rewrite E. by destruct ok; intros [= _ <-].
Qed.

(** Nothing has been asked of the proxy. *)
Definition quiet (tr : list event) : Prop := ∀ q, EAsked q ∉ tr.

Lemma quiet_sent tr b : quiet tr → quiet (tr ++ [ESent b]).
Proof. intros H q [Hq|[=]%list_elem_of_singleton]%elem_of_app. by apply (H q). Qed.

Lemma write_stop_run {A} b c (r : option A) d : (write w b ≫= λ _, stop) c = (r, d) →
  r = None ∧ (quiet (c_trace c) → quiet (c_trace d)).
Proof.
  unfold mbind, M_bind. destruct (write_run b c) as [ok ->]. intros [= <- <-]. split; [done|]. apply quiet_sent.
Qed.

(** The proxy is not asked before the password was right. *)
Lemma login_run c r d : login x w c = (r, d) → quiet (c_trace c) →
  quiet (c_trace d) ∧ (r = Some tt → ∃ g, greeting_offers_userpass g = Ok true ∧
    c_buf c ++ concat (c_in c) = g ++ userpass (as_bytes (x_user x)) (as_bytes (x_pass x)) ++ c_buf d ++ concat (c_in d)).
Proof.
  unfold login. intros H H0.
  apply bind_run in H as [(g & c1 & [T1 P1]%read_some_run & H)|(d1 & [T1 _]%read_some_run & [= -> ->])];
    rewrite <- T1 in H0; [|by split].
  destruct (greeting_offers_userpass g) as [[]|] eqn:Eg; [|apply write_stop_run in H as [-> H]; split; [by apply H|done]|injection H as <- <-; by split].
  apply bind_run in H as [(? & c2 & ->%write_or_stop_run & H)|(? & ->%write_or_stop_run & [= -> ->])];
    [|split; [by apply quiet_sent|done]].
  apply (quiet_sent _ [5; 2]%N) in H0.
  apply bind_run in H as [(a & c3 & [T3 P3]%read_some_run & H)|(d1 & [T3 _]%read_some_run & [= -> ->])];
    cbn [c_trace c_buf c_in] in *; rewrite <- T3 in H0; [|by split].
  destruct (parse_userpass a) as [[u p]|] eqn:Ea; [|injection H as <- <-; by split].
  destruct (ct_eq u _ && ct_eq p _) eqn:Ec; [|apply write_stop_run in H as [-> H]; split; [by apply H|done]].
  apply andb_prop in Ec as [->%ct_eq_spec ->%ct_eq_spec]. apply parse_userpass_inv in Ea as ->.
  apply write_or_stop_run in H as ->. split; [by apply quiet_sent|]. intros _. exists g.
  rewrite (P1 g eq_refl), (P3 _ eq_refl). done.
Qed.

(** No request is made, or the password was right and the target is the one given. *)
Lemma handle_asked c r d q : handle x w c = (r, d) → quiet (c_trace c) → EAsked q ∈ c_trace d →
  ∃ g req rest t, c_buf c ++ concat (c_in c) = g ++ userpass (as_bytes (x_user x)) (as_bytes (x_pass x)) ++ req ++ rest ∧
    greeting_offers_userpass g = Ok true ∧ parse_request req = Ok t ∧ asked_for x w t q.
Proof.
  unfold handle. intros H H0 Hq.
  apply bind_run in H as [([] & c1 & [Q1 P1]%login_run & H)|(d1 & [Q1 _]%login_run & [= -> ->])]; try done; [|by apply Q1 in Hq].
  destruct (P1 eq_refl) as (g & Hg & Eg).
  apply bind_run in H as [(req & c2 & [T2 P2]%read_some_run & H)|(d1 & [T2 _]%read_some_run & [= -> ->])];
    rewrite <- T2 in Q1; [|by apply Q1 in Hq].
  destruct (parse_request req) as [t|code] eqn:Et; [|apply write_stop_run in H as [_ H]; by apply H in Hq].
  exists g, req, (c_buf c2 ++ concat (c_in c2)), t. rewrite Eg, (P2 req eq_refl). split_and!; [done..|].
  destruct (asks_serve x w t c2) as (l & El & Hl). rewrite H in El. cbn in El. rewrite El in Hq.
  apply elem_of_app in Hq as [Hq|Hq]; [by apply Q1 in Hq|by apply Hl].
Qed.

End Asked.

(** ** The way in *)

Lemma len_at_1 (a n : N) z : len_at (a :: n :: z) 1 = Some (N.to_nat n).
Proof. done. Qed.

Lemma greeting_len_app g b z : greeting_offers_userpass g = Ok b → greeting_len (g ++ z) = Some (length g).
Proof.
  unfold greeting_offers_userpass. destruct g as [|v [|n g]]; try done. destruct (v =? 5)%N; [|done].
  destruct (n =? 0)%N; [done|]. destruct (Nat.eqb_spec (length (v :: n :: g)) (2 + N.to_nat n)) as [E|]; [|done].
  intros _. unfold greeting_len. cbn [app]. rewrite len_at_1. cbn [mbind option_bind].
  rewrite <- E. apply long_enough. cbn. rewrite length_app. split; [lia|done].
Qed.

Lemma len_at_userpass u z i : i = length u → len_at (1%N :: N.of_nat (length u) :: u ++ z) (2 + i) = N.to_nat <$> head z.
Proof.
  intros ->. unfold len_at. change ((1%N :: N.of_nat (length u) :: u ++ z) !! (2 + length u)) with ((u ++ z) !! length u).
  rewrite lookup_app_r, Nat.sub_diag by done. by destruct z.
Qed.

Lemma userpass_len_app u p z : userpass_len (userpass u p ++ z) = Some (length (userpass u p)).
Proof.
  unfold userpass_len, userpass. cbn [app]. rewrite <- app_assoc, len_at_1.
  cbn [mbind option_bind]. rewrite Nat2N.id, len_at_userpass by done.
  cbn [head app fmap option_fmap option_map mbind option_bind]. rewrite Nat2N.id. apply long_enough.
  cbn. rewrite !length_app. cbn. rewrite length_app. split; lia.
Qed.

Lemma slice_app b i n l r : b = l ++ r → length l = i → n ≤ length r → slice b i n = Some (take n r).
Proof.
  intros -> <- Hn. unfold slice. rewrite length_app, drop_app_length. by rewrite (proj2 (Nat.leb_le _ _)) by lia.
Qed.

Lemma parse_userpass_app u p : parse_userpass (userpass u p) = Ok (u, p).
Proof.
  unfold parse_userpass. assert ((3 <=? length (userpass u p))%nat && bool_decide (userpass u p !! 0 = Some 1%N) = true) as ->.
  { rewrite bool_decide_true, andb_true_r by done. apply Nat.leb_le. cbn. rewrite length_app. cbn. lia. }
  cbn [ensure mbind result_bind]. unfold userpass. rewrite len_at_1. cbn [ok_or mbind result_bind].
  rewrite Nat2N.id.
  rewrite (slice_app _ _ _ [1; N.of_nat (length u)]%N (u ++ N.of_nat (length p) :: p)) by (rewrite ?length_app; done || lia).
  cbn [ok_or mbind result_bind]. rewrite len_at_userpass by done. cbn [head fmap option_fmap option_map ok_or mbind result_bind].
  rewrite Nat2N.id, (slice_app _ _ _ (1%N :: N.of_nat (length u) :: u ++ [N.of_nat (length p)]) p)
    by (cbn; rewrite <- ?app_assoc, ?length_app; cbn; done || lia).
  cbn [ok_or mbind result_bind]. rewrite take_app_length, take_ge by done.
  rewrite (proj2 (Nat.eqb_eq _ _)); [done|]. cbn. rewrite length_app. cbn. lia.
Qed.

Lemma request_len_app req t z : parse_request req = Ok t → request_len (req ++ z) = Some (length req).
Proof.
  destruct req as [|v [|c [|r [|a b]]]]; try done. cbn [parse_request].
  destruct (_ || _); [done|]. destruct (negb _); [done|].
  assert (∀ i q, port_at (v :: c :: r :: a :: b) i = Ok q → length (v :: c :: r :: a :: b) = i + 2) as Hport.
  { unfold port_at. intros i q ([] & H%ensure_ok%Nat.eqb_eq & _)%bind_ok. done. }
  unfold request_len. set (req := v :: c :: r :: a :: b) in *.
  assert ((req ++ z) !! 3 = Some a) as -> by done. cbn [mbind option_bind].
  destruct (a =? 1)%N; [|destruct (a =? 4)%N; [|destruct (a =? 3)%N; [|done]]]; cbv zeta.
  - intros (? & _ & (? & H%Hport & _)%bind_ok)%bind_ok. apply long_enough. rewrite length_app. lia.
  - intros (? & _ & (? & H%Hport & _)%bind_ok)%bind_ok. apply long_enough. rewrite length_app. lia.
  - intros (n & Hn%ok_or_ok & (? & _ & (? & _ & (? & H%Hport & _)%bind_ok)%bind_ok)%bind_ok)%bind_ok.
    rewrite (len_at_app _ z _ _ Hn). cbn [mbind option_bind]. apply long_enough. rewrite length_app. lia.
Qed.

(** With everything there, a message is read off the front. *)
Lemma read_some_front done m z tr k : done (m ++ z) = Some (length m) →
  read_some done (Conn (m ++ z) [] tr k) = (Some m, Conn z [] tr k).
Proof.
  intros E. unfold read_some. cbn [c_buf c_in read_some_from]. rewrite E.
  by rewrite take_app_length, drop_app_length.
Qed.

Lemma write_or_stop_ok w b c : (∀ tr, w_client w tr = true) →
  write_or_stop w b c = (Some tt, Conn (c_buf c) (c_in c) (c_trace c ++ [ESent b]) (c_cache c)).
Proof. intros Hw. unfold write_or_stop, write, log, reads, mbind, M_bind, mret, M_ret. by rewrite Hw. Qed.

Lemma login_front {J : Json} x w g z k :
  greeting_offers_userpass g = Ok true → (∀ tr, w_client w tr = true) →
  login x w (Conn (g ++ userpass (as_bytes (x_user x)) (as_bytes (x_pass x)) ++ z) [] [] k)
  = (Some tt, Conn z [] [ESent [5; 2]%N; ESent [1; 0]%N] k).
Proof.
  intros Hg Hw. unfold login, mbind, M_bind. rewrite read_some_front by (by eapply greeting_len_app).
  rewrite Hg, write_or_stop_ok by done. cbn [c_buf c_in c_trace c_cache app].
  rewrite read_some_front by apply userpass_len_app. rewrite parse_userpass_app.
  rewrite (proj2 (ct_eq_spec (as_bytes (x_user x)) _) eq_refl), (proj2 (ct_eq_spec (as_bytes (x_pass x)) _) eq_refl). cbn [andb].
  by rewrite write_or_stop_ok.
Qed.

(** ** Properties *)

(** how the client's bytes are cut into reads makes no difference: to what is
    sent to it and asked of the proxy, to the cache, to whether a tunnel opens, and
    to the bytes that then go up it.  The limit on what [read_some] keeps is never
    met. *)
Theorem reads_irrelevant {J : Json} x w cache in1 in2 :
  concat in1 = concat in2 → wf_bytes (concat in1) → Forall (.≠ []) in1 → Forall (.≠ []) in2 →
  let '(r1, c1) := handle x w (Conn [] in1 [] cache) in
  let '(r2, c2) := handle x w (Conn [] in2 [] cache) in
  c_trace c1 = c_trace c2 ∧ c_cache c1 = c_cache c2 ∧
  match r1, r2 with
  | Some (up1, s1), Some (up2, s2) => concat up1 = concat up2 ∧ s1 = s2
  | None, None => True
  | _, _ => False
  end.
Proof.
  intros Hc Hb H1 H2. assert (alike (Conn [] in1 [] cache) (Conn [] in2 [] cache)) as Ha by (by split).
  pose proof (steady_handle x w _ _ Ha) as H. unfold agree in H.
  destruct (handle x w (Conn [] in1 [] cache)) as [[[up1 s1]|] c1],
    (handle x w (Conn [] in2 [] cache)) as [[[up2 s2]|] c2]; try done.
  - destruct H as [[Hu Hs] [_ Ht Hk _ _ _]]. done.
  - by destruct H.
Qed.

(** [C32]: whatever a local program sends, the proxy is asked for nothing unless the
    program has given the right user and password; then it is asked only for what
    the SOCKS request names, and each request consists of exactly the lines it is
    meant to have: no byte of the name, of the address entered for the proxy or of
    the invite can add a header or change the request line. *)
Theorem proxy_asked {J : Json} x w cache chunks r d q :
  wf_url (x_proxy x) → (∀ tr, Forall (λ c, visible c = true) (w_key w tr)) →
  handle x w (Conn [] chunks [] cache) = (r, d) → EAsked q ∈ c_trace d →
  ∃ g req rest t path key,
    concat chunks = g ++ userpass (as_bytes (x_user x)) (as_bytes (x_pass x)) ++ req ++ rest ∧
    greeting_offers_userpass g = Ok true ∧ parse_request req = Ok t ∧ path_for x t path ∧
    Str.lines q = request_lines (x_proxy x) path key (x_token x) (x_device x) ∧
    words (default [] (Str.lines q !! 0)) = [lit "GET"; path; lit "HTTP/1.1"].
Proof.
  intros Hw Hk H Hq. destruct (handle_asked x w _ r d q H) as (g & req & rest & t & E & Hg & Ht & path & tr & Hp & ->);
    [by intros ? ?%elem_of_nil|done|].
  destruct (path_visible x t path req Hw Ht Hp) as [Hv Hne].
  exists g, req, rest, t, path, (w_key w tr). rewrite lines_request by done. split_and!; [done..|].
  apply (words_request path Hv Hne).
Qed.

(** a program with the right password that asks for an address the proxy takes
    gets its tunnel: it is told so, the proxy was asked once, and what goes up the
    tunnel is what the program sends after the request, to the last byte. *)
Theorem tunnel_opens {J : Json} x w cache chunks g req rest ip port a head s :
  concat chunks = g ++ userpass (as_bytes (x_user x)) (as_bytes (x_pass x)) ++ req ++ rest →
  wf_bytes (concat chunks) → Forall (.≠ []) chunks →
  greeting_offers_userpass g = Ok true → parse_request req = Ok (TIp ip port) →
  (∀ tr, w_client w tr = true) →
  let tr := [ESent [5; 2]%N; ESent [1; 0]%N] in
  let q := request (x_proxy x) (tcp_path (x_proxy x) ip port) (w_key w tr) (x_token x) (x_device x) in
  w_proxy w tr q = Some a → read_head [] a = Some (head, s) →
  judge (from_utf8_lossy head) (w_accept w (w_key w tr)) = Ok tt →
  ∃ up d, handle x w (Conn [] chunks [] cache) = (Some (up, s), d) ∧ concat up = rest ∧
    c_trace d = tr ++ [EAsked q; ESent (reply 0)].
Proof.
  intros Hc Hb Hne Hg Hr Hw tr q Ha Hh Hj.
  assert (alike (Conn [] chunks [] cache) (Conn (concat chunks) [] [] cache)) as Hal.
  { split; cbn; try done. by rewrite app_nil_r. }
  pose proof (steady_handle x w _ _ Hal) as H. revert H. unfold handle at 2, mbind, M_bind.
  rewrite Hc, login_front, read_some_front by (done || by eapply request_len_app).
  rewrite Hr. unfold serve, mbind, M_bind. cbn [addresses mret M_ret take connect_any].
  unfold ws_connect, reads, log, mbind, M_bind, mret, M_ret. cbn [c_trace c_buf c_in c_cache]. fold tr. fold q.
  rewrite Ha. cbn [c_trace c_buf c_in c_cache]. rewrite Hh. cbn [option_bind]. rewrite Hj.
  cbn [from_option option_bind]. rewrite write_or_stop_ok by done. cbn [c_trace c_buf c_in c_cache].
  unfold agree. destruct (handle x w (Conn [] chunks [] cache)) as [[[up s']|] d]; [|done].
  intros [[Hu Hs] Hd]. cbn in Hu, Hs. subst s'. exists up, d. split_and!; [done| |].
  - rewrite Hu. case_bool_decide as E; [by rewrite E|]. cbn. by rewrite app_nil_r.
  - rewrite (al_trace _ _ Hd). cbn. done.
Qed.

(** A run: the user [u] with the password [pw] asks for 1.2.3.4, port 80, through
    [wss://p.example]. *)
Module Run.
Definition x : Ctx := MkCtx (MkUrl true (lit "p.example") 443 []) None None (lit "u") (lit "pw").
Definition hd : bytes := lit "HTTP/1.1 101 Switching" ++ crlf ++ lit "Sec-WebSocket-Accept: ok" ++ crlf ++ crlf.
Definition w : world :=
  World (λ _, true) (λ _ _, Some (hd ++ [130; 1; 88]%N)) (λ _, lit "a2V5") (λ _, [1; 2; 3; 4]%N) (λ _, 0%N) (λ _, lit "ok").
Definition req : bytes := [5; 1; 0; 1; 1; 2; 3; 4; 0; 80]%N.
Definition input : bytes := [5; 1; 2]%N ++ userpass (lit "u") (lit "pw") ++ req ++ [65; 66]%N.
Definition target : Target := TIp (IpV4 [1; 2; 3; 4]%N) 80.

Lemma url_ok : wf_url (x_proxy x).
Proof. apply (parse_proxy_url_wf (lit "p.example")). vm_compute. reflexivity. Qed.
End Run.

Lemma reads_irrelevant_witness :
  let c1 := (handle (J := Tree.json) Run.x Run.w (Conn [] [Run.input] [] ∅)) in
  let c2 := (handle (J := Tree.json) Run.x Run.w (Conn [] ((λ b, [b]) <$> Run.input) [] ∅)) in
  let '(r1, c1) := c1 in let '(r2, c2) := c2 in
  c_trace c1 = c_trace c2 ∧ c_cache c1 = c_cache c2 ∧
  match r1, r2 with
  | Some (up1, s1), Some (up2, s2) => concat up1 = concat up2 ∧ s1 = s2
  | None, None => True
  | _, _ => False
  end.
Proof.
  apply (reads_irrelevant (J := Tree.json)).
  - vm_compute. reflexivity.
  - apply (bool_decide_unpack _). vm_compute. exact I.
  - apply (bool_decide_unpack _). vm_compute. exact I.
  - apply (bool_decide_unpack _). vm_compute. exact I.
Defined.

Lemma proxy_asked_witness :
  ∃ q g req rest t path key, q = request (x_proxy Run.x) (lit "/tcp/1.2.3.4/80") (lit "a2V5") None None ∧
    Run.input = g ++ userpass (lit "u") (lit "pw") ++ req ++ rest ∧
    greeting_offers_userpass g = Ok true ∧ parse_request req = Ok t ∧ path_for Run.x t path ∧
    Str.lines q = request_lines (x_proxy Run.x) path key None None ∧
    words (default [] (Str.lines q !! 0)) = [lit "GET"; path; lit "HTTP/1.1"].
Proof.
  set (q := request (x_proxy Run.x) (lit "/tcp/1.2.3.4/80") (lit "a2V5") None None). exists q.
  destruct (proxy_asked (J := Tree.json) Run.x Run.w ∅ [Run.input] (handle (J := Tree.json) Run.x Run.w (Conn [] [Run.input] [] ∅)).1
    (handle (J := Tree.json) Run.x Run.w (Conn [] [Run.input] [] ∅)).2 q) as (g & req & rest & t & path & key & H).
  - exact Run.url_ok.
  - intros tr. apply (bool_decide_unpack _). vm_compute. exact I.
  - apply surjective_pairing.
  - apply list_elem_of_lookup_2 with 2. vm_compute. reflexivity.
  - exists g, req, rest, t, path, key. split; [reflexivity|exact H].
Defined.

Lemma tunnel_opens_witness :
  ∃ up d, handle (J := Tree.json) Run.x Run.w (Conn [] [Run.input] [] ∅) = (Some (up, [130; 1; 88]%N), d) ∧
    concat up = [65; 66]%N ∧
    c_trace d = [ESent [5; 2]; ESent [1; 0]]%N ++
      [EAsked (request (x_proxy Run.x) (lit "/tcp/1.2.3.4/80") (lit "a2V5") None None); ESent (reply 0)].
Proof.
  apply (tunnel_opens (J := Tree.json) Run.x Run.w ∅ [Run.input] [5; 1; 2]%N Run.req [65; 66]%N (IpV4 [1; 2; 3; 4]%N) 80
    (Run.hd ++ [130; 1; 88]%N) Run.hd).
  - vm_compute. reflexivity.
  - apply (bool_decide_unpack _). vm_compute. exact I.
  - apply (bool_decide_unpack _). vm_compute. exact I.
  - reflexivity.
  - reflexivity.
  - reflexivity.
  - reflexivity.
  - vm_compute. reflexivity.
  - vm_compute. reflexivity.
Defined.
