(* ===== verification/ProxyStore.v ===== *)
(** * The saved SOCKS5 proxies ([proxy_store.rs])

    The document of proxies.json, the operations on its list, and the address
    the core gets for an entry.  [Keeper] is what brings it to the accounts. *)

From S2P Require Import Prelude Str Ip Address Json.

(** ** Addresses *)

Definition PROXY_LABEL_MAX : nat := 64.
Definition HOST_MAX : N := 253.
Definition CRED_MAX : N := 128.
Definition MAX_PROXIES : nat := 50.

Definition norm_host (h : str) : option str :=
  let h := trim_end_char (ch ".") (trim h) in
  if bool_decide (h = []) || (HOST_MAX <? chars_count h)%N then None
  else match parse_ipv4 h with
  | Some v4 => Some (show_ipv4 v4)
  | None =>
      let bare := default h (strip_prefix (lit "[") h ≫= strip_suffix (lit "]")) in
      match parse_ipv6 bare with
      | Some v6 => Some (show_ipv6 v6)
      | None =>
          if existsb (λ c, c =? ch ":")%N bare then None
          else
            let lower := to_ascii_lowercase bare in
            let parts := split (ch ".") lower in
            let numeric := forallb (λ p, negb (bool_decide (p = [])) && forallb is_ascii_digit p) parts in
            if numeric && (3 <=? count_occ N.eq_dec lower (ch "."))%nat then None
            else if forallb label_ok parts then Some lower else None
      end
  end.

Definition valid_port (p : N) : bool := (1 <=? p)%N && (p <=? 65535)%N.

Definition unreserved (b : N) : bool := is_ascii_alphanumeric b || bool_decide (b ∈ lit "-._~").
(** [format!("{:X}")] of half a byte. *)
Definition hex_digit (d : N) : N := if (d <? 10)%N then (48 + d)%N else (55 + d)%N.
Definition pct_byte (b : N) : str := if unreserved b then [b] else [ch "%"; hex_digit (b / 16); hex_digit (b mod 16)].
Definition pct (s : str) : str := as_bytes s ≫= pct_byte.

(** [socks5://[user[:pass]@]host:port] *)
Definition socks_url (user pass host : str) (port : N) : str :=
  lit "socks5://" ++
  (if bool_decide (user = []) then [] else pct user ++ lit ":" ++ pct pass ++ lit "@") ++
  host_text host ++ lit ":" ++ show_N port.

Definition bidi (c : N) : bool :=
  (c =? 8206)%N || (c =? 8207)%N || in_range 8234 8238 c || in_range 8294 8297 c.
Definition clean_label (label : str) : str :=
  take PROXY_LABEL_MAX (trim (base.filter (λ c, negb (is_control c) && negb (bidi c) = true) label)).

Inductive store_error := EHostAddress | EPortNumber | ECredLength | EPassOnly | ETooMany | ENoSuch.

#[export] Instance store_error_eq_dec : EqDecision store_error.
Proof. solve_decision. Defined.

Section Store.
Context {J : Json}.

(** ** The document *)

Definition empty : value :=
  obj [(lit "version", of_i64 1); (lit "active", null); (lit "next", of_i64 1); (lit "last_written", null);
       (lit "proxies", of_list [])].

Definition proxies (s : value) : list value := default [] (as_array s.["proxies"]).

(** [proxies_mut]: the document with the array it makes if there is none. *)
Definition proxies_mut (s : value) : option (value * list value) :=
  s ← match as_array s.["proxies"] with
      | Some _ => Some s
      | None => set s (lit "proxies") (of_list [])
      end;
  pair s <$> as_array s.["proxies"].

Definition has_id (id : str) (p : value) : bool := bool_decide (as_str p.["id"] = Some id).
Definition find (s : value) (id : str) : option value := snd <$> list_find (λ p, has_id id p = true) (proxies s).

Definition url_of (p : value) : option str :=
  host ← as_str p.["host"];
  port ← keep_if valid_port (as_u64 p.["port"]);
  Some (socks_url (default [] (as_str p.["user"])) (default [] (as_str p.["pass"])) host port).

Definition active_id (s : value) : option str := keep_if (λ id, bool_decide (is_Some (find s id))) (as_str s.["active"]).
Definition active_url (s : value) : option str := id ← active_id s; p ← find s id; url_of p.

Definition same_server (host : str) (port : N) (user : str) (p : value) : bool :=
  bool_decide (as_str p.["host"] = Some host) && bool_decide (as_u64 p.["port"] = Some port) &&
  bool_decide (default [] (as_str p.["user"]) = user).
Definition find_duplicate (s : value) (host : str) (port : N) (user : str) : option value :=
  host ← norm_host host; snd <$> list_find (λ p, same_server host port user p = true) (proxies s).

(** ** The operations: the document after it, and the answer; [None]: it panics. *)

Definition id_text (n : N) : str := lit "p" ++ show_N n.
(** The loop of [add]: the first number from [n] on whose id is free. *)
Definition next_free (s : value) (n : N) : option N :=
  snd <$> list_find (λ k, find s (id_text k) = None)
    ((λ i, wadd64 n (N.of_nat i)) <$> seq 0 (S (length (proxies s)))).

Definition new_entry (id label host : str) (port : N) (user pass : str) (now : N) : value :=
  obj [(lit "id", of_str id); (lit "label", of_str (clean_label label)); (lit "host", of_str host);
       (lit "port", of_u64 port); (lit "user", of_str user); (lit "pass", of_str pass); (lit "added", of_u64 now)].

Definition put (s : value) (l : list value) : option value := set s (lit "proxies") (of_list l).

Definition add (s : value) (host : str) (port : N) (user pass label : str) (now : N)
    : option (value * result store_error (str * bool)) :=
  match norm_host host with
  | None => Some (s, Err EHostAddress)
  | Some host =>
      if negb (valid_port port) then Some (s, Err EPortNumber)
      else if (CRED_MAX <? chars_count user)%N || (CRED_MAX <? chars_count pass)%N then Some (s, Err ECredLength)
      else if bool_decide (user = []) && negb (bool_decide (pass = [])) then Some (s, Err EPassOnly)
      else match find_duplicate s host port user with
      | Some d => Some (s, Ok (default [] (as_str d.["id"]), true))
      | None =>
          if (MAX_PROXIES <=? length (proxies s))%nat then Some (s, Err ETooMany)
          else
            n ← next_free s (N.max 1 (default 1%N (as_u64 s.["next"])));
            s ← set s (lit "next") (of_u64 (wadd64 n 1));
            '(s, l) ← proxies_mut s;
            s ← put s (l ++ [new_entry (id_text n) label host port user pass now]);
            Some (s, Ok (id_text n, false))
      end
  end.

Definition select (s : value) (id : option str) : option (value * result store_error unit) :=
  match id with
  | Some id =>
      match find s id with
      | None => Some (s, Err ENoSuch)
      | Some _ => s ← set s (lit "active") (of_str id); Some (s, Ok tt)
      end
  | None => s ← set s (lit "active") null; Some (s, Ok tt)
  end.

Definition rename (s : value) (id label : str) : option (value * result store_error unit) :=
  '(s, l) ← proxies_mut s;
  match list_find (λ p, has_id id p = true) l with
  | None => Some (s, Err ENoSuch)
  | Some (ix, p) =>
      p ← set p (lit "label") (of_str (clean_label label));
      s ← put s (<[ix := p]> l);
      Some (s, Ok tt)
  end.

Definition delete (s : value) (id : str) : option (value * result store_error bool) :=
  '(s, l) ← proxies_mut s;
  let l' := base.filter (λ p, has_id id p = false) l in
  s ← put s l';
  if (length l' =? length l)%nat then Some (s, Err ENoSuch)
  else if bool_decide (as_str s.["active"] = Some id)
  then s ← set s (lit "active") null; Some (s, Ok true)
  else Some (s, Ok false).

(** ** For the page *)

Definition opt_str (o : option str) : value := default null (of_str <$> o).

Definition public_entry (active : option str) (p : value) : value :=
  obj [(lit "id", p.["id"]); (lit "label", p.["label"]); (lit "host", p.["host"]); (lit "port", p.["port"]);
       (lit "user", p.["user"]); (lit "has_pass", of_bool (from_option (λ x, negb (bool_decide (x = []))) false (as_str p.["pass"])));
       (lit "added", p.["added"]);
       (lit "active", of_bool (bool_decide (is_Some active) && bool_decide (as_str p.["id"] = active)))].
Definition public_list (s : value) : value :=
  let active := active_id s in
  obj [(lit "active", opt_str active); (lit "proxies", of_list (public_entry active <$> proxies s))].

Definition link (s : value) (id : str) : option value :=
  p ← find s id;
  Some (obj [(lit "host", p.["host"]); (lit "port", p.["port"]); (lit "user", p.["user"]); (lit "pass", p.["pass"]);
             (lit "label", p.["label"])]).

End Store.
