(* ===== verification/Keeper.v ===== *)
(** * The proxy keeper ([proxy.rs])

    [apply_proxy] brings the selected proxy to every account while the list is
    edited, accounts come and go, and calls into the core fail. *)

From S2P Require Import Prelude Str Ip Address Json ProxyStore.

(** ** State *)

(** [proxy_url] and [proxy_enabled] of an account in the core. *)
Record account := Account { a_url : str; a_enabled : bool }.

Definition OURS : str := lit "socks5://velta-ws:".
Definition LEGACY_TUNNEL : str := lit "socks5://velta-tunnel:".

Section Keeper.
Context {J : Json}.

(** A call to [set_config]. *)
Inductive call := SetUrl (u : str) | Enable | ClearUrl | Disable.

(** One run of [apply_proxy]: the accounts still to visit, the document it read
    and the proxy it decided on when it began, and where it is: at the next account,
    between the two readings of one, or before the calls that are left for one. *)
Inductive stage := AtNext | GotUrl (id : N) (cur : str) | Calling (id : N) (calls : list call).
Record pass := Pass { p_ids : list N; p_st : value; p_want : option str; p_stage : stage }.

Record app := App {
  k_file : option str;             (* proxies.json *)
  k_ws : option str;               (* WS_PROXY_URL *)
  k_detached : gset N;             (* DETACHED *)
  k_accounts : gmap N account;
  k_passes : list pass;
}.

Definition load_store (file : option str) : value :=
  default empty (v ← file ≫= from_str; if is_object v then Some v else None).

Definition desired (st : value) (ws : option str) : option str :=
  match active_url st with Some u => Some u | None => ws end.

Definition ours (cur : str) (st : value) : bool :=
  starts_with OURS cur || starts_with LEGACY_TUNNEL cur ||
  bool_decide (Some cur = as_str st.["last_written"]) || bool_decide (Some cur = active_url st).

(** The calls that [apply_proxy] makes for one account, as long as they succeed. *)
Definition settle (want : option str) (st : value) (cur : str) (enabled : bool) : list call :=
  match want with
  | Some url =>
      if negb (bool_decide (trim cur = [])) && negb (ours cur st) then []
      else (if bool_decide (cur = url) then [] else [SetUrl url]) ++ (if enabled then [] else [Enable])
  | None => if ours cur st then [ClearUrl; Disable] else []
  end.
Definition set_config (c : call) (a : account) : account :=
  match c with
  | SetUrl u => Account u (a_enabled a)
  | Enable => Account (a_url a) true
  | ClearUrl => Account [] (a_enabled a)
  | Disable => Account (a_url a) false
  end.

(** How reading a value of an account goes: as it is, not at all, or, on Android
    when the database does not answer, as if there were none. *)
Inductive look := Seen | Unseen | Blank.

Definition calling (id : N) (calls : list call) : stage := match calls with [] => AtNext | _ => Calling id calls end.
Definition at_stage (p : pass) (g : stage) : pass := Pass (p_ids p) (p_st p) (p_want p) g.

(** The first reading, [proxy_url]. *)
Definition look_url (p : pass) (l : look) (m : gmap N account) : option pass :=
  match p_stage p, p_ids p with
  | AtNext, id :: ids =>
      Some (Pass ids (p_st p) (p_want p)
        (match m !! id, l with
         | Some a, Seen => GotUrl id (a_url a)
         | Some _, Blank => GotUrl id []
         | _, _ => AtNext
         end))
  | _, _ => None
  end.
(** The second, [proxy_enabled], and what is to be done. *)
Definition look_enabled (p : pass) (det : gset N) (l : look) (m : gmap N account) : option pass :=
  match p_stage p with
  | GotUrl id cur =>
      let want := if bool_decide (id ∈ det) then None else p_want p in
      Some (at_stage p
        (match m !! id, l with
         | Some a, Seen => calling id (settle want (p_st p) cur (a_enabled a))
         | Some _, Blank => calling id (settle want (p_st p) cur false)
         | _, _ => AtNext
         end))
  | _ => None
  end.
(** One call; after one that fails there is no other. *)
Definition visit (p : pass) (ok : bool) (m : gmap N account) : option (pass * gmap N account) :=
  match p_stage p with
  | Calling id (c :: calls) =>
      Some (match m !! id with
            | Some a => if ok then (at_stage p (calling id calls), <[id := set_config c a]> m) else (at_stage p AtNext, m)
            | None => (at_stage p AtNext, m)
            end)
  | _ => None
  end.

(** ** Commands on the list: read, change, write *)

Inductive command :=
| Install (host : str) (port : N) (user pass label : str) (now : N) (activate : bool)
| Select (id : option str)
| Rename (id label : str)
| Delete (id : str).

(** The document to write, or the error; [None]: it panics. *)
Definition edit (st : value) (c : command) : option (result store_error value) :=
  match c with
  | Install host port user pass label now activate =>
      '(st, r) ← add st host port user pass label now;
      match r with
      | Err e => Some (Err e)
      | Ok (id, _) =>
          if activate then
            '(st, r) ← select st (Some id);
            Some (match r with Err e => Err e | Ok _ => Ok st end)
          else Some (Ok st)
      end
  | Select id => '(st, r) ← select st id; Some (match r with Err e => Err e | Ok _ => Ok st end)
  | Rename id label => '(st, r) ← rename st id label; Some (match r with Err e => Err e | Ok _ => Ok st end)
  | Delete id => '(st, r) ← delete st id; Some (match r with Err e => Err e | Ok _ => Ok st end)
  end.

(** ** Steps *)

Inductive action :=
| Wake (ids : list N)                           (* a run of the keeper begins *)
| LookUrl (k : nat) (l : look)                  (* run [k] reads its next account *)
| LookEnabled (k : nat) (l : look)
| Visit (k : nat) (ok : bool)                   (* run [k] sets a value *)
| Finish (k : nat) (written : bool)             (* run [k] ends *)
| Command (c : command) (written : bool)
| SetWs (url : option str)
| BackupBegin (id : N) | BackupEnd (id : N)
| UserSets (id : N) (a : account)               (* also: an account is added *)
| Removed (id : N)
| Killed.

Definition save_store (s : app) (st : value) (written : bool) : option str :=
  if written then Some (to_string st) else k_file s.

Definition step (s : app) (a : action) : option app :=
  match a with
  | Wake ids =>
      let st := load_store (k_file s) in
      Some (App (k_file s) (k_ws s) (k_detached s) (k_accounts s) (k_passes s ++ [Pass ids st (desired st (k_ws s)) AtNext]))
  | LookUrl k l =>
      p ← k_passes s !! k; p ← look_url p l (k_accounts s);
      Some (App (k_file s) (k_ws s) (k_detached s) (k_accounts s) (<[k := p]> (k_passes s)))
  | LookEnabled k l =>
      p ← k_passes s !! k; p ← look_enabled p (k_detached s) l (k_accounts s);
      Some (App (k_file s) (k_ws s) (k_detached s) (k_accounts s) (<[k := p]> (k_passes s)))
  | Visit k ok =>
      p ← k_passes s !! k; '(p, m) ← visit p ok (k_accounts s);
      Some (App (k_file s) (k_ws s) (k_detached s) m (<[k := p]> (k_passes s)))
  | Finish k w =>
      p ← k_passes s !! k;
      match p_stage p, p_ids p with
      | AtNext, [] =>
          file ← (if bool_decide (as_str (p_st p).["last_written"] = p_want p) then Some (k_file s)
                  else st ← set (p_st p) (lit "last_written") (opt_str (p_want p)); Some (save_store s st w));
          Some (App file (k_ws s) (k_detached s) (k_accounts s) (base.delete k (k_passes s)))
      | _, _ => None
      end
  | Command c w =>
      r ← edit (load_store (k_file s)) c;
      Some (match r with
            | Ok st => App (save_store s st w) (k_ws s) (k_detached s) (k_accounts s) (k_passes s)
            | Err _ => s
            end)
  | SetWs url => Some (App (k_file s) url (k_detached s) (k_accounts s) (k_passes s))
  | BackupBegin id => Some (App (k_file s) (k_ws s) ({[id]} ∪ k_detached s) (k_accounts s) (k_passes s))
  | BackupEnd id => Some (App (k_file s) (k_ws s) (k_detached s ∖ {[id]}) (k_accounts s) (k_passes s))
  | UserSets id a => Some (App (k_file s) (k_ws s) (k_detached s) (<[id := a]> (k_accounts s)) (k_passes s))
  | Removed id => Some (App (k_file s) (k_ws s) (k_detached s) (base.delete id (k_accounts s)) (k_passes s))
  | Killed => Some (App (k_file s) None ∅ (k_accounts s) [])
  end.

Definition run (s : app) (l : list action) : option app := foldl (λ s a, s ≫= λ s, step s a) (Some s) l.

End Keeper.

Section Kept.
Context {J : Json} {JL : JsonLaws}.

(** ** A foreign address

    [u] is no address of the list or of the keeper, in a document. *)
Record foreign (u : str) (st : value) : Prop := {
  fo_object : is_object st = true;
  fo_plain : plain 127 st;
  fo_written : as_str st.["last_written"] ≠ Some u;
  fo_list : Forall (λ p, url_of p ≠ Some u) (proxies st);
}.

Lemma foreign_empty u : foreign u empty.
Proof.
  assert (NoDup ([lit "version"; lit "active"; lit "next"; lit "last_written"; lit "proxies"])) as Hnd
    by (apply (bool_decide_unpack _); by vm_compute).
  split.
  - apply obj_is_object.
  - apply (plain_obj 126). cbn [fmap list_fmap snd]. rewrite !Forall_cons. split_and!; auto with plain.
    apply (plain_list 125). constructor.
  - unfold empty. rewrite (index_obj _ _ null); [by rewrite as_str_null|done|do 3 right; left].
  - unfold proxies, empty. rewrite (index_obj _ _ (of_list [])), as_array_of; [constructor|done|do 4 right; left].
Qed.

Lemma find_in st id p : find st id = Some p → p ∈ proxies st.
Proof.
  unfold find. destruct (list_find _ _) as [[i x]|] eqn:E; [|done]. intros [= <-].
  apply list_find_Some in E as (H & _). by eapply list_elem_of_lookup_2.
Qed.

Lemma active_url_foreign u st : foreign u st → active_url st ≠ Some u.
Proof.
  intros H. unfold active_url. destruct (active_id st) as [id|]; [|done]. cbn [mbind option_bind].
  destruct (find st id) as [p|] eqn:E; [|done]. cbn [mbind option_bind]. apply find_in in E.
  pose proof (fo_list _ _ H) as Hl. rewrite Forall_forall in Hl. by apply Hl.
Qed.

Lemma desired_foreign u st ws : foreign u st → ws ≠ Some u → desired st ws ≠ Some u.
Proof. intros H Hw. unfold desired. pose proof (active_url_foreign u st H) as Ha. by destruct (active_url st). Qed.

(** Not an address the keeper takes for its own. *)
Definition by_hand (u : str) : Prop := trim u ≠ [] ∧ starts_with OURS u = false ∧ starts_with LEGACY_TUNNEL u = false.

Lemma not_ours u st : by_hand u → foreign u st → ours u st = false.
Proof.
  intros (_ & H1 & H2) Hf. unfold ours. rewrite H1, H2, !bool_decide_false; [done| |].
  - intros E. by apply (active_url_foreign u st Hf).
  - intros E. by apply (fo_written _ _ Hf).
Qed.

Lemma settle_by_hand want st u enabled : by_hand u → foreign u st → settle want st u enabled = [].
Proof.
  intros Hb Hf. unfold settle. rewrite (not_ours _ _ Hb Hf). destruct want as [url|]; [|done].
  destruct Hb as [Ht _]. by rewrite bool_decide_false.
Qed.

(** ** Documents stay foreign *)

Lemma proxies_set_ne st k x st' : set st k x = Some st' → k ≠ lit "proxies" → proxies st' = proxies st.
Proof. intros H Hk. unfold proxies. by rewrite (index_set_ne _ _ _ _ _ H). Qed.

Lemma foreign_set u st k x st' :
  foreign u st → set st k x = Some st' → plain 126 x → k ≠ lit "proxies" →
  (k = lit "last_written" → as_str x ≠ Some u) → foreign u st'.
Proof.
  intros [Ho Hp Hw Hl] Hs Hx Hk Hx'. split.
  - by eapply set_is_object.
  - by eapply (plain_set 126).
  - destruct (decide (k = lit "last_written")) as [->|Hne]; [by rewrite (index_set _ _ _ _ Hs); apply Hx'|].
    by rewrite (index_set_ne _ _ _ _ _ Hs) by done.
  - by rewrite (proxies_set_ne _ _ _ _ Hs).
Qed.

Lemma foreign_put u st l :
  foreign u st → Forall (plain 125) l → Forall (λ p, url_of p ≠ Some u) l →
  ∃ st', put st l = Some st' ∧ foreign u st' ∧ proxies st' = l ∧ (∀ k, k ≠ lit "proxies" → index st' k = index st k).
Proof.
  intros [Ho Hp Hw Hl] Hpl Hf. unfold put. destruct (set_object st (lit "proxies") (of_list l) Ho) as [st' Hs].
  assert (proxies st' = l) as E by (unfold proxies; by rewrite (index_set _ _ _ _ Hs), as_array_of).
  exists st'. split_and!; [done| |done|intros k Hk; by eapply index_set_ne]. split.
  - by eapply set_is_object.
  - eapply (plain_set 126); [done| |done]. by apply plain_list.
  - by rewrite (index_set_ne _ _ _ _ _ Hs) by keys.
  - by rewrite E.
Qed.

Lemma proxies_plain u st : foreign u st → Forall (plain 125) (proxies st).
Proof.
  intros [_ Hp _ _]. unfold proxies. destruct (as_array st.["proxies"]) as [l|] eqn:E; [|done].
  apply as_array_inv in E. cbn. unfold index in E. destruct (get st (lit "proxies")) as [x|] eqn:Eg.
  - cbn in E. subst x. apply plain_list. by eapply (plain_get 126).
  - cbn in E. exfalso. pose proof (as_array_of l) as Ha. rewrite <- E, as_array_null in Ha. done.
Qed.

Lemma proxies_mut_foreign u st : foreign u st →
  ∃ st', proxies_mut st = Some (st', proxies st) ∧ foreign u st' ∧ proxies st' = proxies st ∧
    (∀ k, k ≠ lit "proxies" → index st' k = index st k).
Proof.
  intros H. unfold proxies_mut. destruct (as_array st.["proxies"]) as [l|] eqn:E.
  - exists st. cbn [mbind option_bind]. rewrite E. unfold proxies. rewrite E. done.
  - assert (proxies st = []) as Ep by (unfold proxies; by rewrite E).
    destruct (foreign_put u st [] H) as (st' & Hs & Hf & Hl & Hk); [done..|]. exists st'. unfold put in Hs.
    rewrite Hs. cbn [mbind option_bind]. rewrite Ep. split_and!; try done. rewrite (index_set _ _ _ _ Hs), as_array_of. done.
Qed.

(** ** Commands *)

Lemma find_id st id p : find st id = Some p → as_str p.["id"] = Some id.
Proof.
  unfold find. destruct (list_find _ _) as [[i x]|] eqn:E; [|done]. intros [= <-].
  apply list_find_Some in E as (_ & H & _). by apply bool_decide_eq_true in H.
Qed.

Lemma has_id_object id p : has_id id p = true → is_object p = true.
Proof. intros H%bool_decide_eq_true. by eapply as_str_object. Qed.

(** There is always a free id. *)
Lemma next_free_total st n : length (proxies st) < MAX_PROXIES → is_Some (next_free st n).
Proof.
  intros Hl. unfold next_free. set (cand := λ i, wadd64 n (N.of_nat i)).
  destruct (list_find _ _) as [[i k]|] eqn:E; [by eexists|]. exfalso.
  apply list_find_None in E. rewrite Forall_forall in E.
  set (ids := (λ p, as_str p.["id"]) <$> proxies st).
  assert (NoDup (Some ∘ id_text <$> (cand <$> seq 0 (S (length (proxies st)))))) as Hnd.
  { apply NoDup_fmap_2; [intros a b [= E'%show_N_inj]; done|].
    apply NoDup_fmap_2_strong; [|apply NoDup_seq].
    intros a b Ha%elem_of_seq Hb%elem_of_seq H. unfold cand, wadd64 in H. unfold MAX_PROXIES in Hl.
    assert (H1 := N.div_mod (n + N.of_nat a) u64_bound ltac:(done)).
    assert (H2 := N.div_mod (n + N.of_nat b) u64_bound ltac:(done)). rewrite H in H1.
    revert H1 H2. generalize ((n + N.of_nat b) mod u64_bound)%N, ((n + N.of_nat a) / u64_bound)%N, ((n + N.of_nat b) / u64_bound)%N.
    intros m q1 q2 H1 H2. assert (q1 = q2) by lia. lia. }
  assert (Hsub : (Some ∘ id_text <$> (cand <$> seq 0 (S (length (proxies st))))) ⊆ ids).
  { intros x (k & -> & Hk)%list_elem_of_fmap. apply E in Hk. destruct (find st (id_text k)) as [p|] eqn:Ef; [|done].
    unfold ids. apply list_elem_of_fmap. exists p. split; [|by eapply find_in]. symmetry. by eapply find_id. }
  apply NoDup_submseteq in Hsub; [|done]. apply submseteq_length in Hsub. unfold ids in Hsub.
  rewrite !length_fmap, length_seq in Hsub. lia.
Qed.

Lemma url_of_new id label host port user pass now : valid_port port = true →
  url_of (new_entry id label host port user pass now) = Some (socks_url user pass host port).
Proof.
  intros Hp. unfold url_of, new_entry.
  assert (NoDup [lit "id"; lit "label"; lit "host"; lit "port"; lit "user"; lit "pass"; lit "added"]) as Hnd
    by (apply (bool_decide_unpack _); by vm_compute).
  rewrite (index_obj _ (lit "host") (of_str host)), (index_obj _ (lit "port") (of_u64 port)),
    (index_obj _ (lit "user") (of_str user)), (index_obj _ (lit "pass") (of_str pass));
    try done; [|do 5 right; left|do 4 right; left|do 3 right; left|do 2 right; left].
  rewrite !as_str_of, as_u64_of; [|unfold valid_port in Hp; apply andb_prop in Hp as [_ Hp%N.leb_le]; lia].
  cbn [mbind option_bind]. unfold keep_if. cbn [mbind option_bind]. by rewrite Hp.
Qed.

Lemma plain_u64 n k : plain n (of_u64 k). Proof. apply plain_leaf. Qed.
#[local] Hint Resolve plain_u64 : plain.

Lemma plain_new id label host port user pass now : plain 125 (new_entry id label host port user pass now).
Proof.
  apply (plain_obj 124). cbn [fmap list_fmap snd]. rewrite !Forall_cons. split_and!; auto with plain.
Qed.

Definition installs (u : str) (c : command) : Prop :=
  match c with
  | Install host port user pass _ _ _ => ∃ h, norm_host host = Some h ∧ socks_url user pass h port = u
  | _ => False
  end.

Definition fine (u : str) {A} (o : option (value * result store_error A)) : Prop :=
  ∃ st r, o = Some (st, r) ∧ foreign u st.

Lemma fine_here u {A} st (r : result store_error A) : foreign u st → fine u (Some (st, r)).
Proof. intros H. by exists st, r. Qed.

Lemma set_fine u {A} st k x (r : result store_error A) :
  foreign u st → plain 126 x → k ≠ lit "proxies" → k ≠ lit "last_written" →
  fine u (st ← set st k x; Some (st, r)).
Proof.
  intros H Hx Hk Hk'. destruct (set_object st k x (fo_object _ _ H)) as [st' Hs]. rewrite Hs. cbn [mbind option_bind].
  apply fine_here. by eapply foreign_set.
Qed.

Lemma add_fine u st host port user pass label now :
  foreign u st → ¬ installs u (Install host port user pass label now false) →
  fine u (add st host port user pass label now).
Proof.
  intros H Hi. unfold add. destruct (norm_host host) as [h|] eqn:Eh; [|by apply fine_here].
  destruct (valid_port port) eqn:Ep; [cbn [negb]|by apply fine_here].
  destruct (_ || _); [by apply fine_here|]. destruct (_ && _); [by apply fine_here|].
  destruct (find_duplicate _ _ _ _); [by apply fine_here|].
  destruct (Nat.leb_spec MAX_PROXIES (length (proxies st))) as [|Hl]; [by apply fine_here|].
  destruct (next_free_total st (N.max 1 (default 1%N (as_u64 st.["next"]))) Hl) as [n ->]. cbn [mbind option_bind].
  destruct (set_object st (lit "next") (of_u64 (wadd64 n 1)) (fo_object _ _ H)) as [s1 E1]. rewrite E1. cbn [mbind option_bind].
  assert (foreign u s1) as H1 by (eapply foreign_set; [done|done|auto with plain|keys..]).
  destruct (proxies_mut_foreign u s1 H1) as (s2 & -> & H2 & Hp2 & _). cbn [mbind option_bind].
  destruct (foreign_put u s2 (proxies s1 ++ [new_entry (id_text n) label h port user pass now])) as (s3 & -> & H3 & _); [done|..].
  - apply Forall_app. split; [by eapply proxies_plain|]. repeat constructor. apply plain_new.
  - apply Forall_app. split; [apply H1|]. repeat constructor. rewrite url_of_new by done.
    intros [= E]. apply Hi. by exists h.
  - by apply fine_here.
Qed.

Lemma select_fine u st id : foreign u st → fine u (select st id).
Proof.
  intros H. unfold select. destruct id as [id|]; [destruct (find st id); [|by apply fine_here]|];
    (apply set_fine; [done|auto with plain|keys..]).
Qed.

Lemma url_of_relabel p x p' : set p (lit "label") x = Some p' → url_of p' = url_of p.
Proof. intros H. unfold url_of. by rewrite !(index_set_ne _ _ _ _ _ H) by keys. Qed.

Lemma rename_fine u st id label : foreign u st → fine u (rename st id label).
Proof.
  intros H. unfold rename. destruct (proxies_mut_foreign u st H) as (s1 & -> & H1 & Hp & _). cbn [mbind option_bind].
  destruct (list_find _ _) as [[ix p]|] eqn:E; [|by apply fine_here].
  apply list_find_Some in E as (Hl & Hid%has_id_object & _).
  destruct (set_object p (lit "label") (of_str (clean_label label)) Hid) as [p' Hs]. rewrite Hs. cbn [mbind option_bind].
  destruct (foreign_put u s1 (<[ix:=p']> (proxies st))) as (s3 & -> & H3 & _); [done|..|by apply fine_here].
  - apply Forall_insert; [by eapply proxies_plain|]. apply (plain_set 124) with (3 := Hs); [|auto with plain].
    exact (Forall_lookup_1 _ _ _ _ (proxies_plain u st H) Hl).
  - apply Forall_insert; [apply H|]. rewrite (url_of_relabel _ _ _ Hs).
    exact (Forall_lookup_1 _ _ _ _ (fo_list _ _ H) Hl).
Qed.

Lemma delete_fine u st id : foreign u st → fine u (delete st id).
Proof.
  intros H. unfold delete. destruct (proxies_mut_foreign u st H) as (s1 & -> & H1 & Hp & _). cbn [mbind option_bind].
  assert (∀ Q : value → Prop, Forall Q (proxies st) → Forall Q (base.filter (λ p, has_id id p = false) (proxies st))) as Hsub.
  { intros Q. rewrite !Forall_forall. intros HQ p [_ Hp']%list_elem_of_filter. by apply HQ. }
  destruct (foreign_put u s1 (base.filter (λ p, has_id id p = false) (proxies st))) as (s3 & -> & H3 & _); [done|..].
  - eapply Hsub, proxies_plain, H.
  - apply Hsub, H.
  - cbn [mbind option_bind]. destruct (_ =? _)%nat; [by apply fine_here|]. case_bool_decide; [|by apply fine_here].
    apply set_fine; [done|auto with plain|keys..].
Qed.

Lemma edit_foreign u st c : foreign u st → ¬ installs u c →
  ∃ r, edit st c = Some r ∧ ∀ st', r = Ok st' → foreign u st'.
Proof.
  intros H Hi. destruct c as [host port user pass label now act|id|id label|id]; cbn [edit].
  - destruct (add_fine u st host port user pass label now H) as (s1 & r & -> & H1); [exact Hi|]. cbn [mbind option_bind].
    destruct r as [[id ex]|e]; [|eexists; split; [done|by intros ? [=]]].
    destruct act; [|eexists; split; [done|by intros ? [= <-]]].
    destruct (select_fine u s1 (Some id) H1) as (s2 & r & -> & H2). cbn [mbind option_bind].
    eexists; split; [done|]. destruct r; by intros ? [= <-].
  - destruct (select_fine u st id H) as (s2 & r & -> & H2). cbn [mbind option_bind].
    eexists; split; [done|]. destruct r; by intros ? [= <-].
  - destruct (rename_fine u st id label H) as (s2 & r & -> & H2). cbn [mbind option_bind].
    eexists; split; [done|]. destruct r; by intros ? [= <-].
  - destruct (delete_fine u st id H) as (s2 & r & -> & H2). cbn [mbind option_bind].
    eexists; split; [done|]. destruct r; by intros ? [= <-].
Qed.

(** ** Runs *)

(** [u] is foreign to everything the keeper may act on, and no run is about to
    change the account [id], whose proxy it is. *)
Definition unhurried (u : str) (id : N) (p : pass) : Prop :=
  match p_stage p with AtNext => True | GotUrl j cur => j = id → cur = u | Calling j _ => j ≠ id end.
Record calm (u : str) (id : N) (s : app) : Prop := {
  ca_file : foreign u (load_store (k_file s));
  ca_ws : k_ws s ≠ Some u;
  ca_passes : Forall (λ p, foreign u (p_st p) ∧ p_want p ≠ Some u ∧ unhurried u id p) (k_passes s);
}.

(** The action does not touch the account itself, and does not make [u] an address
    of the list; the address of the account can be read, or is not there to read. *)
Definition leaves (u : str) (id : N) (a : action) : Prop :=
  match a with
  | LookUrl _ Blank => False
  | Command c _ => ¬ installs u c
  | SetWs w => w ≠ Some u
  | UserSets j _ | Removed j => j ≠ id
  | _ => True
  end.

Lemma load_saved u st : foreign u st → load_store (Some (to_string st)) = st.
Proof.
  intros [Ho Hp _ _]. unfold load_store. cbn [mbind option_bind]. rewrite from_to_string by done.
  cbn [mbind option_bind]. by rewrite Ho.
Qed.

Lemma save_foreign u id s st w : calm u id s → foreign u st → foreign u (load_store (save_store s st w)).
Proof. intros Hc H. unfold save_store. destruct w; [by rewrite (load_saved u)|apply Hc]. Qed.

(** A run that looks at the account finds the address there; one that sets values
    is at another account. *)
Lemma look_url_calm u id p l m a p' : a_url a = u → m !! id = Some a → l ≠ Blank → look_url p l m = Some p' →
  p_st p' = p_st p ∧ p_want p' = p_want p ∧ unhurried u id p'.
Proof.
  intros Hu Hm Hl. unfold look_url. destruct (p_stage p); [|done..]. destruct (p_ids p) as [|j ids]; [done|].
  intros [= <-]. split; [done|]. split; [done|]. unfold unhurried. cbn. destruct (m !! j) as [b|] eqn:Hj; [|done].
  destruct l; [|done..]. intros ->. by simplify_eq.
Qed.
Lemma look_enabled_calm u id p det l m p' : by_hand u → foreign u (p_st p) → unhurried u id p → look_enabled p det l m = Some p' →
  p_st p' = p_st p ∧ p_want p' = p_want p ∧ unhurried u id p'.
Proof.
  intros Hb Hf Hp. unfold look_enabled. unfold unhurried in Hp. destruct (p_stage p) as [|j cur|]; [done| |done]. intros [= <-].
  split; [done|]. split; [done|]. unfold unhurried. cbn.
  assert (Hc : ∀ want e, match calling j (settle want (p_st p) cur e) with AtNext => True | GotUrl i c => i = id → c = u | Calling i _ => i ≠ id end).
  { intros want e. destruct (decide (j = id)) as [->|Hne].
    - rewrite (Hp eq_refl), settle_by_hand by done. done.
    - by destruct (settle want (p_st p) cur e). }
  destruct (m !! j); [|done]. destruct l; [apply Hc|done|apply Hc].
Qed.
Lemma visit_calm u id p ok m a p' m' : m !! id = Some a → unhurried u id p → visit p ok m = Some (p', m') →
  p_st p' = p_st p ∧ p_want p' = p_want p ∧ unhurried u id p' ∧ m' !! id = Some a.
Proof.
  intros Hm Hp. unfold visit, unhurried in *. destruct (p_stage p) as [| |j [|c calls]]; [done..|]. intros [= H].
  destruct (m !! j) as [b|]; [destruct ok|]; injection H as <- <-; cbn; try done.
  split_and!; [done|done|by destruct calls|by rewrite lookup_insert_ne].
Qed.

Lemma step_calm s act s' id a :
  by_hand (a_url a) → calm (a_url a) id s → k_accounts s !! id = Some a → leaves (a_url a) id act → step s act = Some s' →
  calm (a_url a) id s' ∧ k_accounts s' !! id = Some a.
Proof.
  intros Hb Hc Hm Hl. pose proof Hc as [Hf Hw Hp]. destruct act as [ids|k l|k l|k ok|k w|c w|w|j|j|j b|j|]; cbn [step].
  - intros [= <-]. split; [|done]. split; [done..|]. cbn. apply Forall_app. split; [done|]. apply Forall_singleton.
    split; [done|]. split; [by apply desired_foreign|done].
  - intros (p & Hk & (p' & Hp' & [= <-])%bind_Some)%bind_Some.
    destruct (Forall_lookup_1 _ _ _ _ Hp Hk) as (Hpf & Hpw & _). split; [|done]. split; [done..|]. apply Forall_insert; [done|].
    destruct (look_url_calm (a_url a) id p l _ a p' eq_refl Hm) as (-> & -> & Hu); [by intros ->|done|]. done.
  - intros (p & Hk & (p' & Hp' & [= <-])%bind_Some)%bind_Some.
    destruct (Forall_lookup_1 _ _ _ _ Hp Hk) as (Hpf & Hpw & Hpu). split; [|done]. split; [done..|]. apply Forall_insert; [done|].
    by destruct (look_enabled_calm (a_url a) id p _ l _ p' Hb Hpf Hpu Hp') as (-> & -> & Hu).
  - intros (p & Hk & ([p' m] & Hp' & [= <-])%bind_Some)%bind_Some.
    destruct (Forall_lookup_1 _ _ _ _ Hp Hk) as (Hpf & Hpw & Hpu).
    destruct (visit_calm (a_url a) id p ok _ a p' m Hm Hpu Hp') as (Hst & Hwant & Hu & Hm').
    split; [|done]. split; [done..|]. apply Forall_insert; [done|]. by rewrite Hst, Hwant.
  - intros (p & Hk & H)%bind_Some. destruct (p_stage p); [|done..]. destruct (p_ids p); [|done]. apply bind_Some in H as (file & Hfile & [= <-]).
    destruct (Forall_lookup_1 _ _ _ _ Hp Hk) as (Hpf & Hpw & _). split; [|done]. split; [|done|by apply Forall_delete].
    cbn. case_bool_decide; [by injection Hfile as <-|]. apply bind_Some in Hfile as (st & Hs & [= <-]).
    apply (save_foreign _ id); [done|]. eapply foreign_set; [done|done| |keys|].
    + unfold opt_str. destruct (p_want p); cbn; auto with plain.
    + intros _. unfold opt_str. destruct (p_want p) as [v|] eqn:Ev; cbn; [by rewrite as_str_of|by rewrite as_str_null].
  - destruct (edit_foreign (a_url a) (load_store (k_file s)) c Hf Hl) as (r & -> & Hr). cbn [mbind option_bind].
    intros [= <-]. destruct r as [st|e]; [|done]. split; [|done]. split; [|done..]. apply (save_foreign _ id); [done|by apply Hr].
  - intros [= <-]. split; [|done]. by split.
  - intros [= <-]. split; [|done]. by split.
  - intros [= <-]. split; [|done]. by split.
  - intros [= <-]. split; [by split|]. cbn. by rewrite lookup_insert_ne.
  - intros [= <-]. split; [by split|]. cbn. by rewrite lookup_delete_ne.
  - intros [= <-]. split; [|done]. by split.
Qed.

Lemma run_cons s act l : run s (act :: l) = step s act ≫= λ s, run s l.
Proof.
  unfold run. cbn [foldl mbind option_bind]. destruct (step s act) as [s1|]; cbn; [done|]. by induction l.
Qed.

Lemma run_calm l : ∀ s s' id a,
  by_hand (a_url a) → calm (a_url a) id s → k_accounts s !! id = Some a → Forall (leaves (a_url a) id) l → run s l = Some s' →
  k_accounts s' !! id = Some a.
Proof.
  induction l as [|act l IH]; intros s s' id a Hb Hc Hm Hl; [by intros [= <-]|].
  apply Forall_cons in Hl as [Hact Hl]. rewrite run_cons. intros (s1 & Hs & Hr)%bind_Some.
  destruct (step_calm s act s1 id a Hb Hc Hm Hact Hs) as [Hc1 Hm1]. by eapply (IH s1).
Qed.

End Kept.

(** ** Properties *)

(** [C31]: A proxy the user set up in an account, while no run of the keeper was
    between looking at that account and the last of its calls, is never replaced,
    cleared or switched on or off by the keeper: not by any number of runs,
    interleaved in any way, between any two of their calls, with each other, with
    changes of the list, changes of other accounts, backups, failed calls and
    restarts; as long as it is not also an address of the list, the user does not
    change it, and the account's address is not read as empty because its database
    did not answer. *)
Theorem user_proxy_kept {J : Json} {JL : JsonLaws} s l s' id a :
  by_hand (a_url a) → calm (a_url a) id s → k_accounts s !! id = Some a → Forall (leaves (a_url a) id) l →
  run s l = Some s' → k_accounts s' !! id = Some a.
Proof. apply run_calm. Qed.

(** ** Runs from a fresh installation *)
Module Fresh.
Definition start {J : Json} (a : account) : app := App None None ∅ {[1%N := a]} [].
Definition proxy : command := Install (lit "Proxy.example") 1080 [] [] [] 0 true.
Definition url : str := lit "socks5://proxy.example:1080".
Definition mine : str := lit "socks5://10.0.0.1:9050".

Lemma calm_start {J : Json} {JL : JsonLaws} u id a : calm u id (start a).
Proof. split; [apply foreign_empty|done|constructor]. Qed.

#[local] Existing Instance Tree.json.

(** The call that takes a deleted proxy off the account fails. *)
Definition stale : list action :=
  [Command proxy true; Wake [1%N]; LookUrl 0 Seen; LookEnabled 0 Seen; Visit 0 true; Visit 0 true; Finish 0 true;
   Command (Delete (lit "p1")) true; Wake [1%N]; LookUrl 0 Seen; LookEnabled 0 Seen; Visit 0 false; Finish 0 true].
(** The same for an account whose proxy the user set up: no call is needed. *)
Definition left_alone : list action :=
  [Command proxy true; Wake [1%N]; LookUrl 0 Seen; LookEnabled 0 Seen; Finish 0 true;
   Command (Delete (lit "p1")) true; Wake [1%N]; LookUrl 0 Seen; LookEnabled 0 Seen; Finish 0 true].
(** The user sets a proxy between the two readings of a run. *)
Definition raced : list action :=
  [Command proxy true; Wake [1%N]; LookUrl 0 Seen; UserSets 1 (Account mine true); LookEnabled 0 Seen; Visit 0 true; Finish 0 true].
Definition after (a : account) (l : list action) : app := default (start a) (run (start a) l).
Definition file_after (l : list action) : value := load_store (k_file (after (Account [] false) l)).
End Fresh.

Lemma user_proxy_kept_witness :
  k_accounts (Fresh.after (Account Fresh.mine true) Fresh.left_alone) !! 1%N = Some (Account Fresh.mine true).
Proof.
  assert (is_Some (run (J := Tree.json) (Fresh.start (Account Fresh.mine true)) Fresh.left_alone)) as [s Hs]
    by (apply (bool_decide_unpack _); vm_compute; exact I).
  unfold Fresh.after. rewrite Hs. cbn [default from_option id].
  apply (user_proxy_kept (JL := Tree.json_laws) (Fresh.start (Account Fresh.mine true)) Fresh.left_alone s 1 (Account Fresh.mine true)).
  - split_and!; [|vm_compute; reflexivity..]. vm_compute. intros H. inversion H.
  - apply (Fresh.calm_start (JL := Tree.json_laws)).
  - reflexivity.
  - unfold Fresh.left_alone. rewrite !Forall_cons. split_and!; try exact I; [|intros H; exact H|constructor].
    intros (h & Hh & Hu). revert Hu. injection Hh as <-. vm_compute. intros H. inversion H.
  - exact Hs.
Defined.

Section Bugs.
#[local] Existing Instance Tree.json.

(** a proxy that was deleted stays with an account for good when the call that
    was to take it off failed once: the run forgets that it wrote the address, and
    later runs take it for one the user set up. *)
Theorem stale_proxy_stays :
  ∃ s, run (Fresh.start (Account [] false)) Fresh.stale = Some s ∧
    proxies (load_store (k_file s)) = [] ∧ k_ws s = None ∧
    k_accounts s !! 1%N = Some (Account Fresh.url true) ∧
    ∀ l s', Forall (leaves Fresh.url 1) l → run s l = Some s' →
      k_accounts s' !! 1%N = Some (Account Fresh.url true).
Proof.
  assert (is_Some (run (Fresh.start (Account [] false)) Fresh.stale)) as [s Hs]
    by (apply (bool_decide_unpack _); vm_compute; exact I).
  assert (s = Fresh.after (Account [] false) Fresh.stale) as Es by (unfold Fresh.after; by rewrite Hs).
  assert (k_accounts s !! 1%N = Some (Account Fresh.url true)) as Ha by (rewrite Es; vm_compute; reflexivity).
  assert (proxies (load_store (k_file s)) = []) as Hp
    by (rewrite Es; apply (bool_decide_unpack _); vm_compute; exact I).
  assert (k_ws s = None) as Hw by (rewrite Es; vm_compute; reflexivity).
  exists s. split_and!; try assumption. intros l s'. apply (run_calm (JL := Tree.json_laws) l s s' 1 (Account Fresh.url true)).
  - split_and!; [|vm_compute; reflexivity..]. vm_compute. intros H. inversion H.
  - split; cbn [a_url]; [split|rewrite Hw; intros H; inversion H|].
    + rewrite Es. vm_compute. reflexivity.
    + rewrite Es. apply (proj1 (Nat.leb_le _ _)). vm_compute. reflexivity.
    + rewrite Es. apply (bool_decide_unpack _). vm_compute. exact I.
    + rewrite Hp. constructor.
    + assert (k_passes s = []) as -> by (apply nil_length_inv; rewrite Es; vm_compute; reflexivity). constructor.
  - exact Ha.
Qed.

(** A proxy that the user sets while a run is between the calls for that account is
    replaced by the one of the list. *)
Theorem raced_proxy_lost :
  ∃ s, run (Fresh.start (Account [] false)) Fresh.raced = Some s ∧ k_accounts s !! 1%N = Some (Account Fresh.url true).
Proof.
  assert (is_Some (run (Fresh.start (Account [] false)) Fresh.raced)) as [s Hs]
    by (apply (bool_decide_unpack _); vm_compute; exact I).
  exists s. split; [exact Hs|].
  assert (s = Fresh.after (Account [] false) Fresh.raced) as -> by (unfold Fresh.after; by rewrite Hs). vm_compute. reflexivity.
Qed.

(** a proxy that was added, with success reported, is lost when a run of the
    keeper that began before ends after it: the run writes back the document it
    read when it began. *)
Theorem added_proxy_lost :
  let l := [SetWs (Some (lit "socks5://velta-ws:x@127.0.0.1:9")); Wake []] in
  ∃ s1 s2, run (Fresh.start (Account [] false)) (l ++ [Command Fresh.proxy true]) = Some s1 ∧
    length (proxies (load_store (k_file s1))) = 1 ∧
    run s1 [Finish 0 true] = Some s2 ∧ proxies (load_store (k_file s2)) = [].
Proof.
  intros l. assert (is_Some (run (Fresh.start (Account [] false)) (l ++ [Command Fresh.proxy true]))) as [s1 H1]
    by (apply (bool_decide_unpack _); vm_compute; exact I).
  assert (s1 = Fresh.after (Account [] false) (l ++ [Command Fresh.proxy true])) as E1 by (unfold Fresh.after; by rewrite H1).
  assert (is_Some (run s1 [Finish 0 true])) as [s2 H2] by (rewrite E1; apply (bool_decide_unpack _); vm_compute; exact I).
  exists s1, s2. split_and!; [exact H1|rewrite E1; vm_compute; reflexivity|exact H2|].
  assert (s2 = default s1 (run s1 [Finish 0 true])) as -> by (by rewrite H2).
  rewrite E1. apply (bool_decide_unpack _). vm_compute. exact I.
Qed.
End Bugs.
