(* ===== verification/Attachment.v ===== *)
(** * Encrypted attachments ([packages/attachment-crypto])

    The VLTA container: a 128-byte header that wraps a per-file key under the
    profile's attachment key, then independently decryptable 64 KiB chunks.
    AES-256-GCM, HKDF, hexadecimal decoding and the random generator are not
    in the repository; they are the parameters [Aead], [Kdf] and [rng].  Files
    and writers are byte strings (writing does not fail). *)

From S2P Require Import Prelude Str.

(** ** Parameters *)

(** [aes_gcm::Aes256Gcm]: [new_from_slice], [encrypt] and [decrypt]. *)
Class Aead := {
  aead_new : bytes → bool;
  aead_enc : bytes → bytes → bytes → bytes → option bytes;  (* key nonce aad msg *)
  aead_dec : bytes → bytes → bytes → bytes → option bytes;
}.

(** The documented behaviour the container relies on: a 32-byte key is
    accepted, messages up to the chunk size can be encrypted, the ciphertext
    is the message's length plus the 16-byte tag, decryption inverts
    encryption, and a ciphertext that decrypts is the encryption of what it
    decrypts to. *)
Class AeadLaws {aead : Aead} := {
  aead_new_32 : ∀ k, length k = 32 → aead_new k = true;
  aead_enc_some : ∀ k n a m, (N.of_nat (length m) ≤ 65536)%N → is_Some (aead_enc k n a m);
  aead_enc_length : ∀ k n a m c, aead_enc k n a m = Some c → length c = length m + 16;
  aead_dec_enc : ∀ k n a m c, aead_enc k n a m = Some c → aead_dec k n a c = Some m;
  aead_enc_dec : ∀ k n a m c, aead_dec k n a c = Some m → aead_enc k n a m = Some c;
}.

Class Kdf := {
  hkdf_expand : bytes → bytes → option bytes;   (* HKDF-SHA256, no salt: ikm info *)
  hex_decode : str → option bytes;
}.

(** One call of [encrypt] draws a file key, a file id, a wrapping nonce and a
    nonce per chunk. *)
Record rng := {
  rng_file_key : bytes; rng_file_id : bytes; rng_wrap_nonce : bytes; rng_nonce : N → bytes
}.
Record wf_rng (r : rng) : Prop := {
  rng_key_32 : length (rng_file_key r) = 32;
  rng_id_16 : length (rng_file_id r) = 16;
  rng_wrap_12 : length (rng_wrap_nonce r) = 12;
  rng_nonce_12 : ∀ i, length (rng_nonce r i) = 12;
}.

(** ** Constants *)

Definition MAGIC : bytes := [86; 76; 84; 65]%N. (* "VLTA" *)
Definition VERSION : N := 1%N.
Definition HEADER_LEN : N := 128%N.
Definition CHUNK_LEN : N := (64 * 1024)%N.
Definition NONCE_LEN : N := 12%N.
Definition TAG_LEN : N := 16%N.
Definition CHUNK_OVERHEAD : N := (NONCE_LEN + TAG_LEN)%N.
Definition KEY_INFO : str := "velta/attachments/v1".

Inductive att_error :=
| EBadDbKey | EKdf | EMasterKey | EFileKey | EWrap | EEncrypt | EGrew
| EEof | ENoKey | EVersion | EFlags | EHeaderLen | EReserved | EChunkLen
| EKeyAuth | EKeySize | EOverflow | ELength | EAuth | EPastEof | ERange | ESeek.

#[export] Instance att_error_eq_dec : EqDecision att_error.
Proof. solve_decision. Defined.

Section Attachment.
Context {aead : Aead} {kdf : Kdf}.

(** ** The attachment key *)

Definition from_db_key (passphrase : str) : result att_error (option bytes) :=
  match strip_prefix "x'" passphrase ≫= strip_suffix "'" with
  | None => Ok None
  | Some hex =>
      if negb (str_len hex =? 64)%N || negb (forallb is_ascii_hexdigit (as_bytes hex))
      then Err EBadDbKey
      else
        dek ← ok_or (hex_decode hex) EBadDbKey;
        key ← ok_or (hkdf_expand dek (as_bytes KEY_INFO)) EKdf;
        Ok (Some key)
  end.

(** ** Encryption *)

Definition wrap_aad (plaintext_len : N) (file_id : bytes) : bytes :=
  MAGIC ++ [VERSION; 0%N] ++ be_bytes 2 HEADER_LEN ++ be_bytes 4 CHUNK_LEN ++
  be_bytes 8 plaintext_len ++ file_id.

Definition chunk_aad (file_id : bytes) (index final_flag total len : N) : bytes :=
  file_id ++ be_bytes 8 index ++ [final_flag] ++ be_bytes 8 total ++ be_bytes 4 len.

Definition header_bytes (aad wrap_nonce wrapped : bytes) : bytes :=
  aad ++ wrap_nonce ++ wrapped ++ replicate 32 0%N.

(** The chunk loop; the pair is the output and the unread input. *)
Fixpoint encrypt_chunks (fuel : nat) (r : rng) (plaintext_len offset index : N) (input : bytes)
    : option (result att_error (bytes * bytes)) :=
  match fuel with
  | O => None
  | S fuel =>
      let remaining := (plaintext_len - offset)%N in
      let wanted := N.min remaining CHUNK_LEN in
      match read_exact EEof wanted input with
      | Err e => Some (Err e)
      | Ok (plaintext, input) =>
          let final_flag := if (offset + wanted =? plaintext_len)%N then 1%N else 0%N in
          let nonce := rng_nonce r index in
          let aad := chunk_aad (rng_file_id r) index final_flag plaintext_len wanted in
          match aead_enc (rng_file_key r) nonce aad plaintext with
          | None => Some (Err EEncrypt)
          | Some ciphertext =>
              if (final_flag =? 1)%N then Some (Ok (nonce ++ ciphertext, input))
              else
                rest ← encrypt_chunks fuel r plaintext_len (wadd64 offset wanted) (wadd64 index 1) input;
                Some ('(out, input) ← rest; Ok (nonce ++ ciphertext ++ out, input))
          end
      end
  end.

Definition encrypt (fuel : nat) (key : bytes) (r : rng) (input : bytes) (plaintext_len : N)
    : option (result att_error bytes) :=
  if negb (aead_new key) then Some (Err EMasterKey) else
  let aad := wrap_aad plaintext_len (rng_file_id r) in
  match aead_enc key (rng_wrap_nonce r) aad (rng_file_key r) with
  | None => Some (Err EWrap)
  | Some wrapped =>
      if negb (aead_new (rng_file_key r)) then Some (Err EFileKey) else
      body ← encrypt_chunks fuel r plaintext_len 0 0 input;
      Some ('(out, input) ← body;
            _ ← ensure (bool_decide (input = [])) EGrew;
            Ok (header_bytes aad (rng_wrap_nonce r) wrapped ++ out))
  end.

(** Iterations of the chunk loop for a given length. *)
Definition encrypt_fuel (plaintext_len : N) : nat := S (N.to_nat (plaintext_len / CHUNK_LEN)).

(** ** Reading *)

Record header := Header
  { h_chunk_len : N; h_plaintext_len : N; h_file_id : bytes; h_file_key : bytes }.

Record reader := Reader
  { r_file : bytes; r_len : N; r_position : N; r_encrypted : option header }.

(** [chunks.checked_mul(CHUNK_OVERHEAD)] and the sums around it. *)
Definition expected_len (plaintext_len chunk_len : N) : option N :=
  let chunks := N.max ((plaintext_len + chunk_len - 1) / chunk_len) 1 in
  len ← checked_add64 HEADER_LEN plaintext_len;
  overhead ← checked_mul64 chunks CHUNK_OVERHEAD;
  checked_add64 len overhead.

Definition from_reader (file : bytes) (physical_len : N) (key : option bytes)
    : result att_error reader :=
  if bool_decide (take 4 file ≠ MAGIC) then
    Ok (Reader file physical_len 0 None)
  else
    key ← ok_or key ENoKey;
    '(b, _) ← read_exact EEof HEADER_LEN file;
    _ ← ensure (nth 4 b 0 =? VERSION)%N EVersion;
    _ ← ensure (nth 5 b 0 =? 0)%N EFlags;
    _ ← ensure (be_value (slice 6 2 b) =? HEADER_LEN)%N EHeaderLen;
    _ ← ensure (forallb (λ x, x =? 0)%N (drop 96 b)) EReserved;
    let chunk_len := be_value (slice 8 4 b) in
    _ ← ensure (chunk_len =? CHUNK_LEN)%N EChunkLen;
    let plaintext_len := be_value (slice 12 8 b) in
    let file_id := slice 20 16 b in
    let wrap_nonce := slice 36 12 b in
    let wrapped := slice 48 48 b in
    _ ← ensure (aead_new key) EMasterKey;
    file_key ← ok_or (aead_dec key wrap_nonce (slice 0 36 b) wrapped) EKeyAuth;
    _ ← ensure (N.of_nat (length file_key) =? 32)%N EKeySize;
    want ← ok_or (expected_len plaintext_len chunk_len) EOverflow;
    _ ← ensure (physical_len =? want)%N ELength;
    Ok (Reader file plaintext_len 0 (Some (Header chunk_len plaintext_len file_id file_key))).

(** [AttachmentReader::open] of a file with these contents. *)
Definition open (file : bytes) (key : option bytes) : result att_error reader :=
  from_reader file (N.of_nat (length file)) key.

Definition is_encrypted (file : bytes) : bool := bool_decide (take 4 file = MAGIC).

(** [file.seek(SeekFrom::Start(off))] followed by [file.read_exact]. *)
Definition pread (file : bytes) (off n : N) : result att_error bytes :=
  if (off + n <=? N.of_nat (length file))%N then Ok (slice off n file) else Err EEof.

(** The chunk that holds the current position, authenticated and decrypted,
    with the position's offset inside it. *)
Definition read_chunk (r : reader) (h : header) : result att_error (bytes * N) :=
  let index := (r_position r / h_chunk_len h)%N in
  let within := (r_position r mod h_chunk_len h)%N in
  let chunk_start := (index * h_chunk_len h)%N in
  let plaintext_len := N.min (r_len r - chunk_start) (h_chunk_len h) in
  let final_flag := if (chunk_start + plaintext_len =? r_len r)%N then 1%N else 0%N in
  let disk_offset := ((HEADER_LEN + index * (h_chunk_len h + CHUNK_OVERHEAD)) mod u64_bound)%N in
  nonce ← pread (r_file r) disk_offset NONCE_LEN;
  ciphertext ← pread (r_file r) (disk_offset + NONCE_LEN) (plaintext_len + TAG_LEN);
  let aad := chunk_aad (h_file_id h) index final_flag (h_plaintext_len h) plaintext_len in
  plaintext ← ok_or (aead_dec (h_file_key h) nonce aad ciphertext) EAuth;
  Ok (plaintext, within).

(** The loop of [read]: [want] is [output.len()], [acc] what was copied into
    the output so far.  The position is advanced chunk by chunk, so it stays
    where a later chunk failed. *)
Fixpoint read_loop (fuel : nat) (r : reader) (h : header) (want : N) (acc : bytes)
    : option (result att_error bytes * reader) :=
  match fuel with
  | O => None
  | S fuel =>
      let total := N.of_nat (length acc) in
      if ((total <? want) && (r_position r <? r_len r))%N then
        match read_chunk r h with
        | Err e => Some (Err e, r)
        | Ok (plaintext, within) =>
            let chunk_start := (r_position r - within)%N in
            let plaintext_len := N.min (r_len r - chunk_start) (h_chunk_len h) in
            let wanted := N.min (plaintext_len - within) (want - total) in
            read_loop fuel
              (Reader (r_file r) (r_len r) (r_position r + wanted) (r_encrypted r)) h want
              (acc ++ slice within wanted plaintext)
        end
      else Some (Ok acc, r)
  end.

Definition read (fuel : nat) (r : reader) (want : N) : option (result att_error bytes * reader) :=
  if ((want =? 0) || (r_position r =? r_len r))%N then Some (Ok [], r) else
  match r_encrypted r with
  | None =>
      let out := slice (r_position r) want (r_file r) in
      Some (Ok out,
            Reader (r_file r) (r_len r) (r_position r + N.of_nat (length out)) None)
  | Some h =>
      if negb (aead_new (h_file_key h)) then Some (Err EFileKey, r)
      else read_loop fuel r h want []
  end.

Inductive seek_from := SeekStart (n : N) | SeekEnd (d : Z) | SeekCurrent (d : Z).

Definition seek (r : reader) (p : seek_from) : result att_error N * reader :=
  let next := match p with
    | SeekStart n => Z.of_N n
    | SeekEnd d => (Z.of_N (r_len r) + d)%Z
    | SeekCurrent d => (Z.of_N (r_position r) + d)%Z
    end in
  if ((0 <=? next) && (next <=? Z.of_N (r_len r)))%Z then
    (Ok (Z.to_N next), Reader (r_file r) (r_len r) (Z.to_N next) (r_encrypted r))
  else (Err ESeek, r).

(** [Read::read_exact]: call [read] until the buffer is full. *)
Fixpoint reader_read_exact (fuel : nat) (r : reader) (n : N) (acc : bytes)
    : option (result att_error bytes) :=
  match fuel with
  | O => None
  | S fuel' =>
      let total := N.of_nat (length acc) in
      if (n <=? total)%N then Some (Ok acc) else
      match read fuel r (n - total) with
      | None => None
      | Some (Err e, _) => Some (Err e)
      | Some (Ok [], _) => Some (Err EEof)
      | Some (Ok out, r) => reader_read_exact fuel' r n (acc ++ out)
      end
  end.

Definition read_range (fuel : nat) (r : reader) (start len : N) : option (result att_error bytes) :=
  if negb (start <=? r_len r)%N then Some (Err EPastEof)
  else if negb (len <=? r_len r - start)%N then Some (Err ERange)
  else match seek r (SeekStart start) with
       | (Err e, _) => Some (Err e)
       | (Ok _, r) => reader_read_exact fuel r len []
       end.

(** ** Layout of a container *)

Local Ltac consts :=
  change CHUNK_LEN with 65536%N in *; change HEADER_LEN with 128%N in *;
  change CHUNK_OVERHEAD with 28%N in *; change NONCE_LEN with 12%N in *;
  change TAG_LEN with 16%N in *.

(** Number of chunks of an [n]-byte plaintext; the [j]-th chunk is the byte
    range [j * CHUNK_LEN .. + chunk_size n j]. *)
Definition nchunks (n : N) : N := N.max ((n + CHUNK_LEN - 1) / CHUNK_LEN) 1.
Definition chunk_size (n j : N) : N := N.min (n - j * CHUNK_LEN) CHUNK_LEN.
Definition chunk_final (n j : N) : N :=
  if (j * CHUNK_LEN + chunk_size n j =? n)%N then 1%N else 0%N.

(** [file] holds, at the disk offset of chunk [j], the nonce and ciphertext of
    chunk [j] of [p]. *)
Definition holds_chunk (fk fid : bytes) (base : N) (p out : bytes) (j : N) : Prop :=
  let n := N.of_nat (length p) in
  ∃ nonce ct,
    pread out (base + j * (CHUNK_LEN + CHUNK_OVERHEAD)) NONCE_LEN = Ok nonce ∧
    pread out (base + j * (CHUNK_LEN + CHUNK_OVERHEAD) + NONCE_LEN) (chunk_size n j + TAG_LEN) = Ok ct ∧
    aead_enc fk nonce (chunk_aad fid j (chunk_final n j) n (chunk_size n j))
      (slice (j * CHUNK_LEN) (chunk_size n j) p) = Some ct.

Lemma nchunks_bounds n :
  (n ≤ nchunks n * CHUNK_LEN ∧ 1 ≤ nchunks n ∧ (nchunks n - 1) * CHUNK_LEN ≤ n
   ∧ (1 < nchunks n → (nchunks n - 1) * CHUNK_LEN < n))%N.
Proof.
  unfold nchunks. consts.
  pose proof (N.div_mod (n + 65536 - 1) 65536 ltac:(lia)).
  pose proof (N.mod_upper_bound (n + 65536 - 1) 65536 ltac:(lia)).
  set (q := ((n + 65536 - 1) / 65536)%N) in *.
  set (r := ((n + 65536 - 1) mod 65536)%N) in *. clearbody q r. repeat split; lia.
Qed.

Lemma pread_ok file off n b :
  pread file off n = Ok b →
  b = slice off n file ∧ (off + n ≤ N.of_nat (length file))%N ∧ N.of_nat (length b) = n.
Proof.
  unfold pread. destruct (N.leb_spec (off + n) (N.of_nat (length file))); [|done].
  intros [= <-]. rewrite length_slice; done.
Qed.

Lemma pread_slice file off n :
  (off + n ≤ N.of_nat (length file))%N → pread file off n = Ok (slice off n file).
Proof. intros. unfold pread. by destruct (N.leb_spec (off + n) (N.of_nat (length file))); [|lia]. Qed.

Lemma pread_app_r l1 l2 off n :
  (N.of_nat (length l1) ≤ off)%N →
  pread (l1 ++ l2) off n = pread l2 (off - N.of_nat (length l1)) n.
Proof.
  intros. unfold pread. rewrite slice_app_r, length_app by done.
  destruct (N.leb_spec (off + n) (N.of_nat (length l1 + length l2)));
  destruct (N.leb_spec (off - N.of_nat (length l1) + n) (N.of_nat (length l2))); (done || lia).
Qed.

Lemma pread_app_mid l1 l2 l3 off n :
  off = N.of_nat (length l1) → n = N.of_nat (length l2) →
  pread (l1 ++ l2 ++ l3) off n = Ok l2.
Proof.
  intros -> ->. rewrite pread_app_r, N.sub_diag by done.
  rewrite pread_slice by (rewrite length_app; lia).
  by rewrite slice_0, Nat2N.id, take_app_length.
Qed.

Lemma holds_chunk_shift fk fid base p out pre j :
  N.of_nat (length pre) = base →
  holds_chunk fk fid 0 p out j → holds_chunk fk fid base p (pre ++ out) j.
Proof.
  intros Hpre (nonce & ct & H1 & H2 & H3). exists nonce, ct.
  rewrite !pread_app_r by lia. rewrite N.add_0_l in H1, H2.
  split; [rewrite <- H1; f_equal; lia|]. split; [rewrite <- H2; f_equal; lia|done].
Qed.

(** ** Encryption produces the layout *)

Section WithLaws.
Context {laws : AeadLaws}.

Lemma encrypt_chunks_spec r p extra fuel : ∀ i,
  wf_rng r →
  let n := N.of_nat (length p) in
  (n < u64_bound)%N → (i < nchunks n)%N → N.to_nat (nchunks n - i) ≤ fuel →
  ∃ out,
    encrypt_chunks fuel r n (i * CHUNK_LEN) i (drop (N.to_nat (i * CHUNK_LEN)) p ++ extra)
      = Some (Ok (out, extra)) ∧
    (N.of_nat (length out) = n - i * CHUNK_LEN + (nchunks n - i) * CHUNK_OVERHEAD)%N ∧
    (∀ j, (i ≤ j < nchunks n)%N →
      ∃ nonce ct, nonce = rng_nonce r j ∧
        pread out ((j - i) * (CHUNK_LEN + CHUNK_OVERHEAD)) NONCE_LEN = Ok nonce ∧
        pread out ((j - i) * (CHUNK_LEN + CHUNK_OVERHEAD) + NONCE_LEN) (chunk_size n j + TAG_LEN) = Ok ct ∧
        aead_enc (rng_file_key r) nonce
          (chunk_aad (rng_file_id r) j (chunk_final n j) n (chunk_size n j))
          (slice (j * CHUNK_LEN) (chunk_size n j) p) = Some ct).
Proof.
  induction fuel as [|fuel IH]; intros i Hr n Hn Hi Hfuel; [lia|].
  destruct (nchunks_bounds n) as (Hb1 & Hb2 & Hb3 & Hb4).
  set (w := chunk_size n i).
  assert (Hoff : (i * CHUNK_LEN + w ≤ n)%N).
  { subst w. unfold chunk_size. consts. nia. }
  assert (Hchunk : drop (N.to_nat (i * CHUNK_LEN)) p ++ extra
    = slice (i * CHUNK_LEN) w p ++ drop (N.to_nat (i * CHUNK_LEN + w)) p ++ extra).
  { rewrite app_assoc. f_equal. unfold slice. rewrite N2Nat.inj_add, <- drop_drop.
    by rewrite take_drop. }
  cbn [encrypt_chunks]. fold (chunk_size n i). fold w. rewrite Hchunk.
  assert (Hlen : N.of_nat (length (slice (i * CHUNK_LEN) w p)) = w) by (apply length_slice; done).
  rewrite read_exact_app' by done.
  destruct (aead_enc_some (rng_file_key r) (rng_nonce r i)
    (chunk_aad (rng_file_id r) i (chunk_final n i) n w) (slice (i * CHUNK_LEN) w p)) as [ct Hct].
  { rewrite Hlen. subst w. unfold chunk_size. consts. lia. }
  pose proof (aead_enc_length _ _ _ _ _ Hct) as Hctl.
  pose proof (rng_nonce_12 _ Hr i) as Hnl.
  change (if (i * CHUNK_LEN + w =? n)%N then 1%N else 0%N) with (chunk_final n i).
  rewrite Hct.
  assert (Hself : ∃ nonce ct0, nonce = rng_nonce r i ∧ ∀ tl,
    pread (rng_nonce r i ++ ct ++ tl) 0 NONCE_LEN = Ok nonce ∧
    pread (rng_nonce r i ++ ct ++ tl) NONCE_LEN (w + TAG_LEN) = Ok ct0 ∧
    aead_enc (rng_file_key r) nonce (chunk_aad (rng_file_id r) i (chunk_final n i) n w)
      (slice (i * CHUNK_LEN) w p) = Some ct0).
  { exists (rng_nonce r i), ct. split; [done|]. intros tl. repeat split; [..|done].
    - apply (pread_app_mid []); [done|]. by rewrite Hnl.
    - apply pread_app_mid; [by rewrite Hnl|]. consts. lia. }
  destruct Hself as (nc & ct0 & Hnc & Hself).
  unfold chunk_final at 1. fold w. destruct (N.eqb_spec (i * CHUNK_LEN + w) n) as [Hfin|Hfin].
  - assert (Hlast : nchunks n = (i + 1)%N).
    { subst w. unfold chunk_size in Hfin. consts. lia. }
    exists (rng_nonce r i ++ ct). cbn [N.eqb Pos.eqb].
    split; [|split].
    + rewrite drop_ge by (subst n; lia). done.
    + rewrite length_app. consts. subst w. unfold chunk_size in *. consts. lia.
    + intros j Hj. assert (j = i) as -> by lia. rewrite N.sub_diag, N.mul_0_l, N.add_0_l.
      exists nc, ct0. specialize (Hself []). rewrite app_nil_r in Hself. tauto.
  - assert (Hw : w = CHUNK_LEN).
    { subst w. unfold chunk_size in *. consts. lia. }
    assert (Hi' : (i + 1 < nchunks n)%N).
    { subst w. unfold chunk_size in *. consts. lia. }
    cbn [N.eqb].
    rewrite !wadd64_small by (consts; lia).
    replace (i * CHUNK_LEN + w)%N with ((i + 1) * CHUNK_LEN)%N by (rewrite Hw; lia).
    assert (Hf' : N.to_nat (nchunks n - (i + 1)) ≤ fuel) by lia.
    destruct (IH (i + 1)%N Hr Hn Hi' Hf') as (out & Henc & Hol & Hch).
    fold n in Henc, Hol, Hch. rewrite Henc.
    exists (rng_nonce r i ++ ct ++ out). split; [done|]. split.
    + rewrite !length_app. consts. lia.
    + intros j Hj. destruct (decide (j = i)) as [->|Hne].
      * rewrite N.sub_diag, N.mul_0_l, N.add_0_l. exists nc, ct0. specialize (Hself out). tauto.
      * destruct (Hch j ltac:(lia)) as (nonce & c & Hn1 & Hp1 & Hp2 & He).
        exists nonce, c. repeat split; try done.
        all: rewrite app_assoc, pread_app_r by (rewrite length_app; consts; lia).
        -- rewrite <- Hp1. f_equal. rewrite length_app. consts. lia.
        -- rewrite <- Hp2. f_equal. rewrite length_app. consts. lia.
Qed.

(** An input shorter than announced. *)
Lemma encrypt_chunks_short r n fuel : ∀ off i input,
  wf_rng r → (n < u64_bound)%N → (off ≤ n)%N → (i * CHUNK_LEN = off)%N →
  (N.of_nat (length input) < n - off)%N → N.to_nat (nchunks n - i) ≤ fuel →
  encrypt_chunks fuel r n off i input = Some (Err EEof).
Proof.
  induction fuel as [|fuel IH]; intros off i input Hr Hn Hoff Hi Hlen Hfuel.
  { destruct (nchunks_bounds n) as (Hb1 & Hb2 & Hb3 & Hb4). consts. nia. }
  cbn [encrypt_chunks]. set (w := N.min (n - off) CHUNK_LEN).
  destruct (read_exact EEof w input) as [[m rest]|e] eqn:Hre.
  2: { revert Hre. unfold read_exact. destruct (_ <? _)%N; congruence. }
  apply read_exact_ok in Hre as [-> Hm]. rewrite length_app in Hlen.
  destruct (aead_enc_some (rng_file_key r) (rng_nonce r i)
    (chunk_aad (rng_file_id r) i (if (off + w =? n)%N then 1 else 0)%N n w) m) as [ct ->].
  { rewrite Hm. subst w. consts. lia. }
  destruct (N.eqb_spec (off + w) n) as [Hfin|Hfin]; cbn [N.eqb Pos.eqb]; [lia|].
  subst w. rewrite !wadd64_small by (consts; lia).
  rewrite IH; [done|done|done|consts; lia..].
Qed.

Lemma encrypt_fuel_enough n : N.to_nat (nchunks n) ≤ encrypt_fuel n.
Proof.
  unfold encrypt_fuel. destruct (nchunks_bounds n) as (_ & _ & Hb & Hb'). consts.
  pose proof (N.div_mod n 65536 ltac:(lia)).
  pose proof (N.mod_upper_bound n 65536 ltac:(lia)).
  set (q := (n / 65536)%N) in *. set (x := (n mod 65536)%N) in *. clearbody q x. lia.
Qed.

(** The container of plaintext [p]. *)
Definition container (key : bytes) (r : rng) (p file : bytes) : Prop :=
  let n := N.of_nat (length p) in
  ∃ wrapped out,
    file = header_bytes (wrap_aad n (rng_file_id r)) (rng_wrap_nonce r) wrapped ++ out ∧
    aead_enc key (rng_wrap_nonce r) (wrap_aad n (rng_file_id r)) (rng_file_key r) = Some wrapped ∧
    (N.of_nat (length out) = n + nchunks n * CHUNK_OVERHEAD)%N ∧
    ∀ j, (j < nchunks n)%N → holds_chunk (rng_file_key r) (rng_file_id r) 0 p out j.

Lemma encrypt_result key r input n :
  wf_rng r → length key = 32 → (n < u64_bound)%N →
  (n = N.of_nat (length input) ∧
     ∃ file, encrypt (encrypt_fuel n) key r input n = Some (Ok file) ∧ container key r input file)
  ∨ ((n < N.of_nat (length input))%N ∧ encrypt (encrypt_fuel n) key r input n = Some (Err EGrew))
  ∨ ((N.of_nat (length input) < n)%N ∧ encrypt (encrypt_fuel n) key r input n = Some (Err EEof)).
Proof.
  intros Hr Hk Hn. unfold encrypt. rewrite aead_new_32 by done. cbn [negb].
  destruct (aead_enc_some key (rng_wrap_nonce r) (wrap_aad n (rng_file_id r)) (rng_file_key r))
    as [wrapped Hw].
  { rewrite (rng_key_32 _ Hr). done. }
  rewrite Hw, aead_new_32 by apply Hr. cbn [negb].
  pose proof (encrypt_fuel_enough n) as Hf.
  destruct (N.lt_ge_cases (N.of_nat (length input)) n) as [Hlt|Hge].
  { right; right. split; [done|]. rewrite encrypt_chunks_short; try done; consts; lia. }
  set (p := take (N.to_nat n) input). set (extra := drop (N.to_nat n) input).
  assert (Hp : N.of_nat (length p) = n) by (unfold p; rewrite length_take; lia).
  destruct (nchunks_bounds n) as (_ & Hb & _ & _).
  destruct (encrypt_chunks_spec r p extra (encrypt_fuel n) 0 Hr) as (out & He & Hol & Hch).
  { rewrite Hp. done. } { rewrite Hp. lia. } { rewrite Hp. lia. }
  rewrite N.mul_0_l, drop_0, Hp in He. rewrite Hp in Hol, Hch.
  unfold p, extra in He. rewrite take_drop in He. rewrite He. cbn [mbind option_bind result_bind].
  destruct (decide (extra = [])) as [Hx|Hx].
  - left. assert (n = N.of_nat (length input)) as Hn'.
    { apply (f_equal length) in Hx. unfold extra in Hx. rewrite length_drop in Hx. cbn in Hx. lia. }
    split; [done|]. fold extra. rewrite Hx. cbn [bool_decide ensure]. eexists. split; [done|].
    assert (p = input) as Hpi by (unfold p; rewrite take_ge; [done|lia]).
    exists wrapped, out. rewrite <- Hn'. repeat split; [done|consts; lia|].
    intros j Hj. destruct (Hch j ltac:(lia)) as (nonce & ct & _ & H1 & H2 & H3).
    exists nonce, ct. rewrite N.sub_0_r in H1, H2. rewrite N.add_0_l.
    rewrite <- Hn', <- Hpi. done.
  - right; left. split.
    + assert (length extra ≠ 0) by (destruct extra; done). unfold extra in *.
      rewrite length_drop in *. lia.
    + fold extra. rewrite bool_decide_false by done. done.
Qed.

(** ** Opening and reading back *)

Lemma header_bytes_parts n fid nonce wrapped b :
  length fid = 16 → length nonce = 12 → length wrapped = 48 → (n < u64_bound)%N →
  b = header_bytes (wrap_aad n fid) nonce wrapped →
  length b = 128 ∧ take 4 b = MAGIC ∧ nth 4 b 0%N = VERSION ∧ nth 5 b 0%N = 0%N ∧
  be_value (slice 6 2 b) = HEADER_LEN ∧ forallb (λ x, x =? 0)%N (drop 96 b) = true ∧
  be_value (slice 8 4 b) = CHUNK_LEN ∧ be_value (slice 12 8 b) = n ∧
  slice 20 16 b = fid ∧ slice 36 12 b = nonce ∧ slice 48 48 b = wrapped ∧
  slice 0 36 b = wrap_aad n fid.
Proof.
  intros Hf Hn Hw Hlt ->.
  assert (Ha : length (wrap_aad n fid) = 36) by (unfold wrap_aad; rewrite !length_app, Hf; done).
  assert (Hb : length (header_bytes (wrap_aad n fid) nonce wrapped) = 128).
  { unfold header_bytes. rewrite !length_app, Ha, Hn, Hw. done. }
  assert (H1 : ∃ tl, header_bytes (wrap_aad n fid) nonce wrapped
    = (MAGIC ++ [VERSION; 0%N] ++ be_bytes 2 HEADER_LEN ++ be_bytes 4 CHUNK_LEN)
      ++ be_bytes 8 n ++ fid ++ tl).
  { eexists. unfold header_bytes, wrap_aad. rewrite <- !app_assoc. done. }
  assert (H2 : drop 96 (header_bytes (wrap_aad n fid) nonce wrapped) = replicate 32 0%N).
  { unfold header_bytes. rewrite !app_assoc. apply drop_app_length'.
    rewrite !length_app. lia. }
  destruct H1 as [tl Hh]. rewrite H2.
  split_and!; try done; try (rewrite Hh; done).
  - transitivity (be_value (be_bytes 8 n)); [done|by apply be_value_bytes_small].
  - rewrite Hh, app_assoc. set (pre := _ ++ be_bytes 8 n).
    change 20%N with (N.of_nat (length pre)). apply slice_mid. by rewrite Hf.
  - unfold header_bytes. rewrite slice_app_r by lia. rewrite Ha. cbn [N.sub].
    rewrite slice_app_l by lia. apply slice_all. lia.
  - unfold header_bytes. rewrite app_assoc, slice_app_r by (rewrite length_app; lia).
    rewrite length_app, Ha, Hn. change (48 - N.of_nat (36 + 12))%N with 0%N.
    rewrite slice_app_l by lia. apply slice_all. lia.
  - unfold header_bytes. rewrite slice_app_l by lia. apply slice_all. lia.
Qed.

(** The container's length fits in the [u64] arithmetic of [open]. *)
Definition fits (n : N) : Prop := (128 + n + nchunks n * 28 < u64_bound)%N.

Lemma expected_len_fits n :
  fits n → expected_len n CHUNK_LEN = Some (128 + n + nchunks n * 28)%N.
Proof.
  intros Hf. unfold fits, expected_len, checked_add64, checked_mul64 in *.
  fold (nchunks n). consts.
  destruct (N.ltb_spec (128 + n) u64_bound); [|lia]. cbn [mbind option_bind].
  destruct (N.ltb_spec (nchunks n * 28) u64_bound); [|lia]. cbn [mbind option_bind].
  by destruct (N.ltb_spec (128 + n + nchunks n * 28) u64_bound); [|lia].
Qed.

(** An open reader over a container of [p], at any position. *)
Definition reader_at (p file fid fk : bytes) (pos : N) : reader :=
  let n := N.of_nat (length p) in
  Reader file n pos (Some (Header CHUNK_LEN n fid fk)).

Definition layout (p file fid fk : bytes) : Prop :=
  let n := N.of_nat (length p) in
  length fk = 32 ∧ fits n ∧ ∀ j, (j < nchunks n)%N → holds_chunk fk fid 128 p file j.

Lemma open_container key r p file :
  wf_rng r → length key = 32 → fits (N.of_nat (length p)) → container key r p file →
  open file (Some key) = Ok (reader_at p file (rng_file_id r) (rng_file_key r) 0)
  ∧ layout p file (rng_file_id r) (rng_file_key r).
Proof.
  intros Hr Hk Hfit (wrapped & out & -> & Hw & Hout & Hch).
  set (n := N.of_nat (length p)) in *.
  assert (Hn : (n < u64_bound)%N) by (unfold fits in Hfit; lia).
  pose proof (aead_enc_length _ _ _ _ _ Hw) as Hwl. rewrite (rng_key_32 _ Hr) in Hwl.
  set (b := header_bytes _ _ wrapped) in *.
  destruct (header_bytes_parts n (rng_file_id r) (rng_wrap_nonce r) wrapped b
    (rng_id_16 _ Hr) (rng_wrap_12 _ Hr) Hwl Hn eq_refl)
    as (Hlen & Hm & Hv & Hfl & Hhl & Hres & Hcl & Hpl & Hid & Hno & Hwr & Haad).
  split.
  - unfold open, from_reader.
    assert (take 4 (b ++ out) = MAGIC) as Ht by (rewrite take_app_le; [done|lia]).
    rewrite bool_decide_false by (by intros ?). cbn [ok_or mbind result_bind].
    rewrite read_exact_app' by (by rewrite Hlen). cbn [mbind result_bind].
    rewrite Hv, Hfl, Hhl, Hres, Hcl, Hpl, Hid, Hno, Hwr, Haad, aead_new_32 by done.
    cbn [N.eqb Pos.eqb ensure mbind result_bind]. rewrite !N.eqb_refl. cbn [ensure mbind result_bind].
    rewrite (aead_dec_enc _ _ _ _ _ Hw). cbn [ok_or mbind result_bind].
    rewrite (rng_key_32 _ Hr). cbn [ensure mbind result_bind N.eqb Pos.eqb N.of_nat].
    rewrite expected_len_fits by done. cbn [ok_or mbind result_bind].
    rewrite length_app, Hlen. destruct (N.eqb_spec (N.of_nat (128 + length out))
      (128 + n + nchunks n * 28)%N) as [|Hne]; [done|].
    exfalso. apply Hne. consts. lia.
  - split; [apply Hr|]. split; [done|]. intros j Hj.
    apply holds_chunk_shift; [by rewrite Hlen|]. by apply Hch.
Qed.

Lemma chunk_index_bounds n pos :
  (pos < n)%N →
  let i := (pos / CHUNK_LEN)%N in
  (i < nchunks n ∧ i * CHUNK_LEN ≤ pos ∧ pos mod CHUNK_LEN = pos - i * CHUNK_LEN
   ∧ pos - i * CHUNK_LEN < chunk_size n i ∧ i * CHUNK_LEN + chunk_size n i ≤ n
   ∧ N.min (n - i * CHUNK_LEN) CHUNK_LEN = chunk_size n i)%N.
Proof.
  intros Hp i. subst i. destruct (nchunks_bounds n) as (Hb1 & Hb2 & Hb3 & Hb4).
  unfold chunk_size. consts.
  pose proof (N.div_mod pos 65536 ltac:(lia)).
  pose proof (N.mod_upper_bound pos 65536 ltac:(lia)).
  set (q := (pos / 65536)%N) in *. set (x := (pos mod 65536)%N) in *. clearbody q x.
  repeat split; lia.
Qed.

Lemma disk_offset_small n i :
  fits n → (i < nchunks n)%N →
  ((HEADER_LEN + i * (CHUNK_LEN + CHUNK_OVERHEAD)) mod u64_bound
   = HEADER_LEN + i * (CHUNK_LEN + CHUNK_OVERHEAD))%N.
Proof.
  intros Hf Hi. apply N.mod_small. unfold fits in Hf.
  destruct (nchunks_bounds n) as (Hb1 & Hb2 & Hb3 & Hb4). consts. lia.
Qed.

Lemma read_chunk_at p file fid fk pos :
  layout p file fid fk → (pos < N.of_nat (length p))%N →
  let r := reader_at p file fid fk pos in
  let i := (pos / CHUNK_LEN)%N in
  let n := N.of_nat (length p) in
  read_chunk r (Header CHUNK_LEN n fid fk)
  = Ok (slice (i * CHUNK_LEN) (chunk_size n i) p, (pos - i * CHUNK_LEN)%N).
Proof.
  intros (Hk & Hfit & Hch) Hpos r i n.
  destruct (chunk_index_bounds n pos Hpos) as (Hi & _ & Hmod & _ & _ & Hmin).
  destruct (Hch _ Hi) as (nonce & ct & H1 & H2 & H3).
  unfold read_chunk, r, reader_at. cbn [r_position r_len r_file h_chunk_len h_file_id h_file_key h_plaintext_len].
  fold n. fold i in Hi, H1, H2, H3, Hmin, Hmod. fold i. fold n in H2, H3.
  rewrite (disk_offset_small n) by done. rewrite Hmin, Hmod.
  fold (chunk_final n i).
  change HEADER_LEN with 128%N. rewrite H1. cbn [mbind result_bind]. rewrite H2. cbn [mbind result_bind].
  rewrite (aead_dec_enc _ _ _ _ _ H3). done.
Qed.

Lemma read_loop_at p file fid fk want fuel : ∀ pos acc,
  layout p file fid fk → (pos ≤ N.of_nat (length p))%N →
  (N.of_nat (length acc) ≤ want)%N → N.to_nat (want - N.of_nat (length acc)) < fuel →
  let n := N.of_nat (length p) in
  let k := N.min (want - N.of_nat (length acc)) (n - pos) in
  read_loop fuel (reader_at p file fid fk pos) (Header CHUNK_LEN n fid fk) want acc
  = Some (Ok (acc ++ slice pos k p), reader_at p file fid fk (pos + k)).
Proof.
  induction fuel as [|fuel IH]; intros pos acc Hl Hpos Hacc Hf n k; [lia|]. cbn [read_loop].
  cbn [reader_at r_position r_len].
  destruct (N.ltb_spec (N.of_nat (length acc)) want) as [Hlt|Hge]; cbn [andb].
  2: { assert (k = 0%N) as -> by lia. rewrite N.add_0_r. unfold slice.
       rewrite take_0, app_nil_r. done. }
  fold n. destruct (N.ltb_spec pos n) as [Hpn|Hpn].
  2: { assert (k = 0%N) as -> by lia. rewrite N.add_0_r. unfold slice.
       rewrite take_0, app_nil_r. done. }
  fold (reader_at p file fid fk pos).
  destruct (chunk_index_bounds n pos Hpn) as (Hi & Hle & Hmod & Hin & Hend & Hmin).
  rewrite read_chunk_at by done. fold n. set (i := (pos / CHUNK_LEN)%N) in *.
  cbn [reader_at r_position r_len r_file r_encrypted h_chunk_len]. fold n.
  replace (pos - (pos - i * CHUNK_LEN))%N with (i * CHUNK_LEN)%N by lia. rewrite Hmin.
  set (within := (pos - i * CHUNK_LEN)%N). set (w := N.min (chunk_size n i - within) _).
  rewrite slice_slice by lia. replace (i * CHUNK_LEN + within)%N with pos by lia.
  assert (Hwl : N.of_nat (length (slice pos w p)) = w) by (apply length_slice; unfold n in *; lia).
  change (Reader file n (pos + w) (Some (Header CHUNK_LEN n fid fk)))
    with (reader_at p file fid fk (pos + w)).
  specialize (IH (pos + w)%N (acc ++ slice pos w p) Hl). cbn zeta in IH. fold n in IH.
  rewrite length_app in IH. rewrite IH by lia.
  rewrite <- app_assoc. fold n.
  set (k' := N.min (want - N.of_nat (length acc + length (slice pos w p))) (n - (pos + w))).
  rewrite <- slice_add.
  assert (k = w + k')%N as -> by lia. by rewrite N.add_assoc.
Qed.

Lemma seek_start r start :
  (start ≤ r_len r)%N →
  seek r (SeekStart start) = (Ok start, Reader (r_file r) (r_len r) start (r_encrypted r)).
Proof.
  intros H. unfold seek. cbn zeta.
  destruct (Z.leb_spec 0 (Z.of_N start)); [|lia].
  destruct (Z.leb_spec (Z.of_N start) (Z.of_N (r_len r))); [|lia].
  cbn [andb]. by rewrite N2Z.id.
Qed.

(** One call of [read] at [start] with a buffer that ends inside the plaintext. *)
Lemma read_at p file fid fk start len fuel :
  layout p file fid fk → (start + len ≤ N.of_nat (length p))%N → (0 < len)%N →
  N.to_nat len < fuel →
  read fuel (reader_at p file fid fk start) len
  = Some (Ok (slice start len p), reader_at p file fid fk (start + len)).
Proof.
  intros Hl Hr Hpos Hf. unfold read. cbn [reader_at r_position r_len r_encrypted h_file_key].
  destruct (N.eqb_spec len 0); [lia|]. destruct (N.eqb_spec start (N.of_nat (length p))); [lia|].
  cbn [orb]. pose proof Hl as (Hk & _ & _). rewrite aead_new_32 by done. cbn [negb].
  pose proof (read_loop_at p file fid fk len fuel start [] Hl) as H. cbn [length N.of_nat app] in H.
  rewrite N.sub_0_r in H. rewrite N.min_l in H by lia. apply H; lia.
Qed.

(** Reading anywhere in the plaintext. *)
Lemma read_range_at p file fid fk pos start len :
  layout p file fid fk → (start + len ≤ N.of_nat (length p))%N →
  read_range (S (S (N.to_nat len))) (reader_at p file fid fk pos) start len
  = Some (Ok (slice start len p)).
Proof.
  intros Hl Hr. unfold read_range. cbn [reader_at r_len].
  destruct (N.leb_spec start (N.of_nat (length p))); [|lia].
  destruct (N.leb_spec len (N.of_nat (length p) - start)); [|lia]. cbn [negb].
  rewrite seek_start by done. cbn [reader_at r_len r_file r_encrypted].
  change (Reader file _ start _) with (reader_at p file fid fk start).
  remember (S (N.to_nat len)) as m eqn:Hm. cbn [reader_read_exact length].
  change (N.of_nat 0) with 0%N.
  destruct (N.leb_spec len 0) as [|Hpos].
  { assert (len = 0%N) as -> by lia. unfold slice. by rewrite take_0. }
  rewrite N.sub_0_r, (read_at p file fid fk start len (S m) Hl) by lia.
  assert (Hwl : N.of_nat (length (slice start len p)) = len) by (apply length_slice; lia).
  destruct (slice start len p) as [|b l] eqn:Hs; [cbn in Hwl; lia|].
  rewrite Hm. cbn [reader_read_exact app]. rewrite Hwl. destruct (N.leb_spec len len); [done|lia].
Qed.

(** ** A stored file that was tampered with *)

Lemma chunk_aad_inj fid i f n m i' f' n' m' :
  (i < u64_bound)%N → (i' < u64_bound)%N → (n < u64_bound)%N → (n' < u64_bound)%N →
  (m < u32_bound)%N → (m' < u32_bound)%N →
  chunk_aad fid i f n m = chunk_aad fid i' f' n' m' → i = i' ∧ f = f' ∧ n = n' ∧ m = m'.
Proof.
  intros Hi Hi' Hn Hn' Hm Hm' Heq. unfold chunk_aad in Heq. apply app_inv_head in Heq.
  apply app_inj_1 in Heq as [H1 Heq]; [|by rewrite !length_be_bytes].
  apply app_inj_1 in Heq as [Hf Heq]; [|done].
  apply app_inj_1 in Heq as [H2 H3]; [|by rewrite !length_be_bytes].
  apply be_bytes_inj in H1, H2, H3; [|done..]. injection Hf as Hf. done.
Qed.

(** What holders of the attachment key wrote: the plaintexts with the random
    values each was encrypted with.  [file] is unforged when every piece of it
    that authenticates, under the attachment key or under the file key of one
    of them, was made by [encrypt]. *)
Record unforged (key : bytes) (made : list (rng * bytes)) (file : bytes) : Prop := {
  unforged_header : ∀ off1 len1 off2 len2 off3 len3 nonce aad ct m,
    pread file off1 len1 = Ok nonce → pread file off2 len2 = Ok aad →
    pread file off3 len3 = Ok ct → aead_dec key nonce aad ct = Some m →
    ∃ r p, (r, p) ∈ made ∧ aad = wrap_aad (N.of_nat (length p)) (rng_file_id r) ∧
      m = rng_file_key r;
  unforged_chunk : ∀ r p off1 len1 off2 len2 nonce ct aad m,
    let n := N.of_nat (length p) in
    (r, p) ∈ made →
    pread file off1 len1 = Ok nonce → pread file off2 len2 = Ok ct →
    aead_dec (rng_file_key r) nonce aad ct = Some m →
    ∃ j, (j < nchunks n)%N ∧
      aad = chunk_aad (rng_file_id r) j (chunk_final n j) n (chunk_size n j) ∧
      aead_enc (rng_file_key r) nonce aad (slice (j * CHUNK_LEN) (chunk_size n j) p) = Some ct;
}.

Section Tampered.
Context (key : bytes) (made : list (rng * bytes)) (r : rng) (p file : bytes).
Hypothesis Hfit : fits (N.of_nat (length p)).
Hypothesis Hunf : unforged key made file.
Hypothesis Hmade : (r, p) ∈ made.
Local Abbreviation n := (N.of_nat (length p)).
Local Abbreviation rd := (reader_at p file (rng_file_id r) (rng_file_key r)).
Local Abbreviation hd := (Header CHUNK_LEN n (rng_file_id r) (rng_file_key r)).

Lemma tampered_chunk pos m w :
  (pos < n)%N → read_chunk (rd pos) hd = Ok (m, w) →
  let i := (pos / CHUNK_LEN)%N in
  m = slice (i * CHUNK_LEN) (chunk_size n i) p ∧ w = (pos - i * CHUNK_LEN)%N.
Proof.
  intros Hpos Hc i. destruct (chunk_index_bounds n pos Hpos) as (Hi & _ & Hmod & _ & _ & Hmin).
  fold i in Hi, Hmod, Hmin. unfold read_chunk in Hc.
  cbn [reader_at r_position r_len r_file h_chunk_len h_file_id h_file_key h_plaintext_len] in Hc.
  fold i in Hc. rewrite Hmin, Hmod in Hc. fold (chunk_final n i) in Hc.
  apply bind_ok in Hc as (nonce & Hno & Hc). apply bind_ok in Hc as (ct & Hct & Hc).
  apply bind_ok in Hc as (pl & Hdec%ok_or_ok & [= <- <-]). split; [|done].
  destruct (unforged_chunk _ _ _ Hunf _ _ _ _ _ _ _ _ _ _ Hmade Hno Hct Hdec) as (j & Hj & Haad & Henc).
  destruct (nchunks_bounds n) as (Hb1 & Hb2 & Hb3 & Hb4). unfold fits in Hfit.
  apply chunk_aad_inj in Haad as (<- & _); [|unfold chunk_size; consts; lia..].
  apply aead_dec_enc in Henc. congruence.
Qed.

Lemma tampered_loop want fuel : ∀ pos acc b r',
  (pos ≤ n)%N → (N.of_nat (length acc) ≤ want)%N →
  read_loop fuel (rd pos) hd want acc = Some (Ok b, r') →
  let k := N.min (want - N.of_nat (length acc)) (n - pos) in
  b = acc ++ slice pos k p ∧ r' = rd (pos + k)%N.
Proof.
  induction fuel as [|fuel IH]; intros pos acc b r' Hpos Hacc Hr k; [done|].
  cbn [read_loop] in Hr. cbn [reader_at r_position r_len] in Hr.
  assert (Hstop : k = 0%N → Some (Ok (E:=att_error) acc, rd pos) = Some (Ok b, r') →
    b = acc ++ slice pos k p ∧ r' = rd (pos + k)%N).
  { intros ->. intros [= <- <-]. rewrite N.add_0_r. unfold slice. by rewrite take_0, app_nil_r. }
  destruct (N.ltb_spec (N.of_nat (length acc)) want) as [Hlt|Hge]; cbn [andb] in Hr;
    [|apply Hstop; [lia|done]].
  destruct (N.ltb_spec pos n) as [Hpn|Hpn]; [|apply Hstop; [lia|done]].
  change (Reader file n pos _) with (rd pos) in Hr.
  destruct (read_chunk (rd pos) hd) as [[m w]|e] eqn:Hc; [|done].
  destruct (tampered_chunk pos m w Hpn Hc) as [-> ->].
  destruct (chunk_index_bounds n pos Hpn) as (Hi & Hle & Hmod & Hin & Hend & Hmin).
  set (i := (pos / CHUNK_LEN)%N) in *.
  cbn [reader_at r_position r_len r_file r_encrypted h_chunk_len] in Hr.
  replace (pos - (pos - i * CHUNK_LEN))%N with (i * CHUNK_LEN)%N in Hr by lia.
  rewrite Hmin in Hr.
  set (within := (pos - i * CHUNK_LEN)%N) in *. set (w := N.min (chunk_size n i - within) _) in Hr.
  rewrite slice_slice in Hr by lia. replace (i * CHUNK_LEN + within)%N with pos in Hr by lia.
  assert (Hwl : N.of_nat (length (slice pos w p)) = w) by (apply length_slice; lia).
  change (Reader file n (pos + w) _) with (rd (pos + w)%N) in Hr.
  apply IH in Hr; [|lia|rewrite length_app; lia]. cbn zeta in Hr. rewrite length_app in Hr.
  set (k' := N.min (want - N.of_nat (length acc + length (slice pos w p))) (n - (pos + w))) in Hr.
  assert (k = w + k')%N as -> by lia. destruct Hr as [-> ->].
  by rewrite slice_add, app_assoc, N.add_assoc.
Qed.

Lemma tampered_read_exact want fuel : ∀ pos acc b,
  (pos ≤ n)%N → (N.of_nat (length acc) ≤ want)%N → (want - N.of_nat (length acc) ≤ n - pos)%N →
  reader_read_exact fuel (rd pos) want acc = Some (Ok b) →
  b = acc ++ slice pos (want - N.of_nat (length acc)) p.
Proof.
  induction fuel as [|fuel IH]; intros pos acc b Hpos Hacc Hend Hr; [done|].
  cbn [reader_read_exact] in Hr. destruct (N.leb_spec want (N.of_nat (length acc))) as [Hle|Hgt].
  { injection Hr as <-. replace (want - _)%N with 0%N by lia.
    unfold slice. by rewrite take_0, app_nil_r. }
  destruct (read (S fuel) (rd pos) _) as [[[[|x out]|e] r']|] eqn:Hrd; try done.
  unfold read in Hrd. cbn [reader_at r_position r_len r_encrypted h_file_key] in Hrd.
  destruct (_ || _); [done|]. destruct (negb _); [done|].
  change (Reader file n pos _) with (rd pos) in Hrd.
  apply tampered_loop in Hrd as [Hout ->]; [|done|cbn; lia].
  cbn [length N.of_nat app] in Hout. rewrite N.sub_0_r in Hout.
  rewrite (N.min_l (want - _)) in Hout by lia. rewrite N.sub_0_r, N.min_l in Hr by lia.
  rewrite Hout in Hr. set (k := (want - N.of_nat (length acc))%N) in *.
  assert (Hwl : N.of_nat (length (slice pos k p)) = k) by (apply length_slice; lia).
  apply IH in Hr; [|lia|rewrite length_app; lia|rewrite length_app; lia].
  rewrite length_app in Hr. replace (want - _)%N with 0%N in Hr by lia.
  rewrite Hr. unfold slice at 2. by rewrite take_0, app_nil_r.
Qed.

Lemma tampered_read_range pos start len fuel b :
  read_range fuel (rd pos) start len = Some (Ok b) →
  (start + len ≤ n)%N ∧ b = slice start len p.
Proof.
  unfold read_range. cbn [reader_at r_len]. intros Hr.
  destruct (N.leb_spec start n); [|done]. cbn [negb] in Hr.
  destruct (N.leb_spec len (n - start)); [|done]. cbn [negb] in Hr.
  rewrite seek_start in Hr by done. cbn [reader_at r_len r_file r_encrypted] in Hr.
  change (Reader file n start _) with (rd start) in Hr.
  apply tampered_read_exact in Hr; [|cbn; lia..]. cbn [length N.of_nat app] in Hr.
  rewrite N.sub_0_r in Hr. split; [lia|done].
Qed.

End Tampered.

Lemma wrap_aad_inj n fid n' fid' :
  (n < u64_bound)%N → (n' < u64_bound)%N →
  wrap_aad n fid = wrap_aad n' fid' → n = n' ∧ fid = fid'.
Proof.
  intros Hn Hn' Heq. unfold wrap_aad in Heq. do 4 apply app_inv_head in Heq.
  apply app_inj_1 in Heq as [H1 H2]; [|by rewrite !length_be_bytes].
  split; [by eapply (be_bytes_inj 8)|done].
Qed.

Lemma wrap_aad_parts n fid l b :
  (n < u64_bound)%N → length fid = 16 → slice 0 36 b = wrap_aad n fid → l = slice 12 8 b →
  be_value l = n ∧ slice 20 16 b = fid.
Proof.
  intros Hn Hf Hb ->.
  replace (slice 12 8 b) with (slice 12 8 (slice 0 36 b)) by (rewrite slice_slice by lia; done).
  replace (slice 20 16 b) with (slice 20 16 (slice 0 36 b)) by (rewrite slice_slice by lia; done).
  rewrite Hb. split.
  - unfold wrap_aad. transitivity (be_value (be_bytes 8 n)); [done|].
    by apply be_value_bytes_small.
  - unfold wrap_aad. rewrite !app_assoc, slice_app_r by done. by apply slice_all; rewrite Hf.
Qed.

(** An encrypted file that opens: its header, and its exact length. *)
Lemma open_ok file key rd :
  open file key = Ok rd →
  (take 4 file ≠ MAGIC ∧ rd = Reader file (N.of_nat (length file)) 0 None) ∨
  ∃ k b fk n, key = Some k ∧ take 4 file = MAGIC ∧ b = slice 0 HEADER_LEN file ∧
    (HEADER_LEN ≤ N.of_nat (length file))%N ∧
    aead_dec k (slice 36 12 b) (slice 0 36 b) (slice 48 48 b) = Some fk ∧ length fk = 32 ∧
    n = be_value (slice 12 8 b) ∧ N.of_nat (length file) = (128 + n + nchunks n * 28)%N ∧
    fits n ∧ rd = Reader file n 0 (Some (Header CHUNK_LEN n (slice 20 16 b) fk)).
Proof.
  unfold open, from_reader. case_bool_decide as Hm.
  { intros [= <-]. by left. }
  intros H. right.
  apply bind_ok in H as (k & Hk%ok_or_ok & H). apply bind_ok in H as ([b rest] & Hb & H).
  apply read_exact_ok in Hb as [Hfile Hbl].
  do 4 (apply bind_ok in H as ([] & _ & H)). apply bind_ok in H as ([] & Hc%ensure_ok & H).
  apply N.eqb_eq in Hc. rewrite Hc in H. apply bind_ok in H as ([] & _ & H).
  apply bind_ok in H as (fk & Hfk%ok_or_ok & H). apply bind_ok in H as ([] & Hl%ensure_ok & H).
  apply bind_ok in H as (want & Hw%ok_or_ok & H). apply bind_ok in H as ([] & He%ensure_ok & H).
  apply N.eqb_eq in He, Hl. injection H as <-.
  set (n := be_value (slice 12 8 b)) in *.
  assert (Hb : b = slice 0 HEADER_LEN file).
  { rewrite Hfile, slice_app_l, slice_all by lia. done. }
  assert (want = (128 + n + nchunks n * 28)%N ∧ fits n) as [-> Hf].
  { unfold expected_len, checked_add64, checked_mul64, fits in *. fold (nchunks n) in Hw. consts.
    destruct (N.ltb_spec (128 + n) u64_bound); [|done]. cbn [mbind option_bind] in Hw.
    destruct (N.ltb_spec (nchunks n * 28) u64_bound); [|done]. cbn [mbind option_bind] in Hw.
    destruct (N.ltb_spec (128 + n + nchunks n * 28) u64_bound); [|done].
    split; congruence. }
  exists k, b, fk, n. split_and!; try done; [|lia].
  apply (f_equal length) in Hfile. rewrite length_app in Hfile. lia.
Qed.

(** ** The properties *)

(** [C37] Encrypting an attachment and opening the result with the same key
    succeeds, and every range of the plaintext can be read back exactly; a
    range that leaves the plaintext is refused. *)
Theorem attachment_roundtrip key r p :
  wf_rng r → length key = 32 → fits (N.of_nat (length p)) →
  let n := N.of_nat (length p) in
  ∃ file rd,
    encrypt (encrypt_fuel n) key r p n = Some (Ok file) ∧
    is_encrypted file = true ∧ open file (Some key) = Ok rd ∧ r_len rd = n ∧
    ∀ start len,
      read_range (S (S (N.to_nat len))) rd start len
      = Some (if (start + len <=? n)%N then Ok (slice start len p)
              else Err (if (start <=? n)%N then ERange else EPastEof)).
Proof.
  intros Hr Hk Hf n. assert (n < u64_bound)%N by (unfold fits in Hf; lia).
  destruct (encrypt_result key r p n Hr Hk ltac:(done)) as [(_ & file & He & Hc)|[[? _]|[? _]]];
    [|lia..].
  destruct (open_container key r p file Hr Hk Hf Hc) as [Ho Hl].
  exists file, (reader_at p file (rng_file_id r) (rng_file_key r) 0).
  split_and!; [done| |done..|].
  { destruct Hc as (w & out & -> & _). by apply bool_decide_eq_true. }
  intros start len. destruct (N.leb_spec (start + len) n).
  { by apply read_range_at. }
  unfold read_range. cbn [reader_at r_len]. fold n.
  destruct (N.leb_spec start n); cbn [negb]; [|done].
  by destruct (N.leb_spec len (n - start)); [lia|].
Qed.

(** [encrypt] checks the announced length against the input: it succeeds
    exactly when they agree, reports a file that grew when there is more input,
    and an early end of file when there is less; it always returns. *)
Theorem encrypt_checks_length key r input n :
  wf_rng r → length key = 32 → (n < u64_bound)%N →
  match (n ?= N.of_nat (length input))%N with
  | Lt => encrypt (encrypt_fuel n) key r input n = Some (Err EGrew)
  | Gt => encrypt (encrypt_fuel n) key r input n = Some (Err EEof)
  | Eq => ∃ file, encrypt (encrypt_fuel n) key r input n = Some (Ok file) ∧
      N.of_nat (length file) = (HEADER_LEN + n + nchunks n * CHUNK_OVERHEAD)%N
  end.
Proof.
  intros Hr Hk Hn.
  destruct (encrypt_result key r input n Hr Hk Hn) as [(Heq & file & He & Hc)|[[Hl He]|[Hl He]]].
  - rewrite <- Heq, N.compare_refl. exists file. split; [done|].
    destruct Hc as (w & out & -> & Hw & Hol & _).
    pose proof (aead_enc_length _ _ _ _ _ Hw) as Hwl. rewrite (rng_key_32 _ Hr) in Hwl.
    unfold header_bytes, wrap_aad. rewrite !length_app, Hwl, (rng_id_16 _ Hr), (rng_wrap_12 _ Hr).
    rewrite <- Heq in Hol. rewrite !length_be_bytes, length_replicate. cbn [length MAGIC]. consts. lia.
  - destruct (N.compare_spec n (N.of_nat (length input))); [lia|done|lia].
  - destruct (N.compare_spec n (N.of_nat (length input))); [lia..|done].
Qed.

(** A file without the magic is read as it is, whatever the key. *)
Lemma open_plain file key : is_encrypted file = false →
  ∃ rd, open file key = Ok rd ∧ r_len rd = N.of_nat (length file) ∧
    ∀ start len, (start + len ≤ N.of_nat (length file))%N → read_range 2 rd start len = Some (Ok (slice start len file)).
Proof.
  intros Hm%bool_decide_eq_false. eexists. unfold open, from_reader.
  rewrite bool_decide_true by done. split; [done|]. split; [done|]. intros start len Hl.
  unfold read_range. cbn [r_len]. destruct (N.leb_spec start (N.of_nat (length file))); [|lia].
  destruct (N.leb_spec len (N.of_nat (length file) - start)); [|lia]. cbn [negb].
  rewrite seek_start by done. cbn [r_file r_len r_encrypted reader_read_exact length].
  destruct (N.leb_spec len 0) as [Hz|Hz].
  { change (N.of_nat 0) with 0%N. assert (len = 0%N) as -> by lia. unfold slice. by rewrite take_0. }
  change (N.of_nat 0) with 0%N. destruct (N.leb_spec len 0); [lia|].
  rewrite N.sub_0_r. unfold read. cbn [r_position r_len r_encrypted r_file].
  destruct (N.eqb_spec len 0); [lia|]. destruct (N.eqb_spec start (N.of_nat (length file))); [lia|].
  cbn [orb]. pose proof (length_slice start len file Hl) as Hs.
  destruct (slice start len file) eqn:Heq; [cbn in Hs; lia|]. cbn [app].
  rewrite Hs. by destruct (N.leb_spec len len); [|lia].
Qed.

(** [C4] A stored file that someone without the keys altered, truncated, spliced or
    replaced, and that still has the magic of a container, yields no wrong plaintext:
    if it opens, its first 36 bytes are those of a container made under the key, and
    every read returns the bytes of the attachment that was written there, at that
    place, or fails.  A file whose magic was taken away opens as plain bytes, and
    reads as what it is. *)
Theorem tampering_detected key made file rd :
  unforged key made file →
  (∀ r p, (r, p) ∈ made → wf_rng r ∧ (N.of_nat (length p) < u64_bound)%N) →
  open file (Some key) = Ok rd →
  if is_encrypted file then
    ∃ r p, (r, p) ∈ made ∧ (∀ original, container key r p original → take 36 file = take 36 original) ∧
      r_len rd = N.of_nat (length p) ∧
      ∀ fuel start len b, read_range fuel rd start len = Some (Ok b) →
        (start + len ≤ N.of_nat (length p))%N ∧ b = slice start len p
  else
    r_len rd = N.of_nat (length file) ∧
    ∀ start len, (start + len ≤ N.of_nat (length file))%N → read_range 2 rd start len = Some (Ok (slice start len file)).
Proof.
  intros Hunf Hwf Hopen. destruct (is_encrypted file) eqn:Henc.
  2: { destruct (open_plain file (Some key) Henc) as (rd' & Ho & H). rewrite Hopen in Ho. by injection Ho as ->. }
  apply bool_decide_eq_true in Henc.
  destruct (open_ok _ _ _ Hopen) as [[? _]|
    (k & b & fk & n & [= <-] & Hm & Hb & Hlen & Hdec & Hfk & Hn & Hfl & Hfit & ->)]; [done|].
  assert (Hp : ∀ off m, (off + m ≤ HEADER_LEN)%N → pread file off m = Ok (slice off m b)).
  { intros off m Hle. rewrite pread_slice by lia. rewrite Hb, slice_slice by lia. done. }
  destruct (unforged_header _ _ _ Hunf _ _ _ _ _ _ _ _ _ _
    (Hp 36%N 12%N ltac:(consts; lia)) (Hp 0%N 36%N ltac:(consts; lia))
    (Hp 48%N 48%N ltac:(consts; lia)) Hdec) as (r & p & Hin & Haad & ->).
  destruct (Hwf _ _ Hin) as [Hr Hpl].
  destruct (wrap_aad_parts _ _ _ b Hpl (rng_id_16 _ Hr) Haad eq_refl) as [Hn' Hid].
  rewrite Hn' in Hn. subst n. rewrite Hid. exists r, p. split; [done|]. split; [|split; [done|]].
  - intros original (wrapped & out & -> & _). transitivity (slice 0 36 b).
    + rewrite Hb, slice_slice by (consts; lia). done.
    + rewrite Haad. unfold header_bytes. rewrite <- app_assoc, take_app_length'; [done|].
      unfold wrap_aad. rewrite !length_app, (rng_id_16 _ Hr). done.
  - intros fuel start len out Hread.
    by apply (tampered_read_range key made r p file Hfit Hunf Hin 0%N start len fuel out).
Qed.

(** Opening fails closed: a file with the container's magic needs the
    key, and an encrypted file that opens has exactly the length its
    authenticated header implies; a file without the magic opens as plain
    bytes, whatever the key, and every range of it reads back unchanged. *)
Theorem open_fails_closed file key :
  (is_encrypted file = true → open file None = Err ENoKey) ∧
  (∀ rd h, open file key = Ok rd → r_encrypted rd = Some h →
     h_plaintext_len h = r_len rd ∧
     N.of_nat (length file)
     = (HEADER_LEN + r_len rd + nchunks (r_len rd) * CHUNK_OVERHEAD)%N) ∧
  (is_encrypted file = false → ∃ rd, open file key = Ok rd ∧
     ∀ start len, (start + len ≤ N.of_nat (length file))%N →
       read_range 2 rd start len = Some (Ok (slice start len file))).
Proof.
  split_and!.
  - intros Hm%bool_decide_eq_true. unfold open, from_reader. by rewrite bool_decide_false by auto.
  - intros rd h Ho Hh. destruct (open_ok _ _ _ Ho) as [[_ ->]|
      (k & b & fk & n & _ & _ & _ & _ & _ & _ & _ & Hfl & _ & ->)]; [done|].
    injection Hh as <-. split; [done|]. cbn [r_len]. consts. lia.
  - intros Hm. destruct (open_plain file key Hm) as (rd & Ho & _ & H). by exists rd.
Qed.

End WithLaws.

End Attachment.

(** ** A concrete instance

    A stand-in for AES-GCM that meets the laws: the tag is an injective code
    of the key, the nonce, the associated data and the message. *)
Module Toy.

Definition code (k n a m : bytes) : N := (1000 + Npos (encode (k, n, a, m)))%N.
Definition tag (k n a m : bytes) : bytes := code k n a m :: replicate 15 0%N.

#[export] Instance aead : Aead := {|
  aead_new k := bool_decide (length k = 32);
  aead_enc k n a m := Some (m ++ tag k n a m);
  aead_dec k n a c :=
    let m := take (length c - 16) c in
    if bool_decide (c = m ++ tag k n a m) then Some m else None;
|}.

#[export] Instance laws : AeadLaws.
Proof.
  split.
  - intros k Hk. by apply bool_decide_eq_true.
  - intros. cbn. eauto.
  - intros k n a m c. cbn. intros [= <-]. by rewrite length_app.
  - intros k n a m c. cbn. intros [= <-].
    assert (take (length (m ++ tag k n a m) - 16) (m ++ tag k n a m) = m) as ->.
    { rewrite length_app. apply take_app_length'. cbn. lia. }
    by rewrite bool_decide_true.
  - intros k n a m c. cbn. case_bool_decide as Hc; [|done]. intros [= <-]. by f_equal.
Qed.

#[export] Instance kdf : Kdf := {| hkdf_expand ikm info := Some ikm; hex_decode s := Some s |}.

Definition rand : rng :=
  {| rng_file_key := replicate 32 7%N; rng_file_id := replicate 16 8%N;
     rng_wrap_nonce := replicate 12 9%N; rng_nonce i := replicate 12 10%N |}.
Definition key : bytes := replicate 32 1%N.
Definition text : bytes := [104; 105; 33]%N.

Lemma rand_wf : wf_rng rand.
Proof. by split. Qed.

Lemma text_fits : fits (N.of_nat (length text)).
Proof. done. Qed.

Lemma code_inj k n a m k' n' a' m' :
  code k n a m = code k' n' a' m' → k = k' ∧ n = n' ∧ a = a' ∧ m = m'.
Proof. unfold code. intros H. assert (encode (k, n, a, m) = encode (k', n', a', m')) as Hc%(inj encode) by lia. naive_solver. Qed.

(** The tag of a piece that decrypts is one of the file's bytes. *)
Lemma dec_in file k nonce aad off len ct m :
  pread file off len = Ok ct → aead_dec k nonce aad ct = Some m →
  code k nonce aad m ∈ file.
Proof.
  intros (-> & _ & _)%pread_ok. cbn. case_bool_decide as Hc; [|done]. intros [= <-].
  assert (code k nonce aad (take (length (slice off len file) - 16) (slice off len file))
    ∈ slice off len file) as Hin.
  { rewrite Hc at 3. apply elem_of_app. right. left. }
  eapply elem_of_subseteq; [|exact Hin]. unfold slice. intros x Hx.
  by apply subseteq_take, subseteq_drop in Hx.
Qed.

(** The stored form of [text] with its second byte changed. *)
Definition tampered : bytes :=
  header_bytes (wrap_aad 3 (rng_file_id rand)) (rng_wrap_nonce rand)
    (rng_file_key rand ++ tag key (rng_wrap_nonce rand) (wrap_aad 3 (rng_file_id rand)) (rng_file_key rand))
  ++ rng_nonce rand 0 ++ [104; 106; 33]%N
  ++ tag (rng_file_key rand) (rng_nonce rand 0) (chunk_aad (rng_file_id rand) 0 1 3 3) text.

Lemma tampered_codes x :
  x ∈ tampered → (1000 ≤ x)%N →
  x = code key (rng_wrap_nonce rand) (wrap_aad 3 (rng_file_id rand)) (rng_file_key rand) ∨
  x = code (rng_file_key rand) (rng_nonce rand 0) (chunk_aad (rng_file_id rand) 0 1 3 3) text.
Proof.
  assert (Hs : ∀ l : bytes, forallb (λ y, y <? 1000)%N l = true → x ∈ l → (x < 1000)%N).
  { intros l Hl Hx. rewrite forallb_forall in Hl. by apply list_elem_of_In, Hl, N.ltb_lt in Hx. }
  unfold tampered, header_bytes, tag. intros Hx Hge.
  repeat match goal with
  | H : x ∈ _ ++ _ |- _ => apply elem_of_app in H as [H|H]
  | H : x ∈ code _ _ _ _ :: _ |- _ => apply elem_of_cons in H as [H|H]
  end; try (by left); try (by right); apply Hs in Hx; (lia || by vm_compute).
Qed.

Lemma tampered_unforged : unforged key [(rand, text)] tampered.
Proof.
  split.
  - intros off1 len1 off2 len2 off3 len3 nonce aad ct m _ _ Hct Hdec.
    apply (dec_in _ _ _ _ _ _ _ _ Hct), tampered_codes in Hdec; [|unfold code; lia].
    exists rand, text. split; [left|].
    by destruct Hdec as [(?&?&?&?)%code_inj|(Hk&?)%code_inj]; [|discriminate Hk].
  - intros r p off1 len1 off2 len2 nonce ct aad m n Hin _ Hct Hdec.
    apply list_elem_of_singleton in Hin. injection Hin as -> ->.
    pose proof Hdec as Henc%aead_enc_dec.
    apply (dec_in _ _ _ _ _ _ _ _ Hct), tampered_codes in Hdec; [|unfold code; lia].
    destruct Hdec as [(Hk&?)%code_inj|(_&->&->&->)%code_inj]; [discriminate Hk|].
    by exists 0%N.
Qed.

End Toy.

#[local] Existing Instances Toy.aead Toy.laws.

Lemma attachment_roundtrip_witness :
  ∃ file rd, encrypt (encrypt_fuel 3) Toy.key Toy.rand Toy.text 3 = Some (Ok file) ∧
    open file (Some Toy.key) = Ok rd ∧ read_range 4 rd 1 2 = Some (Ok [105; 33]%N) ∧
    read_range 4 rd 2 2 = Some (Err ERange).
Proof.
  destruct (attachment_roundtrip Toy.key Toy.rand Toy.text Toy.rand_wf eq_refl Toy.text_fits)
    as (file & rd & H1 & _ & H2 & _ & H3).
  exists file, rd. split; [exact H1|]. split; [exact H2|]. split; [exact (H3 1%N 2%N)|exact (H3 2%N 2%N)].
Defined.

Lemma encrypt_checks_length_witness :
  encrypt (encrypt_fuel 2) Toy.key Toy.rand Toy.text 2 = Some (Err EGrew) ∧
  encrypt (encrypt_fuel 4) Toy.key Toy.rand Toy.text 4 = Some (Err EEof).
Proof.
  split; [exact (encrypt_checks_length Toy.key Toy.rand Toy.text 2 Toy.rand_wf eq_refl eq_refl)|
    exact (encrypt_checks_length Toy.key Toy.rand Toy.text 4 Toy.rand_wf eq_refl eq_refl)].
Defined.

Lemma tampering_detected_witness :
  let rd := reader_at Toy.text Toy.tampered (rng_file_id Toy.rand) (rng_file_key Toy.rand) 0 in
  open Toy.tampered (Some Toy.key) = Ok rd ∧
  (∀ fuel b, read_range fuel rd 0 3 = Some (Ok b) → b = Toy.text) ∧
  read_range 5 rd 0 3 = Some (Err EAuth).
Proof.
  intros rd. assert (Ho : open Toy.tampered (Some Toy.key) = Ok rd) by (vm_compute; reflexivity).
  split; [exact Ho|]. split; [|vm_compute; reflexivity]. intros fuel b Hr.
  destruct (tampering_detected Toy.key [(Toy.rand, Toy.text)] Toy.tampered rd Toy.tampered_unforged)
    as (r & p & Hin & _ & _ & Hread); [|exact Ho|].
  - intros r p Hin. apply list_elem_of_singleton in Hin. injection Hin as -> ->.
    split; [apply Toy.rand_wf|reflexivity].
  - apply list_elem_of_singleton in Hin. injection Hin as -> ->.
    by apply Hread in Hr as [_ ->].
Defined.
