(* ===== verification/Net.v ===== *)
(** * Identities, signatures and the serialisers

    The parts of the local chat that come from other crates: [iroh]'s node ids
    and ed25519 keys, [data_encoding]'s HEXLOWER, [serde_json].  They are
    parameters with their documented behaviour as laws.  A node id is the 32
    bytes of its public key. *)

From S2P Require Import Prelude Str.

Abbreviation node_id := bytes.

(** [std::net::SocketAddr]; [parse] and [to_string] are parameters of
    the platform. *)
Inductive ip_addr := V4 (octets : bytes) | V6 (octets : bytes).
Record socket_addr := SockAddr { sa_ip : ip_addr; sa_port : N }.

#[export] Instance ip_addr_eq_dec : EqDecision ip_addr.
Proof. solve_decision. Defined.
#[export] Instance socket_addr_eq_dec : EqDecision socket_addr.
Proof. solve_decision. Defined.

Class Platform := {
  (** [iroh::NodeId]: [from_str], [to_string]; [as_bytes] is the identity. *)
  node_parse : str → option node_id;
  node_str : node_id → str;
  (** [iroh::SecretKey]: [public], [sign]; [NodeId::verify]. *)
  secret_key : Type;
  public : secret_key → node_id;
  sign_raw : secret_key → bytes → bytes;
  verify_raw : node_id → bytes → bytes → bool;
  (** [data_encoding::HEXLOWER]. *)
  hex_encode : bytes → str;
  hex_decode : bytes → option bytes;
  (** [str::parse::<SocketAddr>] and [SocketAddr::to_string]. *)
  parse_addr : str → option socket_addr;
  show_addr : socket_addr → str;
}.

Class PlatformLaws {P : Platform} := {
  node_parse_len : ∀ s i, node_parse s = Some i → length i = 32;
  node_parse_str : ∀ s i, node_parse s = Some i → node_parse (node_str i) = Some i;
  node_str_hex : ∀ s i, node_parse s = Some i →
    length (node_str i) = 64 ∧ forallb is_ascii_hexdigit (node_str i) = true;
  public_node : ∀ k, node_parse (node_str (public k)) = Some (public k);
  sign_raw_len : ∀ k m, length (sign_raw k m) = 64 ∧ wf_bytes (sign_raw k m);
  verify_sign : ∀ k m, verify_raw (public k) m (sign_raw k m) = true;
  hex_decode_encode : ∀ b, wf_bytes b → hex_decode (as_bytes (hex_encode b)) = Some b;
  hex_encode_decode : ∀ s b, hex_decode (as_bytes s) = Some b → hex_encode b = s;
  parse_show_addr : ∀ s a, parse_addr s = Some a → parse_addr (show_addr a) = Some a;
  hex_decode_wf : ∀ s b, hex_decode (as_bytes s) = Some b → wf_bytes b;
  hex_encode_chars : ∀ b, wf_bytes b → length (hex_encode b) = 2 * length b ∧
    forallb (λ c, in_range 48 57 c || in_range 97 102 c) (hex_encode b) = true;
}.

Section Nodes.
Context {P : Platform} {L : PlatformLaws}.

(** A node id some text denotes. *)
Definition valid_node (i : node_id) : Prop := node_parse (node_str i) = Some i.

Lemma node_parse_valid s i : node_parse s = Some i → valid_node i.
Proof. apply node_parse_str. Qed.

Lemma node_str_inj i j : valid_node i → valid_node j → node_str i = node_str j → i = j.
Proof. unfold valid_node. congruence. Qed.

Lemma public_valid k : valid_node (public k).
Proof. apply public_node. Qed.

End Nodes.

(** ** A concrete platform

    Lowercase hexadecimal, node ids printed in hexadecimal, and a stand-in for
    ed25519: a key is a byte, a signature names the key and a checksum. *)
Module ToyNet.

Definition digit (d : N) : N := if (d <? 10)%N then (48 + d)%N else (87 + d)%N.
Definition undigit (c : N) : option N :=
  if in_range 48 57 c then Some (c - 48)%N
  else if in_range 97 102 c then Some (c - 87)%N else None.

Fixpoint hex_encode (b : bytes) : str :=
  match b with [] => [] | x :: b => digit (x / 16) :: digit (x mod 16) :: hex_encode b end.
Fixpoint hex_decode (s : bytes) : option bytes :=
  match s with
  | [] => Some []
  | [_] => None
  | c :: d :: s =>
      h ← undigit c; l ← undigit d; b ← hex_decode s; Some ((16 * h + l)%N :: b)
  end.

Definition node_parse (s : str) : option node_id :=
  b ← hex_decode (as_bytes s); if bool_decide (length b = 32) then Some b else None.
Definition public (k : N) : node_id := replicate 31 0%N ++ [(k mod 256)%N].
Definition checksum (m : bytes) : N := (foldr N.add 0 m mod 256)%N.
Definition sign_raw (k : N) (m : bytes) : bytes := replicate 63 (k mod 256)%N ++ [checksum m].
Definition verify_raw (i : node_id) (m s : bytes) : bool :=
  bool_decide (s = replicate 63 (nth 31 i 0%N) ++ [checksum m]).

(** Addresses as their four octets and port, one code point each. *)
Definition parse_addr (s : str) : option socket_addr :=
  match s with [a; b; c; d; p] => Some (SockAddr (V4 [a; b; c; d]) p) | _ => None end.
Definition show_addr (a : socket_addr) : str :=
  match sa_ip a with V4 o => o ++ [sa_port a] | V6 o => o ++ [sa_port a] end.

#[export] Instance platform : Platform := {|
  Net.node_parse := node_parse; node_str := hex_encode;
  secret_key := N; Net.public := public; Net.sign_raw := sign_raw; Net.verify_raw := verify_raw;
  Net.hex_encode := hex_encode; Net.hex_decode := hex_decode;
  Net.parse_addr := parse_addr; Net.show_addr := show_addr |}.

Lemma digit_range d :
  (d < 16)%N → (48 ≤ digit d ≤ 57 ∨ 97 ≤ digit d ≤ 102)%N ∧ undigit (digit d) = Some d.
Proof.
  intros Hd. unfold digit, undigit. destruct (N.ltb_spec d 10).
  - split; [lia|]. rewrite (proj2 (in_range_spec 48 57 _)) by lia. f_equal. lia.
  - split; [lia|]. rewrite (proj2 (in_range_false 48 57 _)) by lia.
    rewrite (proj2 (in_range_spec 97 102 _)) by lia. f_equal. lia.
Qed.

Lemma undigit_some c d : undigit c = Some d → digit d = c ∧ (d < 16)%N ∧ (c < 128)%N.
Proof.
  unfold undigit. destruct (in_range 48 57 c) eqn:H1; [|destruct (in_range 97 102 c) eqn:H2; [|done]].
  - apply in_range_spec in H1. intros [= <-]. unfold digit.
    destruct (N.ltb_spec (c - 48) 10); lia.
  - apply in_range_spec in H2. intros [= <-]. unfold digit.
    destruct (N.ltb_spec (c - 87) 10); lia.
Qed.

Lemma nibbles x : is_byte x → (x / 16 < 16 ∧ x mod 16 < 16 ∧ 16 * (x / 16) + x mod 16 = x)%N.
Proof.
  unfold is_byte. intros. split_and!; [apply N.Div0.div_lt_upper_bound; lia|
    apply N.mod_upper_bound; lia|symmetry; apply N.div_mod; lia].
Qed.

Lemma hex_chars b : wf_bytes b → length (hex_encode b) = 2 * length b ∧
  forallb (λ c, in_range 48 57 c || in_range 97 102 c) (hex_encode b) = true.
Proof.
  induction 1 as [|x b Hx Hb [IH1 IH2]]; [done|]. destruct (nibbles x Hx) as (H1 & H2 & _).
  destruct (digit_range _ H1) as [Hd1 _], (digit_range _ H2) as [Hd2 _].
  cbn. rewrite IH1, IH2, !andb_true_iff, !orb_true_iff, !in_range_spec. split; [lia|tauto].
Qed.

Lemma hex_ascii b : wf_bytes b → is_ascii (hex_encode b).
Proof.
  intros Hb. apply Forall_forall. intros c Hc. destruct (hex_chars b Hb) as [_ Hall].
  rewrite forallb_forall in Hall. apply list_elem_of_In, Hall, orb_true_iff in Hc.
  rewrite !in_range_spec in Hc. lia.
Qed.

Lemma decode_encode b : wf_bytes b → hex_decode (as_bytes (hex_encode b)) = Some b.
Proof.
  intros Hb. rewrite as_bytes_ascii by by apply hex_ascii.
  induction Hb as [|x b Hx Hb IH]; [done|]. destruct (nibbles x Hx) as (H1 & H2 & H3).
  cbn. rewrite (proj2 (digit_range _ H1)), (proj2 (digit_range _ H2)). cbn. rewrite IH. cbn.
  do 2 f_equal. exact H3.
Qed.

Lemma hex_decode_bytes l b :
  hex_decode l = Some b → hex_encode b = l ∧ is_ascii l ∧ wf_bytes b.
Proof.
  revert b. induction l as [l IH] using (induction_ltof1 _ length). unfold ltof in IH.
  intros b. destruct l as [|c [|d l]]; cbn; [intros [= <-]; repeat constructor|done|].
  destruct (undigit c) as [h|] eqn:Hc; [|done]. destruct (undigit d) as [lo|] eqn:Hd; [|done].
  destruct (hex_decode l) as [b'|] eqn:Hl; [|done]. intros [= <-].
  apply undigit_some in Hc as (<- & Hh & Hc), Hd as (<- & Hlo & Hd).
  destruct (IH l ltac:(cbn; lia) _ Hl) as (<- & Ha & Hw).
  assert (((16 * h + lo) / 16 = h ∧ (16 * h + lo) mod 16 = lo)%N) as [H1 H2].
  { rewrite N.mul_comm. split; [rewrite N.div_add_l by lia; rewrite N.div_small by lia; lia|].
    rewrite N.add_comm, N.Div0.mod_add. by apply N.mod_small. }
  split_and!.
  - cbn [hex_encode]. by rewrite H1, H2.
  - by repeat constructor.
  - constructor; [unfold is_byte; lia|done].
Qed.

Lemma hex_decode_str s b :
  hex_decode (as_bytes s) = Some b → hex_encode b = s ∧ wf_bytes b.
Proof.
  intros (He & Ha & Hw)%hex_decode_bytes. split; [|done]. rewrite He. clear -Ha.
  induction s as [|c s IH]; [done|]. unfold as_bytes in *. rewrite bind_cons in *.
  apply Forall_app in Ha as [Hc Hs]. rewrite IH by done. unfold utf8_char in *.
  revert Hc. repeat case_match; intros Hc; try done;
  apply Forall_cons in Hc as [Hc _]; exfalso; set (q := (c / _)%N) in Hc; lia.
Qed.

Lemma node_parse_inv s i : node_parse s = Some i → length i = 32 ∧ wf_bytes i ∧ hex_encode i = s.
Proof.
  unfold node_parse. destruct (hex_decode (as_bytes s)) as [b|] eqn:Hb; [|done]. cbn.
  case_bool_decide; [|done]. intros [= <-]. apply hex_decode_str in Hb. tauto.
Qed.

Lemma node_parse_hex i : length i = 32 → wf_bytes i → node_parse (hex_encode i) = Some i.
Proof. intros. unfold node_parse. rewrite decode_encode by done. cbn. by rewrite bool_decide_true. Qed.

Lemma byte_mod k : is_byte (k mod 256).
Proof. apply N.mod_upper_bound. lia. Qed.

#[export] Instance platform_laws : PlatformLaws.
Proof.
  split; cbn [Net.node_parse node_str Net.public Net.sign_raw Net.verify_raw
    Net.hex_encode Net.hex_decode Net.parse_addr Net.show_addr platform].
  - by intros s i (? & _)%node_parse_inv.
  - intros s i (? & ? & _)%node_parse_inv. by apply node_parse_hex.
  - intros s i (Hl & Hw & _)%node_parse_inv. destruct (hex_chars i Hw) as [H1 H2].
    split; [lia|]. apply forallb_forall. intros c Hc. rewrite forallb_forall in H2.
    apply H2 in Hc. unfold is_ascii_hexdigit. rewrite !orb_true_iff in *. tauto.
  - intros k. apply node_parse_hex; [done|].
    apply Forall_app. split; [by apply Forall_replicate|]. constructor; [apply byte_mod|constructor].
  - intros k m. split; [done|]. apply Forall_app. split; [apply Forall_replicate, byte_mod|].
    constructor; [apply byte_mod|constructor].
  - intros k m. by apply bool_decide_eq_true.
  - apply decode_encode.
  - by intros s b [H _]%hex_decode_str.
  - intros s a H. destruct s as [|? [|? [|? [|? [|? []]]]]]; try done. by injection H as <-.
  - by intros s b [_ H]%hex_decode_str.
  - apply hex_chars.
Qed.

End ToyNet.
