(* ===== verification/Groups.v ===== *)
(** * Local groups: signed membership states and their files
    ([p2p/groups.rs])

    The roster of a group, its signature, the acceptance test of a received
    roster, [groups.json] and the append-only message log of a group. *)

From stdpp Require Import sorting.
From S2P Require Import Prelude Str Net.

(** ** Limits *)

Definition MAX_GROUP_MEMBERS : N := 5%N.
Definition LEGACY_MAX_GROUP_MEMBERS : N := 4%N.
Definition MAX_GROUPS : N := 16%N.
Definition MAX_NAME_CHARS : N := 64%N.
Definition MAX_MEMBER_ADDRS : N := 3%N.
Definition STATE_DOMAIN : bytes := lit "velta-group-state-v1" ++ [0%N].
Definition MAX_GROUP_TEXT : N := (64 * 1024)%N.

(** ** Data *)

Record GroupMember := Member { gm_node_id : str; gm_name : str; gm_addrs : list str }.

Record GroupState := State {
  gs_gid : str; gs_creator : str; gs_epoch : N; gs_name : str; gs_closed : bool;
  gs_members : list GroupMember; gs_sig : str
}.

#[export] Instance GroupMember_eq_dec : EqDecision GroupMember.
Proof. solve_decision. Defined.
#[export] Instance GroupState_eq_dec : EqDecision GroupState.
Proof. solve_decision. Defined.

Inductive group_error :=
| ENodeId | ENotCanonical | EEmptyName | ELongName | EGid | ETooManyMembers | ENotSigner
| ESigEncoding | ESigLength | ESigVerify | EEpochZero | EMemberCount | EDuplicateMember
| EMemberAddrs | EMemberAddr | ECreatorFirst | EClosedMembers
| EClosedUnknown | ENotIncluded | ECreatorMismatch | EIo.

#[export] Instance group_error_eq_dec : EqDecision group_error.
Proof. solve_decision. Defined.

(** [is_safe_transfer_id] ([p2p.rs]) *)
Definition is_safe_transfer_id (id : str) : bool :=
  negb (bool_decide (id = [])) && (str_len id <=? 64)%N &&
  forallb (λ b, is_ascii_alphanumeric b || (b =? 45)%N || (b =? 95)%N) (as_bytes id).

Section Groups.
Context {P : Platform}.
Local Abbreviation res := (result group_error).

(** ** Signed bytes *)

Definition canonical_node (s : str) : res node_id :=
  id ← ok_or (node_parse s) ENodeId;
  if bool_decide (node_str id ≠ s) then Err ENotCanonical else Ok id.

Definition check_name (name : str) (allow_empty : bool) : res unit :=
  if bool_decide (name = []) && negb allow_empty then Err EEmptyName
  else if (MAX_NAME_CHARS <? chars_count name)%N then Err ELongName
  else Ok tt.

Definition check_group_name (name : str) : res unit := check_name name false.

Definition push_str (out : bytes) (s : str) : res bytes :=
  if (str_len s <? u16_bound)%N then Ok (out ++ be_bytes 2 (str_len s) ++ as_bytes s)
  else Err ELongName.

Fixpoint sign_members (out : bytes) (ms : list GroupMember) : res bytes :=
  match ms with
  | [] => Ok out
  | m :: ms =>
      id ← canonical_node (gm_node_id m);
      out ← push_str (out ++ id) (gm_name m);
      sign_members out ms
  end.

Definition bool_byte (b : bool) : N := if b then 1%N else 0%N.

(** The fields the signature covers, in their encoding. *)
Definition sign_bytes (st : GroupState) : res bytes :=
  gid ← ok_or (hex_decode (as_bytes (gs_gid st))) EGid;
  _ ← ensure (length gid =? 16) EGid;
  let out := STATE_DOMAIN ++ gid ++ be_bytes 8 (gs_epoch st) ++ [bool_byte (gs_closed st)] in
  out ← push_str out (gs_name st);
  let n := N.of_nat (length (gs_members st)) in
  _ ← ensure (n <? 256)%N ETooManyMembers;
  sign_members (out ++ [n]) (gs_members st).

Definition set_sig (st : GroupState) (sig : str) : GroupState :=
  State (gs_gid st) (gs_creator st) (gs_epoch st) (gs_name st) (gs_closed st) (gs_members st) sig.

(** [GroupState::sign] *)
Definition sign (st : GroupState) (secret : secret_key) : res GroupState :=
  if bool_decide (node_str (public secret) ≠ gs_creator st) then Err ENotSigner else
  b ← sign_bytes st;
  Ok (set_sig st (hex_encode (sign_raw secret b))).

Definition verify_signature (st : GroupState) : res unit :=
  creator ← canonical_node (gs_creator st);
  raw ← ok_or (hex_decode (as_bytes (gs_sig st))) ESigEncoding;
  _ ← ensure (length raw =? 64) ESigLength;
  b ← sign_bytes st;
  ensure (verify_raw creator b raw) ESigVerify.

(** ** Structural validation *)

(** The member loop of [validate]; the result is [seen]. *)
Fixpoint validate_members (seen : list node_id) (ms : list GroupMember) : res (list node_id) :=
  match ms with
  | [] => Ok seen
  | m :: ms =>
      id ← canonical_node (gm_node_id m);
      _ ← ensure (negb (bool_decide (id ∈ seen))) EDuplicateMember;
      _ ← check_name (gm_name m) true;
      _ ← ensure (N.of_nat (length (gm_addrs m)) <=? MAX_MEMBER_ADDRS)%N EMemberAddrs;
      _ ← ensure (forallb (λ a, bool_decide (is_Some (parse_addr a))) (gm_addrs m)) EMemberAddr;
      validate_members (seen ++ [id]) ms
  end.

Definition validate (st : GroupState) : res unit :=
  gid ← ok_or (hex_decode (as_bytes (gs_gid st))) EGid;
  _ ← ensure ((length gid =? 16) && is_safe_transfer_id (gs_gid st)) EGid;
  creator ← canonical_node (gs_creator st);
  _ ← ensure (negb (gs_epoch st =? 0)%N) EEpochZero;
  _ ← check_name (gs_name st) false;
  let n := N.of_nat (length (gs_members st)) in
  _ ← ensure (negb (n =? 0) && (n <=? MAX_GROUP_MEMBERS))%N EMemberCount;
  seen ← validate_members [] (gs_members st);
  _ ← ensure (bool_decide (head seen = Some creator)) ECreatorFirst;
  ensure (negb (gs_closed st && negb (n =? 1)%N)) EClosedMembers.

Definition check (st : GroupState) : res unit := _ ← validate st; verify_signature st.

Definition contains (st : GroupState) (node : node_id) : bool :=
  existsb (λ m, bool_decide (gm_node_id m = node_str node)) (gs_members st).

(** ** Local records *)

Record GroupRec := Rec {
  gr_state : GroupState; gr_removed : bool; gr_next_seq : N;
  gr_sent_cursor : gmap str N; gr_have : gmap str N; gr_state_cursor : gmap str N;
  gr_pending_leave : bool; gr_hidden : bool
}.

(** [GroupRec::new] *)
Definition GroupRec_new (st : GroupState) : GroupRec := Rec st false 1 ∅ ∅ ∅ false false.

Inductive Evaluation := Stale | Create | Update (removed_me : bool).

Definition evaluate_incoming (local : option GroupRec) (incoming : GroupState) (me : node_id)
    : res Evaluation :=
  _ ← check incoming;
  match local with
  | None =>
      if gs_closed incoming then Err EClosedUnknown
      else if negb (contains incoming me) then Err ENotIncluded
      else Ok Create
  | Some rec =>
      if bool_decide (gs_creator (gr_state rec) ≠ gs_creator incoming) then Err ECreatorMismatch
      else if (gs_epoch incoming <=? gs_epoch (gr_state rec))%N then Ok Stale
      else Ok (Update (gs_closed incoming || negb (contains incoming me)))
  end.

(** ** Roster events *)

Inductive RosterEvent := Added (id : str) | Removed (id : str) | Renamed (name : str) | Disbanded.

Definition lists (st : GroupState) (id : str) : bool :=
  existsb (λ o, bool_decide (gm_node_id o = id)) (gs_members st).

Definition roster_events (old new : GroupState) : list RosterEvent :=
  if gs_closed new && negb (gs_closed old) then [Disbanded] else
  (if bool_decide (gs_name new ≠ gs_name old) then [Renamed (gs_name new)] else []) ++
  (Added ∘ gm_node_id <$> filter (λ m, lists old (gm_node_id m) = false) (gs_members new)) ++
  (Removed ∘ gm_node_id <$> filter (λ m, lists new (gm_node_id m) = false) (gs_members old)).

(** ** The message log *)

Definition SYS_DIR : str := "sys".

Record GroupFileRec := FileRec { gf_name : str; gf_size : N; gf_mime : str; gf_path : str }.
Record GroupLogRec := LogRec {
  lr_seq : N; lr_from : str; lr_id : str; lr_ts : N; lr_ts_eff : N; lr_dir : str;
  lr_text : str; lr_reply_to : option str; lr_reply_text : option str; lr_file : option GroupFileRec
}.

(** [serde_json] of log lines and of [groups.json]. *)
Class Serde := {
  enc_log : GroupLogRec → str;
  dec_log : str → option GroupLogRec;
  enc_groups : list GroupRec → bytes;
  dec_groups : bytes → option (list GroupRec);
}.
Context {SD : Serde}.

Definition sys_rec (kind : str) (epoch index : N) (text : str) (ts_eff : N) : GroupLogRec :=
  LogRec 0 [] ("sys:" ++ kind ++ ":" ++ show_N epoch ++ ":" ++ show_N index)
    ts_eff ts_eff SYS_DIR text None None None.

Definition sys_kind (id : str) : option str :=
  before_char 58 <$> strip_prefix "sys:" id.

Definition eff_ts (prev author_ts now : N) : N := N.max prev (N.min author_ts now).

(** A log file: [None] when there is none yet. *)
Abbreviation log_file := (option bytes).

(** [append_log] of one line, on a file that can be opened and written; the
    write may stop after [k] bytes. *)
Definition append_log (file : log_file) (rec : GroupLogRec) : log_file :=
  Some (default [] file ++ as_bytes (enc_log rec) ++ [10%N]).

Definition append_part (k : nat) (file : log_file) (rec : GroupLogRec) : log_file :=
  Some (default [] file ++ take k (as_bytes (enc_log rec) ++ [10%N])).

Definition read_log (file : log_file) : list GroupLogRec :=
  match file ≫= from_utf8 with
  | None => []
  | Some data => omap dec_log (lines data)
  end.

Definition load_group_log (file : log_file) (limit : nat) : list GroupLogRec :=
  let all := read_log file in drop (length all - limit) all.

Record LogScan := Scan { ls_own_max : N; ls_in_max : gmap str N; ls_last_ts_eff : N }.

Definition max_at (k : str) (n : N) (m : gmap str N) : gmap str N :=
  <[k := N.max (default 0%N (m !! k)) n]> m.

Definition scan_step (me : str) (s : LogScan) (r : GroupLogRec) : LogScan :=
  let ts := N.max (ls_last_ts_eff s) (lr_ts_eff r) in
  if bool_decide (lr_from r = me) && bool_decide (lr_dir r = lit "out") then
    Scan (N.max (ls_own_max s) (lr_seq r)) (ls_in_max s) ts
  else if bool_decide (lr_dir r = lit "in") then
    Scan (ls_own_max s) (max_at (lr_from r) (lr_seq r) (ls_in_max s)) ts
  else Scan (ls_own_max s) (ls_in_max s) ts.

Definition scan_log (file : log_file) (me : str) : LogScan :=
  foldl (scan_step me) (Scan 0 ∅ 0) (read_log file).

(** ** [groups.json] *)

(** The files [groups.json], [groups.json.tmp] and [groups.json.corrupt]. *)
Record groups_dir := GroupsDir
  { gd_json : option bytes; gd_tmp : option bytes; gd_corrupt : option bytes }.

(** The entries of a [BTreeMap], in key order. *)
Definition entry_le {A} (x y : str * A) : Prop := str_le x.1 y.1.
#[export] Instance entry_le_dec {A} : RelDecision (@entry_le A).
Proof. intros x y. unfold entry_le. apply _. Defined.

Definition sorted_entries (m : gmap str GroupRec) : list (str * GroupRec) :=
  merge_sort entry_le (map_to_list m).
Definition group_values (m : gmap str GroupRec) : list GroupRec := (sorted_entries m).*2.

Definition load_step (out : gmap str GroupRec) (rec : GroupRec) : gmap str GroupRec :=
  let gid := gs_gid (gr_state rec) in
  if (MAX_GROUPS <=? N.of_nat (size out))%N || bool_decide (is_Some (out !! gid))
     || negb (is_ok (check (gr_state rec)))
  then out else <[gid := rec]> out.

Definition load_groups (d : groups_dir) : gmap str GroupRec * groups_dir :=
  match gd_json d with
  | None => (∅, d)
  | Some data =>
      match dec_groups data with
      | None => (∅, GroupsDir None (gd_tmp d) (Some data))
      | Some groups => (foldl load_step ∅ groups, d)
      end
  end.

(** How the two system calls of a save go: the write may stop (fail, or the
    device die) after some bytes, the rename may not happen. *)
Record save_outcome := SaveOutcome { so_cut : option nat; so_rename : bool }.

Definition save_groups (o : save_outcome) (d : groups_dir) (groups : gmap str GroupRec)
    : res unit * groups_dir :=
  let data := enc_groups (group_values groups) in
  match so_cut o with
  | Some n => (Err EIo, GroupsDir (gd_json d) (Some (take n data)) (gd_corrupt d))
  | None =>
      if so_rename o then (Ok tt, GroupsDir (Some data) None (gd_corrupt d))
      else (Err EIo, GroupsDir (gd_json d) (Some data) (gd_corrupt d))
  end.

(** ** Canonical ids and fields *)

Lemma canonical_node_ok s i : canonical_node s = Ok i ↔ node_parse s = Some i ∧ node_str i = s.
Proof.
  unfold canonical_node. destruct (node_parse s) as [j|]; cbn; [|naive_solver].
  case_bool_decide; naive_solver.
Qed.

Lemma check_name_ok name b :
  check_name name b = Ok tt ↔ (name = [] → b = true) ∧ (chars_count name ≤ MAX_NAME_CHARS)%N.
Proof.
  unfold check_name. case_bool_decide; destruct b; cbn;
  destruct (N.ltb_spec MAX_NAME_CHARS (chars_count name)); naive_solver lia.
Qed.

Lemma push_str_ok out s b :
  push_str out s = Ok b ↔
  (str_len s < u16_bound)%N ∧ b = out ++ be_bytes 2 (str_len s) ++ as_bytes s.
Proof.
  unfold push_str. destruct (N.ltb_spec (str_len s) u16_bound); naive_solver lia.
Qed.

(** A length-prefixed field can be told from what follows it. *)
Lemma field_inj s s' r r' :
  wf_str s → wf_str s' → (str_len s < u16_bound)%N → (str_len s' < u16_bound)%N →
  be_bytes 2 (str_len s) ++ as_bytes s ++ r = be_bytes 2 (str_len s') ++ as_bytes s' ++ r' →
  s = s' ∧ r = r'.
Proof.
  intros Hw Hw' Hs Hs' H. apply app_inj_1 in H as [Hl H]; [|by rewrite !length_be_bytes].
  apply be_bytes_inj in Hl; [|done..]. unfold str_len in Hl.
  apply app_inj_1 in H as [Hb ->]; [|lia]. split; [by apply as_bytes_inj|done].
Qed.

Lemma utf8_char_len c : (1 ≤ length (utf8_char c) ≤ 4)%nat.
Proof. unfold utf8_char. repeat case_match; cbn; lia. Qed.

Lemma str_len_chars s : (str_len s ≤ 4 * chars_count s)%N.
Proof.
  unfold str_len, chars_count, as_bytes. induction s as [|c s IH]; [done|].
  rewrite bind_cons, length_app. pose proof (utf8_char_len c). cbn [length]. lia.
Qed.

(** ** The signed bytes determine what was signed *)

Definition signed_members (st : GroupState) : list (str * str) :=
  (λ m, (gm_node_id m, gm_name m)) <$> gs_members st.

(** Everything of a state but its signature and the members' addresses. *)
Definition same_signed (st st' : GroupState) : Prop :=
  gs_gid st = gs_gid st' ∧ gs_epoch st = gs_epoch st' ∧ gs_closed st = gs_closed st' ∧
  gs_name st = gs_name st' ∧ signed_members st = signed_members st'.

(** The values a [GroupState] can hold: a [u64] and strings. *)
Record state_typed (st : GroupState) : Prop := {
  ty_epoch : (gs_epoch st < u64_bound)%N;
  ty_name : wf_str (gs_name st);
  ty_members : Forall (λ m, wf_str (gm_name m)) (gs_members st);
}.

Section GroupLaws.
Context {L : PlatformLaws}.

Lemma sign_members_prefix ms : ∀ out b, sign_members out ms = Ok b → ∃ tl, b = out ++ tl.
Proof.
  induction ms as [|m ms IH]; intros out b; cbn.
  - intros [= ->]. exists []. by rewrite app_nil_r.
  - intros (i & _ & (o & (_ & ->)%push_str_ok & H)%bind_ok)%bind_ok.
    apply IH in H as [tl ->]. eexists. by rewrite <- !app_assoc.
Qed.

Lemma sign_members_inj ms : ∀ out b ms' out',
  Forall (λ m, wf_str (gm_name m)) ms → Forall (λ m, wf_str (gm_name m)) ms' →
  length out = length out' → length ms = length ms' →
  sign_members out ms = Ok b → sign_members out' ms' = Ok b →
  out = out' ∧ (λ m, (gm_node_id m, gm_name m)) <$> ms = (λ m, (gm_node_id m, gm_name m)) <$> ms'.
Proof.
  induction ms as [|m ms IH]; intros out b [|m' ms'] out' Hw Hw' Hl Hlm; cbn; try done.
  { intros [= ->] [= ->]. done. }
  inversion_clear Hw as [|?? Hn Hw1]. inversion_clear Hw' as [|?? Hn' Hw1'].
  intros (i & [Hi Hs]%canonical_node_ok & (o & (Hlen & ->)%push_str_ok & H)%bind_ok)%bind_ok.
  intros (i' & [Hi' Hs']%canonical_node_ok & (o' & (Hlen' & ->)%push_str_ok & H')%bind_ok)%bind_ok.
  destruct (sign_members_prefix _ _ _ H) as [tl Htl].
  destruct (sign_members_prefix _ _ _ H') as [tl' Htl'].
  rewrite Htl in Htl'. rewrite <- !app_assoc in Htl'.
  apply app_inj_1 in Htl' as [-> Htl']; [|done].
  apply app_inj_1 in Htl' as [-> Htl'].
  2: { apply node_parse_len in Hi, Hi'. congruence. }
  apply field_inj in Htl' as [Hname ->]; try done. rewrite Hname in H.
  injection Hlm as Hlm. destruct (IH _ b ms' _ Hw1 Hw1' eq_refl Hlm H H') as [_ ->].
  split; [done|]. congruence.
Qed.

Lemma hex_decode_inj s s' b :
  hex_decode (as_bytes s) = Some b → hex_decode (as_bytes s') = Some b → s = s'.
Proof. intros <-%hex_encode_decode <-%hex_encode_decode. done. Qed.

Lemma bool_byte_inj a b : bool_byte a = bool_byte b → a = b.
Proof. by destruct a, b. Qed.

Lemma sign_bytes_same st st' b :
  state_typed st → state_typed st' →
  sign_bytes st = Ok b → sign_bytes st' = Ok b → same_signed st st'.
Proof.
  intros [He Hn Hm] [He' Hn' Hm']. unfold sign_bytes.
  intros (g & Hg%ok_or_ok & ([] & Hgl%ensure_ok & (o & (Hlen & ->)%push_str_ok
    & ([] & Hc%ensure_ok & H)%bind_ok)%bind_ok)%bind_ok)%bind_ok.
  intros (g' & Hg'%ok_or_ok & ([] & Hgl'%ensure_ok & (o' & (Hlen' & ->)%push_str_ok
    & ([] & Hc'%ensure_ok & H')%bind_ok)%bind_ok)%bind_ok)%bind_ok.
  apply Nat.eqb_eq in Hgl, Hgl'. apply N.ltb_lt in Hc, Hc'.
  destruct (sign_members_prefix _ _ _ H) as [tl Htl].
  destruct (sign_members_prefix _ _ _ H') as [tl' Htl'].
  rewrite Htl in Htl'. rewrite <- !app_assoc in Htl'. apply app_inv_head in Htl'.
  apply app_inj_1 in Htl' as [<- Htl']; [|congruence].
  apply app_inj_1 in Htl' as [Hep Htl']; [|by rewrite !length_be_bytes].
  apply be_bytes_inj in Hep; [|done..].
  apply app_inj_1 in Htl' as [Hcl Htl']; [|done]. injection Hcl as Hcl%bool_byte_inj.
  apply field_inj in Htl' as [Hname Htl']; [|done..].
  injection Htl' as Hcount Htl'.
  rewrite <- Hname, <- Hep, <- Hcl, <- Hcount in H'.
  destruct (sign_members_inj _ _ b _ _ Hm Hm' eq_refl ltac:(lia) H H') as [_ Hms].
  repeat split; try done. by eapply hex_decode_inj.
Qed.

(** ** What [validate] accepts *)

Record member_ok (m : GroupMember) : Prop := {
  mo_id : ∃ i, canonical_node (gm_node_id m) = Ok i;
  mo_name : (chars_count (gm_name m) ≤ MAX_NAME_CHARS)%N;
  mo_addrs : (N.of_nat (length (gm_addrs m)) ≤ MAX_MEMBER_ADDRS)%N;
  mo_addr : Forall (λ a, is_Some (parse_addr a)) (gm_addrs m);
}.

(** A well-formed membership state. *)
Record wf_state (st : GroupState) : Prop := {
  ws_gid : ∃ g, hex_decode (as_bytes (gs_gid st)) = Some g ∧ length g = 16;
  ws_creator : gm_node_id <$> head (gs_members st) = Some (gs_creator st);
  ws_epoch : gs_epoch st ≠ 0%N;
  ws_name : gs_name st ≠ [] ∧ (chars_count (gs_name st) ≤ MAX_NAME_CHARS)%N;
  ws_count : (N.of_nat (length (gs_members st)) ≤ MAX_GROUP_MEMBERS)%N;
  ws_nodup : NoDup (gm_node_id <$> gs_members st);
  ws_members : Forall member_ok (gs_members st);
  ws_closed : gs_closed st = true → length (gs_members st) = 1;
}.

Lemma validate_members_ok ms : ∀ seen out,
  validate_members seen ms = Ok out ↔
  ∃ ids, Forall2 (λ m i, canonical_node (gm_node_id m) = Ok i) ms ids ∧
    Forall member_ok ms ∧ NoDup ids ∧ (∀ i, i ∈ ids → i ∉ seen) ∧ out = seen ++ ids.
Proof.
  induction ms as [|m ms IH]; intros seen out; cbn.
  { split.
    - intros [= ->]. exists []. rewrite app_nil_r. split_and!; [constructor..| |done]. set_solver.
    - intros (ids & Hi & _ & _ & _ & ->). apply Forall2_nil_inv_l in Hi as ->.
      by rewrite app_nil_r. }
  split.
  - intros (i & Hi & ([] & Hd%ensure_ok & ([] & Hn%check_name_ok & ([] & Ha%ensure_ok
      & ([] & Hp%ensure_ok & H)%bind_ok)%bind_ok)%bind_ok)%bind_ok)%bind_ok.
    apply negb_true_iff, bool_decide_eq_false in Hd. apply N.leb_le in Ha.
    apply IH in H as (ids & H2 & Hok & Hnd & Hfresh & ->). exists (i :: ids).
    split_and!.
    + by constructor.
    + constructor; [|done]. split; [eauto|apply Hn|done|].
      apply Forall_forall. intros a Hin. rewrite forallb_forall in Hp.
      apply list_elem_of_In, Hp in Hin. by apply bool_decide_eq_true in Hin.
    + constructor; [|done]. intros Hin. apply (Hfresh _ Hin), elem_of_app. right. by left.
    + intros j [->|Hj]%elem_of_cons; [done|]. intros Hs. apply (Hfresh _ Hj), elem_of_app. by left.
    + by rewrite <- app_assoc.
  - intros (ids & H2 & Hok & Hnd & Hfresh & ->).
    apply Forall2_cons_inv_l in H2 as (i & ids' & Hi & H2 & ->).
    apply Forall_cons in Hok as [[_ Hn Ha Hp] Hok]. apply NoDup_cons in Hnd as [Hni Hnd].
    rewrite Hi. cbn. rewrite bool_decide_false by (apply Hfresh; by left). cbn.
    rewrite (proj2 (check_name_ok _ _)) by done. cbn.
    destruct (N.leb_spec (N.of_nat (length (gm_addrs m))) MAX_MEMBER_ADDRS); [|lia]. cbn.
    replace (forallb _ (gm_addrs m)) with true.
    2: { symmetry. apply forallb_forall. intros a Hin%list_elem_of_In.
         rewrite Forall_forall in Hp. apply bool_decide_eq_true. by apply Hp. }
    cbn. apply IH. exists ids'. split_and!; [done..| |by rewrite <- app_assoc].
    intros j Hj [Hs|Hs]%elem_of_app; [apply (Hfresh j); [by right|done]|].
    apply list_elem_of_singleton in Hs as ->. done.
Qed.

Lemma canonical_ids ms ids :
  Forall2 (λ m i, canonical_node (gm_node_id m) = Ok i) ms ids →
  gm_node_id <$> ms = node_str <$> ids ∧ Forall valid_node ids.
Proof.
  induction 1 as [|m i ms ids Hc H2 [IH Hv]]; [done|]. apply canonical_node_ok in Hc as [Hp Hs].
  cbn. rewrite IH, Hs. split; [done|]. constructor; [by eapply node_parse_str|done].
Qed.

Lemma NoDup_node_str ids :
  Forall valid_node ids → NoDup (node_str <$> ids) ↔ NoDup ids.
Proof.
  intros Hv. split; [apply NoDup_fmap_1|].
  induction 1 as [|i ids Hi Hnd IH]; [constructor|]. apply Forall_cons in Hv as [Hvi Hv].
  cbn. constructor; [|by apply IH]. intros (j & Hs & Hj)%list_elem_of_fmap.
  rewrite Forall_forall in Hv. apply node_str_inj in Hs; [by subst|done|by apply Hv].
Qed.

Lemma gid_safe gid g :
  hex_decode (as_bytes gid) = Some g → length g = 16 → is_safe_transfer_id gid = true.
Proof.
  intros Hg Hl. pose proof (hex_decode_wf _ _ Hg) as Hw. apply hex_encode_decode in Hg as <-.
  destruct (hex_encode_chars g Hw) as [Hlen Hall]. rewrite Hl in Hlen.
  assert (Hascii : is_ascii (hex_encode g)).
  { apply Forall_forall. intros c Hc. rewrite forallb_forall in Hall.
    apply list_elem_of_In, Hall, orb_true_iff in Hc as [Hc|Hc]; apply in_range_spec in Hc; lia. }
  unfold is_safe_transfer_id, str_len. rewrite as_bytes_ascii, Hlen by done.
  rewrite bool_decide_false by (intros Heq; rewrite Heq in Hlen; done). cbn [negb andb N.leb].
  apply forallb_forall. intros c Hc. rewrite forallb_forall in Hall. apply Hall in Hc.
  unfold is_ascii_alphanumeric, is_ascii_digit, is_ascii_lower, is_ascii_upper.
  rewrite !orb_true_iff in *. rewrite !in_range_spec in *. lia.
Qed.

Lemma validate_ok st : validate st = Ok tt ↔ wf_state st.
Proof.
  unfold validate. split.
  - intros (g & Hg%ok_or_ok & ([] & Hgl%ensure_ok & (c & Hc & ([] & He%ensure_ok
      & ([] & Hn%check_name_ok & ([] & Hm%ensure_ok & (seen & Hv & ([] & Hh%ensure_ok
      & Hcl%ensure_ok)%bind_ok)%bind_ok)%bind_ok)%bind_ok)%bind_ok)%bind_ok)%bind_ok)%bind_ok.
    apply andb_true_iff in Hgl as [Hgl%Nat.eqb_eq _].
    apply negb_true_iff, N.eqb_neq in He. apply andb_true_iff in Hm as [Hm0 Hm%N.leb_le].
    apply bool_decide_eq_true in Hh. apply validate_members_ok in Hv
      as (ids & H2 & Hok & Hnd & _ & ->). destruct (canonical_ids _ _ H2) as [Hids Hvalid].
    destruct Hn as [Hn1 Hn2]. split; try done; [eauto| | | |].
    + destruct H2 as [|m i ms ids Hi H2]; [done|]. cbn in Hh |- *. injection Hh as ->.
      apply canonical_node_ok in Hi as [_ Hi], Hc as [_ Hc]. congruence.
    + split; [|done]. intros Heq. by apply Hn1 in Heq.
    + rewrite Hids. by apply NoDup_node_str.
    + intros Hcl'. rewrite Hcl' in Hcl. cbn in Hcl. destruct (N.eqb_spec (N.of_nat (length (gs_members st))) 1); [lia|done].
  - intros [(g & Hg & Hgl) Hcr He [Hn1 Hn2] Hm Hnd Hok Hcl]. rewrite Hg. cbn.
    rewrite Hgl. rewrite (gid_safe _ _ Hg Hgl). cbn.
    destruct (gs_members st) as [|m ms] eqn:Hms; [done|]. cbn in Hcr. injection Hcr as Hcr.
    assert (∃ ids, Forall2 (λ m i, canonical_node (gm_node_id m) = Ok i) (m :: ms) ids) as [ids H2].
    { clear -Hok. induction Hok as [|m' ms' [[i Hi] _ _ _] _ [ids IH]]; [by exists []|].
      exists (i :: ids). by constructor. }
    destruct (canonical_ids _ _ H2) as [Hids Hvalid].
    rewrite Hids in Hnd. apply (NoDup_node_str ids Hvalid) in Hnd.
    pose proof H2 as (i & ids' & Hi & _ & ->)%Forall2_cons_inv_l. rewrite <- Hcr, Hi. cbn [mbind result_bind].
    destruct (N.eqb_spec (gs_epoch st) 0); [done|]. cbn [negb ensure mbind result_bind].
    rewrite (proj2 (check_name_ok _ _)) by done. cbn [mbind result_bind].
    destruct (N.eqb_spec (N.of_nat (length (m :: ms))) 0); [done|].
    destruct (N.leb_spec (N.of_nat (length (m :: ms))) MAX_GROUP_MEMBERS); [|lia].
    cbn [negb andb ensure mbind result_bind].
    rewrite (proj2 (validate_members_ok _ [] (i :: ids'))) by (exists (i :: ids'); split_and!; [done..|intros j _ Hj; by apply elem_of_nil in Hj|done]).
    cbn [mbind result_bind head]. rewrite bool_decide_true by done. cbn [ensure mbind result_bind].
    destruct (gs_closed st) eqn:Hc; [|done]. rewrite (Hcl eq_refl). done.
Qed.

(** ** Signatures *)

Lemma check_ok st : check st = Ok tt ↔ wf_state st ∧ verify_signature st = Ok tt.
Proof.
  unfold check. rewrite bind_ok, <- validate_ok. split.
  - intros ([] & Hv & Hs). done.
  - intros [Hv Hs]. by exists tt.
Qed.

Lemma sign_members_total ms : ∀ out,
  Forall member_ok ms → ∃ b, sign_members out ms = Ok b.
Proof.
  induction ms as [|m ms IH]; intros out Hok; cbn; [by eexists|].
  apply Forall_cons in Hok as [[[i Hi] Hn _ _] Hok]. rewrite Hi. cbn [mbind result_bind].
  pose proof (str_len_chars (gm_name m)). unfold MAX_NAME_CHARS in Hn.
  rewrite (proj2 (push_str_ok _ (gm_name m) _)) by (split; [lia|done]). cbn [mbind result_bind].
  by apply IH.
Qed.

Lemma sign_bytes_total st : wf_state st → ∃ b, sign_bytes st = Ok b.
Proof.
  intros [(g & Hg & Hgl) _ _ [_ Hn] Hc _ Hm _]. unfold sign_bytes. rewrite Hg. cbn [mbind result_bind ok_or].
  rewrite Hgl. cbn [ensure Nat.eqb mbind result_bind].
  pose proof (str_len_chars (gs_name st)). unfold MAX_NAME_CHARS, MAX_GROUP_MEMBERS in *.
  rewrite (proj2 (push_str_ok _ (gs_name st) _)) by (split; [lia|done]). cbn [mbind result_bind].
  destruct (N.ltb_spec (N.of_nat (length (gs_members st))) 256); [|lia].
  cbn [ensure mbind result_bind]. by apply sign_members_total.
Qed.

Lemma wf_set_sig st sig : wf_state st → wf_state (set_sig st sig).
Proof. by intros [????????]. Qed.

Lemma sign_check st k :
  wf_state st → node_str (public k) = gs_creator st →
  ∃ st', sign st k = Ok st' ∧ check st' = Ok tt ∧ st' = set_sig st (gs_sig st').
Proof.
  intros Hwf Hk. unfold sign. rewrite bool_decide_false by auto.
  destruct (sign_bytes_total st Hwf) as [b Hb]. rewrite Hb. cbn [mbind result_bind].
  destruct (sign_raw_len k b) as [Hl Hw]. eexists. split; [done|]. split; [|done].
  apply check_ok. split; [by apply wf_set_sig|]. unfold verify_signature. cbn [set_sig gs_creator gs_sig].
  rewrite <- Hk. rewrite (proj2 (canonical_node_ok _ (public k))) by (split; [apply public_node|done]).
  cbn [mbind result_bind]. rewrite (hex_decode_encode _ Hw). cbn [ok_or mbind result_bind].
  rewrite Hl. cbn [Nat.eqb ensure mbind result_bind].
  change (sign_bytes (set_sig st _)) with (sign_bytes st). rewrite Hb. cbn [mbind result_bind].
  by rewrite verify_sign.
Qed.

Lemma sign_ok_inv st k st' :
  sign st k = Ok st' → ∃ sig, st' = set_sig st sig ∧ node_str (public k) = gs_creator st.
Proof.
  unfold sign. case_bool_decide as Hc; [done|]. intros (b & _ & [= <-])%bind_ok.
  by eexists.
Qed.

(** What the creator's key signed, as far as the verification of [st] shows. *)
Definition unforged_state (signed : list GroupState) (st : GroupState) : Prop :=
  ∀ creator raw b,
    node_parse (gs_creator st) = Some creator → hex_decode (as_bytes (gs_sig st)) = Some raw →
    sign_bytes st = Ok b → verify_raw creator b raw = true →
    ∃ st0, st0 ∈ signed ∧ sign_bytes st0 = Ok b.

Lemma check_authentic signed st :
  check st = Ok tt → unforged_state signed st →
  state_typed st → Forall state_typed signed → ∃ st0, st0 ∈ signed ∧ same_signed st0 st.
Proof.
  intros [Hwf Hv]%check_ok Hunf Hty Hsigned. unfold verify_signature in Hv.
  apply bind_ok in Hv as (c & [Hc _]%canonical_node_ok & Hv).
  apply bind_ok in Hv as (raw & Hraw%ok_or_ok & Hv). apply bind_ok in Hv as ([] & _ & Hv).
  apply bind_ok in Hv as (b & Hb & Hv%ensure_ok).
  destruct (Hunf _ _ _ Hc Hraw Hb Hv) as (st0 & Hin & Hb0). exists st0. split; [done|].
  rewrite Forall_forall in Hsigned. eapply sign_bytes_same; eauto.
Qed.

End GroupLaws.

(** ** Roster events *)

Lemma lists_spec st id : lists st id = true ↔ id ∈ (gm_node_id <$> gs_members st).
Proof.
  unfold lists. rewrite existsb_exists, list_elem_of_fmap. split.
  - intros (m & Hm%list_elem_of_In & Hd%bool_decide_eq_true). by exists m.
  - intros (m & -> & Hm%list_elem_of_In). exists m. split; [done|]. by apply bool_decide_eq_true.
Qed.

Lemma lists_false st id : lists st id = false ↔ id ∉ (gm_node_id <$> gs_members st).
Proof. rewrite <- lists_spec. destruct (lists st id); naive_solver. Qed.

Lemma contains_lists st node : contains st node = lists st (node_str node).
Proof. done. Qed.

Lemma elem_of_added (f : str → RosterEvent) (old : GroupState) (ms : list GroupMember)
    (ev : RosterEvent) :
  ev ∈ (f ∘ gm_node_id <$> filter (λ m, lists old (gm_node_id m) = false) ms) ↔
  ∃ id, ev = f id ∧ id ∈ (gm_node_id <$> ms) ∧ id ∉ (gm_node_id <$> gs_members old).
Proof.
  rewrite list_elem_of_fmap. split.
  - intros (m & -> & [Hl%lists_false Hm]%list_elem_of_filter). exists (gm_node_id m).
    split_and!; [done| |done]. by apply list_elem_of_fmap_2.
  - intros (id & -> & (m & -> & Hm)%list_elem_of_fmap & Hl%lists_false). exists m.
    split; [done|]. by apply list_elem_of_filter.
Qed.


(** ** The log *)

(** What [serde_json] documents: reading back what was written gives the
    value, the compact form is one line of text, and a proper prefix of an
    object is not a document.  (The model's strings and integers range over more
    than Rust's; the laws are assumed for all of them.) *)
Class SerdeLaws := {
  dec_enc_log : ∀ r, dec_log (enc_log r) = Some r;
  enc_log_line : ∀ r, wf_str (enc_log r) ∧ (10%N ∉ enc_log r) ∧ (13%N ∉ enc_log r) ∧ enc_log r ≠ [];
  dec_log_torn : ∀ r p tl, enc_log r = p ++ tl → tl ≠ [] → dec_log p = None;
  dec_enc_groups : ∀ l, dec_groups (enc_groups l) = Some l;
}.

(** The file that holds the lines of [recs]. *)
Definition log_image (recs : list GroupLogRec) : bytes :=
  as_bytes (recs ≫= λ r, enc_log r ++ [10%N]).

Section LogLaws.
Context {SL : SerdeLaws}.

Lemma log_image_app l1 l2 : log_image (l1 ++ l2) = log_image l1 ++ log_image l2.
Proof. unfold log_image. by rewrite bind_app, as_bytes_app. Qed.

Lemma append_log_image recs r :
  append_log (Some (log_image recs)) r = Some (log_image (recs ++ [r])).
Proof.
  unfold append_log. rewrite log_image_app. cbn [default from_option]. do 2 f_equal.
  unfold log_image. rewrite bind_cons. cbn [mbind list_bind]. by rewrite app_nil_r, as_bytes_app.
Qed.

Definition log_text (recs : list GroupLogRec) : str := recs ≫= λ r, enc_log r ++ [10%N].

Lemma log_text_wf recs : wf_str (log_text recs).
Proof.
  induction recs as [|r recs IH]; [constructor|]. unfold log_text. rewrite bind_cons.
  apply Forall_app. split; [|done]. apply Forall_app. split; [apply enc_log_line|].
  constructor; [|constructor]. unfold is_scalar. lia.
Qed.

(** The lines of an image followed by anything. *)
Lemma lines_log_text recs s : lines (log_text recs ++ s) = (enc_log <$> recs) ++ lines s.
Proof.
  induction recs as [|r recs IH]; [done|]. unfold log_text. rewrite bind_cons.
  fold (log_text recs). rewrite <- !app_assoc. unfold lines at 1.
  destruct (enc_log_line r) as (_ & Hnl & Hcr & _).
  rewrite lines_from_app_nl, lines_from_line by done. cbn [app fmap list_fmap].
  by rewrite strip_cr_id, IH.
Qed.

Lemma omap_dec_enc (recs : list GroupLogRec) : omap dec_log (enc_log <$> recs) = recs.
Proof. induction recs as [|r recs IH]; [done|]. cbn. by rewrite dec_enc_log, IH. Qed.

(** An image followed by some text that is still valid UTF-8. *)
Lemma read_log_image recs s :
  wf_str s → read_log (Some (log_image recs ++ as_bytes s)) = recs ++ omap dec_log (lines s).
Proof.
  intros Hs. unfold read_log, log_image. cbn [mbind option_bind].
  rewrite <- as_bytes_app, from_utf8_as_bytes.
  2: { apply Forall_app. split; [by apply log_text_wf|done]. }
  fold (log_text recs). by rewrite lines_log_text, omap_app, omap_dec_enc.
Qed.

Lemma read_log_exact recs : read_log (Some (log_image recs)) = recs.
Proof.
  pose proof (read_log_image recs [] ltac:(constructor)) as H.
  cbn in H. by rewrite !app_nil_r in H.
Qed.

Lemma read_log_cut recs s c p q :
  wf_str s → is_scalar c → utf8_char c = p ++ q → p ≠ [] → q ≠ [] →
  read_log (Some (log_image recs ++ as_bytes s ++ p)) = [].
Proof.
  intros Hs Hc Hp H1 H2. unfold read_log, log_image. cbn [mbind option_bind].
  rewrite app_assoc, <- as_bytes_app, from_utf8_app.
  2: { apply Forall_app. split; [by apply log_text_wf|done]. }
  by rewrite (from_utf8_cut c p q).
Qed.

(** A line cut short on a character boundary. *)
Lemma lines_no_nl s : 10%N ∉ s → lines s = if bool_decide (s = []) then [] else [s].
Proof. apply lines_from_no_nl. Qed.

Lemma read_log_torn recs r s tl :
  enc_log r = s ++ tl → tl ≠ [] → read_log (Some (log_image recs ++ as_bytes s)) = recs.
Proof.
  intros He Htl. destruct (enc_log_line r) as (Hs & Hnl & _).
  rewrite He in Hs, Hnl. apply Forall_app in Hs as [Hs _].
  rewrite read_log_image by done. apply not_elem_of_app in Hnl as [Hnl _].
  rewrite lines_no_nl by done. case_bool_decide; cbn; [by rewrite app_nil_r|].
  rewrite (dec_log_torn r s tl) by done. by rewrite app_nil_r.
Qed.

(** ** Counters from the log *)

Definition is_own (me : str) (r : GroupLogRec) : bool :=
  bool_decide (lr_from r = me) && bool_decide (lr_dir r = lit "out").
Definition is_from (me a : str) (r : GroupLogRec) : bool :=
  negb (is_own me r) && bool_decide (lr_dir r = lit "in") && bool_decide (lr_from r = a).

(** The largest of the [f]-values of the records that satisfy [p]. *)
Definition max_over (p : GroupLogRec → bool) (f : GroupLogRec → N) (l : list GroupLogRec) : N :=
  foldl (λ n r, if p r then N.max n (f r) else n) 0%N l.

Lemma foldl_max_ge (p : GroupLogRec → bool) f l : ∀ n,
  foldl (λ n r, if p r then N.max n (f r) else n) n l
  = N.max n (foldl (λ n r, if p r then N.max n (f r) else n) 0%N l).
Proof.
  induction l as [|r l IH]; intros n; cbn; [lia|].
  rewrite IH, (IH (if p r then _ else _)). destruct (p r); lia.
Qed.

Lemma max_over_snoc p f l r :
  max_over p f (l ++ [r]) = if p r then N.max (max_over p f l) (f r) else max_over p f l.
Proof. unfold max_over. by rewrite foldl_app. Qed.

Lemma scan_own me l : ∀ s,
  ls_own_max (foldl (scan_step me) s l)
  = foldl (λ n r, if is_own me r then N.max n (lr_seq r) else n) (ls_own_max s) l.
Proof.
  induction l as [|r l IH]; intros s; cbn; [done|]. rewrite IH. f_equal.
  unfold scan_step, is_own. destruct (_ && _); [done|]. by case_bool_decide.
Qed.

Lemma scan_ts me l : ∀ s,
  ls_last_ts_eff (foldl (scan_step me) s l)
  = foldl (λ n r, N.max n (lr_ts_eff r)) (ls_last_ts_eff s) l.
Proof.
  induction l as [|r l IH]; intros s; cbn; [done|]. rewrite IH. f_equal.
  unfold scan_step. destruct (_ && _); [done|]. by case_bool_decide.
Qed.

Lemma scan_in me a l : ∀ s,
  default 0%N (ls_in_max (foldl (scan_step me) s l) !! a)
  = foldl (λ n r, if is_from me a r then N.max n (lr_seq r) else n)
      (default 0%N (ls_in_max s !! a)) l.
Proof.
  induction l as [|r l IH]; intros s; cbn; [done|]. rewrite IH. f_equal.
  unfold scan_step, is_from, is_own. destruct (_ && _) eqn:Ho; [done|]. cbn [negb andb].
  destruct (bool_decide (lr_dir r = lit "in")); [|done]. cbn [ls_in_max andb]. unfold max_at.
  destruct (decide (lr_from r = a)) as [<-|Hne].
  - by rewrite lookup_insert_eq, bool_decide_true.
  - by rewrite lookup_insert_ne, bool_decide_false.
Qed.

Lemma scan_log_spec file me :
  let recs := read_log file in
  ls_own_max (scan_log file me) = max_over (is_own me) lr_seq recs ∧
  (∀ a, default 0%N (ls_in_max (scan_log file me) !! a) = max_over (is_from me a) lr_seq recs) ∧
  ls_last_ts_eff (scan_log file me) = max_over (λ _, true) lr_ts_eff recs.
Proof.
  intros recs. unfold scan_log. fold recs. split_and!.
  - apply scan_own.
  - intros a. rewrite scan_in. cbn [ls_in_max]. by rewrite lookup_empty.
  - apply scan_ts.
Qed.

(** ** [groups.json] *)

Lemma sorted_entries_perm m : sorted_entries m ≡ₚ map_to_list m.
Proof. apply merge_sort_Permutation. Qed.

Lemma sorted_entries_lookup m k r : (k, r) ∈ sorted_entries m ↔ m !! k = Some r.
Proof. by rewrite sorted_entries_perm, elem_of_map_to_list. Qed.

Lemma sorted_entries_keys m : NoDup (sorted_entries m).*1.
Proof. rewrite sorted_entries_perm. apply NoDup_fst_map_to_list. Qed.

Lemma sorted_entries_map m : list_to_map (sorted_entries m) = m.
Proof.
  rewrite <- (list_to_map_to_list m) at 2. apply list_to_map_proper; [apply sorted_entries_keys|].
  apply sorted_entries_perm.
Qed.

Lemma length_sorted_entries m : length (sorted_entries m) = size m.
Proof. by rewrite sorted_entries_perm, length_map_to_list. Qed.

(** The invariant of the map in memory: keyed by group id, every state valid
    and signed. *)
Definition groups_ok (m : gmap str GroupRec) : Prop :=
  map_Forall (λ k r, gs_gid (gr_state r) = k ∧ check (gr_state r) = Ok tt) m.

Lemma load_fold l : ∀ out,
  (∀ k r, (k, r) ∈ l → gs_gid (gr_state r) = k ∧ check (gr_state r) = Ok tt) →
  NoDup l.*1 → (∀ k, k ∈ l.*1 → out !! k = None) →
  foldl load_step out l.*2 = list_to_map (take (N.to_nat MAX_GROUPS - size out) l) ∪ out.
Proof.
  induction l as [|[k r] l IH]; intros out Hok Hnd Hfresh; cbn [fmap list_fmap foldl].
  { cbn. rewrite take_nil. cbn. by rewrite (left_id_L ∅ (∪)). }
  destruct (Hok k r) as [Hk Hc]; [by left|]. apply NoDup_cons in Hnd as [Hkl Hnd].
  assert (Hout : out !! k = None) by (apply Hfresh; by left).
  unfold load_step at 2. cbn [snd]. rewrite Hk, Hc, Hout, bool_decide_false by (by intros [? ?]).
  cbn [is_ok negb orb]. rewrite orb_false_r, orb_false_r.
  destruct (N.leb_spec MAX_GROUPS (N.of_nat (size out))) as [Hfull|Hroom].
  - rewrite IH; [|intros k' r' ?; apply Hok; by right|done|intros ??; apply Hfresh; by right].
    replace (N.to_nat MAX_GROUPS - size out) with 0 by lia. done.
  - rewrite IH; [|intros k' r' ?; apply Hok; by right|done|].
    2: { intros k' Hk'. rewrite lookup_insert_ne by (by intros <-). apply Hfresh. by right. }
    rewrite map_size_insert_None by done.
    replace (N.to_nat MAX_GROUPS - size out) with (S (N.to_nat MAX_GROUPS - S (size out))) by lia.
    cbn [take list_to_map foldr]. rewrite <- insert_union_r; [by rewrite insert_union_l|].
    apply not_elem_of_list_to_map_1. intros Hin. apply Hkl. rewrite fmap_take in Hin.
    by apply subseteq_take in Hin.
Qed.

Lemma load_save d m :
  groups_ok m →
  load_groups (save_groups (SaveOutcome None true) d m).2
  = (list_to_map (take (N.to_nat MAX_GROUPS) (sorted_entries m)),
     (save_groups (SaveOutcome None true) d m).2).
Proof.
  intros Hok. unfold load_groups, save_groups. cbn [so_cut so_rename snd gd_json].
  rewrite dec_enc_groups.
  f_equal. unfold group_values.
  rewrite load_fold; [|intros k r Hin; by apply Hok, sorted_entries_lookup|
    apply sorted_entries_keys|intros k _; apply lookup_empty].
  by rewrite map_size_empty, Nat.sub_0_r, (right_id_L ∅ (∪)).
Qed.

Lemma load_step_ok out r : groups_ok out → groups_ok (load_step out r).
Proof.
  intros Hok. unfold load_step. destruct (_ || _) eqn:Hb; [done|].
  apply orb_false_iff in Hb as [_ Hc]. apply negb_false_iff in Hc.
  apply map_Forall_insert_2; [|done]. split; [done|].
  by destruct (check (gr_state r)) as [[]|].
Qed.

Lemma load_groups_ok d : groups_ok (load_groups d).1.
Proof.
  unfold load_groups. destruct (gd_json d) as [data|]; [|apply map_Forall_empty].
  destruct (dec_groups data) as [groups|]; [|apply map_Forall_empty]. cbn [fst].
  generalize (map_Forall_empty (M := gmap str)
    (λ k r, gs_gid (gr_state r) = k ∧ check (gr_state r) = Ok tt)).
  generalize (∅ : gmap str GroupRec). induction groups as [|r groups IH]; intros out Hout; [done|].
  apply IH. by apply load_step_ok.
Qed.

Lemma load_groups_size d : (N.of_nat (size (load_groups d).1) ≤ MAX_GROUPS)%N.
Proof.
  unfold load_groups. destruct (gd_json d) as [data|]; [|done].
  destruct (dec_groups data) as [groups|]; [|done]. cbn [fst].
  assert (N.of_nat (size (∅ : gmap str GroupRec)) ≤ MAX_GROUPS)%N as H by done. revert H.
  generalize (∅ : gmap str GroupRec). induction groups as [|r groups IH]; intros out Hout; [done|].
  apply IH. unfold load_step. destruct (N.leb_spec MAX_GROUPS (N.of_nat (size out))); [done|].
  cbn [orb]. destruct (_ || _); [done|]. pose proof (map_size_insert (gs_gid (gr_state r)) r out) as Hs.
  destruct (out !! _); cbn in Hs; lia.
Qed.

End LogLaws.

(** ** The properties *)

Section Properties.
Context {L : PlatformLaws} {SL : SerdeLaws}.

Lemma sign_members_ext ms : ∀ ms' out,
  (λ m, (gm_node_id m, gm_name m)) <$> ms = (λ m, (gm_node_id m, gm_name m)) <$> ms' →
  sign_members out ms = sign_members out ms'.
Proof.
  induction ms as [|m ms IH]; intros [|m' ms'] out Heq; try done. injection Heq as Hi Hn Hms.
  cbn. rewrite Hi, Hn. destruct (canonical_node (gm_node_id m')); cbn; [|done].
  destruct (push_str _ (gm_name m')); cbn; [|done]. by apply IH.
Qed.

(** [C38] The bytes under a membership signature determine the group id, the
    epoch, whether the group is closed, its name and the ordered list of member
    ids and names, and nothing else: two states have the same signed bytes
    exactly when they agree on those. *)
Theorem sign_bytes_injective st st' b :
  state_typed st → state_typed st' → sign_bytes st = Ok b →
  sign_bytes st' = Ok b ↔ same_signed st st'.
Proof.
  intros Hty Hty' Hb. split; [by intros; eapply sign_bytes_same|].
  intros (Hg & He & Hc & Hn & Hm). rewrite <- Hb. unfold sign_bytes.
  assert (length (gs_members st) = length (gs_members st')) as Hl.
  { apply (f_equal length) in Hm. unfold signed_members in Hm. by rewrite !length_fmap in Hm. }
  rewrite <- Hg, <- He, <- Hc, <- Hn, <- Hl.
  destruct (hex_decode (as_bytes (gs_gid st))) as [g|]; cbn [ok_or mbind result_bind]; [|done].
  destruct (ensure _ EGid); cbn [mbind result_bind]; [|done].
  destruct (push_str _ (gs_name st)); cbn [mbind result_bind]; [|done].
  destruct (ensure _ ETooManyMembers); cbn [mbind result_bind]; [|done].
  symmetry. by apply sign_members_ext.
Qed.

(** [validate] accepts exactly the well-formed states: a 16-byte hex
    group id, the creator first, a positive epoch, bounded names, 1 to 5 distinct
    members with canonical ids and at most three parsable addresses each, and only
    the creator in a closed group. *)
Theorem validate_correct st : validate st = Ok tt ↔ wf_state st.
Proof. apply validate_ok. Qed.

Lemma sign_members_not_signer ms : ∀ out, sign_members out ms ≠ Err ENotSigner.
Proof.
  induction ms as [|m ms IH]; intros out; cbn; [done|]. unfold canonical_node.
  destruct (node_parse (gm_node_id m)); cbn; [|done]. case_bool_decide; cbn; [done|].
  unfold push_str. case_match; cbn; [apply IH|done].
Qed.

Lemma sign_bytes_not_signer st : sign_bytes st ≠ Err ENotSigner.
Proof.
  unfold sign_bytes. destruct (hex_decode _); cbn [ok_or mbind result_bind]; [|done].
  destruct (_ =? 16); cbn [ensure mbind result_bind]; [|done].
  unfold push_str. case_match; cbn [ensure mbind result_bind]; [|done].
  destruct (N.of_nat (length (gs_members st)) <? 256)%N; cbn [ensure mbind result_bind]; [|done]. apply sign_members_not_signer.
Qed.

(** What the creator signs is accepted by every device, and only the
    creator can sign. *)
Theorem signed_states_check st k :
  match sign st k with
  | Ok st' => same_signed st st' ∧ node_str (public k) = gs_creator st' ∧
      (wf_state st → check st' = Ok tt)
  | Err ENotSigner => node_str (public k) ≠ gs_creator st
  | Err _ => ¬ wf_state st
  end.
Proof.
  destruct (sign st k) as [st'|e] eqn:Hs.
  - destruct (sign_ok_inv _ _ _ Hs) as (sig & -> & Hk). split; [done|]. split; [done|].
    intros Hwf. destruct (sign_check st k Hwf Hk) as (st'' & Hs' & Hc & _). congruence.
  - unfold sign in Hs. case_bool_decide as Hk; [by injection Hs as <-|].
    assert (¬ wf_state st).
    { intros Hwf. destruct (sign_bytes_total st Hwf) as [b Hb]. by rewrite Hb in Hs. }
    destruct e; try done. destruct (sign_bytes st) as [b|e] eqn:Hb; [done|].
    cbn in Hs. injection Hs as ->. by apply sign_bytes_not_signer in Hb.
Qed.

(** [C3] A received roster that is accepted is one its creator signed (same
    group, epoch, name and members), whoever relayed it, signatures not being forged;
    it is well formed, it never rolls a known group back or changes its creator, and
    it counts as a removal of this device exactly when it closes the group or does
    not list it; a first one lists it and is open. *)
Theorem accepted_roster_authentic local st me v signed :
  evaluate_incoming local st me = Ok v → unforged_state signed st →
  state_typed st → Forall state_typed signed →
  wf_state st ∧ (∃ st0, st0 ∈ signed ∧ same_signed st0 st) ∧
  match local, v with
  | None, Create => gs_closed st = false ∧ contains st me = true
  | Some rec, Stale => (gs_epoch st ≤ gs_epoch (gr_state rec))%N
  | Some rec, Update removed => gs_creator st = gs_creator (gr_state rec) ∧
      (gs_epoch (gr_state rec) < gs_epoch st)%N ∧
      (removed = true ↔ gs_closed st = true ∨ contains st me = false)
  | _, _ => False
  end.
Proof.
  unfold evaluate_incoming. intros ([] & Hc & Hv)%bind_ok Hunf Hty Hsg.
  split; [by apply check_ok in Hc as [? _]|]. split; [by eapply check_authentic|].
  destruct local as [rec|].
  - case_bool_decide as Hcr; [done|].
    destruct (N.leb_spec (gs_epoch st) (gs_epoch (gr_state rec))); injection Hv as <-; [done|].
    split; [done|]. split; [done|]. by rewrite orb_true_iff, negb_true_iff.
  - destruct (gs_closed st); [done|]. destruct (contains st me); [|done]. by injection Hv as <-.
Qed.

(** The roster events are exactly the differences between two states:
    the new name if it changed, the members that came and those that went, each
    once; a disband is reported alone. *)
Theorem roster_events_correct old new :
  NoDup (gm_node_id <$> gs_members old) → NoDup (gm_node_id <$> gs_members new) →
  let evs := roster_events old new in
  NoDup evs ∧
  (Disbanded ∈ evs ↔ gs_closed new = true ∧ gs_closed old = false) ∧
  (evs = [Disbanded] ∨
    (∀ n, Renamed n ∈ evs ↔ n = gs_name new ∧ gs_name new ≠ gs_name old) ∧
    (∀ i, Added i ∈ evs ↔ lists new i = true ∧ lists old i = false) ∧
    (∀ i, Removed i ∈ evs ↔ lists old i = true ∧ lists new i = false)).
Proof.
  intros Hno Hnn. unfold roster_events.
  destruct (gs_closed new && negb (gs_closed old)) eqn:Hd; cbn zeta.
  { apply andb_true_iff in Hd as [Hd1 Hd2%negb_true_iff].
    split; [apply NoDup_singleton|]. split; [|by left].
    split; [done|]. intros _. by left. }
  set (rn := if bool_decide _ then _ else _).
  assert (Hrn : ∀ ev, ev ∈ rn ↔ ev = Renamed (gs_name new) ∧ gs_name new ≠ gs_name old).
  { intros ev. unfold rn. case_bool_decide; rewrite ?list_elem_of_singleton, ?elem_of_nil; tauto. }
  assert (Hdis : ¬ (gs_closed new = true ∧ gs_closed old = false)).
  { intros [H1 H2]. by rewrite H1, H2 in Hd. }
  split; [|split].
  - apply NoDup_app. split; [unfold rn; case_bool_decide; [apply NoDup_singleton|constructor]|].
    split.
    { intros ev [-> _]%Hrn [(i & [=] & _)%elem_of_added|(i & [=] & _)%elem_of_added]%elem_of_app. }
    apply NoDup_app. split; [|split].
    + rewrite list_fmap_compose. apply NoDup_fmap; [by intros ?? [= ->]|].
      eapply sublist_NoDup; [exact Hnn|]. apply fmap_sublist, sublist_filter.
    + intros ev (i & -> & _)%elem_of_added (j & [=] & _)%elem_of_added.
    + rewrite list_fmap_compose. apply NoDup_fmap; [by intros ?? [= ->]|].
      eapply sublist_NoDup; [exact Hno|]. apply fmap_sublist, sublist_filter.
  - split; [|done].
    intros [[[=] _]%Hrn|[(i & [=] & _)%elem_of_added|(i & [=] & _)%elem_of_added]%elem_of_app]%elem_of_app.
  - right. split_and!; intros i; rewrite !elem_of_app, Hrn, !elem_of_added, ?lists_spec, ?lists_false;
      naive_solver.
Qed.

(** Reading a group's log gives back every appended record in order; a
    last line that was cut short on a character boundary is skipped without losing
    the records before it. *)
Theorem log_append_read recs r s tl :
  enc_log r = s ++ tl →
  append_log (Some (log_image recs)) r = Some (log_image (recs ++ [r])) ∧
  read_log (Some (log_image (recs ++ [r]))) = recs ++ [r] ∧
  (∀ limit, load_group_log (Some (log_image (recs ++ [r]))) limit
     = drop (S (length recs) - limit) (recs ++ [r])) ∧
  (tl ≠ [] → read_log (Some (log_image recs ++ as_bytes s)) = recs).
Proof.
  intros He.
  assert (Hread : read_log (Some (log_image (recs ++ [r]))) = recs ++ [r]) by apply read_log_exact.
  split; [apply append_log_image|]. split; [done|]. split.
  - intros limit. unfold load_group_log. rewrite Hread, length_app. do 2 f_equal. cbn. lia.
  - intros Htl. by eapply read_log_torn.
Qed.

(** A write that was cut inside a character makes the whole log
    unreadable, not only its last line: [read_to_string] rejects the file. *)
Theorem log_torn_character recs s c p q :
  wf_str s → is_scalar c →
  utf8_char c = p ++ q → p ≠ [] → q ≠ [] →
  read_log (Some (log_image recs ++ as_bytes s ++ p)) = [].
Proof. apply read_log_cut. Qed.

(** [groups.json] is replaced atomically: whatever happens to the write
    or the rename, the next start loads either what it would have loaded before or
    the saved map (its first 16 records in key order), and what it loads is always
    keyed by group id, valid, correctly signed and at most 16 groups. *)
Theorem groups_file_atomic d m o :
  groups_ok m →
  let '(r, d') := save_groups o d m in
  let loaded := (load_groups d').1 in
  (r = Ok tt → loaded = list_to_map (take (N.to_nat MAX_GROUPS) (sorted_entries m))) ∧
  (r = Ok tt → (N.of_nat (size m) ≤ MAX_GROUPS)%N → loaded = m) ∧
  (r ≠ Ok tt → loaded = (load_groups d).1) ∧
  groups_ok loaded ∧ (N.of_nat (size loaded) ≤ MAX_GROUPS)%N.
Proof.
  intros Hok. destruct (save_groups o d m) as [r d'] eqn:Hs. cbn zeta.
  assert (Hload : r = Ok tt →
    (load_groups d').1 = list_to_map (take (N.to_nat MAX_GROUPS) (sorted_entries m))).
  { destruct o as [[n|] []]; unfold save_groups in Hs; cbn in Hs; injection Hs as <- <-; try done.
    intros _. pose proof (load_save d m Hok) as Hl. unfold save_groups in Hl. cbn [so_cut so_rename snd] in Hl.
    by rewrite Hl. }
  split_and!; [done| | |apply load_groups_ok|apply load_groups_size].
  - intros Hr Hsz. rewrite Hload by done. rewrite take_ge by (rewrite length_sorted_entries; lia).
    apply sorted_entries_map.
  - intros Hr. destruct o as [[n|] []]; unfold save_groups in Hs; cbn in Hs;
      injection Hs as <- <-; try done; unfold load_groups; cbn [gd_json]; by repeat case_match.
Qed.

End Properties.

End Groups.

(** ** A concrete serialiser

    A value is written as the binary digits of a code of it, and a full stop. *)
Module ToySerde.

(** Values as lists of numbers. *)
Class Tok (A : Type) := { put : A → list N; get : list N → option (A * list N) }.
Class TokLaw (A : Type) `{!Tok A} := get_put (a : A) l : get (put a ++ l) = Some (a, l).

#[export] Hint Mode Tok ! : typeclass_instances.
#[export] Hint Mode TokLaw ! - : typeclass_instances.

#[export] Instance tok_N : Tok N :=
  {| put n := [n]; get l := match l with n :: l => Some (n, l) | [] => None end |}.
#[export] Instance tok_bool : Tok bool :=
  {| put (b : bool) := [if b then 1 else 0]%N; get l := match l with n :: l => Some ((n =? 1)%N, l) | [] => None end |}.
#[export] Instance tok_prod {A B : Type} `{!Tok A, !Tok B} : Tok (A * B) :=
  {| put (x : A * B) := put x.1 ++ put x.2;
     get l := match get l with
              | Some (a, l) => match get l with Some (b, l) => Some ((a, b), l) | None => None end
              | None => None
              end |}.
#[export] Instance tok_option {A : Type} `{!Tok A} : Tok (option A) :=
  {| put (o : option A) := match o with Some a => 1%N :: put a | None => [0%N] end;
     get l := match l with
              | [] => None
              | n :: l => if (n =? 0)%N then Some (None, l) else match get l with Some (a, l) => Some (Some a, l) | None => None end
              end |}.
Fixpoint get_list {A : Type} `{!Tok A} (n : nat) (l : list N) : option (list A * list N) :=
  match n with
  | O => Some ([], l)
  | S n => match get l with
           | Some (a, l) => match get_list n l with Some (r, l) => Some (a :: r, l) | None => None end
           | None => None
           end
  end.
#[export] Instance tok_list {A : Type} `{!Tok A} : Tok (list A) :=
  {| put (x : list A) := N.of_nat (length x) :: (x ≫= put);
     get l := match l with n :: l => get_list (N.to_nat n) l | [] => None end |}.
Definition tok_via {A B : Type} `{!Tok B} (f : A → B) (h : B → A) : Tok A :=
  {| put (a : A) := put (f a); get l := match get l with Some (b, l) => Some (h b, l) | None => None end |}.

#[export] Instance law_N : TokLaw N. Proof. done. Qed.
#[export] Instance law_bool : TokLaw bool. Proof. by intros [] l. Qed.
#[export] Instance law_prod {A B : Type} `{TokLaw A, TokLaw B} : TokLaw (A * B).
Proof. intros [a b] l. cbn. by rewrite <- app_assoc, (get_put a), (get_put b). Qed.
#[export] Instance law_option {A : Type} `{TokLaw A} : TokLaw (option A).
Proof. intros [a|] l; cbn; [|done]. by rewrite (get_put a). Qed.
#[export] Instance law_list {A : Type} `{TokLaw A} : TokLaw (list A).
Proof.
  intros x l. cbn. rewrite Nat2N.id. induction x as [|a x IH]; cbn; [done|].
  rewrite <- app_assoc, (get_put a). cbn. by rewrite IH.
Qed.
Lemma law_via {A B : Type} `{TokLaw B} (f : A → B) (h : B → A) :
  (∀ a, h (f a) = a) → ∀ a l, get (Tok := tok_via f h) (put (Tok := tok_via f h) a ++ l) = Some (a, l).
Proof. intros Hh a l. cbn. rewrite (get_put (f a) l). cbn. by rewrite Hh. Qed.

#[export] Instance tok_map : Tok (gmap str N) := tok_via map_to_list list_to_map.
#[export] Instance tok_file : Tok GroupFileRec :=
  tok_via (λ f, (gf_name f, gf_size f, gf_mime f, gf_path f)) (λ '(n, s, m, p), FileRec n s m p).
#[export] Instance tok_line : Tok GroupLogRec :=
  tok_via (λ r, (((lr_seq r, lr_from r), (lr_id r, lr_ts r)), ((lr_ts_eff r, lr_dir r),
      (lr_text r, lr_reply_to r)), (lr_reply_text r, lr_file r)))
    (λ '(((a, b), (c, d)), ((e, f), (g, h)), (i, j)), LogRec a b c d e f g h i j).
#[export] Instance tok_member : Tok GroupMember :=
  tok_via (λ m, (gm_node_id m, gm_name m, gm_addrs m)) (λ '(a, b, c), Member a b c).
#[export] Instance tok_state : Tok GroupState :=
  tok_via (λ s, (((gs_gid s, gs_creator s), (gs_epoch s, gs_name s)),
      ((gs_closed s, gs_members s), gs_sig s)))
    (λ '(((a, b), (c, d)), ((e, f), g)), State a b c d e f g).
#[export] Instance tok_rec : Tok GroupRec :=
  tok_via (λ r, (((gr_state r, gr_removed r), (gr_next_seq r, gr_sent_cursor r)),
      ((gr_have r, gr_state_cursor r), (gr_pending_leave r, gr_hidden r))))
    (λ '(((a, b), (c, d)), ((e, f), (g, h))), Rec a b c d e f g h).

#[export] Instance law_map : TokLaw (gmap str N) := law_via _ _ list_to_map_to_list.
#[export] Instance law_file : TokLaw GroupFileRec := law_via _ _ (λ '(FileRec _ _ _ _), eq_refl).
#[export] Instance law_line : TokLaw GroupLogRec := law_via _ _ (λ '(LogRec _ _ _ _ _ _ _ _ _ _), eq_refl).
#[export] Instance law_member : TokLaw GroupMember := law_via _ _ (λ '(Member _ _ _), eq_refl).
#[export] Instance law_state : TokLaw GroupState := law_via _ _ (λ '(State _ _ _ _ _ _ _), eq_refl).
#[export] Instance law_rec : TokLaw GroupRec := law_via _ _ (λ '(Rec _ _ _ _ _ _ _ _), eq_refl).

(** Numbers as text: binary digits, the lowest first, then a dot. *)
Fixpoint bits (p : positive) (tl : str) : str :=
  match p with xH => 46%N :: tl | xO p => 48%N :: bits p tl | xI p => 49%N :: bits p tl end.
Definition write (ts : list N) : str := foldr (λ n, bits (N.succ_pos n)) [] ts.
Definition read_char (c : N) (acc : option (list positive)) : option (list positive) :=
  ts ← acc;
  if (c =? 46)%N then Some (xH :: ts) else
  match ts with
  | [] => None
  | p :: ts => if (c =? 48)%N then Some (xO p :: ts) else Some (xI p :: ts)
  end.
Definition read_positives (s : str) : option (list positive) := foldr read_char (Some []) s.
Definition read (s : str) : option (list N) := fmap (M := list) Pos.pred_N <$> read_positives s.

Lemma read_bits p tl : read_positives (bits p tl) = cons p <$> read_positives tl.
Proof.
  unfold read_positives. induction p as [p IH|p IH|]; cbn [bits foldr]; [rewrite IH..|];
    by destruct (foldr _ _ tl).
Qed.

Lemma read_positives_write ts : read_positives (write ts) = Some (N.succ_pos <$> ts).
Proof. induction ts as [|n ts IH]; [done|]. cbn [write foldr]. fold (write ts). by rewrite read_bits, IH. Qed.

Lemma pred_succ ts : fmap (M := list) Pos.pred_N (N.succ_pos <$> ts) = ts.
Proof. induction ts as [|n ts IH]; [done|]. cbn. by rewrite IH, N.pos_pred_succ. Qed.

Lemma read_write ts : read (write ts) = Some ts.
Proof. unfold read. rewrite read_positives_write. cbn. by rewrite pred_succ. Qed.

(** A cut leaves a number unfinished, or fewer numbers. *)
Lemma bits_cut p tl : ∀ q rest, bits p tl = q ++ rest →
  q = [] ∨ read_positives q = None ∨ ∃ q', q = bits p q' ∧ tl = q' ++ rest.
Proof.
  induction p as [p IH|p IH|]; intros [|c q] rest Hq; cbn in Hq; try (by left); right;
    injection Hq as <- Hq; [..|right; by exists q].
  all: destruct (IH q rest Hq) as [->|[Hn|(q' & -> & ?)]]; [by left| |right; by exists q'].
  all: left; unfold read_positives in *; cbn; by rewrite Hn.
Qed.

Lemma read_cut ts : ∀ q rest, write ts = q ++ rest → rest ≠ [] →
  read q = None ∨ ∃ k, k < length ts ∧ read q = Some (take k ts).
Proof.
  unfold read. induction ts as [|n ts IH]; intros q rest Hq Hrest.
  { symmetry in Hq. by apply app_eq_nil in Hq as [_ ->]. }
  cbn [write foldr] in Hq. fold (write ts) in Hq. destruct (bits_cut _ _ _ _ Hq) as [->|[Hn|(q' & -> & Hw)]].
  - right. exists 0. split; [cbn; lia|done].
  - left. by rewrite Hn.
  - rewrite read_bits. destruct (IH q' rest Hw Hrest) as [Hn|(k & Hk & Hr)].
    + left. by destruct (read_positives q').
    + right. exists (S k). split; [cbn; lia|]. destruct (read_positives q') as [ps|]; [|done].
      cbn in *. injection Hr as ->. by rewrite N.pos_pred_succ.
Qed.

Lemma write_chars ts : Forall (λ c, c = 46 ∨ c = 48 ∨ c = 49)%N (write ts).
Proof.
  induction ts as [|n ts IH]; [constructor|]. cbn [write foldr]. fold (write ts).
  induction (N.succ_pos n); cbn; auto.
Qed.

(** A line starts with how many numbers it has. *)
Definition enc_line (r : GroupLogRec) : str := write (N.of_nat (length (put r)) :: put r).
Definition dec_line (s : str) : option GroupLogRec :=
  match read s with
  | Some (n :: ts) => if (n =? N.of_nat (length ts))%N then fst <$> get ts else None
  | _ => None
  end.

#[export] Instance serde : Serde := {|
  enc_log := enc_line;
  dec_log := dec_line;
  enc_groups l := write (put l);
  dec_groups s := ts ← read s; fst <$> get ts;
|}.

#[export] Instance serde_laws : SerdeLaws.
Proof.
  split; cbn [enc_log dec_log enc_groups dec_groups serde].
  - intros r. unfold dec_line, enc_line. rewrite read_write, N.eqb_refl.
    by rewrite <- (app_nil_r (put r)), get_put.
  - intros r. unfold enc_line. pose proof (write_chars (N.of_nat (length (put r)) :: put r)) as Hc. split_and!.
    + eapply Forall_impl; [exact Hc|]. unfold is_scalar. cbn. lia.
    + intros Hin. rewrite Forall_forall in Hc. apply Hc in Hin. lia.
    + intros Hin. rewrite Forall_forall in Hc. apply Hc in Hin. lia.
    + cbn. by destruct (N.succ_pos _).
  - intros r p tl Hp Htl. unfold dec_line, enc_line in *.
    destruct (read_cut _ _ _ Hp Htl) as [->|(k & Hk & ->)]; [done|].
    destruct k as [|k]; [done|]. cbn [take]. rewrite length_take. cbn [length] in Hk.
    destruct (N.eqb_spec (N.of_nat (length (put r))) (N.of_nat (k `min` length (put r)))); [lia|done].
  - intros l. rewrite read_write. cbn [mbind option_bind]. by rewrite <- (app_nil_r (put l)), get_put.
Qed.

End ToySerde.

(** ** A concrete group *)

#[local] Existing Instances ToyNet.platform ToyNet.platform_laws ToySerde.serde ToySerde.serde_laws.

Module Sample.

Definition alice : node_id := ToyNet.public 5.
Definition bob : node_id := ToyNet.public 7.
Definition gid : str := hex_encode (replicate 16 171%N).
Definition unsigned (epoch : N) (name : str) (ids : list node_id) : GroupState :=
  State gid (node_str alice) epoch name false ((λ i, Member (node_str i) "m" []) <$> ids) [].
Definition signed (epoch : N) (name : str) (ids : list node_id) : GroupState :=
  match sign (unsigned epoch name ids) (5%N : secret_key) with Ok st => st | Err _ => unsigned 0 [] [] end.
Definition st1 : GroupState := signed 1 "walk" [alice; bob].
Definition st2 : GroupState := signed 2 "hike" [alice].

Lemma st1_check : check st1 = Ok tt.
Proof. vm_compute. reflexivity. Qed.
Lemma st2_check : check st2 = Ok tt.
Proof. vm_compute. reflexivity. Qed.

Lemma ascii_wf s : forallb (λ c, c <? 128)%N s = true → wf_str s.
Proof.
  intros H. apply Forall_forall. intros c Hc. rewrite forallb_forall in H.
  apply list_elem_of_In, H, N.ltb_lt in Hc. unfold is_scalar. lia.
Qed.

Lemma st1_typed : state_typed st1.
Proof. split; [done|by apply ascii_wf|]. repeat (constructor; [by apply ascii_wf|]). constructor. Qed.
Lemma st2_typed : state_typed st2.
Proof. split; [done|by apply ascii_wf|]. repeat (constructor; [by apply ascii_wf|]). constructor. Qed.

Definition line1 : GroupLogRec := LogRec 1 (node_str bob) "a1" 10 10 "in" "hi" None None None.
Definition line2 : GroupLogRec := LogRec 2 (node_str bob) "a2" 11 11 "in" "yo" None None None.
Definition rec1 : GroupRec := GroupRec_new st1.
Definition groups1 : gmap str GroupRec := {[ gid := rec1 ]}.
Lemma groups1_ok : groups_ok groups1.
Proof. apply map_Forall_singleton. split; [vm_compute; reflexivity|apply st1_check]. Qed.
End Sample.

Lemma validate_correct_witness : wf_state Sample.st1 ∧ ¬ wf_state (Sample.unsigned 1 "walk" []).
Proof.
  split.
  - apply (validate_correct Sample.st1). vm_compute. reflexivity.
  - intros H. apply (validate_correct (Sample.unsigned 1 "walk" [])) in H. vm_compute in H. discriminate.
Defined.

Lemma signed_states_check_witness :
  let st := Sample.unsigned 1 "walk" [Sample.alice; Sample.bob] in
  sign st (5%N : secret_key) = Ok Sample.st1 ∧ same_signed st Sample.st1 ∧
  sign st (7%N : secret_key) = Err ENotSigner.
Proof.
  intros st. assert (Hs : sign st (5%N : secret_key) = Ok Sample.st1) by (vm_compute; reflexivity).
  split; [exact Hs|]. split; [|vm_compute; reflexivity].
  pose proof (signed_states_check st (5%N : secret_key)) as H. rewrite Hs in H. apply H.
Defined.

Lemma sign_bytes_injective_witness :
  ∃ b, sign_bytes Sample.st1 = Ok b ∧ sign_bytes Sample.st2 ≠ Ok b.
Proof.
  destruct (sign_bytes Sample.st1) as [b|] eqn:Hb; [|vm_compute in Hb; discriminate].
  exists b. split; [reflexivity|]. intros H.
  apply (sign_bytes_injective _ _ b Sample.st1_typed Sample.st2_typed Hb) in H as (_ & He & _).
  vm_compute in He. discriminate.
Defined.

Lemma accepted_roster_authentic_witness :
  evaluate_incoming (Some Sample.rec1) Sample.st2 Sample.bob = Ok (Update true) ∧
  ∃ st0, st0 ∈ [Sample.st2] ∧ same_signed st0 Sample.st2.
Proof.
  assert (He : evaluate_incoming (Some Sample.rec1) Sample.st2 Sample.bob = Ok (Update true))
    by (vm_compute; reflexivity).
  split; [exact He|].
  refine (proj1 (proj2 (accepted_roster_authentic _ _ _ _ [Sample.st2] He _ Sample.st2_typed _))).
  - intros creator raw b _ _ Hb _. exists Sample.st2. split; [by left|done].
  - constructor; [exact Sample.st2_typed|constructor].
Defined.

Lemma roster_events_correct_witness :
  roster_events Sample.st1 Sample.st2 = [Renamed "hike"; Removed (node_str Sample.bob)] ∧
  NoDup (roster_events Sample.st1 Sample.st2).
Proof.
  split; [vm_compute; reflexivity|].
  apply (roster_events_correct Sample.st1 Sample.st2); apply (bool_decide_unpack _); vm_compute; exact I.
Defined.

Lemma log_append_read_witness :
  append_log (Some (log_image [Sample.line1])) Sample.line2
    = Some (log_image [Sample.line1; Sample.line2]) ∧
  read_log (Some (log_image [Sample.line1] ++ as_bytes (take 5 (enc_log Sample.line2)))) = [Sample.line1].
Proof.
  destruct (log_append_read [Sample.line1] Sample.line2 (take 5 (enc_log Sample.line2))
    (drop 5 (enc_log Sample.line2))) as (H1 & _ & _ & H2).
  - symmetry. apply take_drop.
  - split; [exact H1|]. apply H2. vm_compute. discriminate.
Defined.

Lemma log_torn_character_witness :
  read_log (Some (log_image [Sample.line1])) = [Sample.line1] ∧
  read_log (Some (log_image [Sample.line1] ++ as_bytes [49%N] ++ [195%N])) = [].
Proof.
  split; [vm_compute; reflexivity|].
  apply (log_torn_character [Sample.line1] [49%N] 233%N [195%N] [169%N]).
  - by apply Sample.ascii_wf.
  - left. reflexivity.
  - reflexivity.
  - discriminate.
  - discriminate.
Defined.

Lemma groups_file_atomic_witness :
  let d := GroupsDir None None None in
  (load_groups (save_groups (SaveOutcome None true) d Sample.groups1).2).1 = Sample.groups1 ∧
  (load_groups (save_groups (SaveOutcome (Some 3) true) d Sample.groups1).2).1 = ∅.
Proof.
  intros d.
  pose proof (groups_file_atomic d Sample.groups1 (SaveOutcome None true)
    Sample.groups1_ok) as (_ & H1 & _).
  pose proof (groups_file_atomic d Sample.groups1 (SaveOutcome (Some 3) true)
    Sample.groups1_ok) as (_ & _ & H2 & _).
  split; [apply H1; [reflexivity|vm_compute; discriminate]|apply H2; discriminate].
Defined.
