(* ===== verification/Frames.v ===== *)
(** * Wire frames and stored messages of the local chat ([p2p.rs]) *)

From S2P Require Import Prelude Str Net Groups.

(** ** Limits *)

Definition MAX_TEXT : N := (64 * 1024)%N.
Definition MAX_FILE_BYTES : N := (256 * 1024 * 1024)%N.
Definition MAX_INBOUND_FILES_PER_PEER : N := 3%N.
Definition MAX_INBOUND_FILES_TOTAL : N := 8%N.
Definition MAX_GROUP_FILE_BYTES : N := (32 * 1024 * 1024)%N.
Definition GROUP_FILE_CHUNK : N := (96 * 1024)%N.
Definition GROUP_FILE_CREDITS : N := 4%N.
Definition MAX_GROUP_XFERS : N := 32%N.
Definition GROUP_WINDOW : N := 200%N.
Definition GROUP_FRAMES_PER_SEC : N := 500%N.
Definition TYPING_MIN_GAP : N := 500%N. (* ms *)

(** ** Frames *)

Inductive Frame :=
| Msg (id : str) (ts : N) (text : str) (reply_to reply_text : option str)
| Ack (id : str)
| FileBegin (id : str) (ts : N) (name : str) (size : N) (mime caption : str)
| FileChunk (id data : str)
| FileEnd (id : str)
| Ping
| FGroupState (state : GroupState)
| GroupSync (gid : str) (epoch have : N) (name : str)
| GroupMsg (gid from : str) (seq : N) (id : str) (ts : N) (text : str)
    (reply_to reply_text : option str)
| GroupAck (gid : str) (have : N)
| GroupLeave (gid : str)
| GroupGone (gid : str)
| Typing (gid : option str) (on : bool)
| GroupFileBegin (gid id : str) (ts : N) (name : str) (size : N) (mime caption : str)
| GroupFileChunk (gid id data : str)
| GroupFileEnd (gid id : str)
| GroupCaps (max : N)
| Unknown.

Definition is_group (f : Frame) : bool :=
  match f with
  | FGroupState _ | GroupSync _ _ _ _ | GroupMsg _ _ _ _ _ _ _ _ | GroupAck _ _
  | GroupLeave _ | GroupGone _ | GroupCaps _ | Typing (Some _) _
  | GroupFileBegin _ _ _ _ _ _ _ | GroupFileChunk _ _ _ | GroupFileEnd _ _ => true
  | _ => false
  end.

Definition is_group_file (f : Frame) : bool :=
  match f with
  | GroupFileBegin _ _ _ _ _ _ _ | GroupFileChunk _ _ _ | GroupFileEnd _ _ => true
  | _ => false
  end.

(** ** Stored messages *)

Record StoredFile := SFile { sf_name : str; sf_size : N; sf_mime : str; sf_path : str }.

Record StoredMsg := SMsg {
  sm_id : str; sm_ts : N; sm_dir : str; sm_state : str; sm_text : str;
  sm_reply_to : option str; sm_reply_text : option str; sm_file : option StoredFile
}.

#[export] Instance StoredFile_eq_dec : EqDecision StoredFile.
Proof. solve_decision. Defined.
#[export] Instance StoredMsg_eq_dec : EqDecision StoredMsg.
Proof. solve_decision. Defined.

Definition with_state (m : StoredMsg) (s : str) : StoredMsg :=
  SMsg (sm_id m) (sm_ts m) (sm_dir m) s (sm_text m) (sm_reply_to m) (sm_reply_text m) (sm_file m).

Definition is_out (m : StoredMsg) : bool := bool_decide (sm_dir m = lit "out").

(** [collapse_history]: one row per outbound id, at its first position, with
    the state of the last row.  [index] maps an id to its position in [out]. *)
Fixpoint collapse_go (out : list StoredMsg) (index : gmap str nat) (raw : list StoredMsg)
    : list StoredMsg :=
  match raw with
  | [] => out
  | m :: raw =>
      if is_out m then
        match index !! sm_id m with
        | Some i => collapse_go (alter (λ o, with_state o (sm_state m)) i out) index raw
        | None => collapse_go (out ++ [m]) (<[sm_id m := length out]> index) raw
        end
      else collapse_go (out ++ [m]) index raw
  end.
Definition collapse_history (raw : list StoredMsg) : list StoredMsg := collapse_go [] ∅ raw.

Definition queued_from (msgs : list StoredMsg) : list StoredMsg :=
  filter (λ m, is_out m && bool_decide (sm_state m = lit "queued")
               && bool_decide (sm_file m = None)) msgs.

(** [peer.msgs.iter_mut().rev().find(..)]: change the last element that
    satisfies [p]; the changed element is returned. *)
Fixpoint update_last (p : StoredMsg → bool) (f : StoredMsg → StoredMsg) (l : list StoredMsg)
    : option (StoredMsg * list StoredMsg) :=
  match l with
  | [] => None
  | m :: l =>
      match update_last p f l with
      | Some (x, l) => Some (x, m :: l)
      | None => if p m then Some (f m, f m :: l) else None
      end
  end.

(** ** Untrusted names *)

(** The standard library's Unicode table, and the paths of the program's
    directories, are parameters; [/] joins path components. *)
Class CharTable := is_alphanumeric : N → bool.

Section Names.
Context {CT : CharTable}.

Definition name_char (c : N) : bool :=
  is_alphanumeric c || (c =? 46)%N || (c =? 95)%N || (c =? 45)%N || (c =? 32)%N.

Definition sanitize_name (name : str) : str :=
  let base := trim (filter name_char (after_last (λ c, (c =? 47) || (c =? 92))%N name)) in
  let out := if (80 <? str_len base)%N then take 80 base else base in
  if bool_decide (out = []) then "file.bin" else out.

End Names.

Definition mime_table : list (string * string) :=
  [("png", "image/png"); ("jpg", "image/jpeg"); ("jpeg", "image/jpeg"); ("gif", "image/gif");
   ("webp", "image/webp"); ("bmp", "image/bmp"); ("mp4", "video/mp4"); ("m4v", "video/mp4");
   ("mov", "video/mp4"); ("webm", "video/webm"); ("mp3", "audio/mpeg"); ("m4a", "audio/mp4");
   ("ogg", "audio/ogg"); ("opus", "audio/ogg"); ("wav", "audio/wav"); ("pdf", "application/pdf");
   ("txt", "text/plain")]%string.

Definition mime_for (name : str) : str :=
  let ext := to_ascii_lowercase (after_last (λ c, c =? 46)%N name) in
  match list_find (λ e, lit e.1 = ext) mime_table with
  | Some (_, e) => lit e.2
  | None => "application/octet-stream"
  end.
