(* ===== verification/Engine.v ===== *)
(** * The local chat engine: state and effects ([p2p.rs])

    The engine's state is the record [P2p] below: what the code keeps under its
    locks, the files it writes, the channels its sessions read from, and the
    events sent to the user interface.  Operations are functions of the state
    in the monad [M], which keeps the state when an operation fails, as a
    mutex-guarded structure does.  Clock readings, random ids and the outcome of
    each system call come from [Env], indexed by a counter. *)

From stdpp Require Import gmap sorting.
From S2P Require Import Prelude Str Net Groups Frames.

(** ** State *)

(** A channel to a session: [ch_sent] is everything that was ever put on it;
    it is closed once its session is gone. *)
Record Chan := MkChan { ch_open : bool; ch_sent : list Frame }.

(** [lh_tx] is the channel of the session, [lh_credits] the free permits of
    its media semaphore. *)
Record LiveHandle := Handle { lh_id : N; lh_tx : N; lh_proto : N; lh_credits : N }.

Inductive PeerKind := Paired | Introduced.
#[export] Instance PeerKind_eq_dec : EqDecision PeerKind.
Proof. solve_decision. Defined.

Record Peer := MkPeer {
  p_kind : PeerKind;
  p_name : str;
  p_addrs : list socket_addr;
  p_proto : N;
  p_live : list LiveHandle;
  p_connecting : bool;
  p_queued : list StoredMsg;
  p_msgs : list StoredMsg
}.

Definition online (p : Peer) : bool := negb (bool_decide (p_live p = [])).

Record PersistedPeer := PPeer { pp_node_id : str; pp_name : str; pp_addrs : list str; pp_proto : N }.
Record Nearby := MkNearby { nb_name : str; nb_addrs : list socket_addr; nb_last_seen : N }.
Record GroupLink := Link { gl_epoch : N; gl_pushed : N }.

Record FileRx := MkFileRx {
  fr_partial : str; fr_dir : str; fr_name : str; fr_size : N; fr_mime : str; fr_caption : str;
  fr_ts : N; fr_got : N; fr_gid : option str
}.

Record MemberXfer := MkMemberXfer { mx_state : str; mx_sent : N; mx_handle : N }.
Record GroupXfer := MkGroupXfer {
  gx_gid : str; gx_path : str; gx_name : str; gx_size : N; gx_mime : str; gx_caption : str;
  gx_ts : N; gx_members : gmap str MemberXfer
}.

Record GroupRt := MkGroupRt {
  rt_links : gmap (str * node_id) GroupLink;
  rt_gone : gset (str * node_id);
  rt_gap_sent : gmap (str * node_id) N;
  rt_ts_eff : gmap str N;
  rt_typing_seen : gmap (str * node_id) (bool * N);
  rt_caps : gmap node_id N
}.

Record Inner := MkInner {
  in_name : str;
  in_token : str;
  in_peers : gmap node_id Peer;
  in_nearby : gmap node_id Nearby;
  in_pair_requests : gmap node_id N;
  in_groups : gmap str GroupRec;
  in_grt : GroupRt
}.

(** A line of a 1:1 log: a row; a line that is no row; a last line without its
    end, which may still be a row.  [split] says that bytes of a character are
    missing. *)
Inductive RowLine :=
| RowMsg (m : StoredMsg) | RowBroken (split : bool) | RowOpen (m : option StoredMsg) (split : bool).

(** What is on disk: [groups.json], the group logs, the lines of the 1:1 logs,
    [peers.json], [profile.json] and the blob files by path. *)
Record Disk := MkDisk {
  dk_groups : groups_dir;
  dk_logs : gmap str bytes;
  dk_rows : gmap node_id (list RowLine);
  dk_peers : list PersistedPeer;
  dk_profile : option str;
  dk_files : gmap str bytes
}.

(** A group as the user interface sees it. *)
Record MemberView := MkMemberView
  { mv_id : str; mv_name : str; mv_self : bool; mv_online : bool; mv_introduced : bool }.
Record GroupView := MkGroupView {
  gv_gid : str; gv_name : str; gv_creator : str; gv_epoch : N; gv_closed : bool; gv_removed : bool;
  gv_can_manage : bool; gv_members : list MemberView
}.

Inductive p2p_error :=
| EGroup (e : group_error) | EBadNode | EUnknownPeer | EUnknownGroup | EMessageLength | EReadOnly
| ENotCreator | EGroupClosed | ETooManyGroups | EPickMember | EGroupFull | EMemberTwice | ENotMember
| EOnlyPaired | ENotCapable (name : str) | ENoCap (name : str) | ECreatorRemove | ECreatorLeave
| ELeaveFirst | ENewGroupSender | ENotInGroup | ENoRequest | ENameLength | EStoreFailed
| EForgedSender | ERejectedId | ERejectedSize | ERejectedCount | EFileIo | ENotFile | EFileTooLarge
| EPeerOffline | ENobodyOnline | ECaption | EUnknownTransfer | EOriginalGone | EAlreadySent | EOffline
| EWrongToken | EBadHello | EDenied | EOwnInvite.

(** [p2p-event]s, by their [kind]. *)
Inductive Event :=
| EvPresence (peer : str) (online : bool)
| EvGroupPresence (peer : str) (online : bool) (gids : list str)
| EvMsgState (peer id state : str)
| EvAck (peer id : str)
| EvMessage (peer id : str) (ts : N) (text : str) (reply_to reply_text : option str)
    (file : option StoredFile)
| EvError (peer : option str) (what : p2p_error)
| EvPairRequest (peer name : str)
| EvPairing (peer name : str)
| EvNearby (peer name : str)
| EvTyping (peer : str) (on : bool)
| EvFileProgress (peer id : str) (got size : N)
| EvGroupSystem (gid id kind : str) (ts_eff : N) (text : str)
| EvGroupState (g : GroupView)
| EvGroupRemoved (gid reason : str)
| EvGroupDeleted (gid : str)
| EvGroupAck (gid by_ : str) (have : N)
| EvGroupMessage (gid from name id : str) (seq ts ts_eff : N) (text : str)
    (reply_to reply_text : option str) (file : option GroupFileRec)
| EvGroupTyping (gid from name : str) (on : bool)
| EvGroupFile (gid id member state : str) (got : N) (size : option N)
| EvGroupFileRecv (gid from id : str) (got size : N) (failed : bool).

(** [e_begins] are the inbound transfers that passed the checks of their
    [FileBegin] and are not in [e_rx_files] yet; [e_writes] the rows handed to
    [persist_messages] and not written yet.  Both happen outside the locks. *)
Record P2p := MkP2p {
  e_inner : Inner;
  e_rx_files : gmap (node_id * str) FileRx;
  e_xfers : gmap str GroupXfer;
  e_handle_ids : N;
  e_chans : gmap N Chan;
  e_decisions : gmap N bool;
  e_disk : Disk;
  e_dials : list node_id;
  e_events : list Event;
  e_tick : N;
  e_begins : list (node_id * str * FileRx);
  e_writes : list (node_id * StoredMsg)
}.

(** ** Field updates *)

Definition on_p_kind (f : PeerKind → PeerKind) (x : Peer) : Peer :=
  MkPeer (f (p_kind x)) (p_name x) (p_addrs x) (p_proto x) (p_live x) (p_connecting x) (p_queued x) (p_msgs x).
Definition on_p_name (f : str → str) (x : Peer) : Peer :=
  MkPeer (p_kind x) (f (p_name x)) (p_addrs x) (p_proto x) (p_live x) (p_connecting x) (p_queued x) (p_msgs x).
Definition on_p_addrs (f : (list socket_addr) → (list socket_addr)) (x : Peer) : Peer :=
  MkPeer (p_kind x) (p_name x) (f (p_addrs x)) (p_proto x) (p_live x) (p_connecting x) (p_queued x) (p_msgs x).
Definition on_p_proto (f : N → N) (x : Peer) : Peer :=
  MkPeer (p_kind x) (p_name x) (p_addrs x) (f (p_proto x)) (p_live x) (p_connecting x) (p_queued x) (p_msgs x).
Definition on_p_live (f : (list LiveHandle) → (list LiveHandle)) (x : Peer) : Peer :=
  MkPeer (p_kind x) (p_name x) (p_addrs x) (p_proto x) (f (p_live x)) (p_connecting x) (p_queued x) (p_msgs x).
Definition on_p_connecting (f : bool → bool) (x : Peer) : Peer :=
  MkPeer (p_kind x) (p_name x) (p_addrs x) (p_proto x) (p_live x) (f (p_connecting x)) (p_queued x) (p_msgs x).
Definition on_p_queued (f : (list StoredMsg) → (list StoredMsg)) (x : Peer) : Peer :=
  MkPeer (p_kind x) (p_name x) (p_addrs x) (p_proto x) (p_live x) (p_connecting x) (f (p_queued x)) (p_msgs x).
Definition on_p_msgs (f : (list StoredMsg) → (list StoredMsg)) (x : Peer) : Peer :=
  MkPeer (p_kind x) (p_name x) (p_addrs x) (p_proto x) (p_live x) (p_connecting x) (p_queued x) (f (p_msgs x)).
Definition on_rt_links (f : (gmap (str * node_id) GroupLink) → (gmap (str * node_id) GroupLink)) (x : GroupRt) : GroupRt :=
  MkGroupRt (f (rt_links x)) (rt_gone x) (rt_gap_sent x) (rt_ts_eff x) (rt_typing_seen x) (rt_caps x).
Definition on_rt_gone (f : (gset (str * node_id)) → (gset (str * node_id))) (x : GroupRt) : GroupRt :=
  MkGroupRt (rt_links x) (f (rt_gone x)) (rt_gap_sent x) (rt_ts_eff x) (rt_typing_seen x) (rt_caps x).
Definition on_rt_gap_sent (f : (gmap (str * node_id) N) → (gmap (str * node_id) N)) (x : GroupRt) : GroupRt :=
  MkGroupRt (rt_links x) (rt_gone x) (f (rt_gap_sent x)) (rt_ts_eff x) (rt_typing_seen x) (rt_caps x).
Definition on_rt_ts_eff (f : (gmap str N) → (gmap str N)) (x : GroupRt) : GroupRt :=
  MkGroupRt (rt_links x) (rt_gone x) (rt_gap_sent x) (f (rt_ts_eff x)) (rt_typing_seen x) (rt_caps x).
Definition on_rt_typing_seen (f : (gmap (str * node_id) (bool * N)) → (gmap (str * node_id) (bool * N))) (x : GroupRt) : GroupRt :=
  MkGroupRt (rt_links x) (rt_gone x) (rt_gap_sent x) (rt_ts_eff x) (f (rt_typing_seen x)) (rt_caps x).
Definition on_rt_caps (f : (gmap node_id N) → (gmap node_id N)) (x : GroupRt) : GroupRt :=
  MkGroupRt (rt_links x) (rt_gone x) (rt_gap_sent x) (rt_ts_eff x) (rt_typing_seen x) (f (rt_caps x)).
Definition on_in_name (f : str → str) (x : Inner) : Inner :=
  MkInner (f (in_name x)) (in_token x) (in_peers x) (in_nearby x) (in_pair_requests x) (in_groups x) (in_grt x).
Definition on_in_token (f : str → str) (x : Inner) : Inner :=
  MkInner (in_name x) (f (in_token x)) (in_peers x) (in_nearby x) (in_pair_requests x) (in_groups x) (in_grt x).
Definition on_in_peers (f : (gmap node_id Peer) → (gmap node_id Peer)) (x : Inner) : Inner :=
  MkInner (in_name x) (in_token x) (f (in_peers x)) (in_nearby x) (in_pair_requests x) (in_groups x) (in_grt x).
Definition on_in_nearby (f : (gmap node_id Nearby) → (gmap node_id Nearby)) (x : Inner) : Inner :=
  MkInner (in_name x) (in_token x) (in_peers x) (f (in_nearby x)) (in_pair_requests x) (in_groups x) (in_grt x).
Definition on_in_pair_requests (f : (gmap node_id N) → (gmap node_id N)) (x : Inner) : Inner :=
  MkInner (in_name x) (in_token x) (in_peers x) (in_nearby x) (f (in_pair_requests x)) (in_groups x) (in_grt x).
Definition on_in_groups (f : (gmap str GroupRec) → (gmap str GroupRec)) (x : Inner) : Inner :=
  MkInner (in_name x) (in_token x) (in_peers x) (in_nearby x) (in_pair_requests x) (f (in_groups x)) (in_grt x).
Definition on_in_grt (f : GroupRt → GroupRt) (x : Inner) : Inner :=
  MkInner (in_name x) (in_token x) (in_peers x) (in_nearby x) (in_pair_requests x) (in_groups x) (f (in_grt x)).
Definition on_dk_groups (f : groups_dir → groups_dir) (x : Disk) : Disk :=
  MkDisk (f (dk_groups x)) (dk_logs x) (dk_rows x) (dk_peers x) (dk_profile x) (dk_files x).
Definition on_dk_logs (f : (gmap str bytes) → (gmap str bytes)) (x : Disk) : Disk :=
  MkDisk (dk_groups x) (f (dk_logs x)) (dk_rows x) (dk_peers x) (dk_profile x) (dk_files x).
Definition on_dk_rows (f : (gmap node_id (list RowLine)) → (gmap node_id (list RowLine))) (x : Disk) : Disk :=
  MkDisk (dk_groups x) (dk_logs x) (f (dk_rows x)) (dk_peers x) (dk_profile x) (dk_files x).
Definition on_dk_peers (f : (list PersistedPeer) → (list PersistedPeer)) (x : Disk) : Disk :=
  MkDisk (dk_groups x) (dk_logs x) (dk_rows x) (f (dk_peers x)) (dk_profile x) (dk_files x).
Definition on_dk_profile (f : (option str) → (option str)) (x : Disk) : Disk :=
  MkDisk (dk_groups x) (dk_logs x) (dk_rows x) (dk_peers x) (f (dk_profile x)) (dk_files x).
Definition on_dk_files (f : (gmap str bytes) → (gmap str bytes)) (x : Disk) : Disk :=
  MkDisk (dk_groups x) (dk_logs x) (dk_rows x) (dk_peers x) (dk_profile x) (f (dk_files x)).
Definition on_e_inner (f : Inner → Inner) (x : P2p) : P2p :=
  MkP2p (f (e_inner x)) (e_rx_files x) (e_xfers x) (e_handle_ids x) (e_chans x) (e_decisions x) (e_disk x) (e_dials x) (e_events x) (e_tick x) (e_begins x) (e_writes x).
Definition on_e_rx_files (f : (gmap (node_id * str) FileRx) → (gmap (node_id * str) FileRx)) (x : P2p) : P2p :=
  MkP2p (e_inner x) (f (e_rx_files x)) (e_xfers x) (e_handle_ids x) (e_chans x) (e_decisions x) (e_disk x) (e_dials x) (e_events x) (e_tick x) (e_begins x) (e_writes x).
Definition on_e_xfers (f : (gmap str GroupXfer) → (gmap str GroupXfer)) (x : P2p) : P2p :=
  MkP2p (e_inner x) (e_rx_files x) (f (e_xfers x)) (e_handle_ids x) (e_chans x) (e_decisions x) (e_disk x) (e_dials x) (e_events x) (e_tick x) (e_begins x) (e_writes x).
Definition on_e_handle_ids (f : N → N) (x : P2p) : P2p :=
  MkP2p (e_inner x) (e_rx_files x) (e_xfers x) (f (e_handle_ids x)) (e_chans x) (e_decisions x) (e_disk x) (e_dials x) (e_events x) (e_tick x) (e_begins x) (e_writes x).
Definition on_e_chans (f : (gmap N Chan) → (gmap N Chan)) (x : P2p) : P2p :=
  MkP2p (e_inner x) (e_rx_files x) (e_xfers x) (e_handle_ids x) (f (e_chans x)) (e_decisions x) (e_disk x) (e_dials x) (e_events x) (e_tick x) (e_begins x) (e_writes x).
Definition on_e_decisions (f : (gmap N bool) → (gmap N bool)) (x : P2p) : P2p :=
  MkP2p (e_inner x) (e_rx_files x) (e_xfers x) (e_handle_ids x) (e_chans x) (f (e_decisions x)) (e_disk x) (e_dials x) (e_events x) (e_tick x) (e_begins x) (e_writes x).
Definition on_e_disk (f : Disk → Disk) (x : P2p) : P2p :=
  MkP2p (e_inner x) (e_rx_files x) (e_xfers x) (e_handle_ids x) (e_chans x) (e_decisions x) (f (e_disk x)) (e_dials x) (e_events x) (e_tick x) (e_begins x) (e_writes x).
Definition on_e_dials (f : (list node_id) → (list node_id)) (x : P2p) : P2p :=
  MkP2p (e_inner x) (e_rx_files x) (e_xfers x) (e_handle_ids x) (e_chans x) (e_decisions x) (e_disk x) (f (e_dials x)) (e_events x) (e_tick x) (e_begins x) (e_writes x).
Definition on_e_events (f : (list Event) → (list Event)) (x : P2p) : P2p :=
  MkP2p (e_inner x) (e_rx_files x) (e_xfers x) (e_handle_ids x) (e_chans x) (e_decisions x) (e_disk x) (e_dials x) (f (e_events x)) (e_tick x) (e_begins x) (e_writes x).
Definition on_e_tick (f : N → N) (x : P2p) : P2p :=
  MkP2p (e_inner x) (e_rx_files x) (e_xfers x) (e_handle_ids x) (e_chans x) (e_decisions x) (e_disk x) (e_dials x) (e_events x) (f (e_tick x)) (e_begins x) (e_writes x).
Definition on_e_begins (f : list (node_id * str * FileRx) → list (node_id * str * FileRx)) (x : P2p) : P2p :=
  MkP2p (e_inner x) (e_rx_files x) (e_xfers x) (e_handle_ids x) (e_chans x) (e_decisions x) (e_disk x) (e_dials x) (e_events x) (e_tick x) (f (e_begins x)) (e_writes x).
Definition on_e_writes (f : list (node_id * StoredMsg) → list (node_id * StoredMsg)) (x : P2p) : P2p :=
  MkP2p (e_inner x) (e_rx_files x) (e_xfers x) (e_handle_ids x) (e_chans x) (e_decisions x) (e_disk x) (e_dials x) (e_events x) (e_tick x) (e_begins x) (f (e_writes x)).
Definition on_gr_state (f : GroupState → GroupState) (x : GroupRec) : GroupRec :=
  Rec (f (gr_state x)) (gr_removed x) (gr_next_seq x) (gr_sent_cursor x) (gr_have x) (gr_state_cursor x) (gr_pending_leave x) (gr_hidden x).
Definition on_gr_removed (f : bool → bool) (x : GroupRec) : GroupRec :=
  Rec (gr_state x) (f (gr_removed x)) (gr_next_seq x) (gr_sent_cursor x) (gr_have x) (gr_state_cursor x) (gr_pending_leave x) (gr_hidden x).
Definition on_gr_next_seq (f : N → N) (x : GroupRec) : GroupRec :=
  Rec (gr_state x) (gr_removed x) (f (gr_next_seq x)) (gr_sent_cursor x) (gr_have x) (gr_state_cursor x) (gr_pending_leave x) (gr_hidden x).
Definition on_gr_sent_cursor (f : (gmap str N) → (gmap str N)) (x : GroupRec) : GroupRec :=
  Rec (gr_state x) (gr_removed x) (gr_next_seq x) (f (gr_sent_cursor x)) (gr_have x) (gr_state_cursor x) (gr_pending_leave x) (gr_hidden x).
Definition on_gr_have (f : (gmap str N) → (gmap str N)) (x : GroupRec) : GroupRec :=
  Rec (gr_state x) (gr_removed x) (gr_next_seq x) (gr_sent_cursor x) (f (gr_have x)) (gr_state_cursor x) (gr_pending_leave x) (gr_hidden x).
Definition on_gr_state_cursor (f : (gmap str N) → (gmap str N)) (x : GroupRec) : GroupRec :=
  Rec (gr_state x) (gr_removed x) (gr_next_seq x) (gr_sent_cursor x) (gr_have x) (f (gr_state_cursor x)) (gr_pending_leave x) (gr_hidden x).
Definition on_gr_pending_leave (f : bool → bool) (x : GroupRec) : GroupRec :=
  Rec (gr_state x) (gr_removed x) (gr_next_seq x) (gr_sent_cursor x) (gr_have x) (gr_state_cursor x) (f (gr_pending_leave x)) (gr_hidden x).
Definition on_gr_hidden (f : bool → bool) (x : GroupRec) : GroupRec :=
  Rec (gr_state x) (gr_removed x) (gr_next_seq x) (gr_sent_cursor x) (gr_have x) (gr_state_cursor x) (gr_pending_leave x) (f (gr_hidden x)).

Definition on_peers f := on_e_inner (on_in_peers f).
Definition on_groups f := on_e_inner (on_in_groups f).
Definition on_grt f := on_e_inner (on_in_grt f).
Definition on_links f := on_grt (on_rt_links f).
Definition on_gone f := on_grt (on_rt_gone f).
Definition on_gap_sent f := on_grt (on_rt_gap_sent f).
Definition on_ts_eff f := on_grt (on_rt_ts_eff f).
Definition on_logs f := on_e_disk (on_dk_logs f).

Definition peers (e : P2p) := in_peers (e_inner e).
Definition groups (e : P2p) := in_groups (e_inner e).
Definition grt (e : P2p) := in_grt (e_inner e).
Definition log_of (e : P2p) (gid : str) : option bytes := dk_logs (e_disk e) !! gid.

(** ** Effects *)

(** What an append to a log leaves: the whole line; nothing; the first [k] bytes
    of the line, and an error.  A row of a 1:1 log may also miss its line end only. *)
Inductive append_outcome := AppWhole | AppNothing | AppTorn (k : nat).
Inductive row_outcome := RowWhole | RowLost | RowCut (split : bool) | RowUnended.

(** The outcome of the [n]-th effect. *)
Class Env := {
  env_now : N → N;               (* [now_ms] *)
  env_instant : N → N;           (* [Instant::now], in ms *)
  env_random_id : N → str;       (* [random_id] *)
  env_new_gid : N → str;         (* [new_gid] *)
  env_append : N → append_outcome;  (* an append to a group log *)
  env_row : N → row_outcome;     (* a row appended to a 1:1 log *)
  env_save : N → save_outcome;   (* a rewrite of groups.json *)
  env_write_ok : N → bool;       (* a write of another file *)
}.

Definition M (A : Type) : Type := P2p → result p2p_error A * P2p.

#[export] Instance M_ret : MRet M := λ A a e, (Ok a, e).
#[export] Instance M_bind : MBind M := λ A B f m e,
  match m e with (Ok a, e) => f a e | (Err x, e) => (Err x, e) end.

(** An operation given by its effect on the state. *)
Definition act {A} (f : P2p → result p2p_error A * P2p) : M A := f.
Definition fail {A} (x : p2p_error) : M A := λ e, (Err x, e).
Definition lift {A} (r : result p2p_error A) : M A := λ e, (r, e).
Definition lift_group {A} (r : result group_error A) : M A := lift (map_err EGroup r).
Definition gets {A} (f : P2p → A) : M A := λ e, (Ok (f e), e).
Definition modify (f : P2p → P2p) : M unit := λ e, (Ok tt, f e).
(** [if let Err(e) = m { .. }]: the outcome of [m], whatever it is. *)
Definition attempt {A} (m : M A) : M (result p2p_error A) := λ e, let '(r, e) := m e in (Ok r, e).
Definition guard_else (b : bool) (x : p2p_error) : M unit := if b then mret tt else fail x.
Definition when (b : bool) (m : M unit) : M unit := if b then m else mret tt.

Fixpoint for_each {A} (l : list A) (f : A → M unit) : M unit :=
  match l with [] => mret tt | x :: l => _ ← f x; for_each l f end.

Definition next_tick : M N := λ e, (Ok (e_tick e), on_e_tick N.succ e).
Definition emit (ev : Event) : M unit := modify (on_e_events (λ l, l ++ [ev])).

Section Engine.
Context {P : Platform} {SD : Serde} {En : Env}.
(** The identity key of this device. *)
Context (secret : secret_key).

Definition me : node_id := public secret.
Definition me_str : str := node_str me.

Definition now_ms : M N := n ← next_tick; mret (env_now n).
Definition instant_now : M N := n ← next_tick; mret (env_instant n).
Definition random_id : M str := n ← next_tick; mret (env_random_id n).

(** ** Channels *)

Definition is_closed (e : P2p) (tx : N) : bool :=
  match e_chans e !! tx with Some c => negb (ch_open c) | None => true end.

(** [tx.send(frame)]: whether the session still reads the channel. *)
Definition send (tx : N) (f : Frame) : M bool := λ e,
  if is_closed e tx then (Ok false, e)
  else (Ok true, on_e_chans (alter (λ c, MkChan (ch_open c) (ch_sent c ++ [f])) tx) e).
Definition send_ (tx : N) (f : Frame) : M unit := _ ← send tx f; mret tt.

(** [v2_tx]: a live protocol-2 session of a node. *)
Definition v2_tx (e : P2p) (node : node_id) : option N :=
  p ← peers e !! node;
  '(_, h) ← list_find (λ h, (2 <=? lh_proto h)%N && negb (is_closed e (lh_tx h))) (p_live p);
  Some (lh_tx h).

(** The protocol of the session of [node] that writes to [tx]; 0 for none. *)
Definition session_proto (e : P2p) (node : node_id) (tx : N) : N :=
  default 0%N (p ← peers e !! node; '(_, h) ← list_find (λ h, lh_tx h = tx) (p_live p);
               Some (lh_proto h)).

(** ** Names and labels *)

(** [fallback_name]: "Device " and the last four characters of the id. *)
Definition fallback_name (id : node_id) : str :=
  let s := node_str id in "Device " ++ drop (length s - 4) s.

Definition my_name (e : P2p) : str :=
  let n := in_name (e_inner e) in if bool_decide (n = []) then fallback_name me else n.

Definition peer_name (e : P2p) (id : node_id) : str :=
  match peers e !! id with
  | Some p => if bool_decide (p_name p = []) then fallback_name id else p_name p
  | None => fallback_name id
  end.

Definition kind_of (e : P2p) (id : node_id) : option PeerKind := p_kind <$> peers e !! id.

(** ** Persistence *)

(** [persist_peers] *)
Definition persist_peers : M unit :=
  n ← next_tick;
  if env_write_ok n then
    modify (λ e, on_e_disk (on_dk_peers (λ _,
      (λ '(id, p), PPeer (node_str id) (p_name p) (show_addr <$> p_addrs p) (p_proto p)) <$>
      filter (λ '(_, p), p_kind p = Paired) (map_to_list (peers e)))) e)
  else fail EStoreFailed.

(** [persist_messages], called when the lock is free again: the rows are on
    their way to the log of a peer.  [write_row] puts one of them there; in between
    anything can happen. *)
Definition persist_messages (node : node_id) (rows : list StoredMsg) : M unit :=
  modify (on_e_writes (λ l, l ++ ((node,.) <$> rows))).

(** One [writeln!]: an unfinished last line is continued. *)
Definition open_end (file : list RowLine) : option bool :=
  match last file with Some (RowOpen _ s) => Some s | _ => None end.
Definition add_row (file : list RowLine) (o : row_outcome) (m : StoredMsg) : list RowLine :=
  match o, open_end file with
  | RowLost, _ => file
  | RowWhole, None => file ++ [RowMsg m]
  | RowWhole, Some s => removelast file ++ [RowBroken s]
  | RowCut s', None => file ++ [RowOpen None s']
  | RowCut s', Some s => removelast file ++ [RowOpen None (s || s')]
  | RowUnended, None => file ++ [RowOpen (Some m) false]
  | RowUnended, Some s => removelast file ++ [RowOpen None s]
  end.

Definition write_row (k : nat) : M unit :=
  e ← gets id;
  match e_writes e !! k with
  | None => mret tt
  | Some (node, m) =>
      _ ← modify (on_e_writes (delete k));
      n ← next_tick;
      modify (on_e_disk (on_dk_rows (partial_alter (λ o, Some (add_row (default [] o) (env_row n) m)) node)))
  end.

(** [load_messages]: no row is read from a file that is not UTF-8. *)
Definition row_split (r : RowLine) : bool :=
  match r with RowBroken s | RowOpen _ s => s | RowMsg _ => false end.
Definition row_msg (r : RowLine) : option StoredMsg :=
  match r with RowMsg m => Some m | RowOpen m _ => m | RowBroken _ => None end.
Definition read_rows (file : list RowLine) : list StoredMsg :=
  if existsb row_split file then [] else omap row_msg file.

Definition load_messages (e : P2p) (node : node_id) : list StoredMsg :=
  collapse_history (read_rows (default [] (dk_rows (e_disk e) !! node))).

(** [persist_groups] *)
Definition persist_groups : M unit :=
  n ← next_tick;
  act (λ e,
    let '(r, d) := save_groups (env_save n) (dk_groups (e_disk e)) (groups e) in
    (map_err EGroup r, on_e_disk (on_dk_groups (λ _, d)) e)).

(** [append_log]; a refused write can leave a part of the line. *)
Definition append_group_log (gid : str) (rec : GroupLogRec) : M unit :=
  n ← next_tick;
  match env_append n with
  | AppWhole => modify (on_logs (partial_alter (λ f, append_log f rec) gid))
  | AppNothing => fail (EGroup EIo)
  | AppTorn k =>
      _ ← modify (on_logs (partial_alter (λ f, append_part k f rec) gid));
      fail (EGroup EIo)
  end.

Definition delete_log (gid : str) : M unit := modify (on_logs (delete gid)).

(** [group_last_ts]: the display time of the last line, cached. *)
Definition group_last_ts (gid : str) : M N := λ e,
  match rt_ts_eff (grt e) !! gid with
  | Some v => (Ok v, e)
  | None =>
      let v := ls_last_ts_eff (scan_log (log_of e gid) me_str) in
      (Ok v, on_ts_eff <[gid := v]> e)
  end.

(** ** Presence and dialing *)

Definition values_of (e : P2p) : list GroupRec := group_values (groups e).

(** [emit_presence] *)
Definition emit_presence (node : node_id) (on : bool) : M unit :=
  e ← gets id;
  _ ← when (negb (bool_decide (kind_of e node = Some Introduced))) (emit (EvPresence (node_str node) on));
  let gids := (gs_gid ∘ gr_state) <$>
    filter (λ g, gr_removed g = false ∧ contains (gr_state g) node = true) (values_of e) in
  when (negb (bool_decide (gids = []))) (emit (EvGroupPresence (node_str node) on gids)).

(** [trigger_connect]: reaps dead sessions; a dial starts unless one is under
    way or the peer is online. *)
Definition trigger_connect (node : node_id) : M unit := λ e,
  match peers e !! node with
  | None => (Ok tt, e)
  | Some p =>
      let p := on_p_live (filter (λ h, is_closed e (lh_tx h) = false)) p in
      if p_connecting p || online p then (Ok tt, on_peers <[node := p]> e)
      else (Ok tt, on_e_dials (λ l, l ++ [node]) (on_peers <[node := on_p_connecting (λ _, true) p]> e))
  end.

(** [register_live]: a new session; the result is its handle id. *)
Definition register_live (node : node_id) (tx proto : N) : M N := λ e,
  let id := e_handle_ids e in
  let e := on_e_handle_ids N.succ e in
  match peers e !! node with
  | None => (Ok id, e)
  | Some p =>
      let p' := on_p_live (λ l, l ++ [Handle id tx proto GROUP_FILE_CREDITS]) p in
      let e' := on_peers <[node := on_p_proto (λ _, proto) p']> e in
      if (p_proto p =? proto)%N then (Ok id, e')
      else let '(_, e') := persist_peers e' in (Ok id, e')
  end.

(** [set_connecting] *)
Definition set_connecting (node : node_id) (v : bool) : M unit :=
  modify (on_peers (alter (on_p_connecting (λ _, v)) node)).

(** [mpsc::unbounded_channel] for a new session. *)
Definition open_channel : M N := λ e,
  let tx := fresh (dom (e_chans e)) in (Ok tx, on_e_chans <[tx := MkChan true []]> e).

(** ** Blob files of groups *)

(** The directory of received and sent media. *)
Context (blobs_dir : str).

Definition join (dir name : str) : str := dir ++ "/" ++ name.
Definition group_dir (gid : str) : str := join blobs_dir ("g-" ++ gid).

Definition on_files (f : gmap str bytes → gmap str bytes) : P2p → P2p := on_e_disk (on_dk_files f).
Definition remove_file (path : str) : M unit := modify (on_files (delete path)).
Definition remove_dir_all (dir : str) : M unit :=
  modify (on_files (filter (λ '(p, _), starts_with (dir ++ "/") p = false))).

(** [drop_group_inbound]: inbound group transfers that satisfy [pred], and
    their partial files. *)
Definition drop_group_inbound (pred : node_id → str → bool) : M unit :=
  e ← gets e_rx_files;
  let dropped := filter (λ '((n, id), t), is_Some (fr_gid t) ∧ pred n id = true) (map_to_list e) in
  _ ← modify (on_e_rx_files (λ m, foldr (λ kt, delete kt.1) m dropped));
  for_each dropped (λ kt, remove_file (fr_partial kt.2)).

(** [delete_group_blobs] *)
Definition delete_group_blobs (gid : str) : M unit :=
  rx ← gets e_rx_files;
  _ ← drop_group_inbound (λ n id,
        bool_decide ((t ← rx !! (n, id); fr_gid t) = Some gid));
  _ ← modify (on_e_xfers (filter (λ '(_, t), gx_gid t ≠ gid)));
  remove_dir_all (group_dir gid).

End Engine.
