(* ===== verification/Delivery.v ===== *)
(** * Group messages: sending, receiving, acknowledging ([p2p.rs])

    The author's log is the queue: [group_send] appends to it, [pump] puts on a
    member's session what that member has not acknowledged, a window at a time;
    the receiver takes exactly the next message of each author, asks for a
    replay when it sees a gap, and acknowledges cumulatively. *)

From S2P Require Import Prelude Str Net Groups Frames Engine.

Definition cursor_of (m : gmap str N) (k : str) : N := default 0%N (m !! k).

(** A [GroupMsg] after the session-level checks. *)
Record GroupIn := MkGroupIn {
  gi_gid : str; gi_claimed : str; gi_seq : N; gi_id : str; gi_ts : N; gi_text : str;
  gi_reply_to : option str; gi_reply_text : option str
}.

Section Delivery.
Context {P : Platform} {SD : Serde} {En : Env} (secret : secret_key).
Local Abbreviation me := (me secret).
Local Abbreviation me_str := (me_str secret).

(** [group_warn] *)
Definition group_warn (node : node_id) (x : p2p_error) : M unit :=
  emit (EvError (Some (node_str node)) x).

(** [if let Err(e) = m { group_warn(..) }] *)
Definition warn_on_error (node : node_id) (m : M unit) : M unit :=
  r ← attempt m;
  match r with Ok _ => mret tt | Err x => group_warn node x end.

(** [sync_frame]: our [GroupSync] for [rec], addressed to [to]. *)
Definition sync_frame (e : P2p) (rec : GroupRec) (to : node_id) : Frame :=
  GroupSync (gs_gid (gr_state rec)) (gs_epoch (gr_state rec))
    (cursor_of (gr_have rec) (node_str to)) (my_name secret e).

Definition msg_frame (gid : str) (r : GroupLogRec) : Frame :=
  GroupMsg gid me_str (lr_seq r) (lr_id r) (lr_ts r) (lr_text r) (lr_reply_to r) (lr_reply_text r).

Definition push_link (marker : str * node_id) (seq : N) : P2p → P2p :=
  on_links (alter (λ l, Link (gl_epoch l) (N.max (gl_pushed l) seq)) marker).

(** The send loop of [pump]. *)
Fixpoint pump_recs (gid : str) (tx : N) (marker : str * node_id) (recs : list GroupLogRec) : M unit :=
  match recs with
  | [] => mret tt
  | r :: recs =>
      ok ← send tx (msg_frame gid r);
      if (ok : bool) then (_ ← modify (push_link marker (lr_seq r)); pump_recs gid tx marker recs)
      else mret tt
  end.

(** The log records [pump] reads back. *)
Definition own_between (first upto : N) (r : GroupLogRec) : bool :=
  bool_decide (lr_dir r = lit "out") && bool_decide (lr_from r = me_str)
  && (first <=? lr_seq r)%N && (lr_seq r <=? upto)%N.

Definition pump_source (e : P2p) (gid : str) (first upto : N) (hint : option GroupLogRec)
    : list GroupLogRec :=
  let from_log := filter (λ r, own_between first upto r = true) (read_log (log_of e gid)) in
  match hint with
  | Some h => if (lr_seq h =? first)%N && (first =? upto)%N then [h] else from_log
  | None => from_log
  end.

Definition pump (gid : str) (node : node_id) (hint : option GroupLogRec) : M bool :=
  e ← gets id;
  match groups e !! gid with
  | None => mret false
  | Some rec =>
      if gr_removed rec || negb (contains (gr_state rec) node) then mret false else
      let marker := (gid, node) in
      if bool_decide (marker ∈ rt_gone (grt e)) then mret false else
      match v2_tx e node with
      | None => mret false
      | Some tx =>
          let cursor := cursor_of (gr_sent_cursor rec) (node_str node) in
          let last := sat_sub (gr_next_seq rec) 1 in
          match rt_links (grt e) !! marker with
          | None => mret false
          | Some link =>
              if negb (gl_epoch link =? gs_epoch (gr_state rec))%N then mret false else
              let first := wadd64 (N.max (gl_pushed link) cursor) 1 in
              let upto := N.min last (wadd64 cursor GROUP_WINDOW) in
              if (upto <? first)%N then mret true else
              _ ← pump_recs gid tx marker (pump_source e gid first upto hint);
              mret true
          end
      end
  end.

(** ** Receiving *)

Definition on_group_msg (from : node_id) (tx : N) (m : GroupIn) : M unit :=
  let key := node_str from in
  let gid := gi_gid m in
  if bool_decide (gi_claimed m ≠ key) then group_warn from EForgedSender else
  e ← gets id;
  match groups e !! gid with
  | None => send_ tx (GroupGone gid)
  | Some rec =>
      if gr_removed rec then send_ tx (GroupGone gid) else
      if negb (contains (gr_state rec) from) then mret tt else
      if (gi_seq m =? 0)%N || bool_decide (gi_text m = []) || (MAX_GROUP_TEXT <? str_len (gi_text m))%N
         || negb (is_safe_transfer_id (gi_id m)) then mret tt else
      let have := cursor_of (gr_have rec) key in
      if (gi_seq m <=? have)%N then send_ tx (GroupAck gid have) else
      let marker := (gid, from) in
      if (wadd64 have 1 <? gi_seq m)%N then
        if bool_decide (rt_gap_sent (grt e) !! marker ≠ Some have) then
          (_ ← modify (on_gap_sent <[marker := have]>); send_ tx (sync_frame e rec from))
        else mret tt
      else
        now ← now_ms;
        prev ← group_last_ts secret gid;
        let ts_eff := eff_ts prev (gi_ts m) now in
        let line := LogRec (gi_seq m) key (gi_id m) (gi_ts m) ts_eff "in" (gi_text m)
                      (gi_reply_to m) (gi_reply_text m) None in
        r ← attempt (append_group_log gid line);
        match r with
        | Err x => group_warn from x
        | Ok _ =>
            _ ← modify (on_ts_eff <[gid := ts_eff]>);
            _ ← modify (on_gap_sent (delete marker));
            _ ← modify (on_groups (alter (on_gr_have <[key := gi_seq m]>) gid));
            _ ← warn_on_error from persist_groups;
            e ← gets id;
            _ ← emit (EvGroupMessage gid key (peer_name e from) (gi_id m) (gi_seq m) (gi_ts m) ts_eff
                  (gi_text m) (gi_reply_to m) (gi_reply_text m) None);
            send_ tx (GroupAck gid (gi_seq m))
        end
  end.

Definition on_group_ack (from : node_id) (gid : str) (have : N) : M unit :=
  let key := node_str from in
  e ← gets id;
  match groups e !! gid with
  | None => mret tt
  | Some rec =>
      if gr_removed rec || negb (contains (gr_state rec) from) then mret tt else
      let have := N.min have (sat_sub (gr_next_seq rec) 1) in
      if (have <=? cursor_of (gr_sent_cursor rec) key)%N then mret tt else
      _ ← modify (on_groups (alter (on_gr_sent_cursor <[key := have]>) gid));
      _ ← warn_on_error from persist_groups;
      _ ← emit (EvGroupAck gid key have);
      _ ← pump gid from None;
      mret tt
  end.

(** The part of [on_group_sync] after the membership checks: cursors, the
    link, and the answer. *)
Definition on_group_sync (from : node_id) (tx : N) (gid : str) (epoch have : N) (name : str)
    : M unit :=
  let key := node_str from in
  e ← gets id;
  match groups e !! gid with
  | None => send_ tx (GroupGone gid)
  | Some rec =>
      if gr_removed rec then
        send_ tx (if (epoch <? gs_epoch (gr_state rec))%N then FGroupState (gr_state rec)
                  else GroupGone gid)
      else if negb (contains (gr_state rec) from) then
        when (epoch <? gs_epoch (gr_state rec))%N (send_ tx (FGroupState (gr_state rec)))
      else
      let my_epoch := gs_epoch (gr_state rec) in
      let is_creator := bool_decide (gs_creator (gr_state rec) = me_str) in
      _ ← when (negb (bool_decide (name = [])) && (chars_count name <=? 64)%N)
            (modify (on_peers (alter (λ p,
               if bool_decide (p_kind p = Introduced) then on_p_name (λ _, name) p else p) from)));
      _ ← modify (on_gone (λ s, s ∖ {[(gid, from)]}));
      let held := N.min epoch my_epoch in
      let state_dirty := is_creator && (cursor_of (gr_state_cursor rec) key <? held)%N in
      _ ← when state_dirty (modify (on_groups (alter (on_gr_state_cursor <[key := held]>) gid)));
      let acked := N.min have (sat_sub (gr_next_seq rec) 1) in
      let ack_dirty := (cursor_of (gr_sent_cursor rec) key <? acked)%N in
      _ ← when ack_dirty (modify (on_groups (alter (on_gr_sent_cursor <[key := acked]>) gid)));
      let pushed := N.max (cursor_of (gr_sent_cursor rec) key) acked in
      _ ← when (state_dirty || ack_dirty) (warn_on_error from persist_groups);
      _ ← when ack_dirty (emit (EvGroupAck gid key acked));
      _ ← modify (on_links <[(gid, from) := Link epoch pushed]>);
      if (epoch <? my_epoch)%N then send_ tx (FGroupState (gr_state rec))
      else if (my_epoch <? epoch)%N then
        (e ← gets id; send_ tx (sync_frame e rec from))
      else (_ ← pump gid from None; mret tt)
  end.

(** ** Typing hints *)

(** [typing_gate] *)
Definition typing_gate (key : str) (from : node_id) (on : bool) : M bool :=
  now ← instant_now;
  e ← gets id;
  let slot := default (negb on, now) (rt_typing_seen (grt e) !! (key, from)) in
  let fresh := negb (Bool.eqb slot.1 on) || (TYPING_MIN_GAP <=? sat_sub now slot.2)%N in
  _ ← modify (on_grt (on_rt_typing_seen
        <[(key, from) := if fresh then (on, now) else slot]>));
  mret fresh.

(** ** Sending *)

(** The members of a group other than this device. *)
Definition other_members (st : GroupState) : list node_id :=
  filter (λ id, id ≠ me) (omap (λ m, node_parse (gm_node_id m)) (gs_members st)).

Fixpoint pump_all (gid : str) (line : GroupLogRec) (members : list node_id) : M N :=
  match members with
  | [] => mret 0%N
  | m :: members =>
      ok ← pump gid m (Some line);
      n ← pump_all gid line members;
      mret (if (ok : bool) then N.succ n else n)
  end.

(** [group_send]: the log line, and whether it only waits for now. *)
Definition group_send (gid : str) (text : str) (reply_to reply_text : option str)
    : M (GroupLogRec * bool) :=
  _ ← guard_else (negb (bool_decide (trim text = []) || (MAX_GROUP_TEXT <? str_len text)%N)) EMessageLength;
  e ← gets id;
  match groups e !! gid with
  | None => fail EUnknownGroup
  | Some rec =>
      _ ← guard_else (negb (gr_removed rec)) EReadOnly;
      let seq := gr_next_seq rec in
      let members := other_members (gr_state rec) in
      now ← now_ms;
      prev ← group_last_ts secret gid;
      let ts_eff := eff_ts prev now now in
      id ← random_id;
      let line := LogRec seq me_str id now ts_eff "out" text reply_to reply_text None in
      _ ← append_group_log gid line;
      _ ← modify (on_ts_eff <[gid := ts_eff]>);
      _ ← modify (on_groups (alter (on_gr_next_seq (λ _, wadd64 seq 1)) gid));
      r ← attempt persist_groups;
      _ ← match r with Ok _ => mret tt | Err x => emit (EvError None x) end;
      reached ← pump_all gid line members;
      _ ← for_each members trigger_connect;
      mret (line, (reached =? 0)%N)
  end.

(** ** Reading *)

Record GroupMessageView := MkGroupMessageView
  { gmv_rec : GroupLogRec; gmv_delivered : list str; gmv_sys_kind : option str }.

(** [group_messages]: the last records, with who acknowledged each of mine. *)
Definition group_messages (gid : str) (limit : nat) : M (list GroupMessageView) :=
  e ← gets id;
  match groups e !! gid with
  | None => fail EUnknownGroup
  | Some rec =>
      let others := filter (λ id, id ≠ me_str) (gm_node_id <$> gs_members (gr_state rec)) in
      mret ((λ r, MkGroupMessageView r
               (if bool_decide (lr_dir r = lit "out") then
                  filter (λ id, (lr_seq r ≤ cursor_of (gr_sent_cursor rec) id)%N) others
                else [])
               (if bool_decide (lr_dir r = SYS_DIR) then sys_kind (lr_id r) else None)) <$>
            load_group_log (log_of e gid) limit)
  end.

End Delivery.
