(* ===== verification/Rosters.v ===== *)
(** * Group rosters: editing, applying, announcing ([p2p.rs])

    The creator edits the roster and signs it with a higher epoch; members
    apply what they receive, whoever relays it; members of rosters that are not
    paired contacts are known as introduced peers. *)

From S2P Require Import Prelude Str Net Groups Frames Engine Delivery.

Section Rosters.
Context {P : Platform} {SD : Serde} {En : Env} (secret : secret_key) (blobs_dir : str).
Local Abbreviation me := (me secret).
Local Abbreviation me_str := (me_str secret).

(** ** Introduced peers *)

Definition group_capable (p : Peer) : bool :=
  (2 <=? (if bool_decide (p_live p = []) then p_proto p
          else foldr N.max 0 (lh_proto <$> p_live p)))%N.

Definition new_introduced (name : str) (addrs : list socket_addr) : Peer :=
  MkPeer Introduced name addrs 0 [] false [] [].

Definition introduce (ps : gmap node_id Peer) (m : GroupMember) : gmap node_id Peer :=
  match node_parse (gm_node_id m) with
  | None => ps
  | Some id =>
      if bool_decide (id = me) then ps else
      let addrs := omap parse_addr (gm_addrs m) in
      let name := if bool_decide (gm_name m = []) then fallback_name id else gm_name m in
      match ps !! id with
      | None => <[id := new_introduced name addrs]> ps
      | Some p =>
          if bool_decide (p_kind p = Paired) then ps else
          let p := if bool_decide (p_name p = []) then on_p_name (λ _, name) p else p in
          let p := if bool_decide (p_addrs p = []) then on_p_addrs (λ _, addrs) p else p in
          <[id := p]> ps
      end
  end.

Definition live_groups (gs : gmap str GroupRec) : list GroupRec :=
  filter (λ g, gr_removed g = false) (group_values gs).

Definition rebuild_introduced (ps : gmap node_id Peer) (gs : gmap str GroupRec) : gmap node_id Peer :=
  foldl introduce ps (live_groups gs ≫= λ g, gs_members (gr_state g)).

Definition referenced (gs : gmap str GroupRec) : list str :=
  live_groups gs ≫= λ g, gm_node_id <$> gs_members (gr_state g).

Definition gc_introduced (ps : gmap node_id Peer) (gs : gmap str GroupRec) : gmap node_id Peer :=
  filter (λ '(id, p), p_kind p = Paired ∨ node_str id ∈ referenced gs) ps.

Definition sync_introduced : M unit :=
  modify (λ e, on_peers (λ ps, gc_introduced (rebuild_introduced ps (groups e)) (groups e)) e).

Definition groups_changed : M unit := _ ← sync_introduced; persist_groups.

(** ** System lines *)

Definition non_empty (s : str) : option str := if bool_decide (s = []) then None else Some s.

Definition sys_name (e : P2p) (st : GroupState) (node_hex : str) : str :=
  match node_parse node_hex with
  | None => "someone"
  | Some id =>
      match peers e !! id ≫= (λ p, non_empty (p_name p)) with
      | Some n => n
      | None =>
          match list_find (λ m, gm_node_id m = node_hex) (gs_members st)
                ≫= (λ '(_, m), non_empty (gm_name m)) with
          | Some n => n
          | None => fallback_name id
          end
      end
  end.

Fixpoint log_sys_from (i : N) (gid : str) (epoch : N) (ls : list (str * str)) : M unit :=
  match ls with
  | [] => mret tt
  | (kind, text) :: ls =>
      now ← now_ms;
      prev ← group_last_ts secret gid;
      let ts_eff := eff_ts prev now now in
      let rec := sys_rec kind epoch i text ts_eff in
      r ← attempt (append_group_log gid rec);
      _ ← match r with
          | Err x => emit (EvError None EStoreFailed)
          | Ok _ =>
              _ ← modify (on_ts_eff <[gid := ts_eff]>);
              emit (EvGroupSystem gid (lr_id rec) kind ts_eff text)
          end;
      log_sys_from (N.succ i) gid epoch ls
  end.
(** [log_sys] *)
Definition log_sys (gid : str) (epoch : N) (ls : list (str * str)) : M unit :=
  log_sys_from 0 gid epoch ls.

Definition quoted (s : str) : str := [8220%N] ++ s ++ [8221%N].

Definition creator_lines (e : P2p) (old new : GroupState) (left : bool) : list (str * str) :=
  (λ ev, match ev with
   | Added id => (lit "added", "You added " ++ sys_name e new id)
   | Removed id =>
       if left then (lit "left", sys_name e old id ++ " left the group")
       else (lit "removed", "You removed " ++ sys_name e old id)
   | Renamed n => (lit "renamed", "You renamed the group to " ++ quoted n)
   | Disbanded => (lit "disbanded", lit "You disbanded the group")
   end) <$> roster_events old new.

Definition member_lines (e : P2p) (old new : GroupState) : list (str * str) :=
  let actor := sys_name e new (gs_creator new) in
  (λ ev, match ev with
   | Added id =>
       if bool_decide (id = me_str) then (lit "joined", actor ++ " added you")
       else (lit "added", actor ++ " added " ++ sys_name e new id)
   | Removed id =>
       if bool_decide (id = me_str) then (lit "removed-me", lit "You were removed from the group")
       else (lit "gone", sys_name e old id ++ " is no longer in the group")
   | Renamed n => (lit "renamed", actor ++ " renamed the group to " ++ quoted n)
   | Disbanded => (lit "disbanded", actor ++ " disbanded the group")
   end) <$> roster_events old new.

(** ** Views *)

Definition member_view (e : P2p) (m : GroupMember) : MemberView :=
  let id := node_parse (gm_node_id m) in
  let peer := id ≫= λ i, peers e !! i in
  let is_me := bool_decide (id = Some me) in
  MkMemberView (gm_node_id m)
    (default (gm_name m) (peer ≫= λ p, non_empty (p_name p)))
    is_me (is_me || from_option online false peer)
    (bool_decide (p_kind <$> peer = Some Introduced)).

(** [group_json] *)
Definition group_view (e : P2p) (rec : GroupRec) : GroupView :=
  let st := gr_state rec in
  MkGroupView (gs_gid st) (gs_name st) (gs_creator st) (gs_epoch st) (gs_closed st) (gr_removed rec)
    (bool_decide (gs_creator st = me_str) && negb (gr_removed rec))
    (member_view e <$> gs_members st).

(** [groups]: what the user interface lists. *)
Definition group_list (e : P2p) : list GroupView :=
  group_view e <$> filter (λ g, gr_hidden g = false) (values_of e).

Definition shown_count (e : P2p) : N :=
  N.of_nat (length (filter (λ g, gr_hidden g = false) (values_of e))).

(** ** The creator's edits *)

Fixpoint require_cap (e : P2p) (n : N) (ms : list GroupMember) : result p2p_error unit :=
  match ms with
  | [] => Ok tt
  | m :: ms =>
      if bool_decide (gm_node_id m = me_str) then require_cap e n ms else
      match node_parse (gm_node_id m) with
      | None => require_cap e n ms
      | Some id =>
          if (default 0 (rt_caps (grt e) !! id) <? n)%N then Err (ENoCap (gm_name m))
          else require_cap e n ms
      end
  end.

Definition require_group_cap (e : P2p) (ms : list GroupMember) : result p2p_error unit :=
  let n := N.of_nat (length ms) in
  if (n <=? LEGACY_MAX_GROUP_MEMBERS)%N then Ok tt else require_cap e n ms.

Definition invitee_member (e : P2p) (id : node_id) : result p2p_error GroupMember :=
  match peers e !! id with
  | Some p =>
      if bool_decide (p_kind p ≠ Paired) then Err EOnlyPaired else
      let name := if bool_decide (p_name p = []) then fallback_name id else p_name p in
      if negb (group_capable p) then Err (ENotCapable name) else
      Ok (Member (node_str id) name (show_addr <$> take (N.to_nat MAX_MEMBER_ADDRS) (p_addrs p)))
  | None => Err EOnlyPaired
  end.

(** [announce_state]: the current state, then our [GroupSync], to the roster
    and to [extra]. *)
Definition announce_targets (st : GroupState) (extra : list str) : list node_id :=
  foldl (λ ts id, match node_parse id with
         | Some n => if bool_decide (n ≠ me ∧ n ∉ ts) then ts ++ [n] else ts
         | None => ts
         end) [] ((gm_node_id <$> gs_members st) ++ extra).

Definition announce_to (rec : GroupRec) (n : node_id) : M unit :=
  e ← gets id;
  match v2_tx e n with
  | None => mret tt
  | Some tx =>
      _ ← send_ tx (FGroupState (gr_state rec));
      when (negb (gr_removed rec) && contains (gr_state rec) n) (send_ tx (sync_frame secret e rec n))
  end.

Definition announce_state (gid : str) (extra : list str) : M unit :=
  e ← gets id;
  match groups e !! gid with
  | None => mret tt
  | Some rec => for_each (announce_targets (gr_state rec) extra) (announce_to rec)
  end.

Fixpoint add_invitees (e : P2p) (members : list GroupMember) (ids : list str)
    : result p2p_error (list GroupMember) :=
  match ids with
  | [] => Ok members
  | s :: ids =>
      id ← ok_or (node_parse s) EBadNode;
      if bool_decide (id = me) || existsb (λ m, bool_decide (gm_node_id m = node_str id)) members
      then Err EMemberTwice
      else
        m ← invitee_member e id;
        add_invitees e (members ++ [m]) ids
  end.

Definition group_create (name : str) (member_ids : list str) : M GroupView :=
  let name := trim name in
  _ ← lift_group (check_group_name name);
  _ ← guard_else (negb (bool_decide (member_ids = []))) EPickMember;
  _ ← guard_else (N.of_nat (length member_ids) <=? MAX_GROUP_MEMBERS - 1)%N EGroupFull;
  e ← gets id;
  _ ← guard_else (shown_count e <? MAX_GROUPS)%N ETooManyGroups;
  members ← lift (add_invitees e [Member me_str (my_name secret e) []] member_ids);
  _ ← lift (require_group_cap e members);
  n ← next_tick;
  let gid := env_new_gid n in
  st ← lift_group (sign (State gid me_str 1 name false members []) secret);
  _ ← lift_group (check st);
  _ ← modify (on_groups <[gid := GroupRec_new st]>);
  _ ← groups_changed;
  _ ← log_sys gid 1 [(lit "created", lit "You created the group")];
  _ ← announce_state gid [];
  e ← gets id;
  mret (group_view e (default (GroupRec_new st) (groups e !! gid))).

Definition with_epoch (st : GroupState) (epoch : N) : GroupState :=
  State (gs_gid st) (gs_creator st) epoch (gs_name st) (gs_closed st) (gs_members st) (gs_sig st).
Definition with_name (st : GroupState) (name : str) : GroupState :=
  State (gs_gid st) (gs_creator st) (gs_epoch st) name (gs_closed st) (gs_members st) (gs_sig st).
Definition with_members (st : GroupState) (ms : list GroupMember) : GroupState :=
  State (gs_gid st) (gs_creator st) (gs_epoch st) (gs_name st) (gs_closed st) ms (gs_sig st).
Definition with_closed (st : GroupState) : GroupState :=
  State (gs_gid st) (gs_creator st) (gs_epoch st) (gs_name st) true (gs_members st) (gs_sig st).

(** [map.retain(|(g, _), ..| g != gid)] *)
Definition retain_links (gid : str) : P2p → P2p := on_links (filter (λ '((g, _), _), g ≠ gid)).
Definition retain_gap_sent (gid : str) : P2p → P2p := on_gap_sent (filter (λ '((g, _), _), g ≠ gid)).
Definition retain_gone (gid : str) : P2p → P2p := on_gone (filter (λ '(g, _), g ≠ gid)).

(** [edit_group_locked] *)
Definition edit_group_locked (gid : str) (left : bool)
    (edit : P2p → GroupState → result p2p_error GroupState) : M GroupView :=
  e ← gets id;
  match groups e !! gid with
  | None => fail EUnknownGroup
  | Some rec =>
      let old := gr_state rec in
      _ ← guard_else (bool_decide (gs_creator old = me_str)) ENotCreator;
      _ ← guard_else (negb (gr_removed rec)) EGroupClosed;
      let before := gm_node_id <$> gs_members old in
      st ← lift (edit e old);
      st ← lift_group (sign (with_epoch st (wadd64 (gs_epoch st) 1)) secret);
      _ ← lift_group (check st);
      let lines := creator_lines e old st left in
      _ ← modify (on_groups (alter (λ r, on_gr_state (λ _, st) (on_gr_removed (λ _, gs_closed st) r)) gid));
      _ ← groups_changed;
      _ ← log_sys gid (gs_epoch st) lines;
      _ ← modify (retain_gone gid);
      _ ← when (gs_closed st) (modify (retain_links gid));
      _ ← announce_state gid before;
      e ← gets id;
      let group := group_view e (default rec (groups e !! gid)) in
      _ ← emit (EvGroupState group);
      mret group
  end.

Definition group_add (gid node : str) : M GroupView :=
  id ← lift (ok_or (node_parse node) EBadNode);
  edit_group_locked gid false (λ e st,
    if (MAX_GROUP_MEMBERS <=? N.of_nat (length (gs_members st)))%N then Err EGroupFull
    else if contains st id then Err EMemberTwice
    else
      m ← invitee_member e id;
      let ms := gs_members st ++ [m] in
      _ ← require_group_cap e ms;
      Ok (with_members st ms)).

Definition drop_member (st : GroupState) (id : str) : GroupState :=
  with_members st (filter (λ m, gm_node_id m ≠ id) (gs_members st)).

Definition group_remove (gid node : str) : M GroupView :=
  id ← lift (ok_or (node_parse node) EBadNode);
  edit_group_locked gid false (λ _ st,
    if bool_decide (node_str id = gs_creator st) then Err ECreatorRemove
    else if negb (contains st id) then Err ENotMember
    else Ok (drop_member st (node_str id))).

Definition group_rename (gid name : str) : M GroupView :=
  let name := trim name in
  _ ← lift_group (check_group_name name);
  edit_group_locked gid false (λ _ st, Ok (with_name st name)).

Definition group_disband (gid : str) : M GroupView :=
  edit_group_locked gid false (λ _ st, Ok (with_members (with_closed st) (take 1 (gs_members st)))).

End Rosters.
