(* ===== verification/GroupWire.v ===== *)
(** * Groups on the wire: applying rosters, leaving, frame dispatch ([p2p.rs]) *)

From S2P Require Import Prelude Str Net Groups Frames Engine Delivery Rosters.

Section GroupWire.
Context {P : Platform} {SD : Serde} {En : Env} (secret : secret_key) (blobs_dir : str).
Local Abbreviation me := (me secret).
Local Abbreviation me_str := (me_str secret).

(** ** Leaving and deleting *)

Definition group_leave (gid : str) : M GroupView :=
  e ← gets id;
  match groups e !! gid with
  | None => fail EUnknownGroup
  | Some rec =>
      _ ← guard_else (negb (bool_decide (gs_creator (gr_state rec) = me_str))) ECreatorLeave;
      _ ← modify (on_groups (alter (λ r, on_gr_pending_leave (λ _, true)
                               (on_gr_removed (λ _, true) r)) gid));
      _ ← groups_changed secret;
      _ ← log_sys secret gid (gs_epoch (gr_state rec)) [(lit "left-me", lit "You left the group")];
      _ ← modify (retain_links gid);
      e ← gets id;
      _ ← match node_parse (gs_creator (gr_state rec)) ≫= v2_tx e with
          | Some tx => send_ tx (GroupLeave gid)
          | None => mret tt
          end;
      e ← gets id;
      mret (group_view secret e (default rec (groups e !! gid)))
  end.

(** [purge_group]: record, log, blobs, links. *)
Definition purge_group (gid : str) : M unit :=
  _ ← modify (on_groups (delete gid));
  _ ← delete_log gid;
  _ ← delete_group_blobs blobs_dir gid;
  _ ← modify (retain_links gid);
  _ ← modify (retain_gone gid);
  _ ← modify (retain_gap_sent gid);
  _ ← modify (on_ts_eff (delete gid));
  _ ← sync_introduced secret;
  r ← attempt persist_groups;
  _ ← match r with Ok _ => mret tt | Err _ => emit (EvError None EStoreFailed) end;
  emit (EvGroupDeleted gid).

Definition group_delete (gid : str) : M unit :=
  e ← gets id;
  match groups e !! gid with
  | None => fail EUnknownGroup
  | Some rec =>
      _ ← guard_else (gr_removed rec) ELeaveFirst;
      if gr_pending_leave rec then
        _ ← modify (on_groups (alter (on_gr_hidden (λ _, true)) gid));
        _ ← delete_log gid;
        _ ← delete_group_blobs blobs_dir gid;
        _ ← modify (on_ts_eff (delete gid));
        _ ← persist_groups;
        emit (EvGroupDeleted gid)
      else purge_group gid
  end.

(** [peer_group_impact]: the groups an unpairing deletes, and those it leaves. *)
Definition peer_group_impact (e : P2p) (id : node_id) : list str * list str :=
  let shown := filter (λ g, gr_hidden g = false) (values_of e) in
  let created := λ g, gs_creator (gr_state g) = node_str id ∧ gs_creator (gr_state g) ≠ me_str in
  let name := λ g, gs_gid (gr_state g) in
  (name <$> filter created shown,
   name <$> filter (λ g, ¬ created g ∧ gr_removed g = false ∧ contains (gr_state g) id = true) shown).

(** ** Applying a received roster *)

Inductive applied := AStale | ACreated (g : option GroupView) | AUpdated (g : option GroupView).

(** [after_state_applied] *)
Definition after_state_applied (gid : str) : M unit :=
  _ ← modify (retain_gone gid);
  e ← gets id;
  match groups e !! gid with
  | None => mret tt
  | Some rec =>
      _ ← emit (EvGroupState (group_view secret e rec));
      if gr_removed rec then modify (retain_links gid) else
      let members := other_members secret (gr_state rec) in
      _ ← for_each members (λ m,
            e ← gets id;
            match v2_tx e m with
            | Some tx => send_ tx (sync_frame secret e rec m)
            | None => mret tt
            end);
      _ ← modify (on_links (filter (λ '((g, n), _), g ≠ gid ∨ n ∈ members)));
      for_each members (λ m, _ ← pump secret gid m None; mret tt)
  end.

(** The end of [apply_state_locked], once the record is written. *)
Definition finish_apply (gid : str) (epoch : N) (sys : list (str * str)) (removed : option str)
    (mk : option GroupView → applied) : M applied :=
  _ ← groups_changed secret;
  _ ← log_sys secret gid epoch sys;
  e ← gets id;
  if from_option (λ r, gr_hidden r && negb (gr_pending_leave r)) false (groups e !! gid) then
    (_ ← purge_group gid; mret (mk None))
  else
    _ ← match removed with Some reason => emit (EvGroupRemoved gid reason) | None => mret tt end;
    _ ← after_state_applied gid;
    e ← gets id;
    mret (mk (group_view secret e <$> groups e !! gid)).

(** The record after an accepted newer state. *)
Definition update_rec (st : GroupState) (removed_me : bool) (r : GroupRec) : GroupRec :=
  on_gr_pending_leave (λ p, if removed_me then false else p)
    (on_gr_removed (λ _, gr_pending_leave r || removed_me) (on_gr_state (λ _, st) r)).

Definition apply_state (st : GroupState) (from : node_id) : M applied :=
  e ← gets id;
  let gid := gs_gid st in
  verdict ← lift_group (evaluate_incoming (groups e !! gid) st me);
  match verdict with
  | Stale => mret AStale
  | Create =>
      _ ← guard_else (bool_decide (node_str from = gs_creator st)
                      && bool_decide (kind_of e from = Some Paired)) ENewGroupSender;
      _ ← guard_else (shown_count e <? MAX_GROUPS)%N ETooManyGroups;
      let actor := sys_name e st (gs_creator st) in
      _ ← modify (on_groups <[gid := GroupRec_new st]>);
      finish_apply gid (gs_epoch st) [(lit "joined", actor ++ " added you")] None ACreated
  | Update removed_me =>
      match groups e !! gid with
      | None => fail EUnknownGroup
      | Some rec =>
          _ ← guard_else (contains (gr_state rec) from) ENotInGroup;
          let rec' := update_rec st removed_me rec in
          _ ← modify (on_groups <[gid := rec']>);
          e ← gets id;
          let sys := if gr_removed rec then [] else member_lines secret e (gr_state rec) st in
          let removed := if gr_removed rec' && negb (gr_removed rec)
                         then Some (if gs_closed st then lit "closed" else lit "removed") else None in
          finish_apply gid (gs_epoch st) sys removed AUpdated
      end
  end.

(** ** A member's leave request *)

Definition on_group_leave (from : node_id) (gid : str) : M unit :=
  e ← gets id;
  match groups e !! gid with
  | None => mret tt
  | Some r =>
      if bool_decide (gs_creator (gr_state r) = me_str) && negb (gr_removed r)
         && contains (gr_state r) from && negb (bool_decide (node_str from = me_str)) then
        res ← attempt (edit_group_locked secret gid true
                (λ _ st, Ok (drop_member st (node_str from))));
        match res with Ok _ => mret tt | Err x => group_warn from x end
      else mret tt
  end.

(** ** Sessions *)

(** [group_session_open]: the first frames of a session. *)
Definition open_group (node : node_id) (tx : N) (rec : GroupRec) : M unit :=
  let key := node_str node in
  let st := gr_state rec in
  if gr_removed rec then
    when (gr_pending_leave rec && bool_decide (gs_creator st = key)) (send_ tx (GroupLeave (gs_gid st)))
  else if negb (contains st node) then mret tt
  else
    _ ← when (bool_decide (gs_creator st = me_str)
              && (cursor_of (gr_state_cursor rec) key <? gs_epoch st)%N) (send_ tx (FGroupState st));
    e ← gets id;
    send_ tx (sync_frame secret e rec node).

Definition group_session_open (node : node_id) (tx : N) : M unit :=
  e ← gets id;
  if (session_proto e node tx <? 2)%N then mret tt else
  _ ← send_ tx (GroupCaps MAX_GROUP_MEMBERS);
  for_each (values_of e) (open_group node tx).

(** [trigger_group_dials] *)
Definition trigger_group_dials : M unit :=
  e ← gets id;
  let gs := filter (λ g, gr_removed g = false ∨ gr_pending_leave g = true) (values_of e) in
  for_each (filter (λ id, is_Some (peers e !! id))
              (gs ≫= λ g, other_members secret (gr_state g))) trigger_connect.

(** [handle_group_frame]; the outcome of [apply_state] only matters here when
    it is an error. *)
Definition handle_group_frame (from : node_id) (f : Frame) (tx : N) : M unit :=
  e ← gets id;
  if (session_proto e from tx <? 2)%N then mret tt else
  match f with
  | FGroupState st =>
      r ← attempt (apply_state st from);
      match r with Ok _ => mret tt | Err x => group_warn from x end
  | GroupSync gid epoch have name => on_group_sync secret from tx gid epoch have name
  | GroupMsg gid claimed seq id ts text reply_to reply_text =>
      on_group_msg secret from tx (MkGroupIn gid claimed seq id ts text reply_to reply_text)
  | GroupAck gid have => on_group_ack secret from gid have
  | GroupCaps max => modify (on_grt (on_rt_caps <[from := max]>))
  | GroupLeave gid => on_group_leave from gid
  | Typing (Some gid) on =>
      match groups e !! gid with
      | Some r =>
          if negb (gr_removed r) && contains (gr_state r) from then
            fresh ← typing_gate gid from on;
            when fresh (emit (EvGroupTyping gid (node_str from) (peer_name e from) on))
          else mret tt
      | None => mret tt
      end
  | GroupGone gid =>
      match groups e !! gid with
      | Some r =>
          if negb (gr_removed r) && contains (gr_state r) from then
            _ ← modify (on_links (delete (gid, from)));
            modify (on_gone (λ s, s ∪ {[(gid, from)]}))
          else mret tt
      | None => mret tt
      end
  | _ => mret tt
  end.

(** ** Typing *)

(** [on_typing]: a 1:1 hint. *)
Definition on_typing (from : node_id) (on : bool) (tx : N) : M unit :=
  e ← gets id;
  if bool_decide (kind_of e from = Some Paired) && (2 <=? session_proto e from tx)%N then
    fresh ← typing_gate [] from on;
    when fresh (emit (EvTyping (node_str from) on))
  else mret tt.

(** [typing_peer]: whether the hint went out. *)
Definition typing_peer (id : node_id) (on : bool) : M bool :=
  e ← gets (λ x, x);
  _ ← guard_else (bool_decide (kind_of e id = Some Paired)) EUnknownPeer;
  match v2_tx e id with
  | Some tx => send tx (Typing None on)
  | None => mret false
  end.

Fixpoint typing_each (gid : str) (on : bool) (ids : list node_id) : M N :=
  match ids with
  | [] => mret 0%N
  | id :: ids =>
      e ← gets (λ x, x);
      ok ← match v2_tx e id with
           | Some tx => send tx (Typing (Some gid) on)
           | None => mret false
           end;
      n ← typing_each gid on ids;
      mret (if (ok : bool) then N.succ n else n)
  end.

(** [typing_group]: how many members were reached. *)
Definition typing_group (gid : str) (on : bool) : M N :=
  e ← gets id;
  match groups e !! gid with
  | None => fail EUnknownGroup
  | Some rec =>
      if gr_removed rec then mret 0%N else typing_each gid on (other_members secret (gr_state rec))
  end.

End GroupWire.
