(* ===== verification/Chat.v ===== *)
(** * One-to-one chat: pairing, sessions, messages, files ([p2p.rs]) *)

From S2P Require Import Prelude Str Net Groups Frames Engine Delivery Rosters GroupWire.

(** A beacon heard on the network. *)
Record Beacon := MkBeacon { bc_node : str; bc_name : str; bc_addrs : list str }.

Section Chat.
Context {P : Platform} {SD : Serde} {En : Env}.
Context (secret : secret_key) (blobs_dir : str).
Local Abbreviation me := (me secret).
Local Abbreviation me_str := (me_str secret).

Definition require_paired (node : node_id) : M unit :=
  e ← gets id; guard_else (bool_decide (kind_of e node = Some Paired)) EUnknownPeer.

(** [set_name] *)
Definition set_name (name : str) : M unit :=
  let name := trim name in
  _ ← guard_else (negb (bool_decide (name = []) || (64 <? str_len name)%N)) ENameLength;
  _ ← modify (on_e_inner (on_in_name (λ _, name)));
  n ← next_tick;
  if env_write_ok n then modify (on_e_disk (on_dk_profile (λ _, Some name))) else fail EStoreFailed.

(** ** Peers *)

(** [add_peer] *)
Definition add_peer (node : node_id) (name : str) (addrs : list socket_addr) : M unit :=
  _ ← modify (λ e,
    let msgs := load_messages e node in
    let p := default (MkPeer Paired [] [] 0 [] false (queued_from msgs) msgs) (peers e !! node) in
    let p := if bool_decide (p_kind p = Introduced)
             then on_p_kind (λ _, Paired) (on_p_msgs (λ _, msgs) (on_p_queued (λ _, queued_from msgs) p))
             else p in
    let p := if bool_decide (name = []) then p else on_p_name (λ _, name) p in
    let p := if bool_decide (addrs = []) then p else on_p_addrs (λ _, addrs) p in
    on_peers <[node := p]> e);
  persist_peers.

(** [remove_peer] *)
Definition remove_peer (node : node_id) : M unit :=
  e ← gets id;
  _ ← guard_else (bool_decide (kind_of e node = Some Paired)) EUnknownPeer;
  _ ← modify (on_peers (delete node));
  _ ← modify (on_e_inner (on_in_pair_requests (delete node)));
  _ ← persist_peers;
  e ← gets id;
  let theirs := (gs_gid ∘ gr_state) <$>
    filter (λ g, gs_creator (gr_state g) = node_str node ∧ gs_creator (gr_state g) ≠ me_str)
      (values_of e) in
  _ ← for_each theirs (purge_group secret blobs_dir);
  _ ← sync_introduced secret;
  _ ← modify (on_e_disk (on_dk_rows (delete node)));
  _ ← remove_dir_all (join blobs_dir (node_str node));
  emit (EvPresence (node_str node) false).

(** [hear_beacon] *)
Definition NEIGHBOR_TTL : N := 10000%N.
Definition nearby_fresh (now : N) (n : Nearby) : bool := (sat_sub now (nb_last_seen n) <? NEIGHBOR_TTL)%N.

Definition hear_beacon (b : Beacon) (from : socket_addr) : M unit :=
  match node_parse (bc_node b) with
  | None => mret tt
  | Some node =>
      if bool_decide (node = me) then mret tt else
      let addrs := omap parse_addr (bc_addrs b) in
      let addrs := if bool_decide (from ∈ addrs) then addrs else addrs ++ [from] in
      now ← instant_now;
      e ← gets id;
      let old := in_nearby (e_inner e) !! node in
      let n := default (MkNearby [] [] now) old in
      let n := MkNearby (if bool_decide (bc_name b = []) then nb_name n else bc_name b) addrs now in
      _ ← modify (on_e_inner (on_in_nearby <[node := n]>));
      _ ← match peers e !! node with
          | Some p =>
              if bool_decide (p_addrs p ≠ addrs) then
                _ ← modify (on_peers <[node := on_p_addrs (λ _, addrs) p]>);
                if bool_decide (p_kind p = Paired) then (_ ← attempt persist_peers; mret tt) else mret tt
              else mret tt
          | None => mret tt
          end;
      now ← instant_now;
      _ ← modify (on_e_inner (on_in_nearby (λ m,
            if (64 <? N.of_nat (size m))%N then filter (λ '(_, n), nearby_fresh now n = true) m else m)));
      when (bool_decide (old = None)) (emit (EvNearby (node_str node) (bc_name b)))
  end.

(** ** Pairing *)

(** [create_invite]: the token of a new invite replaces the old one. *)
Definition create_invite : M str :=
  t ← random_id; _ ← modify (on_e_inner (on_in_token (λ _, t))); mret t.

(** The part of [handle_incoming] that reads a pairing hello: the current
    token is proof of the invite; an empty token asks the user; anything else is
    refused.  [expected]: the token as it was when the connection was opened.  The
    result is the request to wait for, when there is one. *)
Definition incoming_hello (expected : str) (node : node_id) (token name : str) : M (option N) :=
  e ← gets id;
  if bool_decide (token = expected) then mret None
  else if negb (bool_decide (token = [])) then fail EWrongToken
  else
    request ← next_tick;
    _ ← match in_pair_requests (e_inner e) !! node with
        | Some old => modify (on_e_decisions <[old := false]>)
        | None => mret tt
        end;
    _ ← modify (on_e_inner (on_in_pair_requests <[node := request]>));
    _ ← emit (EvPairRequest (node_str node) name);
    mret (Some request).

(** [approve_pair] *)
Definition approve_pair (node : node_id) (accept : bool) : M unit :=
  e ← gets id;
  match in_pair_requests (e_inner e) !! node with
  | None => fail ENoRequest
  | Some request =>
      _ ← modify (on_e_inner (on_in_pair_requests (delete node)));
      modify (on_e_decisions <[request := accept]>)
  end.

(** ** The queue *)

(** [flush_queue]: the queued texts go on the session and become "sent". *)
Definition flush_one (node : node_id) (tx : N) (m : StoredMsg) : M StoredMsg :=
  _ ← send tx (Msg (sm_id m) (sm_ts m) (sm_text m) (sm_reply_to m) (sm_reply_text m));
  _ ← emit (EvMsgState (node_str node) (sm_id m) "sent");
  e ← gets id;
  let sent := with_state m "sent" in
  match peers e !! node with
  | None => mret sent
  | Some p =>
      match update_last (λ x, is_out x && bool_decide (sm_id x = sm_id m))
              (λ x, with_state x "sent") (p_msgs p) with
      | Some (row, msgs) => _ ← modify (on_peers <[node := on_p_msgs (λ _, msgs) p]>); mret row
      | None => _ ← modify (on_peers <[node := on_p_msgs (λ l, l ++ [sent]) p]>); mret sent
      end
  end.

Fixpoint flush_each (node : node_id) (tx : N) (ms : list StoredMsg) : M (list StoredMsg) :=
  match ms with
  | [] => mret []
  | m :: ms => row ← flush_one node tx m; rows ← flush_each node tx ms; mret (row :: rows)
  end.

Definition flush_queue (node : node_id) (tx : N) : M unit :=
  e ← gets id;
  match peers e !! node with
  | None => mret tt
  | Some p =>
      _ ← modify (on_peers <[node := on_p_queued (λ _, []) p]>);
      rows ← flush_each node tx (p_queued p);
      persist_messages node rows
  end.

(** ** Sessions *)

(** A session on a connection this device dialed ([connect_and_serve]). *)
Definition serve_dialed (node : node_id) (proto : N) : M N :=
  tx ← open_channel;
  _ ← register_live node tx proto;
  _ ← set_connecting node false;
  _ ← flush_queue node tx;
  _ ← emit_presence node true;
  _ ← group_session_open secret node tx;
  mret tx.

(** A session a known device opened ([handle_incoming]); that of an [introduced]
    member carries group frames only. *)
Definition serve_session (introduced : bool) (node : node_id) (proto : N) : M N :=
  tx ← open_channel;
  _ ← register_live node tx proto;
  _ ← when (negb introduced) (_ ← flush_queue node tx; emit_presence node true);
  _ ← group_session_open secret node tx;
  mret tx.

(** The same when nothing happened since the connection was accepted. *)
Definition serve_accepted (node : node_id) (proto : N) : M N :=
  e ← gets id;
  serve_session (bool_decide (kind_of e node = Some Introduced)) node proto.

(** The end of a pairing: on the device that was asked ([handle_incoming]) and
    on the one that asked ([pair_connect]). *)
Definition pair_served (node : node_id) (proto : N) : M N :=
  tx ← open_channel;
  _ ← register_live node tx proto;
  _ ← flush_queue node tx;
  e ← gets id;
  _ ← emit (EvPairing (node_str node) (from_option p_name [] (peers e !! node)));
  _ ← emit (EvPresence (node_str node) true);
  _ ← group_session_open secret node tx;
  mret tx.

Definition pair_accepted (node : node_id) (name : str) (addrs : list str) (proto : N) : M N :=
  _ ← add_peer node name (omap parse_addr addrs);
  pair_served node proto.

Definition pair_connect (node : node_id) (addrs : list socket_addr) (name_hint inviter_name : str)
    (proto : N) : M N :=
  _ ← guard_else (negb (bool_decide (node = me))) EOwnInvite;
  _ ← add_peer node (if bool_decide (name_hint = []) then inviter_name else name_hint) addrs;
  tx ← open_channel;
  _ ← register_live node tx proto;
  _ ← flush_queue node tx;
  _ ← emit (EvPresence (node_str node) true);
  _ ← group_session_open secret node tx;
  mret tx.

(** [remove_live], when the session task ends. *)
Definition remove_live (node : node_id) (handle : N) : M unit :=
  e ← gets id;
  match peers e !! node with
  | None => mret tt
  | Some p =>
      let p := on_p_live (filter (λ h, lh_id h ≠ handle)) p in
      _ ← modify (on_peers <[node := p]>);
      if online p then mret tt else
      _ ← modify (on_links (filter (λ '((_, n), _), n ≠ node)));
      _ ← modify (on_gap_sent (filter (λ '((_, n), _), n ≠ node)));
      _ ← drop_group_inbound (λ n _, bool_decide (n = node));
      emit_presence node false
  end.

(** ** Texts *)

(** [send] of a text; the result says whether it was queued. *)
Definition reap (e : P2p) (p : Peer) : Peer :=
  on_p_live (filter (λ h, is_closed e (lh_tx h) = false)) p.

Definition send_text (node : node_id) (text : str) (reply_to reply_text : option str) : M (str * bool) :=
  _ ← guard_else (negb (bool_decide (text = []) || (MAX_TEXT <? str_len text)%N)) EMessageLength;
  id ← random_id;
  ts ← now_ms;
  e ← gets (λ x, x);
  match peers e !! node with
  | Some p =>
      _ ← guard_else (bool_decide (p_kind p = Paired)) EUnknownPeer;
      let p := reap e p in
      sent ← match p_live p with
             | h :: _ => send (lh_tx h) (Msg id ts text reply_to reply_text)
             | [] => mret false
             end;
      let row := SMsg id ts "out" (if (sent : bool) then lit "sent" else lit "queued") text
                   reply_to reply_text None in
      let p := if sent then p else on_p_queued (λ l, l ++ [row]) p in
      _ ← modify (on_peers <[node := on_p_msgs (λ l, l ++ [row]) p]>);
      _ ← persist_messages node [row];
      _ ← when (negb sent) (trigger_connect node);
      mret (id, negb sent)
  | None => fail EUnknownPeer
  end.

(** The [Ack] and [Msg] branches of [handle_frame]. *)
Definition on_ack (from : node_id) (id : str) : M unit :=
  e ← gets (λ x, x);
  _ ← match peers e !! from with
      | Some p =>
          match update_last (λ m, bool_decide (sm_id m = id) && is_out m)
                  (λ m, with_state m "acked") (p_msgs p) with
          | Some (row, msgs) =>
              _ ← modify (on_peers <[from := on_p_msgs (λ _, msgs) p]>);
              persist_messages from [row]
          | None => mret tt
          end
      | None => mret tt
      end;
  emit (EvAck (node_str from) id).

Definition push_msg (from : node_id) (m : StoredMsg) : M unit :=
  e ← gets id;
  match peers e !! from with
  | Some p =>
      _ ← modify (on_peers <[from := on_p_msgs (λ l, l ++ [m]) p]>);
      persist_messages from [m]
  | None => mret tt
  end.

Definition is_dup (e : P2p) (from : node_id) (id : str) : bool :=
  match peers e !! from with
  | Some p => existsb (λ m, bool_decide (sm_dir m = lit "in") && bool_decide (sm_id m = id)) (p_msgs p)
  | None => true
  end.

Definition on_msg (from : node_id) (tx : N) (id : str) (ts : N) (text : str)
    (reply_to reply_text : option str) : M unit :=
  e ← gets (λ x, x);
  if is_dup e from id then send_ tx (Ack id) else
  _ ← push_msg from (SMsg id ts "in" "acked" text reply_to reply_text None);
  _ ← send_ tx (Ack id);
  emit (EvMessage (node_str from) id ts text reply_to reply_text None).

(** [messages]: the last ones, for a paired peer. *)
Definition messages (node : node_id) (limit : nat) : M (list StoredMsg) :=
  e ← gets id;
  match peers e !! node with
  | Some p =>
      _ ← guard_else (bool_decide (p_kind p = Paired)) EUnknownPeer;
      mret (drop (length (p_msgs p) - limit) (p_msgs p))
  | None => fail EUnknownPeer
  end.

End Chat.
