(* ===== verification/Files.v ===== *)
(** * Media transfers of the local chat, and frame dispatch ([p2p.rs]) *)

From S2P Require Import Prelude Str Net Groups Frames Engine Delivery Rosters GroupWire Chat.

(** [data_encoding::BASE64]. *)
Class Base64 := {
  base64_encode : bytes → str;
  base64_decode : bytes → option bytes;
}.

(** [Path::file_stem] and [Path::extension] of a name without separators. *)
Definition file_name (s : str) : option str :=
  if bool_decide (s = [] ∨ s = lit "." ∨ s = lit "..") then None else Some s.
Definition has_dot (s : str) : bool := existsb (λ c, c =? 46)%N s.
Definition before_last_dot (s : str) : str :=
  take (length s - length (after_last (λ c, c =? 46)%N s) - 1) s.
Definition file_stem (s : str) : option str :=
  n ← file_name s;
  Some (if has_dot n && negb (bool_decide (before_last_dot n = [])) then before_last_dot n else n).
Definition file_ext (s : str) : option str :=
  n ← file_name s;
  if has_dot n && negb (bool_decide (before_last_dot n = []))
  then Some (after_last (λ c, c =? 46)%N n) else None.

Section Files.
Context {P : Platform} {SD : Serde} {En : Env} {CT : CharTable} {B64 : Base64}.
Context (secret : secret_key) (blobs_dir : str).
Local Abbreviation me := (me secret).
Local Abbreviation me_str := (me_str secret).
Local Abbreviation files e := (dk_files (e_disk e)).

(** [unique_path]: the first free of [name], [name (1)], ... *)
Definition candidate (dir stem ext : str) (i : N) : str :=
  join dir (if (i =? 0)%N then stem ++ ext else stem ++ " (" ++ show_N i ++ ")" ++ ext).
Definition unique_path (fs : gmap str bytes) (dir name : str) (stamp : N) : str :=
  let stem := default (lit "file") (file_stem name) in
  let ext := from_option (λ x, "." ++ x) [] (file_ext name) in
  match list_find (λ i, fs !! candidate dir stem ext i = None) (N.of_nat <$> seq 0 1000) with
  | Some (_, i) => candidate dir stem ext i
  | None => join dir (stem ++ "-" ++ show_N stamp ++ ext)
  end.

Definition base_name (path : str) : str := after_last (λ c, c =? 47)%N path.

(** [File::create]; [false] when it fails. *)
Definition create_file (path : str) : M bool :=
  n ← next_tick;
  if env_write_ok n then (_ ← modify (on_files <[path := []]>); mret true) else mret false.
(** Appending to an existing file. *)
Definition append_file (path : str) (b : bytes) : M bool :=
  n ← next_tick;
  e ← gets id;
  if env_write_ok n && bool_decide (is_Some (files e !! path))
  then (_ ← modify (on_files (alter (λ l, l ++ b) path)); mret true) else mret false.
Definition rename_file (old new : str) : M bool :=
  n ← next_tick;
  e ← gets id;
  match files e !! old with
  | Some b => if env_write_ok n then (_ ← modify (on_files (λ m, <[new := b]> (delete old m))); mret true)
              else mret false
  | None => mret false
  end.

Definition on_rx := on_e_rx_files.
Definition count_from (from : node_id) (rx : gmap (node_id * str) FileRx) : N :=
  N.of_nat (size (filter (λ '((n, _), _), n = from) rx)).
Definition total_of (rx : gmap (node_id * str) FileRx) : N := N.of_nat (size rx).

Definition set_got (n : N) (t : FileRx) : FileRx :=
  MkFileRx (fr_partial t) (fr_dir t) (fr_name t) (fr_size t) (fr_mime t) (fr_caption t) (fr_ts t) n (fr_gid t).

(** ** One-to-one files *)

Definition peer_dir (from : node_id) : str := join blobs_dir (node_str from).

(** A begin that passed its checks: [rx_files] is unlocked again before the partial
    file is made, and locked for the insertion.  [finish_begin] is this second
    half; other sessions run in between. *)
Definition begin_rx (from : node_id) (id : str) (t : FileRx) : M unit :=
  modify (on_e_begins (λ l, l ++ [(from, id, t)])).

Definition finish_begin (k : nat) : M unit :=
  e ← gets (λ x, x);
  match e_begins e !! k with
  | None => mret tt
  | Some (from, id, t) =>
      _ ← modify (on_e_begins (delete k));
      ok ← create_file (fr_partial t);
      if (ok : bool) then modify (on_rx <[(from, id) := t]>)
      else emit (EvError (Some (node_str from)) EFileIo)
  end.

Definition on_file_begin (from : node_id) (id : str) (ts : N) (name : str) (size : N)
    (mime caption : str) : M unit :=
  let reject x := emit (EvError (Some (node_str from)) x) in
  if negb (is_safe_transfer_id id) then reject ERejectedId else
  if (MAX_FILE_BYTES <? size)%N then reject ERejectedSize else
  e ← gets (λ x, x);
  let rx := e_rx_files e in
  if bool_decide (is_Some (rx !! (from, id) ≫= fr_gid)) then mret tt else
  if (MAX_INBOUND_FILES_PER_PEER <=? count_from from rx)%N
     || (MAX_INBOUND_FILES_TOTAL <=? total_of rx)%N then reject ERejectedCount else
  let dir := peer_dir from in
  let partial := join dir ("partial-" ++ id) in
  begin_rx from id (MkFileRx partial dir (sanitize_name name) size mime caption ts 0 None).

Definition on_file_chunk (from : node_id) (id data : str) : M unit :=
  e ← gets (λ x, x);
  match e_rx_files e !! (from, id) with
  | None => mret tt
  | Some t =>
      if bool_decide (is_Some (fr_gid t)) then mret tt else
      match base64_decode (as_bytes data) with
      | None => modify (on_rx (delete (from, id)))
      | Some b =>
          let got := wadd64 (fr_got t) (N.of_nat (length b)) in
          if (fr_size t <? got)%N then modify (on_rx (delete (from, id))) else
          _ ← emit (EvFileProgress (node_str from) id (fr_got t) (fr_size t));
          _ ← append_file (fr_partial t) b;
          modify (on_rx <[(from, id) := set_got got t]>)
      end
  end.

Definition on_file_end (from : node_id) (tx : N) (id : str) : M unit :=
  e ← gets (λ x, x);
  match e_rx_files e !! (from, id) with
  | None => mret tt
  | Some t =>
      if bool_decide (is_Some (fr_gid t)) then mret tt else
      _ ← modify (on_rx (delete (from, id)));
      if negb (fr_got t =? fr_size t)%N then remove_file (fr_partial t) else
      stamp ← now_ms;
      e ← gets (λ x, x);
      let final := unique_path (files e) (fr_dir t) (fr_name t) stamp in
      ok ← rename_file (fr_partial t) final;
      if negb ok then mret tt else
      let file := SFile (base_name final) (fr_got t) (fr_mime t) final in
      _ ← push_msg from (SMsg id (fr_ts t) "in" "acked" (fr_caption t) None None (Some file));
      _ ← send_ tx (Ack id);
      emit (EvMessage (node_str from) id (fr_ts t) (fr_caption t) None None (Some file))
  end.

(** ** Group files: receiving *)

Definition group_partial (gid : str) (from : node_id) (id : str) : str :=
  join (group_dir blobs_dir gid) ("partial-" ++ node_str from ++ "-" ++ id).

Definition has_group_file (e : P2p) (gid : str) (from : node_id) (id : str) : bool :=
  existsb (λ r, bool_decide (lr_from r = node_str from) && bool_decide (lr_id r = id)
                && bool_decide (is_Some (lr_file r))) (read_log (log_of e gid)).

Definition on_group_file_begin (from : node_id) (gid id : str) (ts : N) (name : str) (size : N)
    (mime caption : str) : M unit :=
  let reject x := emit (EvError (Some (node_str from)) x) in
  if negb (is_safe_transfer_id id) then reject ERejectedId else
  if (MAX_GROUP_FILE_BYTES <? size)%N then reject ERejectedSize else
  e ← gets (λ x, x);
  let rx := e_rx_files e in
  let old := rx !! (from, id) in
  if bool_decide (fr_gid <$> old = Some None) then mret tt else
  let replacing := if bool_decide (is_Some old) then 1%N else 0%N in
  if (MAX_INBOUND_FILES_PER_PEER <=? sat_sub (count_from from rx) replacing)%N
     || (MAX_INBOUND_FILES_TOTAL <=? sat_sub (total_of rx) replacing)%N then reject ERejectedCount else
  if has_group_file e gid from id then mret tt else
  let partial := group_partial gid from id in
  begin_rx from id (MkFileRx partial (group_dir blobs_dir gid) (sanitize_name name)
                      size mime caption ts 0 (Some gid)).

Definition on_group_file_chunk (from : node_id) (gid id data : str) : M unit :=
  e ← gets (λ x, x);
  match e_rx_files e !! (from, id) with
  | None => mret tt
  | Some t =>
      if bool_decide (fr_gid t ≠ Some gid) then mret tt else
      let drop_it := _ ← modify (on_rx (delete (from, id))); remove_file (fr_partial t) in
      match base64_decode (as_bytes data) with
      | None => drop_it
      | Some b =>
          let got := wadd64 (fr_got t) (N.of_nat (length b)) in
          if (fr_size t <? got)%N then drop_it else
          wrote ← append_file (fr_partial t) b;
          if negb wrote then drop_it else
          _ ← modify (on_rx <[(from, id) := set_got got t]>);
          emit (EvGroupFileRecv gid (node_str from) id got (fr_size t) false)
      end
  end.

Definition on_group_file_end (from : node_id) (gid id : str) : M unit :=
  e ← gets (λ x, x);
  match e_rx_files e !! (from, id) with
  | None => mret tt
  | Some t =>
      if bool_decide (fr_gid t ≠ Some gid) then mret tt else
      _ ← modify (on_rx (delete (from, id)));
      if negb (fr_got t =? fr_size t)%N then
        (_ ← remove_file (fr_partial t);
         emit (EvGroupFileRecv gid (node_str from) id (fr_got t) (fr_size t) true))
      else
      stamp ← now_ms;
      e ← gets (λ x, x);
      let final := unique_path (files e) (fr_dir t) (fr_name t) stamp in
      ok ← rename_file (fr_partial t) final;
      if negb ok then remove_file (fr_partial t) else
      e ← gets (λ x, x);
      if negb (from_option (λ r, negb (gr_removed r) && contains (gr_state r) from) false (groups e !! gid))
      then remove_file final else
      now ← now_ms;
      prev ← group_last_ts secret gid;
      let ts_eff := eff_ts prev (fr_ts t) now in
      let file := FileRec (base_name final) (fr_got t) (fr_mime t) final in
      let line := LogRec 0 (node_str from) id (fr_ts t) ts_eff "in" (fr_caption t) None None (Some file) in
      r ← attempt (append_group_log gid line);
      match r with
      | Err x => _ ← remove_file final; group_warn from x
      | Ok _ =>
          _ ← modify (on_ts_eff <[gid := ts_eff]>);
          e ← gets (λ x, x);
          emit (EvGroupMessage gid (node_str from) (peer_name e from) id 0 (fr_ts t) ts_eff
                  (fr_caption t) None None (Some file))
      end
  end.

(** [on_group_file] *)
Definition on_group_file (from : node_id) (f : Frame) (tx : N) : M unit :=
  e ← gets (λ x, x);
  let allowed gid := (2 <=? session_proto e from tx)%N &&
    from_option (λ r, negb (gr_removed r) && contains (gr_state r) from) false (groups e !! gid) in
  let refuse fid := drop_group_inbound (λ n id, bool_decide (n = from ∧ id = fid)) in
  match f with
  | GroupFileBegin gid id ts name size mime caption =>
      if allowed gid then on_group_file_begin from gid id ts name size mime caption else refuse id
  | GroupFileChunk gid id data =>
      if allowed gid then on_group_file_chunk from gid id data else refuse id
  | GroupFileEnd gid id =>
      if allowed gid then on_group_file_end from gid id else refuse id
  | _ => mret tt
  end.

(** ** Dispatch *)

(** [handle_frame] *)
Definition handle_frame (from : node_id) (f : Frame) (tx : N) : M unit :=
  e ← gets (λ x, x);
  if bool_decide (kind_of e from = Some Introduced) && negb (is_group f) then mret tt else
  if is_group_file f then on_group_file from f tx else
  if is_group f then handle_group_frame secret blobs_dir from f tx else
  match f with
  | Typing None on => on_typing from on tx
  | Ack id => on_ack from id
  | Msg id ts text reply_to reply_text => on_msg from tx id ts text reply_to reply_text
  | FileBegin id ts name size mime caption => on_file_begin from id ts name size mime caption
  | FileChunk id data => on_file_chunk from id data
  | FileEnd id => on_file_end from tx id
  | _ => mret tt
  end.

(** A frame read by the session task: a new roster can introduce members to
    dial. *)
Definition session_frame (from : node_id) (f : Frame) (tx : N) : M unit :=
  _ ← handle_frame from f tx;
  match f with FGroupState _ => trigger_group_dials secret | _ => mret tt end.

End Files.
