(* ===== verification/Media.v ===== *)
(** * Sending media to a group ([p2p.rs])

    A copy of the file is kept, then each member that is online gets its own
    stream of frames; the per-member outcome is a small state machine. *)

From S2P Require Import Prelude Str Net Groups Frames Engine Delivery Rosters GroupWire Chat Files.

Definition SENDING : str := "sending".
Definition DONE : str := "done".
Definition FAILED : str := "failed".
Definition OFFLINE : str := "offline".

(** [v2_link] *)
Record FileLink := MkFileLink { fl_tx : N; fl_handle : N }.

(** [data.chunks(n)] *)
Fixpoint chunks_of (fuel : nat) (n : nat) (b : bytes) : list bytes :=
  match fuel, b with
  | O, _ | _, [] => []
  | S fuel, _ => take n b :: chunks_of fuel n (drop n b)
  end.

Section Media.
Context {P : Platform} {SD : Serde} {En : Env} {CT : CharTable} {B64 : Base64}.
Context (secret : secret_key) (blobs_dir : str).
Local Abbreviation me := (me secret).
Local Abbreviation me_str := (me_str secret).
Local Abbreviation files e := (dk_files (e_disk e)).

Definition v2_link (e : P2p) (node : node_id) : option FileLink :=
  p ← peers e !! node;
  '(_, h) ← list_find (λ h, (2 <=? lh_proto h)%N && negb (is_closed e (lh_tx h))) (p_live p);
  Some (MkFileLink (lh_tx h) (lh_id h)).

(** [group_file_targets]: online members with their sessions, and the rest. *)
Definition group_file_targets (e : P2p) (gid : str)
    : result p2p_error (list (node_id * FileLink) * list node_id) :=
  match groups e !! gid with
  | None => Err EUnknownGroup
  | Some rec =>
      if gr_removed rec then Err EReadOnly else
      let link n := if bool_decide ((gid, n) ∈ rt_gone (grt e)) then None else v2_link e n in
      let others := other_members secret (gr_state rec) in
      Ok (omap (λ n, pair n <$> link n) others, filter (λ n, link n = None) others)
  end.

(** Frames put on a channel until one is refused. *)
Fixpoint send_all (tx : N) (fs : list Frame) : M bool :=
  match fs with
  | [] => mret true
  | f :: fs => ok ← send tx f; if (ok : bool) then send_all tx fs else mret false
  end.

(** The read loop of [stream_group_file]: [total] bytes were read so far; the
    stream stops when the copy turns out longer or shorter than announced. *)
Fixpoint stream_chunks (tx : N) (gid id : str) (size total : N) (cs : list bytes) : M bool :=
  match cs with
  | [] => mret (total =? size)%N
  | c :: cs =>
      let total := (total + N.of_nat (length c))%N in
      if (size <? total)%N then mret false else
      ok ← send tx (GroupFileChunk gid id (base64_encode c));
      if (ok : bool) then stream_chunks tx gid id size total cs else mret false
  end.

Definition emit_group_file (gid id member state : str) (got : N) (size : option N) : M unit :=
  emit (EvGroupFile gid id member state got size).

Definition on_member (id member : str) (f : MemberXfer → MemberXfer) : P2p → P2p :=
  on_e_xfers (alter (λ t, MkGroupXfer (gx_gid t) (gx_path t) (gx_name t) (gx_size t) (gx_mime t)
    (gx_caption t) (gx_ts t) (alter f member (gx_members t))) id).

Definition member_xfer (e : P2p) (id member : str) : option (GroupXfer * MemberXfer) :=
  t ← e_xfers e !! id; m ← gx_members t !! member; Some (t, m).

(** [group_file_set]: never out of "done". *)
Definition group_file_set (id member state : str) (sent : option N) : M unit :=
  e ← gets (λ x, x);
  match member_xfer e id member with
  | None => mret tt
  | Some (t, m) =>
      if bool_decide (mx_state m = DONE) then mret tt else
      let got := match sent with Some s => N.min s (gx_size t) | None => mx_sent m end in
      _ ← modify (on_member id member (λ m, MkMemberXfer state got (mx_handle m)));
      emit_group_file (gx_gid t) id member state got (Some (gx_size t))
  end.

(** [group_file_wrote]: [n] bytes of a chunk are on the wire. *)
Definition group_file_wrote (node : node_id) (id : str) (n : N) : M unit :=
  e ← gets (λ x, x);
  let key := node_str node in
  match member_xfer e id key with
  | Some (t, m) =>
      if bool_decide (mx_state m = SENDING) then
        let got := N.min (wadd64 (mx_sent m) n) (gx_size t) in
        _ ← modify (on_member id key (λ m, MkMemberXfer (mx_state m) got (mx_handle m)));
        emit_group_file (gx_gid t) id key SENDING got (Some (gx_size t))
      else mret tt
  | None => mret tt
  end.

(** [group_file_done]: the end frame is on the wire. *)
Definition group_file_done (node : node_id) (id : str) : M unit :=
  e ← gets (λ x, x);
  match member_xfer e id (node_str node) with
  | Some (t, m) =>
      if bool_decide (mx_state m = SENDING)
      then group_file_set id (node_str node) DONE (Some (gx_size t)) else mret tt
  | None => mret tt
  end.

(** [group_files_failed]: a session died. *)
Definition group_files_failed (node : node_id) (handle : N) : M unit :=
  e ← gets (λ x, x);
  let hit := filter (λ '(_, t), match gx_members t !! node_str node with
                                | Some m => bool_decide (mx_state m = SENDING) && (mx_handle m =? handle)%N
                                | None => false end = true) (map_to_list (e_xfers e)) in
  for_each hit (λ '(id, _), group_file_set id (node_str node) FAILED None).

(** The end of a session task: the sends it carried failed, its live handle
    goes, and so does the channel it read. *)
Definition end_session (node : node_id) (tx handle : N) : M unit :=
  _ ← group_files_failed node handle;
  _ ← remove_live node handle;
  modify (on_e_chans (alter (λ c, MkChan false (ch_sent c)) tx)).

(** [stream_group_file]: one member's stream, from the stored copy. *)
Definition stream_group_file (gid id : str) (member : node_id) (link : FileLink) : M unit :=
  e ← gets (λ x, x);
  match e_xfers e !! id with
  | None => mret tt
  | Some t =>
      ok ← match files e !! gx_path t with
           | None => mret false
           | Some content =>
               ok ← send (fl_tx link) (GroupFileBegin gid id (gx_ts t) (gx_name t) (gx_size t)
                                         (gx_mime t) (gx_caption t));
               if negb ok then mret false else
               ok ← stream_chunks (fl_tx link) gid id (gx_size t) 0
                      (chunks_of (length content) (N.to_nat GROUP_FILE_CHUNK) content);
               if (ok : bool) then send (fl_tx link) (GroupFileEnd gid id) else mret false
           end;
      if (ok : bool) then mret tt else
      e ← gets (λ x, x);
      let current := match member_xfer e id (node_str member) with
                     | Some (_, m) => (mx_handle m =? fl_handle link)%N | None => false end in
      _ ← when current (group_file_set id (node_str member) FAILED None);
      send_ (fl_tx link) (GroupFileEnd gid id)
  end.

(** The transfer to forget when the table is full: the oldest that is not
    running. *)
Definition idle (t : GroupXfer) : Prop := map_Forall (λ _ m, mx_state m ≠ SENDING) (gx_members t).
Definition oldest_idle (m : gmap str GroupXfer) : option str :=
  fst <$> foldl (λ acc '(k, t),
    match acc with
    | Some (_, best) => if (gx_ts t <? best)%N then Some (k, gx_ts t) else acc
    | None => Some (k, gx_ts t)
    end) None (filter (λ '(_, t), idle t) (map_to_list m)).

Definition remember_xfer (id : str) (t : GroupXfer) (m : gmap str GroupXfer) : gmap str GroupXfer :=
  <[id := t]> (if (MAX_GROUP_XFERS <=? N.of_nat (size m))%N
               then match oldest_idle m with Some k => delete k m | None => m end else m).

(** [group_send_file] *)
Definition group_send_file (gid src name caption : str) : M (str * GroupXfer) :=
  _ ← guard_else (negb (MAX_GROUP_TEXT <? str_len caption)%N) ECaption;
  e ← gets (λ x, x);
  '(online, _) ← lift (group_file_targets e gid);
  _ ← guard_else (negb (bool_decide (online = []))) ENobodyOnline;
  match files e !! src with
  | None => fail ENotFile
  | Some content =>
      let size := N.of_nat (length content) in
      _ ← guard_else (negb (MAX_GROUP_FILE_BYTES <? size)%N) EFileTooLarge;
      let safe := sanitize_name name in
      let mime := mime_for safe in
      id ← random_id;
      let dest := join (group_dir blobs_dir gid) ("out-" ++ id ++ "_" ++ safe) in
      n ← next_tick;
      _ ← guard_else (env_write_ok n) EFileIo;
      _ ← modify (on_files <[dest := content]>);
      e ← gets (λ x, x);
      match group_file_targets e gid with
      | Err x => _ ← remove_file dest; fail x
      | Ok ([], _) => _ ← remove_file dest; fail ENobodyOnline
      | Ok (links, offline) =>
          now ← now_ms;
          prev ← group_last_ts secret gid;
          let ts_eff := eff_ts prev now now in
          let line := LogRec 0 me_str id now ts_eff "out" caption None None
                        (Some (FileRec safe size mime dest)) in
          r ← attempt (append_group_log gid line);
          match r with
          | Err x => _ ← remove_file dest; fail x
          | Ok _ =>
              _ ← modify (on_ts_eff <[gid := ts_eff]>);
              let members : gmap str MemberXfer :=
                list_to_map (((λ '(n, l), (node_str n, MkMemberXfer SENDING 0 (fl_handle l))) <$> links)
                  ++ ((λ n, (node_str n, MkMemberXfer OFFLINE 0 0)) <$> offline)) in
              let t := MkGroupXfer gid dest safe size mime caption now members in
              _ ← modify (on_e_xfers (remember_xfer id t));
              _ ← for_each links (λ '(n, l), stream_group_file gid id n l);
              mret (id, t)
          end
      end
  end.

(** [group_file_retry]: from byte zero, to a member that missed the file. *)
Definition group_file_retry (gid id : str) (node : node_id) : M unit :=
  let key := node_str node in
  e ← gets (λ x, x);
  match groups e !! gid with
  | None => fail EUnknownGroup
  | Some rec =>
      _ ← guard_else (negb (gr_removed rec)) EReadOnly;
      _ ← guard_else (contains (gr_state rec) node) ENotMember;
      link ← lift (ok_or (v2_link e node) EOffline);
      t ← match e_xfers e !! id with
          | Some t => mret t
          | None =>
              let row := list_find (λ r, lr_dir r = lit "out" ∧ lr_id r = id ∧ is_Some (lr_file r))
                           (read_log (log_of e gid)) in
              match row with
              | Some (_, r) =>
                  match lr_file r with
                  | Some f =>
                      let t := MkGroupXfer gid (gf_path f) (gf_name f) (gf_size f) (gf_mime f)
                                 (lr_text r) (lr_ts r) ∅ in
                      _ ← modify (on_e_xfers <[id := t]>); mret t
                  | None => fail EUnknownTransfer
                  end
              | None => fail EUnknownTransfer
              end
          end;
      _ ← guard_else (bool_decide (gx_gid t = gid)) EUnknownTransfer;
      _ ← guard_else (bool_decide (is_Some (files e !! gx_path t))) EOriginalGone;
      _ ← guard_else (match gx_members t !! key with
                      | Some m => negb (bool_decide (mx_state m = SENDING ∨ mx_state m = DONE))
                      | None => true end) EAlreadySent;
      _ ← modify (on_e_xfers <[id := MkGroupXfer (gx_gid t) (gx_path t) (gx_name t) (gx_size t)
            (gx_mime t) (gx_caption t) (gx_ts t)
            (<[key := MkMemberXfer SENDING 0 (fl_handle link)]> (gx_members t))]>);
      _ ← emit_group_file gid id key SENDING 0 None;
      stream_group_file gid id node link
  end.

(** ** One-to-one media *)

(** [send_file]: a copy, then all its frames on a live session; nothing is
    queued for an offline peer. *)
Definition send_file (node : node_id) (src name caption : str) : M (str * str) :=
  _ ← require_paired node;
  e ← gets (λ x, x);
  match files e !! src with
  | None => fail ENotFile
  | Some content =>
      let size := N.of_nat (length content) in
      _ ← guard_else (negb (MAX_FILE_BYTES <? size)%N) EFileTooLarge;
      let safe := sanitize_name name in
      let mime := mime_for safe in
      id ← random_id;
      let dest := join (join blobs_dir "self") (id ++ "_" ++ safe) in
      n ← next_tick;
      _ ← guard_else (env_write_ok n) EFileIo;
      _ ← modify (on_files <[dest := content]>);
      ts0 ← now_ms;
      let frames := FileBegin id ts0 safe size mime caption ::
        (FileChunk id ∘ base64_encode <$> chunks_of (length content) (N.to_nat GROUP_FILE_CHUNK) content)
        ++ [FileEnd id] in
      ts ← now_ms;
      e ← gets (λ x, x);
      match peers e !! node with
      | None => fail EUnknownPeer
      | Some p =>
          _ ← guard_else (bool_decide (p_kind p = Paired)) EUnknownPeer;
          let p := reap e p in
          _ ← modify (on_peers <[node := p]>);
          sent ← match p_live p with h :: _ => send_all (lh_tx h) frames | [] => mret false end;
          _ ← guard_else sent EPeerOffline;
          let row := SMsg id ts "out" "sent" caption None None (Some (SFile safe size mime dest)) in
          _ ← modify (on_peers <[node := on_p_msgs (λ l, l ++ [row]) p]>);
          _ ← persist_messages node [row];
          mret (id, dest)
      end
  end.

End Media.
