(* ===== verification/Effects.v ===== *)
(** * What the engine's operations touch

    Relations between the state before and after an operation, closed under
    composition, and for each operation of the engine the smallest one it
    satisfies.  [core]: groups, group logs and channels are as before; [quiet]:
    groups and logs are, and no message frame was sent; [same_gl]: groups and
    logs are. *)

From S2P Require Import Prelude Str Net Groups Frames Engine Delivery Rosters GroupWire Chat Files.

(** ** Operations related by a preorder *)

Definition Ev {A} (R : P2p → P2p → Prop) (m : M A) : Prop := ∀ e, R e (m e).2.

Section Preorder.
Context (R : P2p → P2p → Prop) `{!PreOrder R}.

Lemma ev_ret {A} (a : A) : Ev R (mret a).
Proof. intros e. cbn. reflexivity. Qed.
Lemma ev_fail {A} x : Ev R (fail (A:=A) x).
Proof. intros e. cbn. reflexivity. Qed.
Lemma ev_lift {A} (r : result p2p_error A) : Ev R (lift r).
Proof. intros e. cbn. reflexivity. Qed.
Lemma ev_lift_group {A} (r : result group_error A) : Ev R (lift_group r).
Proof. intros e. cbn. reflexivity. Qed.
Lemma ev_gets {A} (f : P2p → A) : Ev R (gets f).
Proof. intros e. cbn. reflexivity. Qed.
Lemma ev_guard b x : Ev R (guard_else b x).
Proof. unfold guard_else. destruct b; [apply ev_ret|apply ev_fail]. Qed.

Lemma ev_bind {A B} (m : M A) (f : A → M B) : Ev R m → (∀ a, Ev R (f a)) → Ev R (m ≫= f).
Proof.
  intros Hm Hf e. unfold mbind, M_bind. specialize (Hm e). destruct (m e) as [[a|x] e']; cbn in *; [|done].
  etrans; [exact Hm|]. apply Hf.
Qed.
Lemma ev_when b m : Ev R m → Ev R (when b m).
Proof. unfold when. destruct b; [done|]. intros _. apply ev_ret. Qed.
Lemma ev_attempt {A} (m : M A) : Ev R m → Ev R (attempt m).
Proof. intros H e. unfold attempt. specialize (H e). by destruct (m e). Qed.
Lemma ev_for_each {A} (l : list A) f : (∀ x, Ev R (f x)) → Ev R (for_each l f).
Proof. intros H. induction l as [|x l IH]; cbn; [apply ev_ret|]. by apply ev_bind. Qed.
Lemma ev_act {A} (f : P2p → result p2p_error A * P2p) : (∀ e, R e (f e).2) → Ev R (act f).
Proof. done. Qed.
Lemma ev_modify f : (∀ e, R e (f e)) → Ev R (modify f).
Proof. intros H e. apply H. Qed.
End Preorder.

Lemma ev_mono {A} (R S : P2p → P2p → Prop) (m : M A) : (∀ e e', R e e' → S e e') → Ev R m → Ev S m.
Proof. intros H Hm e. by apply H. Qed.

(** An invariant of the state, as a relation. *)
Definition stays (I : P2p → Prop) (e e' : P2p) : Prop := I e → I e'.

#[export] Instance stays_preorder I : PreOrder (stays I).
Proof. split; [by intros e H|]. intros e1 e2 e3 H1 H2 H. by apply H2, H1. Qed.

Lemma ev_stays {A} (I : P2p → Prop) (R : P2p → P2p → Prop) (m : M A) :
  (∀ e e', R e e' → I e → I e') → Ev R m → Ev (stays I) m.
Proof. intros H. by apply ev_mono. Qed.

(** ** Relations *)

Definition logs (e : P2p) : gmap str bytes := dk_logs (e_disk e).

Definition core (e e' : P2p) : Prop :=
  groups e' = groups e ∧ logs e' = logs e ∧ e_chans e' = e_chans e.

#[export] Instance core_preorder : PreOrder core.
Proof. split; [done|]. intros e1 e2 e3 (?&?&?) (?&?&?). split_and!; congruence. Qed.

Definition same_gl (e e' : P2p) : Prop := groups e' = groups e ∧ logs e' = logs e.

#[export] Instance same_gl_preorder : PreOrder same_gl.
Proof. split; [done|]. intros e1 e2 e3 (?&?) (?&?). split; congruence. Qed.

Definition sent_on (e : P2p) (tx : N) : list Frame := from_option ch_sent [] (e_chans e !! tx).

Definition is_msg (f : Frame) : bool := match f with GroupMsg _ _ _ _ _ _ _ _ => true | _ => false end.

(** Frames were only added, each of which satisfies [Q]. *)
Definition sent_more (Q : Frame → Prop) (e e' : P2p) : Prop :=
  ∀ tx, ∃ fs, sent_on e' tx = sent_on e tx ++ fs ∧ Forall Q fs.

Lemma sent_more_refl Q e e' : e_chans e' = e_chans e → sent_more Q e e'.
Proof. intros H tx. exists []. unfold sent_on. by rewrite H, app_nil_r. Qed.

Lemma sent_more_trans Q e1 e2 e3 : sent_more Q e1 e2 → sent_more Q e2 e3 → sent_more Q e1 e3.
Proof.
  intros H1 H2 tx. destruct (H1 tx) as (l1 & E1 & F1), (H2 tx) as (l2 & E2 & F2).
  exists (l1 ++ l2). rewrite E2, E1, app_assoc. split; [done|]. by apply Forall_app.
Qed.

Definition quiet (e e' : P2p) : Prop :=
  groups e' = groups e ∧ logs e' = logs e ∧ sent_more (λ f, is_msg f = false) e e'.

#[export] Instance quiet_preorder : PreOrder quiet.
Proof.
  split.
  - intros e. split_and!; [done..|by apply sent_more_refl].
  - intros e1 e2 e3 (?&?&?) (?&?&?). split_and!; [congruence..|by eapply sent_more_trans].
Qed.

Lemma core_quiet e e' : core e e' → quiet e e'.
Proof. intros (?&?&?). split_and!; [done..|by apply sent_more_refl]. Qed.
Lemma quiet_gl e e' : quiet e e' → same_gl e e'.
Proof. intros (?&?&?). done. Qed.
Lemma core_gl e e' : core e e' → same_gl e e'.
Proof. intros. by apply quiet_gl, core_quiet. Qed.

(** Writing a record that is there. *)
Lemma on_groups_insert e g f r :
  groups e !! g = Some r → on_groups <[g := f r]> e = on_groups (alter f g) e.
Proof.
  intros Hr. unfold on_groups, on_e_inner, on_in_groups, groups in *. f_equal. f_equal.
  apply map_eq. intros g'. destruct (decide (g' = g)) as [->|].
  - by rewrite lookup_insert_eq, lookup_alter_eq, Hr.
  - by rewrite lookup_insert_ne, lookup_alter_ne.
Qed.

(** ** Proof search *)

Create HintDb eff.
#[export] Hint Resolve ev_ret ev_fail ev_lift ev_lift_group ev_gets ev_guard ev_when ev_attempt
  ev_for_each : eff.
#[export] Hint Extern 0 (PreOrder _) => typeclasses eauto : eff.

(** Splits an operation into its steps and applies what is known of each. *)
Ltac eff_step :=
  match goal with
  | |- ∀ _, _ => intros ?
  | |- Ev _ (mbind _ _) => apply ev_bind; [typeclasses eauto| |]
  | |- Ev _ (match ?x with _ => _ end) => destruct x
  | |- Ev quiet (modify _) => apply (ev_mono core); [apply core_quiet|]
  | |- Ev quiet (emit _) => apply (ev_mono core); [apply core_quiet|]
  | |- Ev _ (modify _) => apply ev_modify; intros ?; repeat split
  | |- Ev _ (when _ _) => apply ev_when; [typeclasses eauto|]
  | |- Ev _ (attempt _) => apply ev_attempt
  | |- Ev _ (for_each _ _) => apply ev_for_each; [typeclasses eauto|]
  | |- Ev _ (emit _) => apply ev_modify; intros ?; repeat split
  | |- Ev core next_tick => intros ?; repeat split
  | |- _ => solve [eauto with eff]
  | |- _ => progress cbn zeta
  end.
Ltac eff := repeat eff_step.

(** Runs the first step of an operation at a state. *)
Ltac run_gets := match goal with |- context [(gets ?f ≫= ?k) ?e] =>
  change ((gets f ≫= k) e) with (k (f e) e); cbv beta; change (id e) with e end.
Ltac run_modify := match goal with |- context [(modify ?f ≫= ?k) ?e] =>
  change ((modify f ≫= k) e) with (k tt (f e)); cbv beta end.
Ltac run_guard := match goal with |- context [@mbind _ _ unit ?B ?k (guard_else ?b ?x) ?e] =>
  let E := fresh "Hg" in destruct b eqn:E;
  [change (@mbind M M_bind unit B k (guard_else true x) e) with (k tt e)
  |change (@mbind M M_bind unit B k (guard_else false x) e) with (@Err p2p_error B x, e)]; cbv beta end.
Ltac run_lift := match goal with |- context [@mbind _ _ ?A ?B ?k (lift ?r) ?e] =>
  let E := fresh "Hr" in let a := fresh "a" in let x := fresh "x" in destruct r as [a|x] eqn:E;
  [change (@mbind M M_bind A B k (lift (Ok a)) e) with (k a e)
  |change (@mbind M M_bind A B k (lift (Err x)) e) with (@Err p2p_error B x, e)]; cbv beta end.
Ltac run_lift_group := match goal with |- context [@mbind _ _ ?A ?B ?k (lift_group ?r) ?e] =>
  let E := fresh "Hr" in let a := fresh "a" in let x := fresh "x" in destruct r as [a|x] eqn:E;
  [change (@mbind M M_bind A B k (lift_group (Ok a)) e) with (k a e)
  |change (@mbind M M_bind A B k (lift_group (Err x)) e) with (@Err p2p_error B (EGroup x), e)];
  cbv beta end.

(** No append to a group log leaves a part of a line; no row of a 1:1 log is
    lost or cut. *)
Class WholeAppends {En : Env} : Prop := whole_appends : ∀ n k, env_append n ≠ AppTorn k.
Class WholeRows {En : Env} : Prop := whole_rows : ∀ n, env_row n = RowWhole.

(** Draws of the environment, one step each. *)
Section Draws.
Context {En : Env}.
Lemma run_random {B} (k : str → M B) e :
  (random_id ≫= k) e = k (env_random_id (e_tick e)) (on_e_tick N.succ e).
Proof. done. Qed.

Lemma run_now {B} (k : N → M B) e : (now_ms ≫= k) e = k (env_now (e_tick e)) (on_e_tick N.succ e).
Proof. done. Qed.

Lemma run_tick {B} (k : N → M B) e : (next_tick ≫= k) e = k (e_tick e) (on_e_tick N.succ e).
Proof. done. Qed.
End Draws.

Section Effects.
Context {P : Platform} {SD : Serde} {En : Env}.
Context (secret : secret_key) (blobs_dir : str).

(** ** Core operations *)

Lemma next_tick_core : Ev core next_tick.
Proof. intros e. repeat split. Qed.
Lemma emit_core ev : Ev core (emit ev).
Proof. intros e. repeat split. Qed.
#[local] Hint Resolve next_tick_core emit_core : eff.

Lemma now_ms_core : Ev core now_ms.
Proof. unfold now_ms. eff. Qed.
Lemma instant_now_core : Ev core instant_now.
Proof. unfold instant_now. eff. Qed.
Lemma random_id_core : Ev core random_id.
Proof. unfold random_id. eff. Qed.
Lemma persist_peers_core : Ev core persist_peers.
Proof. unfold persist_peers. eff. Qed.
Lemma persist_groups_core : Ev core persist_groups.
Proof.
  unfold persist_groups. apply ev_bind; [typeclasses eauto|apply next_tick_core|]. intros n e.
  unfold act. destruct (save_groups (env_save n) (dk_groups (e_disk e)) (groups e)). repeat split.
Qed.
Lemma persist_messages_core node rows : Ev core (persist_messages node rows).
Proof. unfold persist_messages. eff. Qed.
Lemma write_row_core k : Ev core (write_row k).
Proof. unfold write_row. eff. Qed.
Lemma group_last_ts_core gid : Ev core (group_last_ts secret gid).
Proof. intros e. unfold group_last_ts. destruct (_ !! _); repeat split. Qed.
Lemma emit_presence_core node on : Ev core (emit_presence node on).
Proof. unfold emit_presence. eff. Qed.
Lemma trigger_connect_core node : Ev core (trigger_connect node).
Proof. intros e. unfold trigger_connect. destruct (_ !! _); [|repeat split]. destruct (_ || _); repeat split. Qed.
Lemma register_live_core node tx proto : Ev core (register_live node tx proto).
Proof.
  intros e. unfold register_live. destruct (_ !! _); [|repeat split]. destruct (_ =? _)%N; [repeat split|].
  match goal with |- context [persist_peers ?x] => pose proof (persist_peers_core x) as H;
    destruct (persist_peers x) end.
  cbn in *. etrans; [|exact H]. repeat split.
Qed.
Lemma set_connecting_core node v : Ev core (set_connecting node v).
Proof. unfold set_connecting. eff. Qed.
Lemma sync_introduced_core : Ev core (sync_introduced secret).
Proof. unfold sync_introduced. eff. Qed.
#[local] Hint Resolve now_ms_core instant_now_core random_id_core persist_peers_core persist_groups_core
  persist_messages_core group_last_ts_core emit_presence_core trigger_connect_core register_live_core
  set_connecting_core sync_introduced_core : eff.

Lemma groups_changed_core : Ev core (groups_changed secret).
Proof. unfold groups_changed. eff. Qed.
Lemma warn_core node x : Ev core (group_warn node x).
Proof. unfold group_warn. eff. Qed.
#[local] Hint Resolve warn_core groups_changed_core : eff.
Lemma warn_on_error_core node m : Ev core m → Ev core (warn_on_error node m).
Proof. unfold warn_on_error. intros. eff. Qed.
Lemma typing_gate_core key from on : Ev core (typing_gate key from on).
Proof. unfold typing_gate. eff. Qed.
Lemma remove_file_core path : Ev core (remove_file path).
Proof. unfold remove_file. eff. Qed.
Lemma remove_dir_all_core dir : Ev core (remove_dir_all dir).
Proof. unfold remove_dir_all. eff. Qed.
#[local] Hint Resolve warn_on_error_core typing_gate_core remove_file_core remove_dir_all_core : eff.
Lemma drop_group_inbound_core pred : Ev core (drop_group_inbound pred).
Proof. unfold drop_group_inbound. eff. Qed.
#[local] Hint Resolve drop_group_inbound_core : eff.
Lemma delete_group_blobs_core gid : Ev core (delete_group_blobs blobs_dir gid).
Proof. unfold delete_group_blobs. eff. Qed.
Lemma trigger_group_dials_core : Ev core (trigger_group_dials secret).
Proof. unfold trigger_group_dials. eff. Qed.
#[local] Hint Resolve delete_group_blobs_core trigger_group_dials_core : eff.

Context {CT : CharTable} {B64 : Base64}.

Lemma set_name_core name : Ev core (set_name name).
Proof. unfold set_name. eff. Qed.
Lemma add_peer_core node name addrs : Ev core (add_peer node name addrs).
Proof. unfold add_peer. eff. Qed.
Lemma hear_beacon_core b from : Ev core (hear_beacon secret b from).
Proof. unfold hear_beacon. eff. Qed.
Lemma create_invite_core : Ev core create_invite.
Proof. unfold create_invite. eff. Qed.
Lemma incoming_hello_core expected node token name : Ev core (incoming_hello expected node token name).
Proof. unfold incoming_hello. eff. Qed.
Lemma approve_pair_core node accept : Ev core (approve_pair node accept).
Proof. unfold approve_pair. eff. Qed.
Lemma on_ack_core from id : Ev core (on_ack from id).
Proof. unfold on_ack. eff. Qed.
Lemma push_msg_core from m : Ev core (push_msg from m).
Proof. unfold push_msg. eff. Qed.
Lemma remove_live_core node handle : Ev core (remove_live node handle).
Proof. unfold remove_live. eff. Qed.
Lemma messages_core node limit : Ev core (messages node limit).
Proof. unfold messages. eff. Qed.
Lemma group_messages_core gid limit : Ev core (group_messages secret gid limit).
Proof. unfold group_messages. eff. Qed.
#[local] Hint Resolve add_peer_core push_msg_core remove_live_core on_ack_core : eff.

(** ** Quiet operations *)

Lemma ev_core_quiet {A} (m : M A) : Ev core m → Ev quiet m.
Proof. apply ev_mono, core_quiet. Qed.
Lemma ev_quiet_gl {A} (m : M A) : Ev quiet m → Ev same_gl m.
Proof. apply ev_mono, quiet_gl. Qed.
#[local] Hint Resolve ev_core_quiet ev_quiet_gl : eff.

Lemma sent_on_alter e tx f tx' :
  sent_on (on_e_chans (alter (λ c, MkChan (ch_open c) (ch_sent c ++ [f])) tx) e) tx'
  = sent_on e tx' ++ (if bool_decide (tx = tx' ∧ is_Some (e_chans e !! tx)) then [f] else []).
Proof.
  unfold sent_on. cbn. destruct (decide (tx = tx')) as [->|Hne].
  - rewrite lookup_alter_eq. destruct (e_chans e !! tx') as [c|]; cbn.
    + by rewrite bool_decide_true.
    + rewrite bool_decide_false by (intros [_ [? ?]]; done). done.
  - rewrite lookup_alter_ne by done. rewrite bool_decide_false by tauto. by rewrite app_nil_r.
Qed.

Lemma send_more (Q : Frame → Prop) tx f e : Q f → sent_more Q e (send tx f e).2.
Proof.
  intros Hq. unfold send. destruct (is_closed e tx); [by apply sent_more_refl|]. intros tx'.
  cbn [snd]. rewrite sent_on_alter. eexists. split; [done|]. case_bool_decide; auto.
Qed.

Lemma send_quiet tx f : is_msg f = false → Ev quiet (send tx f).
Proof.
  intros Hf e. pose proof (send_more (λ f, is_msg f = false) tx f e Hf) as H.
  unfold send in *. destruct (is_closed e tx); by split_and!.
Qed.
Lemma send__quiet tx f : is_msg f = false → Ev quiet (send_ tx f).
Proof using.
  intros Hf. unfold send_. apply ev_bind; [typeclasses eauto|by apply send_quiet|intros; by apply ev_ret, _].
Qed.
Lemma send_gl tx f : Ev same_gl (send tx f).
Proof. intros e. unfold send. by destruct (is_closed e tx). Qed.
Lemma send__gl tx f : Ev same_gl (send_ tx f).
Proof using.
  unfold send_. apply ev_bind; [typeclasses eauto|apply send_gl|intros; by apply ev_ret, _].
Qed.
#[local] Hint Resolve send_gl send__gl : eff.
#[local] Hint Extern 1 (Ev quiet (send _ _)) => apply send_quiet; reflexivity : eff.
#[local] Hint Extern 1 (Ev quiet (send_ _ _)) => apply send__quiet; reflexivity : eff.

Lemma open_channel_quiet : Ev quiet open_channel.
Proof.
  intros e. split_and!; [done..|]. intros tx. unfold open_channel, sent_on. cbn [snd e_chans on_e_chans].
  set (new := fresh _). exists []. split; [|constructor]. rewrite app_nil_r.
  destruct (decide (tx = new)) as [->|Hne]; [|by rewrite lookup_insert_ne].
  rewrite lookup_insert_eq. cbn. assert (e_chans e !! new = None) as ->; [|done].
  apply not_elem_of_dom. apply is_fresh.
Qed.
#[local] Hint Resolve open_channel_quiet : eff.

Lemma announce_to_quiet rec n : Ev quiet (announce_to secret rec n).
Proof. unfold announce_to. eff. Qed.
#[local] Hint Resolve announce_to_quiet : eff.
Lemma announce_state_quiet gid extra : Ev quiet (announce_state secret gid extra).
Proof. unfold announce_state. eff. Qed.
Lemma open_group_quiet node tx rec : Ev quiet (open_group secret node tx rec).
Proof. unfold open_group. eff. Qed.
#[local] Hint Resolve announce_state_quiet open_group_quiet : eff.
Lemma group_session_open_quiet node tx : Ev quiet (group_session_open secret node tx).
Proof. unfold group_session_open. eff. Qed.
Lemma flush_one_quiet node tx m : Ev quiet (flush_one node tx m).
Proof. unfold flush_one. eff. Qed.
#[local] Hint Resolve group_session_open_quiet flush_one_quiet : eff.
Lemma flush_each_quiet node tx ms : Ev quiet (flush_each node tx ms).
Proof. induction ms; cbn [flush_each]; eff. Qed.
#[local] Hint Resolve flush_each_quiet : eff.
Lemma flush_queue_quiet node tx : Ev quiet (flush_queue node tx).
Proof. unfold flush_queue. eff. Qed.
#[local] Hint Resolve flush_queue_quiet : eff.
Lemma serve_dialed_quiet node proto : Ev quiet (serve_dialed secret node proto).
Proof. unfold serve_dialed. eff. Qed.
Lemma serve_accepted_quiet node proto : Ev quiet (serve_accepted secret node proto).
Proof. unfold serve_accepted, serve_session. eff. Qed.
Lemma pair_accepted_quiet node name addrs proto : Ev quiet (pair_accepted secret node name addrs proto).
Proof. unfold pair_accepted, pair_served. eff. Qed.
Lemma pair_connect_quiet node addrs h n proto : Ev quiet (pair_connect secret node addrs h n proto).
Proof. unfold pair_connect. eff. Qed.
Lemma send_text_quiet node text rt rx : Ev quiet (send_text node text rt rx).
Proof. unfold send_text. eff. Qed.
Lemma on_msg_quiet from tx id ts text rt rx : Ev quiet (on_msg from tx id ts text rt rx).
Proof. unfold on_msg. eff. Qed.
Lemma on_typing_core from on tx : Ev core (on_typing from on tx).
Proof. unfold on_typing. eff. Qed.
Lemma typing_peer_quiet node on : Ev quiet (typing_peer node on).
Proof. unfold typing_peer. eff. Qed.
Lemma typing_each_quiet gid on ids : Ev quiet (typing_each gid on ids).
Proof. induction ids; cbn [typing_each]; eff. Qed.
#[local] Hint Resolve typing_each_quiet : eff.
Lemma typing_group_quiet gid on : Ev quiet (typing_group secret gid on).
Proof. unfold typing_group. eff. Qed.

(** ** File transfers *)

Lemma create_file_core path : Ev core (create_file path).
Proof. unfold create_file. eff. Qed.
Lemma append_file_core path b : Ev core (append_file path b).
Proof. unfold append_file. eff. Qed.
Lemma rename_file_core old new : Ev core (rename_file old new).
Proof. unfold rename_file. eff. Qed.
#[local] Hint Resolve create_file_core append_file_core rename_file_core : eff.
Lemma on_file_begin_core from id ts name size mime cap :
  Ev core (on_file_begin blobs_dir from id ts name size mime cap).
Proof. unfold on_file_begin, begin_rx. eff. Qed.
Lemma finish_begin_core k : Ev core (finish_begin k).
Proof. unfold finish_begin. eff. Qed.
Lemma on_file_chunk_core from id data : Ev core (on_file_chunk from id data).
Proof. unfold on_file_chunk. eff. Qed.
Lemma on_file_end_quiet from tx id : Ev quiet (on_file_end from tx id).
Proof. unfold on_file_end. eff. Qed.
Lemma on_group_file_begin_core from gid id ts name size mime cap :
  Ev core (on_group_file_begin blobs_dir from gid id ts name size mime cap).
Proof. unfold on_group_file_begin, begin_rx. eff. Qed.
Lemma on_group_file_chunk_core from gid id data : Ev core (on_group_file_chunk from gid id data).
Proof. unfold on_group_file_chunk. eff. Qed.

End Effects.
