(* ===== verification/Footprint.v ===== *)
(** * What the operations are made of

    A relation between states that the elementary steps of the engine satisfy is
    satisfied by every group operation. *)

From S2P Require Import Prelude Str Net Groups Frames Engine Delivery Rosters GroupWire Chat Files Media Effects.

Section Footprint.
Context {P : Platform} {SD : Serde} {En : Env} (secret : secret_key) (blobs_dir : str).

(** Steps that change groups, their logs and runtime, channels, events, and the
    peers' sessions, addresses and names, but no other part of the state. *)
Class Foot (R : P2p → P2p → Prop) := {
  foot_pre :: PreOrder R;
  foot_tick : ∀ e, R e (on_e_tick N.succ e);
  foot_events : ∀ f e, R e (on_e_events f e);
  foot_chans : ∀ f e, R e (on_e_chans f e);
  foot_groups : ∀ f e, R e (on_groups f e);
  foot_grt : ∀ f e, R e (on_grt f e);
  foot_logs : ∀ f e, R e (on_logs f e);
  foot_saved : ∀ f e, R e (on_e_disk (on_dk_groups f) e);
  foot_listed : Ev R persist_peers;
  foot_handles : ∀ f e, R e (on_e_handle_ids f e);
  foot_dials : ∀ f e, R e (on_e_dials f e);
  foot_peer : ∀ f n e, (∀ p, p_kind (f p) = p_kind p ∧ p_msgs (f p) = p_msgs p ∧ p_queued (f p) = p_queued p) →
    R e (on_peers (alter f n) e);
  foot_sync : Ev R (sync_introduced secret);
}.
(** Giving up transfers, and the media of a group. *)
Class FootDrop (R : P2p → P2p → Prop) := {
  foot_inbound : ∀ pred, Ev R (drop_group_inbound pred);
  foot_blobs : ∀ gid, Ev R (delete_group_blobs blobs_dir gid);
}.
(** The rest of the state, part by part: what the user sets and the neighbours;
    requests to pair; the chats; the peers; the files; the transfers that arrive;
    those that leave. *)
Class FootFront (R : P2p → P2p → Prop) := {
  foot_name : ∀ f e, R e (on_e_inner (on_in_name f) e);
  foot_profile : ∀ f e, R e (on_e_disk (on_dk_profile f) e);
  foot_token : ∀ f e, R e (on_e_inner (on_in_token f) e);
  foot_nearby : ∀ f e, R e (on_e_inner (on_in_nearby f) e);
}.
Class FootAsk (R : P2p → P2p → Prop) := {
  foot_requests : ∀ f e, R e (on_e_inner (on_in_pair_requests f) e);
  foot_decisions : ∀ f e, R e (on_e_decisions f e);
}.
Class FootChat (R : P2p → P2p → Prop) := {
  foot_chat : ∀ n p p' e, peers e !! n = Some p → p_kind p' = p_kind p → R e (on_peers <[n := p']> e);
  foot_rows : ∀ f e, R e (on_e_disk (on_dk_rows f) e);
  foot_writes : ∀ f e, R e (on_e_writes f e);
}.
Class FootPeers (R : P2p → P2p → Prop) := foot_peers : ∀ f e, R e (on_peers f e).
Class FootFiles (R : P2p → P2p → Prop) := foot_files : ∀ f e, R e (on_files f e).
Class FootRx (R : P2p → P2p → Prop) := {
  foot_rx : ∀ f e, R e (on_rx f e);
  foot_begins : ∀ f e, R e (on_e_begins f e);
}.
Class FootXfers (R : P2p → P2p → Prop) := foot_xfers : ∀ f e, R e (on_e_xfers f e).

Context (R : P2p → P2p → Prop) `{!Foot R}.

Lemma insert_alter e n p f : peers e !! n = Some p → on_peers <[n := f p]> e = on_peers (alter f n) e.
Proof.
  intros Hp. unfold on_peers, on_e_inner, on_in_peers, peers in *. do 2 f_equal. apply map_eq. intros n'.
  destruct (decide (n = n')) as [<-|].
  - by rewrite lookup_insert_eq, lookup_alter_eq, Hp.
  - by rewrite lookup_insert_ne, lookup_alter_ne.
Qed.

Lemma foot_insert e n p f :
  peers e !! n = Some p → (∀ p, p_kind (f p) = p_kind p ∧ p_msgs (f p) = p_msgs p ∧ p_queued (f p) = p_queued p) →
  R e (on_peers <[n := f p]> e).
Proof. intros Hp Hf. rewrite insert_alter by done. by apply foot_peer. Qed.

Ltac foot_step :=
  match goal with
  | |- Ev R (emit _) => apply ev_modify; intros ?; apply foot_events
  | |- Ev R (modify (on_peers (alter _ _))) =>
      apply ev_modify; intros ?; apply foot_peer; intros ?; try done; by repeat case_match
  | |- Ev R (modify _) => apply ev_modify; intros ?;
      first [apply foot_groups|apply foot_grt|apply foot_logs|apply foot_chans|apply foot_dials
            |apply foot_name|apply foot_profile|apply foot_token|apply foot_nearby|apply foot_requests
            |apply foot_decisions|apply foot_peers|apply foot_rows|apply foot_writes|apply foot_files|apply foot_rx|apply foot_begins
            |apply foot_xfers]
  | _ => eff_step
  end.
Ltac foot := repeat foot_step.

#[local] Hint Resolve foot_sync foot_blobs foot_inbound : eff.
#[local] Hint Extern 0 (FootDrop _) => typeclasses eauto : eff.

(** ** Elementary operations *)

Lemma next_tick_ev : Ev R next_tick.
Proof. intros e. apply foot_tick. Qed.
#[local] Hint Resolve next_tick_ev : eff.
Lemma now_ms_ev : Ev R now_ms.
Proof. unfold now_ms. foot. Qed.
Lemma instant_now_ev : Ev R instant_now.
Proof. unfold instant_now. foot. Qed.
Lemma random_id_ev : Ev R random_id.
Proof. unfold random_id. foot. Qed.
Lemma persist_groups_ev : Ev R persist_groups.
Proof.
  unfold persist_groups. foot. intros e. unfold act. destruct (save_groups _ _ _). apply foot_saved.
Qed.
Lemma persist_peers_ev : Ev R persist_peers.
Proof. apply foot_listed. Qed.
Lemma append_group_log_ev gid r : Ev R (append_group_log gid r).
Proof. unfold append_group_log. foot. Qed.
Lemma group_last_ts_ev gid : Ev R (group_last_ts secret gid).
Proof. intros e. unfold group_last_ts. case_match; [reflexivity|apply foot_grt]. Qed.
Lemma send_ev tx f : Ev R (send tx f).
Proof. intros e. unfold send. case_match; [reflexivity|apply foot_chans]. Qed.
Lemma open_channel_ev : Ev R open_channel.
Proof. intros e. apply foot_chans. Qed.
Lemma trigger_connect_ev node : Ev R (trigger_connect node).
Proof.
  intros e. unfold trigger_connect. destruct (peers e !! node) as [p|] eqn:Hp; [|reflexivity]. cbn zeta.
  destruct (_ || _).
  - by apply (foot_insert e node p (on_p_live (filter (λ h, is_closed e (lh_tx h) = false)))).
  - trans (on_peers <[node:=on_p_connecting (λ _, true)
      (on_p_live (filter (λ h, is_closed e (lh_tx h) = false)) p)]> e); [|apply foot_dials].
    by apply (foot_insert e node p (λ p, on_p_connecting (λ _, true)
      (on_p_live (filter (λ h, is_closed e (lh_tx h) = false)) p))).
Qed.
Lemma register_live_ev node tx proto : Ev R (register_live node tx proto).
Proof.
  intros e. unfold register_live. cbn zeta. trans (on_e_handle_ids N.succ e); [apply foot_handles|].
  set (e1 := on_e_handle_ids _ e). destruct (peers e1 !! node) as [p|] eqn:Hp; [|reflexivity].
  match goal with |- context [on_peers ?g e1] => assert (H1 : R e1 (on_peers g e1)) end.
  { by apply (foot_insert e1 node p (λ p, on_p_proto (λ _, proto)
      (on_p_live (λ l, l ++ [Handle (e_handle_ids e) tx proto GROUP_FILE_CREDITS]) p))). }
  destruct (_ =? _)%N; [exact H1|].
  match goal with |- context [persist_peers ?x] => pose proof (persist_peers_ev x) as Hm;
    destruct (persist_peers x) end. etrans; [exact H1|exact Hm].
Qed.
Lemma set_connecting_ev node v : Ev R (set_connecting node v).
Proof. unfold set_connecting. foot. Qed.
Lemma emit_presence_ev node on : Ev R (emit_presence node on).
Proof. unfold emit_presence. foot. Qed.
#[local] Hint Resolve now_ms_ev instant_now_ev random_id_ev persist_groups_ev persist_peers_ev
  append_group_log_ev group_last_ts_ev send_ev open_channel_ev trigger_connect_ev register_live_ev
  set_connecting_ev emit_presence_ev : eff.
Lemma send__ev tx f : Ev R (send_ tx f).
Proof. unfold send_. foot. Qed.
Lemma groups_changed_ev : Ev R (groups_changed secret).
Proof. unfold groups_changed. foot. Qed.
Lemma warn_ev node x : Ev R (group_warn node x).
Proof. unfold group_warn. foot. Qed.
#[local] Hint Resolve send__ev groups_changed_ev warn_ev : eff.
Lemma warn_on_error_ev node m : Ev R m → Ev R (warn_on_error node m).
Proof. unfold warn_on_error. intros. foot. Qed.
#[local] Hint Resolve warn_on_error_ev : eff.

(** ** Groups *)

Lemma pump_recs_ev gid tx marker recs : Ev R (pump_recs secret gid tx marker recs).
Proof. induction recs; cbn [pump_recs]; foot. Qed.
#[local] Hint Resolve pump_recs_ev : eff.
Lemma pump_ev gid node hint : Ev R (pump secret gid node hint).
Proof. unfold pump. foot. Qed.
#[local] Hint Resolve pump_ev : eff.
Lemma pump_all_ev gid line ms : Ev R (pump_all secret gid line ms).
Proof. induction ms; cbn [pump_all]; foot. Qed.
#[local] Hint Resolve pump_all_ev : eff.
Lemma group_send_ev gid text rt rx : Ev R (group_send secret gid text rt rx).
Proof. unfold group_send. foot. Qed.
Lemma on_group_msg_ev from tx m : Ev R (on_group_msg secret from tx m).
Proof. unfold on_group_msg. foot. Qed.
Lemma on_group_ack_ev from gid have : Ev R (on_group_ack secret from gid have).
Proof. unfold on_group_ack. foot. Qed.
Lemma on_group_sync_ev from tx gid epoch have name : Ev R (on_group_sync secret from tx gid epoch have name).
Proof. unfold on_group_sync. foot. Qed.
Lemma typing_gate_ev key from on : Ev R (typing_gate key from on).
Proof. unfold typing_gate. foot. Qed.
Lemma log_sys_from_ev gid epoch ls : ∀ i, Ev R (log_sys_from secret i gid epoch ls).
Proof. induction ls as [|[k s] ls IH]; intros i; cbn [log_sys_from]; foot. Qed.
#[local] Hint Resolve log_sys_from_ev : eff.
Lemma log_sys_ev gid epoch ls : Ev R (log_sys secret gid epoch ls).
Proof. unfold log_sys. foot. Qed.
Lemma announce_to_ev rec n : Ev R (announce_to secret rec n).
Proof. unfold announce_to. foot. Qed.
#[local] Hint Resolve log_sys_ev announce_to_ev typing_gate_ev on_group_sync_ev on_group_ack_ev
  on_group_msg_ev : eff.
Lemma announce_state_ev gid extra : Ev R (announce_state secret gid extra).
Proof. unfold announce_state. foot. Qed.
#[local] Hint Resolve announce_state_ev : eff.
Lemma edit_group_locked_ev gid left edit : Ev R (edit_group_locked secret gid left edit).
Proof. unfold edit_group_locked. foot. Qed.
#[local] Hint Resolve edit_group_locked_ev : eff.
Lemma group_create_ev name ids : Ev R (group_create secret name ids).
Proof. unfold group_create. foot. Qed.
Lemma group_add_ev gid node : Ev R (group_add secret gid node).
Proof. unfold group_add. foot. Qed.
Lemma group_remove_ev gid node : Ev R (group_remove secret gid node).
Proof. unfold group_remove. foot. Qed.
Lemma group_rename_ev gid name : Ev R (group_rename secret gid name).
Proof. unfold group_rename. foot. Qed.
Lemma group_disband_ev gid : Ev R (group_disband secret gid).
Proof. unfold group_disband. foot. Qed.
Lemma group_leave_ev gid : Ev R (group_leave secret gid).
Proof. unfold group_leave. foot. Qed.
Lemma purge_group_ev `{!FootDrop R} gid : Ev R (purge_group secret blobs_dir gid).
Proof. unfold purge_group, delete_log. foot. Qed.
#[local] Hint Resolve purge_group_ev : eff.
Lemma group_delete_ev `{!FootDrop R} gid : Ev R (group_delete secret blobs_dir gid).
Proof. unfold group_delete, delete_log. foot. Qed.
Lemma after_state_applied_ev gid : Ev R (after_state_applied secret gid).
Proof. unfold after_state_applied. foot. Qed.
#[local] Hint Resolve after_state_applied_ev : eff.
Lemma finish_apply_ev `{!FootDrop R} gid epoch sys removed mk : Ev R (finish_apply secret blobs_dir gid epoch sys removed mk).
Proof. unfold finish_apply. foot. Qed.
#[local] Hint Resolve finish_apply_ev : eff.
Lemma apply_state_ev `{!FootDrop R} st from : Ev R (apply_state secret blobs_dir st from).
Proof. unfold apply_state. foot. Qed.
Lemma on_group_leave_ev from gid : Ev R (on_group_leave secret from gid).
Proof. unfold on_group_leave. foot. Qed.
Lemma open_group_ev node tx rec : Ev R (open_group secret node tx rec).
Proof. unfold open_group. foot. Qed.
#[local] Hint Resolve open_group_ev on_group_leave_ev apply_state_ev : eff.
Lemma group_session_open_ev node tx : Ev R (group_session_open secret node tx).
Proof. unfold group_session_open. foot. Qed.
Lemma trigger_group_dials_ev : Ev R (trigger_group_dials secret).
Proof. unfold trigger_group_dials. foot. Qed.
Lemma handle_group_frame_ev `{!FootDrop R} from f tx : Ev R (handle_group_frame secret blobs_dir from f tx).
Proof. unfold handle_group_frame. foot. Qed.
Lemma handle_quiet_frame_ev from f tx :
  (∀ st, f ≠ FGroupState st) → Ev R (handle_group_frame secret blobs_dir from f tx).
Proof. intros Hf. unfold handle_group_frame. destruct f; try by destruct (Hf state). all: foot. Qed.
Lemma on_typing_ev from on tx : Ev R (on_typing from on tx).
Proof. unfold on_typing. foot. Qed.
Lemma typing_peer_ev node on : Ev R (typing_peer node on).
Proof. unfold typing_peer. foot. Qed.
Lemma typing_each_ev gid on ids : Ev R (typing_each gid on ids).
Proof. induction ids; cbn [typing_each]; foot. Qed.
#[local] Hint Resolve typing_each_ev : eff.
Lemma typing_group_ev gid on : Ev R (typing_group secret gid on).
Proof. unfold typing_group. foot. Qed.


#[local] Hint Resolve group_session_open_ev typing_group_ev trigger_group_dials_ev handle_group_frame_ev
  on_typing_ev : eff.

Lemma remove_live_ev `{!FootDrop R} node handle : Ev R (remove_live node handle).
Proof.
  intros e. unfold remove_live. run_gets. destruct (peers e !! node) as [p|] eqn:Hp; [|reflexivity]. cbn zeta.
  run_modify. match goal with |- R e ((if ?b then _ else ?m) ?e1).2 =>
    assert (H1 : R e e1); [|assert (H2 : Ev R m) by foot; destruct b; [exact H1|etrans; [exact H1|apply H2]]] end.
  by apply (foot_insert e node p (on_p_live (filter (λ h, lh_id h ≠ handle)))).
Qed.
#[local] Hint Resolve remove_live_ev : eff.
(** ** Front *)

Section Front.
Lemma incoming_hello_ev `{!FootAsk R} expected node token name : Ev R (incoming_hello expected node token name).
Proof. unfold incoming_hello. foot. Qed.
Lemma approve_pair_ev `{!FootAsk R} node accept : Ev R (approve_pair node accept).
Proof. unfold approve_pair. foot. Qed.
Context `{!FootFront R}.
Lemma set_name_ev name : Ev R (set_name name).
Proof. unfold set_name. foot. Qed.
Lemma create_invite_ev : Ev R create_invite.
Proof. unfold create_invite. foot. Qed.

Lemma hear_beacon_ev b from : Ev R (hear_beacon secret b from).
Proof.
  unfold hear_beacon. destruct (node_parse _) as [node|]; [|foot]. case_bool_decide; [foot|]. cbn zeta.
  apply ev_bind; [typeclasses eauto|foot|]. intros now e. run_gets. run_modify.
  set (e1 := on_e_inner _ e). trans e1; [apply foot_nearby|].
  match goal with |- R e1 (( _ ← ?m; ?k) e1).2 =>
    assert (Hm : R e1 (m e1).2); [|assert (Hk : Ev R k) by foot] end.
  - change (peers e !! node) with (peers e1 !! node). destruct (peers e1 !! node) as [p|] eqn:Hp; [|reflexivity].
    case_bool_decide; [|reflexivity]. run_modify.
    match goal with |- R e1 (?m ?e2).2 => assert (H2 : R e1 e2); [|assert (H3 : Ev R m) by foot] end.
    + by apply (foot_insert e1 node p (on_p_addrs (λ _, _))).
    + etrans; [exact H2|apply H3].
  - unfold mbind, M_bind in *. destruct (_ e1) as [[?|?] e2]; [|exact Hm]. etrans; [exact Hm|apply Hk].
Qed.
End Front.

(** ** Chats *)

Section Chats.
Context `{!FootChat R}.
Lemma add_peer_ev `{!FootPeers R} node name addrs : Ev R (add_peer node name addrs).
Proof. unfold add_peer. foot. Qed.
Lemma persist_messages_ev node rows : Ev R (persist_messages node rows).
Proof. unfold persist_messages. foot. Qed.
Lemma write_row_ev k : Ev R (write_row k).
Proof. unfold write_row. foot. Qed.
#[local] Hint Resolve add_peer_ev persist_messages_ev : eff.

(** A change of the chat with a peer, and then [m]. *)
Lemma chat_then {A} n p p' (m : M A) e :
  peers e !! n = Some p → p_kind p' = p_kind p → Ev R m → R e ((modify (on_peers <[n := p']>) ≫= λ _, m) e).2.
Proof. intros Hp Hk Hm. run_modify. etrans; [by eapply foot_chat|apply Hm]. Qed.

Lemma flush_one_ev node tx m : Ev R (flush_one node tx m).
Proof.
  unfold flush_one. do 2 (apply ev_bind; [typeclasses eauto|foot|intros _]). intros e. run_gets. cbv zeta.
  destruct (peers e !! node) as [p|] eqn:Hp; [|reflexivity].
  destruct (update_last _ _ _) as [[row msgs]|]; (eapply chat_then; [done|done|foot]).
Qed.
#[local] Hint Resolve flush_one_ev : eff.
Lemma flush_each_ev node tx ms : Ev R (flush_each node tx ms).
Proof. induction ms; cbn [flush_each]; foot. Qed.
#[local] Hint Resolve flush_each_ev : eff.
Lemma flush_queue_ev node tx : Ev R (flush_queue node tx).
Proof.
  intros e. unfold flush_queue. run_gets. destruct (peers e !! node) as [p|] eqn:Hp; [|reflexivity].
  eapply chat_then; [done|done|foot].
Qed.
#[local] Hint Resolve flush_queue_ev : eff.
Lemma serve_dialed_ev node proto : Ev R (serve_dialed secret node proto).
Proof. unfold serve_dialed. foot. Qed.
Lemma serve_accepted_ev node proto : Ev R (serve_accepted secret node proto).
Proof. unfold serve_accepted, serve_session. foot. Qed.
Lemma serve_session_ev introduced node proto : Ev R (serve_session secret introduced node proto).
Proof. unfold serve_session. foot. Qed.
Lemma pair_served_ev node proto : Ev R (pair_served secret node proto).
Proof. unfold pair_served. foot. Qed.
Lemma pair_accepted_ev `{!FootPeers R} node name addrs proto : Ev R (pair_accepted secret node name addrs proto).
Proof. unfold pair_accepted, pair_served. foot. Qed.
Lemma pair_connect_ev `{!FootPeers R} node addrs h n proto : Ev R (pair_connect secret node addrs h n proto).
Proof. unfold pair_connect. foot. Qed.
Lemma send_text_ev node text rt rx : Ev R (send_text node text rt rx).
Proof.
  unfold send_text. apply ev_bind; [typeclasses eauto|foot|intros _]. do 2 (apply ev_bind; [typeclasses eauto|foot|intros ?]).
  intros e. run_gets. destruct (peers e !! node) as [p|] eqn:Hp; [|reflexivity]. run_guard; [|reflexivity]. cbv zeta.
  assert (Hgo : ∀ e' sent, R e e' → peers e' = peers e → ∀ row p', p_kind p' = p_kind p → R e ((
      _ ← modify (on_peers <[node := p']>); _ ← persist_messages node [row];
      _ ← when (negb sent) (trigger_connect node); mret (a, negb sent)) e').2).
  { intros e' sent He Hps row p' Hk. etrans; [exact He|]. eapply chat_then; [by rewrite Hps|done|foot]. }
  destruct (p_live (reap e p)) as [|h l].
  - by apply (Hgo e false).
  - unfold mbind at 1, M_bind at 1. pose proof (send_ev (lh_tx h) (Msg a a0 text rt rx) e) as Hs.
    unfold send in *. destruct (is_closed e (lh_tx h)).
    + by apply (Hgo e false).
    + by apply (Hgo _ true).
Qed.
Lemma on_ack_ev from id : Ev R (on_ack from id).
Proof.
  unfold on_ack. intros e. run_gets.
  assert (Hend : Ev R (emit (EvAck (node_str from) id))) by foot.
  destruct (peers e !! from) as [p|] eqn:Hp; [|apply Hend].
  destruct (update_last _ _ _) as [[row msgs]|]; [|apply Hend].
  match goal with |- R e (((_ ← ?m; ?k) ≫= ?h) e).2 => change (R e ((m ≫= λ _, (k ≫= h)) e).2) end.
  eapply chat_then; [done|done|foot].
Qed.
Lemma push_msg_ev from m : Ev R (push_msg from m).
Proof.
  intros e. unfold push_msg. run_gets. destruct (peers e !! from) as [p|] eqn:Hp; [|reflexivity].
  eapply chat_then; [done|done|foot].
Qed.
#[local] Hint Resolve push_msg_ev : eff.
Lemma on_msg_ev from tx id ts text rt rx : Ev R (on_msg from tx id ts text rt rx).
Proof. unfold on_msg. foot. Qed.
Lemma remove_peer_ev `{!FootAsk R, !FootPeers R, !FootFiles R, !FootDrop R} node : Ev R (remove_peer secret blobs_dir node).
Proof. unfold remove_peer, remove_dir_all. foot. Qed.
End Chats.

(** ** Media *)

Section Media.
Context {CT : CharTable} {B64 : Base64} `{!FootFiles R}.
Lemma remove_file_ev path : Ev R (remove_file path).
Proof. unfold remove_file. foot. Qed.
Lemma create_file_ev path : Ev R (create_file path).
Proof. unfold create_file. foot. Qed.
Lemma append_file_ev path b : Ev R (append_file path b).
Proof. unfold append_file. foot. Qed.
Lemma rename_file_ev old new : Ev R (rename_file old new).
Proof. unfold rename_file. foot. Qed.
#[local] Hint Resolve remove_file_ev create_file_ev append_file_ev rename_file_ev : eff.
Lemma on_file_begin_ev `{!FootRx R} from id ts name size mime cap :
  Ev R (on_file_begin blobs_dir from id ts name size mime cap).
Proof. unfold on_file_begin, begin_rx. foot. Qed.
Lemma finish_begin_ev `{!FootRx R} k : Ev R (finish_begin k).
Proof. unfold finish_begin. foot. Qed.
Lemma on_file_chunk_ev `{!FootRx R} from id data : Ev R (on_file_chunk from id data).
Proof. unfold on_file_chunk. foot. Qed.
Lemma on_file_end_ev `{!FootRx R, !FootChat R} from tx id : Ev R (on_file_end from tx id).
Proof. unfold on_file_end. pose proof push_msg_ev. foot. Qed.
Lemma on_group_file_ev `{!FootRx R, !FootDrop R} from f tx : Ev R (on_group_file secret blobs_dir from f tx).
Proof. unfold on_group_file, on_group_file_begin, begin_rx, on_group_file_chunk, on_group_file_end. foot. Qed.
Lemma stream_chunks_ev tx gid id size total cs : Ev R (stream_chunks tx gid id size total cs).
Proof using Foot0. revert total. induction cs as [|c cs IH]; intros total; cbn [stream_chunks]; foot. Qed.
Lemma send_all_ev tx fs : Ev R (send_all tx fs).
Proof using Foot0. induction fs; cbn [send_all]; foot. Qed.
#[local] Hint Resolve stream_chunks_ev send_all_ev : eff.
Lemma send_all_peers tx fs e : peers (send_all tx fs e).2 = peers e.
Proof using.
  revert e. induction fs as [|f fs IH]; intros e; cbn [send_all]; [done|].
  unfold mbind, M_bind, send. destruct (is_closed e tx); [done|]. by rewrite IH.
Qed.
Lemma send_file_tail {A} `{!FootChat R} node fs row (r : A) :
  Ev R (e ← gets (λ x, x);
        match peers e !! node with
        | None => fail EUnknownPeer
        | Some p =>
            _ ← guard_else (bool_decide (p_kind p = Paired)) EUnknownPeer;
            let p := reap e p in
            _ ← modify (on_peers <[node := p]>);
            sent ← match p_live p with h :: _ => send_all (lh_tx h) fs | [] => mret false end;
            _ ← guard_else sent EPeerOffline;
            _ ← modify (on_peers <[node := on_p_msgs (λ l, l ++ [row]) p]>);
            _ ← persist_messages node [row];
            mret r
        end).
Proof using Foot0.
  intros e. run_gets. destruct (peers e !! node) as [p|] eqn:Hp; [|reflexivity]. run_guard; [|reflexivity]. cbv zeta.
  run_modify. set (e1 := on_peers _ e). trans e1; [by eapply foot_chat|].
  assert (H1 : peers e1 !! node = Some (reap e p)) by apply lookup_insert_eq.
  set (m := match p_live (reap e p) with h :: _ => _ | [] => _ end).
  assert (Ev R m ∧ peers (m e1).2 = peers e1) as [Hm Hps].
  { subst m. destruct (p_live (reap e p)); [by split; [apply ev_ret, _|]|split; [apply send_all_ev|apply send_all_peers]]. }
  unfold mbind at 1, M_bind at 1. specialize (Hm e1). destruct (m e1) as [[sent|x] e2]; [|done]. cbn [snd] in Hm, Hps.
  etrans; [exact Hm|]. run_guard; [|reflexivity].
  eapply chat_then; [by rewrite Hps|done|]. pose proof persist_messages_ev. foot.
Qed.
#[local] Hint Resolve send_file_tail : eff.
Lemma send_file_ev `{!FootChat R} node src name caption : Ev R (send_file blobs_dir node src name caption).
Proof using Foot0 FootFiles0.
  unfold send_file, require_paired. cbv zeta.
  repeat match goal with
  | |- Ev R (mbind (λ e, match peers e !! _ with Some p => mbind _ (guard_else _ _) | None => _ end) _) =>
      apply send_file_tail
  | _ => foot_step
  end.
Qed.

Context `{!FootXfers R}.
Lemma group_file_set_ev id member state sent : Ev R (group_file_set id member state sent).
Proof using Foot0 FootXfers0. unfold group_file_set, emit_group_file, on_member. foot. Qed.
#[local] Hint Resolve group_file_set_ev : eff.
Lemma group_file_wrote_ev node id n : Ev R (group_file_wrote node id n).
Proof using Foot0 FootXfers0. unfold group_file_wrote, emit_group_file, on_member. foot. Qed.
Lemma group_file_done_ev node id : Ev R (group_file_done node id).
Proof using Foot0 FootXfers0. unfold group_file_done. foot. Qed.
Lemma group_files_failed_ev node handle : Ev R (group_files_failed node handle).
Proof using Foot0 FootXfers0. unfold group_files_failed. foot. Qed.
Lemma stream_group_file_ev gid id member link : Ev R (stream_group_file gid id member link).
Proof using Foot0 FootXfers0 FootFiles0. unfold stream_group_file. foot. Qed.
#[local] Hint Resolve stream_group_file_ev group_files_failed_ev : eff.
Lemma group_file_retry_ev gid id node : Ev R (group_file_retry gid id node).
Proof using Foot0 FootXfers0 FootFiles0. unfold group_file_retry, emit_group_file. foot. Qed.
Lemma group_send_file_ev gid src name caption : Ev R (group_send_file secret blobs_dir gid src name caption).
Proof using Foot0 FootXfers0 FootFiles0. unfold group_send_file. foot. Qed.
Lemma end_session_ev `{!FootDrop R} node tx handle : Ev R (end_session node tx handle).
Proof using Foot0 FootXfers0. unfold end_session. foot. Qed.
End Media.

End Footprint.

(** The list of paired devices, for a relation that does not care about it. *)
Lemma listed_any {P : Platform} {SD : Serde} {En : Env} (R : P2p → P2p → Prop) `{!PreOrder R} :
  (∀ e, R e (on_e_tick N.succ e)) → (∀ f e, R e (on_e_disk (on_dk_peers f) e)) → Ev R persist_peers.
Proof.
  intros Ht Hf. unfold persist_peers. apply ev_bind; [done|by intros e|]. intros n. destruct (env_write_ok n).
  - apply ev_modify. intros e. apply Hf.
  - by apply ev_fail.
Qed.

(** The operations, for a client's relation. *)
Create HintDb foot.
#[export] Hint Resolve next_tick_ev now_ms_ev instant_now_ev random_id_ev persist_groups_ev
  persist_peers_ev append_group_log_ev group_last_ts_ev send_ev open_channel_ev trigger_connect_ev
  register_live_ev set_connecting_ev emit_presence_ev send__ev groups_changed_ev warn_ev warn_on_error_ev
  pump_recs_ev pump_ev pump_all_ev group_send_ev on_group_msg_ev on_group_ack_ev on_group_sync_ev
  typing_gate_ev log_sys_from_ev log_sys_ev announce_to_ev announce_state_ev edit_group_locked_ev
  group_create_ev group_add_ev group_remove_ev group_rename_ev group_disband_ev group_leave_ev
  purge_group_ev group_delete_ev after_state_applied_ev finish_apply_ev apply_state_ev on_group_leave_ev
  open_group_ev group_session_open_ev trigger_group_dials_ev handle_group_frame_ev on_typing_ev
  typing_peer_ev typing_each_ev typing_group_ev remove_live_ev set_name_ev create_invite_ev
  incoming_hello_ev approve_pair_ev hear_beacon_ev add_peer_ev persist_messages_ev write_row_ev flush_one_ev
  flush_each_ev flush_queue_ev serve_dialed_ev serve_accepted_ev serve_session_ev pair_served_ev pair_accepted_ev pair_connect_ev
  send_text_ev on_ack_ev push_msg_ev on_msg_ev remove_peer_ev remove_file_ev create_file_ev append_file_ev
  rename_file_ev on_file_begin_ev finish_begin_ev on_file_chunk_ev on_file_end_ev on_group_file_ev stream_chunks_ev
  send_all_ev send_file_ev group_file_set_ev group_file_wrote_ev group_file_done_ev group_files_failed_ev
  stream_group_file_ev group_file_retry_ev group_send_file_ev end_session_ev : foot.
#[export] Hint Extern 0 (Foot _ _) => typeclasses eauto : foot.
#[export] Hint Extern 0 (FootDrop _ _) => typeclasses eauto : foot.
#[export] Hint Extern 0 (FootFront _) => typeclasses eauto : foot.
#[export] Hint Extern 0 (FootAsk _) => typeclasses eauto : foot.
#[export] Hint Extern 0 (FootChat _) => typeclasses eauto : foot.
#[export] Hint Extern 0 (FootPeers _) => typeclasses eauto : foot.
#[export] Hint Extern 0 (FootFiles _) => typeclasses eauto : foot.
#[export] Hint Extern 0 (FootRx _) => typeclasses eauto : foot.
#[export] Hint Extern 0 (FootXfers _) => typeclasses eauto : foot.
