(* ===== verification/GroupInv.v ===== *)
(** * The counters of a group and its log agree

    The invariant of the running engine: every group's record is valid and
    signed, the log holds exactly the messages this device numbered (1 up to
    [next_seq - 1], in order) and, for each author, exactly the messages 1 up to
    [have] in order; nobody acknowledged a message that was not sent. *)

From S2P Require Import Prelude Str Net Groups Frames Engine Delivery Rosters GroupWire Chat Files Effects.

(** [1 .. n] *)
Definition upto (n : N) : list N := N.of_nat <$> seq 1 (N.to_nat n).

Lemma upto_succ n : upto (n + 1) = upto n ++ [(n + 1)%N].
Proof.
  unfold upto. rewrite N2Nat.inj_add. change (N.to_nat 1) with 1. rewrite Nat.add_1_r, seq_S, fmap_app.
  cbn. do 2 f_equal. lia.
Qed.

Lemma elem_of_upto n i : i ∈ upto n ↔ (1 ≤ i ≤ n)%N.
Proof.
  unfold upto. rewrite list_elem_of_fmap. setoid_rewrite elem_of_seq. split.
  - intros (k & -> & ?). lia.
  - intros. exists (N.to_nat i). lia.
Qed.

(** A step known to satisfy [R], then the rest. *)
Lemma ev_step {A B} (R : P2p → P2p → Prop) (m : M A) (k : A → M B) (e : P2p) (I : P2p → Prop) :
  Ev R m → (∀ e', R e e' → I e') → (∀ a e', R e e' → I (k a e').2) → I ((m ≫= k) e).2.
Proof.
  intros Hm Herr Hok. unfold mbind, M_bind. specialize (Hm e).
  destruct (m e) as [[a|x] e']; cbn in *; auto.
Qed.

Section GroupInv.
Context {P : Platform} {L : PlatformLaws} {SD : Serde} {SL : SerdeLaws} {En : Env}.
Context {CT : CharTable} {B64 : Base64}.
Context {WA : WholeAppends} (secret : secret_key) (blobs_dir : str).
Local Abbreviation me := (me secret).
Local Abbreviation me_str := (me_str secret).

(** ** Logs *)

Definition lrecs (e : P2p) (g : str) : list GroupLogRec := read_log (logs e !! g).
Definition logs_ok (e : P2p) : Prop := map_Forall (λ _ f, ∃ recs, f = log_image recs) (logs e).

(** A message this device sent, one it received from [a]; system lines and
    media carry sequence number 0. *)
Definition mine (r : GroupLogRec) : Prop := lr_dir r = lit "out" ∧ lr_from r = me_str ∧ lr_seq r ≠ 0%N.
Definition by_ (a : str) (r : GroupLogRec) : Prop := lr_dir r = lit "in" ∧ lr_from r = a ∧ lr_seq r ≠ 0%N.
Definition unnumbered (r : GroupLogRec) : Prop := lr_seq r = 0%N.

Definition my_seqs (l : list GroupLogRec) : list N := lr_seq <$> filter mine l.
Definition seqs_by (a : str) (l : list GroupLogRec) : list N := lr_seq <$> filter (by_ a) l.

Lemma filter_unnumbered (Q : GroupLogRec → Prop) {HQd : ∀ r, Decision (Q r)} rs :
  (∀ r, Q r → lr_seq r ≠ 0%N) → Forall unnumbered rs → filter Q rs = [].
Proof.
  intros HQ H. induction H as [|r rs Hr _ IH]; [done|]. rewrite filter_cons_False; [done|].
  intros Hq. by apply HQ in Hq.
Qed.

Lemma my_seqs_unnumbered l rs : Forall unnumbered rs → my_seqs (l ++ rs) = my_seqs l.
Proof.
  intros H. unfold my_seqs. rewrite filter_app, (filter_unnumbered mine rs); [by rewrite app_nil_r| |done].
  by intros r (_ & _ & ?).
Qed.
Lemma seqs_by_unnumbered a l rs : Forall unnumbered rs → seqs_by a (l ++ rs) = seqs_by a l.
Proof.
  intros H. unfold seqs_by. rewrite filter_app, (filter_unnumbered (by_ a) rs); [by rewrite app_nil_r| |done].
  by intros r (_ & _ & ?).
Qed.

(** The state after one line was appended to the log of [g]. *)
Definition logged (g : str) (r : GroupLogRec) (e e' : P2p) : Prop :=
  groups e' = groups e ∧ e_chans e' = e_chans e ∧
  logs e' = partial_alter (λ f, append_log f r) g (logs e).

Lemma append_spec g r e :
  let '(res, e') := append_group_log g r e in
  match res with Ok _ => logged g r e e' | Err _ => core e e' end.
Proof.
  unfold append_group_log, next_tick, mbind, M_bind. cbn. pose proof (whole_appends (e_tick e)) as Hw.
  destruct (env_append (e_tick e)) as [| |k]; [by repeat split..|]. by destruct (Hw k).
Qed.

Lemma logged_recs g r e e' :
  logs_ok e → logged g r e e' →
  logs_ok e' ∧ lrecs e' g = lrecs e g ++ [r] ∧ (∀ g', g' ≠ g → logs e' !! g' = logs e !! g').
Proof.
  intros Hok (_ & _ & Hl).
  assert (∃ recs, append_log (logs e !! g) r = Some (log_image (recs ++ [r])) ∧ lrecs e g = recs)
    as (recs & Happ & Hrecs).
  { unfold lrecs. destruct (logs e !! g) as [f|] eqn:Hf.
    - destruct (Hok _ _ Hf) as [recs ->]. exists recs. split; [apply append_log_image|apply read_log_exact].
    - exists []. split; [apply (append_log_image [] r)|done]. }
  split_and!.
  - intros g' f Hf. rewrite Hl in Hf. destruct (decide (g' = g)) as [->|Hne].
    + rewrite lookup_partial_alter_eq, Happ in Hf. injection Hf as <-. eauto.
    + rewrite lookup_partial_alter_ne in Hf by done. by apply Hok in Hf.
  - rewrite Hrecs. unfold lrecs. rewrite Hl, lookup_partial_alter_eq, Happ. apply read_log_exact.
  - intros g' Hne. by rewrite Hl, lookup_partial_alter_ne.
Qed.

(** Unnumbered lines were added to the log of [g], and no message was sent. *)
Definition noted (g : str) (e e' : P2p) : Prop :=
  groups e' = groups e ∧ sent_more (λ f, is_msg f = false) e e' ∧
  (logs_ok e → logs_ok e' ∧ (∃ rs, lrecs e' g = lrecs e g ++ rs ∧ Forall unnumbered rs) ∧
    (∀ g', g' ≠ g → logs e' !! g' = logs e !! g')).

#[export] Instance noted_preorder g : PreOrder (noted g).
Proof.
  split.
  - intros e. split; [done|]. split; [by apply sent_more_refl|]. intros H. split; [done|]. split; [|done].
    exists []. by rewrite app_nil_r.
  - intros e1 e2 e3 (G1 & S1 & H1) (G2 & S2 & H2). split; [congruence|]. split; [by eapply sent_more_trans|].
    intros Hok. destruct (H1 Hok) as (Hok2 & (l1 & E1 & F1) & O1).
    destruct (H2 Hok2) as (Hok3 & (l2 & E2 & F2) & O2). split; [done|]. split.
    + exists (l1 ++ l2). rewrite E2, E1, app_assoc. split; [done|]. by apply Forall_app.
    + intros g' Hne. rewrite O2, O1 by done. done.
Qed.

Lemma quiet_noted g e e' : quiet e e' → noted g e e'.
Proof.
  intros (Hg & Hl & Hs). split; [done|]. split; [done|]. intros Hok. unfold logs_ok, lrecs. rewrite Hl.
  split; [done|]. split; [|done]. exists []. by rewrite app_nil_r.
Qed.
Lemma ev_quiet_noted {A} g (m : M A) : Ev quiet m → Ev (noted g) m.
Proof. apply ev_mono. intros. by apply quiet_noted. Qed.
Lemma ev_core_gl {A} (m : M A) : Ev core m → Ev same_gl m.
Proof. apply ev_mono, core_gl. Qed.
#[local] Hint Resolve ev_quiet_noted ev_core_gl ev_core_quiet ev_quiet_gl : eff.

Lemma append_noted g r : lr_seq r = 0%N → Ev (noted g) (append_group_log g r).
Proof.
  intros Hr e. pose proof (append_spec g r e) as H. destruct (append_group_log g r e) as [[u|x] e']; cbn.
  - split; [apply H|]. split; [apply sent_more_refl, H|]. intros Hok.
    destruct (logged_recs _ _ _ _ Hok H) as (H1 & H2 & H3).
    split; [done|]. split; [|done]. exists [r]. split; [done|]. by constructor.
  - by apply quiet_noted, core_quiet.
Qed.

#[local] Hint Resolve emit_core now_ms_core group_last_ts_core remove_file_core warn_core
  rename_file_core : eff.

Lemma log_sys_noted gid epoch ls : Ev (noted gid) (log_sys secret gid epoch ls).
Proof.
  unfold log_sys. generalize 0%N as i. induction ls as [|[kind text] ls IH]; intros i; cbn [log_sys_from];
    [eff|].
  apply ev_bind; [typeclasses eauto|eauto with eff|]. intros now.
  apply ev_bind; [typeclasses eauto|eauto with eff|]. intros prev.
  apply ev_bind; [typeclasses eauto|by apply ev_attempt, append_noted|]. intros r.
  apply ev_bind; [typeclasses eauto| |intros _; apply IH].
  apply ev_quiet_noted, ev_core_quiet. eff.
Qed.

(** ** The invariant *)

Record group_inv (e : P2p) (g : str) (r : GroupRec) : Prop := {
  gi_valid : gs_gid (gr_state r) = g ∧ check (gr_state r) = Ok tt;
  gi_next : (1 ≤ gr_next_seq r)%N;
  gi_sent : ∀ k, (cursor_of (gr_sent_cursor r) k < gr_next_seq r)%N;
  gi_mine : gr_hidden r = false → my_seqs (lrecs e g) = upto (gr_next_seq r - 1);
  gi_by : gr_hidden r = false → ∀ a, seqs_by a (lrecs e g) = upto (cursor_of (gr_have r) a);
}.

Record inv (e : P2p) : Prop := {
  inv_logs : logs_ok e;
  inv_groups : map_Forall (group_inv e) (groups e);
  inv_orphans : ∀ g, groups e !! g = None → logs e !! g = None;
}.

Lemma inv_gl e e' : same_gl e e' → inv e → inv e'.
Proof.
  intros [Hg Hl] [H1 H2 H3]. split.
  - unfold logs_ok. by rewrite Hl.
  - rewrite Hg. eapply map_Forall_impl; [exact H2|]. intros g r [? ? ? Hm Hb].
    split; try done; unfold lrecs; by rewrite Hl.
  - intros g. rewrite Hg, Hl. apply H3.
Qed.

Lemma inv_noted g e e' : is_Some (groups e !! g) → noted g e e' → inv e → inv e'.
Proof.
  intros Hin (Hg & _ & Hn) [H1 H2 H3]. destruct (Hn H1) as (Hok & (rs & Hrs & Hun) & Hoth). split.
  - done.
  - rewrite Hg. intros g' r Hr. destruct (H2 _ _ Hr) as [? ? ? Hm Hb].
    destruct (decide (g' = g)) as [->|Hne].
    + split; try done; rewrite Hrs; intros; rewrite ?my_seqs_unnumbered, ?seqs_by_unnumbered; auto.
    + split; try done; unfold lrecs; rewrite Hoth; auto.
  - intros g' Hnone. rewrite Hg in Hnone. rewrite Hoth; [by apply H3|]. intros ->. rewrite Hnone in Hin.
    by destruct Hin.
Qed.

(** Records may change, as long as the counters stay and the state is valid. *)
Lemma inv_alter e g f :
  inv e →
  (∀ r, groups e !! g = Some r →
     gs_gid (gr_state (f r)) = g ∧ check (gr_state (f r)) = Ok tt ∧ gr_next_seq (f r) = gr_next_seq r ∧
     (∀ k, (cursor_of (gr_sent_cursor (f r)) k < gr_next_seq r)%N) ∧ gr_have (f r) = gr_have r ∧
     (gr_hidden (f r) = false → gr_hidden r = false)) →
  inv (on_groups (alter f g) e).
Proof.
  intros [H1 H2 H3] Hf. split; [done| |].
  - intros g' r'. unfold groups. cbn. intros Hr'. apply lookup_alter_Some in Hr' as [(-> & r & Hr & ->)|[Hne Hr]].
    + destruct (H2 _ _ Hr) as [[? ?] ? ? Hm Hb]. destruct (Hf r Hr) as (? & ? & Hn & ? & Hh & Hhid).
      split; [done|lia|by rewrite Hn|rewrite Hn; auto|rewrite Hh; auto].
    + by destruct (H2 _ _ Hr).
  - intros g'. unfold groups. cbn. intros Hnone. apply H3.
    destruct (decide (g' = g)) as [->|]; [|by rewrite lookup_alter_ne in Hnone].
    rewrite lookup_alter_eq in Hnone. by destruct (in_groups (e_inner e) !! g) eqn:Hx.
Qed.

(** ** Operations that leave groups and logs alone *)

#[local] Hint Resolve send_gl send__gl persist_groups_core warn_on_error_core groups_changed_core
  announce_state_quiet trigger_connect_core random_id_core next_tick_core delete_group_blobs_core
  sync_introduced_core set_connecting_core : eff.

Lemma pump_recs_gl gid tx marker recs : Ev same_gl (pump_recs secret gid tx marker recs).
Proof. induction recs; cbn [pump_recs]; eff. Qed.
#[local] Hint Resolve pump_recs_gl : eff.
Lemma pump_gl gid node hint : Ev same_gl (pump secret gid node hint).
Proof. unfold pump. eff. Qed.
#[local] Hint Resolve pump_gl : eff.
Lemma pump_all_gl gid line ms : Ev same_gl (pump_all secret gid line ms).
Proof. induction ms; cbn [pump_all]; eff. Qed.
Lemma after_state_applied_gl gid : Ev same_gl (after_state_applied secret gid).
Proof. unfold after_state_applied. eff. Qed.
#[local] Hint Resolve pump_all_gl after_state_applied_gl : eff.

(** ** The invariant, operation by operation *)

Local Abbreviation keeps m := (∀ e, inv e → inv (m e).2) (only parsing).

Lemma keeps_gl {A} (m : M A) : Ev same_gl m → keeps m.
Proof. intros Hm e. apply inv_gl, Hm. Qed.

(** What follows a step that leaves groups and logs alone. *)
Lemma inv_step {A B} (m : M A) (k : A → M B) e :
  Ev same_gl m → inv e → (∀ a e', same_gl e e' → inv e' → inv (k a e').2) → inv ((m ≫= k) e).2.
Proof.
  intros Hm Hi Hk. eapply ev_step; [exact Hm| |].
  - intros e' H. by eapply inv_gl.
  - intros a e' H. apply Hk; [done|]. by eapply inv_gl.
Qed.

Lemma inv_lookup e g r : inv e → groups e !! g = Some r → group_inv e g r.
Proof. intros Hi Hr. by apply (inv_groups _ Hi). Qed.

Lemma cursor_insert m k k' n :
  cursor_of (<[k := n]> m) k' = if decide (k' = k) then n else cursor_of m k'.
Proof.
  unfold cursor_of. destruct (decide (k' = k)) as [->|]; [by rewrite lookup_insert_eq|].
  by rewrite lookup_insert_ne.
Qed.

(** Acknowledgements: the cursor of [key] moves to something that was sent. *)
Lemma inv_ack_cursor e g r key n :
  inv e → groups e !! g = Some r → (n < gr_next_seq r)%N →
  inv (on_groups (alter (on_gr_sent_cursor <[key := n]>) g) e).
Proof.
  intros Hi Hr Hn. apply inv_alter; [done|]. intros r' Hr'.
  assert (r' = r) as -> by congruence. destruct (inv_lookup _ _ _ Hi Hr) as [[? ?] ? Hs _ _].
  split_and!; try done. intros k. cbn. rewrite cursor_insert. by case_decide.
Qed.

Lemma sat_sub_lt a n : (1 ≤ n)%N → (N.min a (sat_sub n 1) < n)%N.
Proof. unfold sat_sub. lia. Qed.

Lemma on_group_ack_inv from gid have : keeps (on_group_ack secret from gid have).
Proof.
  intros e Hi. unfold on_group_ack. run_gets.
  destruct (groups e !! gid) as [r|] eqn:Hr; [|exact Hi]. destruct (_ || _); [exact Hi|].
  cbv zeta. destruct (_ <=? _)%N; [exact Hi|].
  destruct (inv_lookup _ _ _ Hi Hr) as [_ Hn _ _ _].
  set (n := N.min have _). pose proof (inv_ack_cursor e gid r (node_str from) n Hi Hr (sat_sub_lt _ _ Hn)) as Hi'.
  match goal with |- inv ((modify ?f ≫= ?k) e).2 => change (inv (k tt (f e)).2) end.
  apply keeps_gl; [|exact Hi']. eff.
Qed.

Lemma on_group_sync_inv from tx gid epoch have name : keeps (on_group_sync secret from tx gid epoch have name).
Proof.
  intros e Hi. unfold on_group_sync. run_gets.
  destruct (groups e !! gid) as [r|] eqn:Hr; [|apply keeps_gl; [eff|done]].
  destruct (gr_removed r); [apply keeps_gl; [eff|done]|].
  destruct (negb _); [apply keeps_gl; [eff|done]|]. cbv zeta.
  apply inv_step; [eff|done|]. intros _ e1 G1 Hi1. apply inv_step; [eff|done|]. intros _ e2 G2 Hi2.
  assert (Hr2 : groups e2 !! gid = Some r) by (destruct G1, G2; congruence). clear e1 G1 Hi1 G2.
  set (held := N.min epoch _). set (sd := _ && _). set (acked := N.min have _). set (ad := (_ <? acked)%N).
  assert (Hlt : (acked < gr_next_seq r)%N) by (apply sat_sub_lt; by destruct (inv_lookup _ _ _ Hi2 Hr2)).
  assert (∃ e3 r3, ∀ B (k : unit → M B), (when sd (modify (on_groups
      (alter (on_gr_state_cursor <[node_str from := held]>) gid))) ≫= k) e2 = k tt e3 ∧
      inv e3 ∧ groups e3 !! gid = Some r3 ∧ gr_next_seq r3 = gr_next_seq r) as (e3 & r3 & H3).
  { destruct sd; cbn [when].
    - eexists (on_groups _ e2), _. intros B k. split; [done|]. split; [|split].
      + apply inv_alter; [done|]. intros r' Hr'. assert (r' = r) as -> by congruence.
        by destruct (inv_lookup _ _ _ Hi2 Hr2) as [[? ?] ? ? ? ?].
      + unfold groups. cbn. rewrite lookup_alter_eq. unfold groups in Hr2. by rewrite Hr2.
      + done.
    - exists e2, r. done. }
  match goal with |- inv ((_ ≫= ?k) e2).2 => destruct (H3 _ k) as (-> & Hi3 & Hr3 & Hn3) end.
  assert (∃ e4, ∀ B (k : unit → M B), (when ad (modify (on_groups
      (alter (on_gr_sent_cursor <[node_str from := acked]>) gid))) ≫= k) e3 = k tt e4 ∧ inv e4) as (e4 & H4).
  { destruct ad; cbn [when]; [|by exists e3]. eexists (on_groups _ e3). intros B k. split; [done|].
    eapply inv_ack_cursor; [done..|]. by rewrite Hn3. }
  match goal with |- inv ((_ ≫= ?k) e3).2 => destruct (H4 _ k) as (-> & Hi4) end.
  apply keeps_gl; [|done]. eff.
Qed.

(** Counters stay far from the end of [u64]. *)
Definition room (e : P2p) : Prop :=
  ∀ g r, groups e !! g = Some r →
    (gr_next_seq r + GROUP_WINDOW < u64_bound)%N ∧ (∀ a, cursor_of (gr_have r) a + 1 < u64_bound)%N.

Lemma my_seqs_snoc l r : mine r → my_seqs (l ++ [r]) = my_seqs l ++ [lr_seq r].
Proof. intros H. unfold my_seqs. rewrite filter_app, fmap_app, filter_cons_True by done. done. Qed.
Lemma my_seqs_other l r : ¬ mine r → my_seqs (l ++ [r]) = my_seqs l.
Proof. intros H. unfold my_seqs. rewrite filter_app, filter_cons_False by done. by rewrite app_nil_r. Qed.
Lemma seqs_by_snoc a l r : by_ a r → seqs_by a (l ++ [r]) = seqs_by a l ++ [lr_seq r].
Proof. intros H. unfold seqs_by. rewrite filter_app, fmap_app, filter_cons_True by done. done. Qed.
Lemma seqs_by_other a l r : ¬ by_ a r → seqs_by a (l ++ [r]) = seqs_by a l.
Proof. intros H. unfold seqs_by. rewrite filter_app, filter_cons_False by done. by rewrite app_nil_r. Qed.

Lemma out_not_in r : lr_dir r = lit "out" → ∀ a, ¬ by_ a r.
Proof. intros H a (H' & _). rewrite H in H'. done. Qed.
Lemma in_not_out r : lr_dir r = lit "in" → ¬ mine r.
Proof. intros H (H' & _). rewrite H in H'. done. Qed.

(** The message that was just numbered is logged, then the counter moves. *)
Lemma inv_sent e e1 g r line :
  inv e → groups e !! g = Some r → logged g line e e1 →
  mine line → lr_seq line = gr_next_seq r → (gr_next_seq r + 1 < u64_bound)%N →
  inv (on_groups (alter (on_gr_next_seq (λ _, wadd64 (gr_next_seq r) 1)) g) e1).
Proof.
  intros Hi Hr Hl Hm Hseq Hb. destruct (logged_recs _ _ _ _ (inv_logs _ Hi) Hl) as (Hok & Hrecs & Hoth).
  destruct Hl as (Hg & _ & _). pose proof (inv_lookup _ _ _ Hi Hr) as [Hv Hn Hs Hmine Hby].
  split; [done| |].
  - intros g' r'. unfold groups. cbn. intros Hr'. apply lookup_alter_Some in Hr' as [(<- & r1 & Hr1 & ->)|[Hne Hr1]].
    + assert (r1 = r) as -> by (unfold groups in *; congruence). rewrite wadd64_small by done.
      split; cbn; [done|lia|intros k; specialize (Hs k); lia| |].
      * intros Hh. change (lrecs _ g) with (lrecs e1 g). rewrite Hrecs, my_seqs_snoc, Hmine by done.
        rewrite Hseq. replace (gr_next_seq r + 1 - 1)%N with (gr_next_seq r - 1 + 1)%N by lia.
        rewrite upto_succ. do 2 f_equal. lia.
      * intros Hh a. change (lrecs _ g) with (lrecs e1 g).
        rewrite Hrecs, seqs_by_other by (apply out_not_in, Hm). by apply Hby.
    + change (in_groups (e_inner e1)) with (groups e1) in Hr1. rewrite Hg in Hr1.
      destruct (inv_lookup _ _ _ Hi Hr1) as [? ? ? Hm' Hb']. split; try done.
      all: unfold lrecs in *; change (logs (on_groups _ e1)) with (logs e1); rewrite Hoth by done; done.
  - intros g' Hnone. change (logs (on_groups _ e1)) with (logs e1).
    unfold groups in Hnone. cbn in Hnone.
    assert (groups e1 !! g' = None) as Hn'.
    { destruct (decide (g' = g)) as [->|]; [|by rewrite lookup_alter_ne in Hnone].
      rewrite lookup_alter_eq in Hnone. unfold groups. by destruct (in_groups (e_inner e1) !! g). }
    rewrite Hg in Hn'. rewrite Hoth by (intros ->; congruence). by apply (inv_orphans _ Hi).
Qed.

(** The next message of an author is logged, then its counter moves. *)
Lemma inv_received e e1 e2 g r line a :
  inv e → groups e !! g = Some r → logged g line e e1 → same_gl e1 e2 →
  lr_dir line = lit "in" → lr_from line = a → lr_seq line = (cursor_of (gr_have r) a + 1)%N →
  inv (on_groups (alter (on_gr_have <[a := lr_seq line]>) g) e2).
Proof.
  intros Hi Hr Hl H2 Hdir Hfrom Hseq.
  destruct (logged_recs _ _ _ _ (inv_logs _ Hi) Hl) as (Hok & Hrecs & Hoth).
  destruct Hl as (Hg & _ & _). destruct H2 as [Hg2 Hl2].
  pose proof (inv_lookup _ _ _ Hi Hr) as [Hv Hn Hs Hmine Hby].
  assert (Hlr : ∀ g', lrecs e2 g' = lrecs e1 g') by (intros; unfold lrecs; by rewrite Hl2).
  split.
  - unfold logs_ok. change (logs (on_groups _ e2)) with (logs e2). by rewrite Hl2.
  - intros g' r'. unfold groups. cbn. intros Hr'. apply lookup_alter_Some in Hr' as [(<- & r1 & Hr1 & ->)|[Hne Hr1]].
    + assert (r1 = r) as -> by (unfold groups in *; congruence).
      split; cbn; [done|done|done| |].
      * intros Hh. change (lrecs _ g) with (lrecs e2 g).
        rewrite Hlr, Hrecs, my_seqs_other by (by apply in_not_out). by apply Hmine.
      * intros Hh a'. change (lrecs _ g) with (lrecs e2 g). rewrite Hlr, Hrecs, cursor_insert.
        case_decide as Ha.
        -- subst a'. rewrite seqs_by_snoc by (split_and!; [done..|rewrite Hseq; lia]).
           by rewrite Hby, Hseq, upto_succ.
        -- rewrite seqs_by_other; [by apply Hby|]. intros (_ & Hf & _). congruence.
    + change (in_groups (e_inner e2)) with (groups e2) in Hr1. rewrite Hg2, Hg in Hr1.
      destruct (inv_lookup _ _ _ Hi Hr1) as [? ? ? Hm' Hb']. split; try done.
      all: unfold lrecs in *; change (logs (on_groups _ e2)) with (logs e2); rewrite Hl2, Hoth by done; done.
  - intros g' Hnone. change (logs (on_groups _ e2)) with (logs e2).
    unfold groups in Hnone. cbn in Hnone.
    assert (groups e2 !! g' = None) as Hn'.
    { destruct (decide (g' = g)) as [->|]; [|by rewrite lookup_alter_ne in Hnone].
      rewrite lookup_alter_eq in Hnone. unfold groups. by destruct (in_groups (e_inner e2) !! g). }
    rewrite Hg2, Hg in Hn'. rewrite Hl2, Hoth by (intros ->; congruence). by apply (inv_orphans _ Hi).
Qed.

Lemma group_send_inv gid text rt rx e :
  inv e → room e → inv (group_send secret gid text rt rx e).2.
Proof.
  intros Hi Hroom. unfold group_send. apply inv_step; [eff|done|]. intros _ e0 G0 Hi0.
  assert (Hroom0 : room e0) by (intros g r; destruct G0 as [-> _]; apply Hroom).
  clear e Hi Hroom G0. run_gets. destruct (groups e0 !! gid) as [r|] eqn:Hr; [|exact Hi0].
  run_guard; [|exact Hi0]. cbv zeta.
  apply inv_step; [eff|done|]. intros now e1 G1 Hi1. apply inv_step; [eff|done|]. intros prev e2 G2 Hi2.
  apply inv_step; [eff|done|]. intros id e3 G3 Hi3.
  assert (Hr3 : groups e3 !! gid = Some r) by (destruct G1, G2, G3; congruence).
  clear e1 e2 G1 G2 G3 Hi1 Hi2. set (line := LogRec _ _ _ _ _ _ _ _ _ _).
  unfold mbind at 1, M_bind at 1. pose proof (append_spec gid line e3) as Ha.
  destruct (append_group_log gid line e3) as [[u|x] e4]; [|by eapply inv_gl; [apply core_gl|]].
  do 2 run_modify. apply keeps_gl; [eff|].
  destruct (Hroom0 _ _ Hr) as [Hb _]. unfold GROUP_WINDOW in Hb.
  apply (inv_gl (on_groups (alter (on_gr_next_seq (λ _, wadd64 (gr_next_seq r) 1)) gid) e4)); [done|].
  eapply inv_sent; [exact Hi3|exact Hr3|exact Ha| |done|lia].
  pose proof (inv_lookup _ _ _ Hi0 Hr) as [_ Hn _ _ _]. split_and!; [done..|]. cbn. lia.
Qed.

Lemma on_group_msg_inv from tx m e :
  inv e → room e → inv (on_group_msg secret from tx m e).2.
Proof.
  intros Hi Hroom. unfold on_group_msg. cbv zeta. case_bool_decide; [apply keeps_gl; [eff|done]|].
  run_gets. destruct (groups e !! gi_gid m) as [r|] eqn:Hr; [|apply keeps_gl; [eff|done]].
  destruct (gr_removed r); [apply keeps_gl; [eff|done]|].
  destruct (negb _); [exact Hi|]. destruct (_ || _); [exact Hi|].
  destruct (N.leb_spec (gi_seq m) (cursor_of (gr_have r) (node_str from))); [apply keeps_gl; [eff|done]|].
  destruct (Hroom _ _ Hr) as [_ Hb]. specialize (Hb (node_str from)). rewrite wadd64_small by done.
  destruct (N.ltb_spec (cursor_of (gr_have r) (node_str from) + 1) (gi_seq m)).
  { case_bool_decide; [|exact Hi]. apply keeps_gl; [eff|done]. }
  apply inv_step; [eff|done|]. intros now e1 G1 Hi1. apply inv_step; [eff|done|]. intros prev e2 G2 Hi2.
  assert (Hr2 : groups e2 !! gi_gid m = Some r) by (destruct G1, G2; congruence).
  clear e1 G1 G2 Hi1. set (line := LogRec _ _ _ _ _ _ _ _ _ _).
  unfold mbind at 1, M_bind at 1, attempt at 1. pose proof (append_spec (gi_gid m) line e2) as Ha.
  destruct (append_group_log (gi_gid m) line e2) as [[u|x] e3].
  - do 3 run_modify. apply keeps_gl; [eff|].
    assert (Hseq : lr_seq line = (cursor_of (gr_have r) (node_str from) + 1)%N) by (cbn; lia).
    eapply (inv_received e2 e3 _ _ r line (node_str from) Hi2 Hr2 Ha); done.
  - apply keeps_gl; [eff|]. by eapply inv_gl; [apply core_gl|].
Qed.

(** ** Rosters *)

Lemma keeps_bind {A B} (m : M A) (k : A → M B) : keeps m → (∀ a, keeps (k a)) → keeps (m ≫= k).
Proof.
  intros Hm Hk e Hi. unfold mbind, M_bind. specialize (Hm e Hi). destruct (m e) as [[a|x] e']; cbn in *; auto.
Qed.

(** What follows a step that may add system lines to the log of a group. *)
Lemma inv_note {A B} g (m : M A) (k : A → M B) e :
  Ev (noted g) m → is_Some (groups e !! g) → inv e →
  (∀ a e', groups e' = groups e → inv e' → inv (k a e').2) → inv ((m ≫= k) e).2.
Proof.
  intros Hm Hin Hi Hk. eapply ev_step; [exact Hm| |].
  - intros e' H. by eapply inv_noted.
  - intros a e' H. apply Hk; [by destruct H|]. by eapply inv_noted.
Qed.

Lemma groups_alter_some e g (f : GroupRec → GroupRec) :
  is_Some (groups e !! g) → is_Some (groups (on_groups (alter f g) e) !! g).
Proof.
  unfold groups. cbn. rewrite lookup_alter_eq. by destruct (in_groups (e_inner e) !! g).
Qed.

(** A new record, with an empty log. *)
Lemma inv_insert_new e g st :
  inv e → groups e !! g = None → gs_gid st = g → check st = Ok tt →
  inv (on_groups <[g := GroupRec_new st]> e).
Proof.
  intros Hi Hnone Hg Hc. pose proof (inv_orphans _ Hi _ Hnone) as Hlog. split; [apply Hi| |].
  - intros g' r'. unfold groups. cbn. intros [[<- <-]|[Hne Hr]]%lookup_insert_Some.
    + split; cbn; [done|lia|intros k; unfold cursor_of; rewrite lookup_empty; cbn; lia| |].
      * intros _. change (lrecs _ g) with (lrecs e g). unfold lrecs. by rewrite Hlog.
      * intros _ a. change (lrecs _ g) with (lrecs e g). unfold lrecs. rewrite Hlog.
        unfold cursor_of. by rewrite lookup_empty.
    + by destruct (inv_lookup _ _ _ Hi Hr).
  - intros g'. unfold groups. cbn. intros [Hn ?]%lookup_insert_None. by apply (inv_orphans _ Hi).
Qed.

Lemma sign_same st st' : sign st secret = Ok st' → gs_gid st' = gs_gid st ∧ gs_closed st' = gs_closed st.
Proof. intros (sig & -> & _)%sign_ok_inv. done. Qed.

(** An edit keeps the group's id. *)
Definition edit_ok (edit : P2p → GroupState → result p2p_error GroupState) : Prop :=
  ∀ e st st', edit e st = Ok st' → gs_gid st' = gs_gid st.

#[local] Hint Resolve log_sys_noted : eff.

Lemma edit_group_locked_inv gid left edit :
  edit_ok edit → keeps (edit_group_locked secret gid left edit).
Proof.
  intros Hedit e Hi. unfold edit_group_locked. run_gets.
  destruct (groups e !! gid) as [r|] eqn:Hr; [|exact Hi]. cbv zeta.
  do 2 (run_guard; [|exact Hi]). run_lift; [|exact Hi]. run_lift_group; [|exact Hi].
  rename a0 into st'. run_lift_group; [|exact Hi]. destruct a0. run_modify.
  apply sign_same in Hr1 as [Hgid _].
  destruct (inv_lookup _ _ _ Hi Hr) as [[Hkey _] _ _ _ _].
  set (e1 := on_groups _ e). assert (Hi1 : inv e1).
  { apply inv_alter; [done|]. intros r' Hr'. assert (r' = r) as -> by congruence.
    destruct (inv_lookup _ _ _ Hi Hr) as [_ ? ? _ _]. split_and!; try done.
    cbn. rewrite Hgid. cbn. rewrite (Hedit _ _ _ Hr0). done. }
  assert (Hin : is_Some (groups e1 !! gid)) by (apply groups_alter_some; eauto).
  apply inv_step; [eff|done|]. intros _ e2 [G2 _] Hi2.
  apply (inv_note gid); [eff|by rewrite G2|done|]. intros _ e3 G3 Hi3.
  apply keeps_gl; [eff|done].
Qed.

(** The id the next group would get is not in use. *)
Definition fresh_gid (e : P2p) : Prop := groups e !! env_new_gid (e_tick e) = None.

Lemma group_create_inv name ids e :
  inv e → fresh_gid e → inv (group_create secret name ids e).2.
Proof.
  intros Hi Hfresh. unfold group_create. cbv zeta. run_lift_group; [|exact Hi].
  do 2 (run_guard; [|exact Hi]). run_gets. run_guard; [|exact Hi].
  do 2 (run_lift; [|exact Hi]).
  match goal with |- inv ((next_tick ≫= ?k) e).2 =>
    change (inv (k (e_tick e) (on_e_tick N.succ e)).2) end. cbv beta.
  assert (Hnone : groups (on_e_tick N.succ e) !! env_new_gid (e_tick e) = None) by exact Hfresh.
  assert (Hi1 : inv (on_e_tick N.succ e)) by (by apply (inv_gl e)).
  set (n := e_tick e) in *. set (e1 := on_e_tick N.succ e) in *. clearbody n e1.
  run_lift_group; [|exact Hi1]. run_lift_group; [|exact Hi1]. run_modify.
  set (e2 := on_groups _ e1). assert (Hi2 : inv e2).
  { apply inv_insert_new; [done..| |match goal with u : () |- _ => by destruct u end]. apply sign_same in Hr2 as [-> _]. done. }
  assert (Hin : is_Some (groups e2 !! env_new_gid n)).
  { unfold groups, e2. cbn. rewrite lookup_insert_eq. eauto. }
  apply inv_step; [eff|done|]. intros _ e3 [G3 _] Hi3.
  apply (inv_note (env_new_gid n)); [eff|by rewrite G3|done|]. intros _ e4 G4 Hi4.
  apply keeps_gl; [eff|done].
Qed.

Lemma group_leave_inv gid : keeps (group_leave secret gid).
Proof.
  intros e Hi. unfold group_leave. run_gets. destruct (groups e !! gid) as [r|] eqn:Hr; [|exact Hi].
  run_guard; [|exact Hi]. run_modify. set (e1 := on_groups _ e). assert (Hi1 : inv e1).
  { apply inv_alter; [done|]. intros r' Hr'.
    destruct (inv_lookup _ _ _ Hi Hr') as [[? ?] ? ? _ _]. by split_and!. }
  assert (Hin : is_Some (groups e1 !! gid)) by (apply groups_alter_some; eauto).
  apply inv_step; [eff|done|]. intros _ e2 [G2 _] Hi2.
  apply (inv_note gid); [eff|by rewrite G2|done|]. intros _ e3 G3 Hi3.
  apply keeps_gl; [eff|done].
Qed.

Lemma inv_delete e g : inv e → inv (on_logs (delete g) (on_groups (delete g) e)).
Proof.
  intros Hi. split.
  - intros g' f. unfold logs. cbn. intros [_ Hf]%lookup_delete_Some. by apply (inv_logs _ Hi) in Hf.
  - intros g' r. unfold groups. cbn. intros [Hne Hr]%lookup_delete_Some.
    destruct (inv_lookup _ _ _ Hi Hr) as [? ? ? Hm Hb]. unfold lrecs, logs in *.
    split; try done; unfold lrecs, logs; cbn; by rewrite lookup_delete_ne.
  - intros g'. unfold groups, logs. cbn. intros Hnone. destruct (decide (g' = g)) as [->|].
    + by rewrite lookup_delete_eq.
    + rewrite lookup_delete_ne in Hnone by done. rewrite lookup_delete_ne by done.
      by apply (inv_orphans _ Hi).
Qed.

Lemma purge_group_inv gid : keeps (purge_group secret blobs_dir gid).
Proof.
  intros e Hi. unfold purge_group, delete_log. do 2 run_modify. apply keeps_gl; [eff|by apply inv_delete].
Qed.

(** A hidden record keeps no log. *)
Lemma inv_hide e g r :
  inv e → groups e !! g = Some r →
  inv (on_logs (delete g) (on_groups (alter (on_gr_hidden (λ _, true)) g) e)).
Proof.
  intros Hi Hr. split.
  - intros g' f. unfold logs. cbn. intros [_ Hf]%lookup_delete_Some. by apply (inv_logs _ Hi) in Hf.
  - intros g' r'. unfold groups. cbn. intros [(<- & r1 & Hr1 & ->)|[Hne Hr1]]%lookup_alter_Some.
    + by destruct (inv_lookup _ _ _ Hi Hr1).
    + destruct (inv_lookup _ _ _ Hi Hr1) as [? ? ? Hm Hb]. unfold lrecs, logs in *.
      split; try done; unfold lrecs, logs; cbn; by rewrite lookup_delete_ne.
  - intros g'. unfold groups, logs. cbn. intros Hnone. destruct (decide (g' = g)) as [->|].
    + by rewrite lookup_delete_eq.
    + rewrite lookup_delete_ne by done. rewrite lookup_alter_ne in Hnone by done.
      by apply (inv_orphans _ Hi).
Qed.

Lemma group_delete_inv gid : keeps (group_delete secret blobs_dir gid).
Proof.
  intros e Hi. unfold group_delete. run_gets. destruct (groups e !! gid) as [r|] eqn:Hr; [|exact Hi].
  run_guard; [|exact Hi]. destruct (gr_pending_leave r); [|by apply purge_group_inv].
  unfold delete_log. do 2 run_modify. apply keeps_gl; [eff|by eapply inv_hide].
Qed.

Lemma finish_apply_inv gid epoch sys removed mk e :
  inv e → is_Some (groups e !! gid) → inv (finish_apply secret blobs_dir gid epoch sys removed mk e).2.
Proof.
  intros Hi Hin. unfold finish_apply. apply inv_step; [eff|done|]. intros _ e2 [G2 _] Hi2.
  apply (inv_note gid); [eff|by rewrite G2|done|]. intros _ e3 G3 Hi3. run_gets.
  destruct (from_option _ _ _).
  - apply (keeps_bind (purge_group secret blobs_dir gid)); [apply purge_group_inv|intros _ e4 H; exact H|done].
  - apply keeps_gl; [eff|done].
Qed.

Lemma apply_state_inv st from : keeps (apply_state secret blobs_dir st from).
Proof.
  intros e Hi. unfold apply_state. run_gets. cbv zeta. run_lift_group; [|exact Hi].
  unfold evaluate_incoming in Hr. apply bind_ok in Hr as ([] & Hc & Hv).
  destruct a as [| |rm]; [exact Hi|..].
  - destruct (groups e !! gs_gid st) as [r|] eqn:Hr.
    { case_bool_decide; [done|]. by destruct (_ <=? _)%N. }
    do 2 (run_guard; [|exact Hi]). run_modify. apply finish_apply_inv.
    + by apply inv_insert_new.
    + unfold groups. cbn. rewrite lookup_insert_eq. eauto.
  - destruct (groups e !! gs_gid st) as [r|] eqn:Hr; [|exact Hi].
    run_guard; [|exact Hi]. run_modify. run_gets.
    apply finish_apply_inv; [|unfold groups; cbn; rewrite lookup_insert_eq; eauto].
    rewrite on_groups_insert by done.
    apply inv_alter; [done|]. intros r' Hr'. assert (r' = r) as -> by congruence.
    destruct (inv_lookup _ _ _ Hi Hr) as [_ ? ? _ _]. by split_and!.
Qed.

Lemma on_group_leave_inv from gid : keeps (on_group_leave secret from gid).
Proof.
  intros e Hi. unfold on_group_leave. run_gets. destruct (groups e !! gid) as [r|]; [|exact Hi].
  destruct (_ && _); [|exact Hi].
  apply (keeps_bind (attempt _)); [|intros ? e' ?; apply keeps_gl; [eff|done]|done].
  intros e' Hi'. unfold attempt.
  pose proof (edit_group_locked_inv gid true (λ _ st, Ok (drop_member st (node_str from)))
    ltac:(by intros ??? [= <-]) e' Hi') as H.
  by destruct (edit_group_locked _ _ _ _ e').
Qed.

Lemma on_group_file_end_inv from gid id : keeps (on_group_file_end secret from gid id).
Proof.
  intros e Hi. unfold on_group_file_end. run_gets. destruct (e_rx_files e !! (from, id)) as [t|]; [|exact Hi].
  case_bool_decide; [exact Hi|]. run_modify.
  match goal with |- context [on_rx ?f e] => assert (Hi0 : inv (on_rx f e)) by (by apply (inv_gl e));
    set (e0 := on_rx f e) in * end.
  destruct (negb _); [apply keeps_gl; [eff|done]|].
  apply inv_step; [eff|done|]. intros stamp e1 G1 Hi1. run_gets. cbv zeta.
  apply inv_step; [eff|done|]. intros ok e2 G2 Hi2. destruct (negb ok); [apply keeps_gl; [eff|done]|].
  run_gets. destruct (groups e2 !! gid) as [r|] eqn:Hr; cbn [from_option negb];
    [|apply keeps_gl; [eff|done]].
  destruct (negb _); [apply keeps_gl; [eff|done]|].
  apply inv_step; [eff|done|]. intros now e3 G3 Hi3. apply inv_step; [eff|done|]. intros prev e4 G4 Hi4.
  apply (inv_note gid).
  - apply ev_attempt. by apply append_noted.
  - destruct G3, G4. exists r. congruence.
  - done.
  - intros res e5 G5 Hi5. apply keeps_gl; [eff|done].
Qed.

End GroupInv.
