(* ===== verification/Ops.v ===== *)
(** * The engine as a transition system ([p2p.rs])

    Every way into the engine is an operation: the commands of the user
    interface, the frames of a session, the beginning and end of sessions, the
    timers, and a restart from what is on disk.  A run is a sequence of them. *)

From stdpp Require Import relations.
From S2P Require Import Prelude Str Net Groups Frames Engine Delivery Rosters GroupWire Chat Files Media.

Section Ops.
Context {P : Platform} {SD : Serde} {En : Env} {CT : CharTable} {B64 : Base64}.
Context (secret : secret_key) (blobs_dir : str).
Local Abbreviation me_str := (me_str secret).

(** ** Restart *)

Definition load_peer (e : P2p) (ps : gmap node_id Peer) (pp : PersistedPeer) : gmap node_id Peer :=
  match node_parse (pp_node_id pp) with
  | None => ps
  | Some node =>
      let msgs := load_messages e node in
      <[node := MkPeer Paired (pp_name pp) (omap parse_addr (pp_addrs pp)) (pp_proto pp) [] false
                  (queued_from msgs) msgs]> ps
  end.

(** The log is the truth for counters. *)
Definition repair (scan : LogScan) (r : GroupRec) : GroupRec :=
  on_gr_have (λ h, union_with (λ a b, Some (N.max a b)) h (ls_in_max scan))
    (on_gr_next_seq (λ n, N.max n (wadd64 (ls_own_max scan) 1)) r).

Definition repair_all (e : P2p) : gmap str GroupRec → gmap str GroupRec :=
  map_imap (λ gid r, Some (repair (scan_log (log_of e gid) me_str) r)).

(** The memory of a new process over the disk of [e]; its sessions are gone. *)
Definition reload (e : P2p) : P2p :=
  let '(gs, d) := load_groups (dk_groups (e_disk e)) in
  let gs := repair_all e gs in
  let ps := rebuild_introduced secret (foldl (load_peer e) ∅ (dk_peers (e_disk e))) gs in
  MkP2p
    (MkInner (default [] (dk_profile (e_disk e))) [] ps ∅ ∅ gs (MkGroupRt ∅ ∅ ∅ ∅ ∅ ∅))
    ∅ ∅ 1 ((λ c, MkChan false (ch_sent c)) <$> e_chans e) ∅
    (on_dk_groups (λ _, d) (e_disk e)) (e_dials e) (e_events e) (e_tick e) [] [].

(** [start_with_alpns] *)
Definition start : M unit :=
  _ ← modify reload;
  token ← random_id;
  _ ← modify (on_e_inner (on_in_token (λ _, token)));
  e ← gets (λ x, x);
  let pending := fst <$> filter (λ '(_, p), p_queued p ≠ []) (map_to_list (peers e)) in
  _ ← for_each pending trigger_connect;
  trigger_group_dials secret.

(** [maintenance_loop], one round. *)
Definition maintain : M unit :=
  e ← gets (λ x, x);
  for_each (fst <$> filter (λ '(_, p), online p = false) (map_to_list (peers e))) trigger_connect.

(** ** Operations *)

Inductive Op :=
| OStart | OMaintain
| OSetName (name : str)
| OCreateInvite
| OHello (expected : str) (node : node_id) (token name : str)
| OApprove (node : node_id) (accept : bool)
| OPaired (node : node_id) (name : str) (addrs : list str) (proto : N)
| OPair (node : node_id) (addrs : list socket_addr) (hint inviter : str) (proto : N)
| OHear (b : Beacon) (from : socket_addr)
| ORemovePeer (node : node_id)
| ODialed (node : node_id) (proto : N)
| OAccepted (node : node_id) (proto : N)
| OEnd (node : node_id) (tx handle : N)
| OFrame (from : node_id) (f : Frame) (tx : N)
| OSend (node : node_id) (text : str) (reply_to reply_text : option str)
| OSendFile (node : node_id) (src name caption : str)
| ORetry (node : node_id)
| OTyping (node : node_id) (on : bool)
| OGroupCreate (name : str) (ids : list str)
| OGroupAdd (gid node : str) | OGroupRemove (gid node : str)
| OGroupRename (gid name : str) | OGroupDisband (gid : str)
| OGroupLeave (gid : str) | OGroupDelete (gid : str)
| OGroupSend (gid text : str) (reply_to reply_text : option str)
| OGroupTyping (gid : str) (on : bool)
| OGroupSendFile (gid src name caption : str)
| OGroupFileRetry (gid id : str) (node : node_id)
| OWrote (node : node_id) (id : str) (n : N)
| OWroteEnd (node : node_id) (id : str)
| OWriteRow (k : nat) | OFinishBegin (k : nat).

Definition ignore {A} (m : M A) : M unit := _ ← m; mret tt.

Definition run (o : Op) : M unit :=
  match o with
  | OStart => start
  | OMaintain => maintain
  | OSetName name => set_name name
  | OCreateInvite => ignore create_invite
  | OHello expected node token name => ignore (incoming_hello expected node token name)
  | OApprove node accept => approve_pair node accept
  | OPaired node name addrs proto => ignore (pair_accepted secret node name addrs proto)
  | OPair node addrs hint inviter proto => ignore (pair_connect secret node addrs hint inviter proto)
  | OHear b from => hear_beacon secret b from
  | ORemovePeer node => remove_peer secret blobs_dir node
  | ODialed node proto => ignore (serve_dialed secret node proto)
  | OAccepted node proto => ignore (serve_accepted secret node proto)
  | OEnd node tx handle => end_session node tx handle
  | OFrame from f tx => session_frame secret blobs_dir from f tx
  | OSend node text rt rx => ignore (send_text node text rt rx)
  | OSendFile node src name caption => ignore (send_file blobs_dir node src name caption)
  | ORetry node => trigger_connect node
  | OTyping node on => ignore (typing_peer node on)
  | OGroupCreate name ids => ignore (group_create secret name ids)
  | OGroupAdd gid node => ignore (group_add secret gid node)
  | OGroupRemove gid node => ignore (group_remove secret gid node)
  | OGroupRename gid name => ignore (group_rename secret gid name)
  | OGroupDisband gid => ignore (group_disband secret gid)
  | OGroupLeave gid => ignore (group_leave secret gid)
  | OGroupDelete gid => group_delete secret blobs_dir gid
  | OGroupSend gid text rt rx => ignore (group_send secret gid text rt rx)
  | OGroupTyping gid on => ignore (typing_group secret gid on)
  | OGroupSendFile gid src name caption => ignore (group_send_file secret blobs_dir gid src name caption)
  | OGroupFileRetry gid id node => group_file_retry gid id node
  | OWrote node id n => group_file_wrote node id n
  | OWroteEnd node id => group_file_done node id
  | OWriteRow k => write_row k
  | OFinishBegin k => finish_begin k
  end.

(** A device where the app was never started. *)
Definition blank : P2p :=
  MkP2p (MkInner [] [] ∅ ∅ ∅ ∅ (MkGroupRt ∅ ∅ ∅ ∅ ∅ ∅)) ∅ ∅ 1 ∅ ∅
    (MkDisk (GroupsDir None None None) ∅ ∅ [] None ∅) [] [] 0 [] [].

(** The state after a sequence of operations. *)
Definition runs (e : P2p) (os : list Op) : P2p := foldl (λ e o, (run o e).2) e os.

End Ops.
