(* ===== verification/Scene.v ===== *)
(** * Two devices, concretely

    An environment and two engines, Alice's and Bob's, to run the model on: they
    pair, Alice creates a group, writes to it, and Bob reads. *)

From S2P Require Import Prelude Str Net Groups Frames Engine Delivery Rosters GroupWire Chat Files Media Effects Ops.

Module Scene.
Import ToyNet ToySerde.

#[export] Instance chars : CharTable := λ c, ((48 <=? c) && (c <=? 57) || (97 <=? c) && (c <=? 122))%N.
#[export] Instance base64 : Base64 := {| base64_encode b := b; base64_decode b := Some b |}.

(** Every system call succeeds; the clock advances by one. *)
Definition env (salt : N) : Env := {|
  env_now n := (1000 + n)%N;
  env_instant n := (1000 + n)%N;
  env_random_id n := hex_encode [salt; n]%N;
  env_new_gid n := hex_encode (replicate 14 0 ++ [salt; n])%N;
  env_append _ := AppWhole;
  env_row _ := RowWhole;
  env_save _ := SaveOutcome None true;
  env_write_ok _ := true
|}.

#[export] Instance env_whole salt : WholeAppends (En := env salt).
Proof. intros n k. discriminate. Qed.
#[export] Instance env_rows salt : WholeRows (En := env salt).
Proof. by intros n. Qed.

Definition alice : secret_key := 5%N.
Definition bob : secret_key := 7%N.
Definition alice_id : node_id := Net.public alice.
Definition bob_id : node_id := Net.public bob.
Definition blobs : str := lit "/blobs".

Abbreviation run_alice := (runs (En := env 1) alice blobs).
Abbreviation run_bob := (runs (En := env 2) bob blobs).

(** Frames the other device put on its first session, after the first [n]. *)
Definition from_alice (e : P2p) (n : nat) : list Op := (λ f, OFrame alice_id f 0) <$> drop n (sent_on e 0).
Definition from_bob (e : P2p) (n : nat) : list Op := (λ f, OFrame bob_id f 0) <$> drop n (sent_on e 0).

(** They pair, and Alice creates a group with Bob. *)
Definition alice_start : list Op :=
  [OStart; OPaired bob_id "Bob" [] 2; OFrame bob_id (GroupCaps 5) 0; OGroupCreate "walk" [node_str bob_id]].
Definition bob_start : list Op := [OStart; OPaired alice_id "Alice" [] 2].
Definition alice0 : P2p := run_alice blank alice_start.
Definition bob0 : P2p := run_bob blank bob_start.
Definition gid : str := hex_encode (replicate 14 0 ++ [1; 3])%N.
Definition bob1 : P2p := run_bob bob0 (from_alice alice0 0).
(** Bob's answer opens the link; Alice writes twice. *)
Definition alice1 : P2p := run_alice alice0 (from_bob bob1 0).
Definition hello : list Op := [OGroupSend gid "hello" None None; OGroupSend gid "again" None None].
Definition alice2 : P2p := run_alice alice1 hello.
Definition bob2 : P2p := run_bob bob1 (from_alice alice2 (length (sent_on alice1 0))).
(** Bob goes offline and Alice writes to him; his return. *)
Definition gone : list Op := [OEnd bob_id 0 1; OSend bob_id "first" None None; OSend bob_id "second" None None].
Definition alice_waits : P2p := run_alice alice0 gone.
Definition alice_met : P2p := run_alice alice_waits [ODialed bob_id 2].

(** Bob sends a file, and announces another. *)
Definition sends (id name : str) : list Op :=
  [OFrame bob_id (FileBegin id 5 name 3 "text/plain" []) 0; OFinishBegin 0; OFrame bob_id (FileChunk id "abc") 0;
   OFrame bob_id (FileEnd id) 0].
Definition alice_got : P2p :=
  run_alice alice0 (sends "f1" "../notes.txt" ++
    [OFrame bob_id (FileBegin "f2" 6 "notes.txt" 9 "text/plain" []) 0; OFinishBegin 0]).
Definition notes : str := join (join blobs (node_str bob_id)) "notes.txt".
(** The name of one file is that of another's partial file. *)
Definition alice_clash : P2p := run_alice alice0 (sends "f1" "partial-f2" ++ [OWriteRow 0]).
(** Two of Bob's sessions begin a file each while two files are under way. *)
Definition begin_ (id : str) : Op := OFrame bob_id (FileBegin id 5 "a.txt" 3 "text/plain" []) 0.
Definition alice_raced : P2p :=
  run_alice alice0 [begin_ "f1"; OFinishBegin 0; begin_ "f2"; OFinishBegin 0;
    begin_ "f3"; begin_ "f4"; OFinishBegin 0; OFinishBegin 0].

Lemma digit_inj d d' : digit d = digit d' → d = d'.
Proof. unfold digit. destruct (N.ltb_spec d 10), (N.ltb_spec d' 10); lia. Qed.
Lemma env_fresh salt m n : @env_random_id (env salt) m = @env_random_id (env salt) n → m = n.
Proof.
  intros H. injection H as H1%digit_inj H2%digit_inj.
  rewrite (N.div_mod m 16), (N.div_mod n 16) by lia. congruence.
Qed.

(** The same device when the disk stops taking [groups.json] after the group
    was made. *)
Definition flaky : Env :=
  let ok := env 1 in {|
  env_now := @env_now ok; env_instant := @env_instant ok; env_random_id := @env_random_id ok;
  env_new_gid := @env_new_gid ok; env_append := @env_append ok; env_row := @env_row ok; env_write_ok := @env_write_ok ok;
  env_save n := if (n <? e_tick alice1)%N then SaveOutcome None true else SaveOutcome (Some 0) true
|}.
#[export] Instance flaky_whole : WholeAppends (En := flaky).
Proof. intros n k. discriminate. Qed.
Definition flaky_alice : P2p :=
  runs (En := flaky) alice blobs blank (alice_start ++ from_bob bob1 0 ++ hello).

(** The same device when the disk is full for the first message of the group:
    its line is cut after five bytes. *)
Definition full : Env :=
  let ok := env 1 in {|
  env_now := @env_now ok; env_instant := @env_instant ok; env_random_id := @env_random_id ok;
  env_new_gid := @env_new_gid ok; env_save := @env_save ok; env_row := @env_row ok; env_write_ok := @env_write_ok ok;
  env_append n := if ((e_tick alice1 <=? n) && (n <? e_tick alice1 + 3))%N then AppTorn 5 else AppWhole
|}.
Definition full_alice : P2p := runs (En := full) alice blobs alice1 hello.
End Scene.
