(* ===== verification/Safety.v ===== *)
(** * Every operation keeps the invariant

    The media operations only add unnumbered lines; the rest follows operation
    by operation.  A restart re-establishes the invariant from the disk when the
    last save went through, and in any case recovers the counters from the
    logs. *)

From stdpp Require Import relations.
From S2P Require Import Prelude Str Net Groups Frames Engine Delivery Rosters GroupWire Chat Files Media Effects GroupInv Ops Scene.

Section Safety.
Context {P : Platform} {L : PlatformLaws} {SD : Serde} {SL : SerdeLaws} {En : Env}.
Context {CT : CharTable} {B64 : Base64}.
Context {WA : WholeAppends} (secret : secret_key) (blobs_dir : str).
Local Abbreviation me_str := (me_str secret).
Local Abbreviation inv := (inv secret).
Local Abbreviation keeps m := (∀ e, inv e → inv (m e).2) (only parsing).

#[local] Hint Resolve ev_quiet_noted ev_core_gl ev_core_quiet ev_quiet_gl
  emit_core now_ms_core group_last_ts_core remove_file_core warn_core rename_file_core
  send_gl send__gl persist_groups_core warn_on_error_core groups_changed_core
  announce_state_quiet trigger_connect_core random_id_core next_tick_core delete_group_blobs_core
  sync_introduced_core set_connecting_core persist_peers_core persist_messages_core write_row_core finish_begin_core
  trigger_group_dials_core drop_group_inbound_core typing_gate_core
  set_name_core hear_beacon_core create_invite_core incoming_hello_core approve_pair_core
  pair_accepted_quiet pair_connect_quiet serve_dialed_quiet serve_accepted_quiet remove_live_core
  send_text_quiet typing_peer_quiet typing_group_quiet on_msg_quiet on_typing_core on_ack_core
  on_file_begin_core on_file_chunk_core on_file_end_quiet on_group_file_begin_core
  on_group_file_chunk_core : eff.

(** ** Media *)

Lemma stream_chunks_quiet tx gid id size total cs : Ev quiet (stream_chunks tx gid id size total cs).
Proof.
  revert total. induction cs as [|c cs IH]; intros total; cbn [stream_chunks]; [eff|].
  destruct (_ <? _)%N; [eff|]. apply ev_bind; [typeclasses eauto|by apply send_quiet|].
  intros []; [apply IH|eff].
Qed.
Lemma send_all_quiet tx fs : Forall (λ f, is_msg f = false) fs → Ev quiet (send_all tx fs).
Proof.
  intros H. induction H as [|f fs Hf _ IH]; cbn [send_all]; [eff|].
  apply ev_bind; [typeclasses eauto|by apply send_quiet|]. intros []; [apply IH|eff].
Qed.
Lemma group_file_set_core id member state sent : Ev core (group_file_set id member state sent).
Proof. unfold group_file_set, emit_group_file. eff. Qed.
#[local] Hint Resolve stream_chunks_quiet group_file_set_core : eff.
#[local] Hint Extern 1 (Ev quiet (send _ _)) => apply send_quiet; reflexivity : eff.
#[local] Hint Extern 1 (Ev quiet (send_ _ _)) => apply send__quiet; reflexivity : eff.
Lemma group_file_wrote_core node id n : Ev core (group_file_wrote node id n).
Proof. unfold group_file_wrote, emit_group_file. eff. Qed.
Lemma group_file_done_core node id : Ev core (group_file_done node id).
Proof. unfold group_file_done. eff. Qed.
Lemma group_files_failed_core node handle : Ev core (group_files_failed node handle).
Proof. unfold group_files_failed. eff. Qed.
Lemma close_quiet tx : Ev quiet (modify (on_e_chans (alter (λ c, MkChan false (ch_sent c)) tx))).
Proof.
  apply ev_modify. intros e. split_and!; [done..|]. intros tx'. exists []. split; [|constructor].
  rewrite app_nil_r. unfold sent_on. cbn. destruct (decide (tx = tx')) as [->|].
  - rewrite lookup_alter_eq. by destruct (e_chans e !! tx').
  - by rewrite lookup_alter_ne.
Qed.
Lemma end_session_quiet node tx handle : Ev quiet (end_session node tx handle).
Proof.
  unfold end_session.
  apply ev_bind; [typeclasses eauto|apply ev_core_quiet, group_files_failed_core|intros _].
  apply ev_bind; [typeclasses eauto|apply ev_core_quiet, (remove_live_core secret)|intros _]. apply close_quiet.
Qed.
#[local] Hint Resolve end_session_quiet : eff.
Lemma stream_group_file_quiet gid id member link : Ev quiet (stream_group_file gid id member link).
Proof. unfold stream_group_file. eff. Qed.
#[local] Hint Resolve stream_group_file_quiet group_file_wrote_core group_file_done_core
  group_files_failed_core : eff.
Lemma group_file_retry_quiet gid id node : Ev quiet (group_file_retry gid id node).
Proof. unfold group_file_retry, emit_group_file. eff. Qed.
Lemma group_send_file_noted gid src name caption :
  Ev (noted gid) (group_send_file secret blobs_dir gid src name caption).
Proof.
  unfold group_send_file.
  repeat first
    [ match goal with |- Ev (noted _) (modify _) => apply ev_quiet_noted, ev_core_quiet end
    | match goal with |- Ev (noted _) (append_group_log _ _) => by apply append_noted end
    | eff_step ].
Qed.

Lemma send_file_quiet node src name caption : Ev quiet (send_file blobs_dir node src name caption).
Proof.
  unfold send_file, require_paired.
  repeat first
    [ match goal with |- Ev quiet (send_all _ _) => apply send_all_quiet; constructor; [done|];
        apply Forall_app; split; [apply Forall_fmap, Forall_true; by intros|by repeat constructor] end
    | eff_step ].
Qed.

(** ** Frames *)

Lemma keeps_attempt {A} (m : M A) : keeps m → keeps (attempt m).
Proof. intros H e Hi. unfold attempt. specialize (H e Hi). by destruct (m e). Qed.

Lemma handle_group_frame_inv from f tx e :
  inv e → room e → inv (handle_group_frame secret blobs_dir from f tx e).2.
Proof.
  intros Hi Hroom. unfold handle_group_frame. run_gets. destruct (_ <? _)%N; [exact Hi|].
  destruct f; try exact Hi.
  - apply (keeps_bind secret (attempt _)); [|intros ? e' ?; apply keeps_gl; [eff|done]|done].
    by apply keeps_attempt, apply_state_inv.
  - by apply on_group_sync_inv.
  - by apply on_group_msg_inv.
  - by apply on_group_ack_inv.
  - by apply on_group_leave_inv.
  - apply keeps_gl; [eff|done].
  - apply keeps_gl; [eff|done].
  - apply keeps_gl; [eff|done].
Qed.

Lemma on_group_file_inv from f tx : keeps (on_group_file secret blobs_dir from f tx).
Proof.
  intros e Hi. unfold on_group_file. run_gets. cbv zeta.
  destruct f; try exact Hi; case_match.
  all: try (by apply on_group_file_end_inv).
  all: apply keeps_gl; [eff|done].
Qed.

Lemma handle_frame_inv from f tx e :
  inv e → room e → inv (handle_frame secret blobs_dir from f tx e).2.
Proof.
  intros Hi Hroom. unfold handle_frame. run_gets. destruct (_ && _); [exact Hi|].
  destruct (is_group_file f); [by apply on_group_file_inv|].
  destruct (is_group f); [by apply handle_group_frame_inv|].
  destruct f; try exact Hi; try (apply keeps_gl; [eff|done]).
Qed.

(** ** Operations *)

Lemma remove_peer_inv node : keeps (remove_peer secret blobs_dir node).
Proof.
  unfold remove_peer. cbv zeta. do 6 (apply keeps_bind; [apply keeps_gl; eff|intros ?]).
  apply keeps_bind; [|intros ?; apply keeps_gl; eff].
  match goal with |- context [for_each ?l _] => generalize l as gs end.
  intros gs. induction gs as [|g gs IH]; [by intros e Hi|]. cbn [for_each].
  apply keeps_bind; [apply purge_group_inv|intros _; apply IH].
Qed.

Lemma group_edits_inv gid x :
  keeps (group_add secret gid x) ∧ keeps (group_remove secret gid x) ∧
  keeps (group_rename secret gid x) ∧ keeps (group_disband secret gid).
Proof.
  split_and!.
  - unfold group_add. apply keeps_bind; [apply keeps_gl; eff|intros id].
    apply edit_group_locked_inv. intros e st st'. repeat (case_match; [done|]).
    intros ([] & _ & ([] & _ & [= <-])%bind_ok)%bind_ok || intros (m & _ & ([] & _ & [= <-])%bind_ok)%bind_ok.
    done.
  - unfold group_remove. apply keeps_bind; [apply keeps_gl; eff|intros id].
    apply edit_group_locked_inv. intros e st st'. repeat case_match; by intros [= <-].
  - unfold group_rename. cbv zeta. apply keeps_bind; [apply keeps_gl; eff|intros id].
    apply edit_group_locked_inv. by intros e st st' [= <-].
  - apply edit_group_locked_inv. by intros e st st' [= <-].
Qed.

Lemma maintain_core : Ev core maintain.
Proof. unfold maintain. eff. Qed.
#[local] Hint Resolve maintain_core group_file_retry_quiet send_file_quiet : eff.

Lemma group_send_file_inv gid src name caption :
  keeps (group_send_file secret blobs_dir gid src name caption).
Proof.
  intros e Hi. destruct (groups e !! gid) as [r|] eqn:Hr.
  - eapply (inv_noted secret gid); [by eexists|by apply group_send_file_noted|done].
  - unfold group_send_file. run_guard; [|exact Hi]. run_gets. unfold group_file_targets. rewrite Hr. exact Hi.
Qed.

Lemma session_frame_inv from f tx e :
  inv e → room e → inv (session_frame secret blobs_dir from f tx e).2.
Proof.
  intros Hi Hroom. unfold session_frame, mbind, M_bind.
  pose proof (handle_frame_inv from f tx e Hi Hroom).
  destruct (handle_frame _ _ _ _ _ e) as [[?|?] e']; [|done].
  destruct f; try done. apply keeps_gl; [eff|done].
Qed.

Lemma run_inv o e :
  o ≠ OStart → inv e → room e → fresh_gid e → inv (run secret blobs_dir o e).2.
Proof.
  intros Ho Hi Hroom Hfresh.
  assert (Hig : ∀ A (m : M A), inv (m e).2 → inv (ignore m e).2).
  { intros A m. unfold ignore, mbind, M_bind. by destruct (m e) as [[?|?] ?]. }
  destruct o; cbn [run]; try done; try apply Hig; try solve [apply keeps_gl; [eff|done]].
  - by apply remove_peer_inv.
  - by apply session_frame_inv.
  - by apply group_create_inv.
  - by apply group_edits_inv.
  - by apply group_edits_inv.
  - by apply group_edits_inv.
  - by apply (group_edits_inv gid []).
  - by apply group_leave_inv.
  - by apply group_delete_inv.
  - by apply group_send_inv.
  - by apply group_send_file_inv.
Qed.

(** ** Restart *)

Lemma max_over_filter p f (Q : GroupLogRec → Prop) `{!∀ r, Decision (Q r)} l :
  (∀ r, Q r ↔ p r = true ∧ f r ≠ 0%N) →
  max_over p f l = foldl N.max 0%N (f <$> filter Q l).
Proof.
  intros HQ. unfold max_over. generalize 0%N as n. induction l as [|r l IH]; intros n; [done|]. cbn [foldl].
  rewrite IH. destruct (decide (Q r)) as [Hq|Hq].
  - rewrite filter_cons_True by done. cbn. apply HQ in Hq as [-> _]. done.
  - rewrite filter_cons_False by done. f_equal. destruct (p r) eqn:Hp; [|done].
    assert (f r = 0%N) as ->; [|lia]. destruct (N.eq_dec (f r) 0); [done|]. exfalso. by apply Hq, HQ.
Qed.

Lemma max_upto n : foldl N.max 0%N (upto n) = n.
Proof.
  induction n as [|n IH] using N.peano_ind; [done|]. rewrite <- N.add_1_r, upto_succ, foldl_app, IH. cbn. lia.
Qed.

(** What a scan of the log finds are the counters. *)
Lemma scan_counters e g r :
  inv e → groups e !! g = Some r → gr_hidden r = false →
  let scan := scan_log (log_of e g) me_str in
  ls_own_max scan = (gr_next_seq r - 1)%N ∧
  ∀ a, cursor_of (ls_in_max scan) a = cursor_of (gr_have r) a.
Proof.
  intros Hi Hr Hh. destruct (inv_lookup _ _ _ _ Hi Hr) as [_ _ _ Hm Hb].
  destruct (scan_log_spec (log_of e g) me_str) as (Ho & Hin & _). cbn zeta. split.
  - rewrite Ho, (max_over_filter _ _ (mine secret)).
    + change (foldl N.max 0%N (my_seqs secret (lrecs e g)) = (gr_next_seq r - 1)%N).
      rewrite Hm by done. apply max_upto.
    + intros r'. unfold mine, is_own. rewrite andb_true_iff, !bool_decide_eq_true. tauto.
  - intros a. unfold cursor_of at 1. rewrite Hin, (max_over_filter _ _ (by_ a)).
    + change (foldl N.max 0%N (seqs_by a (lrecs e g)) = cursor_of (gr_have r) a).
      rewrite Hb by done. apply max_upto.
    + intros r'. unfold by_, is_from, is_own. rewrite !andb_true_iff, negb_true_iff, andb_false_iff.
      rewrite !bool_decide_eq_true, !bool_decide_eq_false. split; [|tauto].
      intros (-> & <- & ?). split_and!; try done. by right.
Qed.

Lemma cursor_union_max (m1 m2 : gmap str N) a :
  cursor_of (union_with (λ a b, Some (N.max a b)) m1 m2) a = N.max (cursor_of m1 a) (cursor_of m2 a).
Proof. unfold cursor_of. rewrite lookup_union_with. destruct (m1 !! a), (m2 !! a); cbn; lia. Qed.

Lemma start_groups e :
  groups (start secret e).2 = repair_all secret e (load_groups (dk_groups (e_disk e))).1 ∧
  logs (start secret e).2 = logs e.
Proof.
  unfold start. run_modify.
  assert (Hr : groups (reload secret e) = repair_all secret e (load_groups (dk_groups (e_disk e))).1 ∧
               logs (reload secret e) = logs e).
  { unfold reload, groups, logs. by destruct (load_groups _). }
  match goal with |- context [(?m ≫= ?k) ?e'] => set (rest := m ≫= k) end.
  assert (Hc : Ev core rest) by (unfold rest; eff).
  destruct (Hc (reload secret e)) as (Hg & Hl & _), Hr. split; [congruence|]. by rewrite Hl.
Qed.

Lemma lookup_repair_all e m g : repair_all secret e m !! g = repair (scan_log (log_of e g) me_str) <$> m !! g.
Proof. unfold repair_all. rewrite map_lookup_imap. by destruct (m !! g). Qed.

(** [groups.json] holds what is in memory (as after a successful save of at
    most 16 groups). *)
Definition saved (e : P2p) : Prop := (load_groups (dk_groups (e_disk e))).1 = groups e.

Lemma repair_counters e g r :
  inv e → room e → groups e !! g = Some r → gr_hidden r = false →
  let r' := repair (scan_log (log_of e g) me_str) r in
  gr_next_seq r' = gr_next_seq r ∧ ∀ a, cursor_of (gr_have r') a = cursor_of (gr_have r) a.
Proof.
  intros Hi Hroom Hr Hh. destruct (scan_counters _ _ _ Hi Hr Hh) as [Ho Hin].
  destruct (Hroom _ _ Hr) as [Hb _]. destruct (inv_lookup _ _ _ _ Hi Hr) as [_ Hn _ _ _].
  unfold repair. cbn. rewrite Ho, wadd64_small by (unfold GROUP_WINDOW in Hb; lia). split; [lia|].
  intros a. rewrite cursor_union_max, Hin. lia.
Qed.

Lemma start_inv e : inv e → room e → saved e → inv (start secret e).2.
Proof.
  intros Hi Hroom Hs. destruct (start_groups e) as [Hg Hl]. rewrite Hs in Hg. split.
  - unfold logs_ok. rewrite Hl. apply Hi.
  - intros g r'. rewrite Hg, lookup_repair_all. intros (r & Hr & ->)%fmap_Some.
    pose proof (inv_lookup _ _ _ _ Hi Hr) as [? ? Hsent Hm Hb].
    split; cbn [repair on_gr_have on_gr_next_seq gr_state gr_sent_cursor gr_hidden]; try done.
    + cbn. lia.
    + intros k. specialize (Hsent k). cbn. lia.
    + intros Hh. destruct (repair_counters e g r) as [Hn _]; [done..|].
      fold (repair (scan_log (log_of e g) me_str) r). unfold lrecs. rewrite Hl.
      change (my_seqs secret (lrecs e g) = upto (gr_next_seq (repair (scan_log (log_of e g) me_str) r) - 1)).
      rewrite Hn. by apply Hm.
    + intros Hh a. destruct (repair_counters e g r) as [_ Hn]; [done..|]. unfold lrecs. rewrite Hl.
      change (seqs_by a (lrecs e g) = upto (cursor_of (gr_have (repair (scan_log (log_of e g) me_str) r)) a)).
      rewrite Hn. by apply Hb.
  - intros g. rewrite Hg, Hl, lookup_repair_all, fmap_None. apply Hi.
Qed.

(** ** Runs *)

(** What an operation may assume: counters far from the end of [u64], an unused
    group id if it draws one, and a restart reads what was in memory. *)
Definition admissible (e : P2p) (o : Op) : Prop :=
  room e ∧ fresh_gid e ∧ (o = OStart → saved e).

Inductive engine_step (e : P2p) : P2p → Prop :=
| step_run o : admissible e o → engine_step e (run secret blobs_dir o e).2.

Lemma step_inv e o : inv e → admissible e o → inv (run secret blobs_dir o e).2.
Proof.
  intros Hi (Hroom & Hfresh & Hs). assert (o = OStart ∨ o ≠ OStart) as [->|] by (destruct o; auto).
  - apply start_inv; auto.
  - by apply run_inv.
Qed.

Lemma steps_inv e e' : inv e → rtc engine_step e e' → inv e'.
Proof. intros Hi. induction 1 as [|e1 e2 e3 [o Ho] _ IH]; [done|]. by apply IH, step_inv. Qed.

Lemma blank_inv : inv blank.
Proof. split; [apply map_Forall_empty..|done]. Qed.

(** [admissible], as a check. *)
Definition room_b (e : P2p) : bool :=
  forallb (λ '(_, r), (gr_next_seq r + GROUP_WINDOW <? u64_bound)%N &&
    forallb (λ '(_, n), n + 1 <? u64_bound)%N (map_to_list (gr_have r))) (map_to_list (groups e)).
Definition admissible_b (e : P2p) (o : Op) : bool :=
  room_b e && bool_decide (groups e !! env_new_gid (e_tick e) = None) &&
  match o with OStart => bool_decide (groups e = ∅) && bool_decide (gd_json (dk_groups (e_disk e)) = None)
             | _ => true end.
Fixpoint admissible_run (e : P2p) (os : list Op) : bool :=
  match os with
  | [] => true
  | o :: os => admissible_b e o && admissible_run (run secret blobs_dir o e).2 os
  end.

Lemma room_b_ok e : room_b e = true → room e.
Proof.
  unfold room_b. rewrite forallb_forall. intros H g r Hr.
  apply elem_of_map_to_list, list_elem_of_In, H, andb_true_iff in Hr as [Hn Hh]. split.
  - by apply N.ltb_lt.
  - intros a. unfold cursor_of. destruct (gr_have r !! a) as [n|] eqn:Ha; [|done]. cbn.
    rewrite forallb_forall in Hh. apply elem_of_map_to_list, list_elem_of_In, Hh, N.ltb_lt in Ha. done.
Qed.

Lemma admissible_b_ok e o : admissible_b e o = true → admissible e o.
Proof.
  unfold admissible_b. rewrite !andb_true_iff, bool_decide_eq_true. intros [[Hr Hf] Ho].
  split_and!; [by apply room_b_ok|done|]. intros ->.
  rewrite andb_true_iff, !bool_decide_eq_true in Ho. destruct Ho as [Hg Hj].
  unfold saved, load_groups. by rewrite Hj, Hg.
Qed.

Lemma admissible_run_ok os : ∀ e,
  admissible_run e os = true → rtc engine_step e (runs secret blobs_dir e os).
Proof.
  induction os as [|o os IH]; intros e; [done|]. cbn. intros [Ho Hos]%andb_true_iff.
  eapply rtc_l; [apply step_run; by apply admissible_b_ok|]. by apply IH.
Qed.



End Safety.

(** ** At work *)

Import ToyNet ToySerde Scene.

(** A scene: some operations of one device, checked by evaluation. *)
Lemma scene_run (En : Env) k e0 e os :
  rtc (engine_step k Scene.blobs) blank e0 → e = runs k Scene.blobs e0 os →
  admissible_run k Scene.blobs e0 os = true → rtc (engine_step k Scene.blobs) blank e.
Proof. intros H0 -> Hos. eapply rtc_trans; [exact H0|]. by apply admissible_run_ok. Qed.

Ltac scene H := eapply scene_run; [exact H|reflexivity|vm_compute; reflexivity].

Lemma alice0_run : rtc (engine_step (En := Scene.env 1) Scene.alice Scene.blobs) blank Scene.alice0.
Proof. scene (rtc_refl (engine_step (En := Scene.env 1) Scene.alice Scene.blobs) blank). Qed.
Lemma bob0_run : rtc (engine_step (En := Scene.env 2) Scene.bob Scene.blobs) blank Scene.bob0.
Proof. scene (rtc_refl (engine_step (En := Scene.env 2) Scene.bob Scene.blobs) blank). Qed.
Lemma bob1_run : rtc (engine_step (En := Scene.env 2) Scene.bob Scene.blobs) blank Scene.bob1.
Proof. scene bob0_run. Qed.
Lemma alice1_run : rtc (engine_step (En := Scene.env 1) Scene.alice Scene.blobs) blank Scene.alice1.
Proof. scene alice0_run. Qed.
Lemma alice2_run : rtc (engine_step (En := Scene.env 1) Scene.alice Scene.blobs) blank Scene.alice2.
Proof. scene alice1_run. Qed.

Lemma alice1_inv : inv Scene.alice Scene.alice1.
Proof. exact (steps_inv Scene.alice Scene.blobs _ _ (blank_inv _) alice1_run). Qed.
Lemma bob1_inv : inv Scene.bob Scene.bob1.
Proof. exact (steps_inv Scene.bob Scene.blobs _ _ (blank_inv _) bob1_run). Qed.
Lemma alice2_inv : inv Scene.alice Scene.alice2.
Proof. exact (steps_inv Scene.alice Scene.blobs _ _ (blank_inv _) alice2_run). Qed.


(** Alice crashed before [groups.json] learned of her two messages. *)
Lemma flaky_run : rtc (engine_step (En := Scene.flaky) Scene.alice Scene.blobs) blank Scene.flaky_alice.
Proof. scene (rtc_refl (engine_step (En := Scene.flaky) Scene.alice Scene.blobs) blank). Qed.


(** An append that was cut short takes the next line with it: the second message
    is counted and sent, but the log does not have it. *)
Lemma cut_append_takes_next :
  (λ r, gr_next_seq r) <$> groups Scene.full_alice !! Scene.gid = Some 2%N ∧
  (λ r, gr_next_seq r) <$> groups Scene.alice1 !! Scene.gid = Some 1%N ∧
  my_seqs Scene.alice (lrecs Scene.full_alice Scene.gid) = [] ∧
  (λ f, match f with GroupMsg _ _ n _ _ _ _ _ => Some n | _ => None end) <$>
    drop (length (sent_on Scene.alice1 0)) (sent_on Scene.full_alice 0) = [Some 1%N].
Proof. split_and!; vm_compute; reflexivity. Qed.
