(* ===== verification/Delivered.v ===== *)
(** * What reaches a log, and what is sent from it

    [grows g Q]: the log of [g] is append-only while the group is kept, every
    new line satisfies [Q], and every message frame of [g] that goes out is the
    frame of a line this device wrote. *)

From S2P Require Import Prelude Str Net Groups Frames Engine Delivery Rosters GroupWire Chat Files Media Effects GroupInv Ops Safety.

Section Delivered.
Context {P : Platform} {L : PlatformLaws} {SD : Serde} {SL : SerdeLaws} {En : Env}.
Context {CT : CharTable} {B64 : Base64}.
Context {WA : WholeAppends} (secret : secret_key) (blobs_dir : str).
Local Abbreviation me_str := (me_str secret).
Local Abbreviation inv := (inv secret).

Definition own (r : GroupLogRec) : Prop := lr_dir r = lit "out" ∧ lr_from r = me_str.

Definition frame_ok (g : str) (l : list GroupLogRec) (f : Frame) : Prop :=
  match f with
  | GroupMsg g' _ _ _ _ _ _ _ => g' = g → ∃ r, r ∈ l ∧ own r ∧ f = msg_frame secret g r
  | _ => True
  end.

(** No record of the group, or one kept only to tell its creator. *)
Definition lost (g : str) (e : P2p) : Prop := from_option gr_hidden true (groups e !! g) = true.

(** [keep]: whether the history of the log matters, or only its new lines. *)
Context (g : str) (Q : GroupLogRec → Prop) (keep : Prop).

Definition grows (e e' : P2p) : Prop :=
  logs_ok e → logs_ok e' ∧ (∀ r, r ∈ lrecs e' g → r ∈ lrecs e g ∨ Q r) ∧ (keep → lost g e → lost g e') ∧
    (keep → ¬ lost g e' → lrecs e g `prefix_of` lrecs e' g ∧ sent_more (frame_ok g (lrecs e' g)) e e').

Lemma frame_ok_mono l l' f : l ⊆ l' → frame_ok g l f → frame_ok g l' f.
Proof. intros Hl. destruct f; cbn; try done. intros H ->. destruct (H eq_refl) as (r & ? & ? & ?). eauto. Qed.

Lemma sent_more_mono (Q1 Q2 : Frame → Prop) e e' :
  (∀ f, Q1 f → Q2 f) → sent_more Q1 e e' → sent_more Q2 e e'.
Proof. intros HQ H tx. destruct (H tx) as (fs & ? & ?). exists fs. split; [done|]. by eapply Forall_impl. Qed.

Lemma not_msg_ok l f : is_msg f = false → frame_ok g l f.
Proof. by destruct f. Qed.

#[export] Instance grows_preorder : PreOrder grows.
Proof.
  split.
  - intros e Hok. split_and!; [done|by left|done|]. intros _ _. split; [done|by apply sent_more_refl].
  - intros e1 e2 e3 H12 H23 Hok. destruct (H12 Hok) as (Hok2 & HQ2 & Hl2 & Hs2).
    destruct (H23 Hok2) as (Hok3 & HQ3 & Hl3 & Hs3). split_and!; [done| |auto|].
    + intros r [?|?]%HQ3; auto.
    + intros Hk Hn3. assert (¬ lost g e2) as Hn2 by auto.
      destruct (Hs2 Hk Hn2) as [Hp2 HS2], (Hs3 Hk Hn3) as [Hp3 HS3]. split; [by etrans|].
      eapply sent_more_trans; [|exact HS3]. eapply sent_more_mono; [|exact HS2].
      intros f. apply frame_ok_mono. destruct Hp3 as [k ->]. intros r Hr. apply elem_of_app. by left.
Qed.

Lemma same_lost e e' : groups e' = groups e → lost g e' ↔ lost g e.
Proof. unfold lost. by intros ->. Qed.

Lemma quiet_grows e e' : quiet e e' → grows e e'.
Proof.
  intros (Hg & Hl & Hs) Hok. unfold logs_ok, lrecs. rewrite Hl. split_and!; [done|by left|by intros _; apply same_lost|].
  intros _ _. split; [done|]. eapply sent_more_mono; [|exact Hs]. intros f. apply not_msg_ok.
Qed.

Context (Qsys : ∀ r, lr_seq r = 0%N → Q r).

Lemma noted_grows g' e e' : noted g' e e' → grows e e'.
Proof.
  intros (Hg & Hs & Hn) Hok. destruct (Hn Hok) as (Hok' & (rs & Hrs & Hun) & Hoth).
  assert (∃ rs', lrecs e' g = lrecs e g ++ rs' ∧ Forall unnumbered rs') as (rs' & Hrs' & Hun').
  { destruct (decide (g = g')) as [->|Hne]; [by exists rs|]. exists []. rewrite app_nil_r.
    split; [|constructor]. unfold lrecs. by rewrite Hoth. }
  split_and!; [done| |by intros _; apply same_lost|].
  - intros r. rewrite Hrs', elem_of_app. intros [?|Hr]; [by left|]. right. apply Qsys.
    by eapply Forall_forall in Hun'.
  - intros _ _. rewrite Hrs'. split; [by apply prefix_app_r|]. eapply sent_more_mono; [|exact Hs].
    intros f. apply not_msg_ok.
Qed.

Lemma ev_quiet_grows {A} (m : M A) : Ev quiet m → Ev grows m.
Proof. apply ev_mono. intros. by apply quiet_grows. Qed.
Lemma ev_noted_grows {A} g' (m : M A) : Ev (noted g') m → Ev grows m.
Proof. apply ev_mono. intros. by eapply noted_grows. Qed.

(** A step on the records that does not bring [g] back. *)
Lemma modify_groups_grows f :
  (∀ e, keep → from_option gr_hidden true (groups e !! g) = true →
        from_option gr_hidden true (f (groups e) !! g) = true) →
  Ev grows (modify (on_groups f)).
Proof.
  intros Hf e Hok. split_and!; [done|by left|by intros Hk H%Hf|]. intros _ _. split; [done|by apply sent_more_refl].
Qed.

Lemma alter_grows f g' :
  (∀ r, gr_hidden r = true → gr_hidden (f r) = true) → Ev grows (modify (on_groups (alter f g'))).
Proof.
  intros Hf. apply modify_groups_grows. intros e _. destruct (decide (g = g')) as [<-|Hne].
  - rewrite lookup_alter_eq. destruct (groups e !! g); cbn; auto.
  - by rewrite lookup_alter_ne.
Qed.

Lemma insert_grows r g' : (keep → g' ≠ g) → Ev grows (modify (on_groups <[g' := r]>)).
Proof. intros Hne. apply modify_groups_grows. intros e Hk. by rewrite lookup_insert_ne by auto. Qed.

(** ** Sending from the log *)

Lemma pump_recs_grows gid tx marker recs e :
  (gid = g → Forall (λ r, r ∈ lrecs e g ∧ own r) recs) →
  grows e (pump_recs secret gid tx marker recs e).2.
Proof.
  intros Hrecs. 
  assert (∀ recs e', (gid = g → Forall (λ r, r ∈ lrecs e g ∧ own r) recs) → lrecs e' g = lrecs e g →
    same_gl e' (pump_recs secret gid tx marker recs e').2 ∧
    sent_more (frame_ok g (lrecs e g)) e' (pump_recs secret gid tx marker recs e').2) as H.
  { clear recs Hrecs. induction recs as [|r recs IH]; intros e' Hr Hl; [split; [done|by apply sent_more_refl]|].
    cbn [pump_recs]. unfold mbind, M_bind.
    pose proof (send_gl tx (msg_frame secret gid r) e') as HG.
    pose proof (send_more (frame_ok g (lrecs e g)) tx (msg_frame secret gid r) e') as HS.
    destruct (send tx (msg_frame secret gid r) e') as [[b|x] e1] eqn:Hsend; cbn [snd] in *.
    2: { unfold send in Hsend. by destruct (is_closed _ _). }
    assert (HS' : sent_more (frame_ok g (lrecs e g)) e' e1).
    { apply HS. cbn. intros ->. specialize (Hr eq_refl). apply Forall_cons in Hr as [[? ?] _]. eauto. }
    destruct b; [|by split]. 
    destruct (IH (push_link marker (lr_seq r) e1)) as [IG IS].
    - intros E. specialize (Hr E). by apply Forall_cons in Hr as [_ ?].
    - rewrite <- Hl. unfold lrecs. f_equal. f_equal. apply HG.
    - split; [etrans; [exact HG|exact IG]|eapply sent_more_trans; [exact HS'|exact IS]]. }
  destruct (H recs e Hrecs eq_refl) as [[Hg Hl] Hs]. intros Hok. unfold logs_ok. rewrite Hl.
  unfold lrecs in *. rewrite Hl. split_and!; [done|by left|by intros _; apply same_lost|]. done.
Qed.

Definition hint_ok (e : P2p) (gid : str) (hint : option GroupLogRec) : Prop :=
  gid = g → from_option (λ h, h ∈ lrecs e g ∧ own h) True hint.

Lemma pump_source_own e gid first upto hint :
  hint_ok e gid hint → gid = g →
  Forall (λ r, r ∈ lrecs e g ∧ own r) (pump_source secret e gid first upto hint).
Proof.
  intros Hh ->. specialize (Hh eq_refl).
  assert (Forall (λ r, r ∈ lrecs e g ∧ own r)
    (filter (λ r, own_between secret first upto r = true) (read_log (log_of e g)))) as H.
  { apply Forall_forall. intros r [Ho Hr]%list_elem_of_filter. split; [done|]. unfold own_between in Ho.
    rewrite !andb_true_iff, !bool_decide_eq_true in Ho. by destruct Ho as [[[? ?] _] _]. }
  unfold pump_source. destruct hint as [h|]; [|done]. destruct (_ && _); [|done].
  constructor; [done|constructor].
Qed.

Lemma pump_grows gid node hint e : hint_ok e gid hint → grows e (pump secret gid node hint e).2.
Proof.
  intros Hh. unfold pump. run_gets.
  destruct (groups e !! gid) as [r|]; [|cbn; reflexivity].
  destruct (_ || _); [cbn; reflexivity|]. cbv zeta. case_bool_decide; [cbn; reflexivity|].
  destruct (v2_tx e node) as [tx|]; [|cbn; reflexivity].
  destruct (rt_links _ !! _) as [link|]; [|cbn; reflexivity].
  destruct (negb _); [cbn; reflexivity|]. destruct (_ <? _)%N; [cbn; reflexivity|].
  unfold mbind, M_bind.
  match goal with |- context [pump_recs secret gid tx ?m ?rs e] =>
    pose proof (pump_recs_grows gid tx m rs e) as Hp; destruct (pump_recs secret gid tx m rs e) as [[?|?] e'] end.
  all: apply Hp; intros ->; by apply pump_source_own.
Qed.

Lemma hint_none e gid : hint_ok e gid None.
Proof. done. Qed.

Lemma ev_pump gid node : Ev grows (pump secret gid node None).
Proof. intros e. apply pump_grows, hint_none. Qed.

Lemma pump_all_grows gid line ms : ∀ e,
  hint_ok e gid (Some line) → grows e (pump_all secret gid line ms e).2.
Proof.
  induction ms as [|m ms IH]; intros e Hh; cbn [pump_all]; [cbn; reflexivity|].
  unfold mbind, M_bind. pose proof (pump_grows gid m (Some line) e Hh) as H.
  pose proof (pump_gl secret gid m (Some line) e) as [_ Hl].
  destruct (pump secret gid m (Some line) e) as [[b|?] e1]; [|done]. cbn [snd] in *.
  assert (hint_ok e1 gid (Some line)) as Hh1.
  { intros Hg. unfold lrecs. rewrite Hl. by apply Hh. }
  specialize (IH e1 Hh1). etrans; [exact H|]. destruct (pump_all secret gid line ms e1) as [[?|?] ?]; exact IH.
Qed.

(** ** The operations *)

#[local] Hint Resolve ev_quiet_grows ev_pump ev_core_gl ev_core_quiet
  emit_core now_ms_core group_last_ts_core remove_file_core warn_core rename_file_core
  persist_groups_core warn_on_error_core groups_changed_core
  announce_state_quiet trigger_connect_core random_id_core next_tick_core delete_group_blobs_core
  sync_introduced_core set_connecting_core persist_peers_core persist_messages_core write_row_core finish_begin_core
  trigger_group_dials_core drop_group_inbound_core typing_gate_core
  set_name_core hear_beacon_core create_invite_core incoming_hello_core approve_pair_core
  pair_accepted_quiet pair_connect_quiet serve_dialed_quiet serve_accepted_quiet end_session_quiet
  send_text_quiet typing_peer_quiet typing_group_quiet on_msg_quiet on_typing_core on_ack_core
  on_file_begin_core on_file_chunk_core on_file_end_quiet on_group_file_begin_core
  on_group_file_chunk_core group_file_wrote_core group_file_done_core group_files_failed_core
  group_file_retry_quiet send_file_quiet maintain_core : eff.
#[local] Hint Extern 1 (Ev quiet (send _ _)) => apply send_quiet; reflexivity : eff.
#[local] Hint Extern 1 (Ev quiet (send_ _ _)) => apply send__quiet; reflexivity : eff.

Lemma log_sys_grows gid epoch ls : Ev grows (log_sys secret gid epoch ls).
Proof. apply (ev_noted_grows gid), log_sys_noted. Qed.
#[local] Hint Resolve log_sys_grows : eff.

(** Proof search for [grows]. *)
Ltac grow_step :=
  match goal with
  | |- Ev grows (modify (on_groups (alter _ _))) => apply alter_grows; done
  | |- Ev grows (modify _) => apply ev_quiet_grows, ev_core_quiet
  | |- Ev grows (emit _) => apply ev_quiet_grows, ev_core_quiet, emit_core
  | |- Ev grows (send_ _ _) => apply ev_quiet_grows, send__quiet; solve [reflexivity | by case_match]
  | |- _ => eff_step
  end.
Ltac grow := repeat grow_step.

Lemma on_group_ack_grows from gid have : Ev grows (on_group_ack secret from gid have).
Proof. unfold on_group_ack. grow. Qed.

Lemma on_group_sync_grows from tx gid epoch have name :
  Ev grows (on_group_sync secret from tx gid epoch have name).
Proof. unfold on_group_sync. grow. Qed.

Lemma after_state_applied_grows gid : Ev grows (after_state_applied secret gid).
Proof. unfold after_state_applied. grow. Qed.
#[local] Hint Resolve on_group_ack_grows on_group_sync_grows after_state_applied_grows : eff.

Lemma edit_group_locked_grows gid left edit : Ev grows (edit_group_locked secret gid left edit).
Proof. unfold edit_group_locked. grow. Qed.

Lemma group_leave_grows gid : Ev grows (group_leave secret gid).
Proof. unfold group_leave. grow. Qed.

(** One more line in the log of [gid], for a group that is kept. *)
Lemma logged_grows gid r e e' : logged gid r e e' → (gid = g → Q r) → grows e e'.
Proof.
  intros Hl Hq Hok. destruct (logged_recs _ _ _ _ Hok Hl) as (Hok' & Hrecs & Hoth). destruct Hl as (Hg & Hc & _).
  assert (∃ rs, lrecs e' g = lrecs e g ++ rs ∧ Forall Q rs) as (rs & Hrs & HQ).
  { destruct (decide (g = gid)) as [->|Hne]; [exists [r]; split; [done|repeat constructor; auto]|].
    exists []. rewrite app_nil_r. split; [|constructor]. unfold lrecs. by rewrite Hoth. }
  split_and!; [done| |by intros _; apply same_lost|].
  - intros r'. rewrite Hrs, elem_of_app. intros [?|Hr]; [by left|right]. by eapply Forall_forall in HQ.
  - intros _ _. rewrite Hrs. split; [by apply prefix_app_r|by apply sent_more_refl].
Qed.

(** The log of a group that is lost goes. *)
Lemma drop_log_grows gid f e :
  grows e (on_groups f e) → (gid = g → lost g (on_groups f e)) → grows e (on_logs (delete gid) (on_groups f e)).
Proof.
  intros Hf Hlost Hok. destruct (Hf Hok) as (Hok' & Hr & Hl & Hs).
  assert (Hlr : gid ≠ g → lrecs (on_logs (delete gid) (on_groups f e)) g = lrecs e g).
  { intros Hne. unfold lrecs, logs. cbn. by rewrite lookup_delete_ne. }
  split_and!.
  - intros g' l. unfold logs. cbn. intros [_ Hg']%lookup_delete_Some. by apply Hok in Hg'.
  - intros r. destruct (decide (gid = g)) as [->|Hne]; [|rewrite Hlr by done; by left].
    unfold lrecs, logs. cbn. rewrite lookup_delete_eq. cbn. by intros ?%not_elem_of_nil.
  - exact Hl.
  - intros Hk Hn. destruct (decide (gid = g)) as [->|Hne]; [by destruct Hn; apply Hlost|].
    rewrite Hlr by done. split; [done|by apply sent_more_refl].
Qed.

Lemma grows_then {A} (m : M A) e e' : grows e e' → Ev grows m → grows e (m e').2.
Proof. intros H Hm. etrans; [exact H|apply Hm]. Qed.

Lemma purge_group_grows gid : Ev grows (purge_group secret blobs_dir gid).
Proof.
  intros e. unfold purge_group, delete_log. do 2 run_modify. apply grows_then; [|grow].
  apply drop_log_grows.
  - apply (modify_groups_grows (delete gid)). intros e' _. destruct (decide (g = gid)) as [->|Hne].
    + by rewrite lookup_delete_eq.
    + by rewrite lookup_delete_ne.
  - intros ->. unfold lost, groups. cbn. by rewrite lookup_delete_eq.
Qed.
#[local] Hint Resolve purge_group_grows : eff.

Lemma group_delete_grows gid : Ev grows (group_delete secret blobs_dir gid).
Proof.
  intros e. unfold group_delete. run_gets. destruct (groups e !! gid) as [r|] eqn:Hr; [|cbn; reflexivity].
  run_guard; [|cbn; reflexivity]. destruct (gr_pending_leave r); [|apply purge_group_grows].
  unfold delete_log. do 2 run_modify. apply grows_then; [|grow]. apply drop_log_grows.
  - by apply (alter_grows _ gid).
  - intros ->. unfold lost, groups in *. cbn. by rewrite lookup_alter_eq, Hr.
Qed.

Lemma finish_apply_grows gid epoch sys removed mk :
  Ev grows (finish_apply secret blobs_dir gid epoch sys removed mk).
Proof. unfold finish_apply. grow. Qed.

Lemma apply_state_grows st from e :
  (keep → groups e !! g ≠ None) → grows e (apply_state secret blobs_dir st from e).2.
Proof.
  intros Hk. unfold apply_state. run_gets. cbv zeta. run_lift_group; [|cbn; reflexivity].
  unfold evaluate_incoming in Hr. apply bind_ok in Hr as ([] & Hc & Hv).
  destruct a as [| |rm]; [cbn; reflexivity|..].
  - destruct (groups e !! gs_gid st) as [r|] eqn:Hr.
    { case_bool_decide; [done|]. by destruct (_ <=? _)%N. }
    do 2 (run_guard; [|cbn; reflexivity]). run_modify. apply grows_then; [|apply finish_apply_grows].
    apply (insert_grows _ (gs_gid st)). intros Hkeep <-. by apply Hk in Hr.
  - destruct (groups e !! gs_gid st) as [r|] eqn:Hr; [|cbn; reflexivity].
    run_guard; [|cbn; reflexivity]. run_modify. run_gets.
    rewrite on_groups_insert by done. apply grows_then; [|apply finish_apply_grows].
    by apply (alter_grows (update_rec st rm) (gs_gid st)).
Qed.

Lemma on_group_leave_grows from gid : Ev grows (on_group_leave secret from gid).
Proof. unfold on_group_leave. pose proof edit_group_locked_grows. grow. Qed.

Lemma on_group_file_end_noted from gid id : Ev (noted gid) (on_group_file_end secret from gid id).
Proof.
  unfold on_group_file_end.
  repeat first
    [ match goal with |- Ev (noted _) (modify _) => apply ev_quiet_noted, ev_core_quiet end
    | match goal with |- Ev (noted _) (emit _) => apply ev_quiet_noted, ev_core_quiet, emit_core end
    | match goal with |- Ev (noted _) (append_group_log _ _) => by apply append_noted end
    | eff_step ].
  all: apply ev_quiet_noted, ev_core_quiet; eff.
Qed.

Lemma on_group_file_grows from f tx : Ev grows (on_group_file secret blobs_dir from f tx).
Proof.
  unfold on_group_file. apply ev_bind; [typeclasses eauto|grow|intros e]. cbv zeta.
  destruct f; try solve [grow]; case_match.
  all: try solve [apply ev_quiet_grows; eff].
  eapply ev_noted_grows, on_group_file_end_noted.
Qed.

(** ** Messages *)

Context (Qout : ∀ r, own r → Q r).

Lemma grows_ok e e' : (logs_ok e → grows e e') → grows e e'.
Proof. intros H Hok. by apply H. Qed.

Lemma grows_bind0 {A B} (m : M A) (k : A → M B) e e1 :
  grows e e1 → grows e1 (m e1).2 → (∀ a, Ev grows (k a)) → grows e ((m ≫= k) e1).2.
Proof.
  intros H Hm Hk. etrans; [exact H|]. unfold mbind, M_bind. destruct (m e1) as [[a|x] e2]; [|done].
  etrans; [exact Hm|apply Hk].
Qed.

(** A step that leaves the logs alone, then the rest. *)
Lemma grows_bind {A B} (m : M A) (k : A → M B) e e1 :
  grows e e1 → Ev (λ x y, logs y = logs x) m → Ev grows m →
  (∀ a e2, logs e2 = logs e1 → grows e e2 → grows e (k a e2).2) → grows e ((m ≫= k) e1).2.
Proof.
  intros H Hg Hm Hk. unfold mbind, M_bind. specialize (Hm e1). specialize (Hg e1).
  destruct (m e1) as [[a|x] e2]; cbn [snd] in *; [apply Hk; [done|]|]; by etrans.
Qed.

Lemma group_send_grows gid text rt rx : Ev grows (group_send secret gid text rt rx).
Proof.
  unfold group_send. repeat (apply ev_bind; [typeclasses eauto|solve [grow]|intros ?]).
  destruct (groups _ !! _) as [r|]; [|grow].
  repeat (apply ev_bind; [typeclasses eauto|solve [grow]|intros ?]). cbv zeta.
  repeat (apply ev_bind; [typeclasses eauto|solve [grow]|intros ?]).
  intros e. set (line := LogRec _ _ _ _ _ _ _ _ _ _).
  unfold mbind at 1, M_bind at 1. pose proof (append_spec gid line e) as Ha.
  destruct (append_group_log gid line e) as [[u|x] e1]; [|by apply quiet_grows, core_quiet].
  apply grows_ok. intros Hok.
  assert (Hin : ∀ e', logs e' = logs e1 → hint_ok e' gid (Some line)).
  { intros e' He' ->. destruct (logged_recs _ _ _ _ Hok Ha) as (_ & Hrecs & _). cbn. unfold lrecs in *.
    rewrite He', Hrecs. split; [|done]. apply elem_of_app. right. by constructor. }
  assert (H1 : grows e e1) by (eapply logged_grows; [exact Ha|intros _; by apply Qout]).
  assert (Hl : logs e1 = logs e1) by done. revert Hin H1 Hl. generalize (logs e1) at 1 3 as ls.
  generalize e1. clear Ha Hok e1. intros e1 ls Hin H1 Hl.
  do 4 (apply grows_bind;
    [done|first [by apply ev_modify|apply (ev_mono same_gl); [by intros ?? []|by eff]]|grow|];
    let x := fresh "x" in let He := fresh "He" in let Hx := fresh "Hx" in
    intros ? x He Hx; rewrite Hl in He; clear dependent e1; rename x into e1, He into Hl, Hx into H1).
  eapply grows_bind0; [exact H1|by apply pump_all_grows, Hin|]. grow.
Qed.

(** The line a received message becomes. *)
Definition in_line (m : GroupIn) (ts_eff : N) : GroupLogRec :=
  LogRec (gi_seq m) (gi_claimed m) (gi_id m) (gi_ts m) ts_eff "in" (gi_text m)
    (gi_reply_to m) (gi_reply_text m) None.

Lemma on_group_msg_grows from tx m :
  (gi_gid m = g → gi_claimed m = node_str from → ∀ ts, Q (in_line m ts)) →
  Ev grows (on_group_msg secret from tx m).
Proof.
  intros HQ. unfold on_group_msg. cbv zeta. case_bool_decide as Hclaim; [grow|].
  apply ev_bind; [typeclasses eauto|grow|intros e0].
  destruct (groups e0 !! _) as [r|]; [|grow]. destruct (gr_removed r); [grow|].
  destruct (negb _); [grow|]. destruct (_ || _); [grow|]. destruct (_ <=? _)%N; [grow|].
  destruct (_ <? _)%N; [case_bool_decide; grow|].
  repeat (apply ev_bind; [typeclasses eauto|solve [grow]|intros ?]).
  intros e. set (line := LogRec _ _ _ _ _ _ _ _ _ _).
  unfold mbind at 1, M_bind at 1, attempt at 1. pose proof (append_spec (gi_gid m) line e) as Ha.
  destruct (append_group_log (gi_gid m) line e) as [[u|x] e1].
  - apply grows_then; [|grow]. eapply logged_grows; [exact Ha|]. intros Hg. unfold line.
    rewrite <- Hclaim. by apply HQ.
  - apply grows_then; [by apply quiet_grows, core_quiet|grow].
Qed.

(** What an operation may add to the log of [g]. *)
Definition brings (o : Op) : Prop :=
  match o with
  | OFrame from (GroupMsg gid claimed seq id ts text rt rx) _ =>
      gid = g → claimed = node_str from →
      ∀ ts_eff, Q (in_line (MkGroupIn gid claimed seq id ts text rt rx) ts_eff)
  | _ => True
  end.

#[local] Hint Resolve edit_group_locked_grows group_leave_grows group_delete_grows on_group_leave_grows
  group_send_grows : eff.

(** The same, from a given state. *)
Ltac grow_at := match goal with |- grows ?e (snd (?m ?e)) => let Hm := fresh in enough (Ev grows m) as Hm by apply Hm; grow end.

Lemma grows_attempt {A} (m : M A) e : grows e (m e).2 → grows e (attempt m e).2.
Proof. unfold attempt. by destruct (m e). Qed.

Lemma session_frame_grows from f tx e :
  brings (OFrame from f tx) → (keep → groups e !! g ≠ None) →
  grows e (session_frame secret blobs_dir from f tx e).2.
Proof.
  intros Hb Hk. unfold session_frame. eapply grows_bind0; [reflexivity| |intros _; destruct f; grow].
  unfold handle_frame. run_gets. destruct (_ && _); [cbn; reflexivity|].
  destruct (is_group_file f); [apply on_group_file_grows|].
  destruct (is_group f); [|destruct f; grow_at].
  unfold handle_group_frame. run_gets. destruct (_ <? _)%N; [cbn; reflexivity|].
  destruct f; try solve [cbn; reflexivity].
  - eapply grows_bind0; [reflexivity|by apply grows_attempt, apply_state_grows|grow].
  - apply on_group_sync_grows.
  - apply on_group_msg_grows. exact Hb.
  - apply on_group_ack_grows.
  - apply on_group_leave_grows.
  - grow_at.
  - grow_at.
  - grow_at.
Qed.

Lemma group_create_grows name ids e :
  fresh_gid e → (keep → groups e !! g ≠ None) → grows e (group_create secret name ids e).2.
Proof.
  intros Hfresh Hk. unfold group_create. cbv zeta. run_lift_group; [|cbn; reflexivity].
  do 2 (run_guard; [|cbn; reflexivity]). run_gets. run_guard; [|cbn; reflexivity].
  do 2 (run_lift; [|cbn; reflexivity]).
  match goal with |- grows e ((next_tick ≫= ?k) e).2 =>
    change (grows e (k (e_tick e) (on_e_tick N.succ e)).2) end. cbv beta.
  assert (Ht : grows e (on_e_tick N.succ e)) by by apply quiet_grows, core_quiet.
  run_lift_group; [|exact Ht]. run_lift_group; [|exact Ht]. run_modify.
  apply grows_then; [|grow]. etrans; [exact Ht|].
  apply (insert_grows _ (env_new_gid (e_tick e))). intros Hkeep <-. by apply Hk.
Qed.

Lemma start_grows e : inv e → saved e → grows e (start secret e).2.
Proof.
  intros Hi Hs Hok. destruct (start_groups secret e) as [Hg Hl]. rewrite Hs in Hg.
  assert (Hsent : sent_more (λ f, is_msg f = false) e (start secret e).2).
  { unfold start. run_modify. 
    match goal with |- context [(?m ≫= ?k) ?e'] => set (rest := m ≫= k) end.
    assert (Hc : Ev core rest) by (unfold rest; eff).
    eapply (sent_more_trans _ _ (reload secret e)); [|apply sent_more_refl, Hc].
    intros tx. exists []. split; [|constructor]. rewrite app_nil_r. unfold sent_on, reload.
    destruct (load_groups _). cbn. rewrite lookup_fmap. by destruct (e_chans e !! tx). }
  unfold logs_ok, lrecs. rewrite Hl. split_and!; [done|by left| |].
  - intros _. unfold lost. rewrite Hg, lookup_repair_all. by destruct (groups e !! g).
  - intros _ _. split; [done|]. eapply sent_more_mono; [|exact Hsent]. intros f. apply not_msg_ok.
Qed.

(** ** Every operation *)

Lemma run_grows o e :
  inv e → fresh_gid e → (o = OStart → saved e) → (keep → groups e !! g ≠ None) → brings o →
  grows e (run secret blobs_dir o e).2.
Proof.
  intros Hi Hfresh Hstart Hk Hb.
  assert (Hig : ∀ A (m : M A), grows e (m e).2 → grows e (ignore m e).2).
  { intros A m. unfold ignore, mbind, M_bind. by destruct (m e) as [[?|?] ?]. }
  destruct o; cbn [run]; try apply Hig;
try solve [grow_at].
  - by apply start_grows; auto.
  - unfold remove_peer. cbv zeta. grow_at.
  - by apply session_frame_grows.
  - by apply group_create_grows.
  - unfold group_add. grow_at.
  - unfold group_remove. grow_at.
  - unfold group_rename. grow_at.
  - by apply (noted_grows gid), group_send_file_noted.
Qed.

End Delivered.
