(* ===== verification/Exchange.v ===== *)
(** * Two devices in a group

    An author and a reader, each running any operations; between them a network
    that loses, repeats and reorders what the author put on its sessions but
    cannot make up a message of the author. *)

From stdpp Require Import relations.
From S2P Require Import Prelude Str Net Groups Frames Engine Delivery Rosters GroupWire Chat Files Media Effects GroupInv Ops Scene Safety Delivered.

(** What a message says. *)
Definition payload (r : GroupLogRec) : N * str * N * str * option str * option str :=
  (lr_seq r, lr_id r, lr_ts r, lr_text r, lr_reply_to r, lr_reply_text r).

Record Sys := MkSys { s_author : P2p; s_reader : P2p }.

Section Exchange.
Context {P : Platform} {L : PlatformLaws} {SD : Serde} {SL : SerdeLaws} {CT : CharTable} {B64 : Base64}.
(** The author's and the reader's key, blob directory and environment. *)
Context (ka kb : secret_key) (da db : str) (EA EB : Env) {WA : WholeAppends (En := EA)} {WB : WholeAppends (En := EB)}.
Context (g : str).

Local Abbreviation author := (public ka).
Local Abbreviation run_a := (run (En := EA) ka da).
Local Abbreviation run_b := (run (En := EB) kb db).

(** Frames of this group the author ever put on a session. *)
Definition was_sent (e : P2p) (f : Frame) : Prop := ∃ tx, f ∈ sent_on e tx.

(** Frames come over sessions bound to the key of their sender: the node id is
    well formed, and the author's messages are ones the author sent. *)
Definition authentic (a : P2p) (o : Op) : Prop :=
  match o with
  | OFrame from f _ => valid_node from ∧ (from = author → is_msg f = true → was_sent a f)
  | _ => True
  end.

Inductive sys_step : Sys → Sys → Prop :=
| author_step a b o :
    admissible (En := EA) a o → ¬ lost g (run_a o a).2 → sys_step (MkSys a b) (MkSys (run_a o a).2 b)
| reader_step a b o :
    admissible (En := EB) b o →
    authentic a o →
    sys_step (MkSys a b) (MkSys a (run_b o b).2).

Definition authored (s : Sys) : list GroupLogRec := filter (mine ka) (lrecs (s_author s) g).
Definition received (s : Sys) : list GroupLogRec := filter (by_ (node_str author)) (lrecs (s_reader s) g).

(** Both devices are sound, and no message of the author has been sent. *)
Definition sys_init (s : Sys) : Prop :=
  inv ka (s_author s) ∧ inv kb (s_reader s) ∧ ¬ lost g (s_author s) ∧
  (∀ f, was_sent (s_author s) f → is_msg f = false) ∧ received s = [].

Record sys_inv (s : Sys) : Prop := {
  si_author : inv ka (s_author s);
  si_reader : inv kb (s_reader s);
  si_kept : ¬ lost g (s_author s);
  si_sent : ∀ f, was_sent (s_author s) f → frame_ok ka g (lrecs (s_author s) g) f;
  si_recv : ∀ r, r ∈ received s → ∃ r0, r0 ∈ lrecs (s_author s) g ∧ own ka r0 ∧ payload r0 = payload r;
}.

Lemma sys_init_inv s : sys_init s → sys_inv s.
Proof.
  intros (Ha & Hb & Hk & Hs & Hr). split; try done.
  - intros f Hf. by apply not_msg_ok, Hs.
  - rewrite Hr. by intros r ?%not_elem_of_nil.
Qed.

Lemma not_lost_in e : ¬ lost g e → groups e !! g ≠ None.
Proof. unfold lost. by destruct (groups e !! g). Qed.

(** The author's log only grows, and what is sent comes from it. *)
Lemma author_step_inv a b o :
  admissible (En := EA) a o → ¬ lost g (run_a o a).2 → sys_inv (MkSys a b) → sys_inv (MkSys (run_a o a).2 b).
Proof.
  intros Ho Hk' [Ha Hb Hk Hs Hr]. cbn in *. pose proof Ho as (_ & Hfresh & Hst).
  assert (Hgrow : grows ka g (λ _, True) True a (run_a o a).2).
  { apply run_grows; try done; [by intros _; apply not_lost_in|]. destruct o; try done. by destruct f. }
  destruct (Hgrow (inv_logs _ _ Ha)) as (_ & _ & _ & Hg). destruct (Hg I Hk') as [Hp Hsent].
  split; cbn; try done.
  - by apply step_inv.
  - intros f [tx Hf]. destruct (Hsent tx) as (fs & Hfs & Hok). rewrite Hfs in Hf.
    apply elem_of_app in Hf as [Hf|Hf]; [|by eapply Forall_forall in Hok].
    eapply frame_ok_mono; [|apply Hs; by exists tx]. destruct Hp as [l ->]. intros r Hin.
    apply elem_of_app. by left.
  - intros r Hin. destruct (Hr r Hin) as (r0 & H0 & ?). exists r0. split; [|done].
    destruct Hp as [l ->]. apply elem_of_app. by left.
Qed.

(** What the reader logs as the author's was sent by the author. *)
Lemma reader_step_inv a b o :
  admissible (En := EB) b o → authentic a o → sys_inv (MkSys a b) → sys_inv (MkSys a (run_b o b).2).
Proof.
  intros Ho Hnet [Ha Hb Hk Hs Hr]. cbn in *. pose proof Ho as (_ & Hfresh & Hst).
  set (Q := λ r, by_ (node_str author) r →
    ∃ r0, r0 ∈ lrecs a g ∧ own ka r0 ∧ payload r0 = payload r).
  assert (Hgrow : grows kb g Q False b (run_b o b).2).
  { apply run_grows; try done.
    - intros r H0 (_ & _ & ?). done.
    - intros r [Hd _] (Hd' & _). rewrite Hd in Hd'. done.
    - destruct o; try done. match goal with |- brings _ _ (OFrame _ ?f _) => destruct f end; try done.
      intros -> -> ts_eff (_ & Hfrom & Hseq). cbn in Hfrom, Hseq.
      destruct Hnet as [Hv Hsent]. apply node_str_inj in Hfrom as ->; [|done|apply public_valid].
      destruct (Hs _ (Hsent eq_refl eq_refl) eq_refl) as (r0 & Hin & Hown & Hf).
      exists r0. split; [done|]. split; [done|]. unfold msg_frame in Hf. injection Hf as -> -> -> -> -> ->. done. }
  destruct (Hgrow (inv_logs _ _ Hb)) as (_ & HQ & _). split; cbn; try done.
  - by apply step_inv.
  - intros r [Hby Hin]%list_elem_of_filter. cbn in Hin. destruct (HQ r Hin) as [Hold|Hnew]; [|by apply Hnew].
    apply Hr. by apply list_elem_of_filter.
Qed.

Lemma sys_step_inv s s' : sys_step s s' → sys_inv s → sys_inv s'.
Proof. intros [a b o ? ?|a b o ? ?]; [by apply author_step_inv|by apply reader_step_inv]. Qed.

(** Lists numbered [1 ..] whose elements come from the other. *)
Lemma numbered_prefix {A} (key : A → N) (l1 l2 : list A) n1 n2 :
  key <$> l1 = upto n1 → key <$> l2 = upto n2 → l1 ⊆ l2 → l1 `prefix_of` l2.
Proof.
  intros H1 H2 Hin.
  assert (Hkey : ∀ l n i x, key <$> l = upto n → l !! i = Some x → key x = N.of_nat (S i)).
  { intros l n i x Hl Hx. apply (f_equal (lookup i)) in Hl. rewrite list_lookup_fmap, Hx in Hl.
    symmetry in Hl. unfold upto in Hl. rewrite list_lookup_fmap in Hl.
    apply fmap_Some in Hl as (k & [-> _]%lookup_seq & ->). lia. }
  exists (drop (length l1) l2). rewrite <- (take_drop (length l1) l2) at 1. f_equal.
  apply list_eq. intros i. destruct (decide (i < length l1)) as [Hi|Hi].
  - rewrite lookup_take_lt by done. apply lookup_lt_is_Some in Hi as [x Hx]. rewrite Hx.
    assert (x ∈ l2) as [j Hj]%list_elem_of_lookup by (apply Hin; by eapply list_elem_of_lookup_2).
    assert (i = j) as <- by (pose proof (Hkey _ _ _ _ H1 Hx); pose proof (Hkey _ _ _ _ H2 Hj); lia). done.
  - rewrite lookup_take_ge by lia. symmetry. apply lookup_ge_None. lia.
Qed.

(** Runs of one side. *)
Lemma author_runs b os : ∀ a a',
  a' = runs (En := EA) ka da a os → admissible_run (En := EA) ka da a os = true →
  forallb (λ n, negb (from_option gr_hidden true (groups (runs (En := EA) ka da a (take n os)) !! g)))
    (seq 1 (length os)) = true →
  rtc sys_step (MkSys a b) (MkSys a' b).
Proof.
  induction os as [|o os IH]; intros a a' ->; [done|]. cbn [admissible_run length seq forallb].
  intros [Ho Hos]%andb_true_iff [Hk Hks]%andb_true_iff.
  eapply rtc_l; [apply (author_step _ _ o); [by apply admissible_b_ok|]|].
  - apply negb_true_iff in Hk. intros Hl. exact (eq_true_false_abs _ Hl Hk).
  - apply IH; [done..|]. rewrite <- seq_shift in Hks. rewrite forallb_forall in *. intros n Hn.
    apply (Hks (S n)). by apply in_map.
Qed.

Lemma reader_runs a os : ∀ b b',
  b' = runs (En := EB) kb db b os → Forall (authentic a) os → admissible_run (En := EB) kb db b os = true →
  rtc sys_step (MkSys a b) (MkSys a b').
Proof.
  induction os as [|o os IH]; intros b b' ->; [done|]. cbn [admissible_run].
  intros [Ha Has]%Forall_cons [Ho Hos]%andb_true_iff.
  eapply rtc_l; [apply (reader_step _ _ o); [by apply admissible_b_ok|done]|]. by apply IH.
Qed.

(** [C1] What a member reads is what the author wrote: through any operations on
    both sides and any loss, repetition and reordering on the way, the reader's log
    holds a prefix of the author's messages of the group, each once and in order, as
    long as neither lost or deleted the group.  A device restarts only when
    [groups.json] holds the groups it has in memory, and no append leaves a part of
    a line ([admissible], [WholeAppends]). *)
Theorem delivered_in_order s s' :
  sys_init s → rtc sys_step s s' → ¬ lost g (s_reader s') →
  (payload <$> received s') `prefix_of` (payload <$> authored s').
Proof.
  intros Hinit Hrun Hkept. apply sys_init_inv in Hinit.
  assert (sys_inv s') as [Ha Hb Hk _ Hr].
  { clear Hkept. induction Hrun as [|x y z Hxy _ IH]; [done|]. by apply IH, (sys_step_inv x). }
  destruct s' as [a b]. cbn in *. unfold lost in *.
  destruct (groups a !! g) as [ra|] eqn:Hga; [|done]. destruct (groups b !! g) as [rb|] eqn:Hgb; [|done].
  apply not_true_is_false in Hk, Hkept. cbn in Hk, Hkept.
  destruct (inv_lookup _ _ _ _ Ha Hga) as [_ _ _ Hm _]. destruct (inv_lookup _ _ _ _ Hb Hgb) as [_ _ _ _ Hby].
  apply (numbered_prefix (λ p, p.1.1.1.1.1) _ _ (cursor_of (gr_have rb) (node_str author)) (gr_next_seq ra - 1)).
  - rewrite <- list_fmap_compose. exact (Hby Hkept _).
  - rewrite <- list_fmap_compose. exact (Hm Hk).
  - intros p. rewrite !list_elem_of_fmap. intros (r & -> & Hin).
    destruct (Hr r Hin) as (r0 & H0 & [Hd Hf] & Hp). exists r0. split; [done|].
    apply list_elem_of_filter. split; [|done]. split_and!; [done..|].
    apply list_elem_of_filter in Hin as [(_ & _ & Hs) _]. by injection Hp as ->.
Qed.
End Exchange.

(** ** At work *)

Import ToyNet ToySerde Scene.

Lemma no_messages_sent e :
  forallb (λ '(_, c), forallb (negb ∘ is_msg) (ch_sent c)) (map_to_list (e_chans e)) = true →
  ∀ f, was_sent e f → is_msg f = false.
Proof.
  intros Hall f [tx Hf]. unfold sent_on in Hf.
  destruct (e_chans e !! tx) as [c|] eqn:Hc; [|by apply not_elem_of_nil in Hf].
  rewrite forallb_forall in Hall. apply elem_of_map_to_list, list_elem_of_In, Hall in Hc.
  rewrite forallb_forall in Hc. apply negb_true_iff, Hc, list_elem_of_In, Hf.
Qed.

Lemma sent_later e0 e f : f ∈ drop (length (sent_on e0 0)) (sent_on e 0) → was_sent e f.
Proof.
  intros Hf. exists 0%N. rewrite <- (take_drop (length (sent_on e0 0)) (sent_on e 0)).
  apply elem_of_app. by right.
Qed.

Lemma scene_init :
  sys_init Scene.alice Scene.bob Scene.gid (MkSys Scene.alice1 Scene.bob1).
Proof.
  split; [apply alice1_inv|]. split; [apply bob1_inv|]. split; [vm_compute; discriminate|]. split.
  - apply no_messages_sent. vm_compute. reflexivity.
  - vm_compute. reflexivity.
Qed.

Lemma scene_relayed :
  Forall (authentic Scene.alice Scene.alice2) (from_alice Scene.alice2 (length (sent_on Scene.alice1 0))).
Proof.
  apply Forall_fmap, Forall_forall. intros f Hf. split; [apply public_valid|].
  intros _ _. by apply (sent_later Scene.alice1).
Qed.

Lemma delivered_in_order_witness :
  let s := MkSys Scene.alice2 Scene.bob2 in
  length (received Scene.alice Scene.gid s) = 2 ∧
  (payload <$> received Scene.alice Scene.gid s) `prefix_of` (payload <$> authored Scene.alice Scene.gid s).
Proof.
  split; [vm_compute; reflexivity|].
  apply (delivered_in_order Scene.alice Scene.bob Scene.blobs Scene.blobs (Scene.env 1) (Scene.env 2)
    Scene.gid (MkSys Scene.alice1 Scene.bob1)).
  - apply scene_init.
  - apply (rtc_trans _ (MkSys Scene.alice2 Scene.bob1)).
    + eapply author_runs; [reflexivity|vm_compute; reflexivity..].
    + eapply reader_runs; [reflexivity|apply scene_relayed|vm_compute; reflexivity].
  - vm_compute. discriminate.
Defined.
