(* ===== verification/History.v ===== *)
(** * The history of a one-to-one chat

    What the user interface shows of a chat with a paired contact is what a
    restart would read back once the rows on their way to disk are there - when
    they arrive whole and in the order they were handed over, which nothing in the
    code makes sure of ([late_row]) - and a text shown as queued is in the queue
    that the next session empties. *)

From stdpp Require Import relations.
From S2P Require Import Prelude Str Net Groups Frames Engine Delivery Rosters GroupWire Chat Files Media Effects Footprint GroupInv Ops Scene Safety.

(** ** Rows *)

Definition same_id (id : str) (m : StoredMsg) : bool := is_out m && bool_decide (sm_id m = id).
Definition set_state (id s : str) (m : StoredMsg) : StoredMsg := if same_id id m then with_state m s else m.

(** A row read from the log: a later state of a message that is there, or a new
    message. *)
Definition upsert (l : list StoredMsg) (m : StoredMsg) : list StoredMsg :=
  if is_out m && existsb (same_id (sm_id m)) l
  then set_state (sm_id m) (sm_state m) <$> l else l ++ [m].

Definition out_ids (l : list StoredMsg) : list str := sm_id <$> filter (λ m, is_out m = true) l.

Lemma same_id_spec id m : same_id id m = true ↔ is_out m = true ∧ sm_id m = id.
Proof. unfold same_id. by rewrite andb_true_iff, bool_decide_eq_true. Qed.
Lemma set_state_id id s m : sm_id (set_state id s m) = sm_id m.
Proof. unfold set_state. by destruct (same_id id m). Qed.
Lemma set_state_out id s m : is_out (set_state id s m) = is_out m.
Proof. unfold set_state. by destruct (same_id id m). Qed.
Lemma set_state_none id s l : Forall (λ m, same_id id m = false) l → set_state id s <$> l = l.
Proof.
  intros H. induction H as [|m l Hm _ IH]; [done|]. cbn. unfold set_state at 1. by rewrite Hm, IH.
Qed.
Lemma out_ids_set id s l : out_ids (set_state id s <$> l) = out_ids l.
Proof.
  unfold out_ids. induction l as [|m l IH]; [done|]. rewrite fmap_cons, !filter_cons, set_state_out.
  case_decide; [|done]. by rewrite !fmap_cons, set_state_id, IH.
Qed.
Lemma out_ids_app l1 l2 : out_ids (l1 ++ l2) = out_ids l1 ++ out_ids l2.
Proof. unfold out_ids. by rewrite filter_app, fmap_app. Qed.
Lemma elem_of_out_ids id l : id ∈ out_ids l ↔ ∃ m, m ∈ l ∧ same_id id m = true.
Proof.
  unfold out_ids. rewrite list_elem_of_fmap. setoid_rewrite list_elem_of_filter. setoid_rewrite same_id_spec.
  naive_solver.
Qed.
Lemma existsb_same id l : existsb (same_id id) l = true ↔ id ∈ out_ids l.
Proof. rewrite existsb_exists, elem_of_out_ids. by setoid_rewrite list_elem_of_In. Qed.
Lemma no_same id l : id ∉ out_ids l → Forall (λ m, same_id id m = false) l.
Proof.
  intros H. apply Forall_forall. intros m Hm. apply not_true_is_false. intros Hs. apply H, elem_of_out_ids. eauto.
Qed.

Lemma upsert_new l m : (is_out m = true → sm_id m ∉ out_ids l) → upsert l m = l ++ [m].
Proof.
  intros H. unfold upsert. destruct (is_out m); [|done]. cbn [andb].
  destruct (existsb _ l) eqn:He; [|done]. apply existsb_same in He. by destruct H.
Qed.
Lemma upsert_ids l m : NoDup (out_ids l) → NoDup (out_ids (upsert l m)).
Proof.
  intros Hnd. unfold upsert. destruct (is_out m) eqn:Ho; cbn [andb].
  - destruct (existsb _ l) eqn:He; [by rewrite out_ids_set|].
    rewrite out_ids_app. apply NoDup_app. split_and!; [done| |].
    + intros x Hx Hx'. apply elem_of_out_ids in Hx' as (y & ->%list_elem_of_singleton & [_ <-]%same_id_spec).
      apply existsb_same in Hx. congruence.
    + unfold out_ids. rewrite filter_cons, decide_True by done. apply NoDup_singleton.
  - rewrite out_ids_app. unfold out_ids at 2. rewrite filter_cons, decide_False by congruence.
    cbn. by rewrite app_nil_r.
Qed.

(** [collapse_history] folds [upsert]. *)
Definition indexed (out : list StoredMsg) (index : gmap str nat) : Prop :=
  ∀ id i, index !! id = Some i ↔ ∃ m, out !! i = Some m ∧ same_id id m = true.

Lemma indexed_none out index id : indexed out index → index !! id = None → id ∉ out_ids out.
Proof.
  intros Hx Hi (m & [i Hm]%list_elem_of_lookup & Hs)%elem_of_out_ids.
  assert (index !! id = Some i) by (apply Hx; eauto). congruence.
Qed.

Lemma alter_set_state out index id i s :
  indexed out index → index !! id = Some i →
  alter (λ o, with_state o s) i out = set_state id s <$> out.
Proof.
  intros Hx Hi. apply list_eq. intros j. rewrite list_lookup_fmap. destruct (decide (i = j)) as [<-|Hne].
  - rewrite list_lookup_alter_eq. apply Hx in Hi as (m & -> & Hs). cbn. unfold set_state. by rewrite Hs.
  - rewrite list_lookup_alter_ne by done. destruct (out !! j) as [m|] eqn:Hj; [|done]. cbn.
    unfold set_state. destruct (same_id id m) eqn:Hs; [|done].
    assert (index !! id = Some j) by (apply Hx; eauto). congruence.
Qed.

Lemma indexed_set out index id s : indexed out index → indexed (set_state id s <$> out) index.
Proof.
  intros Hx k i. rewrite (Hx k i), list_lookup_fmap. split.
  - intros (m & -> & Hs). eexists. split; [done|]. apply same_id_spec. rewrite set_state_out, set_state_id.
    by apply same_id_spec.
  - intros (m & (m0 & -> & ->)%fmap_Some & Hs). eexists. split; [done|]. apply same_id_spec in Hs.
    rewrite set_state_out, set_state_id in Hs. by apply same_id_spec.
Qed.

Lemma indexed_snoc_in out index m : indexed out index → is_out m = false → indexed (out ++ [m]) index.
Proof.
  intros Hx Hm k i. rewrite (Hx k i). split; intros (m' & Hi & Hs).
  - exists m'. split; [by apply lookup_app_l_Some|done].
  - apply lookup_snoc_Some in Hi as [[_ Hi]|[_ <-]]; [by eauto|].
    apply same_id_spec in Hs as [Ho _]. congruence.
Qed.

Lemma indexed_snoc_out out index m :
  indexed out index → is_out m = true → index !! sm_id m = None →
  indexed (out ++ [m]) (<[sm_id m := length out]> index).
Proof.
  intros Hx Hm Hi k i. rewrite lookup_insert_Some, (Hx k i). split.
  - intros [[<- <-]|(Hne & m' & Hl & Hs)].
    + exists m. split; [by rewrite list_lookup_middle|]. by apply same_id_spec.
    + exists m'. split; [by apply lookup_app_l_Some|done].
  - intros (m' & [[Hlt Hl]|[-> <-]]%lookup_snoc_Some & Hs).
    + right. split; [|by eauto]. intros <-. eapply (indexed_none out index (sm_id m)); [done..|].
      apply elem_of_out_ids. exists m'. split; [by eapply list_elem_of_lookup_2|done].
    + left. apply same_id_spec in Hs as [_ <-]. done.
Qed.

Lemma collapse_go_fold raw : ∀ out index,
  indexed out index → collapse_go out index raw = foldl upsert out raw.
Proof.
  induction raw as [|m raw IH]; intros out index Hx; [done|]. cbn [collapse_go foldl].
  destruct (is_out m) eqn:Ho.
  - destruct (index !! sm_id m) as [i|] eqn:Hi.
    + rewrite (alter_set_state out index (sm_id m)) by done. rewrite IH by by apply indexed_set. f_equal. unfold upsert.
      rewrite Ho, (proj2 (existsb_same _ _)); [done|]. apply Hx in Hi as (o & Hl & Hs).
      apply elem_of_out_ids. exists o. split; [by eapply list_elem_of_lookup_2|done].
    + rewrite IH by by apply indexed_snoc_out. f_equal. symmetry. apply upsert_new. intros _.
      by eapply indexed_none.
  - rewrite IH by by apply indexed_snoc_in. f_equal. symmetry. apply upsert_new. congruence.
Qed.

Lemma collapse_fold raw : collapse_history raw = foldl upsert [] raw.
Proof.
  apply collapse_go_fold. intros id i. rewrite lookup_empty, lookup_nil. naive_solver.
Qed.
Lemma collapse_app raw new : collapse_history (raw ++ new) = foldl upsert (collapse_history raw) new.
Proof. by rewrite !collapse_fold, foldl_app. Qed.
Lemma foldl_upsert_ids new : ∀ l, NoDup (out_ids l) → NoDup (out_ids (foldl upsert l new)).
Proof. induction new as [|m new IH]; intros l Hl; [done|]. by apply IH, upsert_ids. Qed.
Lemma collapse_ids raw : NoDup (out_ids (collapse_history raw)).
Proof. rewrite collapse_fold. apply foldl_upsert_ids, NoDup_nil_2. Qed.

(** A declarative reading: each outbound message once, where it first appears,
    in the state of its last row; every other row as it is. *)
Definition last_state (id s : str) (raw : list StoredMsg) : str :=
  foldl (λ s m, if same_id id m then sm_state m else s) s raw.
Definition settle (raw : list StoredMsg) (m : StoredMsg) : StoredMsg :=
  if is_out m then with_state m (last_state (sm_id m) (sm_state m) raw) else m.
Fixpoint shown (seen : list str) (raw : list StoredMsg) : list StoredMsg :=
  match raw with
  | [] => []
  | m :: raw =>
      if is_out m then
        if bool_decide (sm_id m ∈ seen) then shown seen raw
        else settle raw m :: shown (seen ++ [sm_id m]) raw
      else m :: shown seen raw
  end.

Lemma last_state_cons id s m raw :
  last_state id s (m :: raw) = last_state id (if same_id id m then sm_state m else s) raw.
Proof. done. Qed.
Lemma same_id_in id m : is_out m = false → same_id id m = false.
Proof. unfold same_id. by intros ->. Qed.
Lemma same_id_ne id m : sm_id m ≠ id → same_id id m = false.
Proof. intros H. unfold same_id. by rewrite bool_decide_false, andb_false_r. Qed.

Lemma settle_set m raw o :
  is_out m = true → settle raw (set_state (sm_id m) (sm_state m) o) = settle (m :: raw) o.
Proof.
  intros Hm. unfold settle. rewrite set_state_out, set_state_id.
  destruct (is_out o) eqn:Ho; [|unfold set_state; by rewrite same_id_in].
  rewrite last_state_cons. unfold set_state. destruct (decide (sm_id o = sm_id m)) as [He|He].
  - by rewrite !(proj2 (same_id_spec _ _)) by done.
  - by rewrite !same_id_ne by done.
Qed.
Lemma settle_in m raw o : is_out m = false → settle (m :: raw) o = settle raw o.
Proof. intros Hm. unfold settle. by rewrite last_state_cons, same_id_in. Qed.
Lemma settle_new m raw o :
  is_out m = true → (is_out o = true → sm_id m ≠ sm_id o) → settle (m :: raw) o = settle raw o.
Proof.
  intros Hm Hne. unfold settle. destruct (is_out o); [|done]. rewrite last_state_cons, same_id_ne; auto.
Qed.

Lemma fold_shown raw : ∀ l, foldl upsert l raw = (settle raw <$> l) ++ shown (out_ids l) raw.
Proof.
  induction raw as [|m raw IH]; intros l; cbn [foldl shown].
  { rewrite app_nil_r. symmetry. rewrite <- (list_fmap_id l) at 2. apply list_fmap_ext. intros _ o _.
    unfold settle. by destruct (is_out o) eqn:Ho, o. }
  rewrite IH. destruct (is_out m) eqn:Ho.
  - case_bool_decide as Hin.
    + unfold upsert. rewrite Ho, (proj2 (existsb_same _ _)) by done. cbn [andb].
      rewrite out_ids_set, <- list_fmap_compose. f_equal. apply list_fmap_ext. intros _ o _. by apply settle_set.
    + rewrite upsert_new by done. rewrite out_ids_app, fmap_app, <- app_assoc. unfold out_ids at 2.
      rewrite filter_cons, decide_True by done. cbn. f_equal. apply list_fmap_ext. intros i o Hi.
      symmetry. apply settle_new; [done|]. intros Hoo He. apply Hin, elem_of_out_ids. exists o.
      split; [by eapply list_elem_of_lookup_2|by apply same_id_spec].
  - rewrite upsert_new by congruence. rewrite out_ids_app, fmap_app, <- app_assoc. unfold out_ids at 2.
    rewrite filter_cons, decide_False by congruence. cbn. rewrite app_nil_r. unfold settle at 2. rewrite Ho.
    f_equal. apply list_fmap_ext. intros _ o _. symmetry. by apply settle_in.
Qed.

(** Reading the rows of a chat back shows each message of this device once,
    at the place of its first row and in the state of its last, and every
    received message as it was stored. *)
Theorem collapse_history_correct raw : collapse_history raw = shown [] raw.
Proof. by rewrite collapse_fold, fold_shown. Qed.

(** ** Changing the last state in memory *)

Lemma update_last_spec p f l : match update_last p f l with
  | Some (x, l') => ∃ l1 y l2, l = l1 ++ y :: l2 ∧ p y = true ∧ x = f y ∧ l' = l1 ++ f y :: l2
  | None => Forall (λ m, p m = false) l
  end.
Proof.
  induction l as [|m l IH]; cbn; [done|]. destruct (update_last p f l) as [[x l']|].
  - destruct IH as (l1 & y & l2 & -> & ? & -> & ->). by exists (m :: l1), y, l2.
  - destruct (p m) eqn:Hm; [by exists [], m, l|by constructor].
Qed.

(** With distinct ids it is the row that a restart would apply. *)
Lemma update_last_upsert p id s l :
  (∀ m, p m = same_id id m) → NoDup (out_ids l) →
  match update_last p (λ x, with_state x s) l with
  | Some (x, l') => l' = upsert l x ∧ x ∈ l' ∧ same_id id x = true ∧ sm_state x = s ∧ id ∈ out_ids l
  | None => id ∉ out_ids l
  end.
Proof.
  intros Hp Hnd. pose proof (update_last_spec p (λ x, with_state x s) l) as H.
  destruct (update_last _ _ l) as [[x l']|].
  - destruct H as (l1 & y & l2 & -> & Hy & -> & ->). rewrite Hp in Hy. pose proof Hy as [Ho Hid]%same_id_spec.
    rewrite out_ids_app in Hnd. unfold out_ids at 2 in Hnd. rewrite filter_cons, decide_True in Hnd by done.
    rewrite fmap_cons, Hid in Hnd. fold (out_ids l2) in Hnd.
    apply NoDup_app in Hnd as (_ & H1 & [H2 _]%NoDup_cons).
    assert (Hin : id ∈ out_ids (l1 ++ y :: l2)).
    { apply elem_of_out_ids. exists y. split; [set_solver|done]. }
    split_and!; [|set_solver|by apply same_id_spec|done|done].
    unfold upsert. cbn [sm_id with_state]. change (is_out (with_state y s)) with (is_out y).
    rewrite Ho, (proj2 (existsb_same _ _)) by by rewrite Hid. cbn [andb sm_state with_state].
    rewrite fmap_app, fmap_cons, Hid. unfold set_state at 2. rewrite Hy.
    rewrite !set_state_none; [done| |].
    + by apply no_same.
    + apply no_same. intros Hx. by apply (H1 id Hx), list_elem_of_here.
  - intros (m & Hm & Hs)%elem_of_out_ids. rewrite Forall_forall in H. rewrite <- Hp, (H m Hm) in Hs. done.
Qed.

(** ** The invariant *)

Section History.
Context {P : Platform} {SD : Serde} {En : Env} {CT : CharTable} {B64 : Base64}.
Context (secret : secret_key) (blobs_dir : str).

(** The log of a chat, the rows read from it, and those on their way to it. *)
Definition lines_of (e : P2p) (node : node_id) : list RowLine := default [] (dk_rows (e_disk e) !! node).
Definition rows_of (e : P2p) (node : node_id) : list StoredMsg := read_rows (lines_of e node).
Definition on_way (e : P2p) (node : node_id) : list StoredMsg :=
  snd <$> filter (λ w, w.1 = node) (e_writes e).
Definition all_rows (e : P2p) (node : node_id) : list StoredMsg := rows_of e node ++ on_way e node.
Definition whole (file : list RowLine) : Prop := ∃ rows, file = RowMsg <$> rows.

Lemma read_whole rows : read_rows (RowMsg <$> rows) = rows.
Proof.
  unfold read_rows. replace (existsb row_split (RowMsg <$> rows)) with false.
  - induction rows as [|m rows IH]; [done|]. cbn. by f_equal.
  - symmetry. induction rows as [|m rows IH]; [done|]. exact IH.
Qed.
Lemma add_whole rows m : add_row (RowMsg <$> rows) RowWhole m = RowMsg <$> (rows ++ [m]).
Proof.
  unfold add_row, open_end. rewrite fmap_last, fmap_app. by destruct (last rows).
Qed.

(** An id drawn at an earlier tick. *)
Definition minted (tick : N) (id : str) : Prop := ∃ n, (n < tick)%N ∧ id = env_random_id n.
Definition drawn (tick : N) (m : StoredMsg) : Prop := is_out m = true → minted tick (sm_id m).

Record peer_ok (tick : N) (rows : list StoredMsg) (p : Peer) : Prop := {
  po_ids : NoDup (out_ids (p_msgs p));
  po_msgs : Forall (drawn tick) (p_msgs p);
  po_queue : Forall (λ m, is_out m = true ∧ minted tick (sm_id m)) (p_queued p);
  po_disk : p_kind p = Paired → p_msgs p = collapse_history rows;
  po_waiting : p_kind p = Paired → sublist (queued_from (p_msgs p)) (p_queued p);
}.

Record hist (e : P2p) : Prop := {
  h_peers : ∀ n p, peers e !! n = Some p → peer_ok (e_tick e) (all_rows e n) p;
  h_rows : ∀ n, Forall (drawn (e_tick e)) (all_rows e n);
  h_whole : ∀ n, whole (lines_of e n);
}.

Lemma minted_mono t t' id : (t ≤ t')%N → minted t id → minted t' id.
Proof. intros Ht (n & ? & ->). exists n. split; [lia|done]. Qed.
Lemma drawn_mono t t' l : (t ≤ t')%N → Forall (drawn t) l → Forall (drawn t') l.
Proof.
  intros Ht H. eapply Forall_impl; [exact H|]. intros m Hm Ho. eapply minted_mono; eauto.
Qed.
Lemma peer_ok_mono t t' rows p : (t ≤ t')%N → peer_ok t rows p → peer_ok t' rows p.
Proof.
  intros Ht [Hi Hm Hq Hd Hw]. split; [done|by eapply drawn_mono| |done..].
  eapply Forall_impl; [exact Hq|]. intros m [? ?]. split; [done|]. by eapply minted_mono.
Qed.

(** ** Operations that leave chats alone *)

Definition same_chat (p p0 : Peer) : Prop :=
  p_kind p = p_kind p0 ∧ p_msgs p = p_msgs p0 ∧ p_queued p = p_queued p0.

(** No peer's history changed; peers may have gone, or been introduced. *)
Record mild (e e' : P2p) : Prop := {
  mi_rows : dk_rows (e_disk e') = dk_rows (e_disk e) ∧ e_writes e' = e_writes e;
  mi_tick : (e_tick e ≤ e_tick e')%N;
  mi_peers : ∀ n p, peers e' !! n = Some p →
    (∃ p0, peers e !! n = Some p0 ∧ same_chat p p0) ∨ same_chat p (new_introduced [] [])
}.

#[export] Instance mild_preorder : PreOrder mild.
Proof.
  split.
  - intros e. split; [done|lia|]. intros n p Hp. left. by exists p.
  - intros e1 e2 e3 [[R1 W1] T1 P1] [[R2 W2] T2 P2]. split; [split; congruence|lia|]. intros n p Hp.
    destruct (P2 n p Hp) as [(p0 & Hp0 & ? & ? & ?)|?]; [|by right].
    destruct (P1 n p0 Hp0) as [(p1 & ? & ? & ? & ?)|(? & ? & ?)]; [left; exists p1|right];
      unfold same_chat in *; split_and!; congruence.
Qed.

Lemma mild_hist e e' : mild e e' → hist e → hist e'.
Proof.
  intros [[Hr0 Hw0] Ht Hp] [Hpeers Hrows Hwhole].
  assert (Hr : ∀ n, all_rows e' n = all_rows e n)
    by (intros n; unfold all_rows, rows_of, lines_of, on_way; by rewrite Hr0, Hw0).
  split; intros n; [| |unfold lines_of; rewrite Hr0; apply Hwhole].
  - intros p Hn. rewrite Hr. destruct (Hp n p Hn) as [(p0 & H0 & Hk & Hm & Hq)|(Hk & Hm & Hq)].
    + apply (peer_ok_mono _ _ _ _ Ht). destruct (Hpeers n p0 H0) as [H1 H2 H3 H4 H5].
      split; rewrite ?Hk, ?Hm, ?Hq; auto.
    + cbn in Hk, Hm, Hq. split; rewrite ?Hm, ?Hq, ?Hk; [constructor..|done|done].
  - rewrite Hr. eapply drawn_mono; [exact Ht|done].
Qed.

(** Steps elsewhere in the state. *)
Lemma mild_other e e' :
  dk_rows (e_disk e') = dk_rows (e_disk e) ∧ e_writes e' = e_writes e →
  (e_tick e ≤ e_tick e')%N → peers e' = peers e → mild e e'.
Proof. intros ? ? Hp. split; [done..|]. intros n p. rewrite Hp. left. by exists p. Qed.

Lemma mild_peers e f :
  (∀ n p, f (peers e) !! n = Some p →
     (∃ p0, peers e !! n = Some p0 ∧ same_chat p p0) ∨ same_chat p (new_introduced [] [])) →
  mild e (on_peers f e).
Proof. intros H. split; [done|cbn; lia|]. exact H. Qed.

Lemma mild_alter e n f : (∀ p, same_chat (f p) p) → mild e (on_peers (alter f n) e).
Proof.
  intros Hf. apply mild_peers. intros n' p. rewrite lookup_alter_Some.
  intros [(<- & p0 & ? & ->)|(? & ?)]; left; eauto. by exists p.
Qed.
Lemma mild_insert e n p p0 :
  peers e !! n = Some p0 → same_chat p p0 → mild e (on_peers <[n:=p]> e).
Proof.
  intros H0 Hs. apply mild_peers. intros n' p'. rewrite lookup_insert_Some.
  intros [(<- & <-)|(? & ?)]; left; eauto. by exists p'.
Qed.

Lemma introduce_chat (ps0 ps : gmap node_id Peer) m :
  (∀ n p, ps !! n = Some p → (∃ p0, ps0 !! n = Some p0 ∧ same_chat p p0) ∨ same_chat p (new_introduced [] [])) →
  (∀ n p, introduce secret ps m !! n = Some p →
     (∃ p0, ps0 !! n = Some p0 ∧ same_chat p p0) ∨ same_chat p (new_introduced [] [])).
Proof.
  intros H n p. unfold introduce. destruct (node_parse _) as [i|]; [|apply H]. case_bool_decide; [apply H|].
  cbn zeta. destruct (ps !! i) as [q|] eqn:Hq.
  - destruct (bool_decide (p_kind q = Paired)); [apply H|]. rewrite lookup_insert_Some.
    intros [(<- & <-)|(_ & ?)]; [|by apply H].
    destruct (H i q Hq) as [(q0 & Hq0 & Hs)|Hs]; [left; exists q0; split; [done|]|right];
      by repeat case_match.
  - rewrite lookup_insert_Some. intros [(<- & <-)|(_ & ?)]; [by right|by apply H].
Qed.

Lemma rebuild_chat (ps : gmap node_id Peer) gs n p : rebuild_introduced secret ps gs !! n = Some p →
  (∃ p0, ps !! n = Some p0 ∧ same_chat p p0) ∨ same_chat p (new_introduced [] []).
Proof.
  unfold rebuild_introduced. revert n p. generalize (live_groups gs ≫= λ g, gs_members (gr_state g)) as ms.
  intros ms. assert (H : ∀ n p, ps !! n = Some p →
    (∃ p0, ps !! n = Some p0 ∧ same_chat p p0) ∨ same_chat p (new_introduced [] [])) by (left; by exists p).
  revert H. generalize ps at 1 3. induction ms as [|m ms IH]; intros ps' H; [exact H|]. cbn [foldl].
  apply IH. intros n p. by apply introduce_chat.
Qed.

Lemma sync_introduced_mild : Ev mild (sync_introduced secret).
Proof.
  intros e. apply mild_peers. intros n p. unfold gc_introduced.
  intros [Hp _]%map_lookup_filter_Some. by eapply rebuild_chat.
Qed.

Ltac others := repeat first
  [ match goal with
    | |- Ev mild (modify _) => apply ev_modify; intros ?; by apply mild_other
    | |- Ev mild (emit _) => apply ev_modify; intros ?; by apply mild_other
    end | eff_step ].

#[export] Instance mild_foot : Foot secret mild.
Proof.
  split; try solve [typeclasses eauto|intros; intros ?; by apply mild_other|intros; by apply mild_other].
  - intros e. apply mild_other; [done|cbn; lia|done].
  - apply listed_any; [typeclasses eauto|..]; intros; apply mild_other; (done || cbn; lia).
  - intros f n e Hf. by apply mild_alter.
  - apply sync_introduced_mild.
Qed.
#[export] Instance mild_drop : FootDrop blobs_dir mild.
Proof.
  split.
  - intros pred. unfold drop_group_inbound, remove_file. others.
  - intros gid. unfold delete_group_blobs, drop_group_inbound, remove_file, remove_dir_all. others.
Qed.
#[export] Instance mild_front : FootFront mild.
Proof. split; intros; by apply mild_other. Qed.
#[export] Instance mild_ask : FootAsk mild.
Proof. split; intros; by apply mild_other. Qed.
#[export] Instance mild_files : FootFiles mild.
Proof. intros f e. by apply mild_other. Qed.
#[export] Instance mild_rx : FootRx mild.
Proof. split; intros f e; by apply mild_other. Qed.
#[export] Instance mild_xfers : FootXfers mild.
Proof. intros f e. by apply mild_other. Qed.

Abbreviation keeps := (Ev (stays hist)) (only parsing).

Lemma mild_keeps {A} (m : M A) : Ev mild m → keeps m.
Proof. apply ev_stays, mild_hist. Qed.

(** ** Operations on a chat *)

Definition texts_ok (tick : N) (l : list StoredMsg) : Prop :=
  Forall (λ m, is_out m = true ∧ minted tick (sm_id m)) l.

Lemma drawn_out t l : Forall (drawn t) l ↔ ∀ id, id ∈ out_ids l → minted t id.
Proof.
  rewrite Forall_forall. unfold drawn. setoid_rewrite elem_of_out_ids. setoid_rewrite same_id_spec. naive_solver.
Qed.

Lemma out_ids_upsert l m : out_ids (upsert l m) ⊆ out_ids l ++ out_ids [m].
Proof.
  unfold upsert. destruct (_ && _); [rewrite out_ids_set|rewrite out_ids_app]; set_solver.
Qed.
Lemma out_ids_fold new : ∀ l, out_ids (foldl upsert l new) ⊆ out_ids l ++ out_ids new.
Proof.
  induction new as [|m new IH]; intros l; cbn [foldl]; [set_solver|].
  pose proof (IH (upsert l m)). pose proof (out_ids_upsert l m). change (m :: new) with ([m] ++ new).
  rewrite out_ids_app. set_solver.
Qed.
Lemma drawn_fold t l new : Forall (drawn t) l → Forall (drawn t) new → Forall (drawn t) (foldl upsert l new).
Proof.
  rewrite !drawn_out. intros Hl Hn id Hid. apply out_ids_fold, elem_of_app in Hid as []; auto.
Qed.
Lemma drawn_collapse t rows : Forall (drawn t) rows → Forall (drawn t) (collapse_history rows).
Proof. intros H. rewrite collapse_fold. by apply drawn_fold. Qed.
Lemma texts_queued t l : Forall (drawn t) l → texts_ok t (queued_from l).
Proof.
  unfold texts_ok, queued_from. rewrite !Forall_forall. intros H m [Hq Hm]%list_elem_of_filter.
  apply Is_true_true, andb_true_iff in Hq as [[Ho _]%andb_true_iff _]. split; [done|]. by apply H.
Qed.

Lemma way_new (node n : node_id) (new : list StoredMsg) :
  snd <$> filter (λ w, w.1 = n) ((node,.) <$> new) = if decide (n = node) then new else [].
Proof.
  case_decide as Hn; induction new as [|m new IH]; try done; rewrite fmap_cons, filter_cons; cbn.
  - rewrite decide_True by done. cbn. by f_equal.
  - rewrite decide_False by congruence. exact IH.
Qed.

(** New rows of one chat, in memory and on their way to disk. *)
Lemma hist_store e e' node p p' new :
  hist e → peers e !! node = Some p →
  peers e' = <[node := p']> (peers e) → (e_tick e ≤ e_tick e')%N →
  dk_rows (e_disk e') = dk_rows (e_disk e) ∧ e_writes e' = e_writes e ++ ((node,.) <$> new) →
  p_kind p' = p_kind p → p_msgs p' = foldl upsert (p_msgs p) new → Forall (drawn (e_tick e')) new →
  texts_ok (e_tick e') (p_queued p') →
  (p_kind p = Paired → sublist (queued_from (p_msgs p')) (p_queued p')) →
  hist e'.
Proof.
  intros [Hpeers Hrows Hwhole] Hp Hps Ht [Hrs Hws] Hk Hm Hnew Hq Hw.
  assert (Hr : ∀ n, all_rows e' n = if decide (n = node) then all_rows e n ++ new else all_rows e n).
  { intros n. unfold all_rows, rows_of, lines_of, on_way. rewrite Hrs, Hws, filter_app, fmap_app, way_new.
    case_decide; [by rewrite app_assoc|by rewrite app_nil_r]. }
  destruct (Hpeers node p Hp) as [H0 H1 H2 H3 H4].
  split; intros n; [| |unfold lines_of; rewrite Hrs; apply Hwhole].
  - intros q Hqn. rewrite Hr. rewrite Hps, lookup_insert_Some in Hqn. case_decide as Hn.
    + subst n. destruct Hqn as [[_ <-]|[? _]]; [|done]. split; rewrite ?Hm, ?Hk.
      * by apply foldl_upsert_ids.
      * apply drawn_fold; [by eapply drawn_mono|done].
      * done.
      * intros Hpair. rewrite collapse_app, H3 by done. done.
      * rewrite <- Hm. done.
    + destruct Hqn as [[<- _]|[_ Hqn]]; [done|]. by eapply peer_ok_mono, Hpeers.
  - rewrite Hr. case_decide; [apply Forall_app; split; [|done]|]; by eapply drawn_mono.
Qed.

Lemma peers_alter_insert (ps : gmap node_id Peer) n p f :
  ps !! n = Some p → alter f n ps = <[n := f p]> ps.
Proof.
  intros Hp. apply map_eq. intros n'. destruct (decide (n = n')) as [<-|].
  - by rewrite lookup_insert_eq, lookup_alter_eq, Hp.
  - by rewrite lookup_insert_ne, lookup_alter_ne.
Qed.

Lemma queued_app l m : queued_from (l ++ [m]) = queued_from l ++ queued_from [m].
Proof. apply filter_app. Qed.

(** A state other than "queued" takes a message off what waits. *)
Definition waits (m : StoredMsg) : Prop :=
  Is_true (is_out m && bool_decide (sm_state m = lit "queued") && bool_decide (sm_file m = None)).

Lemma waits_not m : sm_state m ≠ lit "queued" → ¬ waits m.
Proof. intros H. unfold waits. rewrite (bool_decide_false (sm_state m = _)), andb_false_r by done. by intros []. Qed.
Lemma waits_in m : is_out m = false → ¬ waits m.
Proof. unfold waits. intros ->. by intros []. Qed.

Lemma queued_set id s l : s ≠ lit "queued" → sublist (queued_from (set_state id s <$> l)) (queued_from l).
Proof.
  intros Hs. induction l as [|m l IH]; [done|]. rewrite fmap_cons. unfold queued_from in *. rewrite !filter_cons.
  assert (H : set_state id s m = m ∨ ¬ waits (set_state id s m)).
  { unfold set_state. destruct (same_id id m); [right; by apply waits_not|by left]. }
  destruct H as [->|H].
  - case_decide; [by apply sublist_skip|done].
  - rewrite decide_False by done. case_decide; [by apply sublist_cons|done].
Qed.
Lemma queued_upsert l m :
  sm_state m ≠ lit "queued" → sublist (queued_from (upsert l m)) (queued_from l).
Proof.
  intros Hs. unfold upsert. destruct (_ && _); [by apply queued_set|]. rewrite queued_app.
  unfold queued_from at 2. rewrite filter_cons, decide_False by by apply waits_not. by rewrite app_nil_r.
Qed.

Lemma push_msg_keeps from m : is_out m = false → keeps (push_msg from m).
Proof.
  intros Hm e Hh. unfold push_msg. run_gets. destruct (peers e !! from) as [p|] eqn:Hp; [|exact Hh].
  destruct (h_peers e Hh from p Hp) as [H0 H1 H2 H3 H4].
  eapply (hist_store e _ from p _ [m]); try done.
  - symmetry. apply (upsert_new (p_msgs p) m). by rewrite Hm.
  - constructor; [|constructor]. intros Ho. by rewrite Hm in Ho.
  - intros Hk. cbn. rewrite queued_app. unfold queued_from at 2.
    rewrite filter_cons, decide_False by by apply waits_in. rewrite app_nil_r. auto.
Qed.

Lemma keeps_then {A B} (m : M A) (k : A → M B) e : hist (m e).2 → (∀ a, keeps (k a)) → hist ((m ≫= k) e).2.
Proof.
  intros Hm Hk. unfold mbind, M_bind. destruct (m e) as [[a|x] e']; [|exact Hm]. by apply Hk.
Qed.

Lemma on_ack_keeps from id : keeps (on_ack from id).
Proof.
  intros e Hh. unfold on_ack. run_gets. apply keeps_then; [|intros _; apply mild_keeps; others].
  destruct (peers e !! from) as [p|] eqn:Hp; [|exact Hh].
  destruct (h_peers e Hh from p Hp) as [H0 H1 H2 H3 H4].
  pose proof (update_last_upsert (λ m, bool_decide (sm_id m = id) && is_out m) id "acked" (p_msgs p)) as Hu.
  destruct (update_last _ _ _) as [[row msgs]|]; [|exact Hh].
  destruct Hu as (-> & Hin & Hsame & Hst & Hid); [by intros m; unfold same_id; rewrite andb_comm|done|].
  apply same_id_spec in Hsame as [Ho <-].
  eapply (hist_store e _ from p _ [row]); try done.
  - constructor; [|constructor]. intros _. by eapply drawn_out.
  - intros Hk. cbn. etrans; [apply queued_upsert; by rewrite Hst|auto].
Qed.

Lemma send_row_keeps e node p text rt rx file (sent : bool) id ts :
  (∀ m n, env_random_id m = env_random_id n → m = n) →
  hist e → peers e !! node = Some p → (file = None ∨ sent = true) → id = env_random_id (e_tick e) →
  let row := SMsg id ts "out" (if sent then lit "sent" else lit "queued") text rt rx file in
  ∀ p' e', same_chat p' (on_p_msgs (λ l, l ++ [row]) (if sent then p else on_p_queued (λ l, l ++ [row]) p)) →
  peers e' = <[node := p']> (peers e) → (e_tick e < e_tick e')%N →
  dk_rows (e_disk e') = dk_rows (e_disk e) ∧ e_writes e' = e_writes e ++ [(node, row)] →
  hist e'.
Proof.
  intros Hinj Hh Hp Hf -> row p' e' (Hk & Hm & Hq) Hps Ht Hrs.
  destruct (h_peers e Hh node p Hp) as [H0 H1 H2 H3 H4].
  assert (Hmint : minted (e_tick e') (env_random_id (e_tick e))) by (by exists (e_tick e)).
  assert (Hfresh : env_random_id (e_tick e) ∉ out_ids (p_msgs p)).
  { intros Hin. rewrite drawn_out in H1. destruct (H1 _ Hin) as (n & Hn & He). apply Hinj in He. lia. }
  assert (Hk' : p_kind p' = p_kind p) by (rewrite Hk; by destruct sent).
  assert (Hm' : p_msgs p' = p_msgs p ++ [row]) by (rewrite Hm; by destruct sent).
  assert (Hq' : p_queued p' = if sent then p_queued p else p_queued p ++ [row]) by (rewrite Hq; by destruct sent).
  assert (Hold : texts_ok (e_tick e') (p_queued p)).
  { eapply Forall_impl; [exact H2|]. intros m [? ?]. split; [done|]. eapply minted_mono; [|done]. lia. }
  eapply (hist_store e e' node p p' [row]); try done.
  - lia.
  - rewrite Hm'. symmetry. apply (upsert_new (p_msgs p) row). by intros _.
  - constructor; [|constructor]. by intros _.
  - rewrite Hq'. destruct sent; [done|]. apply Forall_app. split; [done|]. by repeat constructor.
  - intros Hpair. rewrite Hm', Hq', queued_app. unfold queued_from at 2. rewrite filter_cons. destruct sent.
    + rewrite decide_False by by apply waits_not. rewrite app_nil_r. auto.
    + destruct Hf as [->|?]; [|done]. rewrite decide_True by done.
      apply sublist_app; [auto|done].
Qed.

Definition fresh_ids : Prop := ∀ m n, env_random_id m = env_random_id n → m = n.

(** A channel operation changes nothing but channels. *)
Definition chans_only (e e' : P2p) : Prop := ∃ f, e' = on_e_chans f e.
#[local] Instance chans_only_preorder : PreOrder chans_only.
Proof.
  split; [intros []; by exists id|]. intros e1 e2 e3 [f ->] [g ->]. by exists (g ∘ f).
Qed.
Lemma send_only tx f : Ev chans_only (send tx f).
Proof. intros e. unfold send. case_match; [reflexivity|by eexists]. Qed.
Lemma send_all_only tx fs : Ev chans_only (send_all tx fs).
Proof. induction fs as [|f fs IH]; cbn [send_all]; [eff|]. apply ev_bind; [typeclasses eauto|apply send_only|]. intros []; eff. Qed.

Lemma send_text_keeps node text rt rx : fresh_ids → keeps (send_text node text rt rx).
Proof.
  intros Hinj e Hh. unfold send_text. run_guard; [|exact Hh]. rewrite run_random, run_now. run_gets.
  set (e1 := on_e_tick _ _). change (peers e1) with (peers e).
  assert (Hh1 : hist e1) by (eapply mild_hist; [|exact Hh]; apply mild_other; [done|cbn; lia|done]).
  destruct (peers e !! node) as [p|] eqn:Hp; [|exact Hh1]. run_guard; [|exact Hh1]. cbv zeta.
  set (q := reap e1 p). match goal with |- hist ((?m ≫= ?k) e1).2 => set (snd := m); set (rest := k) end.
  assert (Hs : Ev chans_only snd) by (unfold snd; destruct (p_live q); [eff|apply send_only]).
  specialize (Hs e1). unfold mbind at 1, M_bind at 1.
  destruct (snd e1) as [[sent|x] e2]; cbn in Hs; destruct Hs as [f ->]; [|eapply mild_hist; [|exact Hh1]; by apply mild_other].
  unfold rest. run_modify. apply keeps_then.
  - eapply (send_row_keeps e node p text rt rx None sent _ _ Hinj Hh Hp); [by left|done| |done|cbn; lia|done].
    by destruct sent.
  - intros _. apply mild_keeps. apply ev_bind; [typeclasses eauto| |eff]. eauto with eff foot.
Qed.

Lemma keeps_guard {B} b x (k : unit → M B) e :
  hist e → (b = true → hist (k tt e).2) → hist ((guard_else b x ≫= k) e).2.
Proof. intros Hh Hk. by destruct b; [apply Hk|]. Qed.

Lemma run_paired {B} node (k : unit → M B) e :
  (require_paired node ≫= k) e
  = if bool_decide (kind_of e node = Some Paired) then k tt e else (Err EUnknownPeer, e).
Proof. unfold require_paired. by case_bool_decide as H; unfold mbind, M_bind, gets; cbn; rewrite (bool_decide_decide _); case_decide. Qed.

Lemma send_file_keeps node src name caption : fresh_ids → keeps (send_file blobs_dir node src name caption).
Proof.
  intros Hinj e Hh. unfold send_file. rewrite run_paired. case_bool_decide as Hk0; [|exact Hh]. run_gets.
  destruct (dk_files (e_disk e) !! src) as [content|]; [|exact Hh]. cbv zeta. run_guard; [|exact Hh].
  rewrite run_random, run_tick.
  assert (Hlate : ∀ e', mild e e' → hist e') by (intros e' ?; by eapply mild_hist).
  run_guard; [|apply Hlate, mild_other; [done|cbn; lia|done]].
  run_modify. rewrite !run_now. run_gets.
  match goal with |- context [peers ?x] => set (e1 := x) end. change (peers e1) with (peers e).
  destruct (peers e !! node) as [p|] eqn:Hp; [|apply Hlate, mild_other; [done|cbn; lia|done]].
  run_guard; [|apply Hlate, mild_other; [done|cbn; lia|done]]. run_modify.
  set (q := reap e1 p). set (e2 := on_peers _ e1).
  assert (He2 : mild e e2).
  { trans e1; [apply mild_other; [done|cbn; lia|done]|]. by eapply mild_insert. }
  match goal with |- hist ((?m ≫= ?k) e2).2 => set (put := m); set (rest := k) end.
  assert (Hs : Ev chans_only put) by (unfold put; destruct (p_live q); [eff|apply send_all_only]).
  specialize (Hs e2). unfold mbind at 1, M_bind at 1.
  destruct (put e2) as [[sent|x] e3]; cbn in Hs; destruct Hs as [f ->].
  2: { apply Hlate. trans e2; [done|by apply mild_other]. }
  unfold rest. run_guard; [|apply Hlate; trans e2; [done|by apply mild_other]].
  run_modify. apply keeps_then; [|intros _; apply mild_keeps; eff].
  eapply (send_row_keeps e node p caption None None (Some _) true _ _ Hinj Hh Hp); [by right|done| |apply insert_insert_eq|cbn; lia|done].
  done.
Qed.

Definition text_frame (m : StoredMsg) : Frame :=
  Msg (sm_id m) (sm_ts m) (sm_text m) (sm_reply_to m) (sm_reply_text m).

Lemma send_open tx f e : is_closed e tx = false →
  is_closed (send tx f e).2 tx = false ∧ sent_on (send tx f e).2 tx = sent_on e tx ++ [f].
Proof.
  intros Hc. unfold send. rewrite Hc. cbn [snd]. rewrite sent_on_alter. unfold is_closed in *. cbn.
  rewrite lookup_alter_eq. destruct (e_chans e !! tx) as [c|]; [|done]. cbn.
  rewrite bool_decide_true by done. done.
Qed.

Lemma flush_one_spec node tx m e p :
  peers e !! node = Some p → is_out m = true → NoDup (out_ids (p_msgs p)) →
  ∃ row e', flush_one node tx m e = (Ok row, e') ∧ is_out row = true ∧ sm_id row = sm_id m ∧
    sm_state row = lit "sent" ∧
    peers e' = <[node := on_p_msgs (λ _, upsert (p_msgs p) row) p]> (peers e) ∧
    (dk_rows (e_disk e') = dk_rows (e_disk e) ∧ e_writes e' = e_writes e) ∧ e_tick e' = e_tick e ∧
    (is_closed e tx = false → is_closed e' tx = false ∧ sent_on e' tx = sent_on e tx ++ [text_frame m]).
Proof.
  intros Hp Ho Hnd. unfold flush_one. fold (text_frame m).
  set (frame := text_frame m). pose proof (send_only tx frame e) as Hs.
  pose proof (send_open tx frame e) as Hopen.
  unfold mbind at 1, M_bind at 1. destruct (send tx frame e) as [[b|x] e1] eqn:Hse.
  2: { exfalso. revert Hse. unfold send. by case_match. }
  destruct Hs as [f Hf]. cbn in Hf. subst e1. unfold emit. run_modify. run_gets.
  match goal with |- context [peers ?x] => set (e2 := x) end. change (peers e2) with (peers e). rewrite Hp.
  pose proof (update_last_upsert (λ x, is_out x && bool_decide (sm_id x = sm_id m)) (sm_id m) "sent" (p_msgs p)
    ltac:(done) Hnd) as Hu.
  destruct (update_last _ _ _) as [[row msgs]|].
  - destruct Hu as (-> & _ & [Hro Hri]%same_id_spec & Hrs & _). eexists _, _. split; [reflexivity|].
    by split_and!.
  - eexists _, _. split; [reflexivity|]. split_and!; try done.
    rewrite upsert_new; [done|]. by intros _.
Qed.

Lemma upsert_waits l r m :
  is_out r = true → sm_state r ≠ lit "queued" → m ∈ upsert l r → waits m → m ∈ l ∧ sm_id m ≠ sm_id r.
Proof.
  intros Ho Hs Hm Hw. assert (Hom : is_out m = true).
  { destruct (is_out m) eqn:H; [done|]. by apply waits_in in H. }
  unfold upsert in Hm. rewrite Ho in Hm. cbn [andb] in Hm. destruct (existsb _ l) eqn:He.
  - apply list_elem_of_fmap in Hm as (o & -> & Hin). unfold set_state in *.
    destruct (same_id (sm_id r) o) eqn:Hsame; [by eapply waits_not in Hw|]. split; [done|].
    intros Hid. apply not_true_iff_false in Hsame. apply Hsame, same_id_spec. done.
  - apply elem_of_app in Hm as [Hm| ->%list_elem_of_singleton]; [|by eapply waits_not in Hw].
    split; [done|]. intros Hid. apply not_true_iff_false in He. apply He, existsb_same, elem_of_out_ids.
    exists m. split; [done|]. by apply same_id_spec.
Qed.

Lemma fold_waits rows m : ∀ l,
  Forall (λ r, is_out r = true ∧ sm_state r ≠ lit "queued") rows →
  m ∈ foldl upsert l rows → waits m → m ∈ l ∧ sm_id m ∉ sm_id <$> rows.
Proof.
  induction rows as [|r rows IH]; intros l Hr Hm Hw; [split; [done|apply not_elem_of_nil]|].
  apply Forall_cons in Hr as [[Ho Hs] Hr]. destruct (IH _ Hr Hm Hw) as [Hin Hni].
  destruct (upsert_waits _ _ _ Ho Hs Hin Hw) as [? ?]. split; [done|]. rewrite fmap_cons. set_solver.
Qed.

Lemma elem_of_queued m l : m ∈ queued_from l ↔ waits m ∧ m ∈ l.
Proof. apply list_elem_of_filter. Qed.

Lemma flush_each_spec node tx ms : ∀ e p,
  peers e !! node = Some p → Forall (λ m, is_out m = true) ms → NoDup (out_ids (p_msgs p)) →
  ∃ rows e', flush_each node tx ms e = (Ok rows, e') ∧ sm_id <$> rows = sm_id <$> ms ∧
    Forall (λ r, is_out r = true ∧ sm_state r = lit "sent") rows ∧
    peers e' = <[node := on_p_msgs (λ _, foldl upsert (p_msgs p) rows) p]> (peers e) ∧
    (dk_rows (e_disk e') = dk_rows (e_disk e) ∧ e_writes e' = e_writes e) ∧ e_tick e' = e_tick e ∧
    (is_closed e tx = false → is_closed e' tx = false ∧ sent_on e' tx = sent_on e tx ++ (text_frame <$> ms)).
Proof.
  induction ms as [|m ms IH]; intros e p Hp Ho Hnd.
  { exists [], e. split_and!; try done; [rewrite insert_id; [done|]; rewrite Hp; by destruct p|]. by rewrite app_nil_r. }
  apply Forall_cons in Ho as [Hom Ho]. cbn [flush_each].
  destruct (flush_one_spec node tx m e p Hp Hom Hnd) as (row & e1 & Hrun & Hro & Hri & Hrs & Hp1 & Hd1 & Ht1 & Hc1).
  destruct (IH e1 (on_p_msgs (λ _, upsert (p_msgs p) row) p)) as (rows & e2 & Hrun2 & Hids & Hall & Hp2 & Hd2 & Ht2 & Hc2).
  - rewrite Hp1. apply lookup_insert_eq.
  - done.
  - by apply upsert_ids.
  - exists (row :: rows), e2. unfold mbind, M_bind. rewrite Hrun, Hrun2. split_and!; try congruence.
    + done.
    + rewrite !fmap_cons. congruence.
    + by constructor.
    + rewrite Hp2, Hp1, insert_insert_eq. done.
    + destruct Hd1, Hd2. congruence.
    + destruct Hd1, Hd2. congruence.
    + intros Hc. destruct (Hc1 Hc) as [Hc' Hs1], (Hc2 Hc') as [Hc'' Hs2]. split; [done|].
      rewrite Hs2, Hs1, <- app_assoc. done.
Qed.

(** [flush_queue]: what waited is "sent", in memory and on disk, and nothing
    waits any more. *)
Lemma flush_queue_spec node tx e p :
  hist e → peers e !! node = Some p →
  ∃ rows e', flush_queue node tx e = (Ok tt, e') ∧ hist e' ∧
    peers e' = <[node := on_p_msgs (λ _, foldl upsert (p_msgs p) rows) (on_p_queued (λ _, []) p)]> (peers e) ∧
    sm_id <$> rows = sm_id <$> p_queued p ∧ Forall (λ r, is_out r = true ∧ sm_state r = lit "sent") rows ∧
    (p_kind p = Paired → queued_from (foldl upsert (p_msgs p) rows) = []) ∧
    (is_closed e tx = false → sent_on e' tx = sent_on e tx ++ (text_frame <$> p_queued p)).
Proof.
  intros Hh Hp. destruct (h_peers e Hh node p Hp) as [H0 H1 H2 H3 H4].
  unfold flush_queue. run_gets. rewrite Hp. run_modify. set (e1 := on_peers _ e).
  destruct (flush_each_spec node tx (p_queued p) e1 (on_p_queued (λ _, []) p))
    as (rows & e2 & Hrun & Hids & Hall & Hps & Hrs & Ht & Hc).
  { apply lookup_insert_eq. } { eapply Forall_impl; [exact H2|]. by intros m []. } { done. }
  exists rows. eexists. unfold mbind, M_bind. rewrite Hrun. split; [reflexivity|].
  set (p' := on_p_msgs _ _) in Hps.
  assert (Hps' : peers e2 = <[node := p']> (peers e)) by (rewrite Hps; apply insert_insert_eq).
  assert (Hnone : p_kind p = Paired → queued_from (foldl upsert (p_msgs p) rows) = []).
  { intros Hk. apply elem_of_nil_inv. intros m [Hw Hm]%elem_of_queued.
    destruct (fold_waits rows m (p_msgs p)) as [Hin Hni]; try done.
    { eapply Forall_impl; [exact Hall|]. intros r [? ->]. done. }
    apply Hni. rewrite Hids. apply list_elem_of_fmap_2. eapply sublist_subseteq; [apply H4, Hk|].
    by apply elem_of_queued. }
  split_and!; try done; [|by intros Ho; apply Hc].
  eapply (hist_store e _ node p p' rows); try done.
  - cbn. rewrite Ht. reflexivity.
  - cbn. destruct Hrs as [-> ->]. done.
  - apply drawn_out. intros id (r & Hr & [_ <-]%same_id_spec)%elem_of_out_ids.
    apply (list_elem_of_fmap_2 sm_id) in Hr. rewrite Hids in Hr. apply list_elem_of_fmap in Hr as (m & -> & Hm).
    unfold texts_ok in *. rewrite Forall_forall in H2. cbn. rewrite Ht. by apply H2.
  - constructor.
  - intros Hk. cbn [p_msgs p_queued p' on_p_msgs on_p_queued]. rewrite Hnone by done. constructor.
Qed.

(** ** Peers come and go *)

Lemma peer_ok_same t rows p q : same_chat q p → peer_ok t rows p → peer_ok t rows q.
Proof. intros (Hk & Hm & Hq) [H0 H1 H2 H3 H4]. split; rewrite ?Hk, ?Hm, ?Hq; auto. Qed.

(** A chat read back from its rows. *)
Definition loaded (rows : list StoredMsg) : Peer :=
  MkPeer Paired [] [] 0 [] false (queued_from (collapse_history rows)) (collapse_history rows).
Lemma loaded_ok t rows : Forall (drawn t) rows → peer_ok t rows (loaded rows).
Proof.
  intros Hr. assert (Hc : Forall (drawn t) (collapse_history rows)) by by apply drawn_collapse.
  split; cbn; [apply collapse_ids|done|by apply texts_queued|done|done].
Qed.

Lemma hist_insert e node q :
  hist e → peer_ok (e_tick e) (all_rows e node) q → hist (on_peers <[node := q]> e).
Proof.
  intros [Hp Hr Hw] Hq. split; [|exact Hr|exact Hw]. intros n p. cbn. rewrite lookup_insert_Some.
  intros [[<- <-]|[_ ?]]; [done|by apply Hp].
Qed.

(** A chat is read from disk when none of its rows is on the way. *)
Lemma add_peer_keeps node name addrs e :
  on_way e node = [] → hist e → hist (add_peer node name addrs e).2.
Proof.
  intros Hnone Hh. unfold add_peer. apply keeps_then; [|intros _; apply mild_keeps; eauto with foot].
  cbn [snd modify]. apply hist_insert; [done|]. cbv zeta. set (msgs := load_messages e node).
  set (p0 := default _ _). set (p1 := if bool_decide (p_kind p0 = Introduced) then _ else _).
  match goal with |- peer_ok _ _ ?q => assert (Hq : same_chat q p1) by by repeat case_match end.
  eapply peer_ok_same; [exact Hq|].
  assert (Hall : all_rows e node = rows_of e node) by (unfold all_rows; by rewrite Hnone, app_nil_r).
  assert (Hl : peer_ok (e_tick e) (all_rows e node) (loaded (rows_of e node))).
  { rewrite <- Hall. apply loaded_ok, h_rows, Hh. }
  clear Hq. subst p1. case_bool_decide as Hk; [eapply peer_ok_same; [|exact Hl]; split; [|split]; reflexivity|].
  subst p0. destruct (peers e !! node) as [p|] eqn:Hp; cbn; [by apply h_peers|].
  eapply peer_ok_same; [|exact Hl]. split; [|split]; reflexivity.
Qed.

(** Removing a contact: until its rows are gone it is not a paired peer. *)
Definition unpaired (node : node_id) (e : P2p) : Prop := ∀ p, peers e !! node = Some p → p_kind p ≠ Paired.

Lemma mild_unpaired node e e' : mild e e' → unpaired node e → unpaired node e'.
Proof.
  intros [_ _ Hp] Hu p Hn. destruct (Hp node p Hn) as [(p0 & H0 & -> & _)|(-> & _)]; [by apply Hu|done].
Qed.

Lemma drop_rows e node : hist e → unpaired node e → hist (on_e_disk (on_dk_rows (delete node)) e).
Proof.
  intros [Hp Hr Hw] Hu. set (e' := on_e_disk _ e).
  assert (Hl : ∀ n, lines_of e' n = if decide (n = node) then [] else lines_of e n).
  { intros n. unfold lines_of. cbn. case_decide; [subst n; by rewrite lookup_delete_eq|by rewrite lookup_delete_ne]. }
  assert (Hrows : ∀ n, all_rows e' n = if decide (n = node) then on_way e n else all_rows e n).
  { intros n. unfold all_rows, rows_of. rewrite Hl. by case_decide. }
  split; intros n.
  - intros p Hn. rewrite Hrows. case_decide; [|by apply Hp]. subst n.
    destruct (Hp node p Hn) as [H0 H1 H2 H3 H4]. split; try done; intros Hk; by apply (Hu p) in Hk.
  - rewrite Hrows. case_decide; [|apply Hr]. specialize (Hr n). unfold all_rows in Hr. apply Forall_app in Hr as [_ Hr]. exact Hr.
  - rewrite Hl. case_decide; [by exists []|apply Hw].
Qed.

Lemma remove_peer_keeps node : keeps (remove_peer secret blobs_dir node).
Proof.
  intros e Hh. unfold remove_peer. run_gets. run_guard; [|exact Hh]. run_modify.
  set (e1 := on_peers (delete node) e).
  assert (H1 : hist e1 ∧ unpaired node e1).
  { split; [|intros p; cbn; by rewrite lookup_delete_eq]. split; [|apply Hh|apply Hh].
    intros n p. cbn. rewrite lookup_delete_Some. intros [_ ?]. by apply (h_peers e Hh). }
  clearbody e1. clear Hh Hg e.
  assert (Hstep : ∀ A B (m : M A) (k : A → M B) e, Ev mild m → hist e ∧ unpaired node e →
    (∀ a e, hist e ∧ unpaired node e → hist (k a e).2) → hist ((m ≫= k) e).2).
  { intros A B m k e Hm [Hh Hu] Hk. specialize (Hm e). unfold mbind, M_bind.
    destruct (m e) as [[a|x] e']; cbn in Hm; [apply Hk; split; [by eapply mild_hist|by eapply mild_unpaired]|by eapply mild_hist]. }
  cbv zeta. apply Hstep; [others|done|]. intros _ e2 H2. apply Hstep; [eauto with foot|done|]. intros _ e3 H3.
  apply Hstep; [others|done|]. intros e4 e5 H5. apply Hstep; [|done|].
  { apply ev_for_each; [typeclasses eauto|]. eauto with foot. }
  intros _ e6 H6. apply Hstep; [apply sync_introduced_mild|done|]. intros _ e7 [Hh Hu].
  apply keeps_then; [|intros _; apply mild_keeps; unfold remove_dir_all; others]. by apply drop_rows.
Qed.

(** ** Every operation *)

Ltac keep_step :=
  match goal with
  | |- Ev (stays hist) (emit _) => apply mild_keeps; others
  | |- Ev (stays hist) (modify _) => apply mild_keeps; others
  | _ => eff_step
  end.
Ltac keep := repeat keep_step.
#[local] Hint Extern 2 (Ev (stays hist) _) => apply mild_keeps; solve [eauto with foot] : eff.

Lemma flush_queue_keeps node tx : keeps (flush_queue node tx).
Proof.
  intros e Hh. destruct (peers e !! node) as [p|] eqn:Hp.
  - by destruct (flush_queue_spec node tx e p Hh Hp) as (rows & e' & -> & ? & _).
  - unfold flush_queue. run_gets. by rewrite Hp.
Qed.
#[local] Hint Resolve flush_queue_keeps on_ack_keeps remove_peer_keeps : eff.
#[local] Hint Extern 1 (Ev _ (push_msg _ _)) => apply push_msg_keeps; reflexivity : eff.

Lemma serve_dialed_keeps node proto : keeps (serve_dialed secret node proto).
Proof. unfold serve_dialed. keep. Qed.
Lemma serve_accepted_keeps node proto : keeps (serve_accepted secret node proto).
Proof. unfold serve_accepted, serve_session. keep. Qed.
Lemma pair_served_keeps node proto : keeps (pair_served secret node proto).
Proof. unfold pair_served. keep. Qed.
Lemma pair_accepted_keeps node name addrs proto e :
  on_way e node = [] → hist e → hist (pair_accepted secret node name addrs proto e).2.
Proof.
  intros Hn Hh. unfold pair_accepted. apply keeps_then; [by apply add_peer_keeps|].
  intros _. apply pair_served_keeps.
Qed.
Lemma pair_connect_keeps node addrs h n proto e :
  on_way e node = [] → hist e → hist (pair_connect secret node addrs h n proto e).2.
Proof.
  intros Hn Hh. unfold pair_connect. run_guard; [|exact Hh]. apply keeps_then; [by apply add_peer_keeps|].
  intros _. keep.
Qed.
Lemma on_msg_keeps from tx id ts text rt rx : keeps (on_msg from tx id ts text rt rx).
Proof. unfold on_msg. keep. Qed.
Lemma on_file_end_keeps from tx id : keeps (on_file_end from tx id).
Proof. unfold on_file_end. keep. Qed.
#[local] Hint Resolve serve_dialed_keeps serve_accepted_keeps
  on_msg_keeps on_file_end_keeps : eff.
Lemma handle_frame_keeps from f tx : keeps (handle_frame secret blobs_dir from f tx).
Proof. unfold handle_frame. keep. Qed.
#[local] Hint Resolve handle_frame_keeps : eff.
Lemma session_frame_keeps from f tx : keeps (session_frame secret blobs_dir from f tx).
Proof. unfold session_frame. keep. Qed.
#[local] Hint Resolve session_frame_keeps : eff.

Lemma load_peers_same e l : ∀ ps,
  (∀ n p, ps !! n = Some p → same_chat p (loaded (rows_of e n))) →
  ∀ n p, foldl (load_peer e) ps l !! n = Some p → same_chat p (loaded (rows_of e n)).
Proof.
  induction l as [|pp l IH]; intros ps Hps; [exact Hps|]. cbn [foldl]. apply IH. intros n p. unfold load_peer.
  destruct (node_parse _) as [i|]; [|apply Hps]. cbn zeta. rewrite lookup_insert_Some.
  intros [[<- <-]|[_ ?]]; [done|by apply Hps].
Qed.

Lemma reload_keeps e : hist e → hist (reload secret e).
Proof.
  intros [_ Hr Hw]. unfold reload. destruct (load_groups _) as [gs d].
  match goal with |- hist ?s => set (e' := s) end.
  assert (Hall : ∀ n, all_rows e' n = rows_of e n) by (intros n; apply app_nil_r).
  assert (Hd : ∀ n, Forall (drawn (e_tick e)) (rows_of e n)).
  { intros n. specialize (Hr n). unfold all_rows in Hr. apply Forall_app in Hr as [Hr _]. exact Hr. }
  split; [|intros n; rewrite Hall; apply Hd|exact Hw]. intros n p Hp. rewrite Hall.
  apply rebuild_chat in Hp as [(p0 & H0 & Hs)|(Hk & Hm & Hq)].
  - apply load_peers_same in H0; [|by intros ? ?; rewrite lookup_empty].
    eapply peer_ok_same; [exact Hs|]. eapply peer_ok_same; [exact H0|]. by apply loaded_ok.
  - cbn in Hk, Hm, Hq. split; rewrite ?Hm, ?Hq, ?Hk; [constructor..|done|done].
Qed.

Lemma start_keeps : keeps (start secret).
Proof.
  unfold start. apply ev_bind; [typeclasses eauto|intros e; exact (reload_keeps e)|]. intros _. keep.
Qed.

(** Rows reach the disk in the order they were handed over, chat by chat, and a
    chat is only read from disk when none is on its way. *)
Definition orderly (e : P2p) (o : Op) : Prop :=
  match o with
  | OWriteRow k => ∀ j w w', j < k → e_writes e !! j = Some w → e_writes e !! k = Some w' → w.1 ≠ w'.1
  | OPaired node _ _ _ | OPair node _ _ _ _ => on_way e node = []
  | _ => True
  end.
Inductive chat_step (e : P2p) : P2p → Prop :=
| chat_run o : orderly e o → chat_step e (run secret blobs_dir o e).2.

Lemma way_none (l : list (node_id * StoredMsg)) node :
  (∀ w, w ∈ l → w.1 ≠ node) → filter (λ w, w.1 = node) l = [].
Proof.
  intros H. apply elem_of_nil_inv. intros w [Hw Hin]%list_elem_of_filter. by apply (H w).
Qed.

Lemma write_row_keeps `{!WholeRows} k e : orderly e (OWriteRow k) → hist e → hist (write_row k e).2.
Proof.
  intros Ho Hh. unfold write_row. run_gets. destruct (e_writes e !! k) as [[node m]|] eqn:Hk; [|exact Hh].
  run_modify. rewrite run_tick, whole_rows. cbn [modify]. match goal with |- hist ?s => set (e' := s) end.
  destruct Hh as [Hp Hr Hw].
  assert (Hl : ∀ n, lines_of e' n = if decide (n = node) then add_row (lines_of e n) RowWhole m else lines_of e n).
  { intros n. unfold lines_of. cbn.
    case_decide; [subst n; by rewrite lookup_partial_alter_eq|by rewrite lookup_partial_alter_ne]. }
  assert (Hway : ∀ n, on_way e n = (if decide (n = node) then [m] else []) ++ on_way e' n).
  { intros n. unfold on_way. cbn. rewrite <- (take_drop_middle _ _ _ Hk) at 1. rewrite delete_take_drop.
    rewrite !filter_app, filter_cons, !fmap_app. cbn. destruct (decide (n = node)) as [->|Hne].
    - rewrite decide_True by done. rewrite way_none; [done|]. intros w [j Hj]%list_elem_of_lookup.
      apply lookup_take_Some in Hj as [Hj Hlt]. by apply (Ho j w (node, m)).
    - rewrite decide_False by congruence. done. }
  assert (Hall : ∀ n, all_rows e' n = all_rows e n).
  { intros n. unfold all_rows, rows_of. rewrite Hl, (Hway n). destruct (Hw n) as [rows Hrows]. rewrite Hrows.
    case_decide; [|done]. rewrite add_whole, !read_whole. by rewrite <- app_assoc. }
  split; intros n.
  - intros p Hn. rewrite Hall. eapply peer_ok_mono; [|by apply Hp]. cbn. lia.
  - rewrite Hall. eapply drawn_mono; [|apply Hr]. cbn. lia.
  - rewrite Hl. case_decide; [|apply Hw]. destruct (Hw n) as [rows ->]. rewrite add_whole. by eexists.
Qed.

Lemma run_hist `{!WholeRows} o e : fresh_ids → orderly e o → hist e → hist (run secret blobs_dir o e).2.
Proof.
  intros Hinj Ho Hh. pose proof (λ n t rt rx, send_text_keeps n t rt rx Hinj).
  pose proof (λ n s nm c, send_file_keeps n s nm c Hinj). pose proof start_keeps.
  destruct o;
    try (match goal with |- hist (run _ _ ?o e).2 => assert (Hk : keeps (run secret blobs_dir o))
         by (cbn [run]; unfold ignore, maintain; keep); by apply Hk end);
    cbn [run]; unfold ignore.
  - apply keeps_then; [by apply pair_accepted_keeps|intros ?; keep].
  - apply keeps_then; [by apply pair_connect_keeps|intros ?; keep].
  - by apply write_row_keeps.
Qed.

Lemma blank_hist : hist blank.
Proof.
  assert (Hl : ∀ n, lines_of blank n = []) by (intros n; unfold lines_of; cbn; by rewrite lookup_empty).
  split; [intros n p; cbn; by rewrite lookup_empty|intros n; unfold all_rows, rows_of; rewrite Hl; constructor|].
  intros n. rewrite Hl. by exists [].
Qed.

Lemma steps_hist `{!WholeRows} e : fresh_ids → rtc chat_step blank e → hist e.
Proof.
  intros Hinj Hrun. assert (Hb : hist blank) by apply blank_hist. revert Hb.
  induction Hrun as [|e1 e2 e3 [o Ho] _ IH]; [done|]. intros Hh. by apply IH, run_hist.
Qed.

(** ** Paired contacts stay *)

Record steady (e e' : P2p) : Prop := {
  st_chats : ∀ n p, peers e !! n = Some p → p_kind p = Paired → ∃ p', peers e' !! n = Some p' ∧ same_chat p' p;
  st_sent : sent_more (λ _, True) e e'
}.

#[export] Instance steady_preorder : PreOrder steady.
Proof.
  split.
  - intros e. split; [intros n p ? _; by exists p|by apply sent_more_refl].
  - intros e1 e2 e3 [H1 S1] [H2 S2]. split; [|by eapply sent_more_trans]. intros n p Hp Hk.
    destruct (H1 n p Hp Hk) as (p1 & Hp1 & Hk1 & Hm1 & Hq1).
    destruct (H2 n p1 Hp1) as (p2 & Hp2 & Hk2 & Hm2 & Hq2); [congruence|].
    exists p2. split; [done|]. split_and!; congruence.
Qed.

Lemma steady_other e e' : peers e' = peers e → e_chans e' = e_chans e → steady e e'.
Proof. intros Hp Hc. split; [|by apply sent_more_refl]. intros n p Hn _. exists p. by rewrite Hp. Qed.

Lemma rebuild_paired (ps : gmap node_id Peer) gs n p :
  ps !! n = Some p → p_kind p = Paired → rebuild_introduced secret ps gs !! n = Some p.
Proof.
  intros Hp Hk. unfold rebuild_introduced. generalize (live_groups gs ≫= λ g, gs_members (gr_state g)) as ms.
  intros ms. revert ps Hp. induction ms as [|m ms IH]; intros ps Hp; [done|]. cbn [foldl]. apply IH.
  unfold introduce. destruct (node_parse _) as [i|]; [|done]. case_bool_decide; [done|]. cbn zeta.
  destruct (decide (i = n)) as [->|Hne].
  - by rewrite Hp, bool_decide_true.
  - destruct (ps !! i) as [q|]; [case_bool_decide; [done|]|]; by rewrite lookup_insert_ne.
Qed.

Ltac steadies := repeat first
  [ match goal with
    | |- Ev steady (modify _) => apply ev_modify; intros ?; by apply steady_other
    end | eff_step ].

(** Only elementary steps, no change of the channels but what is sent. *)
Lemma steady_send tx f : Ev steady (send tx f).
Proof.
  intros e. split; [|by apply send_more]. unfold send. intros n p Hn _. exists p. by case_match.
Qed.
Lemma steady_open : Ev steady open_channel.
Proof.
  intros e. split; [intros n p Hn _; by exists p|]. destruct (open_channel_quiet e) as (_ & _ & Hs).
  intros tx. destruct (Hs tx) as (fs & ? & _). exists fs. split; [done|by apply Forall_true].
Qed.
Lemma steady_insert e n p q : peers e !! n = Some p → same_chat q p → steady e (on_peers <[n := q]> e).
Proof.
  intros Hp Hs. split; [|by apply sent_more_refl]. intros n' p' Hn _. cbn. destruct (decide (n = n')) as [<-|Hne].
  - rewrite lookup_insert_eq. exists q. split; [done|]. by simplify_eq.
  - rewrite lookup_insert_ne by done. by exists p'.
Qed.
#[local] Hint Resolve steady_send steady_open : eff.
Lemma steady_presence node on : Ev steady (emit_presence node on).
Proof. unfold emit_presence, emit. steadies. Qed.
Lemma steady_session node tx : Ev steady (group_session_open secret node tx).
Proof. unfold group_session_open, open_group, send_. steadies. Qed.
Lemma steady_trigger node : Ev steady (trigger_connect node).
Proof.
  intros e. unfold trigger_connect. destruct (peers e !! node) as [p|] eqn:Hp; [|reflexivity]. cbn zeta.
  destruct (_ || _); [by eapply steady_insert|].
  trans (on_peers <[node:=on_p_connecting (λ _, true)
    (on_p_live (filter (λ h, is_closed e (lh_tx h) = false)) p)]> e); [by eapply steady_insert|by apply steady_other].
Qed.
#[local] Hint Resolve steady_presence steady_session steady_trigger : eff.
Lemma steady_dials : Ev steady (trigger_group_dials secret).
Proof. unfold trigger_group_dials. steadies. Qed.
Lemma steady_set node v : Ev steady (set_connecting node v).
Proof.
  intros e. split; [|by apply sent_more_refl]. intros n p Hn _. cbn. destruct (decide (node = n)) as [->|Hne].
  - rewrite lookup_alter_eq. unfold peers in Hn. rewrite Hn. by eexists.
  - rewrite lookup_alter_ne by done. by exists p.
Qed.
Lemma steady_register node tx proto : Ev steady (register_live node tx proto).
Proof.
  intros e. unfold register_live. cbn zeta. trans (on_e_handle_ids N.succ e); [by apply steady_other|].
  set (e1 := on_e_handle_ids _ e). destruct (peers e1 !! node) as [p|] eqn:Hp; [|reflexivity].
  match goal with |- context [on_peers ?g e1] => assert (H1 : steady e1 (on_peers g e1)) by by eapply steady_insert end.
  destruct (_ =? _)%N; [exact H1|].
  assert (Hm : Ev steady persist_peers) by (unfold persist_peers, next_tick; steadies; intros ?; by apply steady_other).
  match goal with |- context [persist_peers ?x] => specialize (Hm x); destruct (persist_peers x) end.
  etrans; [exact H1|exact Hm].
Qed.

(** ** The properties *)

(** [C33] For every paired contact the history in memory is what its log will show
    when the rows on their way are written, and is what it shows when none is; each
    message of this device is in it once; and every text that is shown as queued is
    in the queue, in the order it was written.  Rows must arrive whole and in the
    order they were handed over, and a contact be paired when none of its rows is
    on the way. *)
Theorem history_matches_disk `{!WholeRows} e node p :
  fresh_ids → rtc chat_step blank e →
  peers e !! node = Some p → p_kind p = Paired →
  p_msgs p = collapse_history (rows_of e node ++ on_way e node) ∧
  (on_way e node = [] → p_msgs p = load_messages e node) ∧
  NoDup (out_ids (p_msgs p)) ∧ sublist (queued_from (p_msgs p)) (p_queued p).
Proof.
  intros Hinj Hrun Hp Hk. destruct (h_peers e (steps_hist e Hinj Hrun) node p Hp) as [H0 _ _ H3 H4].
  specialize (H3 Hk). split_and!; [done| |done|by apply H4]. intros Hn. rewrite H3. unfold all_rows.
  by rewrite Hn, app_nil_r.
Qed.

Lemma load_peers_in e l node : ∀ ps : gmap node_id Peer,
  is_Some (ps !! node) ∨ (∃ pp, pp ∈ l ∧ node_parse (pp_node_id pp) = Some node) →
  is_Some (foldl (load_peer e) ps l !! node).
Proof.
  induction l as [|pp l IH]; intros ps H; cbn [foldl].
  { destruct H as [H|(pp & H & _)]; [done|by apply not_elem_of_nil in H]. }
  apply IH. unfold load_peer. destruct (node_parse (pp_node_id pp)) as [i|] eqn:Hi.
  - cbn zeta. destruct (decide (i = node)) as [->|Hne]; [left; by rewrite lookup_insert_eq|].
    rewrite lookup_insert_ne by done. destruct H as [H|(pp' & [->|H]%elem_of_cons & Hn)]; [by left|congruence|].
    right. by exists pp'.
  - destruct H as [H|(pp' & [->|H]%elem_of_cons & Hn)]; [by left|congruence|right; by exists pp'].
Qed.

(** A restart shows the same history: for a contact listed in
    [peers.json], with no row on its way, the messages after the restart are those
    from before it, and the texts that were still waiting are queued again. *)
Theorem restart_keeps_history `{!WholeRows} e node p pp :
  fresh_ids → rtc chat_step blank e →
  peers e !! node = Some p → p_kind p = Paired → on_way e node = [] →
  pp ∈ dk_peers (e_disk e) → node_parse (pp_node_id pp) = Some node →
  ∃ p', peers (start secret e).2 !! node = Some p' ∧ p_kind p' = Paired ∧
    p_msgs p' = p_msgs p ∧ p_queued p' = queued_from (p_msgs p).
Proof.
  intros Hinj Hrun Hp Hk Hway Hpp Hnode. pose proof (steps_hist e Hinj Hrun) as Hh.
  assert (Hm : p_msgs p = collapse_history (rows_of e node)).
  { rewrite (po_disk _ _ _ (h_peers e Hh node p Hp) Hk). unfold all_rows. by rewrite Hway, app_nil_r. }
  assert (H1 : ∃ q, peers (reload secret e) !! node = Some q ∧ same_chat q (loaded (rows_of e node))).
  { unfold reload. destruct (load_groups _) as [gs d]. cbn [peers e_inner in_peers].
    destruct (load_peers_in e (dk_peers (e_disk e)) node ∅) as [q Hq]; [right; by exists pp|].
    assert (Hs : same_chat q (loaded (rows_of e node))).
    { by eapply load_peers_same, Hq; intros ??; rewrite lookup_empty. }
    exists q. split; [|done]. apply rebuild_paired; [done|]. apply Hs. }
  destruct H1 as (q & Hq & Hqk & Hqm & Hqq). unfold start. run_modify.
  match goal with |- context [(?m (reload secret e)).2] => assert (Hst : Ev steady m) end.
  { unfold random_id, next_tick. repeat first [match goal with |- Ev steady (λ _, _) => intros ?; by apply steady_other end
      | progress steadies]. apply steady_dials. }
  destruct (st_chats _ _ (Hst (reload secret e)) node q Hq) as (p' & Hp' & Hk' & Hm' & Hq'); [by rewrite Hqk|].
  exists p'. split; [exact Hp'|]. rewrite Hk', Hm', Hq', Hqk, Hqm, Hqq, Hm. done.
Qed.

Lemma ev_then {A B} (R : P2p → P2p → Prop) `{!PreOrder R} (m : M A) (k : A → M B) e a e1 e2 :
  m e = (Ok a, e1) → R e2 e1 → Ev R (k a) → R e2 ((m ≫= k) e).2.
Proof. intros Hm H1 Hk. unfold mbind, M_bind. rewrite Hm. etrans; [exact H1|apply Hk]. Qed.

(** When a session with a contact opens, every text that waited goes out on
    its new channel, in the order it was written and before anything else, and
    none is left queued. *)
Theorem session_empties_queue `{!WholeRows} e node p proto :
  fresh_ids → rtc chat_step blank e →
  peers e !! node = Some p → p_kind p = Paired →
  let e' := (serve_dialed secret node proto e).2 in
  ∃ tx p' fs, e_chans e !! tx = None ∧ sent_on e' tx = (text_frame <$> p_queued p) ++ fs ∧
    peers e' !! node = Some p' ∧ p_queued p' = [] ∧ queued_from (p_msgs p') = [].
Proof.
  intros Hinj Hrun Hp Hk. pose proof (steps_hist e Hinj Hrun) as Hh. intros e5.
  set (tx := fresh (dom (e_chans e))). set (e1 := on_e_chans <[tx := MkChan true []]> e).
  assert (Htx : e_chans e !! tx = None) by apply not_elem_of_dom, is_fresh.
  destruct (register_live node tx proto e1) as [r e2] eqn:He2.
  assert (H2 : (∃ id, r = Ok id) ∧ steady e1 e2 ∧ core e1 e2 ∧ mild e1 e2).
  { split_and!.
    - revert He2. unfold register_live. repeat case_match; intros [= <- <-]; by eexists.
    - change e2 with (r, e2).2. rewrite <- He2. apply steady_register.
    - change e2 with (r, e2).2. rewrite <- He2. apply register_live_core.
    - change e2 with (r, e2).2. rewrite <- He2. exact (register_live_ev secret mild node tx proto e1). }
  destruct H2 as ([id ->] & Hs2 & (_ & _ & Hc2) & Hm2).
  set (e3 := on_peers (alter (on_p_connecting (λ _, false)) node) e2).
  assert (Hs3 : steady e1 e3) by (etrans; [exact Hs2|apply (steady_set node false e2)]).
  assert (Hm3 : mild e e3).
  { trans e1; [by apply mild_other|]. trans e2; [done|]. by apply mild_alter. }
  assert (Hh3 : hist e3) by by eapply mild_hist.
  destruct (st_chats _ _ Hs3 node p Hp Hk) as (p3 & Hp3 & Hk3 & Hq3m & Hq3).
  destruct (flush_queue_spec node tx e3 p3 Hh3 Hp3) as (rows & e4 & Hf & _ & Hps & _ & _ & Hnone & Hsent).
  assert (He1 : e_chans e3 !! tx = Some (MkChan true [])).
  { change (e_chans e3) with (e_chans e2). rewrite Hc2. apply lookup_insert_eq. }
  assert (Hlast : steady e4 e5).
  { unfold e5, serve_dialed. match goal with |- context [(open_channel ≫= ?k) e] =>
      change ((open_channel ≫= k) e) with (k tx e1) end. cbv beta.
    unfold mbind at 1, M_bind at 1. rewrite He2. unfold set_connecting. run_modify. fold e3.
    eapply ev_then; [typeclasses eauto|exact Hf|reflexivity|]. steadies. }
  clearbody e5. destruct Hlast as [Hc5 Hs5].
  destruct (Hc5 node _ ltac:(rewrite Hps; apply lookup_insert_eq)) as (p5 & Hp5 & _ & Hm5 & Hq5).
  { cbn. congruence. }
  destruct (Hs5 tx) as (fs & Hfs & _). exists tx, p5, fs. split_and!; try done.
  - rewrite Hfs, Hsent.
    + unfold sent_on. rewrite He1, Hq3. done.
    + unfold is_closed. by rewrite He1.
  - rewrite Hm5. cbn. apply Hnone. congruence.
Qed.

(** [orderly], as a check. *)
Definition orderly_b (e : P2p) (o : Op) : bool :=
  match o with
  | OWriteRow k =>
      match e_writes e !! k with
      | Some w' => forallb (λ w, negb (bool_decide (w.1 = w'.1))) (take k (e_writes e))
      | None => true
      end
  | OPaired node _ _ _ | OPair node _ _ _ _ => match on_way e node with [] => true | _ => false end
  | _ => true
  end.
Fixpoint orderly_run (e : P2p) (os : list Op) : bool :=
  match os with
  | [] => true
  | o :: os => orderly_b e o && orderly_run (run secret blobs_dir o e).2 os
  end.
Lemma orderly_b_ok e o : orderly_b e o = true → orderly e o.
Proof.
  unfold orderly_b, orderly. destruct o; try done; try (by destruct (on_way e node)).
  intros H j w w' Hj Hw Hw'. rewrite Hw', forallb_forall in H.
  assert (Hin : w ∈ take k (e_writes e)).
  { eapply list_elem_of_lookup_2. rewrite lookup_take_lt by done. exact Hw. }
  apply list_elem_of_In, H, negb_true_iff, bool_decide_eq_false in Hin. exact Hin.
Qed.
Lemma orderly_run_ok os : ∀ e,
  orderly_run e os = true → rtc chat_step e (runs secret blobs_dir e os).
Proof.
  induction os as [|o os IH]; intros e; cbn [orderly_run]; [by intros|].
  intros [Ho Hos]%andb_true_iff. eapply rtc_l; [apply chat_run; by apply orderly_b_ok|]. by apply IH.
Qed.

End History.

(** ** At work *)

Import ToyNet ToySerde Scene.

(** Alice writes to Bob, who is gone, and the rows reach the disk. *)
Definition alice_wrote : P2p := runs (En := Scene.env 1) Scene.alice Scene.blobs Scene.alice_waits [OWriteRow 0; OWriteRow 0].
Lemma waits_run : rtc (chat_step (En := Scene.env 1) Scene.alice Scene.blobs) blank alice_wrote.
Proof.
  assert (H : alice_wrote = runs (En := Scene.env 1) Scene.alice Scene.blobs blank
    (Scene.alice_start ++ Scene.gone ++ [OWriteRow 0; OWriteRow 0])).
  { unfold alice_wrote, Scene.alice_waits, Scene.alice0, runs. by rewrite !foldl_app. }
  rewrite H. apply orderly_run_ok. vm_compute. reflexivity.
Qed.
Lemma fresh_alice : fresh_ids (En := Scene.env 1).
Proof. intros m n. apply Scene.env_fresh. Qed.

(** Two texts wait for Bob. *)
Lemma waits_bob p : peers alice_wrote !! Scene.bob_id = Some p →
  p_kind p = Paired ∧ sm_text <$> p_queued p = [lit "first"; lit "second"].
Proof.
  intros Hp. assert (H : (λ p, (p_kind p, sm_text <$> p_queued p)) <$> peers alice_wrote !! Scene.bob_id
    = Some (Paired, [lit "first"; lit "second"])) by (vm_compute; reflexivity).
  rewrite Hp in H. clear Hp. injection H as H1 H2. split; assumption.
Qed.
Lemma waits_some : is_Some (peers alice_wrote !! Scene.bob_id).
Proof.
  destruct (peers alice_wrote !! Scene.bob_id) as [p|] eqn:Hp; [exists p; reflexivity|].
  vm_compute in Hp. discriminate.
Qed.

Lemma collapse_history_correct_witness :
  let m s := SMsg (lit "a") 1 (lit "out") s (lit "hi") None None None in
  collapse_history [m (lit "queued"); m (lit "sent"); m (lit "acked")] = [m (lit "acked")].
Proof. intros m. rewrite (collapse_history_correct [m _; m _; m _]). reflexivity. Defined.

Lemma wrote_all : on_way alice_wrote Scene.bob_id = [].
Proof. vm_compute. reflexivity. Qed.

Lemma history_matches_disk_witness :
  ∃ p, peers alice_wrote !! Scene.bob_id = Some p ∧ length (p_queued p) = 2 ∧
    p_msgs p = load_messages alice_wrote Scene.bob_id.
Proof.
  destruct waits_some as [p Hp]. destruct (waits_bob p Hp) as [Hk Hq]. exists p. split; [exact Hp|]. split.
  - apply (f_equal length) in Hq. rewrite length_fmap in Hq. exact Hq.
  - apply (history_matches_disk Scene.alice Scene.blobs _ _ _ fresh_alice waits_run Hp Hk). exact wrote_all.
Defined.

Lemma restart_keeps_history_witness :
  ∃ p p', peers alice_wrote !! Scene.bob_id = Some p ∧
    peers (start (En := Scene.env 1) Scene.alice alice_wrote).2 !! Scene.bob_id = Some p' ∧
    p_msgs p' = p_msgs p.
Proof.
  destruct waits_some as [p Hp]. destruct (waits_bob p Hp) as [Hk _].
  destruct (dk_peers (e_disk alice_wrote)) as [|pp l] eqn:Hl; [vm_compute in Hl; discriminate|].
  assert (Hn : (λ pp, node_parse (pp_node_id pp)) <$> dk_peers (e_disk alice_wrote) = [Some Scene.bob_id])
    by (vm_compute; reflexivity).
  rewrite Hl in Hn. injection Hn as Hn _.
  destruct (restart_keeps_history Scene.alice Scene.blobs _ _ p pp fresh_alice waits_run Hp Hk wrote_all) as (p' & Hp' & _ & Hm & _).
  - rewrite Hl. left.
  - exact Hn.
  - exists p, p'. split; [exact Hp|]. split; [exact Hp'|exact Hm].
Defined.

Lemma session_empties_queue_witness :
  ∃ tx p' fs, let e' := (serve_dialed (En := Scene.env 1) Scene.alice Scene.bob_id 2 alice_wrote).2 in
    peers e' !! Scene.bob_id = Some p' ∧ p_queued p' = [] ∧
    ∃ m1 m2, sent_on e' tx = [text_frame m1; text_frame m2] ++ fs ∧ sm_text m1 = lit "first".
Proof.
  destruct waits_some as [p Hp]. destruct (waits_bob p Hp) as [Hk Hq].
  destruct (session_empties_queue Scene.alice Scene.blobs _ _ p 2 fresh_alice waits_run Hp Hk)
    as (tx & p' & fs & _ & Hs & Hp' & Hq' & _).
  exists tx, p', fs. split; [exact Hp'|]. split; [exact Hq'|].
  clear Hp Hp'. destruct (p_queued p) as [|m1 [|m2 [|]]]; try discriminate Hq. exists m1, m2. split; [exact Hs|].
  injection Hq as H1 _. exact H1.
Defined.

(** The row of a text and the row that says it went out may change places: the
    text is queued again after a restart, and sent a second time. *)
Lemma late_row :
  let run_alice := runs (En := Scene.env 1) Scene.alice Scene.blobs in
  let e := run_alice Scene.alice_waits [ODialed Scene.bob_id 2; OWriteRow 2; OWriteRow 0; OWriteRow 0; OWriteRow 0] in
  let again := run_alice e [OStart; ODialed Scene.bob_id 2] in
  let states (l : list StoredMsg) : list (str * str) := (λ m, (sm_text m, sm_state m)) <$> l in
  let texts n : list str := omap (λ f, match f with Msg _ _ t _ _ => Some t | _ => None end) (sent_on again n) in
  on_way e Scene.bob_id = [] ∧
  option_map (λ p, states (p_msgs p)) (peers e !! Scene.bob_id)
    = Some [(lit "first", lit "sent"); (lit "second", lit "sent")] ∧
  states (load_messages e Scene.bob_id) = [(lit "first", lit "queued"); (lit "second", lit "sent")] ∧
  texts 1%N = [lit "first"; lit "second"] ∧ texts 2%N = [lit "first"].
Proof. split_and!; vm_compute; reflexivity. Qed.
