(* ===== verification/Inbound.v ===== *)
(** * Files that arrive

    What peers send is bounded, by the limits and by how many sessions begin a
    transfer at the same time, and it ends up under plain names in the directories
    meant for it. *)

From stdpp Require Import relations.
From S2P Require Import Prelude Str Net Groups Frames Engine Delivery Rosters GroupWire Chat Files Media Effects Footprint GroupInv Ops Scene Safety.

(** ** Names *)

(** A file name that stays in its directory, on every platform. *)
Definition plain (n : str) : Prop :=
  n ≠ [] ∧ n ≠ lit "." ∧ n ≠ lit ".." ∧ (47%N ∉ n) ∧ (92%N ∉ n).

Definition no_sep (s : str) : Prop := (47%N ∉ s) ∧ (92%N ∉ s).

Lemma no_sep_app a b : no_sep (a ++ b) ↔ no_sep a ∧ no_sep b.
Proof. unfold no_sep. rewrite !not_elem_of_app. tauto. Qed.
Lemma no_sep_sub a b : (∀ c, c ∈ a → c ∈ b) → no_sep b → no_sep a.
Proof. unfold no_sep. naive_solver. Qed.
Lemma no_sep_nil : no_sep [].
Proof. split; apply not_elem_of_nil. Qed.
Lemma no_sep_digits n : no_sep (show_N n).
Proof.
  pose proof (show_N_digits n) as H. rewrite Forall_forall in H.
  split; intros Hin; apply H in Hin; lia.
Qed.

Lemma sanitize_no_sep {CT : CharTable} name : no_sep (sanitize_name name).
Proof.
  unfold sanitize_name. set (p := λ c, ((c =? 47) || (c =? 92))%N).
  set (base := trim _). assert (Hb : no_sep base).
  { apply (no_sep_sub _ (after_last p name)).
    - intros c Hc%trim_in. by apply list_elem_of_filter in Hc as [_ ?].
    - pose proof (after_last_spec p name) as H. rewrite Forall_forall in H.
      split; intros Hc; apply H in Hc; done. }
  set (out := if (80 <? str_len base)%N then _ else _). assert (Ho : no_sep out).
  { unfold out. case_match; [|done]. eapply no_sep_sub; [|done]. intros c. by apply subseteq_take. }
  cbv zeta. case_bool_decide; [|done]. split; by apply (bool_decide_unpack _).
Qed.

Lemma plain_with c n : c ∈ n → c ≠ 46%N → no_sep n → plain n.
Proof.
  intros Hc Hne [H1 H2]. split_and!; try done; intros ->; cbn in Hc; set_solver.
Qed.

(** The stem and the extension make up the name. *)
Lemma split_name name n : file_name name = Some n → has_dot n = true →
  n = before_last_dot n ++ "." ++ after_last (λ c, c =? 46)%N n.
Proof.
  intros _ Hd. destruct (after_last_split _ _ Hd) as (s1 & c & Hs & ->%N.eqb_eq).
  assert (Hb : before_last_dot n = s1).
  { unfold before_last_dot. set (l := after_last _ n) in *. clearbody l. subst n.
    rewrite length_app. cbn [length]. replace (length s1 + S (length l) - length l - 1) with (length s1) by lia.
    by rewrite take_app_length. }
  rewrite Hb. exact Hs.
Qed.

Definition stem_of (name : str) : str := default (lit "file") (file_stem name).
Definition ext_of (name : str) : str := from_option (λ x, "." ++ x) [] (file_ext name).

Lemma stem_ext name :
  no_sep name → no_sep (stem_of name) ∧ no_sep (ext_of name) ∧ plain (stem_of name ++ ext_of name).
Proof.
  intros Hn. unfold stem_of, ext_of, file_stem, file_ext. destruct (file_name name) as [n|] eqn:Hf; cbn [mbind option_bind].
  2: { split; [|split]; [split|split|split_and!]; by apply (bool_decide_unpack _). }
  assert (n = name ∧ plain name) as [-> Hp].
  { unfold file_name in Hf. case_bool_decide as Hb; [done|]. injection Hf as <-. split; [done|].
    destruct Hn. split_and!; try done; intros ->; apply Hb; auto. }
  assert (Hw : no_sep name ∧ no_sep [] ∧ plain (name ++ [])) by (rewrite app_nil_r; split_and!; try done; apply no_sep_nil).
  destruct (has_dot name) eqn:Hd; cbn [andb]; [|exact Hw].
  destruct (bool_decide (before_last_dot name = [])); cbn [negb from_option]; [exact Hw|].
  change (no_sep (before_last_dot name) ∧ no_sep ("." ++ after_last (λ c, c =? 46)%N name) ∧
          plain (before_last_dot name ++ "." ++ after_last (λ c, c =? 46)%N name)).
  pose proof (split_name name name Hf Hd) as Hs. rewrite <- Hs.
  rewrite Hs in Hn. apply no_sep_app in Hn as [? ?]. done.
Qed.

Lemma candidate_plain name i : no_sep name → ∃ n,
  (∀ dir, candidate dir (stem_of name) (ext_of name) i = join dir n) ∧ plain n.
Proof.
  intros Hn. destruct (stem_ext name Hn) as (Hs & He & Hp). unfold candidate. destruct (i =? 0)%N.
  - eexists. split; [done|exact Hp].
  - eexists. split; [done|]. apply (plain_with 40%N); [set_solver|done|].
    rewrite !no_sep_app. split_and!; try done; [split; by apply (bool_decide_unpack _)|apply no_sep_digits|
      split; by apply (bool_decide_unpack _)].
Qed.

(** All thousand names are taken. *)
Definition crowded (fs : gmap str bytes) (dir name : str) : Prop :=
  ∀ i, (i < 1000)%N → is_Some (fs !! candidate dir (stem_of name) (ext_of name) i).

Lemma unique_path_spec fs dir name stamp :
  no_sep name → ∃ n, unique_path fs dir name stamp = join dir n ∧ plain n ∧
    (fs !! join dir n = None ∨ crowded fs dir name).
Proof.
  intros Hn. unfold unique_path. fold (stem_of name) (ext_of name).
  destruct (list_find _ _) as [[k i]|] eqn:Hf.
  - destruct (candidate_plain name i Hn) as (n & Hc & Hp). exists n. rewrite Hc. split_and!; [done..|]. left.
    apply list_find_Some in Hf as (_ & Hf & _). rewrite Hc in Hf. exact Hf.
  - eexists. split; [done|]. destruct (stem_ext name Hn) as (Hs & He & _). split.
    + clear Hf. apply (plain_with 45%N); [set_solver|done|]. rewrite !no_sep_app.
      split_and!; try done; [split; by apply (bool_decide_unpack _)|apply no_sep_digits].
    + right. intros i Hi. apply list_find_None in Hf. rewrite Forall_forall in Hf.
      apply not_eq_None_Some. apply Hf. apply list_elem_of_fmap. exists (N.to_nat i).
      rewrite N2Nat.id. split; [reflexivity|]. apply elem_of_seq. lia.
Qed.

(** Whatever name a sender claims, the file it sends is stored under a plain
    name in the directory meant for it - no separator, not "." nor ".." - and under
    one that no file has, as long as one of a thousand candidates is free. *)
Theorem received_name_plain {CT : CharTable} fs dir claimed stamp :
  ∃ n, unique_path fs dir (sanitize_name claimed) stamp = join dir n ∧ plain n ∧
    (fs !! join dir n = None ∨ crowded fs dir (sanitize_name claimed)).
Proof. apply unique_path_spec, sanitize_no_sep. Qed.

(** ** Transfers under way *)

Section Inbound.
Context {P : Platform} {SD : Serde} {En : Env} {CT : CharTable} {B64 : Base64}.
Context (secret : secret_key) (blobs_dir : str).

Abbreviation rx_map := (gmap (node_id * str) FileRx).

(** A transfer as its sender may have set it up. *)
Record entry_ok (from : node_id) (id : str) (t : FileRx) : Prop := {
  en_id : is_safe_transfer_id id = true;
  en_got : (fr_got t ≤ fr_size t)%N;
  en_name : no_sep (fr_name t);
  en_place : match fr_gid t with
    | None => (fr_size t ≤ MAX_FILE_BYTES)%N ∧ fr_dir t = peer_dir blobs_dir from ∧
        fr_partial t = join (peer_dir blobs_dir from) ("partial-" ++ id)
    | Some g => (fr_size t ≤ MAX_GROUP_FILE_BYTES)%N ∧ fr_dir t = group_dir blobs_dir g ∧
        fr_partial t = group_partial blobs_dir g from id
    end
}.

(** What was set up may be under way, or passed its checks only. *)
Record tidy (e : P2p) : Prop := {
  ti_rx : ∀ n id t, e_rx_files e !! (n, id) = Some t → entry_ok n id t;
  ti_begins : ∀ n id t, (n, id, t) ∈ e_begins e → entry_ok n id t
}.

(** Transfers given up. *)
Definition fewer (e e' : P2p) : Prop := e_rx_files e' ⊆ e_rx_files e ∧ e_begins e' = e_begins e.
#[export] Instance fewer_preorder : PreOrder fewer.
Proof.
  split; [intros e; by split|]. intros e1 e2 e3 [H1 E1] [H2 E2]. split; [by etrans|congruence].
Qed.
Lemma fewer_other e e' : e_rx_files e' = e_rx_files e ∧ e_begins e' = e_begins e → fewer e e'.
Proof. unfold fewer. by intros [-> ->]. Qed.
Lemma fewer_tidy e e' : fewer e e' → tidy e → tidy e'.
Proof.
  intros [Hs Hb] [Hr Hn]. split; [|by rewrite Hb]. intros n id t Ht. apply Hr. by eapply lookup_weaken.
Qed.

Ltac rest := repeat first
  [ match goal with
    | |- Ev fewer (modify _) => apply ev_modify; intros ?; by apply fewer_other
    | |- Ev fewer (emit _) => apply ev_modify; intros ?; by apply fewer_other
    end | eff_step ].

Lemma foldr_delete_sub {V} (l : list ((node_id * str) * V)) (m : gmap (node_id * str) V) :
  foldr (λ kt, delete kt.1) m l ⊆ m.
Proof. induction l as [|x l IH]; cbn; [done|]. etrans; [apply delete_subseteq|done]. Qed.

#[export] Instance fewer_foot : Foot secret fewer.
Proof.
  split; try solve [typeclasses eauto|intros; by apply fewer_other|intros ?; by apply fewer_other].
  apply listed_any; [typeclasses eauto|..]; intros; by apply fewer_other.
Qed.
#[export] Instance fewer_drop : FootDrop blobs_dir fewer.
Proof.
  assert (Hd : ∀ pred, Ev fewer (drop_group_inbound pred)).
  { intros pred e. unfold drop_group_inbound. run_gets. cbv zeta. run_modify. set (l := filter _ _).
    generalize l. intros l'.
    assert (Hl : Ev fewer (for_each l' (λ kt, remove_file (fr_partial kt.2)))) by (unfold remove_file; rest).
    etrans; [|apply Hl]. split; [apply foldr_delete_sub|done]. }
  split; [exact Hd|]. intros gid. unfold delete_group_blobs, remove_dir_all. rest.
Qed.
#[export] Instance fewer_front : FootFront fewer.
Proof. split; intros; by apply fewer_other. Qed.
#[export] Instance fewer_ask : FootAsk fewer.
Proof. split; intros; by apply fewer_other. Qed.
#[export] Instance fewer_chat : FootChat fewer.
Proof. split; intros; by apply fewer_other. Qed.
#[export] Instance fewer_peers : FootPeers fewer.
Proof. intros f e. by apply fewer_other. Qed.
#[export] Instance fewer_files : FootFiles fewer.
Proof. intros f e. by apply fewer_other. Qed.
#[export] Instance fewer_xfers : FootXfers fewer.
Proof. intros f e. by apply fewer_other. Qed.
Lemma fewer_delete k e : fewer e (on_rx (delete k) e).
Proof. split; [apply delete_subseteq|done]. Qed.

(** ** How many *)

(** The transfers that hold a place, or will. *)
Definition placed (e : P2p) : gset (node_id * str) :=
  dom (e_rx_files e) ∪ list_to_set (fst <$> e_begins e).
Definition of_peer (n : node_id) (s : gset (node_id * str)) : gset (node_id * str) := filter (λ k, k.1 = n) s.

Definition smaller (e e' : P2p) : Prop := placed e' ⊆ placed e.
#[export] Instance smaller_preorder : PreOrder smaller.
Proof. split; [intros e; unfold smaller; reflexivity|]. intros e1 e2 e3 H1 H2. unfold smaller in *. by etrans. Qed.
Lemma fewer_smaller e e' : fewer e e' → smaller e e'.
Proof. intros [Hs Hb]. unfold smaller, placed. rewrite Hb. apply subseteq_dom in Hs. set_solver. Qed.
Lemma ev_smaller {A} (m : M A) : Ev fewer m → Ev smaller m.
Proof. apply ev_mono, fewer_smaller. Qed.

(** A chunk is counted. *)
Lemma smaller_chunk k t t' e : e_rx_files e !! k = Some t → smaller e (on_rx <[k := t']> e).
Proof.
  intros Hk. unfold smaller, placed. cbn. rewrite dom_insert_L. apply elem_of_dom_2 in Hk. set_solver.
Qed.

Lemma create_rx path : Ev fewer (create_file path).
Proof. apply (create_file_ev secret fewer). Qed.
Lemma append_rx path b : Ev fewer (append_file path b).
Proof. apply (append_file_ev secret fewer). Qed.

(** Runs an operation at the front. *)
Ltac run_front H := match goal with |- context [(?m ≫= ?k) ?e] =>
  let r := fresh "r" in let e' := fresh "e'" in
  unfold mbind at 1, M_bind at 1; destruct (m e) as [r e'] eqn:H end.
Ltac run_file H := run_front H.

Lemma count_placed (n : node_id) (rx : rx_map) : count_from n rx = N.of_nat (size (of_peer n (dom rx))).
Proof.
  unfold count_from. f_equal. rewrite <- size_dom. f_equal. apply set_eq. intros [m id].
  unfold of_peer. rewrite elem_of_filter, !elem_of_dom. cbn. split.
  - intros [t [Ht ->]%map_lookup_filter_Some]. split; [done|by exists t].
  - intros [-> [t Ht]]. exists t. by apply map_lookup_filter_Some.
Qed.
Lemma total_placed (rx : rx_map) : total_of rx = N.of_nat (size (dom rx)).
Proof. unfold total_of. by rewrite size_dom. Qed.

Lemma size_keys (l : list (node_id * str)) : size (list_to_set l : gset (node_id * str)) ≤ length l.
Proof.
  induction l as [|x l IH]; [done|]. cbn [list_to_set length]. rewrite size_union_alt, size_singleton.
  etrans; [apply Nat.add_le_mono_l, subseteq_size, subseteq_difference_l; reflexivity|]. lia.
Qed.
Lemma of_peer_keys n (l : list (node_id * str * FileRx)) :
  of_peer n (list_to_set (fst <$> l)) = list_to_set (fst <$> filter (λ b, b.1.1 = n) l).
Proof.
  apply set_eq. intros k. unfold of_peer. rewrite elem_of_filter, !elem_of_list_to_set, !list_elem_of_fmap.
  setoid_rewrite list_elem_of_filter. naive_solver.
Qed.
Lemma of_peer_sub n s s' : s ⊆ s' → of_peer n s ⊆ of_peer n s'.
Proof. unfold of_peer. set_solver. Qed.

Lemma of_peer_union n s s' : of_peer n (s ∪ s') = of_peer n s ∪ of_peer n s'.
Proof. unfold of_peer. set_solver. Qed.
Lemma size_le_union (s s' : gset (node_id * str)) : size (s ∪ s') ≤ size s + size s'.
Proof.
  rewrite size_union_alt. apply Nat.add_le_mono_l, subseteq_size, subseteq_difference_l. reflexivity.
Qed.

Lemma without_place (rx : rx_map) from id :
  let one := if decide (is_Some (rx !! (from, id))) then 1 else 0 in
  size (of_peer from (dom rx ∖ {[(from, id)]})) + one = size (of_peer from (dom rx)) ∧
  size (dom rx ∖ {[(from, id)]}) + one = size (dom rx).
Proof.
  intros one. assert (H : ∀ s : gset (node_id * str), size (s ∖ {[(from, id)]}) +
    (if decide ((from, id) ∈ s) then 1 else 0) = size s).
  { intros s. case_decide as Hs.
    - rewrite size_difference by set_solver. rewrite size_singleton.
      pose proof (subseteq_size {[(from, id)]} s ltac:(set_solver)) as H. rewrite size_singleton in H. lia.
    - rewrite Nat.add_0_r. f_equal. set_solver. }
  assert (Hone : ∀ s : gset (node_id * str), ((from, id) ∈ s ↔ is_Some (rx !! (from, id))) →
    (if decide ((from, id) ∈ s) then 1 else 0) = one).
  { intros s Hs. unfold one. do 2 case_decide; tauto. }
  split.
  - rewrite <- (H (of_peer from (dom rx))), (Hone (of_peer from (dom rx))).
    + do 2 f_equal. unfold of_peer. set_solver.
    + unfold of_peer. rewrite elem_of_filter, elem_of_dom. naive_solver.
  - rewrite <- (H (dom rx)), (Hone (dom rx)); [done|]. by rewrite elem_of_dom.
Qed.

(** How many begins of a peer, and of all peers, are between their two halves at
    most: as many as there are sessions, each of which handles one frame after the
    other. *)
Section Counting.
Context (sessions : node_id → N) (all : N).

Definition at_work (e : P2p) : Prop :=
  (∀ n, (N.of_nat (length (filter (λ b, b.1.1 = n) (e_begins e))) ≤ sessions n)%N) ∧
  (N.of_nat (length (e_begins e)) ≤ all)%N.
Definition counted (e : P2p) : Prop :=
  (∀ n, (N.of_nat (size (of_peer n (placed e))) < MAX_INBOUND_FILES_PER_PEER + sessions n)%N) ∧
  (N.of_nat (size (placed e)) < MAX_INBOUND_FILES_TOTAL + all)%N.

Lemma smaller_counted e e' : smaller e e' → counted e → counted e'.
Proof.
  intros Hs [Hn Ht]. split; [intros n; specialize (Hn n)|].
  - pose proof (subseteq_size _ _ (of_peer_sub n _ _ Hs)). lia.
  - pose proof (subseteq_size _ _ Hs). lia.
Qed.

Lemma begin_counted from id t e :
  (N.of_nat (size (of_peer from (dom (e_rx_files e) ∖ {[(from, id)]}))) < MAX_INBOUND_FILES_PER_PEER)%N →
  (N.of_nat (size (dom (e_rx_files e) ∖ {[(from, id)]})) < MAX_INBOUND_FILES_TOTAL)%N →
  counted e → let e' := (begin_rx from id t e).2 in at_work e' → counted e'.
Proof.
  intros Hp Ht [Hn Hall] e' [Wn Wall].
  assert (He : placed e' = (dom (e_rx_files e) ∖ {[(from, id)]}) ∪ list_to_set (fst <$> e_begins e')).
  { unfold placed. cbn. rewrite fmap_app, list_to_set_app_L. cbn. apply set_eq. intros k.
    destruct (decide (k = (from, id))); set_solver. }
  split.
  - intros n. destruct (decide (n = from)) as [->|Hne].
    + rewrite He, of_peer_union, of_peer_keys. specialize (Wn from).
      pose proof (size_le_union (of_peer from (dom (e_rx_files e) ∖ {[(from, id)]}))
        (list_to_set (fst <$> filter (λ b, b.1.1 = from) (e_begins e')))).
      pose proof (size_keys (fst <$> filter (λ b, b.1.1 = from) (e_begins e'))) as Hk.
      rewrite length_fmap in Hk. lia.
    + replace (of_peer n (placed e')) with (of_peer n (placed e)); [apply Hn|].
      unfold of_peer, placed. cbn. rewrite fmap_app, list_to_set_app_L. cbn. apply set_eq. intros k. set_solver.
  - rewrite He. pose proof (size_le_union (dom (e_rx_files e) ∖ {[(from, id)]}) (list_to_set (fst <$> e_begins e'))).
    pose proof (size_keys (fst <$> e_begins e')) as Hk. rewrite length_fmap in Hk. lia.
Qed.

Lemma file_begin_counted from id ts name size mime cap e :
  let e' := (on_file_begin blobs_dir from id ts name size mime cap e).2 in
  at_work e' → counted e → counted e'.
Proof.
  unfold on_file_begin. cbv zeta. destruct (negb _); [done|]. destruct (_ <? size)%N; [done|]. run_gets.
  case_bool_decide; [done|]. destruct (_ || _) eqn:Hroom; [done|].
  apply orb_false_iff in Hroom as [Hc%N.leb_gt Ht%N.leb_gt]. rewrite count_placed in Hc. rewrite total_placed in Ht.
  intros Hw Hi. apply begin_counted; [| |done|done].
  - eapply N.le_lt_trans; [|exact Hc]. destruct (without_place (e_rx_files e) from id). lia.
  - eapply N.le_lt_trans; [|exact Ht]. destruct (without_place (e_rx_files e) from id). lia.
Qed.

Lemma group_begin_counted from gid id ts name size mime cap e :
  let e' := (on_group_file_begin blobs_dir from gid id ts name size mime cap e).2 in
  at_work e' → counted e → counted e'.
Proof.
  unfold on_group_file_begin. cbv zeta. destruct (negb _); [done|]. destruct (_ <? size)%N; [done|]. run_gets.
  case_bool_decide; [done|]. destruct (_ || _) eqn:Hroom; [done|]. destruct (has_group_file _ _ _ _); [done|].
  apply orb_false_iff in Hroom as [Hc%N.leb_gt Ht%N.leb_gt]. rewrite count_placed in Hc. rewrite total_placed in Ht.
  pose proof (without_place (e_rx_files e) from id) as [H1 H2]. unfold sat_sub in *.
  intros Hw Hi. apply begin_counted; [| |done|done];
    (case_bool_decide as Hs; [rewrite decide_True in H1, H2 by done|rewrite decide_False in H1, H2 by done]); lia.
Qed.

End Counting.

(** ** Operations *)

Lemma then_ret {A} (m : M A) e : ((m ≫= λ _, mret tt) e).2 = (m e).2.
Proof. unfold mbind, M_bind. by destruct (m e) as [[a|x] e']. Qed.

Lemma keys_delete k (l : list (node_id * str * FileRx)) :
  (list_to_set (fst <$> delete k l) : gset (node_id * str)) ⊆ list_to_set (fst <$> l).
Proof.
  intros x. rewrite !elem_of_list_to_set, !list_elem_of_fmap. intros (b & -> & Hb). exists b. split; [done|].
  eapply sublist_subseteq; [apply sublist_delete|exact Hb].
Qed.

Lemma finish_begin_smaller k : Ev smaller (finish_begin k).
Proof.
  intros e. unfold finish_begin. run_gets. destruct (e_begins e !! k) as [[[from id] t]|] eqn:Hk; [|reflexivity].
  run_modify. set (e1 := on_e_begins _ e).
  assert (H1 : smaller e e1 ∧ placed e1 ∪ {[(from, id)]} ⊆ placed e).
  { unfold smaller, placed, e1. cbn. pose proof (keys_delete k (e_begins e)).
    assert ((from, id) ∈ (list_to_set (fst <$> e_begins e) : gset (node_id * str))).
    { apply elem_of_list_to_set, list_elem_of_fmap. exists (from, id, t). split; [done|].
      by eapply list_elem_of_lookup_2. }
    split; set_solver. }
  run_front Hf. pose proof (create_rx (fr_partial t) e1) as [Hr Hb]. rewrite Hf in Hr, Hb. cbn in Hr, Hb.
  assert (H2 : placed e' ⊆ placed e1).
  { apply (fewer_smaller e1 e'). by split. }
  destruct H1 as [H1 H3]. destruct r as [[]|x]; unfold smaller in *; cbn [snd modify emit].
  - unfold placed. cbn. rewrite dom_insert_L. unfold placed in *. set_solver.
  - unfold placed in *. cbn. set_solver.
  - set_solver.
Qed.

Lemma on_file_chunk_smaller from id data : Ev smaller (on_file_chunk from id data).
Proof.
  intros e. unfold on_file_chunk. run_gets. destruct (e_rx_files e !! (from, id)) as [t|] eqn:Ht; [|reflexivity].
  case_bool_decide; [reflexivity|]. destruct (base64_decode _) as [b|]; [|apply fewer_smaller, fewer_delete].
  cbv zeta. destruct (_ <? _)%N; [apply fewer_smaller, fewer_delete|]. unfold emit. run_modify. run_front Hf.
  match type of Hf with append_file _ _ ?s = _ =>
    pose proof (append_rx (fr_partial t) b s) as [Hr Hb]; rewrite Hf in Hr, Hb end. cbn in Hr, Hb.
  unfold smaller, placed. apply subseteq_dom in Hr. destruct r as [w|x]; cbn; rewrite Hb; [|set_solver].
  rewrite dom_insert_L. apply elem_of_dom_2 in Ht. set_solver.
Qed.

#[local] Hint Resolve ev_smaller on_file_chunk_smaller finish_begin_smaller : eff.
#[local] Hint Extern 2 (Ev smaller _) => apply ev_smaller; solve [eauto with foot] : eff.
Ltac shrink_step :=
  match goal with
  | |- Ev smaller (modify (on_rx (delete _))) => apply ev_smaller, ev_modify; intros ?; apply fewer_delete
  | |- Ev smaller (modify _) => apply ev_smaller; rest
  | |- Ev smaller (emit _) => apply ev_smaller; rest
  | |- Ev smaller (drop_group_inbound _) => apply ev_smaller, fewer_drop
  | _ => eff_step
  end.
Ltac shrink := repeat shrink_step.

Lemma on_file_end_smaller from tx id : Ev smaller (on_file_end from tx id).
Proof. unfold on_file_end. shrink. Qed.
Lemma on_group_file_chunk_smaller from gid id data : Ev smaller (on_group_file_chunk from gid id data).
Proof.
  intros e. unfold on_group_file_chunk. run_gets.
  destruct (e_rx_files e !! (from, id)) as [t|] eqn:Ht; [|reflexivity]. case_bool_decide; [reflexivity|]. cbv zeta.
  assert (Hdrop : Ev smaller (modify (on_rx (delete (from, id))) ≫= λ _, remove_file (fr_partial t))) by shrink.
  destruct (base64_decode _) as [b|]; [|apply Hdrop]. destruct (_ <? _)%N; [apply Hdrop|]. run_front Hf.
  pose proof (append_rx (fr_partial t) b e) as [Hr Hb]. rewrite Hf in Hr, Hb. cbn in Hr, Hb.
  assert (H1 : smaller e e') by (apply fewer_smaller; by split).
  destruct r as [[]|x]; cbn [negb]; [|by etrans; [|apply Hdrop]|exact H1].
  run_modify. unfold smaller, placed, emit. apply subseteq_dom in Hr. cbn. rewrite Hb.
  rewrite dom_insert_L. apply elem_of_dom_2 in Ht. set_solver.
Qed.
Lemma on_group_file_end_smaller from gid id : Ev smaller (on_group_file_end secret from gid id).
Proof. unfold on_group_file_end. shrink. Qed.
#[local] Hint Resolve on_file_end_smaller on_group_file_chunk_smaller on_group_file_end_smaller : eff.

Definition is_begin (f : Frame) : bool :=
  match f with FileBegin _ _ _ _ _ _ | GroupFileBegin _ _ _ _ _ _ _ => true | _ => false end.

Lemma handle_frame_smaller from f tx : is_begin f = false → Ev smaller (handle_frame secret blobs_dir from f tx).
Proof. intros Hf. unfold handle_frame, on_group_file. destruct f; try done; shrink. Qed.
Lemma start_smaller : Ev smaller (start secret).
Proof.
  unfold start. apply ev_bind; [typeclasses eauto| |intros _; shrink].
  intros e. unfold smaller, placed. cbn [modify snd]. unfold reload.
  destruct (load_groups (dk_groups (e_disk e))). cbn. set_solver.
Qed.

Lemma run_smaller o :
  match o with OFrame _ f _ => is_begin f = false | _ => True end → Ev smaller (run secret blobs_dir o).
Proof.
  intros Ho. pose proof start_smaller. destruct o; cbn [run]; unfold ignore, maintain; try shrink.
  unfold session_frame. pose proof (handle_frame_smaller from f tx Ho). shrink.
Qed.

Lemma frame_counted sessions all from f tx e : is_begin f = true →
  let e' := (session_frame secret blobs_dir from f tx e).2 in
  at_work sessions all e' → counted sessions all e → counted sessions all e'.
Proof.
  intros Hf. cbv zeta. unfold session_frame.
  replace ((handle_frame secret blobs_dir from f tx ≫= _) e).2 with (handle_frame secret blobs_dir from f tx e).2
    by (destruct f; try done; symmetry; apply then_ret).
  unfold handle_frame. run_gets. destruct (_ && _); [done|]. destruct f; try done; cbn [is_group_file is_group].
  - apply file_begin_counted.
  - unfold on_group_file. run_gets. cbv zeta. destruct (_ && _); [apply group_begin_counted|].
    intros _. apply smaller_counted, fewer_smaller, fewer_drop.
Qed.

(** A run in which no peer has more begins under way than it has sessions. *)
Inductive busy_step (sessions : node_id → N) (all : N) (e : P2p) : P2p → Prop :=
| busy_run o : at_work sessions all (run secret blobs_dir o e).2 →
    busy_step sessions all e (run secret blobs_dir o e).2.

Lemma run_counted sessions all o e : at_work sessions all (run secret blobs_dir o e).2 →
  counted sessions all e → counted sessions all (run secret blobs_dir o e).2.
Proof.
  intros Hw Hc. destruct (match o with OFrame _ f _ => is_begin f | _ => false end) eqn:Ho.
  - destruct o; try done. by apply frame_counted.
  - eapply smaller_counted; [|exact Hc]. apply run_smaller. by destruct o.
Qed.

(** ** Well-formed transfers *)

Abbreviation keeps := (Ev (stays tidy)) (only parsing).
Lemma fewer_keeps {A} (m : M A) : Ev fewer m → keeps m.
Proof. apply ev_stays, fewer_tidy. Qed.
#[local] Hint Extern 2 (Ev (stays tidy) _) => apply fewer_keeps; solve [eauto with foot] : eff.
Ltac keep_step :=
  match goal with
  | |- Ev (stays tidy) (emit _) => apply fewer_keeps; rest
  | |- Ev (stays tidy) (modify (on_rx (delete _))) => apply fewer_keeps, ev_modify; intros ?; apply fewer_delete
  | |- Ev (stays tidy) (modify _) => apply fewer_keeps; rest
  | |- Ev (stays tidy) (drop_group_inbound _) => apply fewer_keeps, fewer_drop
  | _ => eff_step
  end.
Ltac keep := repeat keep_step.

Lemma tidy_insert e from id t : tidy e → entry_ok from id t → tidy (on_rx <[(from, id) := t]> e).
Proof.
  intros [Hr Hb] Ht. split; [|exact Hb]. intros n i t'. cbn. rewrite lookup_insert_Some.
  intros [[[= <- <-] <-]|[_ ?]]; [done|by apply Hr].
Qed.
Lemma tidy_begin e from id t : tidy e → entry_ok from id t → tidy (begin_rx from id t e).2.
Proof.
  intros [Hr Hb] Ht. split; [exact Hr|]. intros n i t'. cbn. rewrite elem_of_app.
  intros [?|[= -> -> ->]%list_elem_of_singleton]; [by apply Hb|done].
Qed.

Ltac still H := first [exact H | eapply fewer_tidy; [|exact H]; by apply fewer_other].

Lemma on_file_begin_keeps from id ts name size mime cap :
  keeps (on_file_begin blobs_dir from id ts name size mime cap).
Proof.
  intros e Hi. unfold on_file_begin. cbv zeta. destruct (negb _) eqn:Hid; [still Hi|].
  destruct (N.ltb_spec MAX_FILE_BYTES size) as [|Hsize]; [still Hi|]. run_gets.
  case_bool_decide as Hg; [still Hi|]. destruct (_ || _); [still Hi|]. apply tidy_begin; [done|].
  apply negb_false_iff in Hid. split; cbn; [done|lia|apply sanitize_no_sep|done].
Qed.
Lemma on_group_file_begin_keeps from gid id ts name size mime cap :
  keeps (on_group_file_begin blobs_dir from gid id ts name size mime cap).
Proof.
  intros e Hi. unfold on_group_file_begin. cbv zeta. destruct (negb _) eqn:Hid; [still Hi|].
  destruct (N.ltb_spec MAX_GROUP_FILE_BYTES size) as [|Hsize]; [still Hi|]. run_gets.
  case_bool_decide as Hg; [still Hi|]. destruct (_ || _); [still Hi|].
  destruct (has_group_file _ _ _ _); [still Hi|]. apply tidy_begin; [done|].
  apply negb_false_iff in Hid. split; cbn; [done|lia|apply sanitize_no_sep|done].
Qed.

Lemma finish_begin_keeps k : keeps (finish_begin k).
Proof.
  intros e Hi. unfold finish_begin. run_gets. destruct (e_begins e !! k) as [[[from id] t]|] eqn:Hk; [|still Hi].
  run_modify. set (e1 := on_e_begins _ e). assert (H1 : tidy e1).
  { destruct Hi as [Hr Hb]. split; [exact Hr|]. intros n i t' Hin. apply Hb.
    eapply sublist_subseteq; [apply sublist_delete|exact Hin]. }
  apply list_elem_of_lookup_2, (ti_begins e Hi) in Hk. run_front Hf.
  pose proof (fewer_tidy _ _ (create_rx (fr_partial t) e1)) as H2. rewrite Hf in H2. specialize (H2 H1). cbn in H2.
  destruct r as [[]|x]; [by apply tidy_insert|still H2|still H2].
Qed.

Lemma entry_got from id t n : entry_ok from id t → (n ≤ fr_size t)%N → entry_ok from id (set_got n t).
Proof. by intros [? ? ? ?] ?. Qed.

Lemma on_file_chunk_keeps from id data : keeps (on_file_chunk from id data).
Proof.
  intros e Hi. unfold on_file_chunk. run_gets. destruct (e_rx_files e !! (from, id)) as [t|] eqn:Ht; [|still Hi].
  case_bool_decide; [still Hi|]. destruct (base64_decode _) as [b|].
  2: { eapply fewer_tidy; [|exact Hi]. apply fewer_delete. }
  cbv zeta. destruct (N.ltb_spec (fr_size t) (wadd64 (fr_got t) (N.of_nat (length b)))) as [|Hle].
  { eapply fewer_tidy; [|exact Hi]. apply fewer_delete. }
  unfold emit. run_modify. run_front Hf.
  match type of Hf with append_file _ _ ?s = _ =>
    pose proof (fewer_tidy _ _ (append_rx (fr_partial t) b s)) as H2; rewrite Hf in H2 end.
  cbn [snd] in H2. assert (H3 : tidy e') by (apply H2; still Hi). clear H2. rename H3 into H2.
  destruct r as [w|x]; [|still H2]. apply tidy_insert; [exact H2|]. apply entry_got; [|done]. by apply (ti_rx e Hi).
Qed.
Lemma on_file_end_tidy from tx id : keeps (on_file_end from tx id).
Proof. unfold on_file_end. keep. Qed.
Lemma on_group_file_chunk_keeps from gid id data : keeps (on_group_file_chunk from gid id data).
Proof.
  intros e Hi. unfold on_group_file_chunk. run_gets.
  destruct (e_rx_files e !! (from, id)) as [t|] eqn:Ht; [|still Hi]. case_bool_decide; [still Hi|]. cbv zeta.
  assert (Hdrop : keeps (modify (on_rx (delete (from, id))) ≫= λ _, remove_file (fr_partial t))) by keep.
  destruct (base64_decode _) as [b|]; [|by apply Hdrop].
  destruct (N.ltb_spec (fr_size t) (wadd64 (fr_got t) (N.of_nat (length b)))) as [|Hle]; [by apply Hdrop|].
  run_front Hf. pose proof (fewer_tidy _ _ (append_rx (fr_partial t) b e)) as H2. rewrite Hf in H2.
  specialize (H2 Hi). cbn in H2. destruct r as [[]|x]; cbn [negb]; [|by apply Hdrop|still H2].
  run_modify. unfold emit. apply (fewer_tidy (on_rx <[(from, id) := set_got (wadd64 (fr_got t) (N.of_nat (length b))) t]> e'));
    [by apply fewer_other|].
  apply tidy_insert; [exact H2|]. apply entry_got; [|done]. by apply (ti_rx e Hi).
Qed.

#[local] Hint Resolve on_file_begin_keeps on_file_chunk_keeps on_file_end_tidy on_group_file_begin_keeps
  on_group_file_chunk_keeps finish_begin_keeps : eff.
Lemma on_group_file_end_keeps from gid id : keeps (on_group_file_end secret from gid id).
Proof. unfold on_group_file_end. keep. Qed.
#[local] Hint Resolve on_group_file_end_keeps : eff.
Lemma on_group_file_keeps from f tx : keeps (on_group_file secret blobs_dir from f tx).
Proof. unfold on_group_file. keep. Qed.
#[local] Hint Resolve on_group_file_keeps : eff.
Lemma session_frame_tidy from f tx : keeps (session_frame secret blobs_dir from f tx).
Proof. unfold session_frame, handle_frame. keep. Qed.
#[local] Hint Resolve session_frame_tidy : eff.

Lemma reload_tidy e : tidy (reload secret e).
Proof.
  unfold reload. destruct (load_groups _). split; cbn; intros n id t; [by rewrite lookup_empty|].
  by intros ?%not_elem_of_nil.
Qed.
Lemma start_tidy : keeps (start secret).
Proof. unfold start. apply ev_bind; [typeclasses eauto|intros e _; exact (reload_tidy e)|]. intros _. keep. Qed.

Lemma run_tidy o : keeps (run secret blobs_dir o).
Proof. pose proof start_tidy. destruct o; cbn [run]; unfold ignore, maintain; keep. Qed.

Lemma runs_tidy e os : tidy e → tidy (runs secret blobs_dir e os).
Proof. revert e. induction os as [|o os IH]; intros e Hi; [done|]. by apply IH, run_tidy. Qed.

Lemma blank_tidy : tidy blank.
Proof. split; cbn; intros n id t; [by rewrite lookup_empty|by intros ?%not_elem_of_nil]. Qed.

Lemma rx_placed e : dom (e_rx_files e) ⊆ placed e.
Proof. unfold placed. set_solver. Qed.

Lemma blank_counted sessions all : counted sessions all blank.
Proof.
  assert (Hb : placed blank = ∅) by (unfold placed; cbn; set_solver).
  unfold counted. rewrite Hb, size_empty. split; [intros n|unfold MAX_INBOUND_FILES_TOTAL; lia].
  replace (of_peer n ∅) with (∅ : gset (node_id * str)) by (unfold of_peer; set_solver). rewrite size_empty.
  unfold MAX_INBOUND_FILES_PER_PEER. lia.
Qed.

(** [C36] From a first start, whatever arrives and in whatever order sessions
    interleave: with at most [sessions n] begins of a peer [n], and [all] in all,
    between the check of the limits and the insertion, fewer than
    [3 + sessions n] transfers of that peer and fewer than [8 + all] in all are
    under way - 3 and 8 with one session - none has taken more than its announced
    size, no announced size is above the limit, and each writes to its own partial
    file in the directory of its sender or group. *)
Theorem inbound_bounded sessions all e : rtc (busy_step sessions all) blank e →
  (∀ n, (count_from n (e_rx_files e) < MAX_INBOUND_FILES_PER_PEER + sessions n)%N) ∧
  (total_of (e_rx_files e) < MAX_INBOUND_FILES_TOTAL + all)%N ∧
  ∀ n id t, e_rx_files e !! (n, id) = Some t → entry_ok n id t.
Proof.
  intros Hrun.
  assert (H : tidy e ∧ counted sessions all e).
  { assert (Hb : tidy blank ∧ counted sessions all blank).
    { split; [apply blank_tidy|]. apply blank_counted. }
    revert Hb. induction Hrun as [|e1 e2 e3 [o Hw] _ IH]; [done|]. intros [H1 H2].
    apply IH. split; [by apply run_tidy|by apply run_counted]. }
  destruct H as [[Hr _] [Hn Ht]]. split_and!; [intros n; specialize (Hn n)| |done].
  - rewrite count_placed. pose proof (subseteq_size _ _ (of_peer_sub n _ _ (rx_placed e))). lia.
  - rewrite total_placed. pose proof (subseteq_size _ _ (rx_placed e)). lia.
Qed.

(** ** What a frame does to the files *)

Definition files_of (e : P2p) : gmap str bytes := dk_files (e_disk e).
Definition same_files (e e' : P2p) : Prop := files_of e' = files_of e.
#[export] Instance same_files_preorder : PreOrder same_files.
Proof. split; [done|]. intros e1 e2 e3 H1 H2. unfold same_files in *. congruence. Qed.
#[export] Instance same_files_foot : Foot secret same_files.
Proof. split; try done; [typeclasses eauto|]. apply listed_any; [typeclasses eauto|done..]. Qed.
#[export] Instance same_files_front : FootFront same_files.
Proof. by split. Qed.
#[export] Instance same_files_ask : FootAsk same_files.
Proof. by split. Qed.
#[export] Instance same_files_chat : FootChat same_files.
Proof. by split. Qed.
#[export] Instance same_files_peers : FootPeers same_files.
Proof. by intros f e. Qed.
#[export] Instance same_files_rx : FootRx same_files.
Proof. by split. Qed.

Ltac foots := repeat first [solve [eauto with foot]|eff_step].

(** The partial file of a transfer of a sender, in its directory or in that of a
    group. *)
Definition own_partial (from : node_id) (o : option str) (path : str) : Prop :=
  ∃ id, o = Some id ∧ no_sep id ∧
    (path = join (peer_dir blobs_dir from) ("partial-" ++ id) ∨ ∃ g, path = group_partial blobs_dir g from id).
(** The directories a sender may put files in. *)
Definition own_dir (e : P2p) (from : node_id) (dir : str) : Prop :=
  dir = peer_dir blobs_dir from ∨
  ∃ g r, groups e !! g = Some r ∧ gr_removed r = false ∧ contains (gr_state r) from = true ∧
    dir = group_dir blobs_dir g.

(** What may become of the files [fs]. *)
Definition files_ok (e : P2p) (from : node_id) (o : option str) (fs' : gmap str bytes) : Prop :=
  ∀ path, own_partial from o path ∨ fs' !! path = files_of e !! path ∨
    ∃ dir n, own_dir e from dir ∧ plain n ∧ path = join dir n ∧
      (files_of e !! path = None ∨ ∃ name, no_sep name ∧ crowded (files_of e) dir name).

Lemma files_same e from o fs' : fs' = files_of e → files_ok e from o fs'.
Proof. intros -> path. auto. Qed.
Lemma files_partial e from o fs' p :
  own_partial from o p → (∀ path, path ≠ p → fs' !! path = files_of e !! path) → files_ok e from o fs'.
Proof. intros Hp H path. destruct (decide (path = p)) as [->|Hne]; [by left|right; left; by apply H]. Qed.

Lemma safe_no_sep id : is_safe_transfer_id id = true → no_sep id.
Proof.
  unfold is_safe_transfer_id. intros [_ H]%andb_true_iff. rewrite forallb_forall in H.
  split; intros Hc; (match type of Hc with ?c ∈ _ =>
    assert (Hb : c ∈ as_bytes id) by (apply list_elem_of_bind; exists c; split; [set_solver|done]) end);
    apply list_elem_of_In, H in Hb; discriminate.
Qed.
Lemma entry_partial from id t : entry_ok from id t → own_partial from (Some id) (fr_partial t).
Proof.
  intros [Hs _ _ Hp]. exists id. split; [done|]. split; [by apply safe_no_sep|].
  destruct (fr_gid t) as [g|]; destruct Hp as (_ & _ & ->); [right|left]; eauto.
Qed.

(** A finished transfer is moved to a free name, or thrown away again. *)
Lemma files_moved e from id t stamp fs' :
  entry_ok from id t → own_dir e from (fr_dir t) →
  (∀ path, path ≠ fr_partial t → path ≠ unique_path (files_of e) (fr_dir t) (fr_name t) stamp →
    fs' !! path = files_of e !! path) →
  files_ok e from (Some id) fs'.
Proof.
  intros Hok Hd H path. destruct (decide (path = fr_partial t)) as [->|H1].
  { left. by eapply entry_partial. }
  destruct (unique_path_spec (files_of e) (fr_dir t) (fr_name t) stamp) as (n & Hu & Hp & Hfree); [apply Hok|].
  rewrite Hu in H. destruct (decide (path = join (fr_dir t) n)) as [->|H2]; [|right; left; auto].
  right. right. exists (fr_dir t), n. split_and!; try done.
  destruct Hfree as [?|?]; [by left|right]. exists (fr_name t). split; [apply Hok|done].
Qed.

Lemma files_later e from o fs' e2 :
  files_ok e from o fs' → files_of e2 = fs' → files_ok e from o (files_of e2).
Proof. by intros H ->. Qed.

Lemma same_later {A} (m : M A) e from o e1 :
  Ev same_files m → files_ok e from o (files_of e1) → files_ok e from o (files_of (m e1).2).
Proof. intros Hm H. by rewrite Hm. Qed.

Lemma remove_files path e : ∀ p, p ≠ path → files_of (remove_file path e).2 !! p = files_of e !! p.
Proof. intros p Hp. cbn. by rewrite lookup_delete_ne. Qed.
Lemma create_files path e : match create_file path e with
  | (_, e') => files_of e' = files_of e ∨ files_of e' = <[path := []]> (files_of e) end.
Proof. unfold create_file. rewrite run_tick. destruct (env_write_ok _); [by right|by left]. Qed.
Lemma append_files path b e : match append_file path b e with
  | (_, e') => ∀ p, p ≠ path → files_of e' !! p = files_of e !! p end.
Proof.
  unfold append_file. rewrite run_tick. run_gets. destruct (_ && _); [|done]. intros p Hp. cbn.
  by rewrite lookup_alter_ne.
Qed.
Lemma rename_files old new e : match rename_file old new e with
  | (Ok true, e') => ∀ p, p ≠ old → p ≠ new → files_of e' !! p = files_of e !! p
  | (_, e') => files_of e' = files_of e end.
Proof.
  unfold rename_file. rewrite run_tick. run_gets.
  destruct (dk_files (e_disk (on_e_tick N.succ e)) !! old) as [b|]; [|done].
  destruct (env_write_ok (e_tick e)); [|done]. intros p H1 H2. cbn.
  by rewrite lookup_insert_ne, lookup_delete_ne.
Qed.

Lemma remove_all_files e from o (l : list (node_id * str * FileRx)) : ∀ e1,
  Forall (λ kt, own_partial from o (fr_partial kt.2)) l → files_ok e from o (files_of e1) →
  files_ok e from o (files_of (for_each l (λ kt, remove_file (fr_partial kt.2)) e1).2).
Proof.
  induction l as [|x l IH]; intros e1 Hl H1; [exact H1|]. apply Forall_cons in Hl as [Hx Hl]. cbn [for_each].
  match goal with |- context [(remove_file ?p ≫= ?k) ?s] =>
    change ((remove_file p ≫= k) s) with (k tt (on_files (delete p) s)) end. cbv beta. apply IH; [done|]. intros path.
  destruct (decide (path = fr_partial x.2)) as [->|Hne]; [by left|].
  destruct (H1 path) as [?|[?|?]]; [by left| |by right; right]. right. left. cbn. by rewrite lookup_delete_ne.
Qed.

Lemma refuse_files e from fid :
  tidy e → files_ok e from (Some fid) (files_of (drop_group_inbound (λ n id, bool_decide (n = from ∧ id = fid)) e).2).
Proof.
  intros Hi. unfold drop_group_inbound. run_gets. cbv zeta. run_modify. apply remove_all_files.
  - apply Forall_forall. intros [[n id] t] [[_ Hb] Hin]%list_elem_of_filter.
    apply bool_decide_eq_true in Hb as [-> ->]. apply elem_of_map_to_list in Hin. cbn.
    eapply entry_partial. by apply (ti_rx _ Hi).
  - by apply files_same.
Qed.

Lemma begin_files e from o id ts name size mime cap :
  files_ok e from o (files_of (on_file_begin blobs_dir from id ts name size mime cap e).2).
Proof.
  apply files_same. unfold on_file_begin. cbv zeta. destruct (negb _); [done|].
  destruct (_ <? _)%N; [done|]. run_gets. case_bool_decide; [done|]. by destruct (_ || _).
Qed.

Lemma finish_files e k from id t path : tidy e → e_begins e !! k = Some (from, id, t) →
  own_partial from (Some id) path ∨ files_of (finish_begin k e).2 !! path = files_of e !! path.
Proof.
  intros Hi Hk. unfold finish_begin. run_gets. rewrite Hk. run_modify. run_front Hf.
  match type of Hf with create_file ?p ?s = _ => pose proof (create_files p s) as Hc; rewrite Hf in Hc end.
  apply list_elem_of_lookup_2, (ti_begins e Hi), entry_partial in Hk.
  assert (H1 : own_partial from (Some id) path ∨ files_of e' !! path = files_of e !! path).
  { destruct Hc as [->| ->]; [by right|]. destruct (decide (path = fr_partial t)) as [->|Hne]; [by left|right].
    by rewrite lookup_insert_ne. }
  destruct r as [[]|x]; exact H1.
Qed.

Lemma chunk_files e from id data :
  tidy e → files_ok e from (Some id) (files_of (on_file_chunk from id data e).2).
Proof.
  intros Hi. unfold on_file_chunk. run_gets. destruct (e_rx_files e !! (from, id)) as [t|] eqn:Ht; [|by apply files_same].
  case_bool_decide; [by apply files_same|]. destruct (base64_decode _) as [b|]; [|by apply files_same].
  cbv zeta. destruct (_ <? _)%N; [by apply files_same|]. unfold emit. run_modify. run_file Hf.
  pose proof (append_files (fr_partial t) b (on_e_events (λ l, l ++ [EvFileProgress (node_str from) id (fr_got t) (fr_size t)]) e)) as Hc.
  rewrite Hf in Hc. assert (H1 : files_ok e from (Some id) (files_of e')).
  { eapply files_partial; [|exact Hc]. eapply entry_partial. by apply (ti_rx _ Hi). }
  destruct r as [w|x]; exact H1.
Qed.

Lemma end_files e from tx id :
  tidy e → files_ok e from (Some id) (files_of (on_file_end from tx id e).2).
Proof.
  intros Hi. unfold on_file_end. run_gets. destruct (e_rx_files e !! (from, id)) as [t|] eqn:Ht; [|by apply files_same].
  pose proof (ti_rx _ Hi _ _ _ Ht) as Hok. case_bool_decide as Hg; [by apply files_same|]. run_modify.
  destruct (negb _).
  { eapply files_partial; [by eapply entry_partial|].
    exact (remove_files (fr_partial t) (on_rx (delete (from, id)) e)). }
  rewrite run_now. run_gets. cbv zeta. run_file Hf.
  match type of Hf with rename_file ?o ?n ?s = _ => pose proof (rename_files o n s) as Hc end. rewrite Hf in Hc.
  assert (H1 : files_ok e from (Some id) (files_of e')).
  { destruct r as [[]|x]; [|by apply files_same|by apply files_same]. eapply (files_moved e from id t); [done| |exact Hc].
    left. destruct (fr_gid t) eqn:Hgid; [destruct Hg; by eexists|]. destruct Hok as [_ _ _ Hp].
    rewrite Hgid in Hp. apply Hp. }
  destruct r as [[]|x]; cbn [negb]; [|exact H1|exact H1]. apply same_later; [|exact H1]. foots.
Qed.

Lemma group_begin_files e from o gid id ts name size mime cap :
  files_ok e from o (files_of (on_group_file_begin blobs_dir from gid id ts name size mime cap e).2).
Proof.
  apply files_same. unfold on_group_file_begin. cbv zeta. destruct (negb _); [done|].
  destruct (_ <? _)%N; [done|]. run_gets. case_bool_decide; [done|]. destruct (_ || _); [done|].
  by destruct (has_group_file _ _ _ _).
Qed.

Lemma group_chunk_files e from gid id data :
  tidy e → files_ok e from (Some id) (files_of (on_group_file_chunk from gid id data e).2).
Proof.
  intros Hi. unfold on_group_file_chunk. run_gets.
  destruct (e_rx_files e !! (from, id)) as [t|] eqn:Ht; [|by apply files_same].
  case_bool_decide; [by apply files_same|]. cbv zeta.
  assert (Hown : own_partial from (Some id) (fr_partial t)) by (eapply entry_partial; by apply (ti_rx _ Hi)).
  assert (Hdrop : ∀ s, (∀ p, p ≠ fr_partial t → files_of s !! p = files_of e !! p) →
    files_ok e from (Some id) (files_of ((modify (on_rx (delete (from, id))) ≫= λ _, remove_file (fr_partial t)) s).2)).
  { intros s Hs. eapply files_partial; [exact Hown|]. intros p Hp. rewrite <- Hs by done.
    exact (remove_files (fr_partial t) (on_rx (delete (from, id)) s) p Hp). }
  destruct (base64_decode _) as [b|]; [|by apply Hdrop]. destruct (_ <? _)%N; [by apply Hdrop|]. run_file Hf.
  pose proof (append_files (fr_partial t) b e) as Hc. rewrite Hf in Hc.
  destruct r as [[]|x]; cbn [negb]; [|by apply Hdrop|by eapply files_partial].
  eapply files_partial; [exact Hown|]. exact Hc.
Qed.

(** All files but one stay. *)
Definition but (q : str) (e e' : P2p) : Prop := ∀ p, p ≠ q → files_of e' !! p = files_of e !! p.
#[local] Instance but_preorder q : PreOrder (but q).
Proof. split; [done|]. intros e1 e2 e3 H1 H2 p Hp. by rewrite H2, H1. Qed.
Lemma same_but {A} q (m : M A) : Ev same_files m → Ev (but q) m.
Proof. intros H e p _. by rewrite H. Qed.
Lemma remove_but q : Ev (but q) (remove_file q).
Proof. intros e p Hp. by apply remove_files. Qed.
#[local] Hint Resolve remove_but : eff.
#[local] Hint Extern 2 (Ev (but _) _) => apply same_but; solve [eauto with foot] : eff.
Ltac but_step :=
  match goal with
  | |- Ev (but _) (modify _) => apply same_but; foots
  | |- Ev (but _) (emit _) => apply same_but; foots
  | _ => eff_step
  end.

Lemma then_files {A B} (m : M A) (k : A → M B) s :
  (∀ a, Ev same_files (k a)) → files_of ((m ≫= k) s).2 = files_of (m s).2.
Proof. intros Hk. unfold mbind, M_bind. destruct (m s) as [[a|x] s']; [apply Hk|done]. Qed.

Lemma group_end_files e from gid id r0 :
  tidy e → groups e !! gid = Some r0 → gr_removed r0 = false → contains (gr_state r0) from = true →
  files_ok e from (Some id) (files_of (on_group_file_end secret from gid id e).2).
Proof.
  intros Hi Hr0 Hrem Hin. unfold on_group_file_end. run_gets.
  destruct (e_rx_files e !! (from, id)) as [t|] eqn:Ht; [|by apply files_same].
  pose proof (ti_rx _ Hi _ _ _ Ht) as Hok. case_bool_decide as Hg; [by apply files_same|]. run_modify.
  assert (Hd : own_dir e from (fr_dir t)).
  { right. exists gid, r0. split_and!; try done. destruct Hok as [_ _ _ Hp].
    rewrite Hg in Hp. apply Hp. }
  destruct (negb _).
  { rewrite then_files by (intros; foots). eapply files_partial; [by eapply entry_partial|].
    exact (remove_files (fr_partial t) (on_rx (delete (from, id)) e)). }
  rewrite run_now. run_gets. cbv zeta. run_file Hf.
  match type of Hf with rename_file ?o ?n ?s = _ => pose proof (rename_files o n s) as Hc end. rewrite Hf in Hc.
  set (final := unique_path _ _ _ _) in *. destruct r as [[]|x]; cbn [negb]; [| |by apply files_same].
  2: { eapply files_partial; [by eapply entry_partial|]. intros p Hp. rewrite remove_files by exact Hp. by rewrite Hc. }
  match goal with |- files_ok _ _ _ (files_of (?m e').2) => assert (Hbut : Ev (but final) m) by repeat but_step end.
  eapply (files_moved e from id t); [exact Hok|exact Hd|]. intros p H1 H2. rewrite Hbut by exact H2. by apply Hc.
Qed.

(** The transfer a frame is about. *)
Definition transfer (f : Frame) : option str :=
  match f with
  | FileBegin id _ _ _ _ _ | FileChunk id _ | FileEnd id => Some id
  | GroupFileBegin _ id _ _ _ _ _ | GroupFileChunk _ id _ | GroupFileEnd _ id => Some id
  | _ => None
  end.

Lemma group_file_files e from f tx :
  tidy e → files_ok e from (transfer f) (files_of (on_group_file secret blobs_dir from f tx e).2).
Proof.
  intros Hi. unfold on_group_file. run_gets. cbv zeta.
  destruct f; try (by apply files_same); (destruct (_ && _) eqn:Hall; [|by apply refuse_files]); cbn [transfer].
  - apply group_begin_files.
  - by apply group_chunk_files.
  - apply andb_true_iff in Hall as [_ Hall]. destruct (groups e !! gid) as [r|] eqn:Hr; [|done].
    cbn in Hall. apply andb_true_iff in Hall as [Hrem Hin]. apply negb_true_iff in Hrem. by eapply group_end_files.
Qed.


(** A run with one session at work, as a check. *)
Fixpoint one_at_a_time (e : P2p) (os : list Op) : bool :=
  match os with
  | [] => true
  | o :: os => let e' := (run secret blobs_dir o e).2 in (length (e_begins e') <=? 1) && one_at_a_time e' os
  end.
Lemma one_at_a_time_ok os : ∀ e, one_at_a_time e os = true →
  rtc (busy_step (λ _, 1%N) 1) e (runs secret blobs_dir e os).
Proof.
  induction os as [|o os IH]; intros e; cbn [one_at_a_time]; [by intros|].
  intros [Hl%Nat.leb_le Hos]%andb_true_iff. eapply rtc_l; [apply (busy_run _ _ e o)|by apply IH].
  split; [|lia]. intros n. pose proof (length_filter (λ b : node_id * str * FileRx, b.1.1 = n) (e_begins (run secret blobs_dir o e).2)).
  lia.
Qed.

End Inbound.

(** ** At work *)

Import ToyNet ToySerde Scene.

Definition got_ops : list Op := Scene.alice_start ++ Scene.sends "f1" "../notes.txt" ++
  [OFrame Scene.bob_id (FileBegin "f2" 6 "notes.txt" 9 "text/plain" []) 0; OFinishBegin 0].
Lemma got_is : Scene.alice_got = runs (En := Scene.env 1) Scene.alice Scene.blobs blank got_ops.
Proof. unfold Scene.alice_got, Scene.alice0, got_ops, runs. by rewrite !foldl_app. Qed.
Lemma got_run : rtc (busy_step (En := Scene.env 1) Scene.alice Scene.blobs (λ _, 1%N) 1) blank Scene.alice_got.
Proof. rewrite got_is. apply one_at_a_time_ok. vm_compute. reflexivity. Qed.

Lemma received_name_plain_witness :
  unique_path ∅ (lit "/d") (sanitize_name (lit "../..")) 7 = lit "/d/file" ∧ plain (lit "file").
Proof.
  destruct (received_name_plain ∅ (lit "/d") (lit "../..") 7) as (n & Hn & Hp & _).
  assert (Hf : unique_path ∅ (lit "/d") (sanitize_name (lit "../..")) 7 = lit "/d/file") by (vm_compute; reflexivity).
  split; [exact Hf|]. rewrite Hf in Hn. unfold join in Hn. change (lit "/d/file") with (lit "/d" ++ lit "/" ++ lit "file") in Hn.
  apply app_inv_head, app_inv_head in Hn. rewrite Hn. exact Hp.
Defined.

(** The first file is there, the second under way. *)
Lemma inbound_bounded_witness :
  dom (e_rx_files Scene.alice_got) = {[(Scene.bob_id, lit "f2")]} ∧
  (count_from Scene.bob_id (e_rx_files Scene.alice_got) < 3 + 1)%N.
Proof.
  split; [apply (bool_decide_unpack _); vm_compute; exact I|].
  apply (inbound_bounded Scene.alice Scene.blobs (λ _, 1%N) 1 _ got_run).
Defined.

(** With two sessions the limit of 3 is passed. *)
Lemma limit_passed : count_from Scene.bob_id (e_rx_files Scene.alice_raced) = 4%N.
Proof. vm_compute. reflexivity. Qed.


(** A stored file whose name is that of a partial file is emptied when a transfer
    with that id begins. *)
Lemma partial_name_clash :
  let path := join (join Scene.blobs (node_str Scene.bob_id)) "partial-f2" in
  let e' := runs (En := Scene.env 1) Scene.alice Scene.blobs Scene.alice_clash
              [OFrame Scene.bob_id (FileBegin "f2" 6 "other.txt" 9 "text/plain" []) 0; OFinishBegin 0] in
  files_of Scene.alice_clash !! path = Some (lit "abc") ∧
  sm_file <$> load_messages Scene.alice_clash Scene.bob_id = [Some (SFile "partial-f2" 3 "text/plain" path)] ∧
  files_of e' !! path = Some [].
Proof. split_and!; vm_compute; reflexivity. Qed.
