(* ===== verification/Catchup.v ===== *)
(** * A member catches up

    What one [pump] puts on a session, exactly; and that a member that comes back
    gets every message it missed, a window of 200 at each exchange. *)

From stdpp Require Import relations.
From S2P Require Import Prelude Str Net Groups Frames Engine Delivery Rosters GroupWire Chat Files Media Effects GroupInv Ops Scene Safety Delivered Exchange.

(** ** Ranges of sequence numbers *)

(** [a .. b] *)
Definition range (a b : N) : list N := N.of_nat <$> seq (N.to_nat a) (N.to_nat (b + 1 - a)).

Lemma elem_of_range a b i : i ∈ range a b ↔ (a ≤ i ≤ b)%N.
Proof.
  unfold range. rewrite list_elem_of_fmap. setoid_rewrite elem_of_seq. split.
  - intros (k & -> & ?). lia.
  - intros. exists (N.to_nat i). lia.
Qed.
Lemma range_upto n : range 1 n = upto n.
Proof. unfold range, upto. do 2 f_equal; lia. Qed.
Lemma range_app a b c : (a ≤ b + 1)%N → (b ≤ c)%N → range a c = range a b ++ range (b + 1) c.
Proof.
  intros H1 H2. unfold range. rewrite <- fmap_app. f_equal.
  replace (N.to_nat (b + 1)) with (N.to_nat a + N.to_nat (b + 1 - a)) by lia. rewrite <- seq_app. f_equal. lia.
Qed.
Lemma range_cons a b : (a ≤ b)%N → range a b = a :: range (a + 1) b.
Proof.
  intros H. rewrite (range_app a a b) by lia. unfold range at 1. replace (N.to_nat (a + 1 - a)) with 1 by lia.
  cbn. by rewrite N2Nat.id.
Qed.
Lemma range_nil a b : (b < a)%N → range a b = [].
Proof. intros H. unfold range. by replace (N.to_nat (b + 1 - a)) with 0 by lia. Qed.


(** The part of [1 .. n] between two bounds. *)
Lemma filter_upto a b n : (1 ≤ a)%N → (b ≤ n)%N → filter (λ i, a ≤ i ≤ b)%N (upto n) = range a b.
Proof.
  intros Ha Hb. destruct (decide (a ≤ b)%N) as [Hab|Hab].
  - rewrite <- range_upto, (range_app 1 (a - 1) n) by lia. replace (a - 1 + 1)%N with a by lia.
    rewrite (range_app a b n) by lia. rewrite !filter_app, filter_none, filter_all, filter_none.
    + by rewrite app_nil_r.
    + apply Forall_forall. intros i Hi%elem_of_range. lia.
    + apply Forall_forall. intros i Hi%elem_of_range. lia.
    + apply Forall_forall. intros i Hi%elem_of_range. lia.
  - rewrite range_nil, filter_none; [done| |lia]. apply Forall_forall. intros. lia.
Qed.

Lemma filter_fmap {A B} (f : A → B) (Q : B → Prop) `{!∀ x, Decision (Q x)} (l : list A) :
  filter Q (f <$> l) = f <$> filter (λ x, Q (f x)) l.
Proof.
  induction l as [|x l IH]; [done|]. rewrite fmap_cons, !filter_cons. case_decide; [|done]. by rewrite IH.
Qed.

Section Pump.
Context {P : Platform} {L : PlatformLaws} {SD : Serde} {SL : SerdeLaws} {En : Env}.
Context (secret : secret_key).
Local Abbreviation me_str := (me_str secret).
Local Abbreviation inv := (inv secret).
Local Abbreviation pump := (pump secret).

(** The messages of this device numbered [a] to [b]. *)
Definition numbered (e : P2p) (g : str) (a b : N) : list GroupLogRec :=
  filter (λ r, own_between secret a b r = true) (lrecs e g).

Lemma numbered_seqs e g r a b :
  inv e → groups e !! g = Some r → gr_hidden r = false → (1 ≤ a)%N → (b < gr_next_seq r)%N →
  lr_seq <$> numbered e g a b = range a b.
Proof.
  intros Hi Hr Hh Ha Hb. destruct (inv_lookup _ _ _ _ Hi Hr) as [_ Hn _ Hm _]. specialize (Hm Hh).
  rewrite <- (filter_upto a b (gr_next_seq r - 1)) by lia. rewrite <- Hm. unfold my_seqs.
  rewrite filter_fmap. f_equal. unfold numbered. rewrite list_filter_filter. apply list_filter_iff.
  intros x. unfold own_between, mine. rewrite !andb_true_iff, !bool_decide_eq_true, !N.leb_le. intuition lia.
Qed.

Lemma pump_recs_open gid tx marker recs : ∀ e, is_closed e tx = false →
  ∃ e', pump_recs secret gid tx marker recs e = (Ok tt, e') ∧
    sent_on e' tx = sent_on e tx ++ (msg_frame secret gid <$> recs) ∧
    (∀ tx', tx' ≠ tx → e_chans e' !! tx' = e_chans e !! tx') ∧ is_closed e' tx = false ∧
    groups e' = groups e ∧ logs e' = logs e ∧ peers e' = peers e ∧ rt_gone (grt e') = rt_gone (grt e).
Proof.
  induction recs as [|r recs IH]; intros e Hc.
  { exists e. rewrite app_nil_r. by split_and!. }
  cbn [pump_recs]. unfold mbind at 1, M_bind at 1. unfold send. rewrite Hc.
  run_modify. set (e1 := on_e_chans _ e). set (e2 := push_link _ _ e1).
  assert (Hs : sent_on e2 tx = sent_on e tx ++ [msg_frame secret gid r] ∧ is_closed e2 tx = false).
  { change (sent_on e2 tx) with (sent_on e1 tx). change (is_closed e2 tx) with (is_closed e1 tx). unfold e1.
    rewrite sent_on_alter. unfold is_closed in *. cbn. rewrite lookup_alter_eq.
    destruct (e_chans e !! tx) as [c|]; [|done]. by rewrite bool_decide_true. }
  destruct Hs as [Hs Hc2]. destruct (IH e2 Hc2) as (e' & Hrun & Hsent & Hoth & Hc' & Hg & Hl & Hp & Hgone).
  exists e'. rewrite Hrun, Hsent, Hs, <- app_assoc. split_and!; try done.
  intros tx' Hne. rewrite Hoth by done. cbn. by rewrite lookup_alter_ne.
Qed.

Lemma v2_open e node tx : v2_tx e node = Some tx → is_closed e tx = false.
Proof.
  unfold v2_tx. destruct (peers e !! node) as [p|]; [|done]. cbn [mbind option_bind].
  destruct (list_find _ _) as [[i h]|] eqn:Hf; [|done]. intros [= <-].
  apply list_find_Some in Hf as (_ & Hq & _). apply Is_true_true, andb_true_iff in Hq as [_ Hq].
  by apply negb_true_iff in Hq.
Qed.

(** What [pump] may assume of a member: it is in the group, has not declined it,
    has a session, and its link was opened at the current epoch. *)
Record pumpable (e : P2p) (gid : str) (node : node_id) (rec : GroupRec) (tx pushed : N) : Prop := {
  pu_rec : groups e !! gid = Some rec;
  pu_live : gr_removed rec = false;
  pu_shown : gr_hidden rec = false;
  pu_member : contains (gr_state rec) node = true;
  pu_gone : (gid, node) ∉ rt_gone (grt e);
  pu_tx : v2_tx e node = Some tx;
  pu_link : rt_links (grt e) !! (gid, node) = Some (Link (gs_epoch (gr_state rec)) pushed);
  pu_room : (gr_next_seq rec + GROUP_WINDOW < u64_bound)%N;
  pu_pushed : (pushed < gr_next_seq rec)%N
}.

Lemma pump_window e gid node rec tx pushed :
  inv e → pumpable e gid node rec tx pushed →
  let cursor := cursor_of (gr_sent_cursor rec) (node_str node) in
  let first := (N.max pushed cursor + 1)%N in
  let last := N.min (gr_next_seq rec - 1) (cursor + GROUP_WINDOW) in
  ∃ e', pump gid node None e = (Ok true, e') ∧
    sent_on e' tx = sent_on e tx ++ (msg_frame secret gid <$> numbered e gid first last) ∧
    lr_seq <$> numbered e gid first last = range first last ∧
    (∀ tx', tx' ≠ tx → e_chans e' !! tx' = e_chans e !! tx') ∧ is_closed e' tx = false ∧
    groups e' = groups e ∧ logs e' = logs e ∧ peers e' = peers e ∧ rt_gone (grt e') = rt_gone (grt e).
Proof.
  intros Hi [Hr Hrem Hh Hm Hg Htx Hlink Hroom Hpu] cursor first last.
  destruct (inv_lookup _ _ _ _ Hi Hr) as [_ Hn Hs _ _]. specialize (Hs (node_str node)). fold cursor in Hs.
  assert (Hseqs : lr_seq <$> numbered e gid first last = range first last).
  { eapply numbered_seqs; [done..| |]; unfold first, last, GROUP_WINDOW; lia. }
  unfold pump. run_gets. rewrite Hr, Hrem, Hm. cbn [negb orb]. cbv zeta. rewrite bool_decide_false by done.
  rewrite Htx, Hlink. cbn [gl_epoch gl_pushed]. rewrite N.eqb_refl. cbn [negb]. fold cursor.
  rewrite !wadd64_small by (unfold GROUP_WINDOW in *; lia). fold first.
  change (sat_sub (gr_next_seq rec) 1) with (gr_next_seq rec - 1)%N. fold last.
  destruct (N.ltb_spec last first) as [Hlt|Hle].
  - exists e. assert (Hnil : numbered e gid first last = []).
    { apply (f_equal length) in Hseqs. rewrite length_fmap, range_nil in Hseqs by done.
      by destruct (numbered e gid first last). }
    rewrite Hnil, range_nil, app_nil_r by done. split_and!; try done. by eapply v2_open.
  - destruct (pump_recs_open gid tx (gid, node) (numbered e gid first last) e) as (e' & Hrun & Hrest);
      [by eapply v2_open|].
    exists e'. unfold mbind, M_bind, pump_source. change (read_log (log_of e gid)) with (lrecs e gid).
    fold (numbered e gid first last). rewrite Hrun. destruct Hrest as (? & ? & ? & ? & ? & ? & ?). by split_and!.
Qed.

(** What one [pump] puts on a member's session is exactly the author's messages
    after both the last one pushed on this session and the last one the member
    acknowledged, in order and each once, up to 200 beyond the acknowledged one;
    nothing goes anywhere else. *)
Theorem pump_sends_window e gid node rec tx pushed :
  inv e → pumpable e gid node rec tx pushed →
  let cursor := cursor_of (gr_sent_cursor rec) (node_str node) in
  let first := (N.max pushed cursor + 1)%N in
  let last := N.min (gr_next_seq rec - 1) (cursor + GROUP_WINDOW) in
  ∃ e', pump gid node None e = (Ok true, e') ∧
    sent_on e' tx = sent_on e tx ++ (msg_frame secret gid <$> numbered e gid first last) ∧
    lr_seq <$> numbered e gid first last = range first last ∧
    (∀ tx', tx' ≠ tx → e_chans e' !! tx' = e_chans e !! tx') ∧ groups e' = groups e ∧ logs e' = logs e.
Proof.
  intros Hi Hp. destruct (pump_window e gid node rec tx pushed Hi Hp)
    as (e' & ? & ? & ? & ? & _ & ? & ? & _). by exists e'.
Qed.

End Pump.

(** ** The author's answer to a sync *)

Lemma run_when {B} b f (k : unit → M B) e :
  (when b (modify f) ≫= k) e = k tt (if b then f e else e).
Proof. by destruct b. Qed.

(** Steps that only draw, save and report. *)
Definition calm (e e' : P2p) : Prop := e_inner e' = e_inner e ∧ e_chans e' = e_chans e ∧ logs e' = logs e.

Lemma calm_persist {P : Platform} {SD : Serde} {En : Env} node e :
  ∃ e', calm e e' ∧ warn_on_error node persist_groups e = (Ok tt, e').
Proof.
  unfold warn_on_error, persist_groups, attempt, mbind, M_bind, next_tick, act. cbn.
  destruct (save_groups _ _ _) as [[u|x] d]; cbn; eexists; (split; [|reflexivity]); by repeat split.
Qed.

Section Author.
Context {P : Platform} {L : PlatformLaws} {SD : Serde} {SL : SerdeLaws} {En : Env} {CT : CharTable} {B64 : Base64}.
Context (secret : secret_key) (blobs_dir : str) (g : str) (reader : node_id).
Local Abbreviation me_str := (me_str secret).
Local Abbreviation inv := (inv secret).
Local Abbreviation key := (node_str reader).

(** The author's side of a session with [reader]: [tx] is where messages go, [txa]
    the session whose frames are read; the reader acknowledged at most [h]. *)
Record sender (a : P2p) (rec : GroupRec) (tx txa h : N) : Prop := {
  se_inv : inv a;
  se_rec : groups a !! g = Some rec;
  se_live : gr_removed rec = false;
  se_shown : gr_hidden rec = false;
  se_member : contains (gr_state rec) reader = true;
  se_tx : v2_tx a reader = Some tx;
  se_proto : (2 ≤ session_proto a reader txa)%N;
  se_room : (gr_next_seq rec + GROUP_WINDOW < u64_bound)%N;
  se_acked : (cursor_of (gr_sent_cursor rec) key ≤ h)%N
}.

(** A record that differs in its cursors only. *)
Definition same_rec (r r' : GroupRec) : Prop :=
  gr_state r' = gr_state r ∧ gr_removed r' = gr_removed r ∧ gr_hidden r' = gr_hidden r ∧
  gr_next_seq r' = gr_next_seq r.

(** How far the handling of the sync has come, from [a]. *)
Record stage (a : P2p) (rec : GroupRec) (c : N) (s : P2p) : Prop := {
  sg_inv : inv s;
  sg_chans : e_chans s = e_chans a;
  sg_logs : logs s = logs a;
  sg_live : ∀ n, p_live <$> peers s !! n = p_live <$> peers a !! n;
  sg_rec : ∃ r, groups s !! g = Some r ∧ same_rec rec r ∧ cursor_of (gr_sent_cursor r) key = c
}.

Lemma live_tx a s : (∀ tx, is_closed s tx = is_closed a tx) → (∀ n, p_live <$> peers s !! n = p_live <$> peers a !! n) →
  (∀ n, v2_tx s n = v2_tx a n) ∧ ∀ n tx, session_proto s n tx = session_proto a n tx.
Proof.
  intros Hcl Hl. split; intros n; [|intros tx]; specialize (Hl n); unfold v2_tx, session_proto;
    destruct (peers s !! n) as [p|], (peers a !! n) as [p'|]; try done; cbn in *; injection Hl as ->; [|done].
  rewrite (list_find_ext (λ h, (2 <=? lh_proto h)%N && negb (is_closed s (lh_tx h)))
    (λ h, (2 <=? lh_proto h)%N && negb (is_closed a (lh_tx h)))); [done|]. intros h. by rewrite Hcl.
Qed.

Lemma stage_calm a rec c s s' : calm s s' → stage a rec c s → stage a rec c s'.
Proof.
  intros (Hi & Hc & Hl) [H1 H2 H3 H4 H5]. unfold peers, groups in *. split; unfold peers, groups; rewrite ?Hi; [|congruence|congruence|done|done].
  eapply inv_gl; [|exact H1]. split; [unfold groups; by rewrite Hi|done].
Qed.

Lemma stage_alter a rec c c' s f :
  (∀ r, groups s !! g = Some r → same_rec r (f r) ∧ gr_have (f r) = gr_have r ∧
     cursor_of (gr_sent_cursor (f r)) key = c' ∧
     (∀ k, cursor_of (gr_sent_cursor (f r)) k < gr_next_seq r)%N) →
  stage a rec c s → stage a rec c' (on_groups (alter f g) s).
Proof.
  intros Hf [H1 H2 H3 H4 (r & Hr & (Hs1 & Hs2 & Hs3 & Hs4) & Hcur)].
  destruct (Hf r Hr) as ((Ha & Hb & Hd & He) & Hhave & Hc & Hlt). split; try done.
  - apply inv_alter; [done|]. intros r' Hr'. assert (r' = r) as -> by congruence.
    destruct (inv_lookup _ _ _ _ H1 Hr) as [[? ?] ? ? ? ?]. split_and!; congruence.
  - exists (f r). split; [unfold groups in *; cbn; by rewrite lookup_alter_eq, Hr|]. split.
    + split_and!; congruence.
    + exact Hc.
Qed.

(** [on_group_sync] up to its answer: the cursor is what the reader has, the link
    is open at its epoch, and it is no longer taken to have left. *)
Lemma sync_stage a rec tx txa epoch h name (k : unit → M unit) :
  sender a rec tx txa h → (h < gr_next_seq rec)%N → epoch = gs_epoch (gr_state rec) →
  (∀ s, stage a rec h s → (g, reader) ∉ rt_gone (grt s) →
     rt_links (grt s) !! (g, reader) = Some (Link epoch h) →
     ∃ s', pump secret g reader None s = (Ok true, s')) →
  ∃ s, stage a rec h s ∧ ((g, reader) ∉ rt_gone (grt s)) ∧
    rt_links (grt s) !! (g, reader) = Some (Link epoch h) ∧
    on_group_sync secret reader txa g epoch h name a = (Ok tt, (pump secret g reader None s).2).
Proof.
  intros [Hi Hr Hrem Hh Hm Htx Hpr Hroom Hack] Hlt -> Hpump. unfold on_group_sync. run_gets. rewrite Hr, Hrem, Hm.
  cbn [negb]. cbv zeta. set (sd := _ && (_ <? _)%N). set (acked := N.min h _).
  assert (Hacked : acked = h) by (unfold acked, sat_sub; lia). rewrite Hacked. clearbody acked. clear Hacked.
  set (ad := (_ <? h)%N). replace (N.max _ h) with h by lia.
  assert (H0 : stage a rec (cursor_of (gr_sent_cursor rec) key) a).
  { split; try done. exists rec. by repeat split. }
  rewrite run_when. match goal with |- context [if ?b then ?x else a] => set (s1 := if b then x else a) end.
  assert (H1 : stage a rec (cursor_of (gr_sent_cursor rec) key) s1).
  { unfold s1. case_match; [|done]. destruct H0 as [J1 J2 J3 J4 J5].
    split; [by eapply inv_gl; [|exact J1]|done|done| |done]. intros n. cbn.
    destruct (decide (reader = n)) as [<-|Hne]; [rewrite lookup_alter_eq|by rewrite lookup_alter_ne].
    unfold peers. destruct (in_peers (e_inner a) !! reader) as [p|]; cbn; [|done]. by case_match. }
  run_modify. set (s2 := on_gone _ s1).
  assert (H2 : stage a rec (cursor_of (gr_sent_cursor rec) key) s2).
  { destruct H1 as [J1 J2 J3 J4 J5]. split; [by eapply inv_gl; [|exact J1]|done..]. }
  assert (Hg2 : (g, reader) ∉ rt_gone (grt s2)) by (unfold s2; cbn; set_solver).
  rewrite run_when. match goal with |- context [if sd then ?x else s2] => set (s3 := if sd then x else s2) end.
  assert (H3 : stage a rec (cursor_of (gr_sent_cursor rec) key) s3 ∧ (g, reader) ∉ rt_gone (grt s3)).
  { unfold s3. destruct sd; [|done]. split; [|done]. eapply stage_alter; [|exact H2]. intros r Hr2.
    destruct H2 as [J1 _ _ _ (r2 & Hr2' & _ & Hc)]. assert (r2 = r) as -> by congruence.
    destruct (inv_lookup _ _ _ _ J1 Hr2) as [_ _ J _ _]. by repeat split. }
  rewrite run_when. match goal with |- context [if ad then ?x else s3] => set (s4 := if ad then x else s3) end.
  assert (H4 : stage a rec h s4 ∧ (g, reader) ∉ rt_gone (grt s4)).
  { destruct H3 as [H3 Hg3]. unfold s4, ad in *. destruct (N.ltb_spec (cursor_of (gr_sent_cursor rec) key) h).
    - split; [|done]. eapply stage_alter; [|exact H3]. intros r Hr3.
      destruct H3 as [J1 _ _ _ (r3 & Hr3' & (_ & _ & _ & Hn) & Hc)]. assert (r3 = r) as -> by congruence.
      destruct (inv_lookup _ _ _ _ J1 Hr3) as [_ _ J _ _]. split_and!; try done.
      + cbn. rewrite cursor_insert. by rewrite decide_True.
      + intros k'. cbn. rewrite cursor_insert. case_decide; [lia|apply J].
    - by replace h with (cursor_of (gr_sent_cursor rec) key) at 1 by lia. }
  clear H1 H2 H3 Hg2. clearbody s4. clear s1 s2 s3 k.
  assert (H5 : ∃ s5, stage a rec h s5 ∧ ((g, reader) ∉ rt_gone (grt s5)) ∧ ∀ B (k : unit → M B),
    (when (sd || ad) (warn_on_error reader persist_groups) ≫= k) s4 = k tt s5).
  { destruct H4 as [H4 Hg4]. destruct (sd || ad); cbn [when]; [|by exists s4].
    destruct (calm_persist reader s4) as (s5 & Hcalm & Hrun). exists s5. split_and!.
    - by eapply stage_calm.
    - destruct Hcalm as (Hin & _). unfold grt in *. by rewrite Hin.
    - intros B k. unfold mbind, M_bind. by rewrite Hrun. }
  destruct H5 as (s5 & H5 & Hg5 & Hrun). rewrite Hrun. clear H4 Hrun s4.
  assert (H6 : ∃ s6, stage a rec h s6 ∧ ((g, reader) ∉ rt_gone (grt s6)) ∧ ∀ B (k : unit → M B),
    (when ad (emit (EvGroupAck g key h)) ≫= k) s5 = k tt s6).
  { destruct ad; cbn [when]; [|by exists s5]. eexists (on_e_events _ s5). split_and!; [|done|done].
    eapply stage_calm; [|exact H5]. by repeat split. }
  destruct H6 as (s6 & H6 & Hg6 & Hrun). rewrite Hrun. clear H5 Hg5 Hrun s5. run_modify.
  set (s7 := on_links _ s6). exists s7.
  assert (H7 : stage a rec h s7).
  { destruct H6 as [J1 J2 J3 J4 J5]. split; [by eapply inv_gl; [|exact J1]|done..]. }
  assert (Hl7 : rt_links (grt s7) !! (g, reader) = Some (Link (gs_epoch (gr_state rec)) h)) by apply lookup_insert_eq.
  split_and!; try done. rewrite N.ltb_irrefl.
  destruct (Hpump s7 H7 Hg6 Hl7) as (s' & Hp). unfold mbind, M_bind. by rewrite Hp.
Qed.

Lemma sync_answer a rec tx txa h name :
  sender a rec tx txa h → (h < gr_next_seq rec)%N →
  let a' := (session_frame secret blobs_dir reader (GroupSync g (gs_epoch (gr_state rec)) h name) txa a).2 in
  let last := N.min (gr_next_seq rec - 1) (h + GROUP_WINDOW) in
  ∃ rec', sender a' rec' tx txa h ∧ same_rec rec rec' ∧ logs a' = logs a ∧
    sent_on a' tx = sent_on a tx ++ (msg_frame secret g <$> numbered secret a g (h + 1) last) ∧
    lr_seq <$> numbered secret a g (h + 1) last = range (h + 1) last.
Proof.
  intros Hse Hlt. pose proof Hse as [Hi Hr Hrem Hh Hm Htx Hpr Hroom Hack]. cbv zeta.
  set (f := GroupSync _ _ _ _).
  assert (Hlast : ∀ s, logs s = logs a → numbered secret s g = numbered secret a g).
  { intros s Hl. unfold numbered, lrecs. by rewrite Hl. }
  assert (Hwin : ∀ s, stage a rec h s → ((g, reader) ∉ rt_gone (grt s)) →
     rt_links (grt s) !! (g, reader) = Some (Link (gs_epoch (gr_state rec)) h) →
     ∃ r, pumpable s g reader r tx h ∧ inv s ∧ same_rec rec r ∧ cursor_of (gr_sent_cursor r) key = h).
  { intros s [J1 J2 J3 J4 (r & Hr' & (Ha & Hb & Hc & Hd) & Hcur)] Hg Hl. exists r. split; [|by split].
    destruct (live_tx a s) as [Ht _]; [intros tx'; unfold is_closed; by rewrite J2|done|]. split; try congruence; done. }
  destruct (sync_stage a rec tx txa (gs_epoch (gr_state rec)) h name (λ _, mret tt) Hse Hlt eq_refl)
    as (s & Hs & Hg & Hl & Hrun).
  { intros s Hs Hg Hl. destruct (Hwin s Hs Hg Hl) as (r & Hp & Hin & _).
    destruct (pump_window secret s g reader r tx h Hin Hp) as (s' & Hp' & _). by exists s'. }
  destruct (Hwin s Hs Hg Hl) as (r & Hp & Hin & Hsame & Hcur).
  destruct (pump_window secret s g reader r tx h Hin Hp) as (s' & Hp' & Hsent & Hseqs & Hoth & Hopen & Hgr & Hlo & Hpe & Hgo).
  assert (Hfin : (session_frame secret blobs_dir reader f txa a).2 = s').
  { unfold session_frame, handle_frame. unfold mbind at 1, M_bind at 1. run_gets. cbn [is_group is_group_file f negb].
    rewrite andb_false_r. unfold handle_group_frame. run_gets.
    destruct (N.ltb_spec (session_proto a reader txa) 2); [lia|]. unfold f. rewrite Hrun, Hp'. done. }
  rewrite Hfin. exists r. destruct Hs as [J1 J2 J3 J4 J5]. destruct Hsame as (Ha & Hb & Hc & Hd).
  assert (Hcl : ∀ tx', is_closed s' tx' = is_closed a tx').
  { intros tx'. destruct (decide (tx' = tx)) as [->|Hne].
    - rewrite Hopen. symmetry. by eapply v2_open.
    - unfold is_closed. by rewrite Hoth, J2. }
  destruct (live_tx a s' Hcl) as [Ht Hses]; [intros n; by rewrite Hpe|].
  rewrite Hcur, N.max_id, Hd, (Hlast s J3) in *.
  assert (Hst : sent_on s tx = sent_on a tx) by (unfold sent_on; by rewrite J2). rewrite Hst in Hsent.
  split_and!; try congruence; [|done].
  assert (Hr' : groups s' !! g = Some r) by (rewrite Hgr; apply Hp).
  split; try congruence; [eapply inv_gl; [|exact J1]; done|rewrite Hcur; lia].
Qed.
End Author.

(** ** The reader takes what comes next *)

Section Reader.
Context {P : Platform} {L : PlatformLaws} {SD : Serde} {SL : SerdeLaws} {En : Env} {CT : CharTable} {B64 : Base64}.
Context (secret : secret_key) (blobs_dir : str) (g : str) (from : node_id).
Local Abbreviation key := (node_str from).

Record taker (b : P2p) (rec : GroupRec) (txb h : N) : Prop := {
  tk_rec : groups b !! g = Some rec;
  tk_live : gr_removed rec = false;
  tk_member : contains (gr_state rec) from = true;
  tk_have : cursor_of (gr_have rec) key = h;
  tk_proto : (2 ≤ session_proto b from txb)%N
}.

(** What a receiver does not refuse. *)
Definition acceptable (id text : str) : bool :=
  negb (bool_decide (text = []) || (MAX_GROUP_TEXT <? str_len text)%N || negb (is_safe_transfer_id id)).

Lemma last_ts_spec gid e : ∃ v e', group_last_ts secret gid e = (Ok v, e') ∧ groups e' = groups e ∧ peers e' = peers e ∧
  logs e' = logs e.
Proof. unfold group_last_ts. case_match; eexists _, _; by split_and!. Qed.

Lemma send_peers tx f e : groups (send_ tx f e).2 = groups e ∧ peers (send_ tx f e).2 = peers e ∧
  logs (send_ tx f e).2 = logs e.
Proof. unfold send_, send, mbind, M_bind. by destruct (is_closed e tx). Qed.

(** The log of the group grew by messages of the sender that say [ps]. *)
Definition took (b b' : P2p) (ps : list (N * str * N * str * option str * option str)) : Prop :=
  logs_ok b' ∧ ∃ lines, lrecs b' g = lrecs b g ++ lines ∧ Forall (by_ key) lines ∧ payload <$> lines = ps.

Lemma take_one b rec txb h id ts text rt rx :
  logs_ok b →
  taker b rec txb h → (∀ n, env_append n = AppWhole) → acceptable id text = true → (h + 1 < u64_bound)%N →
  let b' := (session_frame secret blobs_dir from (GroupMsg g key (h + 1) id ts text rt rx) txb b).2 in
  took b b' [((h + 1)%N, id, ts, text, rt, rx)] ∧ ∃ rec', taker b' rec' txb (h + 1) ∧ gr_state rec' = gr_state rec.
Proof.
  intros Hlogs [Hr Hrem Hm Hh Hp] Happ Hok Hb. apply negb_true_iff in Hok.
  set (line := λ ts_eff, LogRec (h + 1) key id ts ts_eff "in" text rt rx None).
  set (Post := λ e' : P2p, groups e' !! g = Some (on_gr_have <[key := (h + 1)%N]> rec) ∧ peers e' = peers b ∧
    ∃ ts_eff, logs e' = partial_alter (λ f, append_log f (line ts_eff)) g (logs b)).
  assert (Hfin : Post (session_frame secret blobs_dir from (GroupMsg g key (h + 1) id ts text rt rx) txb b).2).
  { unfold session_frame, handle_frame. unfold mbind at 1, M_bind at 1. run_gets.
    cbn [is_group is_group_file negb]. rewrite andb_false_r. unfold handle_group_frame. run_gets.
    destruct (N.ltb_spec (session_proto b from txb) 2); [lia|]. unfold on_group_msg.
    cbn [gi_gid gi_claimed gi_seq gi_id gi_ts gi_text gi_reply_to gi_reply_text]. cbv zeta.
    rewrite bool_decide_false by tauto. run_gets. rewrite Hr, Hrem, Hm. cbn [negb].
    destruct (N.eqb_spec (h + 1) 0); [lia|]. cbn [orb]. rewrite Hok, Hh.
    destruct (N.leb_spec (h + 1) h); [lia|]. rewrite wadd64_small by lia. rewrite N.ltb_irrefl.
    rewrite run_now. set (b1 := on_e_tick _ b). destruct (last_ts_spec g b1) as (v & b2 & Hts & Hg2 & Hp2 & Hl2).
    unfold mbind at 1, M_bind at 1. rewrite Hts.
    unfold append_group_log, attempt. unfold mbind at 1, M_bind at 1. rewrite run_tick, Happ. cbv beta iota. cbn [modify].
    run_modify. run_modify. run_modify. set (b3 := on_groups _ _).
    destruct (calm_persist from b3) as (b4 & (Hi4 & _ & Hl4) & Hrun). unfold mbind at 1, M_bind at 1. rewrite Hrun.
    run_gets. unfold emit. run_modify. set (b5 := on_e_events _ b4).
    assert (H5 : Post b5).
    { unfold Post. change (groups b5) with (groups b4). change (peers b5) with (peers b4).
      change (logs b5) with (logs b4). rewrite Hl4. unfold groups, peers.
      rewrite Hi4. split; [|split; [exact Hp2|eexists; cbn; unfold logs in *; rewrite Hl2; reflexivity]]. cbn. rewrite lookup_alter_eq. unfold groups in Hg2. rewrite Hg2. cbn.
      unfold groups in Hr. by rewrite Hr. }
    destruct (send_peers txb (GroupAck g (h + 1)) b5) as (Hg6 & Hp6 & Hl6).
    destruct (send_ txb (GroupAck g (h + 1)) b5) as [[u|x] b6]; cbn [snd] in *;
      [change (Post b6)|]; unfold Post in *; rewrite Hg6, Hp6, Hl6; exact H5. }
  destruct Hfin as (Hg' & Hp' & te & Hl'). cbv zeta. split.
  { destruct (logged_recs g (line te) b (on_logs (λ _, logs (session_frame secret blobs_dir from
      (GroupMsg g key (h + 1) id ts text rt rx) txb b).2) b) Hlogs) as (H1 & H2 & _); [by split_and!|].
    split; [exact H1|]. exists [line te]. split; [exact H2|]. split; [|done]. constructor; [|constructor].
    split_and!; [done|done|]. cbn. lia. }
  exists (on_gr_have <[key := (h + 1)%N]> rec). split; [|done].
  split; try done.
  - cbn. rewrite cursor_insert. by rewrite decide_True.
  - unfold session_proto in *. by rewrite Hp'.
Qed.

(** A run of consecutive messages. *)
Lemma take_all txb recs : ∀ b rec h,
  logs_ok b →
  taker b rec txb h → (∀ n, env_append n = AppWhole) →
  lr_seq <$> recs = range (h + 1) (h + N.of_nat (length recs)) →
  Forall (λ r, acceptable (lr_id r) (lr_text r) = true) recs → (h + N.of_nat (length recs) < u64_bound)%N →
  let b' := runs secret blobs_dir b ((λ r, OFrame from (GroupMsg g key (lr_seq r) (lr_id r) (lr_ts r)
      (lr_text r) (lr_reply_to r) (lr_reply_text r)) txb) <$> recs) in
  took b b' (payload <$> recs) ∧
  ∃ rec', taker b' rec' txb (h + N.of_nat (length recs)) ∧ gr_state rec' = gr_state rec.
Proof.
  induction recs as [|r recs IH]; intros b rec h Hl Ht Happ Hs Hok Hlt.
  { split; [|exists rec; cbn; by rewrite N.add_0_r]. split; [done|]. exists []. by rewrite app_nil_r. }
  apply Forall_cons in Hok as [Hr Hok]. cbn [length] in *. rewrite range_cons in Hs by lia.
  rewrite fmap_cons in Hs. injection Hs as Hseq Hs.
  destruct (take_one b rec txb h (lr_id r) (lr_ts r) (lr_text r) (lr_reply_to r) (lr_reply_text r) Hl Ht Happ Hr)
    as ((Hl1 & l1 & Hg1 & Hf1 & Hp1) & rec1 & Ht1 & Hst1); [lia|].
  replace (h + N.of_nat (S (length recs)))%N with (h + 1 + N.of_nat (length recs))%N in * by lia.
  destruct (IH _ rec1 (h + 1)%N Hl1 Ht1 Happ Hs Hok) as ((Hl2 & l2 & Hg2 & Hf2 & Hp2) & rec2 & Ht2 & Hst2); [lia|].
  rewrite fmap_cons. cbn [runs foldl]. cbv zeta in *. unfold runs in Ht2, Hl2, Hg2 |- *. cbn [run]. rewrite Hseq. split.
  - split; [exact Hl2|]. exists (l1 ++ l2). rewrite Hg2, Hg1, app_assoc. split; [done|]. split; [by apply Forall_app|].
    rewrite fmap_app, Hp1, Hp2, fmap_cons. unfold payload at 2. by rewrite Hseq.
  - exists rec2. split; [exact Ht2|congruence].
Qed.
End Reader.

(** ** Rounds *)

Section Rounds.
Context {P : Platform} {L : PlatformLaws} {SD : Serde} {SL : SerdeLaws} {CT : CharTable} {B64 : Base64}.
Context (ka kb : secret_key) (da db : str) (EA EB : Env) {WA : WholeAppends (En := EA)} {WB : WholeAppends (En := EB)} (g : str).
Local Abbreviation author := (public ka).
Local Abbreviation reader := (public kb).

(** The reader's [GroupSync]. *)
Definition asks (b : P2p) : Frame :=
  match groups b !! g with Some rec => sync_frame kb b rec author | None => Ping end.

(** The reader asks, the author answers on [tx], the reader takes the answer. *)
Definition round (tx txa txb : N) (s : Sys) : Sys :=
  let a' := (run (En := EA) ka da (OFrame reader (asks (s_reader s)) txa) (s_author s)).2 in
  let answer := drop (length (sent_on (s_author s) tx)) (sent_on a' tx) in
  MkSys a' (runs (En := EB) kb db (s_reader s) ((λ f, OFrame author f txb) <$> answer)).

(** Every message of the author is one a receiver takes. *)
Definition all_acceptable (a : P2p) : Prop :=
  Forall (λ r, own ka r → acceptable (lr_id r) (lr_text r) = true) (lrecs a g).

Record in_touch (s : Sys) (tx txa txb n h : N) : Prop := {
  it_author : ∃ rec, sender ka g reader (s_author s) rec tx txa h ∧ gr_next_seq rec = (n + 1)%N ∧
    ∃ rec', taker g author (s_reader s) rec' txb h ∧ gs_gid (gr_state rec') = g ∧
      gs_epoch (gr_state rec') = gs_epoch (gr_state rec);
  it_have : (h ≤ n)%N;
  it_texts : all_acceptable (s_author s)
}.

(** The reader has the author's messages 1 to [h], and logged them. *)
Definition got (s : Sys) (h : N) : Prop :=
  logs_ok (s_reader s) ∧ payload <$> received ka g s = payload <$> numbered ka (s_author s) g 1 h.

Lemma same_numbered {A} (key : A → N) (l1 l2 : list A) n :
  key <$> l1 = upto n → key <$> l2 = upto n → l1 ⊆ l2 → l1 = l2.
Proof.
  intros H1 H2 Hsub. destruct (numbered_prefix key l1 l2 n n H1 H2 Hsub) as [l ->].
  apply (f_equal length) in H1, H2. rewrite length_fmap in H1, H2. rewrite length_app in H2.
  assert (length l = 0) as ->%nil_length_inv by lia. by rewrite app_nil_r.
Qed.

Lemma numbered_app a rec x y :
  inv ka a → groups a !! g = Some rec → gr_hidden rec = false → (x ≤ y)%N → (y < gr_next_seq rec)%N →
  numbered ka a g 1 x ++ numbered ka a g (x + 1) y = numbered ka a g 1 y.
Proof.
  intros Hi Hr Hh Hxy Hy.
  assert (H1 : lr_seq <$> (numbered ka a g 1 x ++ numbered ka a g (x + 1) y) = upto y).
  { rewrite fmap_app, !(numbered_seqs ka a g rec) by (try done; lia).
    by rewrite <- range_app, range_upto by lia. }
  assert (H2 : lr_seq <$> numbered ka a g 1 y = upto y).
  { rewrite (numbered_seqs ka a g rec) by (try done; lia). apply range_upto. }
  apply (same_numbered lr_seq _ _ y H1 H2).
  intros m. rewrite elem_of_app. unfold numbered. rewrite !list_elem_of_filter. unfold own_between.
  rewrite !andb_true_iff, !N.leb_le. intuition lia.
Qed.

Lemma numbered_own a x y : Forall (own ka) (numbered ka a g x y).
Proof.
  apply Forall_forall. intros r [Ho _]%list_elem_of_filter. unfold own_between in Ho.
  rewrite !andb_true_iff, !bool_decide_eq_true in Ho. by destruct Ho as [[[? ?] _] _].
Qed.

Lemma round_step tx txa txb s n h :
  (∀ i, @env_append EB i = AppWhole) → in_touch s tx txa txb n h →
  got s h →
  in_touch (round tx txa txb s) tx txa txb n (N.min n (h + GROUP_WINDOW)) ∧
  got (round tx txa txb s) (N.min n (h + GROUP_WINDOW)) ∧
  logs (s_author (round tx txa txb s)) = logs (s_author s).
Proof.
  intros Happ [(rec & Hse & Hn & recb & Ht & Hgid & Hep) Hhave Htexts] [Hlogs Hgot].
  set (h' := N.min n (h + GROUP_WINDOW)).
  assert (Hask : asks (s_reader s) = GroupSync g (gs_epoch (gr_state rec)) h (my_name kb (s_reader s))).
  { unfold asks, sync_frame. destruct Ht as [-> _ _ -> _]. by rewrite Hgid, Hep. }
  destruct (sync_answer (En := EA) ka da g reader _ rec tx txa h (my_name kb (s_reader s)) Hse) as
    (rec1 & Hse1 & (Hst1 & _ & _ & Hn1) & Hlog & Hsent & Hseqs); [lia|].
  cbv zeta in *. rewrite Hn in *. replace (n + 1 - 1)%N with n in * by lia. fold h' in Hsent, Hseqs.
  unfold round. rewrite Hask. cbn [run]. set (a' := (session_frame _ _ _ _ _ (s_author s)).2) in *.
  rewrite Hsent, drop_app_length. set (recs := numbered ka (s_author s) g (h + 1) h') in *.
  assert (Hlen : (h + N.of_nat (length recs))%N = h').
  { apply (f_equal length) in Hseqs. rewrite length_fmap in Hseqs. rewrite Hseqs. unfold range.
    rewrite length_fmap, length_seq. unfold h'. lia. }
  pose proof (se_room _ _ _ _ _ _ _ _ Hse) as Hroom.
  destruct (take_all (En := EB) kb db g author txb recs (s_reader s) recb h Hlogs Ht Happ)
    as ((Hl1 & lines & Hlines & Hby & Hpay) & recb1 & Ht1 & Hst).
  - by rewrite Hlen.
  - pose proof (numbered_own (s_author s) (h + 1) h') as Hown. apply Forall_forall. intros r Hr.
    rewrite Forall_forall in Hown. unfold all_acceptable in Htexts. rewrite Forall_forall in Htexts.
    apply Htexts; [|by apply Hown]. by apply list_elem_of_filter in Hr as [_ ?].
  - unfold GROUP_WINDOW in Hroom. lia.
  - rewrite Hlen in Ht1. split_and!; [split| |exact Hlog]; cbn [s_author s_reader].
    + exists rec1. split; [|split].
      * destruct Hse1. split; try done. lia.
      * congruence.
      * exists recb1. rewrite <- list_fmap_compose in *. split; [exact Ht1|]. split; congruence.
    + lia.
    + unfold all_acceptable, lrecs in *. by rewrite Hlog.
    + assert (Hfr : (λ f, OFrame author f txb) <$> (msg_frame ka g <$> recs)
        = (λ r, OFrame author (GroupMsg g (node_str author) (lr_seq r) (lr_id r) (lr_ts r)
            (lr_text r) (lr_reply_to r) (lr_reply_text r)) txb) <$> recs) by (by rewrite <- list_fmap_compose).
      unfold got. cbn [s_author s_reader]. rewrite Hfr. split; [exact Hl1|]. unfold received in *. cbn [s_author s_reader] in *.
      rewrite Hlines, filter_app, (filter_all (by_ (node_str author)) lines Hby), fmap_app, Hgot, Hpay, <- fmap_app.
      unfold recs. rewrite (numbered_app _ rec); [|apply Hse|apply Hse|apply Hse|lia|lia].
      unfold numbered, lrecs. by rewrite Hlog.
Qed.

Lemma rounds_step tx txa txb n k : ∀ s h,
  (∀ i, @env_append EB i = AppWhole) → in_touch s tx txa txb n h → got s h →
  let s' := Nat.iter k (round tx txa txb) s in
  let h' := N.min n (h + GROUP_WINDOW * N.of_nat k) in
  in_touch s' tx txa txb n h' ∧ got s' h' ∧ logs (s_author s') = logs (s_author s).
Proof.
  induction k as [|k IH]; intros s h Happ Hs Hg.
  - cbn [Nat.iter]. replace (N.min n (h + GROUP_WINDOW * N.of_nat 0)) with h by (destruct Hs; lia). done.
  - cbv zeta. rewrite Nat.iter_succ. destruct (IH s h Happ Hs Hg) as (H1 & H2 & H3).
    destruct (round_step tx txa txb _ n _ Happ H1 H2) as (H4 & H5 & H6). unfold GROUP_WINDOW in *.
    replace (N.min n (h + 200 * N.of_nat (S k)))%N
      with (N.min n (N.min n (h + 200 * N.of_nat k) + 200))%N by lia. split_and!; [done..|congruence].
Qed.

(** What the two devices did before left the reader with the author's first
    messages. *)
Lemma got_so_far s tx txa txb n h rec : sys_inv ka kb g s → in_touch s tx txa txb n h →
  groups (s_reader s) !! g = Some rec → gr_hidden rec = false → got s h.
Proof.
  intros Hi [(ra & Hse & Hn & rb & Ht & _) Hhave _] Hr Hh. destruct Hi as [Ha Hb Hk _ Hrecv].
  split; [apply Hb|]. assert (rb = rec) as -> by (destruct Ht; congruence).
  destruct (inv_lookup _ _ _ _ Hb Hr) as [_ _ _ _ Hby].
  assert (H1 : (λ p, p.1.1.1.1.1) <$> (payload <$> received ka g s) = upto h).
  { rewrite <- list_fmap_compose. destruct Ht as [_ _ _ <- _]. exact (Hby Hh _). }
  assert (H2 : (λ p, p.1.1.1.1.1) <$> (payload <$> numbered ka (s_author s) g 1 h) = upto h).
  { rewrite <- list_fmap_compose, <- range_upto. rewrite <- (numbered_seqs ka (s_author s) g ra 1 h);
      [done|apply Hse|apply Hse|apply Hse|lia|lia]. }
  apply (same_numbered (λ p, p.1.1.1.1.1) _ _ h H1 H2).
  intros p Hp. pose proof Hp as Hseq. apply (list_elem_of_fmap_2 (λ p, p.1.1.1.1.1)) in Hseq. rewrite H1 in Hseq.
    rewrite <- range_upto in Hseq. apply elem_of_range in Hseq.
    apply list_elem_of_fmap in Hp as (m & -> & Hm). destruct (Hrecv m Hm) as (m0 & H0 & [Hd Hf] & Hp0).
    rewrite <- Hp0 in *. cbn in Hseq. apply list_elem_of_fmap. exists m0. split; [done|].
    apply list_elem_of_filter. split; [|exact H0]. unfold own_between.
    rewrite !andb_true_iff, !bool_decide_eq_true, !N.leb_le. split_and!; [done|done|lia|lia].
Qed.


End Rounds.

(** ** At work *)

Import ToyNet ToySerde Scene.

(** Alice wrote twice while Bob was away. *)
Definition apart : Sys := MkSys Scene.alice2 Scene.bob1.

Lemma alice2_rec r : groups Scene.alice2 !! Scene.gid = Some r →
  gr_removed r = false ∧ gr_hidden r = false ∧ contains (gr_state r) Scene.bob_id = true ∧ gr_next_seq r = 3%N ∧
  cursor_of (gr_sent_cursor r) (node_str Scene.bob_id) = 0%N ∧ gs_epoch (gr_state r) = 1%N.
Proof.
  intros Hr. assert (H : (λ r, (gr_removed r, gr_hidden r, contains (gr_state r) Scene.bob_id, gr_next_seq r,
      cursor_of (gr_sent_cursor r) (node_str Scene.bob_id), gs_epoch (gr_state r))) <$> groups Scene.alice2 !! Scene.gid
    = Some (false, false, true, 3%N, 0%N, 1%N)) by (vm_compute; reflexivity).
  rewrite Hr in H. clear Hr. injection H as H1 H2 H3 H4 H5 H6. split_and!; assumption.
Qed.

Lemma bob1_rec r : groups Scene.bob1 !! Scene.gid = Some r →
  gr_removed r = false ∧ contains (gr_state r) Scene.alice_id = true ∧
  cursor_of (gr_have r) (node_str Scene.alice_id) = 0%N ∧ gs_gid (gr_state r) = Scene.gid ∧ gs_epoch (gr_state r) = 1%N.
Proof.
  intros Hr. assert (H : (λ r, (gr_removed r, contains (gr_state r) Scene.alice_id,
      cursor_of (gr_have r) (node_str Scene.alice_id), gs_gid (gr_state r), gs_epoch (gr_state r)))
      <$> groups Scene.bob1 !! Scene.gid = Some (false, true, 0%N, Scene.gid, 1%N)) by (vm_compute; reflexivity).
  rewrite Hr in H. clear Hr. injection H as H1 H2 H3 H4 H5. split_and!; assumption.
Qed.

Lemma apart_in_touch : in_touch Scene.alice Scene.bob Scene.gid apart 0 0 0 2 0.
Proof.
  destruct (groups Scene.alice2 !! Scene.gid) as [ra|] eqn:Ha; [|vm_compute in Ha; discriminate].
  destruct (groups Scene.bob1 !! Scene.gid) as [rb|] eqn:Hb; [|vm_compute in Hb; discriminate].
  destruct (alice2_rec ra Ha) as (A1 & A2 & A3 & A4 & A5 & A6), (bob1_rec rb Hb) as (B1 & B2 & B3 & B4 & B5).
  split.
  - exists ra. split; [|split; [exact A4|]].
    + split; cbn [s_author apart]; [exact alice2_inv|exact Ha|exact A1|exact A2|exact A3|vm_compute; reflexivity| | |].
      * apply N.leb_le. vm_compute. reflexivity.
      * rewrite A4. reflexivity.
      * apply N.eq_le_incl. exact A5.
    + exists rb. split; [|split; [exact B4|congruence]].
      split; cbn [s_reader apart]; [exact Hb|exact B1|exact B2|exact B3|].
      apply N.leb_le. vm_compute. reflexivity.
  - discriminate.
  - apply Forall_forall. intros r Hr [Hd Hf].
    assert (H : forallb (λ r, negb (is_own (me_str Scene.alice) r) || acceptable (lr_id r) (lr_text r))
      (lrecs Scene.alice2 Scene.gid) = true) by (vm_compute; reflexivity).
    rewrite forallb_forall in H. apply list_elem_of_In, H in Hr. unfold is_own in Hr.
    rewrite (bool_decide_eq_true_2 _ Hf), (bool_decide_eq_true_2 _ Hd) in Hr. exact Hr.
Qed.

Lemma apart_run : rtc (sys_step Scene.alice Scene.bob Scene.blobs Scene.blobs (Scene.env 1) (Scene.env 2) Scene.gid)
  (MkSys Scene.alice1 Scene.bob1) apart.
Proof. unfold apart. eapply author_runs; [reflexivity|vm_compute; reflexivity..]. Qed.


(** A session of Bob's that was just opened: nothing was pushed on it yet. *)
Definition linked (e : P2p) : P2p := on_links <[(Scene.gid, Scene.bob_id) := Link 1 0]> e.

Lemma linked_inv e : inv Scene.alice e → inv Scene.alice (linked e).
Proof. apply inv_gl. done. Qed.
Lemma linked_pumpable e r tx :
  groups e !! Scene.gid = Some r → gr_removed r = false → gr_hidden r = false →
  contains (gr_state r) Scene.bob_id = true → gr_next_seq r = 3%N → gs_epoch (gr_state r) = 1%N →
  (Scene.gid, Scene.bob_id) ∉ rt_gone (grt e) → v2_tx e Scene.bob_id = Some tx →
  pumpable (linked e) Scene.gid Scene.bob_id r tx 0.
Proof.
  intros Hr H1 H2 H3 H4 H6 Hg Ht. split; try done; rewrite ?H4, ?H6; [|done|done]. apply lookup_insert_eq.
Qed.

Lemma pump_sends_window_witness :
  ∃ e' m1 m2, pump Scene.alice Scene.gid Scene.bob_id None (linked Scene.alice2) = (Ok true, e') ∧
    sent_on e' 0 = sent_on (linked Scene.alice2) 0 ++ [m1; m2].
Proof.
  destruct (groups Scene.alice2 !! Scene.gid) as [r|] eqn:Hr; [|vm_compute in Hr; discriminate].
  destruct (alice2_rec r Hr) as (A1 & A2 & A3 & A4 & A5 & A6).
  destruct (pump_sends_window Scene.alice (linked Scene.alice2) Scene.gid Scene.bob_id r 0 0)
    as (e' & Hrun & Hsent & Hseqs & _).
  - apply linked_inv. exact alice2_inv.
  - apply linked_pumpable; [exact Hr|exact A1|exact A2|exact A3|exact A4|exact A6
      |apply (bool_decide_unpack _); vm_compute; exact I|vm_compute; reflexivity].
  - rewrite A5, A4 in *. cbv zeta in *. clear Hr.
    destruct (numbered Scene.alice (linked Scene.alice2) Scene.gid _ _) as [|m1 [|m2 [|]]]; try discriminate Hseqs.
    exists e', (msg_frame Scene.alice Scene.gid m1), (msg_frame Scene.alice Scene.gid m2).
    split; [exact Hrun|exact Hsent].
Defined.
