(* ===== verification/Membership.v ===== *)
(** * Who can change a roster

    Every operation, with whatever a peer sends, leaves the roster of a group as
    it is, forgets the group, or changes it in one of the ways of [legit]. *)

From S2P Require Import Prelude Str Net Groups Frames Engine Delivery Rosters GroupWire Chat Files Media Effects GroupInv Ops Safety Scene.

Section Membership.
Context {P : Platform} {SD : Serde} {En : Env} {CT : CharTable} {B64 : Base64}.
Context (secret : secret_key) (blobs_dir : str).
Local Abbreviation me := (me secret).
Local Abbreviation me_str := (me_str secret).

Definition roster_of (e : P2p) (g : str) : option GroupState := gr_state <$> groups e !! g.

(** ** Operations that do not change rosters *)

Definition kept (e e' : P2p) : Prop := ∀ g, roster_of e' g = roster_of e g ∨ roster_of e' g = None.

#[export] Instance kept_preorder : PreOrder kept.
Proof.
  split; [by left|]. intros e1 e2 e3 H12 H23 g.
  destruct (H23 g) as [E|E]; [|by right]. rewrite E. apply H12.
Qed.

Lemma same_kept e e' : groups e' = groups e → kept e e'.
Proof. intros E g. left. unfold roster_of. by rewrite E. Qed.

Lemma quiet_kept {A} (m : M A) : Ev quiet m → Ev kept m.
Proof. apply ev_mono. intros e e' (? & _). by apply same_kept. Qed.
Lemma gl_kept {A} (m : M A) : Ev same_gl m → Ev kept m.
Proof. apply ev_mono. intros e e' (? & _). by apply same_kept. Qed.

(** A change of a record that leaves its roster. *)
Lemma alter_kept f g : (∀ r, gr_state (f r) = gr_state r) → Ev kept (modify (on_groups (alter f g))).
Proof.
  intros Hf e g'. left. unfold roster_of, groups. cbn. destruct (decide (g = g')) as [->|].
  - rewrite lookup_alter_eq. destruct (in_groups _ !! g'); cbn; by rewrite ?Hf.
  - by rewrite lookup_alter_ne.
Qed.
Lemma delete_kept g : Ev kept (modify (on_groups (delete g))).
Proof.
  intros e g'. unfold roster_of, groups. cbn. destruct (decide (g = g')) as [->|].
  - right. by rewrite lookup_delete_eq.
  - left. by rewrite lookup_delete_ne.
Qed.

#[local] Hint Resolve quiet_kept gl_kept ev_core_gl ev_core_quiet alter_kept delete_kept pump_gl
  emit_core now_ms_core group_last_ts_core remove_file_core warn_core rename_file_core
  persist_groups_core warn_on_error_core groups_changed_core
  announce_state_quiet trigger_connect_core random_id_core next_tick_core delete_group_blobs_core
  sync_introduced_core set_connecting_core persist_peers_core persist_messages_core write_row_core finish_begin_core
  trigger_group_dials_core drop_group_inbound_core typing_gate_core
  set_name_core hear_beacon_core create_invite_core incoming_hello_core approve_pair_core
  pair_accepted_quiet pair_connect_quiet serve_dialed_quiet serve_accepted_quiet end_session_quiet
  send_text_quiet typing_peer_quiet typing_group_quiet on_msg_quiet on_typing_core on_ack_core
  on_file_begin_core on_file_chunk_core on_file_end_quiet on_group_file_begin_core
  on_group_file_chunk_core group_file_wrote_core group_file_done_core group_files_failed_core
  group_file_retry_quiet send_file_quiet maintain_core stream_group_file_quiet : eff.
#[local] Hint Extern 1 (Ev quiet (send _ _)) => apply send_quiet; reflexivity : eff.
#[local] Hint Extern 1 (Ev quiet (send_ _ _)) => apply send__quiet; reflexivity : eff.

Lemma append_kept g r : Ev kept (append_group_log g r).
Proof.
  intros e. apply same_kept. unfold append_group_log. rewrite run_tick. by destruct (env_append _).
Qed.
Lemma pump_all_kept g line ms : Ev kept (pump_all secret g line ms).
Proof. induction ms; cbn [pump_all]; eff. Qed.
#[local] Hint Resolve append_kept pump_all_kept : eff.

Ltac keep_step :=
  match goal with
  | |- Ev kept (modify (on_groups (alter _ _))) => apply alter_kept; done
  | |- Ev kept (modify (on_groups (delete _))) => apply delete_kept
  | |- Ev kept (modify _) => apply ev_modify; intros ?; apply same_kept; reflexivity
  | |- Ev kept (emit _) => apply quiet_kept, ev_core_quiet, emit_core
  | |- Ev kept (send_ _ _) => apply gl_kept, send__gl
  | |- _ => eff_step
  end.
Ltac keepr := repeat keep_step.


Lemma log_sys_from_kept g epoch ls : ∀ i, Ev kept (log_sys_from secret i g epoch ls).
Proof. induction ls as [|[k t] ls IH]; intros i; cbn [log_sys_from]; keepr. Qed.
Lemma log_sys_kept g epoch ls : Ev kept (log_sys secret g epoch ls).
Proof. apply log_sys_from_kept. Qed.
#[local] Hint Resolve log_sys_kept : eff.

Lemma on_group_ack_kept from g have : Ev kept (on_group_ack secret from g have).
Proof. unfold on_group_ack. keepr. Qed.
Lemma on_group_sync_kept from tx g epoch have name : Ev kept (on_group_sync secret from tx g epoch have name).
Proof. unfold on_group_sync. keepr. Qed.
Lemma group_send_kept g text rt rx : Ev kept (group_send secret g text rt rx).
Proof. unfold group_send. keepr. Qed.
Lemma on_group_msg_kept from tx m : Ev kept (on_group_msg secret from tx m).
Proof. unfold on_group_msg. keepr. Qed.
Lemma after_state_applied_kept g : Ev kept (after_state_applied secret g).
Proof. unfold after_state_applied. keepr. Qed.
Lemma group_leave_kept g : Ev kept (group_leave secret g).
Proof. unfold group_leave. keepr. Qed.
Lemma purge_group_kept g : Ev kept (purge_group secret blobs_dir g).
Proof. unfold purge_group, delete_log. keepr. Qed.
#[local] Hint Resolve on_group_ack_kept on_group_sync_kept group_send_kept on_group_msg_kept
  after_state_applied_kept group_leave_kept purge_group_kept : eff.
Lemma group_delete_kept g : Ev kept (group_delete secret blobs_dir g).
Proof. unfold group_delete, delete_log. keepr. Qed.
Lemma remove_peer_kept node : Ev kept (remove_peer secret blobs_dir node).
Proof. unfold remove_peer, remove_dir_all. keepr. Qed.
Lemma finish_apply_kept g epoch sys removed mk : Ev kept (finish_apply secret blobs_dir g epoch sys removed mk).
Proof. unfold finish_apply. keepr. Qed.
Lemma on_group_file_kept from f tx : Ev kept (on_group_file secret blobs_dir from f tx).
Proof. unfold on_group_file, on_group_file_end. keepr. Qed.
Lemma group_send_file_kept g src name cap : Ev kept (group_send_file secret blobs_dir g src name cap).
Proof. unfold group_send_file. keepr. Qed.
#[local] Hint Resolve group_delete_kept remove_peer_kept finish_apply_kept on_group_file_kept group_send_file_kept : eff.

(** ** Operations that do *)

(** [st] is the edit of [old] that this device, its creator, signed. *)
Definition by_me (old st : GroupState) : Prop :=
  gs_creator old = me_str ∧ gs_gid st = gs_gid old ∧ gs_creator st = me_str ∧
  gs_epoch st = wadd64 (gs_epoch old) 1 ∧ check st = Ok tt.

(** The changes of the roster of [g] that [o] may make at [e]. *)
Inductive legit (e : P2p) (g : str) : Op → option GroupState → GroupState → Prop :=
  | legit_create name ids st :
      gs_creator st = me_str → gs_epoch st = 1%N → gs_name st = trim name → gs_closed st = false →
      check st = Ok tt → legit e g (OGroupCreate name ids) None st
  | legit_add node id m old st :
      by_me old st → node_parse node = Some id → invitee_member e id = Ok m → contains old id = false →
      gs_members st = gs_members old ++ [m] → gs_name st = gs_name old → gs_closed st = gs_closed old →
      legit e g (OGroupAdd g node) (Some old) st
  | legit_remove node id old st :
      by_me old st → node_parse node = Some id → node_str id ≠ me_str → contains old id = true →
      gs_members st = filter (λ m, gm_node_id m ≠ node_str id) (gs_members old) →
      gs_name st = gs_name old → gs_closed st = gs_closed old →
      legit e g (OGroupRemove g node) (Some old) st
  | legit_rename name old st :
      by_me old st → gs_name st = trim name → gs_members st = gs_members old → gs_closed st = gs_closed old →
      legit e g (OGroupRename g name) (Some old) st
  | legit_disband old st :
      by_me old st → gs_closed st = true → gs_members st = take 1 (gs_members old) → gs_name st = gs_name old →
      legit e g (OGroupDisband g) (Some old) st
  | legit_left from tx old st :
      by_me old st → contains old from = true → node_str from ≠ me_str →
      gs_members st = filter (λ m, gm_node_id m ≠ node_str from) (gs_members old) →
      gs_name st = gs_name old → gs_closed st = gs_closed old →
      legit e g (OFrame from (GroupLeave g) tx) (Some old) st
  | legit_accept from tx old st :
      contains old from = true → gs_creator st = gs_creator old → (gs_epoch old < gs_epoch st)%N →
      check st = Ok tt → gs_gid st = g → legit e g (OFrame from (FGroupState st) tx) (Some old) st
  | legit_join from tx st :
      node_str from = gs_creator st → kind_of e from = Some Paired → contains st me = true →
      gs_closed st = false → check st = Ok tt → gs_gid st = g →
      legit e g (OFrame from (FGroupState st) tx) None st.

Definition moved (T : str → option GroupState → GroupState → Prop) (e e' : P2p) : Prop :=
  ∀ g, roster_of e' g = roster_of e g ∨ roster_of e' g = None ∨
       ∃ st, roster_of e' g = Some st ∧ T g (roster_of e g) st.

Lemma kept_moved T e e' : kept e e' → moved T e e'.
Proof. intros H g. destruct (H g); auto. Qed.
Lemma moved_kept T e1 e2 e3 : moved T e1 e2 → kept e2 e3 → moved T e1 e3.
Proof. intros H12 H23 g. destruct (H23 g) as [E|E]; [rewrite E; apply H12|auto]. Qed.
Lemma moved_mono (T1 T2 : str → option GroupState → GroupState → Prop) e e' :
  (∀ g o st, o = roster_of e g → T1 g o st → T2 g o st) → moved T1 e e' → moved T2 e e'.
Proof. intros HT H g. destruct (H g) as [?|[?|(st & ? & ?)]]; eauto 6. Qed.
Lemma moved_then {A} T (m : M A) e e1 : moved T e e1 → Ev kept m → moved T e (m e1).2.
Proof. intros H Hm. eapply moved_kept; [exact H|apply Hm]. Qed.
Lemma moved_bind {A B} T (m : M A) (k : A → M B) e :
  moved T e (m e).2 → (∀ a, Ev kept (k a)) → moved T e ((m ≫= k) e).2.
Proof.
  intros Hm Hk. unfold mbind, M_bind. destruct (m e) as [[a|x] e1]; [|exact Hm]. by apply moved_then.
Qed.
Lemma moved_attempt {A} T (m : M A) e : moved T e (m e).2 → moved T e (attempt m e).2.
Proof. unfold attempt. by destruct (m e). Qed.
Lemma moved_refl T e : moved T e e.
Proof. by left. Qed.

(** A record written over what was there. *)
Lemma moved_groups (T : str → option GroupState → GroupState → Prop) e e1 g r :
  roster_of e1 g = Some (gr_state r) → (∀ g', g' ≠ g → roster_of e1 g' = roster_of e g') →
  T g (roster_of e g) (gr_state r) → moved T e e1.
Proof.
  intros Hg Ho HT g'. destruct (decide (g' = g)) as [->|]; [|by left; apply Ho]. right; right. eauto.
Qed.

(** What [edit_group_locked] may do. *)
Definition edited (gid : str) (edit : P2p → GroupState → result p2p_error GroupState) (e : P2p)
    (g : str) (o : option GroupState) (st : GroupState) : Prop :=
  g = gid ∧ ∃ old st0, o = Some old ∧ edit e old = Ok st0 ∧ gs_creator old = me_str ∧
    sign (with_epoch st0 (wadd64 (gs_epoch st0) 1)) secret = Ok st ∧ check st = Ok tt.

Lemma edit_moved gid left edit e :
  moved (edited gid edit e) e (edit_group_locked secret gid left edit e).2.
Proof.
  unfold edit_group_locked. run_gets. destruct (groups e !! gid) as [r|] eqn:Hr; [|apply moved_refl]. cbv zeta.
  run_guard; [|apply moved_refl]. run_guard; [|apply moved_refl]. run_lift; [|apply moved_refl].
  run_lift_group; [|apply moved_refl]. run_lift_group; [|apply moved_refl].
  match goal with u : () |- _ => destruct u end. run_modify.
  apply moved_then; [|keepr].
  eapply (moved_groups _ _ _ gid (on_gr_state (λ _, a0) r)).
  - unfold roster_of, groups in *. cbn. by rewrite lookup_alter_eq, Hr.
  - intros g' Hne. unfold roster_of, groups. cbn. by rewrite lookup_alter_ne.
  - split; [done|]. exists (gr_state r), a. unfold roster_of. rewrite Hr. split_and!; try done.
    by apply bool_decide_eq_true in Hg.
Qed.

Lemma signed_fields st k st' :
  sign st k = Ok st' → gs_gid st' = gs_gid st ∧ gs_creator st' = gs_creator st ∧ gs_epoch st' = gs_epoch st ∧
    gs_name st' = gs_name st ∧ gs_closed st' = gs_closed st ∧ gs_members st' = gs_members st.
Proof. by intros (sig & -> & _)%sign_ok_inv. Qed.

(** An edit that leaves the epoch, the group and its creator to
    [edit_group_locked]. *)
Lemma edited_by_me gid edit e g o st :
  (∀ old st0, edit e old = Ok st0 →
    gs_gid st0 = gs_gid old ∧ gs_creator st0 = gs_creator old ∧ gs_epoch st0 = gs_epoch old) →
  edited gid edit e g o st →
  ∃ old st0, g = gid ∧ o = Some old ∧ edit e old = Ok st0 ∧ by_me old st ∧
    gs_name st = gs_name st0 ∧ gs_closed st = gs_closed st0 ∧ gs_members st = gs_members st0.
Proof.
  intros Hedit (-> & old & st0 & -> & E & Hc & Hs & Hk). destruct (Hedit _ _ E) as (E1 & E2 & E3).
  apply signed_fields in Hs as (H1 & H2 & H3 & H4 & H5 & H6). cbn in *. exists old, st0.
  split_and!; try done. unfold by_me. split_and!; congruence.
Qed.

Lemma group_add_moved gid node e :
  moved (λ g, legit e g (OGroupAdd gid node)) e (group_add secret gid node e).2.
Proof.
  unfold group_add. run_lift; [|apply moved_refl]. apply ok_or_ok in Hr.
  eapply moved_mono; [|apply edit_moved].
  intros g o st _ (old & st0 & -> & -> & E & Hb & ? & ? & ?)%edited_by_me; cbv beta in *.
  - destruct (_ <=? _)%N; [done|]. destruct (contains old a) eqn:Hc; [done|].
    apply bind_ok in E as (m & Hm & E). apply bind_ok in E as ([] & _ & [= <-]).
    by eapply legit_add.
  - clear. intros old st0. destruct (_ <=? _)%N; [done|]. destruct (contains old a); [done|].
    intros (m & _ & E)%bind_ok. by apply bind_ok in E as ([] & _ & [= <-]).
Qed.

Lemma group_remove_moved gid node e :
  moved (λ g, legit e g (OGroupRemove gid node)) e (group_remove secret gid node e).2.
Proof.
  unfold group_remove. run_lift; [|apply moved_refl]. apply ok_or_ok in Hr.
  eapply moved_mono; [|apply edit_moved].
  intros g o st _ (old & st0 & -> & -> & E & Hb & ? & ? & ?)%edited_by_me; cbv beta in *.
  - case_bool_decide as Hn; [done|]. destruct (contains old a) eqn:Hc; [|done]. injection E as <-.
    eapply legit_remove; try done. destruct Hb as (<- & _). done.
  - clear. intros old st0. case_bool_decide; [done|]. destruct (contains old a); [|done]. by intros [= <-].
Qed.

Lemma group_rename_moved gid name e :
  moved (λ g, legit e g (OGroupRename gid name)) e (group_rename secret gid name e).2.
Proof.
  unfold group_rename. cbv zeta. run_lift_group; [|apply moved_refl].
  eapply moved_mono; [|apply edit_moved].
  intros g o st _ (old & st0 & -> & -> & [= <-] & Hb & ? & ? & ?)%edited_by_me; [by apply legit_rename|].
  by intros old st0 [= <-].
Qed.

Lemma group_disband_moved gid e :
  moved (λ g, legit e g (OGroupDisband gid)) e (group_disband secret gid e).2.
Proof.
  unfold group_disband. eapply moved_mono; [|apply edit_moved].
  intros g o st _ (old & st0 & -> & -> & [= <-] & Hb & ? & ? & ?)%edited_by_me; [by apply legit_disband|].
  by intros old st0 [= <-].
Qed.

Lemma group_create_moved name ids e :
  fresh_gid e → moved (λ g, legit e g (OGroupCreate name ids)) e (group_create secret name ids e).2.
Proof.
  intros Hfresh. unfold group_create. cbv zeta. run_lift_group; [|apply moved_refl].
  do 2 (run_guard; [|apply moved_refl]). run_gets. run_guard; [|apply moved_refl].
  do 2 (run_lift; [|apply moved_refl]). rewrite run_tick.
  assert (Ht : ∀ T, moved T e (on_e_tick N.succ e)) by (intros T; by apply kept_moved, same_kept).
  run_lift_group; [|apply Ht]. run_lift_group; [|apply Ht].
  match goal with |- context [GroupRec_new ?s] => rename s into st end.
  match goal with H : check st = Ok ?u |- _ => destruct u end. run_modify. apply moved_then; [|keepr].
  match goal with H : sign _ _ = Ok st |- _ => apply signed_fields in H as (H1 & H2 & H3 & H4 & H5 & H6) end.
  cbn in *.
  apply (moved_groups _ _ _ (env_new_gid (e_tick e)) (GroupRec_new st)).
  - unfold roster_of, groups. cbn. by rewrite lookup_insert_eq.
  - intros g' Hne. unfold roster_of, groups. cbn. by rewrite lookup_insert_ne.
  - unfold roster_of. rewrite Hfresh. by apply legit_create.
Qed.

Lemma on_group_leave_moved from gid tx e :
  moved (λ g, legit e g (OFrame from (GroupLeave gid) tx)) e (on_group_leave secret from gid e).2.
Proof.
  unfold on_group_leave. run_gets. destruct (groups e !! gid) as [r|] eqn:Hr; [|apply moved_refl].
  destruct (_ && _ && _ && _) eqn:Hb; [|apply moved_refl].
  rewrite !andb_true_iff, negb_true_iff, bool_decide_eq_true, negb_true_iff, bool_decide_eq_false in Hb.
  destruct Hb as (((Hc & _) & Hm) & Hn).
  apply moved_bind; [|intros []; keepr]. apply moved_attempt. eapply moved_mono; [|apply edit_moved].
  intros g o st Ho (old & st0 & -> & -> & [= <-] & Hby & ? & ? & ?)%edited_by_me; [|by intros old1 st1 [= <-]].
  unfold roster_of in Ho. rewrite Hr in Ho. injection Ho as ->. by eapply legit_left.
Qed.

Lemma apply_state_moved st from tx e :
  moved (λ g, legit e g (OFrame from (FGroupState st) tx)) e (apply_state secret blobs_dir st from e).2.
Proof.
  unfold apply_state. run_gets. cbv zeta. run_lift_group; [|apply moved_refl].
  unfold evaluate_incoming in Hr. apply bind_ok in Hr as ([] & Hc & Hv).
  destruct (groups e !! gs_gid st) as [r|] eqn:Hr.
  - case_bool_decide as Hcr; [done|]. destruct (N.leb_spec (gs_epoch st) (gs_epoch (gr_state r))); [injection Hv as <-; apply moved_refl|].
    injection Hv as <-. run_guard; [|apply moved_refl]. run_modify. run_gets. apply moved_then; [|keepr].
    eapply (moved_groups _ _ _ (gs_gid st)).
    + unfold roster_of, groups. cbn. by rewrite lookup_insert_eq.
    + intros g' Hne. unfold roster_of, groups. cbn. by rewrite lookup_insert_ne.
    + unfold roster_of. rewrite Hr. by apply legit_accept.
  - destruct (gs_closed st) eqn:Hcl; [done|]. destruct (contains st _) eqn:Hin; [|done]. injection Hv as <-.
    run_guard; [|apply moved_refl]. run_guard; [|apply moved_refl].
    apply andb_prop in Hg as [Hf Hk]. apply bool_decide_eq_true in Hf, Hk. run_modify. apply moved_then; [|keepr].
    eapply (moved_groups _ _ _ (gs_gid st)).
    + unfold roster_of, groups. cbn. by rewrite lookup_insert_eq.
    + intros g' Hne. unfold roster_of, groups. cbn. by rewrite lookup_insert_ne.
    + unfold roster_of. rewrite Hr. by apply legit_join.
Qed.

(** The same, from a given state. *)
Ltac keep_at := match goal with |- moved _ ?e (snd (?m ?e)) =>
  let Hm := fresh in enough (Ev kept m) as Hm by apply kept_moved, Hm; keepr end.

Lemma session_frame_moved from f tx e :
  moved (λ g, legit e g (OFrame from f tx)) e (session_frame secret blobs_dir from f tx e).2.
Proof.
  unfold session_frame. apply moved_bind; [|intros []; destruct f; keepr].
  unfold handle_frame. run_gets. destruct (_ && _); [apply moved_refl|].
  destruct (is_group_file f); [keep_at|]. destruct (is_group f); [|destruct f; keep_at].
  unfold handle_group_frame. run_gets. destruct (_ <? _)%N; [apply moved_refl|].
  destruct f; try solve [apply moved_refl|keep_at].
  - apply moved_bind; [apply moved_attempt, apply_state_moved|intros []; keepr].
  - apply on_group_leave_moved.
Qed.

Lemma run_moved o e :
  o ≠ OStart → fresh_gid e → moved (λ g, legit e g o) e (run secret blobs_dir o e).2.
Proof.
  intros Ho Hf.
  assert (Hig : ∀ A (m : M A) T, moved T e (m e).2 → moved T e (ignore m e).2).
  { intros A m T. unfold ignore, mbind, M_bind. by destruct (m e) as [[?|?] ?]. }
  destruct o; cbn [run]; try apply Hig; try done; try solve [keep_at].
  - apply session_frame_moved.
  - by apply group_create_moved.
  - apply group_add_moved.
  - apply group_remove_moved.
  - apply group_rename_moved.
  - apply group_disband_moved.
Qed.

(** The roster a restart would read: [groups.json] may hold an older one, when a
    save failed. *)
Definition roster_on_disk (e : P2p) (g : str) : option GroupState :=
  gr_state <$> (load_groups (dk_groups (e_disk e))).1 !! g.

Definition is_start (o : Op) : bool := match o with OStart => true | _ => false end.
Lemma is_start_spec o : reflect (o = OStart) (is_start o).
Proof. destruct o; by constructor. Qed.

Lemma start_roster e g : roster_of (start secret e).2 g = roster_on_disk e g.
Proof.
  unfold roster_of, roster_on_disk. rewrite (proj1 (start_groups secret e)), lookup_repair_all.
  by destruct (_ !! g).
Qed.

(** [C29]: Every operation leaves the roster of a group as it is, forgets the
    group, or makes one of the changes of [legit]: an edit of this device's user, who
    created the group; the departure of a member that asked its creator for it; a
    newer roster of the same creator, correctly signed, that a member brought; the
    first roster of a new group, brought by its creator, a paired contact.  A
    restart takes the roster [groups.json] holds. *)
Theorem roster_changes_legit o e g :
  fresh_gid e →
  let after := roster_of (run secret blobs_dir o e).2 g in
  if is_start o then after = roster_on_disk e g else
  after = roster_of e g ∨ after = None ∨ ∃ st, after = Some st ∧ legit e g o (roster_of e g) st.
Proof.
  intros Hf. cbv zeta. destruct (is_start_spec o) as [->|Ho]; [apply start_roster|]. by apply (run_moved o e).
Qed.

(** ** Over a run *)

(** The epochs of received rosters are [u64]s. *)
Definition op_typed (o : Op) : Prop :=
  match o with OFrame _ (FGroupState st) _ => (gs_epoch st < u64_bound)%N | _ => True end.

(** A run during which the device keeps the group, and is only restarted when
    [groups.json] holds the roster it has in memory. *)
Inductive held (g : str) : P2p → list Op → P2p → Prop :=
  | held_nil e : held g e [] e
  | held_cons e o os e2 :
      (o = OStart → roster_on_disk e g = roster_of e g) → op_typed o → fresh_gid e → roster_of (run secret blobs_dir o e).2 g ≠ None →
      held g (run secret blobs_dir o e).2 os e2 → held g e (o :: os) e2.

(** Newer, of the same creator. *)
Definition advances (old new : GroupState) : Prop :=
  gs_creator new = gs_creator old ∧ (gs_epoch new < u64_bound)%N ∧ (gs_epoch old < gs_epoch new)%N ∧ check new = Ok tt.

Lemma wadd64_next n : (n < u64_bound)%N → wadd64 n 1 ≠ 0%N → (n < wadd64 n 1 < u64_bound)%N.
Proof.
  intros Hn. unfold wadd64. destruct (decide (n + 1 < u64_bound)%N); [rewrite N.mod_small by done; lia|].
  by replace (n + 1)%N with u64_bound by lia.
Qed.

Lemma check_epoch st : check st = Ok tt → gs_epoch st ≠ 0%N.
Proof.
  unfold check, validate. intros ([] & Hv & _)%bind_ok.
  repeat match goal with H : (_ ≫= _) = Ok _ |- _ =>
    let H1 := fresh in let H2 := fresh in apply bind_ok in H as (? & H1 & H2);
    first [apply ensure_ok, negb_true_iff, N.eqb_neq in H1; done|idtac] end.
Qed.

Lemma by_me_advances old st : (gs_epoch old < u64_bound)%N → by_me old st → advances old st.
Proof.
  intros Ho (Hc & _ & Hc' & He & Hk). destruct (wadd64_next (gs_epoch old)) as [? ?]; [done| |].
  - rewrite <- He. by apply check_epoch.
  - unfold advances. rewrite He. split_and!; [congruence|done..].
Qed.

Lemma legit_advances e g o old st :
  op_typed o → (gs_epoch old < u64_bound)%N → legit e g o (Some old) st → advances old st.
Proof.
  intros Ht Ho Hl. inversion Hl; subst; try (by eapply by_me_advances).
  unfold advances. by split_and!.
Qed.

(** [C30]: While a device keeps a group, and is restarted only when its roster was
    saved, no sequence of operations and frames moves that roster backwards: the
    creator stays, the epoch does not decrease, and a roster of the same epoch is the
    same roster. *)
Theorem roster_never_rolls_back g e os e' old new :
  held g e os e' → roster_of e g = Some old → (gs_epoch old < u64_bound)%N → roster_of e' g = Some new →
  new = old ∨ (gs_creator new = gs_creator old ∧ (gs_epoch old < gs_epoch new)%N ∧ check new = Ok tt).
Proof.
  intros Hh. revert old. induction Hh as [e|e o os e2 Hne Hty Hf Hkeep _ IH]; intros old Ho Hb Hn.
  - left. congruence.
  - assert (Hm : roster_of (run secret blobs_dir o e).2 g = roster_of e g ∨
      roster_of (run secret blobs_dir o e).2 g = None ∨
      ∃ st, roster_of (run secret blobs_dir o e).2 g = Some st ∧ legit e g o (roster_of e g) st).
    { destruct (is_start_spec o) as [->|Ho']; [left|by apply (run_moved o e)].
      cbn [run]. rewrite start_roster. by apply Hne. }
    destruct Hm as [E|[E|(st & E & Hl)]]; [|done|].
    + apply IH; congruence.
    + rewrite Ho in Hl. apply legit_advances in Hl as (Hc & Hb' & Hlt & Hk); [|done..].
      destruct (IH st E Hb' Hn) as [->|(Hc' & Hlt' & Hk')]; right; split_and!; try done; [congruence|lia].
Qed.

End Membership.

(** ** On the concrete devices *)

Module Members.
Import ToyNet ToySerde Scene.

(** Alice's roster reaches Bob; Alice renames the group and writes to it. *)
Definition invitation : Op := OFrame alice_id (nth 1 (sent_on alice0 0) (GroupCaps 0)) 0.
Definition rename : Op := OGroupRename gid "hike".
Definition after_rename : P2p := (run (En := env 1) alice blobs rename alice1).2.

Lemma roster_changes_legit_witness :
  roster_of bob0 gid = None ∧
  ∃ st, roster_of (run (En := env 2) bob blobs invitation bob0).2 gid = Some st ∧
        legit bob bob0 gid invitation None st.
Proof.
  assert (Hn : roster_of bob0 gid = None) by (vm_compute; reflexivity). split; [exact Hn|].
  assert (Hs : is_Some (roster_of (run (En := env 2) bob blobs invitation bob0).2 gid))
    by (apply (bool_decide_unpack _); vm_compute; exact I).
  pose proof (roster_changes_legit (En := env 2) bob blobs invitation bob0 gid) as H. rewrite Hn in H.
  assert (H2 : fresh_gid (En := env 2) bob0) by (vm_compute; reflexivity).
  specialize (H H2). cbv zeta in H. change (is_start invitation) with false in H. revert H Hs. clear. generalize (roster_of (run (En := env 2) bob blobs invitation bob0).2 gid).
  intros o [->|[->|H]] [x Hx]; [discriminate Hx|discriminate Hx|exact H].
Defined.

Lemma roster_never_rolls_back_witness :
  ∃ old new, roster_of alice1 gid = Some old ∧ roster_of after_rename gid = Some new ∧
    (gs_epoch old, gs_epoch new) = (1, 2)%N ∧
    (new = old ∨ (gs_creator new = gs_creator old ∧ (gs_epoch old < gs_epoch new)%N ∧ check new = Ok tt)).
Proof.
  destruct (roster_of alice1 gid) as [old|] eqn:Ho; [|vm_compute in Ho; discriminate Ho].
  destruct (roster_of after_rename gid) as [new|] eqn:Hn; [|vm_compute in Hn; discriminate Hn].
  assert (Hold : gs_epoch <$> roster_of alice1 gid = Some 1%N) by (vm_compute; reflexivity).
  assert (Hnew : gs_epoch <$> roster_of after_rename gid = Some 2%N) by (vm_compute; reflexivity).
  assert (Hf : fresh_gid (En := env 1) alice1) by (vm_compute; reflexivity).
  rewrite Ho in Hold. rewrite Hn in Hnew. injection Hold as Hold. injection Hnew as Hnew.
  exists old, new. split; [reflexivity|]. split; [reflexivity|]. split; [by rewrite Hold, Hnew|].
  refine (roster_never_rolls_back (En := env 1) alice blobs gid alice1 [rename] after_rename old new _ Ho _ Hn).
  - apply held_cons; [discriminate|exact I|exact Hf| |].
    + change ((run (En := env 1) alice blobs rename alice1).2) with after_rename. rewrite Hn. intros E. discriminate E.
    + apply held_nil.
  - rewrite Hold. reflexivity.
Defined.

End Members.
