(* ===== verification/Pairing.v ===== *)
(** * Incoming connections ([handle_incoming])

    A connection goes through the stages of [handle_incoming] while the rest of
    the engine runs: between its awaits the invite may be replaced, the user may
    answer, the peer may be removed, the app may restart.  A device is paired
    only when it showed a token of an invite, when the user approved its request,
    or when the user asked to pair with it. *)

From S2P Require Import Prelude Str Net Groups Frames Engine Delivery Rosters GroupWire Chat Files Media Effects Footprint GroupInv Ops Scene Safety History.

(** What a connection opens with: a pairing hello, another frame, or neither. *)
Inductive First := FHello (token name : str) (addrs : list str) | FFrame (f : Frame) | FBad.

(** Where [handle_incoming] waits. *)
Inductive Stage :=
| Opened (kind : option PeerKind)
| Reading (kind : PeerKind)
| Asking (expected : str)
| Awaiting (request : N) (name : str) (addrs : list str)
| Welcoming
| Served (tx : N)
| Ended.

(** What it waits for; [ILost]: a timeout, or the connection failed. *)
Inductive Input := IStream | IFirst (first : First) | IAnswer | IWelcomed | ILost.

Record Conn := MkConn { c_node : node_id; c_proto : N; c_stage : Stage }.

(** What happened so far, for the statement: tokens of invites, tokens shown by
    devices, requests approved, devices the user asked to pair with. *)
Inductive Fact := Offered (token : str) | Presented (node : node_id) (token : str)
  | Approved (node : node_id) | Wanted (node : node_id).

Record Sys := MkSys { s_engine : P2p; s_conns : gmap N Conn; s_facts : list Fact }.

Inductive Label :=
| LOp (o : Op)
| LOpen (c : N) (node : node_id) (proto : N)
| LConn (c : N) (i : Input)
| LApprove (node : node_id) (accept : bool)
| LPair (node : node_id) (addrs : list socket_addr) (hint inviter : str) (proto : N)
| LRestart.

Section Pairing.
Context {P : Platform} {L : PlatformLaws} {SD : Serde} {En : Env} {CT : CharTable} {B64 : Base64}.
Context (secret : secret_key) (blobs_dir : str).

(** ** One connection *)

Definition admit_peer (node : node_id) (name : str) (addrs : list str) : M Stage :=
  _ ← add_peer node name (omap parse_addr addrs); mret Welcoming.

Definition hello (expected : str) (node : node_id) (token name : str) (addrs : list str) : M Stage :=
  wait ← incoming_hello expected node token name;
  match wait with
  | None => admit_peer node name addrs
  | Some request => mret (Awaiting request name addrs)
  end.

Definition handle_incoming (c : Conn) (i : Input) : M Stage :=
  let node := c_node c in
  match c_stage c, i with
  | Served tx, _ => mret (Served tx)
  | Ended, _ => mret Ended
  | _, ILost => fail EOffline
  | Opened None, IStream => e ← gets id; mret (Asking (in_token (e_inner e)))
  | Opened (Some k), IStream => mret (Reading k)
  | Reading Introduced, IFirst (FFrame Ping) =>
      tx ← serve_session secret true node (c_proto c); mret (Served tx)
  | Reading Introduced, IFirst (FHello token name addrs) =>
      e ← gets id; hello (in_token (e_inner e)) node token name addrs
  | Reading Paired, IFirst (FFrame f) =>
      _ ← guard_else (match f with Unknown => false | _ => true end) EBadHello;
      tx ← serve_session secret false node (c_proto c); mret (Served tx)
  | Asking expected, IFirst (FHello token name addrs) => hello expected node token name addrs
  | Reading _, IFirst _ | Asking _, IFirst _ => fail EBadHello
  | Awaiting request name addrs, IAnswer =>
      e ← gets id;
      match e_decisions e !! request with
      | Some true => admit_peer node name addrs
      | Some false => fail EDenied
      | None => mret (c_stage c)
      end
  | Welcoming, IWelcomed => tx ← pair_served secret node (c_proto c); mret (Served tx)
  | stage, _ => mret stage
  end.

Definition to_stage (stage : Stage) (c : Conn) : Conn := MkConn (c_node c) (c_proto c) stage.

(** ** The system *)

(** Operations that are not part of a pairing. *)
Definition plain (o : Op) : bool :=
  match o with OStart | OHello _ _ _ _ | OApprove _ _ | OPaired _ _ _ _ | OPair _ _ _ _ _ => false | _ => true end.

Definition is_valid (node : node_id) : bool := bool_decide (node_parse (node_str node) = Some node).

Definition presents (node : node_id) (i : Input) : list Fact :=
  match i with IFirst (FHello token _ _) => [Presented node token] | _ => [] end.

(** The next state, with a new token among the facts. *)
Definition moved (s : Sys) (e : P2p) (conns : gmap N Conn) (facts : list Fact) : Sys :=
  let new := if bool_decide (in_token (e_inner e) = in_token (e_inner (s_engine s))) then []
             else [Offered (in_token (e_inner e))] in
  MkSys e conns (s_facts s ++ facts ++ new).

Definition act (s : Sys) (l : Label) : option Sys :=
  let e := s_engine s in
  match l with
  | LOp o => if plain o then Some (moved s (run secret blobs_dir o e).2 (s_conns s) []) else None
  | LOpen c node proto =>
      if is_valid node && bool_decide (s_conns s !! c = None)
      then Some (moved s e (<[c := MkConn node proto (Opened (kind_of e node))]> (s_conns s)) [])
      else None
  | LConn c i =>
      conn ← s_conns s !! c;
      let '(r, e') := handle_incoming conn i e in
      let stage := match r with Ok stage => stage | Err _ => Ended end in
      Some (moved s e' (<[c := to_stage stage conn]> (s_conns s)) (presents (c_node conn) i))
  | LApprove node accept =>
      Some (moved s (approve_pair node accept e).2 (s_conns s) (if accept then [Approved node] else []))
  | LPair node addrs hint inviter proto =>
      if is_valid node
      then Some (moved s (pair_connect secret node addrs hint inviter proto e).2 (s_conns s) [Wanted node])
      else None
  | LRestart => Some (moved s (start secret e).2 ∅ [])
  end.

Definition boot : Sys :=
  let e := (start secret blank).2 in MkSys e ∅ [Offered (in_token (e_inner e))].

Inductive reachable : Sys → Prop :=
| reach_boot : reachable boot
| reach_act s l s' : reachable s → act s l = Some s' → reachable s'.

(** ** Proofs of a pairing *)

Definition shown (facts : list Fact) (n : node_id) : Prop :=
  ∃ old token new, facts = old ++ Presented n token :: new ∧ Offered token ∈ old.
Definition approved (facts : list Fact) (n : node_id) : Prop :=
  ∃ old new, facts = old ++ Approved n :: new ∧ Presented n [] ∈ old.
Definition proven (facts : list Fact) (n : node_id) : Prop :=
  shown facts n ∨ approved facts n ∨ Wanted n ∈ facts.

(** ** The engine's part *)

(** Every paired device, in memory or on disk, is in [C]. *)
Record clique (C : node_id → Prop) (e : P2p) : Prop := {
  cl_mem : ∀ n, kind_of e n = Some Paired → C n;
  cl_disk : Forall (λ pp, ∃ n, C n ∧ pp_node_id pp = node_str n) (dk_peers (e_disk e));
}.

(** No device of [A] aside, none is newly paired; no request, no answer. *)
Record admits (A : node_id → Prop) (e e' : P2p) : Prop := {
  ad_clique : ∀ C : node_id → Prop, (∀ n, A n → C n) → clique C e → clique C e';
  ad_tick : (e_tick e ≤ e_tick e')%N;
  ad_requests : ∀ n r, in_pair_requests (e_inner e') !! n = Some r → in_pair_requests (e_inner e) !! n = Some r;
  ad_decisions : ∀ r b, e_decisions e' !! r = Some b → e_decisions e !! r = Some b;
}.

#[export] Instance admits_preorder A : PreOrder (admits A).
Proof.
  split.
  - intros e. by split.
  - intros e1 e2 e3 [C1 T1 R1 D1] [C2 T2 R2 D2]. split; [auto|lia|auto..].
Qed.

Lemma admits_kinds A e e' :
  (∀ n, kind_of e' n = Some Paired → A n ∨ kind_of e n = Some Paired) →
  dk_peers (e_disk e') = dk_peers (e_disk e) → (e_tick e ≤ e_tick e')%N →
  in_pair_requests (e_inner e') = in_pair_requests (e_inner e) → e_decisions e' = e_decisions e → admits A e e'.
Proof.
  intros Hk Hd Ht Hr Hx. split; [|done|by rewrite Hr|by rewrite Hx]. intros C HA [Hm Hdisk]. split; [|by rewrite Hd].
  intros n [?|?]%Hk; auto.
Qed.
Lemma admits_other A e e' :
  peers e' = peers e → dk_peers (e_disk e') = dk_peers (e_disk e) → (e_tick e ≤ e_tick e')%N →
  in_pair_requests (e_inner e') = in_pair_requests (e_inner e) → e_decisions e' = e_decisions e → admits A e e'.
Proof. intros Hp. apply admits_kinds. unfold kind_of. rewrite Hp. auto. Qed.
Lemma admits_peers A f e :
  (∀ n p, f (peers e) !! n = Some p → p_kind p = Paired → A n ∨ kind_of e n = Some Paired) →
  admits A e (on_peers f e).
Proof.
  intros H. apply admits_kinds; try done. intros n (p & Hp & Hk)%fmap_Some. by eapply H.
Qed.

Lemma persist_admits A : Ev (admits A) persist_peers.
Proof.
  intros e. unfold persist_peers. rewrite run_tick. destruct (env_write_ok _); [|by apply admits_other; try done; cbn; lia].
  split; [|cbn; lia|done..]. intros C _ [Hm _]. split; [exact Hm|]. cbn [modify snd e_disk dk_peers on_e_disk on_dk_peers].
  apply Forall_fmap, Forall_forall. intros [n p] [Hk Hin]%list_elem_of_filter. exists n. split; [|done].
  apply Hm. apply elem_of_map_to_list in Hin. change (peers e !! n = Some p) in Hin. unfold kind_of. by rewrite Hin, <- Hk.
Qed.

Lemma kind_alter f n m e : (∀ p, p_kind (f p) = p_kind p) → kind_of (on_peers (alter f n) e) m = kind_of e m.
Proof.
  intros Hf. unfold kind_of. cbn. destruct (decide (n = m)) as [<-|].
  - rewrite lookup_alter_eq. unfold peers. destruct (_ !! n); [|done]. cbn. by rewrite Hf.
  - by rewrite lookup_alter_ne.
Qed.

#[export] Instance admits_foot A : Foot secret (admits A).
Proof.
  split; try solve [typeclasses eauto|intros; by apply admits_other].
  - intros e. apply admits_other; try done. cbn. lia.
  - apply persist_admits.
  - intros f n e Hf. apply admits_kinds; try done. intros m. rewrite kind_alter by by intros p; apply Hf. auto.
  - intros e. apply admits_peers. intros n p [Hp _]%map_lookup_filter_Some Hk.
    apply rebuild_chat in Hp as [(p0 & Hp0 & Hs & _)|[Hs _]]; [|by rewrite Hs in Hk].
    right. unfold kind_of. rewrite Hp0. cbn. by rewrite <- Hs, Hk.
Qed.
#[export] Instance admits_front A : FootFront (admits A).
Proof. split; intros; by apply admits_other. Qed.
#[export] Instance admits_chat A : FootChat (admits A).
Proof.
  split; [|intros; by apply admits_other..]. intros n p p' e Hp Hk. apply admits_peers. intros m q.
  rewrite lookup_insert_Some. intros [[<- <-]|[_ Hq]] Hkq; right; unfold kind_of; [rewrite Hp|rewrite Hq]; cbn; congruence.
Qed.
#[export] Instance admits_files A : FootFiles (admits A).
Proof. intros f e. by apply admits_other. Qed.
#[export] Instance admits_rx A : FootRx (admits A).
Proof. split; intros f e; by apply admits_other. Qed.
#[export] Instance admits_xfers A : FootXfers (admits A).
Proof. intros f e. by apply admits_other. Qed.
Ltac others := repeat first
  [ match goal with
    | |- Ev (admits _) (modify _) => apply ev_modify; intros ?; by apply admits_other
    | |- Ev (admits _) (emit _) => apply ev_modify; intros ?; by apply admits_other
    end | eff_step ].
#[export] Instance admits_drop A : FootDrop blobs_dir (admits A).
Proof.
  split.
  - intros pred. unfold drop_group_inbound, remove_file. others.
  - intros gid. unfold delete_group_blobs, drop_group_inbound, remove_file, remove_dir_all. others.
Qed.

Definition nobody : node_id → Prop := λ _, False.

#[local] Hint Extern 1 (Ev (admits _) _) => solve [eauto with foot] : eff.

Lemma remove_peer_admits A node : Ev (admits A) (remove_peer secret blobs_dir node).
Proof.
  pose proof (foot_sync secret (R := admits A)). unfold remove_peer. do 2 (apply ev_bind; [typeclasses eauto|eff|intros ?]).
  apply ev_bind; [typeclasses eauto| |intros _].
  { apply ev_modify. intros e. apply admits_peers. intros n p [_ Hp]%lookup_delete_Some Hk. right.
    unfold kind_of. by rewrite Hp, <- Hk. }
  apply ev_bind; [typeclasses eauto| |intros _].
  { apply ev_modify. intros e. split; [|cbn; lia| |done].
    - intros C _ [Hm Hd]. by split.
    - intros n r. cbn. by intros [_ ?]%lookup_delete_Some. }
  unfold remove_dir_all. others.
Qed.

Lemma handle_frame_admits A from f tx : Ev (admits A) (handle_frame secret blobs_dir from f tx).
Proof. unfold handle_frame. others. Qed.
#[local] Hint Resolve remove_peer_admits handle_frame_admits : eff.

Lemma plain_admits o : plain o = true → Ev (admits nobody) (run secret blobs_dir o).
Proof.
  intros Ho. destruct o; try discriminate Ho; cbn [run]; unfold ignore, maintain, session_frame; others.
Qed.

Lemma add_peer_admits (A : node_id → Prop) node name addrs : A node → Ev (admits A) (add_peer node name addrs).
Proof.
  intros HA. unfold add_peer. apply ev_bind; [typeclasses eauto| |intros _; apply persist_admits].
  apply ev_modify. intros e. apply admits_peers. intros n p. rewrite lookup_insert_Some.
  intros [[<- <-]|[_ Hn]] Hk; [by left|]. right. unfold kind_of. by rewrite Hn, <- Hk.
Qed.
#[local] Hint Resolve add_peer_admits : eff.

Lemma pair_connect_admits (A : node_id → Prop) node addrs h n proto :
  A node → Ev (admits A) (pair_connect secret node addrs h n proto).
Proof. intros HA. unfold pair_connect. others. Qed.

(** A restart knows the devices that were on disk. *)
Lemma load_peers_clique e (C : node_id → Prop) l : Forall (λ pp, ∃ n, C n ∧ pp_node_id pp = node_str n) l →
  (∀ n, C n → valid_node n) →
  ∀ ps : gmap node_id Peer, (∀ n p, ps !! n = Some p → C n) → ∀ n p, foldl (load_peer e) ps l !! n = Some p → C n.
Proof.
  intros Hl HC. induction Hl as [|pp l (m & Hm & Hpp) _ IH]; intros ps Hps; [exact Hps|]. cbn [foldl]. apply IH.
  intros n p. unfold load_peer. rewrite Hpp, (HC m Hm). cbn zeta. rewrite lookup_insert_Some.
  intros [[<- <-]|[_ ?]]; [done|by eapply Hps].
Qed.

Lemma start_clique (C : node_id → Prop) e : (∀ n, C n → valid_node n) → clique C e → clique C (start secret e).2.
Proof.
  intros HC [_ Hd]. unfold start. run_modify.
  assert (H1 : clique C (reload secret e)).
  { unfold reload. destruct (load_groups _) as [gs d]. split; [|exact Hd]. intros n (p & Hp & Hk)%fmap_Some.
    apply rebuild_chat in Hp as [(p0 & H0 & _)|[Hs _]]; [|by rewrite Hs in Hk].
    eapply load_peers_clique; [exact Hd|exact HC| |exact H0]. intros ? ?. by rewrite lookup_empty. }
  match goal with |- clique C (?m _).2 => assert (Hm : Ev (admits nobody) m) by others end.
  by apply (ad_clique _ _ _ (Hm _)).
Qed.
Lemma start_admits e : in_pair_requests (e_inner (start secret e).2) = ∅ ∧ e_decisions (start secret e).2 = ∅ ∧
  (e_tick e ≤ e_tick (start secret e).2)%N.
Proof.
  unfold start. run_modify.
  match goal with |- context [(?m (reload secret e)).2] => assert (Hm : Ev (admits nobody) m) by others end.
  assert (H0 : in_pair_requests (e_inner (reload secret e)) = ∅ ∧ e_decisions (reload secret e) = ∅ ∧
    e_tick (reload secret e) = e_tick e) by (unfold reload; by destruct (load_groups _)).
  destruct (Hm (reload secret e)) as [_ Ht Hr Hx], H0 as (H1 & H2 & H3). rewrite H1 in Hr. rewrite H2 in Hx.
  rewrite H3 in Ht. split_and!; [apply map_empty..|done]; intros n; apply eq_None_not_Some; intros [r Hn].
  - apply Hr in Hn. by rewrite lookup_empty in Hn.
  - apply Hx in Hn. by rewrite lookup_empty in Hn.
Qed.

(** ** The system's invariant *)

Definition stage_ok (e : P2p) (facts : list Fact) (c : Conn) : Prop :=
  match c_stage c with
  | Asking token => Offered token ∈ facts
  | Awaiting r _ _ => (r < e_tick e)%N ∧ (∀ n, in_pair_requests (e_inner e) !! n = Some r → n = c_node c) ∧
      (e_decisions e !! r = Some true → proven facts (c_node c))
  | _ => True
  end.
Definition conn_ok (e : P2p) (facts : list Fact) (c : Conn) : Prop := valid_node (c_node c) ∧ stage_ok e facts c.

Record sys_ok (e : P2p) (conns : gmap N Conn) (facts : list Fact) : Prop := {
  so_clique : clique (λ n, valid_node n ∧ proven facts n) e;
  so_requests : ∀ n r, in_pair_requests (e_inner e) !! n = Some r → (r < e_tick e)%N ∧ Presented n [] ∈ facts;
  so_decisions : ∀ r b, e_decisions e !! r = Some b → (r < e_tick e)%N;
  so_conns : map_Forall (λ _, conn_ok e facts) conns;
}.
Definition ok (s : Sys) : Prop :=
  sys_ok (s_engine s) (s_conns s) (s_facts s) ∧ Offered (in_token (e_inner (s_engine s))) ∈ s_facts s.

Lemma proven_grows facts more n : proven facts n → proven (facts ++ more) n.
Proof.
  intros [(o & t & w & -> & ?)|[(o & w & -> & ?)|?]].
  - left. exists o, t, (w ++ more). by rewrite <- app_assoc.
  - right; left. exists o, (w ++ more). by rewrite <- app_assoc.
  - right; right. set_solver.
Qed.
Lemma clique_grows (C C' : node_id → Prop) e : (∀ n, C n → C' n) → clique C e → clique C' e.
Proof.
  intros H [Hm Hd]. split; [auto|]. eapply Forall_impl; [exact Hd|]. intros pp (n & ? & ?). eauto.
Qed.
Lemma stage_grows e facts more e' c :
  (e_tick e ≤ e_tick e')%N →
  (∀ n r, (r < e_tick e)%N → in_pair_requests (e_inner e') !! n = Some r → in_pair_requests (e_inner e) !! n = Some r) →
  (∀ r, (r < e_tick e)%N → e_decisions e' !! r = Some true → e_decisions e !! r = Some true ∨
     ∃ n, in_pair_requests (e_inner e) !! n = Some r ∧ proven (facts ++ more) n) →
  stage_ok e facts c → stage_ok e' (facts ++ more) c.
Proof.
  intros Ht Hr Hd. unfold stage_ok. destruct (c_stage c) as [| | |r| | |]; try done; [set_solver|].
  intros (Hlt & Hown & Hyes). split_and!; [lia| |].
  - intros n Hn. by apply Hown, Hr.
  - intros [?|(n & Hn & Hp)]%Hd; [by apply proven_grows, Hyes| |done]. by rewrite <- (Hown n Hn).
Qed.

Lemma sys_grows e conns facts more : sys_ok e conns facts → sys_ok e conns (facts ++ more).
Proof.
  intros [Hc Hr Hd Hs]. split; [|set_solver|done|].
  - eapply clique_grows; [|exact Hc]. intros n []. split; [done|by apply proven_grows].
  - intros i c Hi. destruct (Hs i c Hi). split; [done|]. eapply stage_grows; [done|done| |done]. by left.
Qed.
Lemma moved_ok s e conns facts : ok s → sys_ok e conns (s_facts s ++ facts) → ok (moved s e conns facts).
Proof.
  intros [_ Ht] Hs. unfold moved, ok. cbn [s_engine s_conns s_facts]. rewrite app_assoc. split; [by apply sys_grows|].
  case_bool_decide as Heq; [rewrite Heq; set_solver|set_solver].
Qed.

(** A step of the engine that admits only devices with a proof. *)
Lemma sys_admits A e conns facts more e' :
  sys_ok e conns facts → admits A e e' → (∀ n, A n → valid_node n ∧ proven (facts ++ more) n) →
  sys_ok e' conns (facts ++ more).
Proof.
  intros [Hc Hr Hd Hs] [Ac At Ar Ad] HA. split.
  - apply Ac; [exact HA|]. eapply clique_grows; [|exact Hc]. intros n []. split; [done|by apply proven_grows].
  - intros n r Hn. apply Ar in Hn. destruct (Hr n r Hn). split; [lia|set_solver].
  - intros r b Hb. apply Ad, Hd in Hb. lia.
  - intros i c Hi. destruct (Hs i c Hi). split; [done|]. eapply stage_grows; [done| | |done]; eauto.
Qed.
Lemma sys_insert e conns facts i c : sys_ok e conns facts → conn_ok e facts c → sys_ok e (<[i := c]> conns) facts.
Proof. intros [Hc Hr Hd Hs] Hok. split; [done..|]. by apply map_Forall_insert_2. Qed.

(** A device waits for the user's answer. *)
Lemma asked_ok e conns facts node expected name : [] ≠ expected → sys_ok e conns facts → Presented node [] ∈ facts →
  ∃ r e', incoming_hello expected node [] name e = (Ok (Some r), e') ∧ sys_ok e' conns facts ∧
    (r < e_tick e')%N ∧ (∀ n, in_pair_requests (e_inner e') !! n = Some r → n = node) ∧ e_decisions e' !! r = None.
Proof.
  intros Hne Hok Hp. set (dec := match in_pair_requests (e_inner e) !! node with
    Some old => <[old := false]> (e_decisions e) | None => e_decisions e end).
  assert (Hrun : ∃ e', incoming_hello expected node [] name e = (Ok (Some (e_tick e)), e') ∧ e_tick e' = N.succ (e_tick e) ∧
    e_decisions e' = dec ∧ in_pair_requests (e_inner e') = <[node := e_tick e]> (in_pair_requests (e_inner e)) ∧
    peers e' = peers e ∧ dk_peers (e_disk e') = dk_peers (e_disk e)).
  { unfold incoming_hello. run_gets. rewrite bool_decide_false, bool_decide_true by done. cbn [negb]. rewrite run_tick.
    unfold dec. destruct (in_pair_requests (e_inner e) !! node); eexists; (split; [reflexivity|]); by split_and!. }
  destruct Hrun as (e' & Hrun & Ht & Hd & Hr & Hps & Hk). exists (e_tick e), e'. destruct Hok as [Oc Or Od Os].
  assert (Hdec : ∀ r b, dec !! r = Some b → (r < e_tick e)%N ∧ (b = true → e_decisions e !! r = Some true)).
  { intros r b. unfold dec. destruct (_ !! node) as [old|] eqn:Hold; [|intros Hb; split; [by eapply Od|by intros ->]].
    rewrite lookup_insert_Some. intros [[<- <-]|[_ Hb]]; (split; [|done || by intros ->]).
    - by apply (Or node).
    - by eapply Od. }
  split_and!; [done| |lia| |].
  - split.
    + destruct Oc as [Hm Hx]. split; [|by rewrite Hk]. unfold kind_of in *. by rewrite Hps.
    + intros n r. rewrite Hr, Ht, lookup_insert_Some. intros [[<- <-]|[_ Hn]]; [split; [lia|done]|].
      destruct (Or n r Hn). split; [lia|done].
    + intros r b. rewrite Hd, Ht. intros [? _]%Hdec. lia.
    + intros i c Hi. destruct (Os i c Hi) as [Hv Hs]. split; [done|]. rewrite <- (app_nil_r facts).
      apply (stage_grows e); [lia| | |exact Hs].
      * intros n r Hlt. rewrite Hr, lookup_insert_Some. intros [[_ <-]|[_ ?]]; [lia|done].
      * intros r _. rewrite Hd. intros [_ H]%Hdec. left. by apply H.
  - intros n. rewrite Hr, lookup_insert_Some. intros [[<- _]|[_ Hn]]; [done|]. apply Or in Hn as [? _]. lia.
  - apply eq_None_not_Some. intros [b Hb]. rewrite Hd in Hb. apply Hdec in Hb as [? _]. lia.
Qed.

(** What a step of a connection gives. *)
Definition handled (conns : gmap N Conn) (facts : list Fact) (c : Conn) (r : result p2p_error Stage * P2p) : Prop :=
  sys_ok r.2 conns facts ∧ match r.1 with Ok stage => conn_ok r.2 facts (to_stage stage c) | Err _ => True end.

Lemma handled_admits A conns facts c m e :
  sys_ok e conns facts → Ev (admits A) m → (∀ n, A n → valid_node n ∧ proven facts n) → valid_node (c_node c) →
  (∀ stage e', m e = (Ok stage, e') → match stage with Welcoming | Served _ | Ended => True | _ => False end) →
  handled conns facts c (m e).
Proof.
  intros Hok Hm HA Hv Hst. specialize (Hm e). split.
  - rewrite <- (app_nil_r facts). eapply sys_admits; [done|exact Hm|]. by rewrite app_nil_r.
  - destruct (m e) as [[stage|x] e']; [|done]. cbn. specialize (Hst _ _ eq_refl). split; [done|]. by destruct stage.
Qed.

Lemma admit_handled conns facts c name addrs e :
  sys_ok e conns facts → valid_node (c_node c) → proven facts (c_node c) →
  handled conns facts c (admit_peer (c_node c) name addrs e).
Proof.
  intros Hok Hv Hp. apply (handled_admits (λ n, n = c_node c)); try done.
  - unfold admit_peer. apply ev_bind; [typeclasses eauto|by apply add_peer_admits|intros _; eff].
  - by intros n ->.
  - unfold admit_peer, mbind, M_bind. intros stage e'. destruct (add_peer _ _ _ e) as [[]]; by intros [= <-].
Qed.

Lemma hello_handled conns facts c expected token name addrs e :
  sys_ok e conns facts → valid_node (c_node c) → Offered expected ∈ facts →
  handled conns (facts ++ [Presented (c_node c) token]) c (hello expected (c_node c) token name addrs e).
Proof.
  intros Hok Hv Ho. apply (sys_grows _ _ _ [Presented (c_node c) token]) in Hok. unfold hello.
  destruct (decide (token = expected)) as [->|Hne].
  - unfold incoming_hello at 1, mbind at 1, M_bind at 1. run_gets. rewrite bool_decide_true by done.
    apply admit_handled; [done..|]. left. exists facts, expected, []. done.
  - destruct (decide (token = [])) as [->|Hnil].
    + destruct (asked_ok e conns (facts ++ [Presented (c_node c) []]) (c_node c) expected name)
        as (r & e' & Hrun & Hok' & Hlt & Hown & Hnone); [done..|set_solver|].
      unfold mbind, M_bind. rewrite Hrun. split; [exact Hok'|]. split; [done|]. unfold stage_ok. cbn. rewrite Hnone. done.
    + unfold incoming_hello, mbind at 1, M_bind at 1. run_gets. by rewrite !bool_decide_false by done.
Qed.

Lemma serve_handled conns facts c (m : M N) e :
  sys_ok e conns facts → Ev (admits nobody) m → valid_node (c_node c) →
  handled conns facts c ((tx ← m; mret (Served tx)) e).
Proof.
  intros Hok Hm Hv. apply (handled_admits nobody); try done.
  - apply ev_bind; [typeclasses eauto|done|intros ?; eff].
  - unfold mbind, M_bind. intros stage e'. destruct (m e) as [[]]; by intros [= <-].
Qed.

Lemma stay_handled conns facts c stage e :
  sys_ok e conns facts → conn_ok e facts (to_stage stage c) → handled conns facts c (Ok stage, e).
Proof. by split. Qed.
Lemma fail_handled conns facts c x e : sys_ok e conns facts → handled conns facts c (Err x, e).
Proof. by split. Qed.

Lemma conn_handled conns facts c i e :
  sys_ok e conns facts → conn_ok e facts c → Offered (in_token (e_inner e)) ∈ facts →
  handled conns (facts ++ presents (c_node c) i) c (handle_incoming c i e).
Proof.
  intros Hok [Hv Hs] Ht. pose proof (sys_grows _ _ _ (presents (c_node c) i) Hok) as Hok'.
  pose proof (stage_grows e facts (presents (c_node c) i) e c ltac:(done) ltac:(done) ltac:(by left) Hs) as Hs'.
  assert (Hstay : conn_ok e (facts ++ presents (c_node c) i) (to_stage (c_stage c) c)) by by split; destruct c.
  pose proof (serve_session_ev secret (admits nobody)) as Hserve. pose proof (pair_served_ev secret (admits nobody)) as Hpair.
  unfold handle_incoming. destruct c as [node proto stage]. cbn [c_node c_proto c_stage] in *.
  destruct stage as [[k|]|k|expected|r name addrs| |tx|], i as [|[t nm al|f|]| | |];
    try destruct k; try (by apply stay_handled); try (by apply fail_handled).
  all: try (by apply (hello_handled conns facts (MkConn _ _ _))).
  - apply stay_handled; [done|]. split; [done|]. cbn. set_solver.
  - run_guard; [|by apply fail_handled]. by apply serve_handled.
  - destruct f; try (by apply fail_handled). by apply serve_handled.
  - run_gets. destruct (e_decisions e !! r) as [[]|] eqn:Hd; [|by apply fail_handled|by apply stay_handled].
    apply (admit_handled conns _ (MkConn node proto _)); [done..|]. apply proven_grows. by apply Hs.
  - by apply serve_handled.
Qed.

Lemma approve_ok e conns facts node accept : sys_ok e conns facts →
  sys_ok (approve_pair node accept e).2 conns (facts ++ if accept then [Approved node] else []).
Proof.
  intros Hok. pose proof (sys_grows _ _ _ (if accept then [Approved node] else []) Hok) as Hok'.
  unfold approve_pair. run_gets. destruct (in_pair_requests (e_inner e) !! node) as [r|] eqn:Hr; [|exact Hok'].
  run_modify. destruct Hok as [Oc Or Od Os], Hok' as [Oc' Or' Od' _]. destruct (Or _ _ Hr) as [Hlt Hp].
  cbn [modify snd]. split.
  - by destruct Oc'.
  - intros n r'. cbn. intros [_ Hn]%lookup_delete_Some. by apply Or'.
  - intros r' b. cbn. rewrite lookup_insert_Some. intros [[<- _]|[_ Hb]]; [done|by eapply Od].
  - intros i c Hi. destruct (Os i c Hi) as [Hv Hs]. split; [done|]. apply (stage_grows e); [done| | |exact Hs].
    + intros n r' _. cbn. by intros [_ ?]%lookup_delete_Some.
    + intros r' _. cbn. rewrite lookup_insert_Some. intros [[<- ->]|[_ ?]]; [|by left]. right. exists node.
      split; [done|]. right; left. by exists facts, [].
Qed.

Lemma start_ok e conns facts : sys_ok e conns facts → sys_ok (start secret e).2 ∅ facts.
Proof.
  intros [Oc Or Od Os]. destruct (start_admits e) as (Hr & Hd & Ht). split.
  - apply start_clique; [by intros n []|done].
  - intros n r. rewrite Hr. by rewrite lookup_empty.
  - intros r b. rewrite Hd. by rewrite lookup_empty.
  - apply map_Forall_empty.
Qed.

Lemma boot_ok : ok boot.
Proof.
  split; [|by apply list_elem_of_singleton]. apply (start_ok _ ∅). split.
  - split; [|constructor]. intros n. unfold kind_of. cbn. by rewrite lookup_empty.
  - intros n r. cbn. by rewrite lookup_empty.
  - intros r b. cbn. by rewrite lookup_empty.
  - apply map_Forall_empty.
Qed.

Lemma act_ok s l s' : ok s → act s l = Some s' → ok s'.
Proof.
  intros Hok Hact. pose proof Hok as [Hsys Ht]. unfold act in Hact. destruct l as [o|i node proto|i inp|node accept|node addrs h inv proto|].
  - destruct (plain o) eqn:Ho; [|done]. injection Hact as <-. apply moved_ok; [done|].
    eapply sys_admits; [done|by apply plain_admits|]. by intros n [].
  - destruct (_ && _) eqn:Hg; [|done]. injection Hact as <-. apply andb_true_iff in Hg as [Hv%bool_decide_eq_true _].
    apply moved_ok; [done|]. rewrite app_nil_r. by apply sys_insert.
  - destruct (s_conns s !! i) as [c|] eqn:Hi; [|done]. cbn [mbind option_bind] in Hact.
    pose proof (conn_handled (s_conns s) (s_facts s) c inp (s_engine s) Hsys (so_conns _ _ _ Hsys i c Hi) Ht) as [H1 H2].
    destruct (handle_incoming c inp (s_engine s)) as [r e']. injection Hact as <-. apply moved_ok; [done|].
    apply sys_insert; [exact H1|]. destruct r as [stage|x]; [exact H2|]. split; [|done].
    by apply (so_conns _ _ _ Hsys i c Hi).
  - injection Hact as <-. apply moved_ok; [done|]. by apply approve_ok.
  - destruct (is_valid node) eqn:Hv; [|done]. apply bool_decide_eq_true in Hv. injection Hact as <-. apply moved_ok; [done|].
    eapply (sys_admits (λ n, n = node)); [done|by apply pair_connect_admits|]. intros n ->. split; [exact Hv|].
    right; right. set_solver.
  - injection Hact as <-. apply moved_ok; [done|]. rewrite app_nil_r. by eapply start_ok.
Qed.

(** [C9]: However connections, answers of the user, replacements of the invite,
    failures, restarts and every other operation interleave, a device is paired
    only if it presented a token that had been offered in an invite before, or the
    user approved after it had asked, or the user asked to pair with it. *)
Theorem paired_with_proof s n :
  reachable s → kind_of (s_engine s) n = Some Paired → proven (s_facts s) n.
Proof.
  intros Hs Hn. assert (Hok : ok s).
  { clear Hn. induction Hs; [apply boot_ok|by eapply act_ok]. }
  by apply (cl_mem _ _ (so_clique _ _ _ (proj1 Hok))).
Qed.

Definition acts (s : Sys) (ls : list Label) : Sys := foldl (λ s l, default s (act s l)) s ls.
Lemma reachable_acts ls s : reachable s → reachable (acts s ls).
Proof.
  revert s. induction ls as [|l ls IH]; intros s Hs; [exact Hs|]. apply IH. cbn.
  destruct (act s l) as [s'|] eqn:Ha; [by eapply reach_act|done].
Qed.
End Pairing.


(** Bob scans Alice's invite; a stranger guesses a token. *)
Module Visit.
Import ToyNet ToySerde Scene.
Definition stranger : node_id := Net.public 9%N.
Definition open_door : Sys := boot (En := env 1) alice.
Definition token : str := in_token (e_inner (s_engine open_door)).
Definition visits : list Label :=
  [LOpen 0 stranger 2; LConn 0 IStream; LConn 0 (IFirst (FHello "guess" "Eve" []));
   LOpen 1 bob_id 2; LConn 1 IStream; LConn 1 (IFirst (FHello token "Bob" [])); LConn 1 IWelcomed].
Definition met : Sys := acts (En := env 1) alice blobs open_door visits.

Lemma met_reachable : reachable (En := env 1) alice blobs met.
Proof. apply reachable_acts, reach_boot. Qed.

Lemma met_outcome : c_stage <$> s_conns met !! 0%N = Some Ended ∧ c_stage <$> s_conns met !! 1%N = Some (Served 0).
Proof. split; vm_compute; reflexivity. Qed.
End Visit.

Import ToyNet.
Lemma paired_with_proof_witness :
  kind_of (s_engine Visit.met) Visit.stranger = None ∧
  kind_of (s_engine Visit.met) Scene.bob_id = Some Paired ∧ proven (s_facts Visit.met) Scene.bob_id.
Proof.
  assert (Hk : kind_of (s_engine Visit.met) Scene.bob_id = Some Paired) by (vm_compute; reflexivity).
  split; [vm_compute; reflexivity|]. split; [exact Hk|].
  exact (paired_with_proof (En := Scene.env 1) Scene.alice Scene.blobs Visit.met Scene.bob_id Visit.met_reachable Hk).
Defined.
