(* ===== verification/Redact.v ===== *)
(** * What the log leaves out ([log.rs], [redact])

    Before a line is written, [t=] values of links, the domains of mail addresses
    and the end of long quotations are taken out.  The code works on bytes; every
    byte it looks for is ASCII, so this model works on characters. *)

From S2P Require Import Prelude Str Ip.

Definition QUOTE_MAX : N := 80.
Definition ellipsis : N := 8230.
Definition quote : N := 34.

(** The longest prefix with [p], and the rest. *)
Fixpoint span (p : N → bool) (s : str) : str * str :=
  match s with
  | [] => ([], [])
  | c :: t => if p c then let '(a, b) := span p t in (c :: a, b) else ([], s)
  end.

(** ** Chat links *)

Definition starts_query (c : N) : bool := (c =? ch "?")%N || (c =? ch "&")%N.
Definition ends_value (c : N) : bool := (c =? ch "&")%N || (c =? ch "#")%N.

Fixpoint link_from (fuel : nat) (rest : str) : str :=
  match fuel with
  | 0 => []
  | S fuel =>
      match span (λ c, negb (starts_query c)) rest with
      | (head, []) => head
      | (head, c :: tail) =>
          head ++ c ::
          match strip_prefix "t=" tail with
          | Some value => lit "t=" ++ ellipsis :: link_from fuel (snd (span (λ c, negb (ends_value c)) value))
          | None => link_from fuel tail
          end
      end
  end.
Definition redact_chat_link (url : str) : str := link_from (S (length url)) url.

(** ** Mail addresses *)

Definition is_local (b : N) : bool := is_ascii_alphanumeric b || bool_decide (b ∈ lit "._%+-").
Definition is_domain (b : N) : bool := is_ascii_alphanumeric b || bool_decide (b ∈ lit ".-").

Definition emails_step (next : str → str) (s : str) : str :=
  match s with
  | [] => []
  | c :: t =>
      if is_local c then
        let '(local, rest) := span is_local s in
        match rest with
        | at_ :: rest' =>
            if (at_ =? ch "@")%N then
              let '(run, after) := span is_domain rest' in
              let domain := trim_end_char (ch ".") run in
              if bool_decide (domain = []) then local ++ at_ :: run ++ next after
              else local ++ at_ :: lit "***" ++ next (drop (length domain) rest')
            else local ++ next rest
        | [] => local
        end
      else c :: next t
  end.
Fixpoint emails_from (fuel : nat) (s : str) : str :=
  match fuel with 0 => [] | S fuel => emails_step (emails_from fuel) s end.
Definition redact_emails (s : str) : str := emails_from (S (length s)) s.

(** ** Quotations *)

(** The longest prefix of whole characters within [n] bytes. *)
Fixpoint take_bytes (n : N) (s : str) : str :=
  match s with
  | [] => []
  | c :: t =>
      let w := N.of_nat (length (utf8_char c)) in
      if (w <=? n)%N then c :: take_bytes (n - w) t else []
  end.

Definition shorten (body : str) : str :=
  if (QUOTE_MAX <? str_len body)%N then take_bytes QUOTE_MAX body ++ [ellipsis] else body.

Fixpoint quoted_from (fuel : nat) (rest : str) : str :=
  match fuel with
  | 0 => []
  | S fuel =>
      match split_once quote rest with
      | None => rest
      | Some (head, rest) =>
          head ++ quote ::
          match split_once quote rest with
          | Some (body, rest) => shorten body ++ quote :: quoted_from fuel rest
          | None => rest
          end
      end
  end.
Definition truncate_quoted (s : str) : str := quoted_from (S (length s)) s.

Definition redact (msg : str) : str := truncate_quoted (redact_emails (redact_chat_link msg)).

Example redact_test :
  redact (lit "from alice@example.org velta://chat?t=abcd&c=1") = lit "from alice@*** velta://chat?t=" ++ ellipsis :: lit "&c=1".
Proof. reflexivity. Qed.

(** ** Links, character by character *)

Fixpoint link (skip : bool) (s : str) : str :=
  match s with
  | [] => []
  | c :: t =>
      if skip && negb (ends_value c) then link true t
      else c ::
        if starts_query c then
          match t with
          | x :: y :: value =>
              if (ch "t" =? x)%N && (ch "=" =? y)%N then lit "t=" ++ ellipsis :: link true value else link false t
          | _ => link false t
          end
        else link false t
  end.

Lemma span_spec p s : ∀ a b, span p s = (a, b) →
  s = a ++ b ∧ Forall (λ c, p c = true) a ∧ match b with c :: _ => p c = false | [] => True end.
Proof.
  induction s as [|c t IH]; intros a b; cbn [span]; [by intros [= <- <-]|].
  destruct (p c) eqn:Hc; [|by intros [= <- <-]]. destruct (span p t) as [a' b']. intros [= <- <-].
  destruct (IH _ _ eq_refl) as (-> & ? & ?). split; [done|]. split; [by constructor|done].
Qed.
Lemma span_app p a b : Forall (λ c, p c = true) a → match b with c :: _ => p c = false | [] => True end →
  span p (a ++ b) = (a, b).
Proof.
  intros Ha Hb. induction Ha as [|c a Hc _ IH]; cbn.
  - destruct b as [|c b]; [done|]. cbn. by rewrite Hb.
  - by rewrite Hc, IH.
Qed.

Lemma strip_t tail : strip_prefix "t=" tail =
  match tail with x :: y :: value => if (ch "t" =? x)%N && (ch "=" =? y)%N then Some value else None | _ => None end.
Proof.
  change (lit "t=") with [ch "t"; ch "="]. destruct tail as [|x [|y tail]]; cbn [strip_prefix];
    [done|by destruct (_ =? x)%N|]. by destruct (_ =? x)%N, (_ =? y)%N.
Qed.

(** Text before the next delimiter. *)
Lemma link_plain h s : Forall (λ c, starts_query c = false) h → link false (h ++ s) = h ++ link false s.
Proof. intros H. induction H as [|c h Hc _ IH]; [done|]. cbn [app link andb]. by rewrite Hc, IH. Qed.
Lemma link_skipped h s : Forall (λ c, ends_value c = false) h → link true (h ++ s) = link true s.
Proof. intros H. induction H as [|c h Hc _ IH]; [done|]. cbn [app link andb]. by rewrite Hc. Qed.
Lemma link_resumes s : match s with c :: _ => ends_value c = true | [] => True end → link true s = link false s.
Proof. destruct s as [|c s]; [done|]. cbn. by intros ->. Qed.

Lemma link_from_eq n s : length s < n → link_from n s = link false s.
Proof.
  revert s. induction n as [|n IH]; intros s Hn; [lia|]. cbn [link_from].
  destruct (span _ s) as [h rest] eqn:Hs. apply span_spec in Hs as (-> & Hh & Hd). rewrite length_app in Hn.
  assert (Hq : Forall (λ c, starts_query c = false) h) by (eapply Forall_impl; [exact Hh|]; by intros c ->%negb_true_iff).
  rewrite link_plain by done. destruct rest as [|c tail]; [cbn; by rewrite app_nil_r|].
  apply negb_false_iff in Hd. f_equal. cbn [link andb]. rewrite Hd. f_equal. cbn [length] in Hn. rewrite strip_t.
  destruct tail as [|x [|y value]]; [by apply IH; cbn in *; lia..|].
  destruct (_ && _); [|apply IH; lia]. f_equal. f_equal.
  destruct (span _ value) as [v b] eqn:Hv. apply span_spec in Hv as (-> & Hv & Hb). cbn [snd length] in *.
  rewrite length_app in Hn. rewrite link_skipped, link_resumes, IH; [done|lia| |].
  - destruct b; [done|]. by apply negb_false_iff.
  - eapply Forall_impl; [exact Hv|]. by intros ? ?%negb_true_iff.
Qed.
Lemma redact_chat_link_eq s : redact_chat_link s = link false s.
Proof. apply link_from_eq. lia. Qed.

(** A text that does not complete a [t=] begun before it. *)
Definition apart (s : str) : Prop :=
  match s with
  | x :: y :: _ => (ch "t" =? x)%N && (ch "=" =? y)%N = false ∧ (ch "=" =? x)%N = false
  | [x] => (ch "=" =? x)%N = false
  | [] => True
  end.

(** What becomes of [a], and whether its end is inside a value. *)
Definition splits (skip : bool) (a out : str) (sk : bool) : Prop :=
  (sk = false → last out = last a) ∧ (a = [] → sk = skip) ∧ ∀ s, apart s → link skip (a ++ s) = out ++ link sk s.

Lemma last_cons_ne {A} (x : A) l : l ≠ [] → last (x :: l) = last l.
Proof. by destruct l. Qed.

Lemma splits_cons skip skip' c t mid out sk :
  splits skip' t out sk → (sk = false → t = [] → skip' = false → last (mid ++ []) = Some c) →
  (∀ s, apart s → link skip (c :: t ++ s) = mid ++ link skip' (t ++ s)) →
  splits skip (c :: t) (mid ++ out) sk.
Proof.
  intros (Hl & He & Hs) Hm Hc. split_and!; [|done|].
  - intros Hsk. specialize (Hl Hsk). destruct t as [|x t].
    + apply last_None in Hl as ->. rewrite (Hm Hsk eq_refl); [done|]. rewrite <- He; done.
    + rewrite last_cons_ne by done. rewrite last_app, Hl. by destruct (last (x :: t)) eqn:Hx; [|apply last_None in Hx].
  - intros s Hap. cbn [app]. rewrite Hc, Hs, app_assoc by done. done.
Qed.

Lemma link_split skip a : ∃ out sk, splits skip a out sk.
Proof.
  remember (length a) as n eqn:Hn. revert a Hn skip. induction (lt_wf n) as [n _ IH]. intros a -> skip.
  destruct a as [|c t]; [by exists [], skip|].
  destruct (skip && negb (ends_value c)) eqn:Hskip.
  { destruct (IH (length t) ltac:(cbn; lia) t eq_refl true) as (out & sk & H). exists ([] ++ out), sk.
    eapply splits_cons; [exact H|done|]. intros s _. cbn [link]. by rewrite Hskip. }
  destruct (IH (length t) ltac:(cbn; lia) t eq_refl false) as (out & sk & H).
  assert (Hnext : (∀ s, apart s → link skip (c :: t ++ s) = [c] ++ link false (t ++ s)) → ∃ out sk, splits skip (c :: t) out sk).
  { intros Hc. exists ([c] ++ out), sk. by eapply splits_cons. }
  destruct (starts_query c) eqn:Hq.
  2: { apply Hnext. intros s _. cbn [link]. by rewrite Hskip, Hq. }
  destruct t as [|x [|y t']].
  - apply Hnext. intros s Hap. cbn [link app]. rewrite Hskip, Hq. destruct s as [|x [|y s]]; [done..|].
    destruct Hap as [-> _]. done.
  - apply Hnext. intros s Hap. cbn [link app]. rewrite Hskip, Hq. destruct s as [|y s]; [done|].
    assert ((ch "=" =? y)%N = false) as -> by (destruct s; [done|apply Hap]). by rewrite andb_false_r.
  - destruct ((ch "t" =? x)%N && (ch "=" =? y)%N) eqn:Ht.
    + destruct (IH (length t') ltac:(cbn; lia) t' eq_refl true) as (out' & sk' & Hl & He & Hs).
      exists ((c :: lit "t=" ++ [ellipsis]) ++ out'), sk'. split_and!; [|done|].
      * intros Hsk. specialize (Hl Hsk). destruct t' as [|z t']; [by rewrite He in Hsk|].
        destruct (last (z :: t')) as [w|] eqn:Hx; [|by apply last_None in Hx].
        rewrite last_app, Hl. symmetry. exact Hx.
      * intros s Hap. cbn [link app]. rewrite Hskip, Hq, Ht, Hs by done. done.
    + apply Hnext. intros s _. cbn [link app]. by rewrite Hskip, Hq, Ht.
Qed.

(** The value of a token does not show. *)
Lemma link_hides a q v b : starts_query q = true → Forall (λ c, ends_value c = false) v →
  redact_chat_link (a ++ q :: lit "t=" ++ v ++ b) = redact_chat_link (a ++ q :: lit "t=" ++ b).
Proof.
  intros Hq Hv. rewrite !redact_chat_link_eq. destruct (link_split false a) as (out & sk & _ & _ & Hs).
  assert (Hqs : (ch "t" =? q)%N = false ∧ (ch "=" =? q)%N = false).
  { unfold starts_query in Hq. apply orb_true_iff in Hq as [Hq|Hq]; apply N.eqb_eq in Hq as ->; done. }
  assert (Hap : ∀ s, apart (q :: lit "t=" ++ s)) by (intros s; cbn [app]; destruct Hqs as [H1 H2]; split; [by rewrite H1|done]).
  rewrite !Hs by apply Hap. f_equal.
  assert (Hval : ∀ s, link sk (q :: lit "t=" ++ s) =
    if sk && negb (ends_value q) then link true s else q :: lit "t=" ++ ellipsis :: link true s).
  { intros s. cbn [link]. destruct (sk && _); [apply (link_skipped (lit "t=")); by repeat constructor|by rewrite Hq]. }
  rewrite !Hval, link_skipped by done. done.
Qed.

(** ** Addresses *)

Lemma emails_step_ext (f g : str → str) s : (∀ t, length t < length s → f t = g t) → emails_step f s = emails_step g s.
Proof.
  intros Hfg. unfold emails_step. destruct s as [|c t]; [done|].
  destruct (is_local c) eqn:Hc; [|f_equal; apply Hfg; cbn; lia].
  destruct (span is_local (c :: t)) as [l rest] eqn:Hs. pose proof (span_spec _ _ _ _ Hs) as (Heq & _ & Hr).
  assert (0 < length l) by (destruct l; [cbn in Heq; subst rest; cbn in Hr; congruence|cbn; lia]).
  rewrite Heq, length_app in Hfg. destruct rest as [|x rest]; [done|]. cbn [length] in Hfg.
  destruct (x =? ch "@")%N; [|f_equal; apply Hfg; cbn; lia].
  destruct (span is_domain rest) as [run after] eqn:Hd. pose proof (span_spec _ _ _ _ Hd) as (Heq' & _).
  assert (length rest = length run + length after) by (rewrite Heq'; apply length_app).
  case_bool_decide; (do 3 f_equal); apply Hfg; rewrite ?length_drop; cbn; lia.
Qed.
Lemma emails_fuel n : ∀ m s, length s < n → length s < m → emails_from n s = emails_from m s.
Proof.
  induction n as [|n IH]; intros [|m] s Hn Hm; try lia. cbn [emails_from]. apply emails_step_ext. intros t Ht.
  apply IH; lia.
Qed.
Lemma emails_eq s : redact_emails s = emails_step redact_emails s.
Proof.
  unfold redact_emails at 1. cbn [emails_from]. apply emails_step_ext. intros t Ht. apply emails_fuel; lia.
Qed.

(** A character that ends whatever was read before it. *)
Definition closes (c : N) : Prop := is_local c = false ∧ c ≠ ch "@".
Lemma domain_local c : is_local c = false → is_domain c = false.
Proof.
  unfold is_local, is_domain. intros [-> H]%orb_false_iff. cbn [orb]. apply bool_decide_eq_false in H.
  apply bool_decide_eq_false. intros Hc. apply H. revert Hc. unfold lit. cbn. set_solver.
Qed.

(** Text that ends so is redacted on its own. *)
Lemma span_last p a s c : last a = Some c → p c = false →
  ∃ l r, span p a = (l, r) ∧ span p (a ++ s) = (l, r ++ s) ∧ last r = Some c.
Proof.
  intros Hl Hc. destruct (span p a) as [l r] eqn:Hs. exists l, r. split; [done|].
  apply span_spec in Hs as (-> & Hp & Hr). destruct r as [|x r].
  - exfalso. rewrite app_nil_r in Hl. apply last_Some in Hl as [l' ->]. apply Forall_app in Hp as [_ Hp].
    inversion_clear Hp. congruence.
  - split; [|rewrite last_app in Hl; destruct (last (x :: r)) eqn:E; [done|by apply last_None in E]].
    rewrite <- app_assoc. by apply span_app.
Qed.

Lemma emails_app a s c : last a = Some c → closes c → redact_emails (a ++ s) = redact_emails a ++ redact_emails s.
Proof.
  intros Hl [Hc Hat]. remember (length a) as n eqn:Hn. revert a Hn Hl.
  induction (lt_wf n) as [n _ IH]. intros a -> Hl.
  assert (IH' : ∀ b, length b < length a → b = [] ∨ last b = Some c → redact_emails (b ++ s) = redact_emails b ++ redact_emails s).
  { intros b Hb [->|Hlb]; [done|]. by apply (IH (length b)). }
  rewrite (emails_eq (a ++ s)), (emails_eq a). destruct a as [|x a]; [done|]. cbn [app]. unfold emails_step.
  destruct (is_local x) eqn:Hx.
  2: { cbn [app]. f_equal. apply IH'; [cbn; lia|]. destruct a; [by left|by right]. }
  destruct (span_last is_local (x :: a) s c Hl Hc) as (l & r & Hs1 & Hs2 & Hlr). cbn [app] in Hs2. rewrite Hs1, Hs2.
  pose proof (span_spec _ _ _ _ Hs1) as (Heq & _ & Hr). rewrite Heq, length_app in IH'.
  assert (0 < length l) by (destruct l; [cbn in Heq; subst r; cbn in Hr; congruence|cbn; lia]).
  destruct r as [|y r]; [done|]. cbn [app]. destruct (N.eqb_spec y (ch "@")) as [->|_].
  2: { change (y :: r ++ s) with ((y :: r) ++ s). rewrite IH' by (try (by right); cbn; lia). by rewrite app_assoc. }
  assert (Hlr' : last r = Some c) by (destruct r; [by injection Hlr as <-|exact Hlr]).
  destruct (span_last is_domain r s c Hlr' (domain_local _ Hc)) as (d & t & Hd1 & Hd2 & Hlt). rewrite Hd1, Hd2.
  pose proof (span_spec _ _ _ _ Hd1) as (Hrt & _). cbn [length] in IH'. rewrite Hrt, length_app in IH'.
  case_bool_decide.
  - rewrite (IH' t) by (try (by right); lia). rewrite <- !app_assoc. cbn [app]. by rewrite <- !app_assoc.
  - set (k := length (trim_end_char (ch ".") d)).
    assert (Hk : k ≤ length d).
    { destruct (trim_end_char_spec (ch ".") d) as (m & Hm & _). rewrite Hm at 1. rewrite length_app. lia. }
    rewrite Hrt, <- app_assoc, !drop_app_le by lia. rewrite app_assoc.
    rewrite IH'; [|rewrite length_app, length_drop; lia|right; rewrite last_app, Hlt; done].
    rewrite <- !app_assoc. cbn [app]. by rewrite <- !app_assoc.
Qed.

Lemma emails_domain l d b : l ≠ [] → Forall (λ c, is_local c = true) l →
  d ≠ [] → Forall (λ c, is_domain c = true) d → last d ≠ Some (ch ".") →
  match b with c :: _ => is_domain c = false | [] => True end →
  redact_emails (l ++ ch "@" :: d ++ b) = l ++ ch "@" :: lit "***" ++ redact_emails b.
Proof.
  intros Hl0 Hl Hd0 Hd Hdot Hb. rewrite emails_eq. unfold emails_step.
  destruct l as [|c l]; [done|]. cbn [app]. pose proof (Forall_inv Hl) as Hc. cbn beta in Hc. rewrite Hc.
  change (c :: l ++ ch "@" :: d ++ b) with ((c :: l) ++ ch "@" :: d ++ b).
  rewrite (span_app is_local (c :: l) (ch "@" :: d ++ b)) by done. rewrite N.eqb_refl.
  rewrite (span_app is_domain d b) by done. cbv zeta. rewrite trim_end_char_id by done.
  rewrite bool_decide_false by done. by rewrite drop_app_length.
Qed.

(** ** The whole *)

(** A part that no link ends in. *)
Lemma link_inert sk s b : s ≠ [] → Forall (λ c, starts_query c = false ∧ ends_value c = false) s →
  link sk (s ++ b) = (if sk then [] else s) ++ link sk b.
Proof.
  intros _ Hs. destruct sk.
  - apply link_skipped. eapply Forall_impl; [exact Hs|]. by intros c [].
  - apply link_plain. eapply Forall_impl; [exact Hs|]. by intros c [].
Qed.

Lemma mail_char c : is_local c = true ∨ is_domain c = true ∨ c = ch "@" →
  starts_query c = false ∧ ends_value c = false ∧ (ch "=" =? c)%N = false.
Proof.
  intros H. unfold starts_query, ends_value. rewrite !orb_false_iff, !N.eqb_neq.
  split_and!; intros E; (rewrite E in H || rewrite <- E in H); destruct H as [H|[H|H]]; revert H; vm_compute; congruence.
Qed.

(** *** Quotations *)

(** [segs]: the text between the quotation marks; every second one is quoted,
    the last one is not closed. *)
Fixpoint shorten_odd (inside : bool) (segs : list str) : list str :=
  match segs with
  | [] => []
  | [x] => [x]
  | x :: segs => (if inside then shorten x else x) :: shorten_odd (negb inside) segs
  end.

Lemma take_bytes_prefix n s : ∃ t, s = take_bytes n s ++ t.
Proof.
  revert n. induction s as [|c s IH]; intros n; cbn [take_bytes]; [by exists []|].
  destruct (_ <=? n)%N; [|by exists (c :: s)]. destruct (IH (n - N.of_nat (length (utf8_char c)))%N) as [t Ht].
  exists t. cbn. by f_equal.
Qed.
Lemma take_bytes_len n s : (str_len (take_bytes n s) ≤ n)%N.
Proof.
  revert n. induction s as [|c s IH]; intros n; cbn [take_bytes]; [unfold str_len; cbn; lia|].
  destruct (N.leb_spec (N.of_nat (length (utf8_char c))) n) as [H|]; [|unfold str_len; cbn; lia].
  specialize (IH (n - N.of_nat (length (utf8_char c)))%N). revert IH.
  unfold str_len. change (as_bytes (c :: ?t)) with (utf8_char c ++ as_bytes t). rewrite length_app. lia.
Qed.
Lemma shorten_spec s : (str_len s ≤ QUOTE_MAX)%N ∧ shorten s = s ∨
  ∃ p t, s = p ++ t ∧ shorten s = p ++ [ellipsis] ∧ (str_len p ≤ QUOTE_MAX)%N.
Proof.
  unfold shorten. destruct (N.ltb_spec QUOTE_MAX (str_len s)); [right|by left].
  destruct (take_bytes_prefix QUOTE_MAX s) as [t Ht]. exists (take_bytes QUOTE_MAX s), t.
  split_and!; [done|done|apply take_bytes_len].
Qed.

Lemma shorten_odd_nil b l : shorten_odd b l = [] ↔ l = [].
Proof. destruct l as [|x [|y l]]; done. Qed.

(** [truncate_quoted] by its segments. *)
Lemma quoted_from_eq n s : length s < n → quoted_from n s = join_str [quote] (shorten_odd false (split quote s)).
Proof.
  revert s. induction n as [|n IH]; intros s Hn; [lia|]. cbn [quoted_from]. rewrite split_eq.
  destruct (split_once quote s) as [[h s']|] eqn:Hh; [|cbn; by rewrite app_nil_r].
  apply split_once_Some in Hh as [-> _]. rewrite length_app in Hn. cbn [length] in Hn.
  rewrite split_eq. destruct (split_once quote s') as [[body t]|] eqn:Hb; [|cbn; by rewrite app_nil_r].
  apply split_once_Some in Hb as [-> _]. rewrite length_app in Hn. cbn [length] in Hn.
  rewrite (IH t) by lia. destruct (split_some quote t) as (x & l & Hx). rewrite Hx.
  change (shorten_odd false (h :: body :: x :: l)) with (h :: shorten body :: shorten_odd false (x :: l)).
  rewrite (join_cons _ h), (join_cons _ (shorten body)) by (done || by intros Hn0%shorten_odd_nil). done.
Qed.
Lemma truncate_quoted_eq s : truncate_quoted s = join_str [quote] (shorten_odd false (split quote s)).
Proof. apply quoted_from_eq. lia. Qed.

Lemma shorten_odd_lookup b l i : shorten_odd b l !! i =
  (λ x, if xorb b (Nat.odd i) && bool_decide (S i < length l) then shorten x else x) <$> l !! i.
Proof.
  revert b i. induction l as [|x l IH]; intros b i; [done|]. destruct l as [|y l].
  - cbn [shorten_odd]. destruct i as [|i]; [cbn; by rewrite andb_false_r|done].
  - change (shorten_odd b (x :: y :: l)) with ((if b then shorten x else x) :: shorten_odd (negb b) (y :: l)).
    destruct i as [|i]; [cbn; by destruct b|]. cbn [lookup list_lookup]. rewrite IH.
    destruct ((y :: l) !! i); [|done]. cbn [fmap option_fmap option_map]. rewrite Nat.odd_succ, <- Nat.negb_odd.
    rewrite (bool_decide_ext (S (S i) < length (x :: y :: l)) (S i < length (y :: l))) by (cbn; lia).
    by destruct b, (Nat.odd i).
Qed.

(** No quotation in a line of the log is longer than 80 bytes and an
    ellipsis, whatever the message. *)
Theorem quotations_bounded msg i body :
  split quote (redact msg) !! i = Some body → Nat.odd i = true → S i < length (split quote (redact msg)) →
  (str_len body ≤ QUOTE_MAX + str_len [ellipsis])%N.
Proof.
  unfold redact. set (s := redact_emails _). rewrite truncate_quoted_eq. set (l := split quote s).
  assert (Hlen : ∀ b l, length (shorten_odd b l) = length l).
  { intros b l'. revert b. induction l' as [|x [|y l'] IH]; intros b; [done..|]. cbn [shorten_odd length]. f_equal. apply IH. }
  assert (Hl : Forall (λ x, quote ∉ x) l) by apply split_none.
  rewrite split_join.
  - rewrite shorten_odd_lookup, Hlen. intros (x & Hx & ->)%fmap_Some Hodd Hlt.
    rewrite Hodd, bool_decide_true by done. cbn [xorb andb].
    destruct (shorten_spec x) as [[? ->]|(p & t & _ & -> & ?)]; [lia|].
    unfold str_len in *. rewrite as_bytes_app, length_app. lia.
  - intros H%shorten_odd_nil. unfold l in H. by destruct (split_some quote s) as (? & ? & ?); congruence.
  - apply Forall_lookup. intros j y. rewrite shorten_odd_lookup. intros (x & Hx & ->)%fmap_Some.
    pose proof (proj1 (Forall_lookup _ _) Hl j x Hx) as Hq. cbn beta in Hq. destruct (_ && _); [|done].
    destruct (shorten_spec x) as [[? ->]|(p & t & -> & -> & ?)]; [done|]. unfold ellipsis, quote in *. set_solver.
Qed.
Lemma quotations_bounded_witness :
  let msg := lit "got " ++ quote :: replicate 100 120%N ++ [quote] in
  ∃ body, split quote (redact msg) !! 1 = Some body ∧ (str_len body ≤ 83)%N.
Proof.
  eexists. split; [vm_compute; reflexivity|].
  apply (quotations_bounded (lit "got " ++ quote :: replicate 100 120%N ++ [quote]) 1);
    [vm_compute; reflexivity|reflexivity|vm_compute; lia].
Defined.

(** [C19]: What [redact] leaves is the same for any other value of the token
    parameter of a link - [t=] after [?] or [&] - and for any other domain of a mail
    address that stands by itself: a local part, no address character or [@] before
    it, no domain character after it, a domain that does not end in a dot.  What
    shows elsewhere is [redact_leaves]. *)
Theorem redact_hides a b :
  (∀ q v1 v2, starts_query q = true →
     Forall (λ c, ends_value c = false) v1 → Forall (λ c, ends_value c = false) v2 →
     redact (a ++ q :: lit "t=" ++ v1 ++ b) = redact (a ++ q :: lit "t=" ++ v2 ++ b)) ∧
  (∀ l d1 d2, match last a with Some c => closes c | None => True end →
     match b with c :: _ => is_domain c = false | [] => True end →
     l ≠ [] → Forall (λ c, is_local c = true) l →
     Forall (λ d, d ≠ [] ∧ Forall (λ c, is_domain c = true) d ∧ last d ≠ Some (ch ".")) [d1; d2] →
     redact (a ++ l ++ ch "@" :: d1 ++ b) = redact (a ++ l ++ ch "@" :: d2 ++ b)).
Proof.
  split.
  - intros q v1 v2 Hq H1 H2. unfold redact. by rewrite !link_hides by done.
  - intros l d1 d2 Ha Hb Hl0 Hl Hds. unfold redact. f_equal. rewrite !redact_chat_link_eq.
    destruct (link_split false a) as (out & sk & Hlast & Hnil & Hsplit).
    assert (Hmail : ∀ d, d ∈ [d1; d2] →
      redact_emails (link false (a ++ l ++ ch "@" :: d ++ b)) =
      if sk then redact_emails (out ++ link true b)
      else redact_emails out ++ l ++ ch "@" :: lit "***" ++ redact_emails (link false b)).
    { intros d Hd. rewrite Forall_forall in Hds. destruct (Hds d Hd) as (Hd0 & Hdom & Hdot).
      assert (Hs : Forall (λ c, starts_query c = false ∧ ends_value c = false ∧ (ch "=" =? c)%N = false) (l ++ ch "@" :: d)).
      { apply Forall_app. split; [|constructor; [apply mail_char; auto|]].
        - eapply Forall_impl; [exact Hl|]. intros c Hc. apply mail_char. auto.
        - eapply Forall_impl; [exact Hdom|]. intros c Hc. apply mail_char. auto. }
      replace (l ++ ch "@" :: d ++ b) with ((l ++ ch "@" :: d) ++ b) by by rewrite <- app_assoc.
      rewrite Hsplit.
      2: { destruct l as [|x [|y l]]; [done|..]; cbn [app apart];
             inversion_clear Hs as [|?? Hx Hs']; inversion_clear Hs' as [|?? Hy Hs'']; destruct Hx as (_ & _ & Hx), Hy as (_ & _ & Hy);
             (split; [by rewrite Hy, andb_false_r|exact Hx]). }
      rewrite link_inert; [|by destruct l|eapply Forall_impl; [exact Hs|]; by intros c (? & ? & _)].
      destruct sk; [done|]. specialize (Hlast eq_refl).
      assert (Hbl : match link false b with c :: _ => is_domain c = false | [] => True end).
      { destruct b as [|c b]; [done|]. cbn. done. }
      assert (Hm : redact_emails ((l ++ ch "@" :: d) ++ link false b) = l ++ ch "@" :: lit "***" ++ redact_emails (link false b)).
      { rewrite <- app_assoc. by apply emails_domain. }
      destruct (last a) as [c|] eqn:Hla.
      - by rewrite (emails_app out _ c), Hm.
      - apply last_None in Hlast as ->. cbn [app]. by rewrite Hm. }
    by rewrite !Hmail by set_solver.
Qed.

Lemma redact_hides_witness :
  redact (lit "open velta://chat" ++ ch "?" :: lit "t=" ++ lit "abcd" ++ lit "&chat=2")
    = redact (lit "open velta://chat" ++ ch "?" :: lit "t=" ++ lit "0123" ++ lit "&chat=2") ∧
  redact (lit "from alice@" ++ lit "example.org" ++ lit " ok") = redact (lit "from alice@" ++ lit "b.net" ++ lit " ok").
Proof.
  split.
  - apply (proj1 (redact_hides (lit "open velta://chat") (lit "&chat=2"))); [reflexivity|repeat constructor..].
  - apply (proj2 (redact_hides (lit "from ") (lit " ok")) (lit "alice") (lit "example.org") (lit "b.net")).
    + split; [reflexivity|discriminate].
    + reflexivity.
    + discriminate.
    + repeat constructor.
    + repeat constructor; discriminate.
Defined.

(** What is not a host name by these rules stays: after an underscore, or in a
    second address. *)
Example redact_leaves : redact "a@b_c.org x@y@z.org" = lit "a@***_c.org x@***@z.org".
Proof. reflexivity. Qed.
