(* ===== verification/Logger.v ===== *)
(** * The log writer ([log.rs])

    Every thread may log; what they share are four atomics and a bounded channel
    to the writer thread.  A call is a sequence of steps, one per access to what
    is shared, and the steps of the threads interleave freely. *)

From Stdlib Require Import Sorted.
From S2P Require Import Prelude Str Ip Redact.

Definition CHANNEL_CAP : nat := N.to_nat 8192.
Definition RATE_PER_SEC : N := 50.
Definition TAIL_MAX : N := 524288.

(** ** One line *)

Definition is_boot (msg : str) : bool := starts_with "boot:" msg.

(** [&start[..5]]; [None] when byte 5 is inside a character: the slice panics. *)
Definition first_bytes (n : N) (s : str) : option str :=
  let p := take_bytes n s in if (str_len p =? n)%N then Some p else None.

Definition rate_exempt (msg : str) : option bool :=
  let start := trim_start msg in
  if is_boot start then Some true
  else if (5 <=? str_len start)%N
  then p ← first_bytes 5 start; Some (bool_decide (to_ascii_lowercase p = lit "error"))
  else Some false.

Definition text_of (msg : str) : str := if is_boot msg then msg else redact msg.

(** [{:03}] *)
Definition pad3 (n : N) : str := let s := show_N n in replicate (3 - length s) (ch "0") ++ s.

Definition line_of (secs millis : N) (msg : str) : str :=
  "[" ++ show_N secs ++ "." ++ pad3 millis ++ "] " ++ text_of msg ++ [10%N].

Definition with_drops (line : str) (dropped rate_dropped : N) : str :=
  if ((0 <? dropped) || (0 <? rate_dropped))%N
  then trim_end line ++ " dropped=" ++ show_N dropped ++ " rate_dropped=" ++ show_N rate_dropped ++ [10%N]
  else line.

(** The packed rate window. *)
Definition window_of (packed : N) : N := N.shiftr packed 32.
Definition count_of (packed : N) : N := N.land packed 4294967295.
Definition pack (window count : N) : N := N.lor (N.shiftl window 32 mod u64_bound) count.

(** [None]: over the limit. *)
Definition rate_next (packed now : N) : option N :=
  if negb (window_of packed =? now)%N then Some (pack now 1)
  else if (RATE_PER_SEC <=? count_of packed)%N then None
  else Some (pack (window_of packed) (count_of packed + 1)).

(** ** The shared state and the steps of a call *)

Record Log := MkLog {
  lg_enabled : bool; lg_rate : N; lg_drop : N; lg_rate_drop : N;
  lg_open : bool;              (* there is a sender *)
  lg_queue : list str;         (* the channel *)
}.

Inductive Pc :=
| PStart (msg : str)
| PRate (msg : str) (now : N)                    (* before RATE is loaded *)
| PCas (msg : str) (now packed : N)              (* before the exchange *)
| PCount                                         (* before RATE_DROP_COUNT is raised *)
| PLine (msg : str)                              (* before the sender is taken *)
| PDrops (line : str)                            (* before DROP_COUNT is loaded *)
| PRates (line : str) (dropped : N)              (* before RATE_DROP_COUNT is loaded *)
| PSend (line : str) (dropped rate_dropped : N)
| PFull                                          (* before DROP_COUNT is raised *)
| PClear (dropped rate_dropped : N)
| PClearRate (rate_dropped : N)
| PDone
| PPanicked.

(** What a step reads from outside: the clock, and whether a weak exchange
    fails for no reason. *)
Record Read := MkRead { rd_secs : N; rd_millis : N; rd_spurious : bool }.

Definition on_rate (v : N) (g : Log) := MkLog (lg_enabled g) v (lg_drop g) (lg_rate_drop g) (lg_open g) (lg_queue g).
Definition on_drop (v : N) (g : Log) := MkLog (lg_enabled g) (lg_rate g) v (lg_rate_drop g) (lg_open g) (lg_queue g).
Definition on_rate_drop (v : N) (g : Log) := MkLog (lg_enabled g) (lg_rate g) (lg_drop g) v (lg_open g) (lg_queue g).
Definition on_queue (q : list str) (g : Log) := MkLog (lg_enabled g) (lg_rate g) (lg_drop g) (lg_rate_drop g) (lg_open g) q.
Definition on_enabled (b : bool) (g : Log) := MkLog b (lg_rate g) (lg_drop g) (lg_rate_drop g) (lg_open g) (lg_queue g).
Definition on_open (b : bool) (g : Log) := MkLog (lg_enabled g) (lg_rate g) (lg_drop g) (lg_rate_drop g) b (lg_queue g).

(** [log], [allow_rate], [enqueue] *)
Definition log_step (g : Log) (pc : Pc) (rd : Read) : Log * Pc :=
  match pc with
  | PStart msg =>
      if negb (is_boot msg) && negb (lg_enabled g) then (g, PDone)
      else match rate_exempt msg with
           | None => (g, PPanicked)
           | Some true => (g, PLine msg)
           | Some false => (g, PRate msg (rd_secs rd))
           end
  | PRate msg now =>
      match rate_next (lg_rate g) now with None => (g, PCount) | Some _ => (g, PCas msg now (lg_rate g)) end
  | PCas msg now packed =>
      if (lg_rate g =? packed)%N && negb (rd_spurious rd)
      then (on_rate (default packed (rate_next packed now)) g, PLine msg)
      else (g, PRate msg now)
  | PCount => (on_rate_drop (wadd64 (lg_rate_drop g) 1) g, PDone)
  | PLine msg =>
      if lg_open g then (g, PDrops (line_of (rd_secs rd) (rd_millis rd) msg)) else (g, PDone)
  | PDrops line => (g, PRates line (lg_drop g))
  | PRates line dropped => (g, PSend line dropped (lg_rate_drop g))
  | PSend line dropped rate_dropped =>
      if (length (lg_queue g) <? CHANNEL_CAP)%nat
      then (on_queue (lg_queue g ++ [with_drops line dropped rate_dropped]) g, PClear dropped rate_dropped)
      else (g, PFull)
  | PFull => (on_drop (wadd64 (lg_drop g) 1) g, PDone)
  | PClear dropped rate_dropped =>
      (if (0 <? dropped)%N && (lg_drop g =? dropped)%N then on_drop 0 g else g, PClearRate rate_dropped)
  | PClearRate rate_dropped =>
      (if (0 <? rate_dropped)%N && (lg_rate_drop g =? rate_dropped)%N then on_rate_drop 0 g else g, PDone)
  | PDone | PPanicked => (g, pc)
  end.

(** ** The program *)

(** The threads, the lines in the file, and for the statements what has
    happened, in the terms of the channel and the rate and not of the counters of
    the code: the seconds of the lines that passed the rate limit, the lines put
    on the channel with the counts they carry, how many found the channel full or
    were over the rate, how many were logged while logging was off or before there
    was a writer, and how many the disk refused. *)
Record World := MkWorld {
  w_log : Log; w_calls : gmap N Pc; w_file : list str;
  w_passed : list N; w_sent : list (str * N * N); w_lost : N; w_rate_lost : N;
  w_off : N; w_refused : N;
}.

Inductive Event :=
| ECall (id : N) (msg : str)            (* a thread calls [log] *)
| EStep (id : N) (rd : Read)
| EWrite (ok : bool)                    (* the writer thread takes a line *)
| EEnable (b : bool)
| EOpen.                                (* [ensure_log_writer] *)

(** What a step means: a fact about the state before it. *)
Inductive Meaning := Passed (now : N) | Given (x : str * N * N) | Full | Over | Off | Nothing.
Definition meaning (g : Log) (pc : Pc) (rd : Read) : Meaning :=
  match pc with
  | PStart msg => if negb (is_boot msg) && negb (lg_enabled g) then Off else Nothing
  | PRate _ now => match rate_next (lg_rate g) now with None => Over | Some _ => Nothing end
  | PCas _ now packed => if (lg_rate g =? packed)%N && negb (rd_spurious rd) then Passed now else Nothing
  | PLine _ => if lg_open g then Nothing else Off
  | PSend line d r => if (length (lg_queue g) <? CHANNEL_CAP)%nat then Given (line, d, r) else Full
  | _ => Nothing
  end.
Definition record (g : Log) (pc : Pc) (rd : Read) (w : World) : World :=
  let '(MkWorld g' calls file passed sent lost rate_lost off refused) := w in
  match meaning g pc rd with
  | Passed now => MkWorld g' calls file (passed ++ [now]) sent lost rate_lost off refused
  | Given x => MkWorld g' calls file passed (sent ++ [x]) lost rate_lost off refused
  | Full => MkWorld g' calls file passed sent (lost + 1) rate_lost off refused
  | Over => MkWorld g' calls file passed sent lost (rate_lost + 1) off refused
  | Off => MkWorld g' calls file passed sent lost rate_lost (off + 1) refused
  | Nothing => w
  end.

Definition put (g : Log) (calls : gmap N Pc) (file : list str) (w : World) : World :=
  MkWorld g calls file (w_passed w) (w_sent w) (w_lost w) (w_rate_lost w) (w_off w) (w_refused w).
Definition refuse (w : World) : World :=
  MkWorld (w_log w) (w_calls w) (w_file w) (w_passed w) (w_sent w) (w_lost w) (w_rate_lost w) (w_off w) (w_refused w + 1).

Definition happen (w : World) (e : Event) : option World :=
  let g := w_log w in
  match e with
  | ECall id msg =>
      if bool_decide (w_calls w !! id = None) then Some (put g (<[id := PStart msg]> (w_calls w)) (w_file w) w) else None
  | EStep id rd =>
      pc ← w_calls w !! id;
      let '(g', pc') := log_step g pc rd in
      Some (record g pc rd (put g' (<[id := pc']> (w_calls w)) (w_file w) w))
  | EWrite ok =>
      match lg_queue g with
      | [] => None
      | line :: q => Some (if ok then put (on_queue q g) (w_calls w) (w_file w ++ [line]) w
                         else refuse (put (on_queue q g) (w_calls w) (w_file w) w))
      end
  | EEnable b => Some (put (on_enabled b g) (w_calls w) (w_file w) w)
  | EOpen => Some (put (on_open true g) (w_calls w) (w_file w) w)
  end.

Definition fresh_log : World := MkWorld (MkLog false 0 0 0 false []) ∅ [] [] [] 0 0 0 0.

Inductive logged : World → Prop :=
| logged_start : logged fresh_log
| logged_step w e w' : logged w → happen w e = Some w' → logged w'.

(** ** Reading the end of the file *)

Fixpoint skip_cont (l : bytes) : bytes :=
  match l with b :: t => if (N.land b 192 =? 128)%N then skip_cont t else l | [] => [] end.
(** After the first newline, when there is one. *)
Definition after_newline (l : bytes) : bytes := match split_once 10 l with Some (_, r) => r | None => l end.

(** [read_tail]; [None]: no file. *)
Definition read_tail (file : option bytes) : str :=
  match file with
  | None => []
  | Some content =>
      let start := sat_sub (N.of_nat (length content)) TAIL_MAX in
      let buf := drop (N.to_nat start) content in
      from_utf8_lossy (if (0 <? start)%N then after_newline (skip_cont buf) else buf)
  end.

(** ** The packed window *)

Lemma window_pack w c : (w < u32_bound)%N → (c < u32_bound)%N → window_of (pack w c) = w.
Proof.
  intros Hw Hc. unfold window_of, pack. rewrite N.mod_small by (rewrite N.shiftl_mul_pow2; change (2 ^ 32)%N with u32_bound; lia).
  rewrite N.shiftr_lor, N.shiftr_shiftl_l, N.sub_diag, N.shiftl_0_r by done.
  by rewrite (N.shiftr_div_pow2 c), N.div_small, N.lor_0_r.
Qed.
Lemma count_pack w c : (w < u32_bound)%N → (c < u32_bound)%N → count_of (pack w c) = c.
Proof.
  intros Hw Hc. unfold count_of, pack. rewrite N.mod_small by (rewrite N.shiftl_mul_pow2; change (2 ^ 32)%N with u32_bound; lia).
  rewrite N.land_lor_distr_l. change 4294967295%N with (N.ones 32). rewrite !N.land_ones, N.shiftl_mul_pow2.
  by rewrite N.Div0.mod_mul, N.mod_small.
Qed.

(** At most [n] equal seconds [v] at the end of [l]. *)
Definition run_end (v : N) (l : list N) (n : N) : Prop := ∀ l1 k, l = l1 ++ replicate k v → (N.of_nat k ≤ n)%N.
Definition runs_ok (l : list N) : Prop := ∀ v l1 k l2, l = l1 ++ replicate k v ++ l2 → (N.of_nat k ≤ RATE_PER_SEC)%N.

Lemma run_end_snoc v l x n : run_end v l n → run_end v (l ++ [x]) (n + 1).
Proof.
  intros H l1 [|k]; [lia|]. rewrite replicate_S_end, app_assoc. intros [Hl _]%app_inj_tail. apply H in Hl. lia.
Qed.
Lemma run_end_new v l x : last l ≠ Some v → run_end v (l ++ [x]) 1.
Proof.
  intros H l1 [|[|k]]; [lia|lia|]. rewrite replicate_S_end, app_assoc. intros [Hl _]%app_inj_tail.
  exfalso. apply H. by rewrite Hl, replicate_S_end, app_assoc, last_snoc.
Qed.
Lemma runs_snoc l x n : runs_ok l → run_end x (l ++ [x]) n → (n ≤ RATE_PER_SEC)%N → runs_ok (l ++ [x]).
Proof.
  intros Hl Hx Hn v l1 k l2 Heq. destruct l2 as [|y l2 _] using rev_ind.
  - rewrite app_nil_r in Heq. destruct k as [|k]; [lia|].
    assert (v = x) as ->.
    { rewrite replicate_S_end, app_assoc in Heq. by apply app_inj_tail in Heq as [_ ->]. }
    apply Hx in Heq. lia.
  - rewrite !app_assoc in Heq. apply app_inj_tail in Heq as [-> _]. apply (Hl v l1 k l2). by rewrite app_assoc.
Qed.

Record rate_ok (rate : N) (passed : list N) : Prop := {
  ro_window : last passed = Some (window_of rate) ∨ passed = [];
  ro_count : run_end (window_of rate) passed (count_of rate);
  ro_limit : (count_of rate ≤ RATE_PER_SEC)%N;
  ro_runs : runs_ok passed;
}.

Lemma rate_next_ok rate passed now rate' :
  rate_ok rate passed → rate_next rate now = Some rate' → (now < u32_bound)%N → rate_ok rate' (passed ++ [now]).
Proof.
  intros [Hw Hc Hl Hr] Hn Hnow. unfold rate_next in Hn. unfold RATE_PER_SEC in *.
  destruct (N.eqb_spec (window_of rate) now) as [Heq|Hne]; cbn [negb] in Hn.
  - destruct (N.leb_spec 50 (count_of rate)) as [|Hlt]; [done|]. injection Hn as <-. rewrite Heq in *.
    pose proof (run_end_snoc _ _ now _ Hc) as Hend.
    split; rewrite ?window_pack, ?count_pack by lia; [by left; rewrite last_snoc|done|unfold RATE_PER_SEC; lia|].
    eapply runs_snoc; [done|exact Hend|unfold RATE_PER_SEC; lia].
  - injection Hn as <-. assert (Hend : run_end now (passed ++ [now]) 1).
    { apply run_end_new. destruct Hw as [->| ->]; [congruence|done]. }
    split; rewrite ?window_pack, ?count_pack by lia; [by left; rewrite last_snoc|done|unfold RATE_PER_SEC; lia|].
    eapply runs_snoc; [done|exact Hend|unfold RATE_PER_SEC; lia].
Qed.

(** ** The invariant *)

(** What a call still owes after its line was sent. *)
Definition debt (pc : Pc) : N := match pc with PClear d _ => d | _ => 0 end.
Definition rate_debt (pc : Pc) : N := match pc with PClear _ r | PClearRate r => r | _ => 0 end.
(** A loss between the decision and the counter. *)
Definition at_full (pc : Pc) : N := match pc with PFull => 1 | _ => 0 end.
Definition at_count (pc : Pc) : N := match pc with PCount => 1 | _ => 0 end.
(** The line of the call is done with. *)
Definition settled (pc : Pc) : N :=
  match pc with PCount | PFull | PClear _ _ | PClearRate _ | PDone => 1 | _ => 0 end.
Definition owed (f : Pc → N) (calls : gmap N Pc) : N := map_fold (λ _ pc a, (f pc + a)%N) 0%N calls.
Definition told (sent : list (str * N * N)) : N := foldr (λ '(_, d, _) a, (d + a)%N) 0%N sent.
Definition rate_told (sent : list (str * N * N)) : N := foldr (λ '(_, _, r) a, (r + a)%N) 0%N sent.

Lemma owed_insert f calls id pc pc' : calls !! id = Some pc →
  (owed f (<[id := pc']> calls) + f pc = owed f calls + f pc')%N.
Proof.
  intros Hid. assert (Hd : ∀ q, owed f (<[id := q]> (delete id calls)) = (f q + owed f (delete id calls))%N).
  { intros q. apply (map_fold_insert_L (λ _ pc a, (f pc + a)%N)); [intros; lia|apply lookup_delete_eq]. }
  rewrite <- (insert_delete_eq calls). rewrite Hd. replace calls with (<[id := pc]> (delete id calls)) at 2.
  - rewrite Hd. lia.
  - rewrite insert_delete_eq. by apply insert_id.
Qed.
Lemma owed_new f calls id pc : calls !! id = None → owed f (<[id := pc]> calls) = (f pc + owed f calls)%N.
Proof. intros Hid. apply (map_fold_insert_L (λ _ pc a, (f pc + a)%N)); [intros; lia|done]. Qed.
Lemma told_snoc sent l d r : told (sent ++ [(l, d, r)]) = (told sent + d)%N.
Proof. unfold told. induction sent as [|[[? ?] ?] sent IH]; cbn [app foldr]; [lia|]. rewrite IH. lia. Qed.
Lemma rate_told_snoc sent l d r : rate_told (sent ++ [(l, d, r)]) = (rate_told sent + r)%N.
Proof. unfold rate_told. induction sent as [|[[? ?] ?] sent IH]; cbn [app foldr]; [lia|]. rewrite IH. lia. Qed.

Definition stamped (line : str) : Prop := ∃ secs millis msg, line = line_of secs millis msg.
Definition pc_ok (pc : Pc) : Prop :=
  match pc with
  | PCas _ now packed => is_Some (rate_next packed now)
  | PDrops line | PRates line _ | PSend line _ _ => stamped line
  | _ => True
  end.
Definition text_sent (x : str * N * N) : str := let '(line, d, r) := x in with_drops line d r.

Record log_ok (w : World) : Prop := {
  lo_rate : Forall (λ s, (s < u32_bound)%N) (w_passed w) → rate_ok (lg_rate (w_log w)) (w_passed w);
  lo_drop : (w_lost w < u64_bound)%N →
    (w_lost w + owed debt (w_calls w) ≤ told (w_sent w) + lg_drop (w_log w) + owed at_full (w_calls w))%N;
  lo_drop_le : (lg_drop (w_log w) + owed at_full (w_calls w) ≤ w_lost w)%N;
  lo_rate_drop : (w_rate_lost w < u64_bound)%N →
    (w_rate_lost w + owed rate_debt (w_calls w)
     ≤ rate_told (w_sent w) + lg_rate_drop (w_log w) + owed at_count (w_calls w))%N;
  lo_rate_le : (lg_rate_drop (w_log w) + owed at_count (w_calls w) ≤ w_rate_lost w)%N;
  lo_settled : owed settled (w_calls w) =
    (N.of_nat (length (w_sent w)) + w_lost w + w_rate_lost w + w_off w)%N;
  lo_calls : map_Forall (λ _, pc_ok) (w_calls w);
  lo_sent : Forall (λ '(line, _, _), stamped line) (w_sent w);
  lo_room : length (lg_queue (w_log w)) ≤ CHANNEL_CAP;
  lo_order : ∃ taken, text_sent <$> w_sent w = taken ++ lg_queue (w_log w) ∧ sublist (w_file w) taken ∧
    N.of_nat (length taken) = (N.of_nat (length (w_file w)) + w_refused w)%N;
}.

Lemma wadd64_le x y : (wadd64 x y ≤ x + y)%N.
Proof. by apply N.Div0.mod_le. Qed.

#[local] Arguments told : simpl never.
#[local] Arguments rate_told : simpl never.
#[local] Arguments owed : simpl never.
#[local] Arguments Nat.ltb : simpl never.
#[local] Arguments CHANNEL_CAP : simpl never.

Lemma fresh_ok : log_ok fresh_log.
Proof.
  split; try done.
  - intros _. split; [by right| |done|].
    + intros l1 k H. destruct k; [done|]. destruct l1; done.
    + intros v l1 k l2 H. destruct k; [done|]. destruct l1; done.
  - cbn. lia.
  - exists []. done.
Qed.

(** The step of a call [id] from [pc] to [pc'], which is one loss or one line
    given to the channel less or more. *)
Definition stepped (w : World) (id : N) (pc' : Pc) (g : Log) : World := put g (<[id := pc']> (w_calls w)) (w_file w) w.

(** What is left to show of a step that puts nothing on the channel and passes no rate. *)
Lemma counted_ok w id pc pc' g lost rate_lost off :
  log_ok w → w_calls w !! id = Some pc → lg_rate g = lg_rate (w_log w) → lg_queue g = lg_queue (w_log w) → pc_ok pc' →
  (w_lost w ≤ lost)%N → (w_rate_lost w ≤ rate_lost)%N →
  ((lost < u64_bound) →
   lost + lg_drop (w_log w) + debt pc' + at_full pc ≤ w_lost w + lg_drop g + debt pc + at_full pc')%N →
  (lg_drop g + at_full pc' + w_lost w ≤ lg_drop (w_log w) + at_full pc + lost)%N →
  ((rate_lost < u64_bound) →
   rate_lost + lg_rate_drop (w_log w) + rate_debt pc' + at_count pc ≤ w_rate_lost w + lg_rate_drop g + rate_debt pc + at_count pc')%N →
  (lg_rate_drop g + at_count pc' + w_rate_lost w ≤ lg_rate_drop (w_log w) + at_count pc + rate_lost)%N →
  (settled pc' + w_lost w + w_rate_lost w + w_off w = settled pc + lost + rate_lost + off)%N →
  log_ok (MkWorld g (<[id := pc']> (w_calls w)) (w_file w) (w_passed w) (w_sent w) lost rate_lost off (w_refused w)).
Proof.
  intros [H1 H2 H2' H3 H3' Hs H4 H5 H6 H7] Hid Hr Hq Hpc Hl Hrl Hd Hd' Hrd Hrd' Hset.
  pose proof (owed_insert debt _ _ pc pc' Hid) as O1. pose proof (owed_insert rate_debt _ _ pc pc' Hid) as O2.
  pose proof (owed_insert at_full _ _ pc pc' Hid) as O3. pose proof (owed_insert at_count _ _ pc pc' Hid) as O4.
  pose proof (owed_insert settled _ _ pc pc' Hid) as O5.
  split; cbn; rewrite ?Hr, ?Hq; try done; try lia.
  by apply map_Forall_insert_2.
Qed.
#[local] Ltac counted := cbn; eapply counted_ok; (done || (cbn; lia)).

Lemma step_ok w id pc rd : log_ok w → w_calls w !! id = Some pc →
  let '(g', pc') := log_step (w_log w) pc rd in log_ok (record (w_log w) pc rd (stepped w id pc' g')).
Proof.
  intros Hok Hid. pose proof (lo_calls _ Hok id pc Hid) as Hpc. cbn beta in Hpc.
  destruct pc as [msg|msg now|msg now packed| |msg|line|line d|line d r| |d r|r| |]; cbn [log_step]; unfold record; cbn.
  - destruct (_ && _); [counted|]. destruct (rate_exempt msg) as [[]|]; counted.
  - destruct (rate_next _ now) eqn:Hn; [|counted]. eapply counted_ok; try done; try (cbn; lia). cbn. by rewrite Hn.
  - destruct (N.eqb_spec (lg_rate (w_log w)) packed) as [<-|]; cbn [andb]; [|counted].
    destruct (negb _); [|counted]. destruct Hpc as [rate' Hrate].
    pose proof (counted_ok w id _ (PLine msg) (w_log w) (w_lost w) (w_rate_lost w) (w_off w) Hok Hid eq_refl eq_refl I)
      as [H1 H2 H2' H3 H3' Hs H4 H5 H6 H7]; try (cbn; lia).
    split; try done. cbn. rewrite Hrate. cbn. intros [Hp Hnow]%Forall_app. apply Forall_inv in Hnow.
    by eapply rate_next_ok; [apply H1|exact Hrate|].
  - pose proof (wadd64_le (lg_rate_drop (w_log w)) 1). pose proof (lo_rate_le _ Hok) as Hle.
    pose proof (owed_insert at_count _ _ _ PDone Hid) as O. cbn in O.
    eapply counted_ok; try done; cbn; try lia. intros Hb. rewrite wadd64_small by lia. lia.
  - destruct (lg_open _); [|counted]. eapply counted_ok; try done; try (cbn; lia). by eexists _, _, _.
  - counted.
  - counted.
  - destruct (Nat.ltb (length (lg_queue (w_log w))) CHANNEL_CAP) eqn:Hroom; [apply Nat.ltb_lt in Hroom|counted].
    destruct Hok as [H1 H2 H2' H3 H3' Hs H4 H5 H6 (taken & Ht & Hf & Hlen)].
    pose proof (owed_insert debt _ _ _ (PClear d r) Hid) as O1. pose proof (owed_insert rate_debt _ _ _ (PClear d r) Hid) as O2.
    pose proof (owed_insert at_full _ _ _ (PClear d r) Hid) as O3. pose proof (owed_insert at_count _ _ _ (PClear d r) Hid) as O4.
    pose proof (owed_insert settled _ _ _ (PClear d r) Hid) as O5.
    split; cbn in *; try done; try lia.
    + intros Hb. rewrite told_snoc. apply H2 in Hb. lia.
    + intros Hb. rewrite rate_told_snoc. apply H3 in Hb. lia.
    + rewrite length_app. cbn. lia.
    + by apply map_Forall_insert_2.
    + apply Forall_app. split; [done|]. by constructor.
    + rewrite length_app. cbn. lia.
    + exists taken. split; [|done]. by rewrite fmap_app, Ht, <- app_assoc.
  - pose proof (wadd64_le (lg_drop (w_log w)) 1). pose proof (lo_drop_le _ Hok) as Hle.
    pose proof (owed_insert at_full _ _ _ PDone Hid) as O. cbn in O.
    eapply counted_ok; try done; cbn; try lia. intros Hb. rewrite wadd64_small by lia. lia.
  - destruct (N.ltb_spec 0 d); cbn [andb]; [|counted]. destruct (N.eqb_spec (lg_drop (w_log w)) d); counted.
  - destruct (N.ltb_spec 0 r); cbn [andb]; [|counted]. destruct (N.eqb_spec (lg_rate_drop (w_log w)) r); counted.
  - counted.
  - counted.
Qed.

Lemma happen_ok w e w' : log_ok w → happen w e = Some w' → log_ok w'.
Proof.
  intros Hok. unfold happen. destruct e as [id msg|id rd|ok|b|].
  - case_bool_decide as Hid; [|done]. intros [= <-]. destruct Hok as [H1 H2 H2' H3 H3' Hs H4 H5 H6 H7].
    split; cbn; rewrite ?owed_new by done; try done. by apply map_Forall_insert_2.
  - destruct (w_calls w !! id) as [pc|] eqn:Hid; [|done]. cbn [mbind option_bind]. pose proof (step_ok w id pc rd Hok Hid) as Hs.
    destruct (log_step _ _ _) as [g' pc']. by intros [= <-].
  - destruct (lg_queue (w_log w)) as [|line q] eqn:Hq; [done|]. intros [= <-].
    destruct Hok as [H1 H2 H2' H3 H3' Hs H4 H5 H6 (taken & Ht & Hf & Hlen)]. rewrite Hq in *.
    destruct ok; split; cbn in *; try done; try lia; exists (taken ++ [line]); rewrite <- app_assoc, !length_app; cbn.
    + split_and!; [done|by apply sublist_app|lia].
    + split_and!; [done|by apply sublist_inserts_r|lia].
  - intros [= <-]. by destruct Hok.
  - intros [= <-]. by destruct Hok.
Qed.
Lemma logged_ok w : logged w → log_ok w.
Proof. induction 1; [apply fresh_ok|by eapply happen_ok]. Qed.

(** ** Theorems *)

Lemma sorted_split v l : StronglySorted N.le l →
  l = filter (λ x, x < v)%N l ++ filter (λ x, x = v) l ++ filter (λ x, v < x)%N l.
Proof.
  intros Hs. induction Hs as [|x l Hl IH Hx]; [done|]. rewrite !filter_cons. rewrite Forall_forall in Hx.
  destruct (N.lt_total x v) as [H|[->|H]].
  - rewrite (decide_True (P := (x < v)%N)), (decide_False (P := x = v)), (decide_False (P := (v < x)%N)) by lia.
    cbn. by f_equal.
  - rewrite (decide_True (P := v = v)), !(decide_False (P := (v < v)%N)) by lia.
    assert (Hn : filter (λ x, x < v)%N l = []) by (apply filter_none, Forall_forall; intros y Hy; specialize (Hx y Hy); lia).
    rewrite Hn in *. cbn. by f_equal.
  - rewrite (decide_True (P := (v < x)%N)), (decide_False (P := x = v)), (decide_False (P := (x < v)%N)) by lia.
    assert (Hn : filter (λ x, x < v)%N l = []) by (apply filter_none, Forall_forall; intros y Hy; specialize (Hx y Hy); lia).
    assert (Hm : filter (λ x, x = v) l = []) by (apply filter_none, Forall_forall; intros y Hy; specialize (Hx y Hy); lia).
    rewrite Hn, Hm in *. cbn. by f_equal.
Qed.

(** The bytes of whole lines. *)
Definition file_of (ls : list str) : bytes := as_bytes (ls ≫= λ l, l ++ [10%N]).
Lemma file_of_cons l ls : file_of (l :: ls) = as_bytes l ++ 10%N :: file_of ls.
Proof. unfold file_of. rewrite bind_cons, !as_bytes_app, <- app_assoc. done. Qed.

Lemma utf8_high c : (128 ≤ c)%N → Forall (λ b, 128 ≤ b)%N (utf8_char c).
Proof.
  intros Hc. unfold utf8_char. destruct (N.ltb_spec c 128); [lia|].
  repeat case_match; repeat constructor; (etrans; [|apply N.le_add_r]); done.
Qed.
Lemma no_newline l : 10%N ∉ l → 10%N ∉ as_bytes l.
Proof.
  intros Hl (c & Hc & Hin)%list_elem_of_bind. apply Hl. destruct (N.lt_ge_cases c 128) as [Hlt|Hge].
  - unfold utf8_char in Hc. apply N.ltb_lt in Hlt as Hlt'. rewrite Hlt' in Hc. by apply list_elem_of_singleton in Hc as ->.
  - pose proof (utf8_high c Hge) as H. rewrite Forall_forall in H. specialize (H _ Hc). lia.
Qed.
Lemma skip_keeps p t : 10%N ∉ p → ∃ p', skip_cont (p ++ 10%N :: t) = p' ++ 10%N :: t ∧ 10%N ∉ p'.
Proof.
  induction p as [|b p IH]; intros Hp; cbn [skip_cont app]; [by exists []|].
  destruct (_ =? 128)%N; [apply IH; set_solver|by exists (b :: p)].
Qed.
Lemma after_newline_app p t : 10%N ∉ p → after_newline (p ++ 10%N :: t) = t.
Proof. intros Hp. unfold after_newline. by rewrite (proj2 (split_once_Some 10 _ p t)). Qed.

Lemma tail_cut ls : Forall (λ l, 10%N ∉ l) ls → ∀ s, s < length (file_of ls) →
  ∃ j, after_newline (skip_cont (drop s (file_of ls))) = file_of (drop (S j) ls) ∧
    length (file_of (drop (S j) ls)) < length (file_of ls) - s ≤ length (file_of (drop j ls)).
Proof.
  intros Hls. induction Hls as [|l ls Hl _ IH]; intros s Hs; [cbn in Hs; lia|].
  rewrite file_of_cons in *. rewrite length_app in *. cbn [length] in *.
  destruct (decide (s ≤ length (as_bytes l))) as [Hle|Hgt].
  - exists 0. cbn [drop]. rewrite file_of_cons, length_app, drop_app_le by done. cbn [length].
    assert (Hn : 10%N ∉ drop s (as_bytes l)).
    { intros Hin. apply (no_newline l Hl). rewrite <- (take_drop s (as_bytes l)). set_solver. }
    destruct (skip_keeps _ (file_of ls) Hn) as (p' & -> & Hp'). rewrite after_newline_app, !drop_0 by done. split; [done|lia].
  - destruct (IH (s - S (length (as_bytes l)))) as (j & Hj & Hlen); [lia|]. exists (S j). cbn [drop].
    rewrite drop_app_ge by lia. destruct (s - length (as_bytes l)) as [|m] eqn:Hm; [lia|]. cbn [drop].
    replace m with (s - S (length (as_bytes l))) by lia. rewrite Hj. split; [done|].
    replace (drop j ls) with (drop (S j) (l :: ls)) in Hlen by done. cbn [drop] in *. lia.
Qed.

(** The end of the log that is shown is made of whole lines: the last ones
    that take less than 512 KiB together, or all when the file is no longer than
    that. *)
Theorem tail_whole_lines ls :
  Forall (λ l, wf_str l ∧ 10%N ∉ l) ls →
  ∃ k, read_tail (Some (file_of ls)) = (drop k ls ≫= λ l, l ++ [10%N]) ∧
    ((N.of_nat (length (file_of ls)) ≤ TAIL_MAX)%N → k = 0) ∧
    ((TAIL_MAX < N.of_nat (length (file_of ls)))%N → ∃ j, k = S j ∧
       (N.of_nat (length (file_of (drop k ls))) < TAIL_MAX ≤ N.of_nat (length (file_of (drop j ls))))%N).
Proof.
  intros Hls. assert (Hwf : ∀ k, from_utf8_lossy (file_of (drop k ls)) = (drop k ls ≫= λ l, l ++ [10%N])).
  { intros k. apply from_utf8_lossy_bytes. apply Forall_bind. eapply Forall_impl; [by apply Forall_drop|].
    intros l [Hl _]. apply Forall_app. split; [done|]. repeat constructor. }
  unfold read_tail, sat_sub. destruct (N.ltb_spec 0 (N.of_nat (length (file_of ls)) - TAIL_MAX)) as [Hlt|Hle].
  - destruct (tail_cut ls) with (s := N.to_nat (N.of_nat (length (file_of ls)) - TAIL_MAX)) as (j & -> & Hj).
    + eapply Forall_impl; [exact Hls|]. by intros l [].
    + unfold TAIL_MAX in *. lia.
    + exists (S j). split; [apply Hwf|]. split; [lia|]. intros _. exists j. split; [done|]. lia.
  - exists 0. replace (N.of_nat _ - TAIL_MAX)%N with 0%N by lia. split; [apply (Hwf 0)|]. split; [done|lia].
Qed.
Lemma tail_whole_lines_witness :
  ∃ k, read_tail (Some (file_of [lit "one"; lit "two"])) = (drop k [lit "one"; lit "two"] ≫= λ l, l ++ [10%N]).
Proof.
  destruct (tail_whole_lines [lit "one"; lit "two"]) as (k & Hk & _); [|by exists k].
  repeat constructor; apply (bool_decide_unpack _); vm_compute; exact I.
Defined.

(** However the threads interleave, at most 50 lines in a row carry the
    same second past the rate limit; so at most 50 in each second when the clock
    does not go back. *)
Theorem rate_bounded w v :
  logged w → Forall (λ s, (s < u32_bound)%N) (w_passed w) →
  (∀ before k after, w_passed w = before ++ replicate k v ++ after → (N.of_nat k ≤ RATE_PER_SEC)%N) ∧
  (StronglySorted N.le (w_passed w) →
   (N.of_nat (length (filter (λ s, s = v) (w_passed w))) ≤ RATE_PER_SEC)%N).
Proof.
  intros Hw Hp. pose proof (ro_runs _ _ (lo_rate _ (logged_ok _ Hw) Hp)) as Hr. split; [apply Hr|].
  intros Hs. pose proof (sorted_split v _ Hs) as Heq.
  assert (Hf : filter (λ s, s = v) (w_passed w) = replicate (length (filter (λ s, s = v) (w_passed w))) v).
  { symmetry. apply replicate_as_Forall. split; [done|]. apply Forall_forall. intros x [-> _]%list_elem_of_filter. done. }
  rewrite Hf in Heq. by eapply Hr.
Qed.

(** [C20]: No line is lost in silence, however the threads interleave.  Of the
    calls that are done with their line as many as there are were either given to
    the channel, or found it full, or were over the rate, or were made while logging
    was off or had no writer; what was given to the channel is in the file, in the
    channel, or was refused by the disk.  And the lines that found the channel full,
    and those over the rate, are at most the counts that lines given to the channel
    carried, plus the count that waits, plus the calls that are about to raise it. *)
Theorem drops_told w :
  logged w → (w_lost w < u64_bound)%N → (w_rate_lost w < u64_bound)%N →
  owed settled (w_calls w) = (N.of_nat (length (w_sent w)) + w_lost w + w_rate_lost w + w_off w)%N ∧
  length (w_sent w) = length (w_file w) + length (lg_queue (w_log w)) + N.to_nat (w_refused w) ∧
  (w_lost w ≤ told (w_sent w) + lg_drop (w_log w) + owed at_full (w_calls w))%N ∧
  (w_rate_lost w ≤ rate_told (w_sent w) + lg_rate_drop (w_log w) + owed at_count (w_calls w))%N.
Proof.
  intros Hw H1 H2. destruct (logged_ok _ Hw) as [_ Hd _ Hr _ Hs _ _ _ (taken & Ht & _ & Hlen)].
  specialize (Hd H1). specialize (Hr H2). apply (f_equal length) in Ht. rewrite length_fmap, length_app in Ht.
  split_and!; [done| |lia|lia]. rewrite Ht. lia.
Qed.

(** The channel never holds more than 8192 lines, the file gets them in
    order, and each is a time and a redacted message, or a heartbeat as it is,
    with the counts of lost lines when there are any. *)
Theorem log_lines w :
  logged w →
  (N.of_nat (length (lg_queue (w_log w))) ≤ 8192)%N ∧
  (∃ taken, text_sent <$> w_sent w = taken ++ lg_queue (w_log w) ∧ sublist (w_file w) taken) ∧
  Forall (λ line, ∃ secs millis msg d r,
    line = with_drops ("[" ++ show_N secs ++ "." ++ pad3 millis ++ "] " ++
                       (if is_boot msg then msg else redact msg) ++ [10%N]) d r) (w_file w).
Proof.
  intros Hw. destruct (logged_ok _ Hw) as [_ _ _ _ _ _ _ Hs Hroom (taken & Ht & Hf & _)]. split_and!.
  - unfold CHANNEL_CAP in Hroom. lia.
  - eauto.
  - apply Forall_forall. intros line Hin. pose proof (elem_of_sublist _ _ _ Hin Hf) as Hin'.
    assert (Hl : line ∈ text_sent <$> w_sent w) by (rewrite Ht; set_solver).
    apply list_elem_of_fmap in Hl as ([[l d] r] & -> & Hl). rewrite Forall_forall in Hs.
    destruct (Hs _ Hl) as (secs & millis & msg & ->). by exists secs, millis, msg, d, r.
Qed.

(** Sixty lines in one second, by two threads at a time. *)
Definition happens (w : World) (es : list Event) : World := foldl (λ w e, default w (happen w e)) w es.
Lemma logged_happens es : ∀ w, logged w → logged (happens w es).
Proof.
  induction es as [|e es IH]; intros w Hw; [exact Hw|]. apply IH. cbn.
  destruct (happen w e) eqn:He; [by eapply logged_step|done].
Qed.

Definition busy : World :=
  let step id := EStep id (MkRead 7 0 false) in
  let pair (i : N) := [ECall (2 * i) "mail to a@b.org"; ECall (2 * i + 1) "tick"]
    ++ concat (replicate 9 [step (2 * i)%N; step (2 * i + 1)%N]) in
  happens fresh_log ([EOpen; EEnable true] ++ concat (pair ∘ N.of_nat <$> seq 0 30) ++ replicate 20 (EWrite true)).
Lemma busy_logged : logged busy.
Proof. apply logged_happens, logged_start. Qed.

Lemma rate_bounded_witness :
  length (w_passed busy) = 50 ∧ w_rate_lost busy = 10%N ∧
  (N.of_nat (length (filter (λ s, s = 7%N) (w_passed busy))) ≤ RATE_PER_SEC)%N.
Proof.
  split; [vm_compute; reflexivity|]. split; [vm_compute; reflexivity|].
  assert (Hp : w_passed busy = replicate 50 7%N) by (vm_compute; reflexivity).
  apply (rate_bounded busy 7 busy_logged); rewrite Hp; cbn [replicate]; repeat constructor; done.
Defined.
Lemma drops_told_witness :
  w_rate_lost busy = 10%N ∧
  (w_rate_lost busy ≤ rate_told (w_sent busy) + lg_rate_drop (w_log busy) + owed at_count (w_calls busy))%N.
Proof.
  split; [vm_compute; reflexivity|].
  apply (drops_told busy busy_logged); apply (bool_decide_unpack _); vm_compute; exact I.
Defined.
Lemma log_lines_witness :
  length (w_file busy) = 20 ∧ w_file busy !! 0 = Some (lit "[7.000] mail to a@***" ++ [10%N]) ∧
  (N.of_nat (length (lg_queue (w_log busy))) ≤ 8192)%N.
Proof.
  split; [vm_compute; reflexivity|]. split; [vm_compute; reflexivity|]. apply (log_lines busy busy_logged).
Defined.

(** A message that begins with Cyrillic text stops the thread that logs it. *)
Lemma log_panics msg : rate_exempt msg = None ↔
  is_boot (trim_start msg) = false ∧ (5 ≤ str_len (trim_start msg))%N ∧ str_len (take_bytes 5 (trim_start msg)) ≠ 5%N.
Proof.
  unfold rate_exempt, first_bytes. destruct (is_boot _); [naive_solver|].
  destruct (N.leb_spec 5 (str_len (trim_start msg))); [|split; [done|lia]].
  destruct (N.eqb_spec (str_len (take_bytes 5 (trim_start msg))) 5); cbn; naive_solver.
Qed.
Example cyrillic_panics : rate_exempt (replicate 3 1087%N) = None.
Proof. reflexivity. Qed.
