(* ===== verification/BgEvents.v ===== *)
(** * Background events ([bg_events.rs], and its callers in [lib.rs])

    On Android the core's single event queue is read by a poller in Rust.  A
    batch of events belongs to the page while the user looks at it and to the
    poller, which notifies, while not.  Here: the table of waiting callers, the
    routing of a batch, the task that forwards responses, and the poller. *)

From S2P Require Import Prelude Str Json.

Section BgEvents.
Context {J : Json}.

(** ** Lines *)

Definition EVENT_BATCH_ID_PREFIX : str := lit "bg-ev-".
Definition FORWARDED_EVENTS_METHOD : str := lit "velta_core_events".
Definition is_event_batch_id (id : str) : bool := starts_with EVENT_BATCH_ID_PREFIX id.

Definition forwarded_events_from_result (result : value) : option str :=
  match as_array result with
  | Some ((_ :: _) as batch) =>
      Some (to_string (obj [(lit "jsonrpc", of_str "2.0"); (lit "method", of_str FORWARDED_EVENTS_METHOD);
                            (lit "params", of_list [of_list batch])]))
  | _ => None
  end.

Definition forwarded_events_line (response_line : str) : option str :=
  value ← from_str response_line;
  match get value "error" with
  | Some _ => None
  | None => get value "result" ≫= forwarded_events_from_result
  end.

Definition background_poller_paused (js_visible activity_foreground : bool) : bool :=
  js_visible && activity_foreground.

Definition response (id : str) (result : value) : str :=
  to_string (obj [(lit "jsonrpc", of_str "2.0"); (lit "id", of_str id); (lit "result", result)]).

(** The line for the page, and the line for the poller. *)
Definition route_event_batch (id response_line : str) (ui_visible : bool) : option str * str :=
  if negb ui_visible then (None, response_line)
  else match forwarded_events_line response_line with
       | Some fwd => (Some fwd, response id (of_list []))
       | None => (None, response_line)
       end.

(** ** Hits *)

Abbreviation hit := (N * N * N)%type.
(** [v.as_u64().unwrap_or(0) as u32] *)
Definition u32_of (v : option value) : N := ((from_option (λ x, default 0 (as_u64 x)) 0 v) mod u32_bound)%N.
(** [v.pointer("/a/b")] *)
Definition pointer (v : value) (a b : str) : option value :=
  match get v a with Some x => get x b | None => None end.
Definition is_incoming (ev : value) : bool :=
  match pointer ev "event" "kind" with Some k => bool_decide (as_str k = Some (lit "IncomingMsg")) | None => false end.
Definition event_hit (ev : value) : hit :=
  (u32_of (get ev "contextId"), u32_of (pointer ev "event" "chatId"), u32_of (pointer ev "event" "msgId")).

Definition push (ev : value) : list hit :=
  if is_incoming ev && negb ((event_hit ev).2 =? 0)%N then [event_hit ev] else [].
Definition incoming_hits (response_line : str) : list hit :=
  match from_str response_line with
  | None => []
  | Some v =>
      match get v "error", get v "result" with
      | Some _, _ | _, None => []
      | None, Some result =>
          match as_array result with Some arr => arr ≫= push | None => push result end
      end
  end.
(** What the poller notifies. *)
Definition poller_hits (events : list value) : list hit := event_hit <$> filter (λ ev, is_incoming ev = true) events.

(** ** The reconnect nudge *)

Definition BG_KICK_INTERVAL_SECS : N := 600.
Definition PUSH_FRESH_SECS : N := 6 * 3600.
Definition bg_kick_due (ui_visible push_endpoint : bool) (last_push_age_secs : option N) : bool :=
  if ui_visible then false
  else negb (push_endpoint && match last_push_age_secs with Some a => (a <? PUSH_FRESH_SECS)%N | None => false end).
(** [last]: when the last push came, 0 when none did. *)
Definition bg_kick_due_now (ui_visible push_endpoint : bool) (now last : N) : bool :=
  bg_kick_due ui_visible push_endpoint (if (last =? 0)%N then None else Some (now - last)%N).

Lemma kick_due_spec ui endpoint now last :
  bg_kick_due_now ui endpoint now last = true ↔
  ui = false ∧ (endpoint = false ∨ last = 0%N ∨ (last + PUSH_FRESH_SECS ≤ now)%N).
Proof.
  unfold bg_kick_due_now, bg_kick_due, PUSH_FRESH_SECS. destruct ui; [by split; [|intros [? _]]|].
  destruct endpoint; cbn [andb negb]; [|by split; auto].
  destruct (N.eqb_spec last 0) as [->|Hl]; [by split; auto|]. rewrite negb_true_iff, N.ltb_ge.
  split; [intros ?; split; [done|right; right; lia]|intros (_ & [?|[?|?]]); [done|done|lia]].
Qed.

(** ** The table of waiting callers *)

(** A [oneshot] channel. *)
Inductive Slot := Waiting | Sent (line : str) | Gone.
Record Pending := MkPending { pd_map : gmap str N; pd_slots : gmap N Slot }.

(** [PendingGuard::register] *)
Definition register (p : Pending) (id : str) : N * Pending :=
  let k := fresh (dom (pd_slots p)) in
  (k, MkPending (<[id := k]> (pd_map p)) (<[k := Waiting]> (pd_slots p))).

(** The guard and the receiver are dropped. *)
Definition leave (p : Pending) (id : str) (k : N) : Pending :=
  MkPending (delete id (pd_map p)) (<[k := Gone]> (pd_slots p)).

(** The line comes back when nobody waits for it. *)
Definition deliver (p : Pending) (id line : str) : option str * Pending :=
  match pd_map p !! id with
  | None => (Some line, p)
  | Some k =>
      let p := MkPending (delete id (pd_map p)) (pd_slots p) in
      match pd_slots p !! k with
      | Some Waiting => (None, MkPending (pd_map p) (<[k := Sent line]> (pd_slots p)))
      | _ => (Some line, p)
      end
  end.

(** ** The program *)

(** The poller ([start_bg_event_poller], [bg_rpc_with]) and the task that forwards
    responses ([init_android_core]), where they may be interrupted. *)
Inductive Poller := PIdle | PAsked (id : str) (k : N) | PGot (result : value).
Inductive Forwarder := FIdle | FRouted (id line : str).

Inductive Emitted := Events (line : str) | Response (line : str).
Inductive Notified := FromPoller (hits : list hit) | FromPage (hits : list hit).
(** Who got a batch. *)
Inductive Reader := Page | Notifier.

(** What the page and the activity told: [UI_VISIBLE], [ACTIVITY_FOREGROUND],
    [APP_HANDLE], [EVENTS_LISTENER_READY]. *)
Record Sight := MkSight { s_js : bool; s_front : bool; s_page : bool; s_ready : bool }.

(** [a_given], [a_dealt]: for the statement, the batches that the core took off
    its queue for the poller, and those that were dealt with. *)
Record App := MkApp {
  a_sight : Sight;
  a_counter : N; a_pending : Pending;
  a_core : list str;                      (* requests of the poller parked in the core *)
  a_out : list (option str * str);        (* its messages: id of a "bg-ev-" response, line *)
  a_poller : Poller; a_forwarder : Forwarder;
  a_page : list Emitted; a_notes : list Notified;
  a_given : list (list value); a_dealt : list (list value * Reader);
}.

Inductive Ev_ :=
| EVisible (js : bool) | EActivity (front : bool) | EPage     (* [set_ui_visible], onStart/onStop, a page starts *)
| EReady (js : bool)             (* [events_listener_ready] *)
| EAsk (sent : bool)             (* the poller asks; whether the channel takes it *)
| EBatch (batch : list value)    (* the core answers *)
| EError (err : value)
| EOther (line : str)            (* a message that is for the page *)
| EForward | EDeliver | ETake | EHandle.

Definition visible (a : App) : bool := background_poller_paused (s_js (a_sight a)) (s_front (a_sight a)).
Definition batch_id (n : N) : str := EVENT_BATCH_ID_PREFIX ++ show_N n.
Definition error_response (id : str) (err : value) : str :=
  to_string (obj [(lit "jsonrpc", of_str "2.0"); (lit "id", of_str id); (lit "error", err)]).

(** What [bg_rpc_with] makes of the line. *)
Definition result_of (line : str) : option value :=
  value ← from_str line;
  match get value "error" with Some _ => None | None => Some (default null (get value "result")) end.

(** The non-empty batch in a result, or in a line. *)
Definition batch_in (result : value) : list (list value) :=
  match as_array result with Some ((_ :: _) as l) => [l] | _ => [] end.
Definition batch_of (line : str) : list (list value) := from_option batch_in [] (result_of line).

Definition put (a : App) (pending : Pending) (poller : Poller) (fwd : Forwarder) (out : list (option str * str)) : App :=
  MkApp (a_sight a) (a_counter a) pending (a_core a) out poller fwd (a_page a) (a_notes a) (a_given a) (a_dealt a).
Definition see (s : Sight) (a : App) : App :=
  MkApp s (a_counter a) (a_pending a) (a_core a) (a_out a) (a_poller a) (a_forwarder a) (a_page a) (a_notes a) (a_given a) (a_dealt a).
Definition emit (e : list Emitted) (a : App) : App :=
  MkApp (a_sight a) (a_counter a) (a_pending a) (a_core a) (a_out a) (a_poller a) (a_forwarder a)
    (a_page a ++ e) (a_notes a) (a_given a) (a_dealt a).
Definition notify (n : list Notified) (a : App) : App :=
  MkApp (a_sight a) (a_counter a) (a_pending a) (a_core a) (a_out a) (a_poller a) (a_forwarder a)
    (a_page a) (a_notes a ++ n) (a_given a) (a_dealt a).
Definition dealt (r : Reader) (bs : list (list value)) (a : App) : App :=
  MkApp (a_sight a) (a_counter a) (a_pending a) (a_core a) (a_out a) (a_poller a) (a_forwarder a)
    (a_page a) (a_notes a) (a_given a) (a_dealt a ++ ((λ b, (b, r)) <$> bs)).

(** The core answers the oldest request. *)
Definition answer (line : str → str) (given : list (list value)) (a : App) : option App :=
  match a_core a with
  | [] => None
  | id :: rest =>
      Some (MkApp (a_sight a) (a_counter a) (a_pending a) rest (a_out a ++ [(Some id, line id)])
              (a_poller a) (a_forwarder a) (a_page a) (a_notes a) (a_given a ++ given) (a_dealt a))
  end.

Definition step (a : App) (e : Ev_) : option App :=
  let s := a_sight a in
  match e with
  | EVisible js => Some (see (MkSight js (s_front s) (s_page s) (s_ready s)) a)
  | EActivity front => Some (see (MkSight (s_js s) front (s_page s) (s_ready s)) a)
  | EPage => Some (see (MkSight (s_js s) (s_front s) true (s_ready s)) a)
  | EReady js => Some (see (MkSight js (s_front s) (s_page s) true) a)
  | EAsk sent =>
      match a_poller a with
      | PIdle =>
          if s_page s && negb (s_ready s) then None else
          let id := batch_id (a_counter a) in
          let '(k, p) := register (a_pending a) id in
          let n := wadd64 (a_counter a) 1 in
          Some (if sent
                then MkApp (a_sight a) n p (a_core a ++ [id]) (a_out a) (PAsked id k) (a_forwarder a)
                       (a_page a) (a_notes a) (a_given a) (a_dealt a)
                else MkApp (a_sight a) n (leave p id k) (a_core a) (a_out a) PIdle (a_forwarder a)
                       (a_page a) (a_notes a) (a_given a) (a_dealt a))
      | _ => None
      end
  | EBatch batch => answer (λ id, response id (of_list batch)) (batch_in (of_list batch)) a
  | EError err => answer (λ id, error_response id err) [] a
  | EOther line =>
      Some (put a (a_pending a) (a_poller a) (a_forwarder a) (a_out a ++ [(None, line)]))
  | EForward =>
      match a_forwarder a, a_out a with
      | FIdle, (Some id, line) :: out =>
          let '(fwd, to_poller) := route_event_batch id line (visible a) in
          let a := put a (a_pending a) (a_poller a) (FRouted id to_poller) out in
          Some (match fwd with Some l => dealt Page (batch_of line) (emit [Events l] a) | None => a end)
      | FIdle, (None, line) :: out =>
          let a := put a (a_pending a) (a_poller a) FIdle out in
          let hits := incoming_hits line in
          Some (emit [Response line]
                  (if negb (visible a) && negb (bool_decide (hits = [])) then notify [FromPage hits] a else a))
      | _, _ => None
      end
  | EDeliver =>
      match a_forwarder a with
      | FRouted id line =>
          let '(orphan, p) := deliver (a_pending a) id line in
          let a := put a p (a_poller a) FIdle (a_out a) in
          Some (match orphan ≫= forwarded_events_line with
                | Some l => dealt Page (batch_of line) (emit [Events l] a)
                | None => a
                end)
      | FIdle => None
      end
  | ETake =>
      match a_poller a with
      | PAsked id k =>
          match pd_slots (a_pending a) !! k with
          | Some (Sent line) =>
              Some (put a (leave (a_pending a) id k)
                      (match result_of line with Some r => PGot r | None => PIdle end) (a_forwarder a) (a_out a))
          | _ => None
          end
      | _ => None
      end
  | EHandle =>
      match a_poller a with
      | PGot result =>
          let b := put a (a_pending a) PIdle (a_forwarder a) (a_out a) in
          Some (if visible a
                then match forwarded_events_from_result result with
                     | Some l => dealt Page (batch_in result) (emit [Events l] b)
                     | None => b
                     end
                else let hits := poller_hits (default [] (as_array result)) in
                     dealt Notifier (batch_in result)
                       (if bool_decide (hits = []) then b else notify [FromPoller hits] b))
      | _ => None
      end
  end.

Definition launched : App :=
  MkApp (MkSight false true false false) 0 (MkPending ∅ ∅) [] [] PIdle FIdle [] [] [] [].

(** ** The invariant *)

Context {JL : JsonLaws}.

(** JSON that both ends read back as it was. *)
Definition plain_event (e : Ev_) : Prop :=
  match e with EBatch batch => Forall (plain 125) batch | EError err => plain 126 err | _ => True end.

Inductive runs_to : App → Prop :=
| runs_launch : runs_to launched
| runs_step a e a' : runs_to a → plain_event e → step a e = Some a' → runs_to a'.

Definition forward_line (batch : list value) : str :=
  to_string (obj [(lit "jsonrpc", of_str "2.0"); (lit "method", of_str FORWARDED_EVENTS_METHOD);
                  (lit "params", of_list [of_list batch])]).

Lemma forwarded_result r : forwarded_events_from_result r = forward_line <$> head (batch_in r).
Proof. unfold forwarded_events_from_result, batch_in. by destruct (as_array r) as [[]|]. Qed.
Lemma batch_in_short r : length (batch_in r) ≤ 1.
Proof. unfold batch_in. repeat case_match; cbn; lia. Qed.
Lemma forwarded_line line : forwarded_events_line line = forward_line <$> head (batch_of line).
Proof.
  unfold forwarded_events_line, batch_of, result_of. destruct (from_str line) as [v|]; [|done].
  cbn [mbind option_bind]. destruct (get v "error"); [done|].
  destruct (get v "result") as [r|]; cbn [mbind option_bind from_option]; [apply forwarded_result|].
  unfold batch_in. by rewrite as_array_null.
Qed.
Lemma batch_of_short line : length (batch_of line) ≤ 1.
Proof. unfold batch_of. destruct (result_of line); [apply batch_in_short|cbn; lia]. Qed.

Lemma read_response k id x : k ∈ [lit "result"; lit "error"] → plain 126 x →
  ∃ v, from_str (to_string (obj [(lit "jsonrpc", of_str "2.0"); (lit "id", of_str id); (k, x)])) = Some v ∧
    get v k = Some x ∧ (k = lit "result" → get v "error" = None).
Proof.
  intros Hk Hx.
  assert (Hnd : NoDup [lit "jsonrpc"; lit "id"; k]).
  { apply elem_of_cons in Hk as [->|Hk]; [|apply list_elem_of_singleton in Hk as ->]; keys. }
  eexists. split; [|split].
  - apply from_to_string, (plain_obj 126). cbn [fmap list_fmap snd]. rewrite !Forall_cons. split_and!; auto with plain.
  - apply get_obj; [exact Hnd|]. set_solver.
  - intros ->. apply get_obj_none. keys.
Qed.
Lemma batch_of_response id batch : Forall (plain 125) batch → batch_of (response id (of_list batch)) = batch_in (of_list batch).
Proof.
  intros Hb. destruct (read_response "result" id (of_list batch)) as (v & Hv & Hr & He); [set_solver|by apply plain_list|].
  unfold batch_of, result_of, response. rewrite Hv. cbn [mbind option_bind]. by rewrite He, Hr.
Qed.
Lemma batch_of_error id err : plain 126 err → batch_of (error_response id err) = [].
Proof.
  intros Hb. destruct (read_response "error" id err) as (v & Hv & Hr & _); [set_solver|done|].
  unfold batch_of, result_of, error_response. rewrite Hv. cbn [mbind option_bind]. by rewrite Hr.
Qed.

(** The batch on its way, wherever it is. *)
Definition waiting_lines (a : App) : list str := omap (λ '(id, line), id ≫= λ _ : str, Some line) (a_out a).
Definition in_flight (a : App) : list (list value) :=
  match a_poller a with
  | PIdle => []
  | PGot r => batch_in r
  | PAsked id k => match pd_slots (a_pending a) !! k with Some (Sent line) => batch_of line | _ => [] end
  end ++ match a_forwarder a with FRouted _ line => batch_of line | FIdle => [] end
  ++ (waiting_lines a ≫= batch_of).

Definition bg_out (a : App) : list (str * str) := omap (λ '(id, line), (λ i, (i, line)) <$> id) (a_out a).

(** One request of the poller at a time. *)
Definition single (a : App) : Prop :=
  match a_poller a with
  | PIdle | PGot _ => a_core a = [] ∧ bg_out a = [] ∧ a_forwarder a = FIdle ∧ pd_map (a_pending a) = ∅
  | PAsked id k =>
      pd_map (a_pending a) = {[ id := k ]} ∧ pd_slots (a_pending a) !! k = Some Waiting ∧
        ((a_core a = [id] ∧ bg_out a = [] ∧ a_forwarder a = FIdle) ∨
         (∃ line, a_core a = [] ∧ bg_out a = [(id, line)] ∧ a_forwarder a = FIdle) ∨
         (∃ line, a_core a = [] ∧ bg_out a = [] ∧ a_forwarder a = FRouted id line)) ∨
      pd_map (a_pending a) = ∅ ∧ (∃ line, pd_slots (a_pending a) !! k = Some (Sent line)) ∧
        a_core a = [] ∧ bg_out a = [] ∧ a_forwarder a = FIdle
  end.

Definition of_reader (r : Reader) (l : list (list value * Reader)) : list (list value) :=
  omap (λ '(b, r'), match r, r' with Page, Page | Notifier, Notifier => Some b | _, _ => None end) l.
Definition page_events (a : App) : list str := omap (λ e, match e with Events l => Some l | _ => None end) (a_page a).
Definition poller_notes (a : App) : list (list hit) :=
  omap (λ n, match n with FromPoller h => Some h | _ => None end) (a_notes a).

Lemma bg_waiting a : waiting_lines a = (bg_out a).*2.
Proof.
  unfold waiting_lines, bg_out. induction (a_out a) as [|[[id|] line] l IH]; [done|..]; cbn; by rewrite IH.
Qed.
Lemma bg_out_snoc l x : omap (λ '(id, line), (λ i : str, (i, line)) <$> id) (l ++ [x : option str * str]) =
  omap (λ '(id, line), (λ i, (i, line)) <$> id) l ++ (let '(id, line) := x in match id with Some i => [(i, line)] | None => [] end).
Proof. rewrite omap_app. f_equal. by destruct x as [[i|] line]. Qed.

Lemma of_reader_app r l1 l2 : of_reader r (l1 ++ l2) = of_reader r l1 ++ of_reader r l2.
Proof. apply omap_app. Qed.
Lemma of_reader_same r bs : of_reader r ((λ b, (b, r)) <$> bs) = bs.
Proof. unfold of_reader. induction bs as [|b bs IH]; [done|]. destruct r; cbn; f_equal; exact IH. Qed.
Lemma of_reader_other r r' bs : r ≠ r' → of_reader r ((λ b, (b, r')) <$> bs) = [].
Proof. intros H. destruct r, r'; try done; induction bs as [|b bs IH]; done. Qed.
Lemma dealt_fst (bs : list (list value)) (r : Reader) : ((λ b, (b, r)) <$> bs).*1 = bs.
Proof. induction bs as [|b bs IH]; [done|]. cbn. by f_equal. Qed.

(** What is shown and notified, against what is dealt. *)
Definition told (a : App) : Prop :=
  page_events a = forward_line <$> of_reader Page (a_dealt a) ∧
  poller_notes a = filter (λ h, h ≠ []) (poller_hits <$> of_reader Notifier (a_dealt a)).

Lemma told_page a b : told a → told (dealt Page [b] (emit [Events (forward_line b)] a)).
Proof.
  intros [Hp Hn]. unfold told, page_events, poller_notes in *. cbn [a_page a_notes a_dealt dealt emit].
  rewrite omap_app, !of_reader_app, of_reader_same, (of_reader_other Notifier), app_nil_r, fmap_app, Hp by done. done.
Qed.
Lemma told_notifier a bs hits : told a →
  (length bs ≤ 1) → (∀ b, bs = [b] → hits = poller_hits b) → (bs = [] → hits = []) →
  told (dealt Notifier bs (if bool_decide (hits = []) then a else notify [FromPoller hits] a)).
Proof.
  intros [Hp Hn] Hlen Hb H0.
  assert (Hf : filter (λ h, h ≠ []) (poller_hits <$> bs) = if bool_decide (hits = []) then [] else [hits]).
  { destruct bs as [|b [|]]; [|rewrite (Hb b) by done; change (poller_hits <$> [b]) with [poller_hits b]|cbn in Hlen; lia].
    - by rewrite H0, bool_decide_true.
    - rewrite filter_cons. case_bool_decide as H; [by rewrite decide_False by auto|by rewrite decide_True]. }
  unfold told, page_events, poller_notes in *.
  assert (Hd : ∀ x, a_dealt (dealt Notifier bs x) = a_dealt x ++ ((λ b, (b, Notifier)) <$> bs)) by done.
  rewrite Hd. replace (a_dealt (if bool_decide (hits = []) then a else notify [FromPoller hits] a)) with (a_dealt a)
    by by case_bool_decide.
  rewrite !of_reader_app, of_reader_same, (of_reader_other Page), app_nil_r, fmap_app, filter_app, Hf, <- Hn by done.
  split; [rewrite <- Hp; by case_bool_decide|]. case_bool_decide; cbn [a_notes dealt notify]; [by rewrite app_nil_r|].
  by rewrite omap_app.
Qed.
Lemma told_same a a' : told a → a_page a' = a_page a → a_notes a' = a_notes a → a_dealt a' = a_dealt a → told a'.
Proof. unfold told, page_events, poller_notes. by intros [] -> -> ->. Qed.
Lemma told_page_response a line notes : told a → told (emit [Response line] (if notes : bool then notify [FromPage (incoming_hits line)] a else a)).
Proof.
  intros [Hp Hn]. unfold told, page_events, poller_notes in *. destruct notes; cbn [a_page a_notes a_dealt emit notify];
    rewrite !omap_app; cbn [omap list_omap]; by rewrite !app_nil_r.
Qed.

Record ok (a : App) : Prop := {
  ok_single : single a;
  ok_given : a_given a = (a_dealt a).*1 ++ in_flight a;
  ok_told : told a;
}.

Lemma head_short {A} (l : list A) : length l ≤ 1 → l = [] ∨ ∃ x, l = [x].
Proof. destruct l as [|x [|]]; cbn; [by left|right; by exists x|lia]. Qed.

Lemma step_see a s : ok a → ok (see s a).
Proof. intros []. by split. Qed.

Lemma step_ask a sent a' : ok a → step a (EAsk sent) = Some a' → ok a'.
Proof.
  intros [Hs Hg Ht]. unfold step. destruct (a_poller a) eqn:Hp; try done.
  destruct (s_page _ && _); [done|].
  unfold single in Hs. unfold in_flight in Hg. rewrite Hp in *. destruct Hs as (Hc & Hb & Hf & Hm).
  rewrite Hf in *. set (id := batch_id _). unfold register, leave. destruct sent; intros [= <-].
  - split; [|unfold in_flight; cbn [a_poller a_forwarder a_pending pd_slots]; rewrite lookup_insert_eq; exact Hg|by eapply told_same].
    left. cbn [a_pending pd_map pd_slots a_core a_out]. rewrite Hm, Hc, lookup_insert_eq. split_and!; [done..|]. by left.
  - split; [|unfold in_flight; cbn [a_poller a_forwarder]; exact Hg|by eapply told_same].
    cbn [single a_poller a_core a_pending pd_map]. rewrite Hm. split_and!; [done..|]. apply delete_insert_id, lookup_empty.
Qed.

Lemma step_answer a line given a' : ok a → (∀ id, batch_of (line id) = given) → answer line given a = Some a' → ok a'.
Proof.
  intros [Hs Hg Ht] Hl. unfold answer. destruct (a_core a) as [|id rest] eqn:Hc; [done|]. intros [= <-].
  unfold single in Hs. destruct (a_poller a) as [|id' k|r] eqn:Hp; rewrite Hc in Hs.
  - by destruct Hs.
  - destruct Hs as [(Hm & Hk & [([= -> ->] & Hb & Hf)|[(? & ? & _)|(? & ? & _)]])|(_ & _ & ? & _)]; try done.
    split; [| |by eapply told_same].
    + left. split_and!; [done..|]. right. left. exists (line id'). split_and!; [done| |done].
      cbn [bg_out a_out]. unfold bg_out. cbn [a_out]. rewrite bg_out_snoc. unfold bg_out in Hb. by rewrite Hb.
    + unfold in_flight in *. cbn [a_poller a_forwarder a_pending a_given a_dealt]. rewrite Hp, Hk, Hf in Hg.
      rewrite Hk, Hf, Hg. rewrite !bg_waiting in *. unfold bg_out in *. cbn [a_out]. rewrite bg_out_snoc, Hb.
      cbn [app fmap list_fmap snd mbind list_bind]. rewrite Hl, !app_nil_r. done.
  - by destruct Hs.
Qed.

(** A message that is not the poller's. *)
Lemma bg_out_none a line out : a_out a = (None, line) :: out → bg_out a = omap (λ '(id, line), (λ i, (i, line)) <$> id) out.
Proof. unfold bg_out. by intros ->. Qed.

Lemma step_other a line a' : ok a → step a (EOther line) = Some a' → ok a'.
Proof.
  intros [Hs Hg Ht] [= <-]. assert (Hb : bg_out (put a (a_pending a) (a_poller a) (a_forwarder a) (a_out a ++ [(None, line)])) = bg_out a).
  { unfold bg_out. cbn [a_out put]. by rewrite bg_out_snoc, app_nil_r. }
  split; [unfold single; rewrite Hb; exact Hs| |by eapply told_same].
  unfold in_flight in *. rewrite !bg_waiting in *. rewrite Hb. exact Hg.
Qed.

Lemma step_forward a a' : ok a → step a EForward = Some a' → ok a'.
Proof.
  intros [Hs Hg Ht]. unfold step. destruct (a_forwarder a) eqn:Hf; [|done].
  destruct (a_out a) as [|[[id|] line] out] eqn:Ho; [done|..].
  - assert (Hb : bg_out a = (id, line) :: omap (λ '(id, line), (λ i, (i, line)) <$> id) out) by by unfold bg_out; rewrite Ho.
    unfold single in Hs. rewrite Hb, Hf in Hs. destruct (a_poller a) as [|id' k|r] eqn:Hp; [by destruct Hs as (_ & ? & _)| |by destruct Hs as (_ & ? & _)].
    destruct Hs as [(Hm & Hk & [(_ & ? & _)|[(line' & Hc & [= <- <- Hnil] & _)|(? & _ & ? & _)]])|(_ & _ & _ & ? & _)]; try done.
    set (q := put a (a_pending a) (PAsked id k) (FRouted id (snd (route_event_batch id line (visible a)))) out).
    assert (Hq : single q).
    { unfold single, q. cbn [a_poller put a_pending a_core a_forwarder]. left. split_and!; [done..|]. right. right.
      eexists. split_and!; [done|exact Hnil|done]. }
    assert (Hfl : in_flight q = batch_of (snd (route_event_batch id line (visible a)))).
    { unfold in_flight, q. cbn [a_poller put a_pending a_forwarder]. rewrite Hk, bg_waiting. unfold bg_out. cbn [put a_out].
      rewrite Hnil. cbn [app fmap list_fmap mbind list_bind]. by rewrite app_nil_r. }
    assert (Hga : a_given a = (a_dealt a).*1 ++ batch_of line).
    { rewrite Hg. unfold in_flight. rewrite Hp, Hk, Hf, bg_waiting, Hb, Hnil. cbn [app fmap list_fmap snd mbind list_bind].
      by rewrite app_nil_r. }
    assert (Htq : told q) by by eapply told_same.
    destruct (route_event_batch id line (visible a)) as [fwd to_poller] eqn:Hr. cbn [snd] in *.
    unfold route_event_batch in Hr. rewrite forwarded_line in Hr. fold q. intros [= <-].
    destruct (negb (visible a)); [injection Hr as <- <-; split; [done|rewrite Hfl; exact Hga|done]|].
    destruct (head_short _ (batch_of_short line)) as [Hbl|[b Hbl]]; rewrite Hbl in *; cbn [head fmap option_fmap option_map] in Hr;
      injection Hr as <- <-.
    + split; [done|rewrite Hfl, Hbl; exact Hga|done].
    + rewrite batch_of_response in Hfl by constructor. unfold batch_in in Hfl. rewrite as_array_of in Hfl.
      split; [exact Hq| |by apply told_page].
      change (in_flight (dealt Page [b] (emit [Events (forward_line b)] q))) with (in_flight q).
      cbn [a_given a_dealt dealt emit q put]. by rewrite Hfl, app_nil_r, fmap_app, dealt_fst.
  - intros [= <-]. pose proof (bg_out_none _ _ _ Ho) as Hb.
    set (q := put a (a_pending a) (a_poller a) FIdle out).
    assert (Hq : ok q).
    { split; [| |by eapply told_same].
      - unfold single in *. rewrite Hb, Hf in Hs. exact Hs.
      - unfold in_flight in *. rewrite !bg_waiting in *. rewrite Hb, Hf in Hg. exact Hg. }
    destruct Hq as [H1 H2 H3]. destruct (andb _ _).
    + split; [done|done|]. by apply (told_page_response q line true).
    + split; [done|done|]. by apply (told_page_response q line false).
Qed.

Lemma step_deliver a a' : ok a → step a EDeliver = Some a' → ok a'.
Proof.
  intros [Hs Hg Ht]. unfold step. destruct (a_forwarder a) as [|id line] eqn:Hf; [done|].
  unfold single in Hs. rewrite Hf in Hs. destruct (a_poller a) as [|id' k|r] eqn:Hp; [by destruct Hs as (_ & _ & ? & _)| |by destruct Hs as (_ & _ & ? & _)].
  destruct Hs as [(Hm & Hk & [(_ & _ & ?)|[(? & _ & _ & ?)|(? & Hc & Hb & [= -> ->])]])|(_ & _ & _ & _ & ?)]; try done.
  unfold deliver. rewrite Hm, lookup_singleton_eq. cbn [pd_slots]. rewrite Hk. intros [= <-].
  split; [| |by eapply told_same].
  - unfold single. cbn [a_poller put a_pending pd_map pd_slots a_core a_forwarder mbind option_bind]. right.
    rewrite lookup_insert_eq. split_and!; [by rewrite delete_singleton_eq|eauto|done..].
  - unfold in_flight in *. rewrite !bg_waiting in *. cbn [mbind option_bind put a_poller a_pending pd_slots a_forwarder a_given a_dealt].
    rewrite lookup_insert_eq. rewrite Hp, Hk, Hf in Hg. exact Hg.
Qed.

Lemma step_take a a' : ok a → step a ETake = Some a' → ok a'.
Proof.
  intros [Hs Hg Ht]. unfold step. destruct (a_poller a) as [|id k|r] eqn:Hp; try done.
  destruct (pd_slots (a_pending a) !! k) as [[|line|]|] eqn:Hk; try done. intros [= <-].
  unfold single in Hs. rewrite Hp in Hs. destruct Hs as [(_ & Hk' & _)|(Hm & _ & Hc & Hb & Hf)]; [congruence|].
  unfold in_flight in Hg. rewrite Hp, Hk, Hf, bg_waiting, Hb in Hg.
  assert (Hbl : ∀ q, q = match result_of line with Some r => PGot r | None => PIdle end →
    match q with PGot r => batch_in r | _ => [] end = batch_of line ∧ match q with PAsked _ _ => False | _ => True end).
  { intros q ->. unfold batch_of. by destruct (result_of line). }
  destruct (Hbl _ eq_refl) as [H1 H2]. destruct (match result_of line with Some r => PGot r | None => PIdle end) as [| |r]; try done.
  - split; [| |by eapply told_same].
    + unfold single. cbn [a_poller put a_pending leave pd_map a_core a_forwarder]. rewrite Hm, delete_id by apply lookup_empty. done.
    + unfold in_flight. cbn [a_poller put a_forwarder a_given a_dealt]. rewrite bg_waiting, Hf.
      change (bg_out _) with (bg_out a). rewrite Hb. rewrite <- H1 in Hg. exact Hg.
  - split; [| |by eapply told_same].
    + unfold single. cbn [a_poller put a_pending leave pd_map a_core a_forwarder]. rewrite Hm, delete_id by apply lookup_empty. done.
    + unfold in_flight. cbn [a_poller put a_forwarder a_given a_dealt]. rewrite bg_waiting, Hf.
      change (bg_out _) with (bg_out a). rewrite Hb. rewrite <- H1 in Hg. exact Hg.
Qed.

Lemma step_handle a a' : ok a → step a EHandle = Some a' → ok a'.
Proof.
  intros [Hs Hg Ht]. unfold step. destruct (a_poller a) as [|id k|r] eqn:Hp; try done. intros [= <-].
  unfold single in Hs. rewrite Hp in Hs. destruct Hs as (Hc & Hb & Hf & Hm).
  unfold in_flight in Hg. rewrite Hp, Hf, bg_waiting, Hb in Hg. cbn [app fmap list_fmap mbind list_bind] in Hg. rewrite app_nil_r in Hg.
  set (q := put a (a_pending a) PIdle (a_forwarder a) (a_out a)).
  assert (Hq : single q) by by unfold single; cbn [a_poller put q].
  assert (Hfl : in_flight q = []).
  { unfold in_flight. rewrite bg_waiting. change (bg_out q) with (bg_out a). cbn [a_poller put q a_forwarder]. by rewrite Hf, Hb. }
  assert (Htq : told q) by by eapply told_same.
  destruct (visible a).
  - rewrite forwarded_result. destruct (head_short _ (batch_in_short r)) as [Hbl|[b Hbl]]; rewrite Hbl in *;
      cbn [head fmap option_fmap option_map].
    + split; [done|rewrite Hfl; exact Hg|done].
    + split; [exact Hq| |by apply told_page].
      change (in_flight (dealt Page [b] (emit [Events (forward_line b)] q))) with (in_flight q).
      cbn [a_given a_dealt dealt emit q put]. by rewrite Hfl, app_nil_r, fmap_app, dealt_fst.
  - split.
    + by case_bool_decide.
    + match goal with |- a_given (dealt _ _ ?x) = _ => assert (Hx : in_flight (dealt Notifier (batch_in r) x) = [] ∧ a_given x = a_given a ∧ a_dealt x = a_dealt a) by by case_bool_decide end.
      destruct Hx as (-> & H1 & H2). cbn [a_given a_dealt dealt]. by rewrite H1, H2, app_nil_r, fmap_app, dealt_fst.
    + apply told_notifier; [done|apply batch_in_short|..]; unfold batch_in.
      * intros b. destruct (as_array r) as [[]|]; by intros [= <-].
      * by destruct (as_array r) as [[]|].
Qed.

Lemma event_ok a e a' : ok a → plain_event e → step a e = Some a' → ok a'.
Proof.
  intros Hok He. destruct e.
  - intros [= <-]. by apply step_see.
  - intros [= <-]. by apply step_see.
  - intros [= <-]. by apply step_see.
  - intros [= <-]. by apply step_see.
  - by apply step_ask.
  - apply step_answer; [done|]. intros id. by apply batch_of_response.
  - apply step_answer; [done|]. intros id. by apply batch_of_error.
  - by apply step_other.
  - by apply step_forward.
  - by apply step_deliver.
  - by apply step_take.
  - by apply step_handle.
Qed.

Lemma in_flight_cases a : single a → length (in_flight a) ≤ 1 ∧
  (in_flight a ≠ [] → ∃ e, e ∈ [EForward; EDeliver; ETake; EHandle] ∧ is_Some (step a e)).
Proof.
  intros Hs. unfold single in Hs. unfold in_flight. rewrite bg_waiting. destruct (a_poller a) as [|id k|r] eqn:Hp.
  - destruct Hs as (_ & -> & -> & _). split; [cbn; lia|done].
  - destruct Hs as [(_ & -> & [(_ & -> & ->)|[(line & _ & Hb & Hf)|(line & _ & -> & Hf)]])|(_ & (line & Hk) & _ & -> & ->)].
    + split; [cbn; lia|done].
    + rewrite Hb, Hf. cbn [app fmap list_fmap snd mbind list_bind]. rewrite app_nil_r. split; [apply batch_of_short|].
      intros _. exists EForward. split; [set_solver|]. unfold step. rewrite Hf.
      destruct (a_out a) as [|[[?|] ?] ?] eqn:Ho; [unfold bg_out in Hb; by rewrite Ho in Hb| |by eexists].
      destruct (route_event_batch _ _ _). by eexists.
    + rewrite Hf. cbn [app fmap list_fmap mbind list_bind]. rewrite app_nil_r. split; [apply batch_of_short|].
      intros _. exists EDeliver. split; [set_solver|]. unfold step. rewrite Hf. destruct (deliver _ _ _). by eexists.
    + rewrite Hk. cbn [app fmap list_fmap mbind list_bind]. rewrite app_nil_r. split; [apply batch_of_short|].
      intros _. exists ETake. split; [set_solver|]. unfold step. rewrite Hp, Hk. by eexists.
  - destruct Hs as (_ & -> & -> & _). cbn [app fmap list_fmap mbind list_bind]. rewrite app_nil_r.
    split; [apply batch_in_short|]. intros _. exists EHandle. split; [set_solver|]. unfold step. rewrite Hp. by eexists.
Qed.

(** [C21]: However visibility changes and the tasks interleave, every batch of
    events that the core hands out is dealt with once and in order: its events
    are shown to the page or notified, never both and never neither; at most one
    is on its way, and then some task can go on with it. *)
Theorem events_once a :
  runs_to a →
  a_given a = (a_dealt a).*1 ++ in_flight a ∧ length (in_flight a) ≤ 1 ∧
  page_events a = forward_line <$> of_reader Page (a_dealt a) ∧
  poller_notes a = filter (λ h, h ≠ []) (poller_hits <$> of_reader Notifier (a_dealt a)) ∧
  (in_flight a ≠ [] → ∃ e, e ∈ [EForward; EDeliver; ETake; EHandle] ∧ is_Some (step a e)).
Proof.
  intros Hr. assert (Hok : ok a).
  { induction Hr as [|a e a' _ IH He Hs]; [by split|by eapply event_ok]. }
  destruct Hok as [Hs Hg [Hp Hn]]. destruct (in_flight_cases a Hs) as [Hlen Hgo]. by split_and!.
Qed.

End BgEvents.

(** A batch that arrives while the page is up, one that arrives while it is
    not, and one that the page gets because it came back in between. *)
Module Day.
Import Tree.
Definition mail (chat msg : N) : value :=
  obj [(lit "contextId", of_u64 1); (lit "event", obj [(lit "kind", of_str "IncomingMsg"); (lit "chatId", of_u64 chat); (lit "msgId", of_u64 msg)])].
Definition round (batch : list value) : list Ev_ := [EAsk true; EBatch batch; EForward; EDeliver; ETake].
Definition day : list Ev_ :=
  [EPage; EReady true] ++ round [mail 10 20] ++ [EHandle; EVisible false] ++ round [mail 11 21; mail 11 22] ++ [EHandle]
  ++ round [mail 12 23] ++ [EVisible true; EHandle] ++ [EAsk true; EBatch [mail 13 24]].
Definition after (a : App) (es : list Ev_) : App := foldl (λ a e, default a (step a e)) a es.

Lemma day_runs es : ∀ a, runs_to a → Forall plain_event es → runs_to (after a es).
Proof.
  induction es as [|e es IH]; intros a Ha Hes; [exact Ha|]. apply Forall_cons in Hes as [He Hes]. apply IH; [|done]. cbn.
  destruct (step a e) eqn:Hs; [by eapply runs_step|done].
Qed.
Definition evening : App := after launched day.
Lemma evening_runs : runs_to evening.
Proof.
  apply day_runs; [constructor|]. repeat (constructor; [|]); try done; cbn [plain_event]; repeat constructor;
    unfold mail; cbn; lia.
Qed.
End Day.

Lemma events_once_witness :
  length (page_events Day.evening) = 2 ∧ poller_notes Day.evening = [[(1, 11, 21); (1, 11, 22)]]%N ∧
  in_flight Day.evening ≠ [] ∧ a_given Day.evening = (a_dealt Day.evening).*1 ++ in_flight Day.evening.
Proof.
  split; [vm_compute; reflexivity|]. split; [vm_compute; reflexivity|]. split; [vm_compute; discriminate|].
  apply (events_once Day.evening Day.evening_runs).
Defined.
