(* ===== verification/Readers.v ===== *)
(** * Reading attachments to the end ([attachment-crypto], [read_all])

    The loops that clients of [Attachment] run over a reader, for every file that
    opens: they end, and on a file that stands for a plaintext they give it back. *)

From S2P Require Import Prelude Str Attachment.

Definition len (l : bytes) : N := N.of_nat (length l).
Definition read_fuel (want : N) : nat := S (S (N.to_nat want)).

Section Readers.
Context {aead : Aead}.

(** [read_to_end] with buffers of [want] bytes; [None]: out of fuel. *)
Fixpoint read_to_end (fuel : nat) (want : N) (r : reader) : option (result att_error bytes) :=
  match fuel with
  | O => None
  | S fuel =>
      '(res, r) ← read (read_fuel want) r want;
      match res with
      | Err e => Some (Err e)
      | Ok [] => Some (Ok [])
      | Ok out => rest ← read_to_end fuel want r; Some (rest ← rest; Ok (out ++ rest))
      end
  end.

Definition read_all (r : reader) : option (result att_error bytes) :=
  read_to_end (S (N.to_nat (r_len r))) CHUNK_LEN r.

(** ** Readers of files that open *)

Record opened (r : reader) : Prop := {
  opened_pos : (r_position r ≤ r_len r)%N;
  opened_kind : match r_encrypted r with
    | None => r_len r = len (r_file r)
    | Some h => h_chunk_len h = CHUNK_LEN
    end;
}.

Lemma open_opened file key r : open file key = Ok r → opened r.
Proof.
  intros H%open_ok. destruct H as [[_ ->]|(k & b & fk & n & _ & _ & _ & _ & _ & _ & _ & _ & _ & ->)]; by split; cbn; try lia.
Qed.

Context {laws : AeadLaws}.

Lemma read_chunk_length r h b w :
  read_chunk r h = Ok (b, w) →
  let start := (r_position r / h_chunk_len h * h_chunk_len h)%N in
  len b = N.min (r_len r - start) (h_chunk_len h) ∧ w = (r_position r mod h_chunk_len h)%N.
Proof.
  unfold read_chunk. intros H.
  apply bind_ok in H as (nonce & _ & H). apply bind_ok in H as (ct & Hct & H). apply bind_ok in H as (p & Hp & H).
  injection H as <- <-. split; [|done]. apply ok_or_ok, aead_enc_dec, aead_enc_length in Hp.
  apply pread_ok in Hct as (_ & _ & Hs). unfold len. unfold TAG_LEN in *. lia.
Qed.

Lemma read_loop_opened h want fuel : ∀ r acc,
  opened r → r_encrypted r = Some h → (len acc ≤ want)%N → N.to_nat (want - len acc) < fuel →
  ∃ res r', read_loop fuel r h want acc = Some (res, r') ∧ opened r' ∧ r_len r' = r_len r ∧
    ∀ out, res = Ok out → (len out ≤ want ∧ r_position r' + len acc = r_position r + len out)%N.
Proof.
  induction fuel as [|fuel IH]; intros r acc [Hpos Hkind] He Hacc Hf; [lia|]. cbn [read_loop].
  fold (len acc). destruct (N.ltb_spec (len acc) want) as [Hlt|Hge]; cbn [andb];
    [|exists (Ok acc), r; split_and!; [done|by split|done|intros out [= <-]; lia]].
  destruct (N.ltb_spec (r_position r) (r_len r)) as [Hlt'|Hge];
    [|exists (Ok acc), r; split_and!; [done|by split|done|intros out [= <-]; lia]].
  destruct (read_chunk r h) as [[b w]|e] eqn:Hc; [|by exists (Err e), r; split_and!].
  apply read_chunk_length in Hc as [Hb Hw]. rewrite He in Hkind. rewrite Hkind in *.
  pose proof (N.div_mod (r_position r) CHUNK_LEN ltac:(done)) as Hdiv.
  pose proof (N.mod_upper_bound (r_position r) CHUNK_LEN ltac:(done)) as Hmod.
  cbn zeta in Hb. set (q := (r_position r / CHUNK_LEN)%N) in *. rewrite <- Hw in Hdiv, Hmod. clear Hw.
  replace (r_position r - w)%N with (q * CHUNK_LEN)%N by lia. rewrite <- Hb.
  set (wanted := N.min (len b - w) (want - len acc)).
  assert (Hl : len (slice w wanted b) = wanted) by (apply length_slice; unfold len in *; lia).
  destruct (IH (Reader (r_file r) (r_len r) (r_position r + wanted) (r_encrypted r)) (acc ++ slice w wanted b))
    as (res & r' & Hr & Ho & Hn & Hout).
  - split; cbn; [lia|by rewrite He].
  - done.
  - unfold len in *. rewrite length_app. lia.
  - unfold len in *. rewrite length_app. lia.
  - exists res, r'. split_and!; [done|done|done|]. intros out Hres. specialize (Hout out Hres). cbn in Hout.
    unfold len in *. rewrite length_app in Hout. lia.
Qed.

(** A read ends, keeps the reader in order, and moves by what it returns. *)
Lemma read_opened r want : opened r →
  ∃ res r', read (read_fuel want) r want = Some (res, r') ∧ opened r' ∧ r_len r' = r_len r ∧
    ∀ out, res = Ok out → (len out ≤ want ∧ r_position r' = r_position r + len out)%N.
Proof.
  intros Ho. unfold read. destruct (_ || _) eqn:Hz.
  { exists (Ok []), r. split_and!; [done..|]. intros out [= <-]. unfold len. cbn [length]. lia. }
  destruct (r_encrypted r) as [h|] eqn:He.
  - destruct (negb _); [by exists (Err EFileKey), r; split_and!|].
    destruct (read_loop_opened h want (read_fuel want) r []) as (res & r' & Hr & Ho' & Hn & Hout); try done.
    { unfold len. cbn. lia. } { unfold read_fuel, len. cbn. lia. }
    exists res, r'. split_and!; [done..|]. intros out Hres. specialize (Hout out Hres). unfold len in *. cbn [length] in Hout. lia.
  - destruct Ho as [Hpos Hk]. rewrite He in Hk. eexists _, _. split; [done|]. cbn [r_len r_position].
    set (out := slice _ _ _). assert (len out ≤ want ∧ r_position r + len out ≤ r_len r)%N as [H1 H2].
    { unfold out, slice, len in *. rewrite length_take, length_drop. lia. }
    fold (len out). split_and!; [by split|done|]. intros out' [= <-]. done.
Qed.

Lemma read_to_end_total want fuel : ∀ r, opened r → N.to_nat (r_len r - r_position r) < fuel →
  ∃ res, read_to_end fuel want r = Some res.
Proof.
  induction fuel as [|fuel IH]; intros r Ho Hf; [lia|]. cbn [read_to_end].
  destruct (read_opened r want Ho) as (res & r' & -> & Ho' & Hn & Hout). cbn [mbind option_bind].
  destruct res as [[|c out]|e]; [by eexists| |by eexists]. specialize (Hout _ eq_refl) as [_ Hpos].
  destruct (IH r' Ho') as [res Hres]; [|rewrite Hres; cbn; by eexists].
  pose proof (opened_pos _ Ho'). unfold len in Hpos. cbn [length] in Hpos. lia.
Qed.
Lemma read_all_total r : opened r → ∃ res, read_all r = Some res.
Proof. intros Ho. apply read_to_end_total; [done|lia]. Qed.

(** ** Files that stand for a plaintext *)

Definition holds (key : option bytes) (file p : bytes) : Prop :=
  (is_encrypted file = false ∧ p = file) ∨
  ∃ k r, key = Some k ∧ length k = 32 ∧ wf_rng r ∧ fits (len p) ∧ container k r p file.

Definition stands_at (r : reader) (p : bytes) (pos : N) : Prop :=
  r = Reader p (len p) pos None ∨ ∃ file fid fk, r = reader_at p file fid fk pos ∧ layout p file fid fk.

Lemma stands_len r p pos : stands_at r p pos → r_len r = len p ∧ r_position r = pos.
Proof. by intros [->|(? & ? & ? & -> & _)]. Qed.

Lemma open_holds key file p : holds key file p → ∃ r, open file key = Ok r ∧ stands_at r p 0.
Proof.
  intros [[Hm%bool_decide_eq_false ->]|(k & r & -> & Hk & Hr & Hf & Hc)].
  - eexists. split; [|by left]. unfold open, from_reader. by rewrite bool_decide_true by done.
  - destruct (open_container k r p file Hr Hk Hf Hc) as [Ho Hl]. eexists. split; [exact Ho|]. right. by eexists _, _, _.
Qed.

Lemma read_stands r p pos want : stands_at r p pos → (pos ≤ len p)%N →
  let k := N.min want (len p - pos) in
  ∃ r', read (read_fuel want) r want = Some (Ok (slice pos k p), r') ∧ stands_at r' p (pos + k).
Proof.
  intros Hs Hp k. assert ((want =? 0) || (pos =? len p) = true → k = 0)%N as Hz.
  { intros [?%N.eqb_eq|?%N.eqb_eq]%orb_true_iff; lia. }
  destruct (stands_len _ _ _ Hs) as [Hl Hpos]. unfold read. rewrite Hl, Hpos.
  destruct (_ || _) eqn:Hb.
  { rewrite Hz by done. exists r. unfold slice. rewrite take_0, N.add_0_r. by split. }
  destruct Hs as [->|(file & fid & fk & -> & Hlay)].
  - cbn [r_encrypted r_file r_len r_position]. eexists. split; [f_equal; f_equal; f_equal|].
    + unfold slice, k. rewrite N2Nat.inj_min, <- take_take. f_equal.
      rewrite (take_ge (drop _ _)); [done|]. rewrite length_drop. unfold len. lia.
    + left. f_equal. unfold slice. rewrite length_take, length_drop. unfold k, len. lia.
  - cbn [r_encrypted reader_at h_file_key]. rewrite aead_new_32 by apply Hlay. cbn [negb].
    pose proof (read_loop_at p file fid fk want (read_fuel want) pos [] Hlay Hp) as H. cbn [length N.of_nat app] in H.
    rewrite N.sub_0_r in H. rewrite H; [|lia|unfold read_fuel; lia]. eexists. split; [done|]. right. by eexists _, _, _.
Qed.

Lemma read_to_end_stands want fuel p : (0 < want)%N → ∀ r pos, stands_at r p pos → (pos ≤ len p)%N →
  N.to_nat (len p - pos) < fuel → read_to_end fuel want r = Some (Ok (drop (N.to_nat pos) p)).
Proof.
  intros Hw. induction fuel as [|fuel IH]; intros r pos Hs Hp Hf; [lia|]. cbn [read_to_end].
  destruct (read_stands r p pos want Hs Hp) as (r' & -> & Hs'). cbn [mbind option_bind].
  set (k := N.min want (len p - pos)) in *. assert (Hk : len (slice pos k p) = k) by (apply length_slice; unfold len in *; lia).
  destruct (slice pos k p) as [|c out] eqn:Hsl.
  - unfold len in Hk. cbn in Hk. rewrite drop_ge; [done|]. unfold len in *. lia.
  - rewrite (IH r' (pos + k)%N Hs'); [|lia|unfold len in Hk; cbn [length] in Hk; lia]. cbn [mbind option_bind result_bind].
    rewrite <- Hsl. unfold slice. do 2 f_equal.
    replace (drop (N.to_nat (pos + k)) p) with (drop (N.to_nat k) (drop (N.to_nat pos) p)) by (rewrite drop_drop; f_equal; lia).
    apply take_drop.
Qed.
Lemma read_all_stands r p : stands_at r p 0 → read_all r = Some (Ok p).
Proof.
  intros Hs. unfold read_all. rewrite (proj1 (stands_len _ _ _ Hs)).
  rewrite (read_to_end_stands CHUNK_LEN _ p ltac:(done) r 0 Hs); [by rewrite drop_0|lia|lia].
Qed.

Lemma stands_seek r p pos a : stands_at r p pos → (a ≤ len p)%N → ∃ r', seek r (SeekStart a) = (Ok a, r') ∧ stands_at r' p a.
Proof.
  intros Hs Ha. rewrite seek_start by (apply stands_len in Hs as [-> _]; done). eexists. split; [done|].
  destruct Hs as [->|(file & fid & fk & -> & Hl)]; [by left|right]. by eexists _, _, _.
Qed.

Lemma read_range_stands r p pos a n : stands_at r p pos → (a + n ≤ len p)%N →
  read_range (read_fuel n) r a n = Some (Ok (slice a n p)).
Proof.
  intros Hs Hle. unfold read_range. rewrite (proj1 (stands_len _ _ _ Hs)).
  destruct (N.leb_spec a (len p)); [|lia]. destruct (N.leb_spec n (len p - a)); [|lia]. cbn [negb].
  destruct (stands_seek r p pos a Hs ltac:(lia)) as (r' & -> & Hs'). unfold read_fuel at 1. cbn [reader_read_exact length].
  change (N.of_nat 0) with 0%N. destruct (N.leb_spec n 0); [assert (n = 0%N) as -> by lia; unfold slice; by rewrite take_0|].
  rewrite N.sub_0_r. destruct (read_stands r' p a n Hs' ltac:(lia)) as (r'' & Hr & _). unfold read_fuel in Hr. rewrite Hr.
  rewrite N.min_l by lia. assert (Hl : len (slice a n p) = n) by (apply length_slice; unfold len in *; lia).
  destruct (slice a n p) as [|c out] eqn:Hsl; [unfold len in Hl; cbn in Hl; lia|]. cbn [app reader_read_exact].
  unfold len in Hl. rewrite Hl. by destruct (N.leb_spec n n); [|lia].
Qed.

End Readers.
