(* ===== verification/Paths.v ===== *)
(** * Paths and the file system ([std::path], [std::fs])

    What the program relies on when it decides whether a path that came from
    outside leads into its own directories: components, symbolic links,
    [canonicalize], [metadata] and reading, on a POSIX tree.  Names are UTF-8, so
    [to_string_lossy] is the identity. *)

From S2P Require Import Prelude Str Ip.

Definition slash : N := 47.
Definition is_absolute (s : str) : bool := starts_with [slash] s.

(** What the kernel walks: empty components are skipped, a trailing slash asks
    for a directory. *)
Definition parts (s : str) : list str :=
  filter (λ n, n ≠ []) (split slash s) ++ if ends_with [slash] s then [lit "."] else [].

(** [Path::components] without the root. *)
Definition names (s : str) : list str := filter (λ n, n ≠ [] ∧ n ≠ lit ".") (split slash s).

(** [path.starts_with(base)], for a base that is absolute. *)
Definition path_starts_with (path base : str) : bool :=
  bool_decide (is_absolute path = is_absolute base ∧ names base `prefix_of` names path).

(** [path.join(name)] for a plain name. *)
Definition join (path name : str) : str := path ++ [slash] ++ name.

Definition show_path (p : list str) : str := match p with [] => [slash] | _ => p ≫= cons slash end.

(** ** The tree *)

Inductive Node := File (data : bytes) (mtime : N) | Dir | Link (target : str).
#[export] Instance Node_eq_dec : EqDecision Node.
Proof. solve_decision. Defined.
(** The root is a directory without an entry. *)
Record Fs := MkFs { fs_nodes : gmap (list str) Node; fs_cwd : list str }.

Definition set_node (p : list str) (n : Node) (t : Fs) : Fs := MkFs (<[p := n]> (fs_nodes t)) (fs_cwd t).

Definition parent_of (p : list str) : list str := take (pred (length p)) p.

(** Path resolution: at most [links] symbolic links are followed, the last
    component included. *)
Fixpoint walk (links : nat) (t : gmap (list str) Node) : list str → list str → option (list str) :=
  fix go cur todo :=
    match todo with
    | [] => Some cur
    | n :: todo =>
        if bool_decide (n = lit ".") then go cur todo
        else if bool_decide (n = lit "..") then go (parent_of cur) todo
        else match t !! (cur ++ [n]) with
             | Some Dir => go (cur ++ [n]) todo
             | Some (File _ _) => if bool_decide (todo = []) then Some (cur ++ [n]) else None
             | Some (Link target) =>
                 match links with
                 | O => None
                 | S links => walk links t (if is_absolute target then [] else cur) (parts target ++ todo)
                 end
             | None => None
             end
    end.

Definition MAX_LINKS : nat := 40.
Definition resolve (t : Fs) (s : str) : option (list str) :=
  if bool_decide (s = []) then None
  else walk MAX_LINKS (fs_nodes t) (if is_absolute s then [] else fs_cwd t) (parts s).

(** [fs::canonicalize] *)
Definition canonicalize (t : Fs) (s : str) : option str := show_path <$> resolve t s.

Definition file_at (t : Fs) (p : list str) : option (bytes * N) :=
  match fs_nodes t !! p with Some (File d m) => Some (d, m) | _ => None end.
(** The file that [metadata] and [File::open] find. *)
Definition file_of (t : Fs) (s : str) : option (bytes * N) := resolve t s ≫= file_at t.

Definition dir_exists (t : Fs) (p : list str) : bool :=
  bool_decide (p = [] ∨ fs_nodes t !! p = Some Dir).

(** ** Canonical paths *)

Definition plain_name (n : str) : Prop := n ≠ [] ∧ n ≠ lit "." ∧ n ≠ lit ".." ∧ slash ∉ n.

(** Every directory on the way is one. *)
Definition dirs_to (t : gmap (list str) Node) (p : list str) : Prop :=
  ∀ q r, p = q ++ r → q ≠ [] → t !! q = Some Dir.
Definition canonical (t : Fs) (p : list str) : Prop :=
  Forall plain_name p ∧
  (dirs_to (fs_nodes t) p ∨ ∃ q n d m, p = q ++ [n] ∧ dirs_to (fs_nodes t) q ∧ fs_nodes t !! p = Some (File d m)).

Definition component (n : str) : Prop := n ≠ [] ∧ slash ∉ n.

Lemma parts_components s : Forall component (parts s).
Proof.
  unfold parts. apply Forall_app. split.
  - apply Forall_forall. intros n [Hn Hin]%list_elem_of_filter. split; [done|].
    exact (proj1 (Forall_forall _ _) (split_none slash s) n Hin).
  - destruct (ends_with _ _); repeat constructor; unfold slash; [done|]. cbn. set_solver by lia.
Qed.

Lemma dirs_to_nil t : dirs_to t [].
Proof. intros q r H Hq. symmetry in H. by apply app_nil in H as [-> _]. Qed.
Lemma dirs_to_prefix t p q : dirs_to t p → q `prefix_of` p → dirs_to t q.
Proof. intros Hd [r ->] q' r' -> Hq. apply (Hd q' (r' ++ r)); [by rewrite app_assoc|done]. Qed.
Lemma dirs_to_snoc t p n : dirs_to t p → t !! (p ++ [n]) = Some Dir → dirs_to t (p ++ [n]).
Proof.
  intros Hd Hn q r H Hq. destruct r as [|x r _] using rev_ind.
  - rewrite app_nil_r in H. by subst.
  - rewrite app_assoc in H. apply app_inj_tail in H as [-> _]. by apply (Hd q r).
Qed.
Lemma parent_prefix p : parent_of p `prefix_of` p.
Proof. apply prefix_take. Qed.

Lemma walk_canonical t cwd links : ∀ todo cur p,
  dirs_to t cur → Forall plain_name cur → Forall component todo →
  walk links t cur todo = Some p → canonical (MkFs t cwd) p.
Proof.
  induction links as [|links IHl]; intros todo; induction todo as [|n todo IH]; intros cur p Hd Hc Ht;
    try (intros [= <-]; split; [done|by left]); cbn [walk]; apply Forall_cons in Ht as [[Hn Hs] Ht].
  all: destruct (bool_decide_reflect (n = lit ".")); [by apply IH|].
  all: destruct (bool_decide_reflect (n = lit "..")).
  all: try (apply IH; [by eapply dirs_to_prefix, parent_prefix|by apply Forall_take|done]).
  all: destruct (t !! (cur ++ [n])) as [[d m| |target]|] eqn:Hnode; try done.
  all: assert (Forall plain_name (cur ++ [n])) by (apply Forall_app; split; [done|by repeat constructor]).
  all: try (apply IH; [by apply dirs_to_snoc|done|done]).
  1,2: destruct (bool_decide_reflect (todo = [])); [|done]; intros [= <-]; split; [done|right; by exists cur, n, d, m].
  apply IHl; [| |].
  - destruct (is_absolute target); [apply dirs_to_nil|done].
  - destruct (is_absolute target); [constructor|done].
  - apply Forall_app; split; [apply parts_components|done].
Qed.

Lemma walk_id t links todo : ∀ cur,
  Forall plain_name todo → (dirs_to t (cur ++ todo) ∨ ∃ q n d m, cur ++ todo = q ++ [n] ∧ dirs_to t q ∧ t !! (cur ++ todo) = Some (File d m)) →
  walk links t cur todo = Some (cur ++ todo).
Proof.
  induction todo as [|n todo IH]; intros cur Hp Hc.
  - rewrite app_nil_r. by destruct links.
  - apply Forall_cons in Hp as [(Hn & Hdot & Hdd & Hs) Hp].
    assert (walk links t cur (n :: todo) = match t !! (cur ++ [n]) with
      | Some Dir => walk links t (cur ++ [n]) todo
      | Some (File _ _) => if bool_decide (todo = []) then Some (cur ++ [n]) else None
      | Some (Link target) => match links with O => None | S links => walk links t (if is_absolute target then [] else cur) (parts target ++ todo) end
      | None => None end) as ->.
    { destruct links; cbn [walk]; rewrite !bool_decide_false by done; reflexivity. }
    replace (cur ++ n :: todo) with ((cur ++ [n]) ++ todo) in * by (by rewrite <- app_assoc).
    destruct Hc as [Hc|(q & x & d & m & Heq & Hq & Hf)].
    + rewrite (Hc (cur ++ [n]) todo) by (done || by destruct cur). apply IH; auto.
    + destruct todo as [|y todo' _] using rev_ind.
      * rewrite app_nil_r in *. rewrite Hf. by rewrite bool_decide_true.
      * rewrite app_assoc in Heq. apply app_inj_tail in Heq as [<- <-].
        rewrite (Hq (cur ++ [n]) todo') by (done || by destruct cur). apply IH; [done|]. right.
        exists ((cur ++ [n]) ++ todo'), y, d, m. by rewrite app_assoc in *.
Qed.

(** ** Shown paths *)

Lemma show_join p : p ≠ [] → show_path p = join_str [slash] ([] :: p).
Proof.
  intros Hp. assert (∀ q, q ≠ [] → q ≫= cons slash = join_str [slash] ([] :: q)) as H.
  { induction q as [|n q IH]; [done|]. intros _. destruct q as [|m q]; [cbn; by rewrite app_nil_r|].
    change ((n :: m :: q) ≫= cons slash) with ((slash :: n) ++ ((m :: q) ≫= cons slash)).
    rewrite IH, !join_cons by done. cbn [app]. done. }
  destruct p; [done|]. by apply H.
Qed.
Lemma show_absolute p : is_absolute (show_path p) = true.
Proof. by destruct p. Qed.
Lemma plain_no_slash p : Forall plain_name p → Forall (λ x, slash ∉ x) p.
Proof. intros Hp. eapply Forall_impl; [exact Hp|]. by intros n (_ & _ & _ & ?). Qed.
Lemma split_show p : Forall plain_name p → p ≠ [] → split slash (show_path p) = [] :: p.
Proof.
  intros Hp Hn. rewrite show_join by done. apply split_join; [done|].
  constructor; [set_solver|by apply plain_no_slash].
Qed.
Lemma names_show p : Forall plain_name p → names (show_path p) = p.
Proof.
  intros Hp. destruct (decide (p = [])) as [->|Hn]; [done|]. unfold names. rewrite split_show by done.
  rewrite filter_cons_False by (by intros []). apply filter_all. eapply Forall_impl; [exact Hp|]. by intros n (? & ? & _).
Qed.
Lemma show_no_trailing p n : plain_name n → ends_with [slash] (show_path (p ++ [n])) = false.
Proof.
  intros (Hn & _ & _ & Hs). unfold ends_with. apply bool_decide_eq_false. intros [t Ht].
  apply strip_suffix_Some in Ht. destruct n as [|c n' _] using rev_ind; [done|].
  assert (show_path (p ++ [n' ++ [c]]) = (p ≫= cons slash) ++ slash :: n' ++ [c]) as Hshow.
  { destruct p; [cbn; by rewrite app_nil_r|]. cbn [app show_path]. rewrite app_comm_cons, bind_app. cbn. by rewrite app_nil_r. }
  rewrite Hshow, app_comm_cons, app_assoc in Ht. apply app_inj_tail in Ht as [_ ->]. set_solver.
Qed.
Lemma parts_show p : Forall plain_name p → p ≠ [] → parts (show_path p) = p.
Proof.
  intros Hp Hn. unfold parts. rewrite split_show by done. rewrite filter_cons_False by auto.
  rewrite filter_all by (eapply Forall_impl; [exact Hp|]; by intros n (? & _)).
  destruct p as [|n q _] using rev_ind; [done|]. apply Forall_app in Hp as [_ [Hp _]%Forall_cons].
  by rewrite show_no_trailing, app_nil_r.
Qed.

(** A canonical path leads to itself. *)
Lemma resolve_show t p : canonical t p → resolve t (show_path p) = Some p.
Proof.
  intros [Hp Hc]. unfold resolve. rewrite bool_decide_false by (by destruct p). rewrite show_absolute.
  destruct (decide (p = [])) as [->|Hn]; [done|]. rewrite parts_show by done. by apply walk_id.
Qed.

(** The working directory is one. *)
Definition fs_ok (t : Fs) : Prop := Forall plain_name (fs_cwd t) ∧ dirs_to (fs_nodes t) (fs_cwd t).

Lemma resolve_canonical t s p : fs_ok t → resolve t s = Some p → canonical t p.
Proof.
  intros [H1 H2]. unfold resolve. case_bool_decide; [done|]. destruct t as [t cwd]. apply walk_canonical; [| |apply parts_components].
  - destruct (is_absolute s); [apply dirs_to_nil|done].
  - destruct (is_absolute s); [constructor|done].
Qed.
Lemma canonicalize_resolve t s c : fs_ok t → canonicalize t s = Some c → ∃ p, c = show_path p ∧ canonical t p ∧ resolve t c = Some p.
Proof.
  unfold canonicalize. intros Ht. destruct (resolve t s) as [p|] eqn:Hr; [|done]. intros [= <-].
  apply resolve_canonical in Hr as Hc; [|done]. exists p. split; [done|]. split; [done|]. by apply resolve_show.
Qed.
Lemma show_starts_with p q : Forall plain_name p → Forall plain_name q →
  path_starts_with (show_path p) (show_path q) = bool_decide (q `prefix_of` p).
Proof.
  intros Hp Hq. unfold path_starts_with. rewrite !show_absolute, !names_show by done. apply bool_decide_ext. tauto.
Qed.

(** ** One more component *)

Lemma split_app c a b : split c (a ++ c :: b) = split c a ++ split c b.
Proof.
  unfold split at 1 2. generalize ([] : str) as cur. induction a as [|x a IH]; intros cur; cbn [app split_from].
  - by rewrite N.eqb_refl.
  - destruct (x =? c)%N; [cbn [app]; by rewrite IH|apply IH].
Qed.


Lemma walk_cons links t cur n todo : n ≠ lit "." → n ≠ lit ".." →
  walk links t cur (n :: todo) = match t !! (cur ++ [n]) with
    | Some Dir => walk links t (cur ++ [n]) todo
    | Some (File _ _) => if bool_decide (todo = []) then Some (cur ++ [n]) else None
    | Some (Link target) => match links with O => None | S links => walk links t (if is_absolute target then [] else cur) (parts target ++ todo) end
    | None => None end.
Proof. intros H1 H2. destruct links; cbn [walk]; rewrite !bool_decide_false by done; reflexivity. Qed.
Lemma walk_dot links t cur todo : walk links t cur (lit "." :: todo) = walk links t cur todo.
Proof. by destruct links. Qed.
Lemma walk_dotdot links t cur todo : walk links t cur (lit ".." :: todo) = walk links t (parent_of cur) todo.
Proof. by destruct links. Qed.
Lemma walk_nil links t cur : walk links t cur [] = Some cur.
Proof. by destruct links. Qed.

(** Case analysis on the first component. *)
Ltac walk_step n :=
  destruct (decide (n = lit ".")) as [->|?]; [rewrite ?walk_dot|
  destruct (decide (n = lit "..")) as [->|?]; [rewrite ?walk_dotdot|rewrite ?walk_cons by done]].

Definition is_dir (t : gmap (list str) Node) (p : list str) : Prop := p = [] ∨ t !! p = Some Dir.

Lemma walk_snoc t n : n ≠ lit "." → n ≠ lit ".." → ∀ links todo cur p,
  dirs_to t cur → walk links t cur todo = Some p → is_dir t p →
  match t !! (p ++ [n]) with
  | Some Dir | Some (File _ _) => walk links t cur (todo ++ [n]) = Some (p ++ [n])
  | None => walk links t cur (todo ++ [n]) = None
  | Some (Link _) => True
  end.
Proof.
  intros Hn1 Hn2. induction links as [|links IHl]; intros todo; induction todo as [|x todo IH]; intros cur p Hc Hw Hp.
  1,3: rewrite walk_nil in Hw; injection Hw as <-; cbn [app]; rewrite walk_cons by done;
    destruct (t !! (cur ++ [n])) as [[]|]; rewrite ?walk_nil; done.
  all: revert Hw; cbn [app]; walk_step x; [by intros; apply IH| |].
  1,3: intros Hw; apply IH; [by eapply dirs_to_prefix, parent_prefix|done|done].
  all: destruct (t !! (cur ++ [x])) as [[d m| |target]|] eqn:Hx; try done.
  1,3: intros Hw; case_bool_decide; [|done]; injection Hw as <-; destruct Hp as [Hp|Hp]; [by destruct cur|congruence].
  1,2: intros Hw; apply IH; [by apply dirs_to_snoc|done|done].
  rewrite app_assoc. intros Hw. apply IHl; [|done|done]. destruct (is_absolute target); [apply dirs_to_nil|done].
Qed.

Lemma parts_join s n : plain_name n → parts (join s n) = filter (λ n, n ≠ []) (split slash s) ++ [n].
Proof.
  intros (H1 & H2 & H3 & H4). unfold parts, join.
  assert (ends_with [slash] (s ++ [slash] ++ n) = false) as ->.
  { apply bool_decide_eq_false. intros [u Hu%strip_suffix_Some]. destruct n as [|c n _] using rev_ind; [done|].
    rewrite !app_assoc in Hu. apply app_inj_tail in Hu as [_ ->]. set_solver. }
  rewrite app_nil_r. cbn [app]. rewrite split_app, filter_app by done. f_equal.
  rewrite split_eq, (proj2 (split_once_None slash n)) by done. rewrite filter_cons_True by done. done.
Qed.

Lemma walk_strip t links todo b cur :
  walk links t cur (todo ++ if b : bool then [lit "."] else []) = walk links t cur todo ∨
  walk links t cur (todo ++ if b then [lit "."] else []) = None.
Proof.
  destruct b; [|left; by rewrite app_nil_r]. revert todo cur. induction links as [|links IHl]; intros todo; induction todo as [|x todo IH]; intros cur.
  1,3: left; cbn [app]; by rewrite walk_dot.
  all: cbn [app]; walk_step x; auto.
  all: destruct (t !! (cur ++ [x])) as [[d m| |target]|]; auto.
  1,2: right; rewrite bool_decide_false; [done|by destruct todo].
  rewrite app_assoc. apply IHl.
Qed.

(** Resolution of a name in a directory. *)
Lemma resolve_join t s p n : fs_ok t → s ≠ [] → resolve t s = Some p → is_dir (fs_nodes t) p → plain_name n →
  match fs_nodes t !! (p ++ [n]) with
  | Some Dir | Some (File _ _) => resolve t (join s n) = Some (p ++ [n])
  | None => resolve t (join s n) = None
  | Some (Link _) => True
  end.
Proof.
  intros [Hok1 Hok2] Hs Hr Hd Hn. unfold resolve in *. rewrite bool_decide_false in Hr by done.
  rewrite bool_decide_false by (by unfold join; destruct s). rewrite parts_join by done.
  assert (is_absolute (join s n) = is_absolute s) as ->.
  { destruct s as [|c s]; [done|]. unfold join, is_absolute, starts_with. cbn [app strip_prefix]. apply bool_decide_ext.
    destruct (slash =? c)%N; [by split; eauto|done]. }
  apply walk_snoc; [apply Hn|apply Hn| | |done].
  - destruct (is_absolute s); [apply dirs_to_nil|done].
  - unfold parts in Hr. edestruct walk_strip as [Hw|Hw]; rewrite Hw in Hr; [exact Hr|done].
Qed.

(** Resolution survives when directories and links stay and files stay files. *)
Definition keeps (t t' : gmap (list str) Node) : Prop :=
  ∀ q x, t !! q = Some x → match x with File _ _ => ∃ d m, t' !! q = Some (File d m) | _ => t' !! q = Some x end.

Lemma walk_keeps t t' : keeps t t' → ∀ links todo cur p, walk links t cur todo = Some p → walk links t' cur todo = Some p.
Proof.
  intros Hk. induction links as [|links IHl]; intros todo; induction todo as [|x todo IH]; intros cur p.
  1,3: by rewrite !walk_nil.
  all: walk_step x; [apply IH|apply IH|].
  all: destruct (t !! (cur ++ [x])) as [[d m| |target]|] eqn:Hx; try done; apply Hk in Hx; cbn in Hx.
  1,3: destruct Hx as (d' & m' & ->); done.
  all: rewrite Hx; try apply IH; try apply IHl; done.
Qed.
Lemma resolve_keeps t t' s p : fs_cwd t' = fs_cwd t → keeps (fs_nodes t) (fs_nodes t') → resolve t s = Some p → resolve t' s = Some p.
Proof. intros Hc Hk. unfold resolve. rewrite Hc. case_bool_decide; [done|]. by apply walk_keeps. Qed.

Lemma keeps_insert t q x :
  match t !! q with None => True | Some (File _ _) => ∃ d m, x = File d m | _ => False end → keeps t (<[q := x]> t).
Proof.
  intros Hq q' y Hy. destruct (decide (q = q')) as [->|Hne].
  - rewrite Hy in Hq. destruct y; try done. rewrite lookup_insert_eq. naive_solver.
  - rewrite lookup_insert_ne by done. destruct y; eauto.
Qed.
Lemma keeps_trans t1 t2 t3 : keeps t1 t2 → keeps t2 t3 → keeps t1 t3.
Proof. intros H1 H2 q x Hx. specialize (H1 q x Hx). destruct x; [destruct H1 as (? & ? & H1); by apply H2 in H1|by apply H2 in H1..]. Qed.
Lemma keeps_refl t : keeps t t.
Proof. intros q []; eauto. Qed.
Lemma keeps_dirs t t' p : keeps t t' → is_dir t p → is_dir t' p.
Proof. intros Hk [->|Hp]; [by left|right]. by apply Hk in Hp. Qed.
