(* ===== verification/MediaServer.v ===== *)
(** * Files for the page ([lib.rs]: media server and blob protocol)

    The page shows attachments through a loopback HTTP server and through a custom
    protocol.  Both get a path from a request and must hand out files of the
    accounts directory only, in whole, in part or as a thumbnail. *)

From S2P Require Import Prelude Str Ip Paths Attachment Readers.

(** ** What a request says *)

(** [u8::from_str_radix(_, 16)] of two bytes: a plus sign may come first. *)
Definition hex_pair (h l : N) : option N :=
  if (h =? 43)%N then to_digit 16 l else a ← to_digit 16 h; b ← to_digit 16 l; Some (16 * a + b)%N.

Fixpoint percent_bytes (b : bytes) : bytes :=
  match b with
  | c :: (h :: l :: rest) as tl =>
      if (c =? 37)%N then match hex_pair h l with Some x => x :: percent_bytes rest | None => c :: percent_bytes tl end
      else c :: percent_bytes tl
  | c :: tl => c :: percent_bytes tl
  | [] => []
  end.
Definition percent_decode (s : str) : str := from_utf8_lossy (percent_bytes (as_bytes s)).

Definition mime_types : list (list str * str) :=
  [([lit "mp4"; lit "m4v"; lit "mov"], lit "video/mp4"); ([lit "webm"], lit "video/webm");
   ([lit "mkv"], lit "video/x-matroska"); ([lit "avi"], lit "video/x-msvideo"); ([lit "3gp"], lit "video/3gpp");
   ([lit "jpg"; lit "jpeg"], lit "image/jpeg"); ([lit "png"], lit "image/png"); ([lit "gif"], lit "image/gif");
   ([lit "webp"], lit "image/webp"); ([lit "bmp"], lit "image/bmp"); ([lit "mp3"], lit "audio/mpeg");
   ([lit "m4a"], lit "audio/mp4"); ([lit "ogg"; lit "oga"; lit "opus"], lit "audio/ogg"); ([lit "wav"], lit "audio/wav");
   ([lit "flac"], lit "audio/flac"); ([lit "pdf"], lit "application/pdf"); ([lit "txt"], lit "text/plain");
   ([lit "html"; lit "htm"; lit "xhtml"], lit "text/html"); ([lit "js"; lit "mjs"], lit "text/javascript");
   ([lit "css"], lit "text/css"); ([lit "wasm"], lit "application/wasm"); ([lit "json"; lit "map"], lit "application/json");
   ([lit "svg"], lit "image/svg+xml"); ([lit "ico"], lit "image/x-icon"); ([lit "woff"], lit "font/woff");
   ([lit "woff2"], lit "font/woff2"); ([lit "ttf"], lit "font/ttf"); ([lit "otf"], lit "font/otf")].
Definition guess_mime (path : str) : str :=
  let ext := after_last (λ c, (c =? 46)%N) (to_ascii_lowercase path) in
  default (lit "application/octet-stream") (snd <$> find (λ '(exts, _), bool_decide (ext ∈ exts)) mime_types).

Definition APP_ORIGINS : list str := [lit "tauri://localhost"; lit "http://tauri.localhost"; lit "https://tauri.localhost"].
Definition media_cors (origin : option str) : result unit (option str) :=
  match origin with
  | None => Ok None
  | Some o => if bool_decide (o ∈ APP_ORIGINS) then Ok (Some o) else Err ()
  end.

(** [s.parse()] for an unsigned integer below the bound. *)
Definition parse_below (bound : N) (s : str) : option N :=
  let s := default s (strip_prefix (lit "+") s) in
  match s with
  | [] => None
  | _ => n ← digits_value s; if (n <? bound)%N then Some n else None
  end.

Definition parse_range (header : str) (len : N) : option (N * N) :=
  rest ← strip_prefix (lit "bytes=") (trim header);
  '(start_s, end_s) ← split_once 45 rest;
  match start_s with
  | [] =>
      n ← parse_below u64_bound end_s;
      if ((n =? 0) || (len =? 0))%N then None else Some (sat_sub len n, (len - 1)%N)
  | _ =>
      start ← parse_below u64_bound start_s;
      if (len <=? start)%N then None else
      end_ ← match end_s with
             | [] => Some (len - 1)%N
             | _ => e ← parse_below u64_bound end_s; Some (N.min e (len - 1))
             end;
      if (end_ <? start)%N then None else Some (start, end_)
  end.

(** [w=N] in a query, for images that can be scaled down. *)
Definition thumb_width (query : option str) (range : option str) (mime : str) : option N :=
  match range with
  | Some _ => None
  | None =>
      q ← query;
      v ← head (omap (strip_prefix (lit "w=")) (split 38 q));
      w ← parse_below u32_bound v;
      if (in_range 16 2000 w && bool_decide (mime ∈ [lit "image/jpeg"; lit "image/png"; lit "image/bmp"]))
      then Some w else None
  end.

Fixpoint split_crlf (cur s : str) : list str :=
  match s with
  | [] => [cur]
  | c :: rest =>
      match rest with
      | d :: rest' => if ((c =? 13) && (d =? 10))%N then cur :: split_crlf [] rest' else split_crlf (cur ++ [c]) rest
      | [] => [cur ++ [c]]
      end
  end.

Definition CRLF : str := [13; 10]%N.
(** The head of a request, however it is cut into reads; an empty read is the end
    of the stream, and an error or a timeout ends the list. *)
Fixpoint read_head (head : bytes) (reads : list bytes) : bytes :=
  match reads with
  | [] | [] :: _ => head
  | buf :: reads =>
      let head := head ++ buf in
      if contains (CRLF ++ CRLF) head || (64 * 1024 <? len head)%N then head else read_head head reads
  end.

Record Head := MkHead { h_path : str; h_range : option str; h_origin : option str }.
Definition head_line (h : Head) (line : str) : Head :=
  match split_once 58 line with
  | None => h
  | Some (name, value) =>
      let value := trim value in
      if bool_decide (to_ascii_lowercase name = lit "range") then MkHead (h_path h) (Some value) (h_origin h)
      else if bool_decide (to_ascii_lowercase name = lit "origin") then MkHead (h_path h) (h_range h) (Some value)
      else h
  end.
Definition parse_head (head : bytes) : Head :=
  let lines := split_crlf [] (from_utf8_lossy head) in
  let request_line := default [] (hd_error lines) in
  let path := foldl (λ path part, if starts_with [slash] part then part else path) [] (split 32 request_line) in
  foldl head_line (MkHead path None None) (tail lines).

Definition constant_time_eq (a b : bytes) : bool :=
  if negb (length a =? length b)%nat then false
  else (foldl (λ acc '(x, y), N.lor acc (N.lxor x y)) 0 (zip a b) =? 0)%N.

(** ** Answers *)

Inductive Reply :=
| Refused (status : N) (msg : str)
| Probe
| Unsatisfiable (acao : option str) (len : N)
| Part (mime : str) (acao : option str) (start end_ len : N) (body : bytes)
| Whole (mime : str) (acao : option str) (len : N) (body : bytes)
| Jpeg (acao : option str) (body : bytes).

(** Crates: SHA-1, hexadecimal, and images. *)
Class Images := {
  sha1 : bytes → bytes;
  hexlower : bytes → str;
  image : Type;
  decode_image : bytes → option image;          (* turned as its metadata says *)
  image_size : image → N * N;
  scaled : image → N → image;                   (* [thumbnail] *)
  encode_jpeg : image → option bytes;
}.
Class ImagesLaws {im : Images} := {
  jpeg_magic : ∀ i b, encode_jpeg i = Some b → take 2 b = [255; 216]%N;
  hex_plain : ∀ b, slash ∉ hexlower b;
}.

(** What a write finds: the time, random bytes, and whether the disk takes it. *)
Record Env := MkEnv { e_now : N; e_rand : rng; e_disk : bool }.

(** The app-local data directory, the key and the token of this launch. *)
Record Server := MkServer { sv_dir : str; sv_key : option bytes; sv_token : str }.
Definition accounts_dir (sv : Server) : str := join (sv_dir sv) (lit "accounts").
Definition thumbs_dir (sv : Server) : str := join (sv_dir sv) (lit "thumbs").

Section MediaServer.
Context {aead : Aead} {im : Images}.

(** ** Attachments by path *)

Definition open_attachment (sv : Server) (t : Fs) (path : str) : option reader :=
  '(d, _) ← file_of t path; result_ok (open d (sv_key sv)).
Definition read_attachment (sv : Server) (t : Fs) (path : str) : option bytes :=
  r ← open_attachment sv t path; res ← read_all r; result_ok res.

(** The file is written beside its place and renamed; what was there is replaced. *)
Definition write_attachment (e : Env) (key : option bytes) (t : Fs) (dir name : str) (plaintext : bytes) : Fs :=
  match resolve t dir with
  | None => t
  | Some p =>
      if negb (e_disk e && dir_exists t p) || bool_decide (fs_nodes t !! (p ++ [name]) = Some Dir) then t else
      match key with
      | None => set_node (p ++ [name]) (File plaintext (e_now e)) t
      | Some k =>
          match encrypt (encrypt_fuel (len plaintext)) k (e_rand e) plaintext (len plaintext) with
          | Some (Ok d) => set_node (p ++ [name]) (File d (e_now e)) t
          | _ => t
          end
      end
  end.

(** [create_dir_all] of a directory whose parent is there. *)
Definition create_dir (e : Env) (t : Fs) (parent name : str) : Fs :=
  match resolve t (join parent name), resolve t parent with
  | None, Some p =>
      if e_disk e && dir_exists t p && bool_decide (fs_nodes t !! (p ++ [name]) = None)
      then set_node (p ++ [name]) Dir t else t
  | _, _ => t
  end.

(** ** Thumbnails *)

Definition thumb_name (source : str) (len mtime w : N) : str :=
  hexlower (sha1 (as_bytes source ++ as_bytes (lit "|" ++ show_N mtime ++ lit "|" ++ show_N len ++ lit "|" ++ show_N w)))
  ++ lit ".jpg".
Definition thumb_cache_path (sv : Server) (source : str) (len mtime w : N) : str :=
  join (thumbs_dir sv) (thumb_name source len mtime w).

Definition generate_thumbnail (b : bytes) (max_dim : N) : option bytes :=
  img ← decode_image b;
  let '(width, height) := image_size img in
  if ((width <=? max_dim) && (height <=? max_dim))%N then None else encode_jpeg (scaled img max_dim).

Definition load_thumbnail (e : Env) (sv : Server) (t : Fs) (source : str) (len mtime w : N) : option bytes * Fs :=
  let name := thumb_name source len mtime w in
  let write t data := write_attachment e (sv_key sv) t (thumbs_dir sv) name data in
  let cache := thumb_cache_path sv source len mtime w in
  let generated :=
    match original ← read_attachment sv t source; generate_thumbnail original w with
    | None => (None, t)
    | Some thumb => (Some thumb, write (create_dir e t (sv_dir sv) (lit "thumbs")) thumb)
    end in
  match read_attachment sv t cache with
  | Some data =>
      if bool_decide (take 2 data = [255; 216]%N) then
        let sealed := match file_of t cache with Some (d, _) => is_encrypted d | None => false end in
        (Some data, if bool_decide (is_Some (sv_key sv)) && negb sealed then write t data else t)
      else generated
  | None => generated
  end.

(** ** The media server *)

(** The loop that sends a range: chunks of 64 KiB, until an error or the end. *)
Fixpoint stream_range (fuel : nat) (r : reader) (remaining : N) : bytes :=
  match fuel with
  | O => []
  | S fuel =>
      if (remaining =? 0)%N then [] else
      let want := N.min (64 * 1024) remaining in
      match read (read_fuel want) r want with
      | Some (Ok ((_ :: _) as out), r) => out ++ stream_range fuel r (remaining - len out)
      | _ => []
      end
  end.
Fixpoint stream_all (fuel : nat) (r : reader) : bytes :=
  match fuel with
  | O => []
  | S fuel =>
      match read (read_fuel (64 * 1024)) r (64 * 1024) with
      | Some (Ok ((_ :: _) as out), r) => out ++ stream_all fuel r
      | _ => []
      end
  end.

Definition not_found : Reply := Refused 404 [].

(** The checked path of a request, its query, and the header that lets the page
    read the answer. *)
Record Target := MkTarget { tg_path : str; tg_query : option str; tg_acao : option str }.
Definition media_target (sv : Server) (t : Fs) (h : Head) : option Target :=
  acao ← result_ok (media_cors (h_origin h));
  '(_, rest) ← split_once slash (h_path h);
  '(url_token, enc_path) ← split_once slash rest;
  let '(enc_path, query) := match split_once 63 enc_path with Some (p, q) => (p, Some q) | None => (enc_path, None) end in
  if negb (constant_time_eq (as_bytes url_token) (as_bytes (sv_token sv))) then None else
  let file := percent_decode enc_path in
  let accounts_canon := default (accounts_dir sv) (canonicalize t (accounts_dir sv)) in
  let fpath_canon := default file (canonicalize t file) in
  if negb (path_starts_with fpath_canon accounts_canon) then None else
  Some (MkTarget fpath_canon query acao).

Definition serve_file (e : Env) (sv : Server) (t : Fs) (tg : Target) (range : option str) : Reply * Fs :=
  let serve_path := tg_path tg in
  match file_of t serve_path, open_attachment sv t serve_path with
  | Some (d, mtime), Some file =>
      let total := r_len file in
      let mime := guess_mime serve_path in
      let thumb := match thumb_width (tg_query tg) range mime with
                   | Some w => load_thumbnail e sv t serve_path (len d) mtime w
                   | None => (None, t)
                   end in
      match thumb with
      | (Some data, t) => (Jpeg (tg_acao tg) data, t)
      | (None, t) =>
          match range with
          | Some header =>
              match parse_range header total with
              | None => (Unsatisfiable (tg_acao tg) total, t)
              | Some (start, end_) =>
                  let take := (end_ - start + 1)%N in
                  match seek file (SeekStart start) with
                  | (Err _, _) => (not_found, t)
                  | (Ok _, file) =>
                      (Part mime (tg_acao tg) start end_ total (stream_range (S (N.to_nat take)) file take), t)
                  end
              end
          | None => (Whole mime (tg_acao tg) total (stream_all (S (N.to_nat total)) file), t)
          end
      end
  | _, _ => (not_found, t)
  end.

Definition serve_head (e : Env) (sv : Server) (t : Fs) (h : Head) : Reply * Fs :=
  match media_target sv t h with
  | None => (not_found, t)
  | Some tg => serve_file e sv t tg (h_range h)
  end.
Definition serve_media_connection (e : Env) (sv : Server) (t : Fs) (reads : list bytes) : Reply * Fs :=
  serve_head e sv t (parse_head (read_head [] reads)).

(** What goes down the socket, while it takes it. *)
Definition cors_header (acao : option str) : str :=
  match acao with
  | Some o => lit "Access-Control-Allow-Origin: " ++ o ++ CRLF ++ lit "Vary: Origin" ++ CRLF
  | None => []
  end.
Definition closing (length : N) : str :=
  lit "Content-Length: " ++ show_N length ++ CRLF ++ lit "Connection: close" ++ CRLF ++ CRLF.
Definition media_response (r : Reply) : bytes :=
  match r with
  | Refused _ _ | Probe => as_bytes (lit "HTTP/1.1 404 Not Found" ++ CRLF ++ closing 0)
  | Unsatisfiable acao len =>
      as_bytes (lit "HTTP/1.1 416 Range Not Satisfiable" ++ CRLF ++ cors_header acao
                ++ lit "Content-Range: bytes */" ++ show_N len ++ CRLF ++ closing 0)
  | Part mime acao start end_ len body =>
      as_bytes (lit "HTTP/1.1 206 Partial Content" ++ CRLF ++ lit "Content-Type: " ++ mime ++ CRLF
                ++ lit "Accept-Ranges: bytes" ++ CRLF ++ cors_header acao
                ++ lit "Content-Range: bytes " ++ show_N start ++ lit "-" ++ show_N end_ ++ lit "/" ++ show_N len ++ CRLF
                ++ closing (end_ - start + 1)) ++ body
  | Whole mime acao len body =>
      as_bytes (lit "HTTP/1.1 200 OK" ++ CRLF ++ lit "Content-Type: " ++ mime ++ CRLF
                ++ lit "Accept-Ranges: bytes" ++ CRLF ++ cors_header acao ++ closing len) ++ body
  | Jpeg acao body =>
      as_bytes (lit "HTTP/1.1 200 OK" ++ CRLF ++ lit "Content-Type: image/jpeg" ++ CRLF
                ++ lit "Accept-Ranges: bytes" ++ CRLF ++ cors_header acao ++ closing (len body)) ++ body
  end.

(** ** The blob protocol *)

(** The part of the URI behind the host. *)
Fixpoint after_host (uri : str) : option str :=
  match strip_prefix (lit "localhost/") uri with
  | Some rest => Some rest
  | None => match uri with [] => None | _ :: uri => after_host uri end
  end.

(** [query]: the query of the URI, as the [http] crate reads it. *)
Definition serve_blob_file (e : Env) (sv : Server) (t : Fs) (uri : str) (query range origin : option str) : Reply * Fs :=
  let refused msg := Refused 404 (lit msg) in
  match after_host uri with
  | None => (refused "bad uri", t)
  | Some rest =>
      let path_part := before_char 63 rest in
      let file := percent_decode path_part in
      if bool_decide (path_part = lit "__velta-probe") then (Probe, t) else
      match media_cors origin with
      | Err _ => (Refused 403 (lit "forbidden"), t)
      | Ok acao =>
          let accounts_canon := default (accounts_dir sv) (canonicalize t (accounts_dir sv)) in
          let fpath_canon := default file (canonicalize t file) in
          if negb (path_starts_with fpath_canon accounts_canon) then (refused "forbidden", t) else
          match file_of t fpath_canon with
          | None => (refused "not found", t)
          | Some (d, mtime) =>
              match open_attachment sv t fpath_canon with
              | None => (refused "read error", t)
              | Some reader =>
                  let total := r_len reader in
                  let mime := guess_mime fpath_canon in
                  let thumb := match thumb_width query range mime with
                               | Some w => load_thumbnail e sv t fpath_canon (len d) mtime w
                               | None => (None, t)
                               end in
                  match thumb with
                  | (Some data, t) => (Jpeg acao data, t)
                  | (None, t) =>
                      match range with
                      | Some header =>
                          match parse_range header total with
                          | None => (Unsatisfiable acao total, t)
                          | Some (start, end_) =>
                              let take := (end_ - start + 1)%N in
                              match r ← open_attachment sv t fpath_canon; res ← read_range (read_fuel take) r start take; result_ok res with
                              | Some buf => (Part mime acao start end_ total buf, t)
                              | None => (refused "read error", t)
                              end
                          end
                      | None =>
                          match read_attachment sv t fpath_canon with
                          | Some data => (Whole mime acao (len data) data, t)
                          | None => (refused "read error", t)
                          end
                      end
                  end
              end
          end
      end
  end.

(** ** Requests, characterised *)

Lemma constant_time_eq_spec a b : constant_time_eq a b = true ↔ a = b.
Proof.
  unfold constant_time_eq. destruct (Nat.eqb_spec (length a) (length b)) as [Hl|Hl]; cbn [negb];
    [|split; [done|by intros ->]].
  assert (∀ acc, (foldl (λ acc '(x, y), N.lor acc (N.lxor x y)) acc (zip a b) = 0 ↔ acc = 0 ∧ a = b)%N) as H.
  { revert b Hl. induction a as [|x a IH]; intros [|y b] Hl acc; try done; [cbn; naive_solver|].
    cbn [zip zip_with foldl]. rewrite IH by (cbn in Hl; lia). rewrite N.lor_eq_0_iff, N.lxor_eq_0_iff. naive_solver. }
  rewrite N.eqb_eq, H. naive_solver.
Qed.

Lemma parse_range_bounds header n a b : parse_range header n = Some (a, b) → (a ≤ b ∧ b < n)%N.
Proof.
  unfold parse_range, sat_sub. destruct (strip_prefix _ _) as [rest|]; [|done]. cbn [mbind option_bind].
  destruct (split_once _ rest) as [[s e]|]; [|done]. cbn [mbind option_bind]. destruct s as [|c s].
  - destruct (parse_below _ e) as [k|]; [|done]. cbn [mbind option_bind].
    destruct (N.eqb_spec k 0), (N.eqb_spec n 0); cbn [orb]; intros [= <- <-]; lia.
  - destruct (parse_below _ (c :: s)) as [k|]; [|done]. cbn [mbind option_bind].
    destruct (N.leb_spec n k); [done|]. destruct e as [|d e]; cbn [mbind option_bind].
    + destruct (N.ltb_spec (n - 1) k); intros [= <- <-]; lia.
    + destruct (parse_below _ (d :: e)) as [j|]; [|done]. cbn [mbind option_bind].
      destruct (N.ltb_spec (N.min j (n - 1)) k); intros [= <- <-]; lia.
Qed.

(** Ranges as RFC 9110 means them, without the parser: a text, and the places it
    asks for of [n] bytes. *)
Inductive Asked := Between (a b : N) | From (a : N) | Last (k : N).
Definition range_text (q : Asked) : str :=
  lit "bytes=" ++ match q with
  | Between a b => show_N a ++ lit "-" ++ show_N b
  | From a => show_N a ++ lit "-"
  | Last k => lit "-" ++ show_N k
  end.
Definition asks (q : Asked) (n i : N) : Prop :=
  (i < n)%N ∧ match q with Between a b => a ≤ i ∧ i ≤ b | From a => a ≤ i | Last k => n ≤ i + k end%N.
Definition asked_fits (q : Asked) : Prop :=
  match q with Between a b => a < u64_bound ∧ b < u64_bound | From a => a < u64_bound | Last k => k < u64_bound end%N.

Lemma parse_below_show bound n : (n < bound)%N → parse_below bound (show_N n) = Some n.
Proof.
  intros Hn. unfold parse_below. assert (strip_prefix (lit "+") (show_N n) = None) as ->.
  { destruct (strip_prefix _ _) as [s|] eqn:E; [|done]. apply strip_prefix_Some in E.
    pose proof (show_N_digits n) as Hd. rewrite E in Hd. apply Forall_cons in Hd as [[Hd _] _]. vm_compute in Hd. done. }
  cbn [from_option]. unfold id. pose proof (digits_value_show n) as Hv. destruct (show_N n) eqn:E.
  - cbn in Hv. injection Hv as <-. discriminate E.
  - rewrite Hv. cbn [mbind option_bind]. by rewrite (proj2 (N.ltb_lt _ _)).
Qed.
Lemma show_N_no_minus n : 45%N ∉ show_N n.
Proof. intros H. pose proof (show_N_digits n) as Hd. rewrite Forall_forall in Hd. specialize (Hd _ H). lia. Qed.
Lemma show_N_cons n : ∃ c s, show_N n = c :: s.
Proof.
  pose proof (digits_value_show n) as Hv. destruct (show_N n) as [|c s] eqn:E; [|by exists c, s].
  cbn in Hv. injection Hv as <-. discriminate E.
Qed.
Lemma trim_range q : trim (range_text q) = range_text q.
Proof.
  apply trim_id. assert (Hd : ∀ n, Forall (λ c, is_whitespace c = false) (show_N n)).
  { intros n. eapply Forall_impl; [apply show_N_digits|]. intros c Hc. cbn in Hc. apply not_true_iff_false.
    unfold is_whitespace. rewrite !orb_true_iff, !in_range_spec, !N.eqb_eq. lia. }
  unfold range_text. apply Forall_app. split; [repeat constructor|].
  destruct q; rewrite ?Forall_app; split_and?; try apply Hd; repeat constructor.
Qed.

(** The parser finds the first and the last place that is asked for. *)
Lemma parse_range_text q n : asked_fits q →
  match parse_range (range_text q) n with
  | Some (a, b) => ∀ i, (a ≤ i ∧ i ≤ b)%N ↔ asks q n i
  | None => ∀ i, ¬ asks q n i
  end.
Proof.
  intros Hq. unfold parse_range. rewrite trim_range. unfold range_text at 1.
  rewrite (proj2 (strip_prefix_Some _ _ _) eq_refl). cbn [mbind option_bind]. unfold sat_sub, asks.
  destruct q as [a b|a|k]; cbn [asked_fits] in Hq.
  - rewrite (proj2 (split_once_Some 45 _ (show_N a) (show_N b))) by (split; [done|apply show_N_no_minus]). cbn [mbind option_bind].
    destruct Hq as [Ha Hb]. destruct (show_N_cons a) as (c & s & Hc). rewrite Hc. rewrite <- Hc, (parse_below_show _ a) by done. cbn [mbind option_bind].
    destruct (N.leb_spec n a); [cbn; cbn; intros i; lia|]. destruct (show_N_cons b) as (c' & s' & Hc'). rewrite ?Hc', <- ?Hc', ?(parse_below_show _ b) by done.
    cbn [mbind option_bind]. destruct (N.ltb_spec (N.min b (n - 1)) a); cbn; intros i; lia.
  - rewrite (proj2 (split_once_Some 45 _ (show_N a) [])) by (split; [done|apply show_N_no_minus]). cbn [mbind option_bind].
    destruct (show_N_cons a) as (c & s & Hc). rewrite Hc. rewrite <- Hc, (parse_below_show _ a) by done. cbn [mbind option_bind].
    destruct (N.leb_spec n a); [cbn; cbn; intros i; lia|]. destruct (N.ltb_spec (n - 1) a); cbn; intros i; lia.
  - rewrite (proj2 (split_once_Some 45 _ [] (show_N k))) by (split; [done|apply not_elem_of_nil]). cbn [mbind option_bind].
    rewrite parse_below_show by done. cbn [mbind option_bind].
    destruct (N.eqb_spec k 0), (N.eqb_spec n 0); cbn [orb]; cbn; intros i; lia.
Qed.

(** The token of the address, and the path behind it. *)
Definition addressed (sv : Server) (h : Head) (enc : str) : Prop :=
  ∃ pre tok, h_path h = (pre ++ [slash] ++ tok ++ [slash] ++ enc) ∧ (slash ∉ pre) ∧ (slash ∉ tok) ∧ as_bytes tok = as_bytes (sv_token sv).

(** What the target of a request is, when it leads to a file. *)
Lemma media_target_file sv t h tg q d m :
  fs_ok t → resolve t (accounts_dir sv) = Some q →
  media_target sv t h = Some tg → file_of t (tg_path tg) = Some (d, m) →
  ∃ enc p, addressed sv h enc ∧ media_cors (h_origin h) = Ok (tg_acao tg) ∧
    resolve t (percent_decode (default enc (fst <$> split_once 63 enc))) = Some p ∧ tg_query tg = snd <$> split_once 63 enc ∧
    tg_path tg = show_path p ∧ canonical t p ∧ q `prefix_of` p ∧ file_at t p = Some (d, m).
Proof.
  intros Hok Hq. unfold media_target. destruct (media_cors (h_origin h)) as [acao|] eqn:Hc; [|done]. cbn [result_ok mbind option_bind].
  destruct (split_once slash (h_path h)) as [[pre rest]|] eqn:H1; [|done]. cbn [mbind option_bind].
  apply split_once_Some in H1 as [Hp Hpre].
  destruct (split_once slash rest) as [[tok enc]|] eqn:H2; [|done]. cbn [mbind option_bind].
  apply split_once_Some in H2 as [-> Htok].
  set (pq := match split_once 63 enc with Some (p, q) => (p, Some q) | None => (enc, None) end).
  assert (Hpq : pq = (default enc (fst <$> split_once 63 enc), snd <$> split_once 63 enc)) by by unfold pq; destruct (split_once 63 enc) as [[]|].
  rewrite Hpq. destruct (constant_time_eq _ _) eqn:Heq; cbn [negb]; [|done]. apply constant_time_eq_spec in Heq.
  set (file := percent_decode _). unfold canonicalize. rewrite Hq. cbn [fmap option_fmap option_map default].
  destruct (resolve t file) as [p|] eqn:Hr; cbn [fmap option_fmap option_map default].
  - apply resolve_canonical in Hr as Hcan; [|done]. apply resolve_canonical in Hq as Hcq; [|done].
    cbn [from_option id]. rewrite show_starts_with by (apply Hcan || apply Hcq). case_bool_decide as Hpref; cbn [negb]; [|done]. intros [= <-].
    cbn [tg_path tg_acao tg_query]. unfold file_of. rewrite resolve_show by done. cbn [mbind option_bind]. intros Hf.
    exists enc, p. split_and!; try done. by exists pre, tok.
  - cbn [from_option id]. destruct (negb _); [done|]. intros [= <-]. cbn [tg_path]. unfold file_of. by rewrite Hr.
Qed.

(** ** Bodies *)

Context {laws : AeadLaws}.

Lemma stream_range_stands p fuel : ∀ r pos n, stands_at r p pos → (pos + n ≤ len p)%N → N.to_nat n < fuel →
  stream_range fuel r n = slice pos n p.
Proof.
  induction fuel as [|fuel IH]; intros r pos n Hs Hle Hf; [lia|]. cbn [stream_range].
  destruct (N.eqb_spec n 0) as [->|Hn]; [unfold slice; by rewrite take_0|].
  destruct (read_stands r p pos (N.min (64 * 1024) n) Hs ltac:(lia)) as (r' & -> & Hs').
  set (k := N.min _ _) in *. assert (Hk : (k = N.min (64 * 1024) n)%N) by lia. clearbody k.
  assert (Hl : len (slice pos k p) = k) by (apply length_slice; unfold len in *; lia).
  destruct (slice pos k p) as [|c out] eqn:Hsl; [unfold len in Hl; cbn in Hl; lia|].
  rewrite (IH r' (pos + k)%N) by (done || lia). rewrite Hl.
  replace n with (k + (n - k))%N at 2 by lia. by rewrite slice_add, Hsl.
Qed.
Lemma stream_all_stands p fuel : ∀ r pos, stands_at r p pos → (pos ≤ len p)%N → N.to_nat (len p - pos) < fuel →
  stream_all fuel r = drop (N.to_nat pos) p.
Proof.
  induction fuel as [|fuel IH]; intros r pos Hs Hle Hf; [lia|]. cbn [stream_all].
  destruct (read_stands r p pos (64 * 1024) Hs ltac:(lia)) as (r' & -> & Hs').
  set (k := N.min _ _) in *. assert (Hk : (k = N.min (64 * 1024) (len p - pos))%N) by done. clearbody k.
  assert (Hl : len (slice pos k p) = k) by (apply length_slice; unfold len in *; lia).
  destruct (slice pos k p) as [|c out] eqn:Hsl.
  - unfold len in Hl. cbn in Hl. rewrite drop_ge; [done|]. unfold len in *. lia.
  - rewrite (IH r' (pos + k)%N) by (done || (unfold len in Hl; cbn [length] in Hl; lia)). rewrite <- Hsl. unfold slice.
    replace (drop (N.to_nat (pos + k)) p) with (drop (N.to_nat k) (drop (N.to_nat pos) p)) by (rewrite drop_drop; f_equal; lia).
    apply take_drop.
Qed.

(** The bytes that a request is to get of a plaintext. *)
Definition answer (mime : str) (acao : option str) (p : bytes) (range : option str) : Reply :=
  match range with
  | None => Whole mime acao (len p) p
  | Some header =>
      match parse_range header (len p) with
      | None => Unsatisfiable acao (len p)
      | Some (a, b) => Part mime acao a b (len p) (slice a (b - a + 1) p)
      end
  end.

Lemma open_attachment_holds sv t path d m p : file_of t path = Some (d, m) → holds (sv_key sv) d p →
  ∃ r, open_attachment sv t path = Some r ∧ stands_at r p 0 ∧ r_len r = len p.
Proof.
  intros Hf (r & Ho & Hs)%open_holds. exists r. unfold open_attachment. rewrite Hf. cbn [mbind option_bind]. rewrite Ho.
  split_and!; [done..|]. by apply stands_len in Hs as [].
Qed.
Lemma read_attachment_holds sv t path d m p : file_of t path = Some (d, m) → holds (sv_key sv) d p →
  read_attachment sv t path = Some p.
Proof.
  intros Hf Hh. destruct (open_attachment_holds _ _ _ _ _ _ Hf Hh) as (r & Ho & Hs & _). unfold read_attachment.
  rewrite Ho. cbn [mbind option_bind]. by rewrite (read_all_stands r p Hs).
Qed.

Lemma serve_file_holds e sv t tg range d m p :
  file_of t (tg_path tg) = Some (d, m) → holds (sv_key sv) d p →
  serve_file e sv t tg range =
    match thumb_width (tg_query tg) range (guess_mime (tg_path tg)) with
    | Some w => match load_thumbnail e sv t (tg_path tg) (len d) m w with
                | (Some data, t') => (Jpeg (tg_acao tg) data, t')
                | (None, t') => (answer (guess_mime (tg_path tg)) (tg_acao tg) p range, t')
                end
    | None => (answer (guess_mime (tg_path tg)) (tg_acao tg) p range, t)
    end.
Proof.
  intros Hf Hh. unfold serve_file. rewrite Hf. destruct (open_attachment_holds _ _ _ _ _ _ Hf Hh) as (r & -> & Hs & Hl).
  rewrite Hl. assert (∀ t' : Fs, match range with
    | Some header => match parse_range header (len p) with
        | None => (Unsatisfiable (tg_acao tg) (len p), t')
        | Some (start, end_) => match seek r (SeekStart start) with
            | (Err _, _) => (not_found, t')
            | (Ok _, file) => (Part (guess_mime (tg_path tg)) (tg_acao tg) start end_ (len p) (stream_range (S (N.to_nat (end_ - start + 1))) file (end_ - start + 1)), t')
            end
        end
    | None => (Whole (guess_mime (tg_path tg)) (tg_acao tg) (len p) (stream_all (S (N.to_nat (len p))) r), t')
    end = (answer (guess_mime (tg_path tg)) (tg_acao tg) p range, t')) as Hans.
  { intros t'. unfold answer. destruct range as [header|].
    - destruct (parse_range header (len p)) as [[a b]|] eqn:Hp; [|done]. apply parse_range_bounds in Hp.
      destruct (stands_seek r p 0 a Hs ltac:(lia)) as (r' & -> & Hs').
      rewrite (stream_range_stands p _ r' a) by (done || lia). done.
    - rewrite (stream_all_stands p _ r 0) by (done || lia). by rewrite drop_0. }
  destruct (thumb_width _ _ _); [|apply Hans]. destruct (load_thumbnail _ _ _ _ _ _ _) as [[data|] t']; [done|apply Hans].
Qed.

(** ** Writes *)

Lemma write_cases (e : Env) key t dir name b :
  write_attachment e key t dir name b = t ∨
  ∃ p d, resolve t dir = Some p ∧ is_dir (fs_nodes t) p ∧ fs_nodes t !! (p ++ [name]) ≠ Some Dir ∧
    write_attachment e key t dir name b = set_node (p ++ [name]) (File d (e_now e)) t ∧
    match key with
    | None => d = b
    | Some k => encrypt (encrypt_fuel (len b)) k (e_rand e) b (len b) = Some (Ok d)
    end.
Proof.
  unfold write_attachment. destruct (resolve t dir) as [p|]; [|by left].
  destruct (_ || _) eqn:Hb; [by left|]. apply orb_false_iff in Hb as [Hb1 Hb2].
  apply negb_false_iff, andb_true_iff in Hb1 as [_ Hd%bool_decide_eq_true]. apply bool_decide_eq_false in Hb2.
  destruct key as [k|]; [destruct (encrypt _ _ _ _ _) as [[d|]|] eqn:He; try by left|]; right; [exists p, d|exists p, b]; done.
Qed.
Lemma create_cases (e : Env) t parent name :
  create_dir e t parent name = t ∨
  ∃ p, resolve t parent = Some p ∧ is_dir (fs_nodes t) p ∧ fs_nodes t !! (p ++ [name]) = None ∧
    create_dir e t parent name = set_node (p ++ [name]) Dir t.
Proof.
  unfold create_dir. destruct (resolve t (join parent name)); [by left|]. destruct (resolve t parent) as [p|]; [|by left].
  destruct (_ && _) eqn:Hb; [|by left]. apply andb_true_iff in Hb as [[_ Hd%bool_decide_eq_true]%andb_true_iff Hn%bool_decide_eq_true].
  right. by exists p.
Qed.

Lemma fs_ok_keeps t q x : keeps (fs_nodes t) (fs_nodes (set_node q x t)) → fs_ok t → fs_ok (set_node q x t).
Proof.
  intros Hk [H1 H2]. split; [done|]. cbn [fs_cwd set_node]. intros q' r Heq Hq. specialize (H2 q' r Heq Hq). by apply Hk in H2.
Qed.
Lemma plain_thumbs : plain_name (lit "thumbs").
Proof. split_and!; [done..|]. unfold slash. cbn. set_solver by lia. Qed.

Lemma create_resolves t parent name p :
  fs_ok t → parent ≠ [] → plain_name name → resolve t parent = Some p → is_dir (fs_nodes t) p → fs_nodes t !! (p ++ [name]) = None →
  let t' := set_node (p ++ [name]) Dir t in
  fs_ok t' ∧ keeps (fs_nodes t) (fs_nodes t') ∧ resolve t' (join parent name) = Some (p ++ [name]).
Proof.
  intros Hok Hne Hn Hr Hd Hnone t'. assert (Hk : keeps (fs_nodes t) (fs_nodes t')) by (apply keeps_insert; by rewrite Hnone).
  assert (Hok' : fs_ok t') by by apply fs_ok_keeps. split_and!; [done..|].
  pose proof (resolve_join t' parent p name Hok' Hne (resolve_keeps t t' parent p eq_refl Hk Hr) (keeps_dirs _ _ _ Hk Hd) Hn) as H.
  unfold t' in H at 1. cbn [fs_nodes set_node] in H. by rewrite lookup_insert_eq in H.
Qed.

(** Where thumbnails are written. *)
Definition in_thumbs (sv : Server) (t : Fs) (name : str) (x : list str) : Prop :=
  ∃ p, (resolve t (thumbs_dir sv) = Some p ∧ x = p ++ [name]) ∨
       (resolve t (sv_dir sv) = Some p ∧ (x = p ++ [lit "thumbs"] ∨ x = p ++ [lit "thumbs"; name])).

Lemma changed_node q n t x : fs_nodes (set_node q n t) !! x ≠ fs_nodes t !! x → x = q.
Proof. cbn. intros H. destruct (decide (q = x)) as [->|Hne]; [done|]. by rewrite lookup_insert_ne in H. Qed.

Lemma write_changes (e : Env) sv t name b x :
  fs_nodes (write_attachment e (sv_key sv) t (thumbs_dir sv) name b) !! x ≠ fs_nodes t !! x → in_thumbs sv t name x.
Proof.
  destruct (write_cases e (sv_key sv) t (thumbs_dir sv) name b) as [->|(p & d & Hr & _ & _ & -> & _)]; [done|].
  intros ->%changed_node. exists p. by left.
Qed.

Lemma load_changes (e : Env) sv t source l m w x :
  fs_ok t → sv_dir sv ≠ [] →
  fs_nodes (snd (load_thumbnail e sv t source l m w)) !! x ≠ fs_nodes t !! x → in_thumbs sv t (thumb_name source l m w) x.
Proof.
  intros Hok Hne. unfold load_thumbnail. set (name := thumb_name source l m w).
  assert (Hgen : ∀ thumb, fs_nodes (write_attachment e (sv_key sv) (create_dir e t (sv_dir sv) (lit "thumbs")) (thumbs_dir sv) name thumb) !! x ≠ fs_nodes t !! x → in_thumbs sv t name x).
  { intros thumb. destruct (create_cases e t (sv_dir sv) (lit "thumbs")) as [->|(p & Hr & Hd & Hn & ->)]; [apply write_changes|].
    destruct (create_resolves t _ _ p Hok Hne plain_thumbs Hr Hd Hn) as (_ & _ & Hr'). set (t' := set_node _ Dir t) in *.
    destruct (decide (fs_nodes t' !! x = fs_nodes t !! x)) as [Heq|Hx%changed_node]; [|intros _; exists p; right; auto].
    rewrite <- Heq. intros [p' [[Hp' ->]|[Hp' Hx]]]%write_changes.
    - unfold thumbs_dir in Hp'. rewrite Hr' in Hp'. injection Hp' as <-. exists p. right. split; [done|]. right. by rewrite <- app_assoc.
    - exists p. right. split; [done|]. rewrite (resolve_keeps t t' (sv_dir sv) p) in Hp'; [by injection Hp' as <-|done| |done].
      apply keeps_insert. by rewrite Hn. }
  destruct (read_attachment sv t (thumb_cache_path _ _ _ _ _)) as [data|].
  - case_bool_decide; cbn [snd].
    + destruct (_ && _); [apply write_changes|done].
    + destruct (_ ← _; _) as [thumb|]; [apply Hgen|done].
  - destruct (_ ← _; _) as [thumb|]; [apply Hgen|done].
Qed.

Lemma load_none e sv t source l m w t' : load_thumbnail e sv t source l m w = (None, t') → t' = t.
Proof.
  unfold load_thumbnail. destruct (read_attachment _ _ (thumb_cache_path _ _ _ _ _)); [case_bool_decide; [done|]|];
    destruct (_ ← _; _); by intros [= <-].
Qed.

Lemma serve_file_changes e sv t tg range :
  snd (serve_file e sv t tg range) = t ∨
  ∃ d m w data, thumb_width (tg_query tg) range (guess_mime (tg_path tg)) = Some w ∧ file_of t (tg_path tg) = Some (d, m) ∧
    load_thumbnail e sv t (tg_path tg) (len d) m w = (Some data, snd (serve_file e sv t tg range)) ∧
    fst (serve_file e sv t tg range) = Jpeg (tg_acao tg) data.
Proof.
  unfold serve_file. destruct (file_of t (tg_path tg)) as [[d m]|]; [|by left]. destruct (open_attachment _ _ _) as [r|]; [|by left].
  assert (∀ t', snd (match range with
    | Some header => match parse_range header (r_len r) with
        | None => (Unsatisfiable (tg_acao tg) (r_len r), t')
        | Some (start, end_) => match seek r (SeekStart start) with
            | (Err _, _) => (not_found, t')
            | (Ok _, file) => (Part (guess_mime (tg_path tg)) (tg_acao tg) start end_ (r_len r) (stream_range (S (N.to_nat (end_ - start + 1))) file (end_ - start + 1)), t')
            end
        end
    | None => (Whole (guess_mime (tg_path tg)) (tg_acao tg) (r_len r) (stream_all (S (N.to_nat (r_len r))) r), t')
    end) = t' :> Fs) as Hsnd.
  { intros t'. destruct range as [h|]; [|done]. destruct (parse_range _ _) as [[a b]|]; [|done]. by destruct (seek _ _) as [[]]. }
  destruct (thumb_width _ _ _) as [w|]; [|left; apply Hsnd].
  destruct (load_thumbnail e sv t (tg_path tg) (len d) m w) as [[data|] t'] eqn:Hl; [right; by exists d, m, w, data|].
  left. rewrite Hsnd. by apply load_none in Hl.
Qed.

(** ** The properties *)

(** What an answer may consist of when the checked path is [path], with the
    content [d] and the time [m]: the length and the bytes that the attachment
    reader gives of that file, or its thumbnail, made now or kept from before. *)
Definition comes_from (sv : Server) (t : Fs) (path : str) (d : bytes) (m : N) (reply : Reply) : Prop :=
  ∃ r, open d (sv_key sv) = Ok r ∧
  match reply with
  | Whole _ _ n body => n = r_len r ∧ body = stream_all (S (N.to_nat n)) r
  | Part _ _ a b n body =>
      n = r_len r ∧ (a ≤ b ∧ b < n)%N ∧
      body = stream_range (S (N.to_nat (b - a + 1))) (snd (seek r (SeekStart a))) (b - a + 1)
  | Unsatisfiable _ n => n = r_len r
  | Jpeg _ data => ∃ w,
      read_attachment sv t (thumb_cache_path sv path (len d) m w) = Some data ∨
      (∃ b, read_attachment sv t path = Some b ∧ generate_thumbnail b w = Some data)
  | Refused _ _ => reply = not_found
  | Probe => False
  end.
(** The same when the file is undamaged and stands for [b]. *)
Definition shows (sv : Server) (t : Fs) (path : str) (d : bytes) (m : N) (b : bytes) (reply : Reply) : Prop :=
  match reply with
  | Whole _ _ n body => n = len b ∧ body = b
  | Part _ _ first last n body => n = len b ∧ (first ≤ last ∧ last < n)%N ∧ body = slice first (last - first + 1) b
  | Unsatisfiable _ n => n = len b
  | Jpeg _ data => ∃ w, read_attachment sv t (thumb_cache_path sv path (len d) m w) = Some data ∨ generate_thumbnail b w = Some data
  | Refused _ _ | Probe => False
  end.

Lemma load_from e sv t source l m w data t' : load_thumbnail e sv t source l m w = (Some data, t') →
  read_attachment sv t (thumb_cache_path sv source l m w) = Some data ∨
  ∃ b, read_attachment sv t source = Some b ∧ generate_thumbnail b w = Some data.
Proof.
  unfold load_thumbnail.
  assert (Hgen : ∀ f, match original ← read_attachment sv t source; generate_thumbnail original w with
    | None => (None, t) | Some thumb => (Some thumb, f thumb) end = (Some data, t') →
    ∃ b, read_attachment sv t source = Some b ∧ generate_thumbnail b w = Some data).
  { intros f. destruct (read_attachment sv t source) as [b|]; [|done]. cbn [mbind option_bind].
    destruct (generate_thumbnail b w) as [thumb|] eqn:Hg; [|done]. intros [= <- _]. by exists b. }
  destruct (read_attachment sv t (thumb_cache_path sv source l m w)) as [hit|]; [case_bool_decide|].
  - intros [= <- _]. by left.
  - intros H0%Hgen. by right.
  - intros H0%Hgen. by right.
Qed.
Lemma serve_file_comes e sv t tg range d m :
  file_of t (tg_path tg) = Some (d, m) → is_ok (open d (sv_key sv)) = true →
  comes_from sv t (tg_path tg) d m (fst (serve_file e sv t tg range)).
Proof.
  intros Hf Ho. destruct (open d (sv_key sv)) as [r|] eqn:Hr; [|done]. exists r. split; [exact Hr|].
  unfold serve_file, open_attachment. rewrite Hf. cbn [mbind option_bind]. rewrite Hr. cbn [result_ok].
  destruct (match thumb_width _ _ _ with Some w => _ | None => _ end) as [[data|] t'] eqn:Hth.
  { destruct (thumb_width _ _ _) as [w|]; [|done]. exists w. by eapply load_from. }
  destruct range as [header|]; [|done]. destruct (parse_range header (r_len r)) as [[a b]|] eqn:Hp; [|done].
  apply parse_range_bounds in Hp. destruct (seek r (SeekStart a)) as [[] r'] eqn:Hs; [|done]. cbn. by rewrite Hs.
Qed.
Lemma serve_file_shows e sv t tg range d m b :
  file_of t (tg_path tg) = Some (d, m) → holds (sv_key sv) d b →
  shows sv t (tg_path tg) d m b (fst (serve_file e sv t tg range)).
Proof.
  intros Hf Hh. rewrite (serve_file_holds e sv t tg range d m b Hf Hh).
  assert (Hans : ∀ mime acao, shows sv t (tg_path tg) d m b (answer mime acao b range)).
  { intros mime acao. unfold answer. destruct range as [header|]; [|done].
    destruct (parse_range header (len b)) as [[x y]|] eqn:Hp; [|done]. by apply parse_range_bounds in Hp. }
  destruct (thumb_width _ _ _) as [w|]; [|apply Hans].
  destruct (load_thumbnail _ _ _ _ _ _ _) as [[data|] t'] eqn:Hl; [|apply Hans]. exists w. apply load_from in Hl as [Hl|(b' & Hb & Hl)]; [by left|].
  rewrite (read_attachment_holds _ _ _ _ _ _ Hf Hh) in Hb. injection Hb as <-. by right.
Qed.

(** [C22]: Whatever bytes come in, the media server either refuses, touching
    nothing, or the request named this launch's token and no foreign origin (the
    last line of that name counts, which can be one of a body that came with the
    head), its path leads, links followed, to a regular file inside the accounts
    directory, which opens as an attachment, and the answer is what the reader gives
    of that file or its thumbnail: of an undamaged file, its content.  All that it
    ever writes are thumbnails. *)
Theorem media_confined e sv t reads q :
  fs_ok t → sv_dir sv ≠ [] → resolve t (accounts_dir sv) = Some q →
  let h := parse_head (read_head [] reads) in
  let '(reply, t') := serve_media_connection e sv t reads in
  (reply = not_found ∧ t' = t) ∨
  ∃ enc p d m, addressed sv h enc ∧ is_ok (media_cors (h_origin h)) = true ∧
    resolve t (percent_decode (default enc (fst <$> split_once 63 enc))) = Some p ∧
    q `prefix_of` p ∧ canonical t p ∧ file_at t p = Some (d, m) ∧
    comes_from sv t (show_path p) d m reply ∧
    (∀ b, holds (sv_key sv) d b → shows sv t (show_path p) d m b reply) ∧
    ∀ x, fs_nodes t' !! x ≠ fs_nodes t !! x → ∃ w, in_thumbs sv t (thumb_name (show_path p) (len d) m w) x.
Proof.
  intros Hok Hne Hq h. destruct (serve_media_connection e sv t reads) as [reply t'] eqn:Hs.
  unfold serve_media_connection, serve_head in Hs. fold h in Hs.
  destruct (media_target sv t h) as [tg|] eqn:Htg; [|injection Hs as <- <-; by left].
  destruct (file_of t (tg_path tg)) as [[d m]|] eqn:Hf; [|unfold serve_file in Hs; rewrite Hf in Hs; injection Hs as <- <-; by left].
  destruct (open_attachment sv t (tg_path tg)) as [r|] eqn:Ho; [|unfold serve_file in Hs; rewrite Hf, Ho in Hs; injection Hs as <- <-; by left].
  right. destruct (media_target_file _ _ _ _ _ _ _ Hok Hq Htg Hf) as (enc & p & Ha & Hc & Hr & _ & Hp & Hcan & Hpre & Hfile).
  exists enc, p, d, m. unfold open_attachment in Ho. rewrite Hf in Ho. cbn [mbind option_bind] in Ho. rewrite <- Hp.
  assert (Hreply : reply = fst (serve_file e sv t tg (h_range h))) by by rewrite Hs.
  split_and!; try done.
  - by rewrite Hc.
  - rewrite Hreply. apply serve_file_comes; [done|]. by destruct (open d (sv_key sv)).
  - intros b Hb. rewrite Hreply. by apply serve_file_shows.
  - destruct (serve_file_changes e sv t tg (h_range h)) as [Heq|(d' & m' & w & data & _ & Hf' & Hl & _)]; rewrite Hs in *; cbn [snd] in *;
      [by subst|]. rewrite Hf in Hf'. injection Hf' as <- <-. intros x Hx. exists w.
    apply (load_changes e); [done|done|]. by rewrite Hl.
Qed.

(** [C23]: A request for a file that stands for a plaintext, plain or encrypted,
    and not for a thumbnail, gets exactly what it asks for: without a range the whole
    file; for bytes=a-b, bytes=a- and bytes=-k (numbers below 2^64) the bytes from
    the first to the last place of the file that the range means, or word that there
    are none.  For every other range text the length and the place announced are
    those of the bytes that follow. *)
Theorem media_bytes e sv t h tg d m p :
  media_target sv t h = Some tg → file_of t (tg_path tg) = Some (d, m) → holds (sv_key sv) d p →
  thumb_width (tg_query tg) (h_range h) (guess_mime (tg_path tg)) = None →
  (serve_head e sv t h).2 = t ∧
  (h_range h = None → (serve_head e sv t h).1 = Whole (guess_mime (tg_path tg)) (tg_acao tg) (len p) p) ∧
  (∀ q, h_range h = Some (range_text q) → asked_fits q →
    match (serve_head e sv t h).1 with
    | Part mime acao a b n body =>
        mime = guess_mime (tg_path tg) ∧ acao = tg_acao tg ∧ n = len p ∧ (a ≤ b)%N ∧
        (∀ i, (a ≤ i ∧ i ≤ b)%N ↔ asks q (len p) i) ∧ body = slice a (b - a + 1) p
    | Unsatisfiable acao n => acao = tg_acao tg ∧ n = len p ∧ ∀ i, ¬ asks q (len p) i
    | _ => False
    end) ∧
  match (serve_head e sv t h).1 with
  | Part _ _ a b n body => (a ≤ b ∧ b < n ∧ n = len p)%N ∧ len body = (b - a + 1)%N ∧ body `prefix_of` drop (N.to_nat a) p
  | Whole _ _ n body => n = len body ∧ body = p
  | Unsatisfiable _ n => n = len p
  | _ => False
  end.
Proof.
  intros Htg Hf Hh Hw. assert (serve_head e sv t h = (answer (guess_mime (tg_path tg)) (tg_acao tg) p (h_range h), t)) as Hs.
  { unfold serve_head. rewrite Htg. rewrite (serve_file_holds e sv t tg _ d m p Hf Hh). by rewrite Hw. }
  rewrite Hs. cbn [fst snd]. unfold answer. split; [done|]. split; [by intros ->|]. split.
  - intros q Hq Hfit. rewrite Hq. pose proof (parse_range_text q (len p) Hfit) as Hp.
    destruct (parse_range _ (len p)) as [[a b]|] eqn:Hr; [|done]. apply parse_range_bounds in Hr. split_and!; try done; lia.
  - destruct (h_range h) as [r|]; [|done].
    destruct (parse_range r (len p)) as [[a b]|] eqn:Hp; [|done]. apply parse_range_bounds in Hp.
    split; [lia|]. split; [apply length_slice; unfold len in *; lia|apply prefix_take].
Qed.

(** The same answer, up to how a refusal of the same status is worded. *)
Definition same_answer (r r' : Reply) : Prop :=
  r = r' ∨ match r, r' with Refused s _, Refused s' _ => s = s' | _, _ => False end.

Lemma before_char_split c s : before_char c s = default s (fst <$> split_once c s).
Proof.
  induction s as [|x s IH]; [done|]. cbn [before_char]. rewrite split_once_cons. destruct (x =? c)%N; [done|]. rewrite IH.
  by destruct (split_once c s) as [[]|].
Qed.

Lemma blob_file_holds e sv t uri enc query range origin acao q p :
  fs_ok t → resolve t (accounts_dir sv) = Some q → after_host uri = Some enc → before_char 63 enc ≠ lit "__velta-probe" →
  media_cors origin = Ok acao →
  let path := default (percent_decode (before_char 63 enc)) (canonicalize t (percent_decode (before_char 63 enc))) in
  path_starts_with path (show_path q) = true → ∀ d m, file_of t path = Some (d, m) → holds (sv_key sv) d p →
  serve_blob_file e sv t uri query range origin = serve_file e sv t (MkTarget path query acao) range.
Proof.
  intros Hok Hq Hu Hprobe Hc path Hpre d m Hf Hh. rewrite (serve_file_holds e sv t _ range d m p) by done.
  unfold serve_blob_file. rewrite Hu, bool_decide_false by done. rewrite Hc.
  assert (canonicalize t (accounts_dir sv) = Some (show_path q)) as -> by (unfold canonicalize; by rewrite Hq).
  cbn [from_option]. unfold id at 2. fold path. rewrite Hpre. cbn [negb]. rewrite Hf.
  destruct (open_attachment_holds _ _ _ _ _ _ Hf Hh) as (r & Ho & Hs & Hl). rewrite Ho at 1. rewrite Hl. cbn [tg_path tg_acao tg_query].
  assert (match range with
    | Some header => match parse_range header (len p) with
        | None => (Unsatisfiable acao (len p), t)
        | Some (start, end_) =>
            match r ← open_attachment sv t path; res ← read_range (read_fuel (end_ - start + 1)) r start (end_ - start + 1); result_ok res with
            | Some buf => (Part (guess_mime path) acao start end_ (len p) buf, t)
            | None => (Refused 404 (lit "read error"), t)
            end
        end
    | None => match read_attachment sv t path with
        | Some data => (Whole (guess_mime path) acao (len data) data, t)
        | None => (Refused 404 (lit "read error"), t)
        end
    end = (answer (guess_mime path) acao p range, t)) as Hans.
  { unfold answer. rewrite (read_attachment_holds _ _ _ _ _ _ Hf Hh), Ho. destruct range as [header|]; [|done].
    destruct (parse_range header (len p)) as [[a b]|] eqn:Hp; [|done]. apply parse_range_bounds in Hp.
    cbn [mbind option_bind]. rewrite (read_range_stands r p 0 a) by (done || lia). done. }
  destruct (thumb_width _ _ _) as [n|]; [|exact Hans].
  destruct (load_thumbnail e sv t path (len d) m n) as [[data|] t'] eqn:Hld; [done|].
  apply load_none in Hld as ->. exact Hans.
Qed.

Lemma media_target_path sv t enc range origin q :
  resolve t (accounts_dir sv) = Some q → slash ∉ sv_token sv →
  media_target sv t (MkHead ([slash] ++ sv_token sv ++ [slash] ++ enc) range origin) =
    match media_cors origin with
    | Err _ => None
    | Ok acao =>
        let file := percent_decode (before_char 63 enc) in
        let path := default file (canonicalize t file) in
        if path_starts_with path (show_path q) then Some (MkTarget path (snd <$> split_once 63 enc) acao) else None
    end.
Proof.
  intros Hq Hs. unfold media_target. cbn [h_origin h_path]. destruct (media_cors origin) as [acao|]; [|done].
  cbn [result_ok mbind option_bind]. rewrite (proj2 (split_once_Some slash _ [] _)) by (split; [done|set_solver]).
  cbn [mbind option_bind]. rewrite (proj2 (split_once_Some slash _ (sv_token sv) enc)) by done. cbn [mbind option_bind].
  rewrite (proj2 (constant_time_eq_spec _ _) eq_refl).
  assert (canonicalize t (accounts_dir sv) = Some (show_path q)) as -> by (unfold canonicalize; by rewrite Hq).
  rewrite before_char_split. destruct (split_once 63 enc) as [[a b]|]; cbn [negb from_option fmap option_fmap option_map fst snd]; unfold id;
    by destruct (path_starts_with _ _).
Qed.

(** ** Thumbnails are kept *)

Context {ilaws : ImagesLaws}.

(** The key, if there is one, and the random bytes do for this plaintext. *)
Definition key_fits (key : option bytes) (e : Env) (b : bytes) : Prop :=
  ∀ k, key = Some k → length k = 32 ∧ wf_rng (e_rand e) ∧ fits (len b).

Lemma encrypt_holds key e b d : key_fits key e b →
  match key with None => is_encrypted b = false ∧ d = b | Some k => encrypt (encrypt_fuel (len b)) k (e_rand e) b (len b) = Some (Ok d) end →
  holds key d b.
Proof.
  intros Hkey. destruct key as [k|]; [intros He; right|intros [Hb ->]; by left]. destruct (Hkey k eq_refl) as (Hk & Hr & Hf).
  destruct (encrypt_result k (e_rand e) b (len b) Hr Hk) as [(_ & d' & He' & Hc)|[[? _]|[? _]]]; [unfold fits in Hf; lia| |unfold len in *; lia..].
  rewrite He' in He. injection He as <-. by exists k, (e_rand e).
Qed.
Lemma jpeg_plain b : take 2 b = [255; 216]%N → is_encrypted b = false.
Proof. intros Hb. apply bool_decide_eq_false. intros Hm. destruct b as [|x [|y b]]; try done. cbn in Hb. injection Hb as -> ->. done. Qed.

Lemma generated_magic b w thumb : generate_thumbnail b w = Some thumb → take 2 thumb = [255; 216]%N.
Proof.
  unfold generate_thumbnail. destruct (decode_image b) as [i|]; [|done]. cbn [mbind option_bind].
  destruct (image_size i) as [x y]. destruct (_ && _); [done|]. apply jpeg_magic.
Qed.

Lemma plain_thumb_name source l m w : plain_name (thumb_name source l m w).
Proof.
  unfold thumb_name. set (h := hexlower _). assert (Hh : slash ∉ h) by apply hex_plain. clearbody h. split_and!.
  - by destruct h.
  - intros Hx%(f_equal length). rewrite length_app in Hx. cbn in Hx. lia.
  - intros Hx%(f_equal length). rewrite length_app in Hx. cbn in Hx. lia.
  - intros [?|Hin]%elem_of_app; [done|]. revert Hin. unfold slash. cbn. set_solver by lia.
Qed.

(** A write that took effect is what the next read finds. *)
Lemma write_read e sv t name b p :
  fs_ok t → key_fits (sv_key sv) e b → plain_name name → take 2 b = [255; 216]%N →
  (∀ q target, fs_nodes t !! (q ++ [name]) ≠ Some (Link target)) → resolve t (thumbs_dir sv) = Some p → is_dir (fs_nodes t) p →
  let t' := write_attachment e (sv_key sv) t (thumbs_dir sv) name b in
  read_attachment sv t' (join (thumbs_dir sv) name) = Some b ∨ (t' = t ∧ (e_disk e = false ∨ fs_nodes t !! (p ++ [name]) = Some Dir)).
Proof.
  intros Hok Hkey Hn Hb Hlink Hr Hd t'.
  assert (Hread : ∀ d, holds (sv_key sv) d b → fs_nodes t !! (p ++ [name]) ≠ Some Dir →
    read_attachment sv (set_node (p ++ [name]) (File d (e_now e)) t) (join (thumbs_dir sv) name) = Some b).
  { intros d Hh Hnd. set (t1 := set_node _ _ t). assert (Hk : keeps (fs_nodes t) (fs_nodes t1)).
    { apply keeps_insert. destruct (fs_nodes t !! (p ++ [name])) as [[]|] eqn:Hx; try done; [eauto|by apply Hlink in Hx]. }
    opose proof* (resolve_join t1 (thumbs_dir sv) p name (fs_ok_keeps _ _ _ Hk Hok)) as H.
    { unfold thumbs_dir, join. by destruct (sv_dir sv). }
    { by apply (resolve_keeps t). } { by apply (keeps_dirs (fs_nodes t)). } { done. }
    unfold t1 in H at 1. cbn [fs_nodes set_node] in H. rewrite lookup_insert_eq in H.
    apply (read_attachment_holds sv t1 _ d (e_now e)); [|done]. unfold file_of. rewrite H. cbn [mbind option_bind].
    unfold file_at, t1. cbn [fs_nodes set_node]. by rewrite lookup_insert_eq. }
  unfold t', write_attachment. rewrite Hr. destruct (_ || _) eqn:Hg.
  { right. split; [done|]. apply orb_true_iff in Hg as [Hg%negb_true_iff|Hg%bool_decide_eq_true]; [|by right].
    apply andb_false_iff in Hg as [?|Hg%bool_decide_eq_false]; [by left|done]. }
  apply orb_false_iff in Hg as [_ Hg%bool_decide_eq_false]. left. destruct (sv_key sv) as [k|] eqn:Hsv.
  - destruct (Hkey k eq_refl) as (Hk & Hrng & Hf).
    destruct (encrypt_result k (e_rand e) b (len b) Hrng Hk) as [(_ & d & He & _)|[[? _]|[? _]]]; [unfold fits in Hf; lia| |unfold len in *; lia..].
    rewrite He. apply Hread; [|done]. by apply (encrypt_holds (Some k) e).
  - apply Hread; [|done]. apply (encrypt_holds None e); [done|]. split; [by apply jpeg_plain|done].
Qed.

Lemma load_env e e' sv t source l m w : fst (load_thumbnail e sv t source l m w) = fst (load_thumbnail e' sv t source l m w).
Proof.
  unfold load_thumbnail. destruct (read_attachment _ _ (thumb_cache_path _ _ _ _ _)); [case_bool_decide; [done|]|];
    by destruct (_ ← _; _).
Qed.
Lemma load_hit e sv t source l m w data :
  read_attachment sv t (thumb_cache_path sv source l m w) = Some data → take 2 data = [255; 216]%N →
  fst (load_thumbnail e sv t source l m w) = Some data.
Proof. intros Hr Hb. unfold load_thumbnail. by rewrite Hr, bool_decide_true. Qed.
Lemma load_miss e sv t source l m w b :
  read_attachment sv t (thumb_cache_path sv source l m w) = None → read_attachment sv t source = Some b →
  fst (load_thumbnail e sv t source l m w) = generate_thumbnail b w.
Proof. intros Hr Hb. unfold load_thumbnail. rewrite Hr, Hb. cbn [mbind option_bind]. by destruct (generate_thumbnail b w). Qed.

Lemma write_kept (e : Env) sv t name data b :
  fs_ok t → key_fits (sv_key sv) e data → plain_name name → take 2 data = [255; 216]%N →
  (∀ q target, fs_nodes t !! (q ++ [name]) ≠ Some (Link target)) →
  write_attachment e (sv_key sv) t (thumbs_dir sv) name data = b →
  b = t ∨ read_attachment sv b (join (thumbs_dir sv) name) = Some data.
Proof.
  intros Hok Hkey Hn Hd Hlink <-. destruct (write_cases e (sv_key sv) t (thumbs_dir sv) name data) as [|(p & _ & Hr & Hdir & _)]; [by left|].
  destruct (write_read e sv t name data p) as [?|[? _]]; auto.
Qed.

(** A file that is read before the directory is made is read after. *)
Lemma read_after_dir sv t q source b : fs_nodes t !! q = None → read_attachment sv t source = Some b →
  read_attachment sv (set_node q Dir t) source = Some b.
Proof.
  intros Hq. assert (Hk : keeps (fs_nodes t) (fs_nodes (set_node q Dir t))) by (apply keeps_insert; by rewrite Hq).
  unfold read_attachment, open_attachment, file_of. destruct (resolve t source) as [s|] eqn:Hs; [|done].
  rewrite (resolve_keeps t (set_node q Dir t) source s eq_refl Hk Hs). cbn [mbind option_bind]. unfold file_at.
  destruct (fs_nodes t !! s) as [[d0 m0| |]|] eqn:Hnode; try done.
  cbn [fs_nodes set_node]. rewrite lookup_insert_ne by congruence. by rewrite Hnode.
Qed.

Lemma create_disk (e : Env) t parent name p : resolve t parent = Some p → fs_nodes t !! (p ++ [name]) = None →
  create_dir e t parent name = set_node (p ++ [name]) Dir t → e_disk e = true.
Proof.
  intros Hr Hn. unfold create_dir. rewrite Hr. destruct (e_disk e); [done|]. intros Heq.
  apply (f_equal (λ x, fs_nodes x !! (p ++ [name]))) in Heq. cbn [fs_nodes set_node] in Heq. rewrite lookup_insert_eq in Heq.
  destruct (resolve t (join _ _)); cbn [andb] in Heq; congruence.
Qed.

(** The directory of thumbnails is made, and the write into it does not work. *)
Lemma cache_is_dir sv t name p : fs_ok t → plain_name name → resolve t (thumbs_dir sv) = Some p → is_dir (fs_nodes t) p →
  fs_nodes t !! (p ++ [name]) = Some Dir → read_attachment sv t (join (thumbs_dir sv) name) = None.
Proof.
  intros Hok Hn Hr Hd Hx. unfold read_attachment, open_attachment, file_of. opose proof* (resolve_join t (thumbs_dir sv) p name Hok) as H; try done.
  { unfold thumbs_dir, join. by destruct (sv_dir sv). }
  rewrite Hx in H. rewrite H. cbn [mbind option_bind]. unfold file_at. by rewrite Hx.
Qed.

Section Kept.
Context (e e' : Env) (sv : Server) (t : Fs) (source : str) (l m w : N) (data : bytes).
Let name := thumb_name source l m w.
Context (Hok : fs_ok t) (Hne : sv_dir sv ≠ []) (Hlink : ∀ q target, fs_nodes t !! (q ++ [name]) ≠ Some (Link target))
  (Hkey : key_fits (sv_key sv) e data).

Lemma generated_kept b t' :
  read_attachment sv t source = Some b → generate_thumbnail b w = Some data → fst (load_thumbnail e' sv t source l m w) = Some data →
  write_attachment e (sv_key sv) (create_dir e t (sv_dir sv) (lit "thumbs")) (thumbs_dir sv) name data = t' →
  fst (load_thumbnail e' sv t' source l m w) = Some data.
Proof.
  intros Hb Hg Hfirst Ht'. apply generated_magic in Hg as Hd. pose proof (plain_thumb_name source l m w) as Hplain. fold name in Hplain.
  destruct (create_cases e t (sv_dir sv) (lit "thumbs")) as [Hc|(p & Hr & Hdir & Hnone & Hc)]; rewrite Hc in Ht'.
  { destruct (write_kept e sv t name data t') as [->|?]; auto. by apply load_hit. }
  destruct (create_resolves t _ _ p Hok Hne plain_thumbs Hr Hdir Hnone) as (Hok1 & _ & Hr1).
  set (t1 := set_node _ Dir t) in *.
  assert (Hthumbs : is_dir (fs_nodes t1) (p ++ [lit "thumbs"])).
  { right. unfold t1. cbn [fs_nodes set_node]. by rewrite lookup_insert_eq. }
  destruct (write_read e sv t1 name data (p ++ [lit "thumbs"])) as [Hhit|(Hsame & Hwhy)]; try done.
  { intros q target. unfold t1. cbn [fs_nodes set_node]. intros [[_ ?]|[_ ?]]%lookup_insert_Some; [done|by eapply Hlink]. }
  { rewrite Ht' in Hhit. by apply load_hit. }
  rewrite Ht' in Hsame. subst t'. destruct Hwhy as [Hdisk|Hisdir]; [by rewrite (create_disk e t _ _ p Hr Hnone Hc) in Hdisk|].
  rewrite Hsame, (load_miss e' sv t1 _ _ _ _ b); [done|by apply (cache_is_dir sv t1 name (p ++ [lit "thumbs"]))|by apply read_after_dir].
Qed.

(** A thumbnail is a JPEG, and asking for it again gives the same bytes,
    whether the first answer came from the cache, could be written there (in the
    clear or encrypted), or not: the image is scaled once. *)
Theorem thumb_kept t' :
  load_thumbnail e sv t source l m w = (Some data, t') →
  take 2 data = [255; 216]%N ∧ fst (load_thumbnail e' sv t' source l m w) = Some data.
Proof.
  intros Hload. assert (Hfirst : fst (load_thumbnail e' sv t source l m w) = Some data) by by rewrite (load_env e' e), Hload.
  unfold load_thumbnail in Hload. fold name in Hload.
  assert (Hgen : match original ← read_attachment sv t source; generate_thumbnail original w with
    | None => (None, t)
    | Some thumb => (Some thumb, write_attachment e (sv_key sv) (create_dir e t (sv_dir sv) (lit "thumbs")) (thumbs_dir sv) name thumb)
    end = (Some data, t') → take 2 data = [255; 216]%N ∧ fst (load_thumbnail e' sv t' source l m w) = Some data).
  { destruct (read_attachment sv t source) as [b|] eqn:Hb; [|done]. cbn [mbind option_bind].
    destruct (generate_thumbnail b w) as [thumb|] eqn:Hg; [|done]. intros [= -> Ht'].
    split; [by apply generated_magic in Hg|by apply (generated_kept b)]. }
  destruct (read_attachment sv t (thumb_cache_path sv source l m w)) as [hit|] eqn:Hhit; [|by apply Hgen].
  case_bool_decide as Hmagic; [|by apply Hgen]. injection Hload as -> Hload. split; [done|].
  destruct (_ && _); [|by rewrite <- Hload].
  destruct (write_kept e sv t name data t') as [->|?]; try done; [apply plain_thumb_name|by apply load_hit].
Qed.
End Kept.

(** [C24]: Where no file of the accounts directory is damaged, the media server and
    the blob protocol are the same server: for a path, a query, a range and an origin
    they give the same answer, up to the words of a refusal, and write the same
    thumbnail.  One status differs: a foreign origin gets 404 from the first and 403
    from the second, and nothing is written. *)
Theorem servers_agree e sv t enc host range origin q :
  fs_ok t → resolve t (accounts_dir sv) = Some q → slash ∉ sv_token sv →
  after_host (host ++ lit "localhost/" ++ enc) = Some enc → before_char 63 enc ≠ lit "__velta-probe" →
  (∀ p d m, q `prefix_of` p → file_at t p = Some (d, m) → ∃ b, holds (sv_key sv) d b) →
  let media := serve_head e sv t (MkHead ([slash] ++ sv_token sv ++ [slash] ++ enc) range origin) in
  let blob := serve_blob_file e sv t (host ++ lit "localhost/" ++ enc) (snd <$> split_once 63 enc) range origin in
  media.2 = blob.2 ∧
  match origin with
  | Some o => if bool_decide (o ∈ APP_ORIGINS) then same_answer media.1 blob.1
              else media = (Refused 404 [], t) ∧ blob = (Refused 403 (lit "forbidden"), t)
  | None => same_answer media.1 blob.1
  end.
Proof.
  intros Hok Hq Htok Hu Hprobe Hall media blob.
  destruct (media_cors origin) as [acao|] eqn:Hc; cycle 1.
  { assert (blob = (Refused 403 (lit "forbidden"), t)) as Hblob.
    { unfold blob, serve_blob_file. by rewrite Hu, bool_decide_false, Hc by done. }
    assert (media = (Refused 404 [], t)) as Hmedia.
    { unfold media, serve_head. by rewrite (media_target_path _ _ _ _ _ q), Hc by done. }
    split; [by rewrite Hblob, Hmedia|]. unfold media_cors in Hc. destruct origin as [o|]; [|done].
    by case_bool_decide. }
  assert (same_answer media.1 blob.1 ∧ media.2 = blob.2) as [Hsame Hfs].
  2: { split; [exact Hfs|]. unfold media_cors in Hc. destruct origin as [o|]; [|exact Hsame]. by case_bool_decide. }
  unfold media, blob, serve_head. rewrite (media_target_path _ _ _ _ _ q) by done.
  set (file := percent_decode (before_char 63 enc)). set (path := default file (canonicalize t file)). cbn zeta. fold path.
  assert (Hcq : canonicalize t (accounts_dir sv) = Some (show_path q)) by (unfold canonicalize; by rewrite Hq).
  rewrite Hc.
  destruct (path_starts_with path (show_path q)) eqn:Hpre; cycle 1.
  { unfold serve_blob_file. rewrite Hu, bool_decide_false, Hc, Hcq by done. change (default (accounts_dir sv) (Some (show_path q))) with (show_path q).
    fold file path. rewrite Hpre. split; [by right|done]. }
  destruct (file_of t path) as [[d m]|] eqn:Hf; cycle 1.
  { unfold serve_blob_file, serve_file. rewrite Hu, bool_decide_false, Hc, Hcq by done. change (default (accounts_dir sv) (Some (show_path q))) with (show_path q).
    fold file path. rewrite Hpre. cbn [negb tg_path]. rewrite Hf. split; [by right|done]. }
  assert (∃ b, holds (sv_key sv) d b) as [b Hb].
  { unfold path, canonicalize in Hpre, Hf. destruct (resolve t file) as [p|] eqn:Hr; cbn [fmap option_fmap option_map from_option] in *; unfold id in *.
    - pose proof (resolve_canonical _ _ _ Hok Hr) as Hcan. pose proof (resolve_canonical _ _ _ Hok Hq) as Hcq'. rewrite show_starts_with in Hpre by (apply Hcan || apply Hcq').
      apply bool_decide_eq_true in Hpre. unfold file_of in Hf. rewrite resolve_show in Hf by done. by apply (Hall p d m).
    - unfold file_of in Hf. by rewrite Hr in Hf. }
  rewrite (blob_file_holds e sv t _ enc _ range origin acao q b Hok Hq Hu Hprobe Hc Hpre d m Hf Hb). cbn [h_range]. split; [by left|done].
Qed.

End MediaServer.

(** ** A data directory with an encrypted photo, a video and a link *)

Module Page.
Import Toy.
#[export] Instance images : Images := {|
  sha1 b := b; hexlower b := (λ c, (48 + c mod 10)%N) <$> b;
  image := bytes; decode_image b := Some b; image_size b := (len b, 1%N);
  scaled b n := take (N.to_nat n) b; encode_jpeg b := Some ([255; 216]%N ++ b) |}.
#[export] Instance images_laws : ImagesLaws.
Proof.
  split; [intros i b [= <-]; done|]. intros b [c [Hc _]]%list_elem_of_fmap. unfold slash in Hc. cbn beta in Hc.
  revert Hc. generalize (c mod 10)%N as x. intros x Hx. lia.
Qed.

Definition env : Env := MkEnv 7 rand true.
Definition full : Env := MkEnv 9 rand false.
Definition photo : bytes := replicate 40 65%N.
Definition sealed (b : bytes) : bytes := match encrypt (encrypt_fuel (len b)) key rand b (len b) with Some (Ok d) => d | _ => [] end.
Definition film : bytes := lit "0123456789".
Definition acc (n : string) : list str := [lit "d"; lit "accounts"; lit n].
Definition tree : Fs := MkFs (list_to_map [
  ([lit "d"], Dir); ([lit "d"; lit "accounts"], Dir); (acc "a.jpg", File (sealed photo) 5);
  (acc "b.mp4", File (sealed film) 6); (acc "out", Link (lit "../../etc/key"));
  ([lit "etc"], Dir); ([lit "etc"; lit "key"], File (lit "secret") 1)]) [].
Definition server : Server := MkServer (lit "/d") (Some key) (lit "t0k").

Lemma tree_ok : fs_ok tree.
Proof. split; [constructor|apply dirs_to_nil]. Qed.
Lemma sealed_holds b : fits (len b) → holds (Some key) (sealed b) b.
Proof.
  intros Hf. right. exists key, rand. unfold sealed.
  destruct (encrypt_result key rand b (len b) rand_wf eq_refl) as [(_ & d & He & Hc)|[[? _]|[? _]]]; [unfold fits in Hf; lia| |unfold len in *; lia..].
  rewrite He. split_and!; [done..|apply rand_wf|done|done].
Qed.

Definition request (path extra : string) : list bytes := [lit "GET /t0k/"; lit path ++ lit " HTTP/1.1" ++ CRLF ++ lit extra ++ CRLF ++ CRLF].
Definition get_film : Head := parse_head (read_head [] (request "%2Fd%2Faccounts%2Fb.mp4" "Range: bytes=3-5")).
Definition photo_name : str := thumb_name (lit "/d/accounts/a.jpg") (len (sealed photo)) 5 16.

Lemma no_photo_link q target : fs_nodes tree !! (q ++ [photo_name]) ≠ Some (Link target).
Proof.
  intros H%elem_of_list_to_map_2. rewrite !elem_of_cons in H. destruct_or? H; try done; [|by apply elem_of_nil in H].
  injection H as H _. apply (app_inj_tail q [lit "d"; lit "accounts"]) in H as [_ H]. by vm_compute in H.
Qed.
End Page.

Import Toy Page.

Lemma media_confined_witness :
  fst (serve_media_connection Page.env Page.server Page.tree (Page.request "%2Fd%2Faccounts%2Fout" "X: y")) = not_found ∧
  let h := parse_head (read_head [] (Page.request "%2Fd%2Faccounts%2Fa.jpg?w=16" "X: y")) in
  let '(reply, t') := serve_media_connection Page.env Page.server Page.tree (Page.request "%2Fd%2Faccounts%2Fa.jpg?w=16" "X: y") in
  (reply = not_found ∧ t' = Page.tree) ∨
  ∃ enc p d m, addressed Page.server h enc ∧ is_ok (media_cors (h_origin h)) = true ∧
    resolve Page.tree (percent_decode (default enc (fst <$> split_once 63 enc))) = Some p ∧
    [lit "d"; lit "accounts"] `prefix_of` p ∧ canonical Page.tree p ∧ file_at Page.tree p = Some (d, m) ∧
    comes_from Page.server Page.tree (show_path p) d m reply ∧
    (∀ b, holds (sv_key Page.server) d b → shows Page.server Page.tree (show_path p) d m b reply) ∧
    ∀ x, fs_nodes t' !! x ≠ fs_nodes Page.tree !! x → ∃ w, in_thumbs Page.server Page.tree (thumb_name (show_path p) (len d) m w) x.
Proof.
  split; [vm_compute; reflexivity|]. apply media_confined; [apply Page.tree_ok|discriminate|vm_compute; reflexivity].
Defined.

Lemma media_bytes_witness :
  let reply := fst (serve_head Page.env Page.server Page.tree Page.get_film) in
  reply = Part (lit "video/mp4") None 3 5 10 (lit "345") ∧
  match reply with
  | Part mime acao a b n body =>
      mime = guess_mime (lit "/d/accounts/b.mp4") ∧ acao = None ∧ n = len Page.film ∧ (a ≤ b)%N ∧
      (∀ i, (a ≤ i ∧ i ≤ b)%N ↔ asks (Between 3 5) (len Page.film) i) ∧ body = slice a (b - a + 1) Page.film
  | Unsatisfiable acao n => acao = None ∧ n = len Page.film ∧ ∀ i, ¬ asks (Between 3 5) (len Page.film) i
  | _ => False
  end.
Proof.
  intros reply. split; [vm_compute; reflexivity|].
  assert (Htg : media_target Page.server Page.tree Page.get_film = Some (MkTarget (lit "/d/accounts/b.mp4") None None)) by (vm_compute; reflexivity).
  assert (Hw : thumb_width None (h_range Page.get_film) (guess_mime (lit "/d/accounts/b.mp4")) = None) by (vm_compute; reflexivity).
  assert (Hr : h_range Page.get_film = Some (range_text (Between 3 5))) by (vm_compute; reflexivity).
  assert (Hf : file_of Page.tree (lit "/d/accounts/b.mp4") = Some (Page.sealed Page.film, 6%N)) by (vm_compute; reflexivity).
  assert (Hh : holds (sv_key Page.server) (Page.sealed Page.film) Page.film) by by apply Page.sealed_holds.
  destruct (media_bytes Page.env Page.server Page.tree Page.get_film _ _ _ _ Htg Hf Hh Hw) as (_ & _ & H & _).
  apply (H _ Hr). split; reflexivity.
Defined.

Lemma thumb_kept_witness :
  let first := load_thumbnail Page.env Page.server Page.tree (lit "/d/accounts/a.jpg") (len (Page.sealed Page.photo)) 5 16 in
  fst first = Some ([255; 216]%N ++ replicate 16 65%N) ∧
  fst (load_thumbnail Page.full Page.server (snd first) (lit "/d/accounts/a.jpg") (len (Page.sealed Page.photo)) 5 16) = fst first.
Proof.
  intros first. assert (fst first = Some ([255; 216]%N ++ replicate 16 65%N)) as Hf by (vm_compute; reflexivity).
  split; [exact Hf|]. rewrite Hf. refine (proj2 (thumb_kept Page.env Page.full Page.server Page.tree _ _ _ _ _ Page.tree_ok _ Page.no_photo_link _ (snd first) _)).
  - discriminate.
  - intros k [= <-]. split_and!; [reflexivity|apply Toy.rand_wf|done].
  - rewrite <- Hf. apply surjective_pairing.
Defined.

Lemma servers_agree_witness :
  let enc := lit "%2Fd%2Faccounts%2Fb.mp4" in
  same_answer
    (fst (serve_head Page.env Page.server Page.tree (MkHead ([slash] ++ sv_token Page.server ++ [slash] ++ enc) (Some (lit "bytes=-4")) None)))
    (fst (serve_blob_file Page.env Page.server Page.tree (lit "blobfile://" ++ lit "localhost/" ++ enc) None (Some (lit "bytes=-4")) None)).
Proof.
  refine (proj2 (servers_agree Page.env Page.server Page.tree (lit "%2Fd%2Faccounts%2Fb.mp4") (lit "blobfile://") (Some (lit "bytes=-4")) None
    [lit "d"; lit "accounts"] Page.tree_ok _ _ _ _ _)); [vm_compute; reflexivity| |vm_compute; reflexivity|discriminate|].
  - apply (bool_decide_unpack _). vm_compute. exact I.
  - intros p d m [r ->] Hf. unfold file_at in Hf. destruct (fs_nodes Page.tree !! _) as [[d' m'| |]|] eqn:Hn; try done. injection Hf as -> ->.
    apply elem_of_list_to_map_2 in Hn. rewrite !elem_of_cons in Hn. destruct_or? Hn; try done; [..|by apply elem_of_nil in Hn];
      injection Hn as _ -> _; eexists; by apply Page.sealed_holds.
Defined.

(** The head is not parsed up to the blank line only: an origin that a body
    names counts, when it comes with the same read. *)
Lemma body_names_origin :
  h_origin (parse_head (read_head [] [lit "POST /t0k/x HTTP/1.1" ++ CRLF ++ lit "Origin: null" ++ CRLF ++ CRLF ++ lit "Origin: tauri://localhost"]))
  = Some (lit "tauri://localhost").
Proof. vm_compute. reflexivity. Qed.
