(* ===== verification/ChatLink.v ===== *)
(** * The token of chat links ([lib.rs], notification chat-link token)

    A [velta://chat] link opens a chat without asking, so it carries a token that
    only the app knows.  The page and the notifications ask for it, each on its
    own thread; it is kept in memory and in a file. *)

From S2P Require Import Prelude Str Net.

Definition valid_chat_link_token (token : str) : bool := (str_len token =? 32)%N && forallb is_ascii_hexdigit (as_bytes token).

Section ChatLink.
Context {P : Platform}.

Definition mint_chat_link_token (random_bytes : bytes) : str := hex_encode random_bytes.
Definition chat_link_with_token (account chat_id : N) (token : str) : str :=
  lit "velta://chat?account=" ++ show_N account ++ lit "&chat=" ++ show_N chat_id ++ lit "&t=" ++ token.

(** The file: not there, not to be read as text, or text. *)
Inductive Stored := Missing | Unreadable | Text (raw : str).

(** What a read of the file finds, when it works. *)
Definition token_in (s : Stored) : option str :=
  match s with Text raw => if valid_chat_link_token (trim raw) then Some (trim raw) else None | _ => None end.

(** A caller of [chat_link_token_for] or [android_chat_link_token], between its
    accesses to what is shared. *)
Inductive Pc :=
| PCheck                  (* [CHAT_LINK_TOKEN] is looked at *)
| PRead | PRemove | PMint
| PRename (token : str)   (* the temporary file is written *)
| PReread
| PStore (token : str).   (* to be put into [CHAT_LINK_TOKEN] *)

Record World := MkWorld {
  w_file : Stored; w_cache : option str; w_callers : gmap nat Pc;
  w_told : list (nat * str);   (* what callers got, oldest first *)
}.

Inductive Ev_ :=
| EBegin (i : nat)
| EGo (i : nat) (io : bool) (random : bytes)   (* a caller goes on; whether the disk works *)
| ERestart.

Definition at_ (w : World) (i : nat) (pc : option Pc) : World :=
  MkWorld (w_file w) (w_cache w) (partial_alter (λ _, pc) i (w_callers w)) (w_told w).
Definition put_file (w : World) (s : Stored) : World := MkWorld s (w_cache w) (w_callers w) (w_told w).
Definition tell (w : World) (i : nat) (token : str) : World :=
  MkWorld (w_file w) (w_cache w) (w_callers w) (w_told w ++ [(i, token)]).
Definition cache (w : World) (token : str) : World := MkWorld (w_file w) (Some token) (w_callers w) (w_told w).

(** An error ends the call. *)
Definition go (w : World) (i : nat) (pc : Pc) (io : bool) (random : bytes) : World :=
  match pc with
  | PCheck =>
      match w_cache w with Some token => tell (at_ w i None) i token | None => at_ w i (Some PRead) end
  | PRead =>
      if negb io then at_ w i None else
      match w_file w with
      | Missing => at_ w i (Some PMint)
      | Unreadable => at_ w i None
      | Text _ => at_ w i (Some (match token_in (w_file w) with Some token => PStore token | None => PRemove end))
      end
  | PRemove => at_ (if io then put_file w Missing else w) i (Some PMint)
  | PMint => at_ w i (Some (if io then PRename (mint_chat_link_token random) else PReread))
  | PRename token =>
      if io then at_ (put_file w (Text token)) i (Some (PStore token)) else at_ w i (Some PReread)
  | PReread =>
      at_ w i (if io then PStore <$> token_in (w_file w) else None)
  | PStore token => tell (at_ (cache w token) i None) i token
  end.

(** [random_bytes::<16>()] *)
Definition random_ok (b : bytes) : bool := (length b =? 16)%nat && forallb (λ b, b <? 256)%N b.

Definition step (w : World) (e : Ev_) : option World :=
  match e with
  | EBegin i => match w_callers w !! i with None => Some (at_ w i (Some PCheck)) | Some _ => None end
  | EGo i io random =>
      if negb (random_ok random) then None else
      pc ← w_callers w !! i; Some (go w i pc io random)
  | ERestart => Some (MkWorld (w_file w) None ∅ (w_told w))
  end.

Inductive runs (w0 : World) : World → Prop :=
| runs_here : runs w0 w0
| runs_step w e w' : runs w0 w → step w e = Some w' → runs w0 w'.

Definition run (w : World) (es : list Ev_) : option World := foldl (λ w e, w ← w; step w e) (Some w) es.
Definition idle (s : Stored) (c : option str) : World := MkWorld s c ∅ [].

(** ** Tokens *)

Context {L : PlatformLaws}.

Lemma mint_valid b : length b = 16 → wf_bytes b → valid_chat_link_token (mint_chat_link_token b) = true.
Proof.
  intros Hl Hb. destruct (hex_encode_chars b Hb) as [Hlen Hch]. unfold valid_chat_link_token, mint_chat_link_token.
  rewrite forallb_forall in Hch. assert (Ha : as_bytes (hex_encode b) = hex_encode b).
  { apply as_bytes_ascii, Forall_forall. intros c Hc%list_elem_of_In%Hch. rewrite orb_true_iff, !in_range_spec in Hc. lia. }
  unfold str_len. rewrite Ha, Hlen, Hl. cbn [Nat.mul Nat.add N.of_nat]. apply andb_true_iff. split; [done|].
  apply forallb_forall. intros c Hc%Hch. unfold is_ascii_hexdigit. rewrite !orb_true_iff in *. tauto.
Qed.

Lemma mint_trim b : length b = 16 → wf_bytes b → trim (mint_chat_link_token b) = mint_chat_link_token b.
Proof.
  intros Hl Hb. destruct (hex_encode_chars b Hb) as [_ Hch]. rewrite forallb_forall in Hch. apply trim_id, Forall_forall.
  intros c Hc%list_elem_of_In%Hch. rewrite orb_true_iff, !in_range_spec in Hc.
  apply not_true_iff_false. unfold is_whitespace. rewrite !orb_true_iff, !in_range_spec, !N.eqb_eq. lia.
Qed.
Lemma minted_in b : length b = 16 → wf_bytes b → token_in (Text (mint_chat_link_token b)) = Some (mint_chat_link_token b).
Proof. intros Hl Hb. unfold token_in. by rewrite mint_trim, mint_valid. Qed.

(** What callers may hold when the token of the file is [tok]. *)
Definition calm (tok : str) (w : World) : Prop :=
  token_in (w_file w) = Some tok ∧ (∀ c, w_cache w = Some c → c = tok) ∧
  map_Forall (λ _ pc, match pc with PCheck | PRead => True | PStore t => t = tok | _ => False end) (w_callers w) ∧
  Forall (λ x, x.2 = tok) (w_told w).

Lemma calm_at tok w i pc : calm tok w → match pc with None | Some (PCheck | PRead) => True | Some (PStore t) => t = tok | _ => False end →
  calm tok (at_ w i pc).
Proof.
  intros (H1 & H2 & H3 & H4) Hpc. split_and!; [done|done| |done]. intros j pc' Hj. unfold at_ in Hj. cbn [w_callers] in Hj.
  destruct (decide (i = j)) as [<-|Hne].
  - rewrite lookup_partial_alter_eq in Hj. subst pc. by destruct pc'.
  - rewrite lookup_partial_alter_ne in Hj by done. by apply (H3 j).
Qed.
Lemma calm_tell tok w i : calm tok w → calm tok (tell w i tok).
Proof. intros (H1 & H2 & H3 & H4). split_and!; [done..|]. apply Forall_app. split; [done|]. by repeat constructor. Qed.
Lemma calm_cache tok w : calm tok w → calm tok (cache w tok).
Proof. intros (H1 & H2 & H3 & H4). split_and!; [done| |done..]. by intros c [= <-]. Qed.

Lemma calm_step tok w e w' : calm tok w → step w e = Some w' → calm tok w'.
Proof.
  intros Hw. destruct e as [i|i io random|]; cbn [step].
  - destruct (w_callers w !! i); [done|]. intros [= <-]. by apply calm_at.
  - destruct (negb _); [done|]. destruct (w_callers w !! i) as [pc|] eqn:Hi; [|done]. intros [= <-].
    pose proof Hw as (H1 & H2 & H3 & _). specialize (H3 i pc Hi). destruct pc; cbn [go]; try done.
    + destruct (w_cache w) as [c|]; [|by apply calm_at]. rewrite (H2 c eq_refl). by apply calm_tell, calm_at.
    + destruct io; cbn [negb]; [|by apply calm_at]. rewrite H1. destruct (w_file w); try done. by apply calm_at.
    + cbn in H3. subst. apply calm_tell, calm_at; [|done]. by apply calm_cache.
  - intros [= <-]. destruct Hw as (H1 & H2 & H3 & H4). split_and!; [done|done|apply map_Forall_empty|done].
Qed.

(** [C25]: Once a token is in the file and nobody is in the middle of making one,
    every caller gets that token, after any number of launches and with whatever
    interleaving and failures of the disk: the links in old notifications keep
    working. *)
Theorem token_stable s tok w :
  token_in s = Some tok → runs (idle s None) w →
  token_in (w_file w) = Some tok ∧ ∀ i t, (i, t) ∈ w_told w → t = tok.
Proof.
  intros Hs Hr. assert (calm tok w) as (H1 & _ & _ & H4).
  { induction Hr as [|w e w' _ IH Hstep]; [|by eapply calm_step]. split_and!; [done|done|apply map_Forall_empty|done]. }
  split; [done|]. intros i t Hin. by apply (proj1 (Forall_forall _ _) H4 (i, t)).
Qed.

(** Two callers on a first launch: both find no file, both make a token, and each
    renames its own into place. *)
Definition race (b1 b2 : bytes) : list Ev_ :=
  [EBegin 0; EBegin 1; EGo 0 true b1; EGo 1 true b2; EGo 0 true b1; EGo 1 true b2;
   EGo 0 true b1; EGo 1 true b2; EGo 0 true b1; EGo 0 true b1; EGo 1 true b2; EGo 1 true b2].

Definition pair_ (p1 p2 : option Pc) : gmap nat Pc := partial_alter (λ _, p1) 0 (partial_alter (λ _, p2) 1 ∅).

Lemma pair_at s c told p1 p2 p :
  at_ (MkWorld s c (pair_ p1 p2) told) 0 p = MkWorld s c (pair_ p p2) told ∧
  at_ (MkWorld s c (pair_ p1 p2) told) 1 p = MkWorld s c (pair_ p1 p) told.
Proof.
  unfold at_, pair_. cbn [w_file w_cache w_callers w_told]. split; f_equal.
  - by rewrite partial_alter_partial_alter_eq.
  - rewrite partial_alter_partial_alter_ne by done. f_equal. by rewrite partial_alter_partial_alter_eq.
Qed.
Lemma pair_at_0 s c told p1 p2 p : at_ (MkWorld s c (pair_ p1 p2) told) 0 p = MkWorld s c (pair_ p p2) told.
Proof. apply pair_at. Qed.
Lemma pair_at_1 s c told p1 p2 p : at_ (MkWorld s c (pair_ p1 p2) told) 1 p = MkWorld s c (pair_ p1 p) told.
Proof. apply pair_at. Qed.
Lemma pair_lookup p1 p2 : pair_ p1 p2 !! 0 = p1 ∧ pair_ p1 p2 !! 1 = p2.
Proof.
  unfold pair_. split; [by rewrite lookup_partial_alter_eq|]. rewrite lookup_partial_alter_ne by done. by rewrite lookup_partial_alter_eq.
Qed.

Lemma run_first w e es : run w (e :: es) = w ← step w e; run w es.
Proof.
  unfold run. cbn [foldl mbind option_bind]. destruct (step w e) as [w'|]; [done|].
  induction es as [|x es IH]; [done|]. exact IH.
Qed.

Lemma run_runs w0 es w : run w0 es = Some w → runs w0 w.
Proof.
  revert w. induction es as [|e es IH] using rev_ind; intros w; [intros [= <-]; apply runs_here|].
  unfold run. rewrite foldl_snoc. fold (run w0 es). destruct (run w0 es) as [w1|]; [|done].
  cbn [mbind option_bind]. intros Hs. by eapply runs_step; [apply IH|].
Qed.

Lemma random_ok_16 b : length b = 16 → wf_bytes b → random_ok b = true.
Proof.
  intros Hl Hb. unfold random_ok. rewrite Hl. cbn [Nat.eqb andb]. apply forallb_forall. intros x Hx%list_elem_of_In.
  apply N.ltb_lt. exact (proj1 (Forall_forall _ _) Hb x Hx).
Qed.
Lemma go_0 s c told p1 p2 b es : random_ok b = true →
  run (MkWorld s c (pair_ (Some p1) p2) told) (EGo 0 true b :: es) = run (go (MkWorld s c (pair_ (Some p1) p2) told) 0 p1 true b) es.
Proof. intros Hb. rewrite run_first. cbn [step w_callers]. rewrite Hb, (proj1 (pair_lookup _ _)). done. Qed.
Lemma go_1 s c told p1 p2 b es : random_ok b = true →
  run (MkWorld s c (pair_ p1 (Some p2)) told) (EGo 1 true b :: es) = run (go (MkWorld s c (pair_ p1 (Some p2)) told) 1 p2 true b) es.
Proof. intros Hb. rewrite run_first. cbn [step w_callers]. rewrite Hb, (proj2 (pair_lookup _ _)). done. Qed.

Ltac forward :=
  first [rewrite go_0 by done|rewrite go_1 by done];
  cbn [go negb]; unfold tell, cache, put_file; cbn [w_file w_cache w_callers w_told]; rewrite ?pair_at_0, ?pair_at_1;
  cbn [w_file w_cache w_callers w_told app].

(** Two callers that overlap on a first launch get different tokens: the
    rename of the second replaces the file of the first, and so does its store in
    memory.  The page may hold the first, notifications carry the second. *)
Theorem tokens_differ b1 b2 :
  length b1 = 16 → wf_bytes b1 → length b2 = 16 → wf_bytes b2 → b1 ≠ b2 →
  ∃ w t1 t2, run (idle Missing None) (race b1 b2) = Some w ∧ w_told w = [(0, t1); (1, t2)] ∧ t1 ≠ t2 ∧
    valid_chat_link_token t1 = true ∧ valid_chat_link_token t2 = true ∧ w_cache w = Some t2 ∧ w_file w = Text t2 ∧ w_callers w = ∅.
Proof.
  intros Hl1 Hw1 Hl2 Hw2 Hne. pose proof (random_ok_16 b1 Hl1 Hw1) as Hg1. pose proof (random_ok_16 b2 Hl2 Hw2) as Hg2.
  set (t1 := mint_chat_link_token b1). set (t2 := mint_chat_link_token b2).
  exists (MkWorld (Text t2) (Some t2) (pair_ None None) [(0, t1); (1, t2)]), t1, t2. split_and!; try done; try by apply mint_valid.
  - unfold race, idle. rewrite run_first. change (∅ : gmap nat Pc) with (pair_ None None).
    cbn [step w_callers mbind option_bind]. rewrite (proj1 (pair_lookup _ _)). cbn [mbind option_bind].
    rewrite pair_at_0, run_first. cbn [step w_callers mbind option_bind]. rewrite (proj2 (pair_lookup _ _)). cbn [mbind option_bind].
    rewrite pair_at_1.
    do 10 forward. reflexivity.
  - intros Heq. apply Hne. apply (f_equal as_bytes), (f_equal hex_decode) in Heq. unfold t1, t2, mint_chat_link_token in Heq.
    rewrite !hex_decode_encode in Heq by done. by injection Heq.
Qed.
End ChatLink.

Import ToyNet.
Definition visits : list Ev_ :=
  [EBegin 0; EGo 0 true (replicate 16 1%N); ERestart; EBegin 1; EGo 1 true (replicate 16 2%N);
   EGo 1 true (replicate 16 2%N); EGo 1 true (replicate 16 2%N)].
Definition old_file : Stored := Text (lit "0123456789abcdef0123456789ABCDEF" ++ [10%N]).
Lemma token_stable_witness :
  let w := default (idle Missing None) (run (idle old_file None) visits) in
  w_told w = [(1, lit "0123456789abcdef0123456789ABCDEF")] ∧
  token_in (w_file w) = Some (lit "0123456789abcdef0123456789ABCDEF").
Proof.
  intros w. split; [vm_compute; reflexivity|].
  refine (proj1 (token_stable old_file (lit "0123456789abcdef0123456789ABCDEF") w _ _)); [vm_compute; reflexivity|].
  apply (run_runs _ visits). unfold w. destruct (run (idle old_file None) visits) eqn:Hr; [done|]. exfalso.
  revert Hr. vm_compute. discriminate.
Defined.
Lemma tokens_differ_witness :
  ∃ w t1 t2, run (idle Missing None) (race (replicate 16 1%N) (replicate 16 2%N)) = Some w ∧ w_told w = [(0, t1); (1, t2)] ∧ t1 ≠ t2 ∧
    valid_chat_link_token t1 = true ∧ valid_chat_link_token t2 = true ∧ w_cache w = Some t2 ∧ w_file w = Text t2 ∧ w_callers w = ∅.
Proof. apply tokens_differ; [done|by repeat constructor|done|by repeat constructor|done]. Defined.
