(* ===== verification/Crash.v ===== *)
(** * Steps that fail and crash

    The files that hold keys and databases are changed in steps, each of which may
    fail or be the last before a crash.  Here: such runs, and how to reason about
    them. *)

From S2P Require Import Prelude Str.

(** What becomes of a step: done, refused by the system, or the last thing before
    a crash; a write that is refused or crashes may have put something down.
    [Unread] is for the reads of files only, a refusal for the other steps. *)
Inductive Fate := Fine | Unread | Fails (torn : option bytes) | Crash (torn : option bytes).

(** A run takes the fates in order; what is not foreseen is fine.  No result: it
    crashed. *)
Definition M (St A : Type) : Type := St → list Fate → St * option (A * list Fate).
#[export] Instance M_ret {St} : MRet (M St) := λ A x s fs, (s, Some (x, fs)).
#[export] Instance M_bind {St} : MBind (M St) := λ A B f m s fs,
  match m s fs with (s, Some (x, fs)) => f x s fs | (s, None) => (s, None) end.

(** A step that is whole or not at all. *)
Definition act {St} (f : St → option St) : M St bool := λ s fs,
  match fs with
  | Crash _ :: _ => (s, None)
  | Fails _ :: fs => (s, Some (false, fs))
  | _ => match f s with Some s' => (s', Some (true, tail fs)) | None => (s, Some (false, tail fs)) end
  end.
(** A write. *)
Definition tear {St} (f : St → option St) (torn : bytes → St → St) : M St bool := λ s fs,
  match fs with
  | Crash (Some b) :: _ => (torn b s, None)
  | Fails (Some b) :: fs => (torn b s, Some (false, fs))
  | _ => act f s fs
  end.
(** A read of a file, if it is there. *)
Definition reads {St A} (f : St → option A) : M St (option A) := λ s fs,
  match fs with
  | Crash _ :: _ => (s, None)
  | Unread :: fs => (s, Some (None, fs))
  | _ => (s, Some (f s, tail fs))
  end.
Definition gets {St A} (f : St → A) : M St A := λ s fs, (s, Some (f s, fs)).

(** A run on a part of the state. *)
Definition lift {St T A} (get : T → St) (put : St → T → T) (m : M St A) : M T A := λ t fs,
  match m (get t) fs with (s, r) => (put s t, r) end.

(** ** Reasoning about runs with failures and crashes *)

(** From [P], whatever the fates among those [ok]: [Q] when the run ends, [R] when
    it crashes. *)
Definition spec {St A} (ok : Fate → Prop) (P : St → Prop) (m : M St A) (Q : A → St → Prop) (R : St → Prop) : Prop :=
  ∀ s fs, Forall ok fs → P s → match m s fs with (s', Some (x, fs')) => Q x s' ∧ Forall ok fs' | (s', None) => R s' end.

Definition any (f : Fate) : Prop := True.
(** Writes are whole or not at all, files that are there can be read. *)
Definition tame (f : Fate) : Prop := match f with Unread | Fails (Some _) | Crash (Some _) => False | _ => True end.

Lemma all_any fs : Forall any fs.
Proof. by apply Forall_forall. Qed.

Section Spec.
Context {St : Type}.
Implicit Types P R : St → Prop.

Lemma spec_ret {A} ok (P R : St → Prop) (x : A) (Q : A → St → Prop) : (∀ s, P s → Q x s) → spec ok P (mret x) Q R.
Proof. intros H s fs Hok Hs. split; [by apply H|done]. Qed.
Lemma spec_bind {A B} ok P (m : M St A) (f : A → M St B) Q' Q R :
  spec ok P m Q' R → (∀ x, spec ok (Q' x) (f x) Q R) → spec ok P (m ≫= f) Q R.
Proof.
  intros Hm Hf s fs Hok Hs. specialize (Hm s fs Hok Hs). unfold mbind, M_bind. destruct (m s fs) as [s' [[x fs']|]]; [|done].
  destruct Hm. by apply Hf.
Qed.
Lemma spec_gets {A} ok P (f : St → A) Q R : (∀ s, P s → Q (f s) s) → spec ok P (gets f) Q R.
Proof. intros H s fs Hok Hs. split; [by apply H|done]. Qed.
Lemma spec_act ok P f Q R : (∀ s, P s → R s ∧ Q false s ∧ match f s with Some s' => Q true s' | None => True end) → spec ok P (act f) Q R.
Proof.
  intros H s fs Hok Hs. destruct (H s Hs) as (Hr & Hf & Hd). unfold act.
  destruct Hok as [|[| |b|b] fs _ Hok]; cbn [tail]; try done; by destruct (f s).
Qed.
Lemma spec_write P f torn Q R :
  (∀ s, P s → R s ∧ Q false s ∧ match f s with Some s' => Q true s' | None => True end) → spec tame P (tear f torn) Q R.
Proof. intros H s fs Hok Hs. unfold tear. destruct Hok as [|[| |[b|]|[b|]] fs Hf Hok]; try done; apply (spec_act tame P f Q R H); by try constructor. Qed.
Lemma spec_tear ok P f torn Q R :
  (∀ s, P s → (∀ b, R (torn b s) ∧ Q false (torn b s)) ∧ R s ∧ Q false s ∧ match f s with Some s' => Q true s' | None => True end) →
  spec ok P (tear f torn) Q R.
Proof.
  intros H s fs Hok Hs. assert (Ht : ∀ b, R (torn b s) ∧ Q false (torn b s)) by apply (H s Hs).
  assert (Hact : spec ok P (act f) Q R) by (apply spec_act; intros s' Hs'; apply (H s' Hs')).
  unfold tear. destruct Hok as [|[| |[b|]|[b|]] fs Hf Hok]; try (split; [apply Ht|done]); try apply Ht; apply Hact; by try constructor.
Qed.
(** Where no file that is there fails to open. *)
Lemma spec_reads_ok {A} (ok : Fate → Prop) P (f : St → option A) Q R :
  (∀ x, ok x → x ≠ Unread) → (∀ s, P s → R s ∧ Q (f s) s) → spec ok P (reads f) Q R.
Proof.
  intros Hun H s fs Hok Hs. destruct (H s Hs). unfold reads. destruct Hok as [|[| |b|b] fs Hf Hok]; cbn [tail]; try done. by apply Hun in Hf.
Qed.
Lemma tame_opens f : tame f → f ≠ Unread.
Proof. by destruct f. Qed.
Lemma spec_reads {A} P (f : St → option A) Q R : (∀ s, P s → R s ∧ Q (f s) s) → spec tame P (reads f) Q R.
Proof. apply spec_reads_ok, tame_opens. Qed.
Lemma spec_reads_any {A} ok P (f : St → option A) : spec ok P (reads f) (λ x s, (x = None ∨ x = f s) ∧ P s) P.
Proof. intros s fs Hok Hs. unfold reads. destruct Hok as [|[| |b|b] fs Hf Hok]; cbn [tail]; try done; (split; [split; [by (left + right)|done]|done]). Qed.
Lemma spec_mono {A} ok P P' (m : M St A) Q Q' R R' :
  spec ok P m Q R → (∀ s, P' s → P s) → (∀ x s, Q x s → Q' x s) → (∀ s, R s → R' s) → spec ok P' m Q' R'.
Proof. intros H HP HQ HR s fs Hok Hs. specialize (H s fs Hok (HP s Hs)). destruct (m s fs) as [s' [[x fs']|]]; [|auto]. destruct H; auto. Qed.
Lemma spec_case ok P (b : bool) {A} (m1 m2 : M St A) Q R :
  (b = true → spec ok P m1 Q R) → (b = false → spec ok P m2 Q R) → spec ok P (if b then m1 else m2) Q R.
Proof. destruct b; auto. Qed.
Lemma spec_pre ok (X : Prop) {A} P (m : M St A) Q R : (X → spec ok P m Q R) → spec ok (λ s, X ∧ P s) m Q R.
Proof. intros H s fs Hok [Hx Hs]. by apply (H Hx). Qed.
End Spec.

(** ** Runs without failures *)

Definition quiet {St A} (m : M St A) (s : St) (x : A) (s' : St) : Prop := m s [] = (s', Some (x, [])).

Lemma quiet_bind {St A B} (m : M St A) (f : A → M St B) s x s1 y s2 :
  quiet m s x s1 → quiet (f x) s1 y s2 → quiet (m ≫= f) s y s2.
Proof. unfold quiet, mbind, M_bind. by intros -> ->. Qed.
Lemma quiet_ret {St A} (x : A) (s : St) : quiet (mret x) s x s.
Proof. done. Qed.
Lemma quiet_gets {St A} (f : St → A) s : quiet (gets f) s (f s) s.
Proof. done. Qed.
Lemma quiet_reads {St A} (f : St → option A) s : quiet (reads f) s (f s) s.
Proof. done. Qed.
Lemma quiet_act {St} (f : St → option St) s : quiet (act f) s (bool_decide (is_Some (f s))) (default s (f s)).
Proof. unfold quiet, act. by destruct (f s). Qed.

(** ** One run, with its fates *)

Lemma run_bind {St A B} (m : M St A) (f : A → M St B) s fs x s1 fs1 : m s fs = (s1, Some (x, fs1)) → (m ≫= f) s fs = f x s1 fs1.
Proof. unfold mbind, M_bind. by intros ->. Qed.
