(* ===== verification/DbMigrate.v ===== *)
(** * Encrypting the databases ([db_key.rs], migration)

    Every start looks at the database of each account, encrypts it when it is not,
    and finishes or undoes what an interrupted start left.  Here: the files of an
    account, the steps on them, each of which may fail or be the last before a
    crash, and the start itself.

    A database stands for its file and SQLite's own journal together, so a
    checkpoint changes nothing.  Opening a file and reading from it is one step,
    which may fail although the file is there and whole ([Unread]). *)

From stdpp Require Import countable.
From S2P Require Import Prelude Str Crash.

(** [rusqlite] with SQLCipher: a database file, without a key or under one. *)
Class Sqlite := {
  db : Type;
  encode : option str → db → bytes;
  opens : bytes → option str → option db;    (* open, give the key, read *)
  rows : db → str → option N;                (* count of a table, if it is there *)
  addr_of : db → option str;
  version : db → N;                          (* user_version *)
  set_version : db → N → db;
}.
Class SqliteLaws {S : Sqlite} := {
  opens_encode : ∀ key d, opens (encode key d) key = Some d;
  opens_other : ∀ key key' d, key ≠ key' → opens (encode key d) key' = None;
  set_same : ∀ d, set_version d (version d) = d;
  set_twice : ∀ d v v', set_version (set_version d v) v' = set_version d v';
  version_set : ∀ d v, version (set_version d v) = v;
  rows_set : ∀ d v t, rows (set_version d v) t = rows d t;
}.

Definition COUNT_TABLES : list str := [lit "msgs"; lit "chats"; lit "contacts"; lit "config"; lit "keypairs"].

(** ** Steps *)

(** [dc.db], [dc.db.plain.bak], [dc.db.enc]. *)
Record Account := MkAccount { f_db : option bytes; f_bak : option bytes; f_enc : option bytes }.

Section Migrate.
Context {S : Sqlite}.

Definition set_db (x : option bytes) (a : Account) := MkAccount x (f_bak a) (f_enc a).
Definition set_bak (x : option bytes) (a : Account) := MkAccount (f_db a) x (f_enc a).
Definition set_enc (x : option bytes) (a : Account) := MkAccount (f_db a) (f_bak a) x.

Definition remove_enc : M Account bool := act (λ a, match f_enc a with Some _ => Some (set_enc None a) | None => None end).
Definition remove_bak : M Account bool := act (λ a, match f_bak a with Some _ => Some (set_bak None a) | None => None end).
Definition remove_db : M Account bool := act (λ a, match f_db a with Some _ => Some (set_db None a) | None => None end).
(** [fs::rename] replaces. *)
Definition rename_db_bak : M Account bool := act (λ a, b ← f_db a; Some (MkAccount None (Some b) (f_enc a))).
Definition rename_enc_db : M Account bool := act (λ a, b ← f_enc a; Some (MkAccount (Some b) (f_bak a) None)).
Definition rename_bak_db : M Account bool := act (λ a, b ← f_bak a; Some (MkAccount (Some b) None (f_enc a))).
Definition fsync_enc : M Account bool := act (λ a, Some a).

(** What a file is to who opens it, when that does not fail. *)
Definition opens_plain (f : option bytes) : option db := b ← f; opens b None.
Definition opens_keyed (f : option bytes) (key : str) : option db := b ← f; opens b (Some key).

(** [ATTACH], [sqlcipher_export]: all tables; not the [user_version]. *)
Definition sqlcipher_export (d : db) (key : str) : M Account bool :=
  tear (λ a, Some (set_enc (Some (encode (Some key) (set_version d 0))) a)) (λ b, set_enc (Some b)).
Definition copy_version (d : db) (key : str) (v : N) : M Account bool :=
  act (λ a, Some (set_enc (Some (encode (Some key) (set_version d v))) a)).

Definition same_counts (d e : db) : bool :=
  forallb (λ t, match rows d t, rows e t with Some n, Some m => (n =? m)%N | _, _ => false end) COUNT_TABLES.

(** The closure [run] of [migrate]. *)
Definition export_verified (key : str) : M Account bool :=
  plain ← reads (λ a, opens_plain (f_db a));
  match plain with
  | None => mret false
  | Some d =>
      ok ← sqlcipher_export d key;
      if negb ok then mret false else
      enc ← reads (λ a, opens_keyed (f_enc a) key);
      match enc with
      | None => mret false
      | Some e =>
          ok ← if (version e =? version d)%N then mret true else copy_version e key (version d);
          if negb ok then mret false else
          again ← reads (λ a, opens_plain (f_db a));      (* for the counts *)
          mret (match again with Some d => same_counts d e | None => false end)
      end
  end.

Definition migrate (key : str) : M Account bool :=
  _ ← remove_enc;
  ok ← export_verified key;
  ok ← if ok : bool then fsync_enc else mret false;
  if negb ok then _ ← remove_enc; mret false else
  first ← rename_db_bak;
  swapped ← if first : bool then
              second ← rename_enc_db;
              if second : bool then mret true else _ ← rename_bak_db; mret false
            else mret false;
  if negb swapped then _ ← remove_enc; mret false else mret true.

Inductive Kind := Plain | Ours | Foreign.
(** [opens] of the database itself: SQLite makes a file that is missing, an empty
    database. *)
Definition create_missing : M Account bool := act (λ a, match f_db a with None => Some (set_db (Some []) a) | Some _ => None end).
Definition classify (key : option str) : M Account Kind :=
  _ ← create_missing;
  plain ← reads (λ a, opens_plain (f_db a));
  match plain, key with
  | Some _, _ => mret Plain
  | None, None => mret Foreign
  | None, Some k =>
      ours ← reads (λ a, opens_keyed (f_db a) k);
      mret (match ours with Some _ => Ours | None => Foreign end)
  end.

Definition supersedes (plain enc : db) : bool :=
  forallb (λ t, match rows plain t, rows enc t with
                | Some b, Some e => if bool_decide (t = lit "keypairs") then (e =? b)%N else (b <=? e)%N
                | _, _ => false
                end) COUNT_TABLES
  && bool_decide (addr_of plain = addr_of enc).
Definition bak_superseded (key : str) : M Account bool :=
  plain ← reads (λ a, opens_plain (f_bak a));
  enc ← reads (λ a, opens_keyed (f_db a) key);
  mret (match plain, enc with Some plain, Some enc => supersedes plain enc | _, _ => false end).

(** ** The start *)

Record Prepare := MkPrepare { p_use_key : bool; p_migrated : N; p_already : N; p_locked : N }.
Record Counts := MkCounts { n_migrated : N; n_already : N; n_locked : N; n_failed : N }.
Definition plus_ (c d : Counts) : Counts :=
  MkCounts (n_migrated c + n_migrated d) (n_already c + n_already d) (n_locked c + n_locked d) (n_failed c + n_failed d).
Definition none_ : Counts := MkCounts 0 0 0 0.

(** The first loop: a backup whose database is missing goes back. *)
Definition restore_missing : M Account unit :=
  there ← gets (λ a, bool_decide (is_Some (f_db a)));
  if there : bool then mret tt else
  back ← reads (λ a, opens_plain (f_bak a));
  match back with
  | Some _ => _ ← rename_bak_db; mret tt
  | None => mret tt
  end.

(** One database of the second loop; whether it is to be looked at again. *)
Definition treat (key : option str) : M Account (Counts * bool) :=
  kind ← classify key;
  match kind with
  | Plain =>
      match key with
      | None => mret (none_, false)
      | Some k => ok ← migrate k; mret (if ok : bool then MkCounts 1 0 0 0 else MkCounts 0 0 0 1, false)
      end
  | Ours =>
      backed ← gets (λ a, bool_decide (is_Some (f_bak a)));
      superseded ← match key with Some k => if backed : bool then bak_superseded k else mret false | None => mret false end;
      _ ← if superseded : bool then remove_bak else mret true;
      mret (MkCounts 0 1 0 0, false)
  | Foreign =>
      back ← reads (λ a, opens_plain (f_bak a));
      match back with
      | Some _ => _ ← remove_db; _ ← rename_bak_db; mret (none_, true)
      | None => mret (MkCounts 0 0 1 0, false)
      end
  end.

(** A step on the account at a place. *)
Definition focus {A} (i : nat) (m : M Account A) : M (list Account) (option A) := λ l fs,
  match l !! i with
  | None => (l, Some (None, fs))
  | Some a => match m a fs with (a', r) => (<[i := a']> l, '(x, fs) ← r; Some (Some x, fs)) end
  end.

Fixpoint restore_all (places : list nat) : M (list Account) unit :=
  match places with
  | [] => mret tt
  | i :: places => _ ← focus i restore_missing; restore_all places
  end.
Fixpoint treat_all (key : option str) (places : list nat) : M (list Account) (Counts * list nat) :=
  match places with
  | [] => mret (none_, [])
  | i :: places =>
      r ← focus i (treat key);
      '(c, redo) ← treat_all key places;
      match r with
      | Some (c', again) => mret (plus_ c' c, if again : bool then i :: redo else redo)
      | None => mret (c, redo)
      end
  end.

Definition account_dbs (l : list Account) : list nat :=
  filter (λ i, match l !! i with Some a => bool_decide (is_Some (f_db a)) || bool_decide (is_Some (f_bak a)) | None => false end = true) (seq 0 (length l)).
Definition present (l : list Account) (places : list nat) : list nat :=
  filter (λ i, match l !! i with Some a => bool_decide (is_Some (f_db a)) | None => false end = true) places.

Definition prepare (key : option str) : M (list Account) Prepare :=
  places ← gets account_dbs;
  _ ← restore_all places;
  places ← gets (λ l, present l places);
  '(c, redo) ← treat_all key places;
  '(c', _) ← treat_all key redo;
  let c := plus_ c c' in
  mret (MkPrepare (bool_decide (is_Some key) && ((0 <? n_already c + n_migrated c) || (n_failed c =? 0))%N)
          (n_migrated c) (n_already c) (n_locked c)).

(** [db.is_file() && !opens(db, None)] *)
Definition not_plain : M Account bool :=
  there ← gets (λ a, bool_decide (is_Some (f_db a)));
  if negb there then mret false else
  plain ← reads (λ a, opens_plain (f_db a));
  mret (match plain with Some _ => false | None => true end).
Fixpoint any_encrypted (places : list nat) : M (list Account) bool :=
  match places with
  | [] => mret false
  | i :: places =>
      r ← focus i not_plain;
      if default false r : bool then mret true else any_encrypted places
  end.
Definition has_encrypted : M (list Account) bool := places ← gets account_dbs; any_encrypted places.

Inductive Lookup := Found (hex : str) | NoEntry | Unavailable.
Inductive KeyIssue := KeychainUnavailable | KeyMissing.
Definition decide_key (lookup : Lookup) (has_encrypted : bool) : option str * bool * option KeyIssue :=
  match lookup with
  | Found hex => (Some hex, false, None)
  | NoEntry => if has_encrypted then (None, false, Some KeyMissing) else (None, true, None)
  | Unavailable => if has_encrypted then (None, false, Some KeyMissing) else (None, false, Some KeychainUnavailable)
  end.

(** [lookup]: what the keychain says; [created]: the key it takes, if it does. *)
Definition startup (locked : bool) (lookup : Lookup) (created : option str) : M (list Account) (option str * option KeyIssue * bool) :=
  if locked then mret (None, None, true) else
  encrypted ← has_encrypted;
  let '(hex, create, issue) := decide_key lookup encrypted in
  let '(hex, issue) := if create : bool
                       then (created, if bool_decide (created = None) then Some KeychainUnavailable else issue) else (hex, issue) in
  report ← prepare hex;
  mret (if p_use_key report then (λ h, lit "x'" ++ h ++ lit "'") <$> hex else None, issue, false).
End Migrate.

(** Runs in which no file fails to open. *)
Definition opening (f : Fate) : Prop := f ≠ Unread.

Section Survive.
Context {S : Sqlite} {L : SqliteLaws} {allowed : Fate → Prop} (allowed_opens : ∀ f, allowed f → opening f).

(** What holds an account's data under a key: the database in the clear; the
    backup, when there is no database; or the database under the key. *)
Inductive holds_data (k : str) (d : db) (a : Account) : Prop :=
| holds_plain : opens_plain (f_db a) = Some d → holds_data k d a
| holds_backup : f_db a = None → opens_plain (f_bak a) = Some d → holds_data k d a
| holds_sealed : opens_plain (f_db a) = None → opens_keyed (f_db a) k = Some d → holds_data k d a.
Hint Constructors holds_data : core.

Definition sealed (k : str) (d : db) (a : Account) : Prop := opens_plain (f_db a) = None ∧ opens_keyed (f_db a) k = Some d.
Lemma sealed_encode k d x e : sealed k d (MkAccount (Some (encode (Some k) d)) x e).
Proof. split; cbn [opens_plain opens_keyed f_db mbind option_bind]; [by apply opens_other|by apply opens_encode]. Qed.

Definition readable (k : str) (d : db) (a : Account) : Prop := opens_plain (f_db a) = Some d ∨ sealed k d a.
Lemma readable_holds k d a : readable k d a → holds_data k d a.
Proof. intros [H|[H1 H2]]; [by apply holds_plain|by apply holds_sealed]. Qed.
Lemma holds_readable k d a : holds_data k d a → is_Some (f_db a) → readable k d a.
Proof. intros [H|H _|H1 H2] [b Hb]; [by left|by rewrite Hb in H|by right]. Qed.

Lemma spec_opens {A} P (f : Account → option A) Q R : (∀ s, P s → R s ∧ Q (f s) s) → spec allowed P (reads f) Q R.
Proof. by apply spec_reads_ok. Qed.

Definition counts_well (d : db) : Prop := Forall (λ t, is_Some (rows d t)) COUNT_TABLES.

(** The export is the data, or it is not used. *)
Definition exported (k : str) (d : db) (ok : bool) (a : Account) : Prop :=
  opens_plain (f_db a) = Some d ∧ (ok = true → f_enc a = Some (encode (Some k) d)).

Lemma export_spec k d : spec allowed (λ a, opens_plain (f_db a) = Some d) (export_verified k) (exported k d) (λ a, opens_plain (f_db a) = Some d).
Proof.
  unfold export_verified. eapply spec_bind.
  { apply (spec_opens _ _ (λ x a, x = Some d ∧ opens_plain (f_db a) = Some d)). done. }
  intros x. apply spec_pre. intros ->. eapply spec_bind.
  { apply (spec_tear _ _ _ _ (λ ok a, opens_plain (f_db a) = Some d ∧ (ok = true → f_enc a = Some (encode (Some k) (set_version d 0))))).
    intros a Ha. by split_and!. }
  intros ok. apply spec_case; intros Hok; [apply spec_ret; intros a [Ha _]; by split|].
  apply negb_false_iff in Hok as ->. eapply spec_bind.
  { apply (spec_opens _ _ (λ x a, x = Some (set_version d 0) ∧ (opens_plain (f_db a) = Some d ∧ f_enc a = Some (encode (Some k) (set_version d 0))))).
    intros a [Ha He]. rewrite (He eq_refl). cbn. split; [done|]. split; [by rewrite opens_encode|done]. }
  intros x. apply spec_pre. intros ->. rewrite version_set. eapply spec_bind.
  { apply spec_case; intros Hv.
    - apply (spec_ret _ _ _ _ (λ ok a, opens_plain (f_db a) = Some d ∧ (ok = true → f_enc a = Some (encode (Some k) d)))).
      intros a [Ha He]. split; [done|intros _]. apply N.eqb_eq in Hv. by rewrite He, Hv, set_same.
    - apply (spec_act _ _ _ (λ ok a, opens_plain (f_db a) = Some d ∧ (ok = true → f_enc a = Some (encode (Some k) d)))).
      intros a [Ha He]. split; [done|]. split; [done|]. split; [done|intros _]. cbn. by rewrite set_twice, set_same. }
  intros ok. apply spec_case; intros Hok; [apply spec_ret; intros a [Ha _]; by split|].
  apply negb_false_iff in Hok as ->. eapply spec_bind.
  { apply (spec_opens _ _ (λ _ a, opens_plain (f_db a) = Some d ∧ (true = true → f_enc a = Some (encode (Some k) d)))). by intros a [Ha He]. }
  intros x. apply spec_ret. intros a [Ha He]. split; auto.
Qed.

Lemma remove_enc_spec (Q R : Account → Prop) : (∀ a e, Q a → Q (set_enc e a)) → (∀ a, Q a → R a) →
  spec allowed Q remove_enc (λ _, Q) R.
Proof. intros HQ HR. apply spec_act. intros a Ha. split; [by apply HR|]. split; [done|]. destruct (f_enc a); [by apply HQ|done]. Qed.

(** [migrate] leaves the data in the clear, in the backup or under the key; it
    says that it worked only in the last case. *)
Lemma migrate_spec k d : spec allowed (λ a, opens_plain (f_db a) = Some d) (migrate k)
  (λ ok a, holds_data k d a ∧ (ok = true → sealed k d a)) (holds_data k d).
Proof.
  set (P := λ a, opens_plain (f_db a) = Some d).
  assert (Hrm : spec allowed P remove_enc (λ _, P) (holds_data k d)) by (apply remove_enc_spec; [done|by apply holds_plain]).
  unfold migrate. eapply spec_bind; [exact Hrm|]. intros ?.
  eapply spec_bind; [eapply spec_mono; [apply export_spec|done|done|by apply holds_plain]|]. intros ok. eapply spec_bind.
  { apply (spec_case _ _ _ _ _ (exported k d)); intros Hok; [|apply spec_ret; intros a [Ha _]; by split].
    subst. apply spec_act. intros a [Ha He]. split; [by apply holds_plain|]. split; [by split|by split; auto]. }
  clear ok. intros ok. apply spec_case; intros Hok.
  { eapply spec_bind; [eapply spec_mono; [exact Hrm|by intros a []|done|done]|]. intros ?; apply spec_ret. intros a Ha. split; [by apply holds_plain|done]. }
  apply negb_false_iff in Hok as ->.
  eapply (spec_bind _ _ _ _ (λ b a, if b : bool then f_db a = None ∧ opens_plain (f_bak a) = Some d ∧ f_enc a = Some (encode (Some k) d) else P a)).
  { apply spec_act. intros a [Ha He]. split; [by apply holds_plain|]. split; [done|]. specialize (He eq_refl). unfold opens_plain in Ha.
    destruct (f_db a) as [b|]; [|done]. cbn [mbind option_bind] in *. done. }
  intros first. eapply (spec_bind _ _ _ _ (λ b a, if b : bool then sealed k d a else holds_data k d a)).
  { apply spec_case; intros ->; [|apply spec_ret; intros a Ha; by apply holds_plain].
    eapply (spec_bind _ _ _ _ (λ b a, if b : bool then sealed k d a else f_db a = None ∧ opens_plain (f_bak a) = Some d)).
    - apply spec_act. intros a (Hdb & Hbak & He). split; [by apply holds_backup|]. split; [done|].
      rewrite He. cbn [mbind option_bind]. apply sealed_encode.
    - intros second. apply spec_case; intros ->; [by apply spec_ret|]. eapply (spec_bind _ _ _ _ (λ _, holds_data k d)).
      + apply spec_act. intros a [Hdb Hbak]. assert (holds_data k d a) by by apply holds_backup. split; [done|]. split; [done|].
        unfold opens_plain in Hbak. destruct (f_bak a) as [b|]; [|done]. cbn [mbind option_bind] in *. by apply holds_plain.
      + intros ?. by apply spec_ret. }
  intros swapped. apply spec_case; intros Hsw.
  - apply negb_true_iff in Hsw as ->. eapply spec_bind; [apply remove_enc_spec; [|done]|intros ?; by apply spec_ret].
    intros a e []; [by apply holds_plain|by apply holds_backup|by apply holds_sealed].
  - apply negb_false_iff in Hsw as ->. apply spec_ret. intros a [H1 H2]. split; [by apply holds_sealed|done].
Qed.

Lemma restore_spec k d : spec allowed (holds_data k d) restore_missing (λ _, holds_data k d) (holds_data k d).
Proof.
  unfold restore_missing. eapply (spec_bind _ _ _ _ (λ b a, holds_data k d a ∧ (b = false → f_db a = None ∧ opens_plain (f_bak a) = Some d))).
  { apply spec_gets. intros a Ha. split; [done|]. intros Hn%bool_decide_eq_false. destruct (f_db a) as [b|] eqn:Hb; [by destruct Hn|].
    split; [done|]. destruct Ha as [Ha|_ Ha|_ Ha]; [by rewrite Hb in Ha|done|by rewrite Hb in Ha]. }
  intros there. apply spec_case; intros ->; [apply spec_ret; by intros a []|].
  eapply (spec_bind _ _ _ _ (λ _ a, holds_data k d a ∧ f_db a = None ∧ opens_plain (f_bak a) = Some d)).
  { apply spec_opens. intros a [Ha Hn]. split; [done|]. split; [done|]. by apply Hn. }
  intros [d'|]; [|apply spec_ret; by intros a []]. eapply (spec_bind _ _ _ _ (λ _, holds_data k d)); [|intros ?; by apply spec_ret].
  apply spec_act. intros a (Ha & Hn & Hb). split; [done|]. split; [done|]. unfold opens_plain in Hb.
  destruct (f_bak a) as [b|]; [|done]. cbn [mbind option_bind] in *. by apply holds_plain.
Qed.

Lemma classify_spec k d : spec allowed (readable k d) (classify (Some k))
  (λ kind a, (kind = Plain ∧ opens_plain (f_db a) = Some d) ∨ (kind = Ours ∧ sealed k d a)) (holds_data k d).
Proof.
  unfold classify. eapply (spec_bind _ _ _ _ (λ _, readable k d)).
  { apply spec_act. intros a Ha. split; [by apply readable_holds|]. split; [done|]. destruct (f_db a) eqn:Hb; [done|].
    destruct Ha as [Ha|[_ Ha]]; by rewrite Hb in Ha. }
  intros created. eapply (spec_bind _ _ _ _ (λ x a, match x with Some _ => opens_plain (f_db a) = Some d | None => sealed k d a end)).
  { apply spec_opens. intros a Ha. split; [by apply readable_holds|]. destruct Ha as [Ha|[Ha Hs]]; by rewrite Ha. }
  intros [x|]; [apply spec_ret; by left|]. eapply (spec_bind _ _ _ _ (λ x a, is_Some x ∧ sealed k d a)).
  { apply spec_opens. intros a [Ha Hs]. split; [by apply holds_sealed|]. by rewrite Hs. }
  intros x. apply spec_pre. intros [y ->]. apply spec_ret. by right.
Qed.

Lemma bak_superseded_spec k (Q : Account → Prop) : spec allowed Q (bak_superseded k) (λ _, Q) Q.
Proof.
  unfold bak_superseded. eapply (spec_bind _ _ _ _ (λ _, Q)); [by apply spec_opens|]. intros plain.
  eapply (spec_bind _ _ _ _ (λ _, Q)); [by apply spec_opens|]. intros enc. by apply spec_ret.
Qed.

(** A database that can be read is encrypted or left as it is. *)
Lemma treat_spec k d : spec allowed (readable k d) (treat (Some k)) (λ r a, r.2 = false ∧ holds_data k d a) (holds_data k d).
Proof.
  unfold treat. eapply spec_bind; [apply classify_spec|]. intros kind. destruct kind.
  - eapply (spec_bind _ _ _ _ (λ _, holds_data k d)); [|intros ok; by apply spec_ret].
    eapply spec_mono; [apply migrate_spec| |by intros ok a []|done]. by intros a [[_ Ha]|[? _]].
  - eapply (spec_mono _ (λ a, sealed k d a)); [|by intros a [[? _]|[_ Ha]]|intros ? ? H; exact H|intros ? H; exact H].
    eapply (spec_bind _ _ _ _ (λ _, sealed k d)); [apply spec_gets; done|]. intros backed.
    eapply (spec_bind _ _ _ _ (λ _, sealed k d)).
    { apply spec_case; intros _; [|by apply spec_ret]. eapply spec_mono; [apply (bak_superseded_spec k (sealed k d))|done|done|]. intros a []. by apply holds_sealed. }
    intros superseded. eapply (spec_bind _ _ _ _ (λ _ a, sealed k d a)); [|intros ?; apply spec_ret; intros a []; split; [done|by apply holds_sealed]].
    apply spec_case; intros _; [|by apply spec_ret]. apply spec_act. intros a [H1 H2]. split; [by apply holds_sealed|]. split; [done|].
    by destruct (f_bak a).
  - eapply (spec_mono _ (λ a, False)); [|by intros a [[? _]|[? _]]|intros ? ? H; exact H|intros ? H; exact H]. by intros s fs _ [].
Qed.

(** ** All accounts *)

Definition all_hold (k : str) (ds : list db) (l : list Account) : Prop := Forall2 (holds_data k) ds l.
(** What holds of the account at a place and its data. *)
Definition at_place (Q : db → Account → Prop) (ds : list db) (l : list Account) (i : nat) : Prop :=
  ∀ d a, ds !! i = Some d → l !! i = Some a → Q d a.

Lemma all_hold_insert k ds l i d a' : all_hold k ds l → ds !! i = Some d → holds_data k d a' → all_hold k ds (<[i := a']> l).
Proof. intros Hl Hd Ha. rewrite <- (list_insert_id ds i d Hd). by apply Forall2_insert. Qed.
Lemma at_place_insert Q ds l i j a' :
  at_place Q ds l j → (∀ d, ds !! i = Some d → i = j → Q d a') → at_place Q ds (<[i := a']> l) j.
Proof.
  intros Hj Hi d a Hd Ha. destruct (decide (i = j)) as [->|Hne].
  - destruct (decide (j < length l)); [|rewrite list_insert_ge in Ha by lia; by apply Hj].
    rewrite list_lookup_insert_eq in Ha by done. injection Ha as <-. by apply Hi.
  - rewrite list_lookup_insert_ne in Ha by done. by apply Hj.
Qed.

(** A step on one account, and what it leaves of the others at [places]. *)
Lemma focus_spec {A} k ds i (m : M Account A) (P Q : db → Account → Prop) (X : A → Prop) (places : list nat) : i ∉ places →
  (∀ d, spec allowed (λ a, P d a ∧ holds_data k d a) m (λ x a, X x ∧ holds_data k d a) (holds_data k d)) →
  spec allowed (λ l, all_hold k ds l ∧ at_place P ds l i ∧ ∀ j, j ∈ places → at_place Q ds l j) (focus i m)
    (λ x l, (∀ y, x = Some y → X y) ∧ all_hold k ds l ∧ ∀ j, j ∈ places → at_place Q ds l j) (all_hold k ds).
Proof.
  intros Hni Hm l fs Hok (Hl & HP & HQ). unfold focus. destruct (l !! i) as [a|] eqn:Hi; [|done].
  destruct (Forall2_lookup_r _ _ _ _ _ Hl Hi) as (d & Hd & Ha). specialize (Hm d a fs Hok (conj (HP d a Hd Hi) Ha)).
  destruct (m a fs) as [a' [[x fs']|]]; [|by eapply all_hold_insert].
  destruct Hm as [[Hx Ha'] Hfs]. split; [|done]. split; [by intros y [= <-]|]. split; [by eapply all_hold_insert|].
  intros j Hj. apply at_place_insert; [by apply HQ|]. intros d' _ ->. done.
Qed.
Lemma restore_all_spec k ds places : spec allowed (all_hold k ds) (restore_all places) (λ _, all_hold k ds) (all_hold k ds).
Proof.
  induction places as [|i places IH]; [by apply spec_ret|]. cbn [restore_all].
  eapply spec_bind; [|intros ?; exact IH].
  eapply spec_mono; [apply (focus_spec k ds i restore_missing (λ _ _, True) (λ _ _, True) (λ _, True) [])|..].
  - apply not_elem_of_nil.
  - intros d. eapply spec_mono; [apply restore_spec|by intros a []|done|done].
  - intros l Hl. split_and!; [done|done|]. by intros j ?%not_elem_of_nil.
  - by intros x l (_ & Hl & _).
  - done.
Qed.
Lemma treat_all_spec k ds places : NoDup places →
  spec allowed (λ l, all_hold k ds l ∧ ∀ j, j ∈ places → at_place (readable k) ds l j) (treat_all (Some k) places)
    (λ r l, r.2 = [] ∧ all_hold k ds l) (all_hold k ds).
Proof.
  induction places as [|i places IH]; intros Hnd; [apply spec_ret; by intros l []|]. apply NoDup_cons in Hnd as [Hni Hnd]. cbn [treat_all].
  eapply spec_bind.
  { eapply spec_mono; [apply (focus_spec k ds i (treat (Some k)) (readable k) (readable k) (λ r, r.2 = false) places Hni)|..].
    - intros d. eapply spec_mono; [apply treat_spec|by intros a []|done|done].
    - intros l [Hl Hp]. split_and!; [done|apply Hp; set_solver|]. intros j Hj. apply Hp. set_solver.
    - intros x l H. exact H.
    - done. }
  intros r. apply spec_pre. intros Hr. eapply spec_bind; [by apply IH|]. intros [c redo]. apply spec_pre. cbn. intros ->.
  destruct r as [[c' again]|]; [|by apply spec_ret]. specialize (Hr _ eq_refl). cbn in Hr. subst. by apply spec_ret.
Qed.

Lemma present_readable k ds l places i : all_hold k ds l → i ∈ present l places → at_place (readable k) ds l i.
Proof.
  intros Hl [Hi _]%list_elem_of_filter d a Hd Ha. rewrite Ha in Hi. apply bool_decide_eq_true in Hi.
  apply holds_readable; [|done]. by eapply Forall2_lookup_lr.
Qed.
Lemma account_dbs_NoDup l : NoDup (account_dbs l).
Proof. apply NoDup_filter, NoDup_seq. Qed.

Lemma prepare_spec k ds : spec allowed (all_hold k ds) (prepare (Some k)) (λ _, all_hold k ds) (all_hold k ds).
Proof.
  unfold prepare. eapply (spec_bind _ _ _ _ (λ places l, NoDup places ∧ all_hold k ds l)).
  { apply spec_gets. intros l Hl. split; [apply account_dbs_NoDup|done]. }
  intros places. apply spec_pre. intros Hnd.
  eapply spec_bind; [apply restore_all_spec|]. intros ?.
  eapply (spec_bind _ _ _ _ (λ p l, NoDup p ∧ all_hold k ds l ∧ ∀ j, j ∈ p → at_place (readable k) ds l j)).
  { apply spec_gets. intros l Hl. split; [by apply NoDup_filter|]. split; [done|]. intros j. by apply present_readable. }
  intros places'. apply spec_pre. intros Hnd'.
  eapply spec_bind; [by apply treat_all_spec|]. intros [c redo]. apply spec_pre. cbn. intros ->.
  eapply spec_bind; [eapply spec_mono; [apply (treat_all_spec k ds []); constructor| |done|done]|].
  { intros l Hl. split; [done|]. by intros j ?%not_elem_of_nil. }
  intros [c' redo']. apply spec_ret. by intros l [].
Qed.
End Survive.

Section Start.
Context {S : Sqlite} {L : SqliteLaws}.

Lemma prepare_holds k ds l fs : Forall opening fs → all_hold k ds l → all_hold k ds (fst (prepare (Some k) l fs)).
Proof.
  intros Hfs Hl. pose proof (prepare_spec (allowed := opening) (λ _ H, H) k ds l fs Hfs Hl) as H.
  destruct (prepare (Some k) l fs) as [l' [[p fs']|]]; [by destruct H|done].
Qed.

(** ** A start without failures *)

Lemma same_counts_version d v : counts_well d → same_counts d (set_version d v) = true.
Proof.
  intros Hd. apply forallb_forall. intros t Ht%list_elem_of_In. rewrite rows_set.
  destruct (proj1 (Forall_forall _ _) Hd t Ht) as [n ->]. apply N.eqb_refl.
Qed.

Lemma migrate_quiet k d a : opens_plain (f_db a) = Some d → counts_well d →
  ∃ b, f_db a = Some b ∧ quiet (migrate k) a true (MkAccount (Some (encode (Some k) d)) (Some b) None).
Proof.
  intros Ha Hd. unfold opens_plain in Ha. destruct (f_db a) as [b|] eqn:Hb; [|done]. cbn [mbind option_bind] in Ha.
  exists b. split; [done|]. unfold quiet, migrate.
  set (a1 := set_enc None a). assert (Hrm : ∃ ok, remove_enc a [] = (a1, Some (ok, []))).
  { unfold remove_enc, act, a1. destruct a as [x y [e|]]; cbn; eauto. }
  destruct Hrm as [ok0 Hrm].
  assert (Hexp : export_verified k a1 [] = (set_enc (Some (encode (Some k) d)) a, Some (true, []))).
  { set (a2 := λ v, set_enc (Some (encode (Some k) (set_version d v))) a).
    assert (Hplain : ∀ x, opens_plain (f_db (set_enc x a)) = Some d).
    { intros x. unfold opens_plain. cbn [set_enc f_db]. rewrite Hb. exact Ha. }
    assert (Hend : quiet (ok ← if (0 =? version d)%N then mret true else copy_version (set_version d 0) k (version d);
        if negb ok then mret false else
        again ← reads (λ a, opens_plain (f_db a));
        mret (match again with Some d' => same_counts d' (set_version d 0) | None => false end)) (a2 0%N) true (a2 (version d))).
    { eapply (quiet_bind _ _ _ true (a2 (version d))).
      - destruct (N.eqb_spec 0 (version d)) as [<-|]; [apply quiet_ret|]. unfold copy_version. rewrite set_twice. done.
      - eapply quiet_bind; [apply quiet_reads|]. unfold a2 at 1. rewrite Hplain, same_counts_version by done. apply quiet_ret. }
    assert (a2 (version d) = set_enc (Some (encode (Some k) d)) a) as <- by (unfold a2; by rewrite set_same).
    unfold export_verified. eapply quiet_bind; [apply quiet_reads|]. unfold a1 at 1. rewrite Hplain.
    eapply (quiet_bind _ _ a1 true (a2 0%N)); [done|]. cbn [negb]. eapply quiet_bind; [apply quiet_reads|].
    unfold opens_keyed at 1, a2 at 1. cbn [set_enc f_enc mbind option_bind]. rewrite opens_encode, version_set. exact Hend. }
  unfold mbind, M_bind. rewrite Hrm, Hexp. cbn [fsync_enc act negb]. unfold fsync_enc, rename_db_bak, rename_enc_db, act.
  cbn [set_enc f_db f_bak f_enc negb]. rewrite Hb. done.
Qed.

Lemma restore_quiet k d a : holds_data k d a →
  ∃ a', quiet restore_missing a tt a' ∧ holds_data k d a' ∧ is_Some (f_db a').
Proof.
  intros Ha. unfold restore_missing. destruct (f_db a) as [b|] eqn:Hb.
  - exists a. split_and!; [|done|by rewrite Hb]. eapply quiet_bind; [apply quiet_gets|]. rewrite Hb. done.
  - exists (MkAccount (f_bak a) None (f_enc a)). assert (opens_plain (f_bak a) = Some d) as Hd.
    { destruct Ha as [Ha|_ Ha|_ Ha]; [by rewrite Hb in Ha|done|by rewrite Hb in Ha]. }
    split_and!.
    + eapply quiet_bind; [apply quiet_gets|]. rewrite Hb. cbn. eapply quiet_bind; [apply quiet_reads|]. rewrite Hd.
      eapply quiet_bind; [|apply quiet_ret]. unfold opens_plain in Hd. destruct a as [x [y|] z]; [|done]. done.
    + by apply holds_plain.
    + unfold opens_plain in Hd. by destruct (f_bak a).
Qed.

Lemma classify_quiet key a : is_Some (f_db a) →
  quiet (classify key) a
    (match opens_plain (f_db a), key with
     | Some _, _ => Plain
     | None, None => Foreign
     | None, Some k => match opens_keyed (f_db a) k with Some _ => Ours | None => Foreign end
     end) a.
Proof.
  intros [b Hb]. unfold classify. apply (quiet_bind _ _ _ false a); [unfold quiet, create_missing, act; by rewrite Hb|].
  eapply quiet_bind; [apply quiet_reads|]. destruct (opens_plain (f_db a)); [apply quiet_ret|]. destruct key as [k|]; [|apply quiet_ret].
  eapply quiet_bind; [apply quiet_reads|]. apply quiet_ret.
Qed.

Lemma treat_quiet k d a : readable k d a → counts_well d →
  ∃ c a', quiet (treat (Some k)) a (c, false) a' ∧ sealed k d a' ∧ n_locked c = 0%N ∧ n_failed c = 0%N.
Proof.
  intros [Ha|[Hp Hs]] Hd; unfold treat.
  - assert (is_Some (f_db a)) as Hdb by (revert Ha; unfold opens_plain; by destruct (f_db a)).
    destruct (migrate_quiet k d a Ha Hd) as (b & Hb & Hm). exists (MkCounts 1 0 0 0), (MkAccount (Some (encode (Some k) d)) (Some b) None).
    split_and!; [|apply sealed_encode..|done|done]. eapply quiet_bind; [by apply classify_quiet|]. rewrite Ha.
    eapply quiet_bind; [exact Hm|]. apply quiet_ret.
  - assert (is_Some (f_db a)) as Hdb by (revert Hs; unfold opens_keyed; by destruct (f_db a)).
    assert (∃ b, quiet (if bool_decide (is_Some (f_bak a)) then bak_superseded k else mret false) a b a) as [superseded Hsup].
    { case_bool_decide; [|exists false; apply quiet_ret]. eexists. unfold bak_superseded.
      eapply quiet_bind; [apply quiet_reads|]. eapply quiet_bind; [apply quiet_reads|]. apply quiet_ret. }
    assert (∃ b a', quiet (if superseded then remove_bak else mret true) a b a' ∧ f_db a' = f_db a) as (b & a' & Hq & Hdb').
    { destruct superseded; [|exists true, a; split; [apply quiet_ret|done]]. eexists _, _. split; [apply (quiet_act _ a)|]. destruct a as [? [?|] ?]; reflexivity. }
    exists (MkCounts 0 1 0 0), a'. split_and!; [|unfold sealed; by rewrite Hdb'|done|done].
    eapply quiet_bind; [by apply classify_quiet|]. rewrite Hp, Hs.
    eapply quiet_bind; [apply quiet_gets|]. eapply quiet_bind; [exact Hsup|]. eapply quiet_bind; [exact Hq|]. apply quiet_ret.
Qed.

Lemma focus_quiet {A} (m : M Account A) l i a x a' : l !! i = Some a → quiet m a x a' → quiet (focus i m) l (Some x) (<[i := a']> l).
Proof. intros Hi Hq. unfold quiet, focus. rewrite Hi, Hq. done. Qed.

Lemma restore_all_quiet k ds places : ∀ l, all_hold k ds l →
  ∃ l', quiet (restore_all places) l tt l' ∧ all_hold k ds l' ∧
    (∀ i a, l' !! i = Some a → i ∈ places ∨ (∃ b, l !! i = Some b ∧ is_Some (f_db b)) → is_Some (f_db a)).
Proof.
  induction places as [|i places IH]; intros l Hl.
  { exists l. split_and!; [done|done|]. intros i a Hi [[]%not_elem_of_nil|(b & Hb & Hs)]. by simplify_eq. }
  destruct (l !! i) as [a|] eqn:Hi.
  - destruct (Forall2_lookup_r _ _ _ _ _ Hl Hi) as (d & Hd & Ha). destruct (restore_quiet k d a Ha) as (a' & Hq & Ha' & Hs).
    destruct (IH (<[i := a']> l)) as (l' & Hq' & Hl' & Hdb); [by eapply all_hold_insert|]. exists l'. split_and!; [|done|].
    { cbn [restore_all]. eapply quiet_bind; [by eapply focus_quiet|exact Hq']. }
    intros j b Hj Hor. apply (Hdb j b Hj). destruct (decide (i = j)) as [<-|Hne].
    + right. exists a'. split; [|done]. apply list_lookup_insert_eq. by eapply lookup_lt_Some.
    + destruct Hor as [Hin|Hin]; [left; set_solver|right]. by rewrite list_lookup_insert_ne.
  - destruct (IH l Hl) as (l' & Hq' & Hl' & Hdb). exists l'. split_and!; [|done|].
    { cbn [restore_all]. eapply quiet_bind; [|exact Hq']. unfold quiet, focus. by rewrite Hi. }
    intros j b Hj Hor. apply (Hdb j b Hj). destruct Hor as [[->|Hin]%elem_of_cons|Hin]; [|by left|by right].
    exfalso. pose proof (Forall2_length _ _ _ Hl). pose proof (Forall2_length _ _ _ Hl'). apply lookup_lt_Some in Hj.
    apply lookup_ge_None in Hi. lia.
Qed.

Lemma treat_all_quiet k ds places : Forall counts_well ds → NoDup places → ∀ l, all_hold k ds l →
  (∀ i, i ∈ places → is_Some (l !! i) ∧ at_place (readable k) ds l i) →
  ∃ c l', quiet (treat_all (Some k) places) l (c, []) l' ∧ all_hold k ds l' ∧ n_locked c = 0%N ∧ n_failed c = 0%N ∧
    (∀ i, at_place (sealed k) ds l i → at_place (sealed k) ds l' i) ∧ (∀ i, i ∈ places → at_place (sealed k) ds l' i).
Proof.
  intros Hds. induction places as [|i places IH]; intros Hnd l Hl Hp.
  { exists none_, l. split_and!; try done. by intros i ?%not_elem_of_nil. }
  apply NoDup_cons in Hnd as [Hni Hnd]. destruct (Hp i) as [[a Hi] Hread]; [set_solver|].
  destruct (Forall2_lookup_r _ _ _ _ _ Hl Hi) as (d & Hd & _). pose proof (proj1 (Forall_lookup _ _) Hds i d Hd) as Hwell.
  destruct (treat_quiet k d a (Hread d a Hd Hi) Hwell) as (c & a' & Hq & Hs & Hlk & Hfl).
  destruct (IH Hnd (<[i := a']> l)) as (c' & l' & Hq' & Hl' & Hlk' & Hfl' & Hkeep & Hin).
  { eapply all_hold_insert; [done|exact Hd|]. apply readable_holds. by right. }
  { intros j Hj. destruct (Hp j) as [Hlj Hrj]; [set_solver|]. split.
    - apply lookup_lt_is_Some. rewrite length_insert. by apply lookup_lt_is_Some.
    - apply at_place_insert; [done|]. by intros d' _ ->. }
  assert (Hsi : at_place (sealed k) ds l' i).
  { apply Hkeep. intros d' x Hd' Hx. rewrite list_lookup_insert_eq in Hx by (by eapply lookup_lt_Some). by simplify_eq. }
  exists (plus_ c c'), l'. split_and!; [|done|cbn; lia|cbn; lia| |].
  - cbn [treat_all]. eapply quiet_bind; [by eapply focus_quiet|]. eapply quiet_bind; [exact Hq'|]. done.
  - intros j Hj. apply Hkeep, at_place_insert; [done|]. intros d' Hd' <-. by simplify_eq.
  - intros j [->|Hj]%elem_of_cons; [done|by apply Hin].
Qed.

Lemma prepare_quiet k ds l : all_hold k ds l → Forall counts_well ds →
  ∃ report l', quiet (prepare (Some k)) l report l' ∧ Forall2 (sealed k) ds l' ∧ p_use_key report = true ∧ p_locked report = 0%N.
Proof.
  intros Hl Hds. destruct (restore_all_quiet k ds (account_dbs l) l Hl) as (l1 & Hq1 & Hl1 & Hdb).
  destruct (treat_all_quiet k ds (present l1 (account_dbs l)) Hds) with (l := l1) as (c2 & l2 & Hq2 & Hl2 & Hlk2 & Hf2 & _ & Hin2); [|done| |].
  { by apply NoDup_filter, account_dbs_NoDup. }
  { intros i Hi. split; [|by eapply present_readable]. apply list_elem_of_filter in Hi as [Hi _]. by destruct (l1 !! i). }
  eexists _, l2. split_and!.
  - unfold prepare. eapply quiet_bind; [apply quiet_gets|]. eapply quiet_bind; [exact Hq1|].
    eapply quiet_bind; [apply quiet_gets|]. eapply quiet_bind; [exact Hq2|]. eapply quiet_bind; [apply quiet_ret|]. apply quiet_ret.
  - apply Forall2_same_length_lookup. split; [by eapply Forall2_length|]. intros i d a Hd Ha. apply (Hin2 i); [|done|done].
    assert (is_Some (l !! i)) as [a0 Ha0]. { apply lookup_lt_is_Some. rewrite <- (Forall2_length _ _ _ Hl). by eapply lookup_lt_Some. }
    assert (is_Some (l1 !! i)) as [a1 Ha1]. { apply lookup_lt_is_Some. rewrite <- (Forall2_length _ _ _ Hl1). by eapply lookup_lt_Some. }
    assert (Hi : i ∈ account_dbs l).
    { apply list_elem_of_filter. rewrite Ha0. split; [|apply elem_of_seq; apply lookup_lt_Some in Ha0; lia].
      apply orb_true_iff. rewrite !bool_decide_eq_true. destruct (Forall2_lookup_lr _ _ _ _ _ _ Hl Hd Ha0) as [H|_ H|_ H];
        [left|right|left]; revert H; unfold opens_plain, opens_keyed; [destruct (f_db a0)|destruct (f_bak a0)|destruct (f_db a0)]; done. }
    apply list_elem_of_filter. rewrite Ha1. split; [|done]. apply bool_decide_eq_true. apply (Hdb i a1 Ha1). by left.
  - cbn. rewrite Hf2. by rewrite orb_true_r.
  - cbn. by rewrite Hlk2.
Qed.

(** The life of an install: starts with the key, which may fail and crash, and
    sessions that change the data of an account whose database is there. *)
Inductive life (k : str) : list db → list Account → Prop :=
| life_begins ds l : all_hold k ds l → life k ds l
| life_start ds l fs : life k ds l → Forall opening fs → life k ds (fst (prepare (Some k) l fs))
| life_keyed ds l i d d' a : life k ds l → ds !! i = Some d → l !! i = Some a → sealed k d a →
    life k (<[i := d']> ds) (<[i := set_db (Some (encode (Some k) d')) a]> l)
| life_keyless ds l i d d' a : life k ds l → ds !! i = Some d → l !! i = Some a → opens_plain (f_db a) = Some d →
    life k (<[i := d']> ds) (<[i := set_db (Some (encode None d')) a]> l).

(** [C7]: Through any number of starts with the key, in which any removal, rename,
    export, copy or fsync on any account may fail, tear what it writes or be the last
    step before a crash, while no file that is there fails to open, and through
    sessions on databases that are there: every account's latest data is there, in
    the clear, under the key, or, when there is no database, in the backup; and a
    start without failures puts all of it under the key and hands the key over. *)
Theorem data_survives k ds l :
  life k ds l →
  all_hold k ds l ∧
  (Forall counts_well ds → ∃ report l', prepare (Some k) l [] = (l', Some (report, [])) ∧
     Forall2 (sealed k) ds l' ∧ p_use_key report = true ∧ p_locked report = 0%N).
Proof.
  intros Hlife. assert (all_hold k ds l) as Hl.
  { induction Hlife as [|ds l fs _ IH Hfs|ds l i d d' a _ IH Hd Ha _|ds l i d d' a _ IH Hd Ha _]; [done|by apply prepare_holds| |].
    - apply Forall2_insert; [done|]. apply holds_sealed; apply (sealed_encode k d' (f_bak a) (f_enc a)).
    - apply Forall2_insert; [done|]. apply holds_plain. apply opens_encode. }
  split; [done|]. intros Hds. destruct (prepare_quiet k ds l Hl Hds) as (report & l' & Hq & H). by exists report, l'.
Qed.

(** ** A start without the key *)

(** One account: what a start makes of it, from its own steps. *)
Lemma start_one locked lookup created hex issue a a1 c again a2 c' again' a3 :
  locked = false → is_Some (f_db a) →
  (let '(h, create, i) := decide_key lookup (match opens_plain (f_db a) with Some _ => false | None => true end) in
   if create : bool then (created, if bool_decide (created = None) then Some KeychainUnavailable else i) else (h, i)) = (hex, issue) →
  quiet restore_missing a tt a1 → is_Some (f_db a1) → quiet (treat hex) a1 (c, again) a2 →
  (if again then quiet (treat hex) a2 (c', again') a3 else c' = none_ ∧ a3 = a2) →
  ∃ report, startup locked lookup created [a] [] =
    ([a3], Some ((if p_use_key report then (λ h, lit "x'" ++ h ++ lit "'") <$> hex else None, issue, false), [])) ∧
    p_use_key report = bool_decide (is_Some hex) && ((0 <? n_already (plus_ c c') + n_migrated (plus_ c c')) || (n_failed (plus_ c c') =? 0))%N.
Proof.
  intros -> [b Hb] Hkey Hr [b1 Hb1] Ht Ht'. unfold startup.
  assert (Henc : quiet has_encrypted [a] (match opens_plain (f_db a) with Some _ => false | None => true end) [a]).
  { unfold has_encrypted. eapply quiet_bind; [apply quiet_gets|].
    assert (account_dbs [a] = [0]) as -> by (unfold account_dbs; cbn; by rewrite Hb). cbn [any_encrypted].
    assert (Hnot : quiet not_plain a (match opens_plain (f_db a) with Some _ => false | None => true end) a).
    { unfold not_plain. eapply quiet_bind; [apply quiet_gets|]. rewrite bool_decide_true by eauto. cbn [negb].
      eapply quiet_bind; [apply quiet_reads|]. apply quiet_ret. }
    eapply quiet_bind; [exact (focus_quiet _ [a] 0 a (match opens_plain (f_db a) with Some _ => false | None => true end) a eq_refl Hnot)|]. cbn [default from_option id]. by destruct (opens_plain (f_db a)). }
  unfold mbind at 1, M_bind at 1. rewrite Henc.
  destruct (decide_key lookup (match opens_plain (f_db a) with Some _ => false | None => true end)) as [[h create] i]. rewrite Hkey. cbn [fst snd].
  assert (Hplaces : account_dbs [a] = [0]) by (unfold account_dbs; cbn; by rewrite Hb).
  assert (Hpresent : present [a1] [0] = [0]) by (unfold present; cbn; by rewrite Hb1).
  assert (Hrest : quiet (restore_all [0]) [a] tt [a1]).
  { cbn [restore_all]. eapply quiet_bind; [by eapply (focus_quiet _ [a] 0)|]. apply quiet_ret. }
  assert (Htreat : quiet (treat_all hex [0]) [a1] (plus_ c none_, if again then [0] else []) [a2]).
  { cbn [treat_all]. eapply quiet_bind; [by eapply (focus_quiet _ [a1] 0)|]. eapply quiet_bind; [apply quiet_ret|]. apply quiet_ret. }
  assert (Hredo : ∃ r, quiet (treat_all hex (if again then [0] else [])) [a2] (plus_ c' none_, r) [a3]).
  { destruct again; [|destruct Ht' as [-> ->]; exists []; apply quiet_ret]. eexists. cbn [treat_all].
    eapply quiet_bind; [by eapply (focus_quiet _ [a2] 0)|]. eapply quiet_bind; [apply quiet_ret|]. apply quiet_ret. }
  destruct Hredo as [r Hredo].
  assert (Hprep : ∃ report, quiet (prepare hex) [a] report [a3] ∧ p_use_key report = bool_decide (is_Some hex) && ((0 <? n_already (plus_ c c') + n_migrated (plus_ c c')) || (n_failed (plus_ c c') =? 0))%N).
  { eexists. split.
    - unfold prepare. eapply quiet_bind; [apply quiet_gets|]. rewrite Hplaces. eapply quiet_bind; [exact Hrest|].
      eapply quiet_bind; [apply quiet_gets|]. rewrite Hpresent. eapply quiet_bind; [exact Htreat|]. eapply quiet_bind; [exact Hredo|]. apply quiet_ret.
    - cbn. by rewrite !N.add_0_r. }
  destruct Hprep as (report & Hprep & Huse). exists report. split; [|done]. unfold mbind, M_bind. by rewrite Hprep.
Qed.

Definition fewer_rows (d e : db) : Prop := Exists (λ t, ∃ n m, rows d t = Some n ∧ rows e t = Some m ∧ (m < n)%N) COUNT_TABLES.
Lemma kept_backup k d e x : fewer_rows d e →
  let a := MkAccount (Some (encode (Some k) e)) (Some (encode None d)) x in quiet (bak_superseded k) a false a.
Proof.
  intros (t & Ht & n & m & Hn & Hm & Hlt)%Exists_exists a. eapply quiet_bind; [apply quiet_reads|]. eapply quiet_bind; [apply quiet_reads|].
  unfold opens_plain, opens_keyed. cbn [f_bak f_db a mbind option_bind]. rewrite !opens_encode.
  enough (supersedes d e = false) as -> by apply quiet_ret. unfold supersedes. apply andb_false_iff. left. apply not_true_iff_false. intros Hall.
  apply forallb_forall with (x := t) in Hall; [|by apply list_elem_of_In]. rewrite Hn, Hm in Hall. case_bool_decide.
  - apply N.eqb_eq in Hall. lia.
  - apply N.leb_le in Hall. lia.
Qed.

(** [C27]: The first start with the key encrypts the database and leaves its clear
    text as the backup, and while the account has fewer rows than then, later starts
    with the key keep it; then one start for which the keychain has no key deletes
    the encrypted database, with all that came since, and goes on with the backup,
    in the clear. *)
Theorem missing_key_rolls_back k d0 d1 lookup created :
  counts_well d0 → lookup = Unavailable ∨ lookup = NoEntry →
  let key := Some (lit "x'" ++ k ++ lit "'") in
  let after d := MkAccount (Some (encode (Some k) d)) (Some (encode None d0)) None in
  startup false (Found k) None [MkAccount (Some (encode None d0)) None None] [] = ([after d0], Some ((key, None, false), [])) ∧
  (fewer_rows d0 d1 → startup false (Found k) None [after d1] [] = ([after d1], Some ((key, None, false), []))) ∧
  startup false lookup created [after d1] [] = ([MkAccount (Some (encode None d0)) None None], Some ((None, Some KeyMissing, false), [])).
Proof.
  intros Hwell Hlookup key after.
  assert (Hother : ∀ d, opens (encode (Some k) d) None = None) by (intros d; by apply opens_other).
  assert (Hstay : ∀ a, is_Some (f_db a) → quiet restore_missing a tt a).
  { intros a [b Hb]. eapply quiet_bind; [apply quiet_gets|]. by rewrite Hb. }
  split; [|split].
  - set (a0 := MkAccount (Some (encode None d0)) None None).
    destruct (migrate_quiet k d0 a0 (opens_encode _ _) Hwell) as (b & [= <-] & Hm).
    destruct (start_one false (Found k) None (Some k) None a0 a0 (MkCounts 1 0 0 0) false (after d0) none_ false (after d0)) as (report & Hs & Huse); try done; try by apply Hstay.
    + eapply quiet_bind; [by apply classify_quiet|]. unfold opens_plain. cbn [f_db a0 mbind option_bind]. rewrite opens_encode.
      eapply quiet_bind; [exact Hm|]. apply quiet_ret.
    + rewrite Hs, Huse. done.
  - intros Hfew.
    destruct (start_one false (Found k) None (Some k) None (after d1) (after d1) (MkCounts 0 1 0 0) false (after d1) none_ false (after d1)) as (report & Hs & Huse); try done; try by apply Hstay.
    + eapply quiet_bind; [by apply classify_quiet|]. unfold opens_plain, opens_keyed. cbn [f_db after mbind option_bind]. rewrite Hother, opens_encode.
      eapply quiet_bind; [apply quiet_gets|]. cbn [f_bak after]. rewrite bool_decide_true by eauto.
      eapply quiet_bind; [by apply kept_backup|]. eapply quiet_bind; apply quiet_ret.
    + rewrite Hs, Huse. done.
  - set (a0 := MkAccount (Some (encode None d0)) None None).
    destruct (start_one false lookup created None (Some KeyMissing) (after d1) (after d1) none_ true a0 none_ false a0) as (report & Hs & Huse); try done; try by apply Hstay.
    + unfold opens_plain. cbn [f_db after mbind option_bind]. rewrite Hother. by destruct Hlookup as [-> | ->].
    + eapply quiet_bind; [by apply classify_quiet|]. unfold opens_plain. cbn [f_db after mbind option_bind]. rewrite Hother.
      eapply quiet_bind; [apply quiet_reads|]. unfold opens_plain. cbn [f_bak after mbind option_bind]. rewrite opens_encode.
      eapply quiet_bind; [apply quiet_act|]. eapply quiet_bind; [|apply quiet_ret]. done.
    + eapply quiet_bind; [by apply classify_quiet|]. unfold opens_plain. cbn [f_db a0 mbind option_bind]. rewrite opens_encode. apply quiet_ret.
    + rewrite Hs, Huse. done.
Qed.

(** One failing open of an encrypted database that still has the backup of its
    migration is enough: the start takes it for a foreign one, deletes it, with all
    that came since, restores the backup, encrypts that, and goes on as if nothing
    had happened. *)
Theorem failing_open_rolls_back k d0 d1 :
  counts_well d0 →
  let after d := MkAccount (Some (encode (Some k) d)) (Some (encode None d0)) None in
  startup false (Found k) None [after d1] [Fine; Fine; Fine; Unread] =
    ([after d0], Some ((Some (lit "x'" ++ k ++ lit "'"), None, false), [])).
Proof.
  intros Hwell after. assert (Hother : ∀ d, opens (encode (Some k) d) None = None) by (intros d; by apply opens_other).
  set (a0 := MkAccount (Some (encode None d0)) None None).
  destruct (migrate_quiet k d0 a0 (opens_encode _ _) Hwell) as (b & [= <-] & Hm).
  assert (Hforeign : classify (Some k) (after d1) [Fine; Fine; Unread] = (after d1, Some (Foreign, []))).
  { unfold classify. erewrite run_bind by done. erewrite run_bind by done.
    unfold opens_plain at 1. cbn [f_db after mbind option_bind]. rewrite Hother. done. }
  assert (Hfirst : focus 0 (treat (Some k)) [after d1] [Fine; Fine; Unread] = ([a0], Some (Some (none_, true), []))).
  { unfold focus. cbn [lookup list_lookup]. unfold treat at 1. erewrite run_bind by exact Hforeign. cbv iota beta.
    erewrite run_bind by apply quiet_reads. unfold opens_plain at 1. cbn [f_bak after mbind option_bind]. rewrite opens_encode. done. }
  assert (Hsecond : quiet (focus 0 (treat (Some k))) [a0] (Some (MkCounts 1 0 0 0, false)) [after d0]).
  { apply (focus_quiet _ [a0] 0 a0 _ (after d0) eq_refl). eapply quiet_bind; [by apply classify_quiet|].
    unfold opens_plain. cbn [f_db a0 mbind option_bind]. rewrite opens_encode. eapply quiet_bind; [exact Hm|]. apply quiet_ret. }
  assert (Hprep : prepare (Some k) [after d1] [Fine; Fine; Unread] = ([after d0], Some (MkPrepare true 1 0 0, []))).
  { unfold prepare. erewrite (run_bind _ _ _ _ [0] [after d1]) by done.
    erewrite (run_bind _ _ _ _ tt [after d1]) by done. erewrite (run_bind _ _ _ _ [0] [after d1]) by done.
    erewrite (run_bind _ _ _ _ (none_, [0]) [a0] []); cycle 1.
    { cbn [treat_all]. erewrite run_bind by exact Hfirst. done. }
    erewrite (run_bind _ _ _ _ (MkCounts 1 0 0 0, []) [after d0] []); [done|].
    cbn [treat_all]. erewrite run_bind by exact Hsecond. done. }
  unfold startup. erewrite (run_bind _ _ _ _ true [after d1] [Fine; Fine; Unread]); cycle 1.
  { unfold has_encrypted. erewrite (run_bind _ _ _ _ [0] [after d1]) by done. cbn [any_encrypted].
    erewrite (run_bind _ _ _ _ (Some true) [after d1] [Fine; Fine; Unread]); [done|].
    unfold focus. cbn [lookup list_lookup]. unfold not_plain. erewrite run_bind by done. cbn [f_db after].
    rewrite bool_decide_true by eauto. cbn [negb]. erewrite run_bind by done.
    unfold opens_plain. cbn [f_db after mbind option_bind]. rewrite Hother. done. }
  cbn [decide_key]. by erewrite run_bind by exact Hprep.
Qed.
End Start.

(** ** A concrete database: the counts of its tables, an address, a version *)
Module Tables.

Definition content : Type := list (str * N) * option str * N.
Definition encode_ (key : option str) (d : content) : bytes := [Npos (countable.encode (key, d))].
Definition opens_ (b : bytes) (key : option str) : option content :=
  match b with
  | [] => Some ([], None, 0%N)                (* an empty file is an empty database *)
  | [Npos p] => '(key', d) ← decode (A := option str * content) p; if bool_decide (key' = key) then Some d else None
  | _ => None
  end.
#[export] Instance sqlite : Sqlite := {|
  db := content; DbMigrate.encode := encode_; opens := opens_;
  rows d t := (λ p, p.2.2) <$> list_find (λ p, p.1 = t) d.1.1;
  addr_of d := d.1.2; version d := d.2; set_version d v := (d.1, v);
|}.
#[export] Instance laws : SqliteLaws.
Proof.
  split; cbn.
  - intros key d. unfold opens_, encode_. rewrite decode_encode. cbn. by rewrite bool_decide_true.
  - intros key key' d Hne. unfold opens_, encode_. rewrite decode_encode. cbn. by rewrite bool_decide_false.
  - by intros [d v].
  - done.
  - done.
  - done.
Qed.

Definition key : str := lit "00112233445566778899aabbccddeeff00112233445566778899aabbccddeeff".
Definition mail (msgs : N) : @db sqlite :=
  ([(lit "msgs", msgs); (lit "chats", 2); (lit "contacts", 3); (lit "config", 9); (lit "keypairs", 1)]%N, Some (lit "me@example.org"), 7%N).
Lemma mail_well n : counts_well (mail n).
Proof. by repeat constructor; cbn; eauto. Qed.
Definition clear (n : N) : Account := MkAccount (Some (encode_ None (mail n))) None None.

(** A start that crashes between the two renames; one that restores and encrypts; a
    session. *)
Definition crash : list Fate := replicate 10 Fine ++ [Crash None].
End Tables.
Import Tables.

Lemma data_survives_witness :
  let l := fst (prepare (Some key) [clear 5] crash) in
  f_db (default (clear 0) (l !! 0)) = None ∧
  all_hold key [mail 5] l ∧
  ∃ report l', prepare (Some key) l [] = (l', Some (report, [])) ∧ Forall2 (sealed key) [mail 5] l' ∧ p_use_key report = true ∧ p_locked report = 0%N.
Proof.
  intros l. split; [vm_compute; reflexivity|].
  destruct (data_survives key [mail 5] l) as [H1 H2].
  - apply life_start; [apply life_begins; by repeat constructor|]. by repeat constructor.
  - split; [exact H1|]. apply H2. constructor; [apply mail_well|constructor].
Defined.
Lemma failing_open_rolls_back_witness :
  let after n := MkAccount (Some (encode_ (Some key) (mail n))) (Some (encode_ None (mail 5))) None in
  startup false (Found key) None [after 90%N] [Fine; Fine; Fine; Unread] =
    ([after 5%N], Some ((Some (lit "x'" ++ key ++ lit "'"), None, false), [])).
Proof. exact (failing_open_rolls_back key (mail 5) (mail 90) (mail_well 5)). Defined.
Lemma missing_key_rolls_back_witness :
  let after n := MkAccount (Some (encode_ (Some key) (mail n))) (Some (encode_ None (mail 5))) None in
  startup false (Found key) None [after 4%N] [] = ([after 4%N], Some ((Some (lit "x'" ++ key ++ lit "'"), None, false), [])) ∧
  startup false Unavailable None [after 4%N] [] = ([clear 5], Some ((None, Some KeyMissing, false), [])).
Proof.
  intros after. destruct (missing_key_rolls_back key (mail 5) (mail 4) Unavailable None (mail_well 5) (or_introl eq_refl)) as (_ & H1 & H2).
  split; [apply H1|exact H2]. apply Exists_cons_hd. exists 5%N, 4%N. by split_and!.
Defined.
