(* ===== verification/KeyWrap.v ===== *)
(** * Where the database key is kept ([db_key.rs], [win_hello.rs])

    The key of the databases is kept in one of three places: the keychain of the
    system, a file that a PIN opens, a file that Windows Hello opens.  Here: both
    files, and the steps that move the key from one place to another.

    Argon2, SHA-256 and the signature of the Hello credential are parameters;
    AES-GCM is that of the attachments.  Salts and nonces are arguments. *)

From S2P Require Import Prelude Str Attachment Net Crash DbMigrate.

Class Custody := {
  argon2id : bytes → bytes → bytes;   (* password, salt: 64 MiB, t=3, 32 bytes *)
  sha256 : bytes → bytes;
  hello_sig : bytes;                  (* the challenge signed by the credential *)
  windows : bool;                     (* the platform *)
}.

(** The item of the keychain, [dbkey.wrap], [dbkey.wrap.hello]. *)
Record Roots := MkRoots { keychain : option str; pin_file : option bytes; hello_file : option bytes }.
Definition set_keychain (x : option str) (r : Roots) := MkRoots x (pin_file r) (hello_file r).
Definition set_pin_file (x : option bytes) (r : Roots) := MkRoots (keychain r) x (hello_file r).
Definition set_hello_file (x : option bytes) (r : Roots) := MkRoots (keychain r) (pin_file r) x.

Inductive KeyError :=
| PinTooShort | BadDek | EncryptFailed | WriteFailed | CurrentPinRequired | Retry (secs : N) | CorruptWrap
| NoKey | KeychainUnavailable_ | KeychainWriteFailed | VerifyFailed | HelloFailed | PrepareFailed.

Definition le_bytes (c : N) : bytes := reverse (be_bytes 4 c).
Definition le_value (b : bytes) : N := be_value (reverse b).

Section KeyWrap.
Context {aead : Aead} {P : Platform} {C : Custody}.

(** ** The keychain *)

Definition keychain_entry : M Roots bool := act (λ r, Some r).
Definition well_formed_key (hex : str) : bool := (str_len hex =? 64)%N && forallb is_ascii_hexdigit hex.
Definition keychain_lookup : M Roots Lookup :=
  entry ← keychain_entry;
  if negb entry then mret Unavailable else
  ok ← act (λ r, Some r);
  if negb ok then mret Unavailable else
  item ← gets keychain;
  match item with
  | None => mret NoEntry
  | Some hex => mret (if well_formed_key hex then Found hex else Unavailable)
  end.
Definition drop_keychain : M Roots unit :=
  entry ← keychain_entry;
  if entry : bool then
    _ ← act (λ r, match keychain r with Some _ => Some (set_keychain None r) | None => None end);
    mret tt
  else mret tt.
Definition store_key (dek : str) : M Roots (result KeyError unit) :=
  entry ← keychain_entry;
  if negb entry then mret (Err KeychainUnavailable_) else
  ok ← act (λ r, Some (set_keychain (Some dek) r));
  mret (if ok : bool then Ok tt else Err KeychainWriteFailed).

(** ** The PIN *)

Definition pin_locked (r : Roots) : bool := bool_decide (is_Some (pin_file r)).
Definition derive_pin_kek (pin : str) (salt : bytes) : bytes := argon2id (as_bytes pin) salt.

Definition WRAP_MAGIC : bytes := as_bytes (lit "VLTDW").
Definition pin_header (counter : N) (salt nonce : bytes) : bytes := WRAP_MAGIC ++ [1%N] ++ le_bytes counter ++ salt ++ nonce.
Definition pin_aad (head salt nonce : bytes) : bytes := take 6 head ++ salt ++ nonce.

Definition write_pin (b : bytes) : M Roots bool := tear (λ r, Some (set_pin_file (Some b) r)) (λ t, set_pin_file (Some t)).
Definition remove_pin : M Roots bool := act (λ r, match pin_file r with Some _ => Some (set_pin_file None r) | None => None end).

Definition pin_wrap_write (salt nonce : bytes) (pin dek : str) : M Roots (result KeyError unit) :=
  if (chars_count pin <? 6)%N then mret (Err PinTooShort) else
  if negb (well_formed_key dek) then mret (Err BadDek) else
  let head := pin_header 0 salt nonce in
  match hex_decode (as_bytes dek) with
  | None => mret (Err BadDek)
  | Some raw =>
      match aead_enc (derive_pin_kek pin salt) nonce (pin_aad head salt nonce) raw with
      | None => mret (Err EncryptFailed)
      | Some ct => ok ← write_pin (head ++ ct); mret (if ok : bool then Ok tt else Err WriteFailed)
      end
  end.

Definition pin_counter_store (counter : N) : M Roots unit :=
  r ← reads pin_file;
  match r with
  | Some b => if (10 <=? N.of_nat (length b))%N then _ ← write_pin (take 6 b ++ le_bytes counter ++ drop 10 b); mret tt else mret tt
  | None => mret tt
  end.

Definition backoff_secs (attempts : N) : N :=
  if (attempts =? 0)%N then 0 else N.min 30 (N.shiftl 1 (N.min (attempts - 1) 5)).

Inductive PinOpen := Dek (hex : str) | Wrong (attempts delay_secs : N) | Corrupt.

Definition saturating_succ (c : N) : N := N.min (c + 1) 4294967295.

Definition pin_wrap_open (pin : str) : M Roots PinOpen :=
  r ← reads pin_file;
  match r with
  | None => mret Corrupt
  | Some b =>
      if negb (N.of_nat (length b) =? 86)%N || negb (bool_decide (take 5 b = WRAP_MAGIC)) || negb (bool_decide (b !! 5 = Some 1%N))
      then mret Corrupt else
      let attempts := le_value (slice 6 4 b) in
      let salt := slice 10 16 b in let nonce := slice 26 12 b in let ct := drop 38 b in
      match aead_dec (derive_pin_kek pin salt) nonce (pin_aad b salt nonce) ct with
      | Some dek => _ ← pin_counter_store 0; mret (Dek (hex_encode dek))
      | None => let attempts := saturating_succ attempts in
          _ ← pin_counter_store attempts; mret (Wrong attempts (backoff_secs attempts))
      end
  end.

(** What the callers make of it. *)
Definition opened (o : PinOpen) : result KeyError str :=
  match o with Dek dek => Ok dek | Wrong _ delay_secs => Err (Retry delay_secs) | Corrupt => Err CorruptWrap end.

(** ** Windows Hello *)

Definition HELLO_MAGIC : bytes := as_bytes (lit "VLTHW").
Definition WRAP_AAD : bytes := as_bytes (lit "VLTHW") ++ [1%N].
Definition kek (sig : bytes) : bytes := sha256 (as_bytes (lit "velta-hello-kek-v1") ++ sig).
(** The prompt: the signature, unless the user or the system refuses. *)
Definition sign_challenge : M Roots (option bytes) := ok ← act (λ r, Some r); mret (if ok : bool then Some hello_sig else None).

Definition seal (nonce : bytes) (dek : bytes) : M Roots (result KeyError bytes) :=
  if negb (bool_decide (length dek = 32)) then mret (Err BadDek) else
  sig ← sign_challenge;
  match sig with
  | None => mret (Err HelloFailed)
  | Some sig =>
      match aead_enc (kek sig) nonce WRAP_AAD dek with
      | None => mret (Err HelloFailed)
      | Some ct => if bool_decide (aead_dec (kek sig) nonce WRAP_AAD ct = Some dek) then mret (Ok (nonce ++ ct)) else mret (Err HelloFailed)
      end
  end.
Definition open_ (wrap : bytes) : M Roots (result KeyError bytes) :=
  if negb (bool_decide (length wrap = 60)) then mret (Err CorruptWrap) else
  sig ← sign_challenge;
  match sig with
  | None => mret (Err HelloFailed)
  | Some sig =>
      match aead_dec (kek sig) (take 12 wrap) WRAP_AAD (drop 12 wrap) with
      | Some plain => if bool_decide (length plain = 32) then mret (Ok plain) else mret (Err CorruptWrap)
      | None => mret (Err CorruptWrap)
      end
  end.

Definition hello_wrap_ct (b : bytes) : option bytes :=
  if negb (bool_decide (length b = 66)) || negb (bool_decide (take 5 b = HELLO_MAGIC)) || negb (bool_decide (b !! 5 = Some 1%N))
  then None else Some (drop 6 b).
Definition hello_locked : M Roots bool :=
  if windows then r ← reads hello_file; mret (bool_decide (is_Some (r ≫= hello_wrap_ct))) else mret false.
Definition hello_ct : M Roots (result KeyError bytes) := r ← reads hello_file; mret (ok_or (r ≫= hello_wrap_ct) CorruptWrap).
Definition hello_dek : M Roots (result KeyError str) :=
  ct ← hello_ct;
  match ct with
  | Err e => mret (Err e)
  | Ok ct => raw ← open_ ct; mret (match raw with Ok raw => Ok (hex_encode raw) | Err e => Err e end)
  end.
Definition remove_hello : M Roots bool := act (λ r, match hello_file r with Some _ => Some (set_hello_file None r) | None => None end).

Definition from_lookup (l : Lookup) : result KeyError str :=
  match l with Found dek => Ok dek | NoEntry => Err NoKey | Unavailable => Err KeychainUnavailable_ end.

(** ** Moving the key *)

Definition pin_set (salt nonce : bytes) (old_pin : option str) (new_pin : str) : M Roots (result KeyError unit) :=
  there ← gets pin_locked;
  dek ← (if there : bool then
           match old_pin with
           | None => mret (Err CurrentPinRequired)
           | Some old => o ← pin_wrap_open old; mret (opened o)
           end
         else
           hello ← hello_locked;
           if hello : bool then (if windows then hello_dek else mret (Err NoKey)) else l ← keychain_lookup; mret (from_lookup l));
  match dek with
  | Err e => mret (Err e)
  | Ok dek =>
      w ← pin_wrap_write salt nonce new_pin dek;
      match w with
      | Err e => mret (Err e)
      | Ok _ =>
          o ← pin_wrap_open new_pin;
          match o with
          | Dek _ => _ ← drop_keychain; mret (Ok tt)
          | _ => _ ← remove_pin; mret (Err VerifyFailed)
          end
      end
  end.

Definition pin_clear (pin : str) : M Roots (result KeyError unit) :=
  o ← pin_wrap_open pin;
  match opened o with
  | Err e => mret (Err e)
  | Ok dek =>
      hello ← hello_locked;
      if hello : bool then _ ← remove_pin; mret (Ok tt) else
      stored ← store_key dek;
      match stored with Err e => mret (Err e) | Ok _ => _ ← remove_pin; mret (Ok tt) end
  end.

Definition current_dek (pin : option str) : M Roots (result KeyError str) :=
  there ← gets pin_locked;
  if there : bool then
    match pin with None => mret (Err CurrentPinRequired) | Some pin => o ← pin_wrap_open pin; mret (opened o) end
  else
    hello ← hello_locked;
    if hello : bool then hello_dek else l ← keychain_lookup; mret (from_lookup l).

Definition hello_set (nonce : bytes) (pin : option str) : M Roots (result KeyError unit) :=
  hello ← hello_locked;
  if hello : bool then mret (Ok tt) else
  dek ← current_dek pin;
  match dek with
  | Err e => mret (Err e)
  | Ok dek_hex =>
      match hex_decode (as_bytes dek_hex) with
      | None => mret (Err BadDek)
      | Some dek =>
          ct ← seal nonce dek;
          match ct with
          | Err e => mret (Err e)
          | Ok ct =>
              let file := HELLO_MAGIC ++ [1%N] ++ ct in
              ok ← tear (λ r, Some (set_hello_file (Some file) r)) (λ t, set_hello_file (Some t));
              if ok : bool then _ ← drop_keychain; mret (Ok tt) else mret (Err WriteFailed)
          end
      end
  end.

Definition hello_clear : M Roots (result KeyError unit) :=
  dek ← hello_dek;
  match dek with
  | Err e => mret (Err e)
  | Ok dek =>
      pin ← gets pin_locked;
      if pin : bool then _ ← remove_hello; mret (Ok tt) else
      stored ← store_key dek;
      match stored with Err e => mret (Err e) | Ok _ => _ ← remove_hello; mret (Ok tt) end
  end.

(** ** Unlocking: the key, then the databases *)
Context {Sq : Sqlite}.
Definition Home : Type := Roots * list Account.
Definition on_roots {A} : M Roots A → M Home A := lift fst (λ r h, (r, h.2)).
Definition on_accounts {A} : M (list Account) A → M Home A := lift snd (λ l h, (h.1, l)).

Definition session_key (hex : str) : str := lit "x'" ++ hex ++ lit "'".
Definition pin_unlock (pin : str) : M Home (result KeyError str) :=
  o ← on_roots (pin_wrap_open pin);
  match opened o with
  | Err e => mret (Err e)
  | Ok hex =>
      report ← on_accounts (prepare (Some hex));
      if negb (p_use_key report) then mret (Err PrepareFailed) else mret (Ok (session_key hex))
  end.
Definition hello_unlock : M Home (result KeyError str) :=
  dek ← on_roots hello_dek;
  match dek with
  | Err e => mret (Err e)
  | Ok hex =>
      report ← on_accounts (prepare (Some hex));
      if negb (p_use_key report) then mret (Err PrepareFailed) else
      _ ← on_roots drop_keychain; mret (Ok (session_key hex))
  end.
End KeyWrap.

(** ** The files *)

Lemma backoff_value a : (1 ≤ a)%N → backoff_secs (N.min a 4294967295) = N.min 30 (2 ^ (a - 1)).
Proof.
  intros Ha. unfold backoff_secs. destruct (N.eqb_spec (N.min a 4294967295) 0); [lia|]. rewrite N.shiftl_1_l.
  destruct (N.le_gt_cases a 5) as [Hle|Hgt].
  - rewrite (N.min_l a) by lia. by rewrite (N.min_l (a - 1) 5) by lia.
  - rewrite (N.min_r _ 5) by lia. assert (2 ^ 5 ≤ 2 ^ (a - 1))%N by (apply N.pow_le_mono_r; lia). change (2 ^ 5)%N with 32%N in *. lia.
Qed.

Section Wraps.
Context {aead : Aead} {AL : AeadLaws} {P : Platform} {PL : PlatformLaws} {C : Custody}.

(** A PIN file that holds [raw] under [pin], after [c] wrong attempts. *)
Definition wrap_of (c : N) (salt nonce ct : bytes) : bytes := pin_header c salt nonce ++ ct.
Record well_wrapped (pin : str) (raw : bytes) (c : N) (salt nonce ct : bytes) : Prop := {
  ww_salt : length salt = 16; ww_nonce : length nonce = 12; ww_ct : length ct = 48;
  ww_count : (c < 4294967296)%N;
  ww_enc : aead_enc (derive_pin_kek pin salt) nonce (WRAP_MAGIC ++ [1%N] ++ salt ++ nonce) raw = Some ct;
}.

Lemma le_bytes_4 c : ∃ a b d e, le_bytes c = [a; b; d; e].
Proof.
  assert (length (le_bytes c) = 4) as H by (unfold le_bytes; by rewrite length_reverse, length_be_bytes).
  destruct (le_bytes c) as [|a [|b [|d [|e [|]]]]]; try done. by eexists _, _, _, _.
Qed.
Lemma le_value_bytes c : (c < 4294967296)%N → le_value (le_bytes c) = c.
Proof. intros Hc. unfold le_value, le_bytes. rewrite reverse_involutive, be_value_bytes_small; done. Qed.

(** What [pin_wrap_open] reads from such a file. *)
Lemma parse_wrap pin raw c salt nonce ct : well_wrapped pin raw c salt nonce ct →
  let b := wrap_of c salt nonce ct in
  N.of_nat (length b) = 86%N ∧ take 5 b = WRAP_MAGIC ∧ b !! 5 = Some 1%N ∧ le_value (slice 6 4 b) = c ∧
  slice 10 16 b = salt ∧ slice 26 12 b = nonce ∧ drop 38 b = ct ∧ pin_aad b salt nonce = WRAP_MAGIC ++ [1%N] ++ salt ++ nonce ∧
  ∀ c', take 6 b ++ le_bytes c' ++ drop 10 b = wrap_of c' salt nonce ct.
Proof.
  intros [Hs Hn Hc Hlt _] b. pose proof (le_value_bytes c Hlt) as Hv. unfold b, wrap_of, pin_header. clear b.
  destruct (le_bytes_4 c) as (w & x & y & z & Hle). rewrite Hle in *. change WRAP_MAGIC with [86; 76; 84; 68; 87]%N.
  cbn [app]. unfold slice, pin_aad.
  change (N.to_nat 6) with 6. change (N.to_nat 10) with 10. change (N.to_nat 26) with 26. change (N.to_nat 12) with 12.
  change (N.to_nat 16) with 16. change (N.to_nat 4) with 4. cbn [take drop lookup list_lookup length app].
  split; [rewrite !length_app; lia|]. split_and!; try done.
  - rewrite <- app_assoc. by apply take_app_length'.
  - rewrite <- app_assoc, drop_app_length' by done. by apply take_app_length'.
  - apply drop_app_length'. by rewrite length_app, Hs, Hn.
Qed.

(** A Hello file that holds [raw]. *)
Definition hello_wraps (raw b : bytes) : Prop :=
  ∃ nonce ct, b = HELLO_MAGIC ++ [1%N] ++ nonce ++ ct ∧ length nonce = 12 ∧ length ct = 48 ∧ aead_enc (kek hello_sig) nonce WRAP_AAD raw = Some ct.
Lemma hello_wrap_body raw b : hello_wraps raw b →
  ∃ w, hello_wrap_ct b = Some w ∧ length w = 60 ∧ aead_dec (kek hello_sig) (take 12 w) WRAP_AAD (drop 12 w) = Some raw.
Proof.
  intros (nonce & ct & -> & Hn & Hc & He). exists (nonce ++ ct). unfold hello_wrap_ct. change HELLO_MAGIC with [86; 76; 84; 72; 87]%N.
  cbn [app length take lookup list_lookup drop]. rewrite length_app, Hn, Hc, !bool_decide_true by done. split; [done|]. split; [done|].
  rewrite take_app_length', drop_app_length' by done. by eapply aead_dec_enc.
Qed.

(** ** Every step keeps the key *)

Context (raw : bytes) (raw_len : length raw = 32) (raw_wf : wf_bytes raw).
#[local] Abbreviation dek := (hex_encode raw).

Lemma dek_well_formed : well_formed_key dek = true ∧ hex_decode (as_bytes dek) = Some raw.
Proof.
  destruct (hex_encode_chars raw raw_wf) as [Hlen Hch]. split; [|by apply hex_decode_encode].
  rewrite forallb_forall in Hch. unfold well_formed_key, str_len. rewrite as_bytes_ascii.
  - rewrite Hlen, raw_len. cbn [N.of_nat andb]. apply andb_true_iff. split; [done|]. apply forallb_forall.
    intros c Hc%Hch. unfold is_ascii_hexdigit. rewrite !orb_true_iff in *. tauto.
  - apply Forall_forall. intros c Hc%list_elem_of_In%Hch. rewrite orb_true_iff, !in_range_spec in Hc. lia.
Qed.

(** The PINs that the user chooses. *)
Context (user : str → Prop).

Definition pin_holds (pin : str) (b : bytes) : Prop := ∃ c salt nonce ct, b = wrap_of c salt nonce ct ∧ well_wrapped pin raw c salt nonce ct.

(** Somewhere the key is kept, and nowhere another one. *)
Record rooted (r : Roots) : Prop := {
  rt_keychain : keychain r = None ∨ keychain r = Some dek;
  rt_pin : ∀ b, pin_file r = Some b → ∃ pin, user pin ∧ pin_holds pin b;
  rt_hello : ∀ b, hello_file r = Some b → hello_wraps raw b;
  rt_windows : is_Some (hello_file r) → windows = true;
  rt_some : keychain r = Some dek ∨ is_Some (pin_file r) ∨ is_Some (hello_file r);
}.

Lemma spec_at {St A} ok (p : St → Prop) (m : M St A) Q R : (∀ s, p s → spec ok (λ s', s' = s) m Q R) → spec ok p m Q R.
Proof. intros H s fs Hok Hs. by apply (H s Hs). Qed.

Definition at_pin (kc : option str) (hf : option bytes) (F : bytes → Prop) (r : Roots) : Prop :=
  keychain r = kc ∧ hello_file r = hf ∧ ∃ b, pin_file r = Some b ∧ F b.

Lemma write_pin_spec kc hf (F : bytes → Prop) b : F b → spec tame (at_pin kc hf F) (write_pin b) (λ _, at_pin kc hf F) (at_pin kc hf F).
Proof. intros Hb. apply spec_write. intros r (Hk & Hh & b0 & Hp & Hf). split; [by split_and!; eauto|]. split; [by split_and!; eauto|]. split_and!; [done..|]. by exists b. Qed.

(** The same key in the same box, whatever the count. *)
Definition boxed (pin : str) (salt nonce ct : bytes) (b : bytes) : Prop :=
  ∃ c, b = wrap_of c salt nonce ct ∧ well_wrapped pin raw c salt nonce ct.
Lemma boxed_holds pin salt nonce ct b : boxed pin salt nonce ct b → pin_holds pin b.
Proof. intros (c & H). by exists c, salt, nonce, ct. Qed.

(** The PIN [p] does not open the file by chance, with something else. *)
Definition no_collision (p : str) (r : Roots) : Prop :=
  ∀ pin c salt nonce ct m, pin_file r = Some (wrap_of c salt nonce ct) → well_wrapped pin raw c salt nonce ct →
    aead_dec (derive_pin_kek p salt) nonce (WRAP_MAGIC ++ [1%N] ++ salt ++ nonce) ct = Some m → m = raw.

Section Box.
Context (kc : option str) (hf : option bytes) (pin : str) (salt nonce ct : bytes).
#[local] Abbreviation here := (at_pin kc hf (boxed pin salt nonce ct)).

Lemma counter_spec c : (c < 4294967296)%N → spec tame here (pin_counter_store c) (λ _, here) here.
Proof.
  intros Hc. unfold pin_counter_store.
  eapply (spec_bind _ _ _ _ (λ x r, (∃ b, x = Some b ∧ boxed pin salt nonce ct b) ∧ here r)).
  { apply spec_reads. intros r Hr. split; [done|]. split; [|done]. destruct Hr as (_ & _ & b & Hb & Hf). by exists b. }
  intros x. apply spec_pre. intros (b & -> & c0 & -> & Hw).
  destruct (parse_wrap pin raw c0 salt nonce ct Hw) as (Hlen & _ & _ & _ & _ & _ & _ & _ & Hput). rewrite Hlen. cbn [N.leb N.compare].
  rewrite Hput. eapply spec_bind; [apply write_pin_spec|intros ?; by apply spec_ret].
  exists c. split; [done|]. by destruct Hw.
Qed.

Lemma open_spec p :
  (p = pin ∨ ∀ m, aead_dec (derive_pin_kek p salt) nonce (WRAP_MAGIC ++ [1%N] ++ salt ++ nonce) ct = Some m → m = raw) →
  spec tame here (pin_wrap_open p) (λ o r, here r ∧ (∀ d, opened o = Ok d → d = dek) ∧ (p = pin → o = Dek dek)) here.
Proof.
  intros Hp. unfold pin_wrap_open.
  eapply (spec_bind _ _ _ _ (λ x r, (∃ b, x = Some b ∧ boxed pin salt nonce ct b) ∧ here r)).
  { apply spec_reads. intros r Hr. split; [done|]. split; [|done]. destruct Hr as (_ & _ & b & Hb & Hf). by exists b. }
  intros x. apply spec_pre. intros (b & -> & c & -> & Hw).
  destruct (parse_wrap pin raw c salt nonce ct Hw) as (Hlen & Hmagic & Hver & Hcount & Hsalt & Hnonce & Hct & Haad & _).
  rewrite Hlen, Hmagic, Hver. rewrite !bool_decide_true by done. cbn [negb orb N.eqb Pos.eqb]. cbv zeta. rewrite Hcount, Hsalt, Hnonce, Hct, Haad.
  pose proof (ww_enc _ _ _ _ _ _ Hw) as He.
  destruct (aead_dec (derive_pin_kek p salt) nonce _ ct) as [m'|] eqn:Hd.
  - assert (m' = raw) as ->.
    { destruct Hp as [->|Hp]; [|by apply Hp]. erewrite aead_dec_enc in Hd by exact He. by injection Hd. }
    eapply spec_bind; [by apply counter_spec|]. intros ?. apply spec_ret. intros r Hr. split; [done|]. split; [by intros d [= <-]|done].
  - eapply spec_bind; [apply counter_spec; unfold saturating_succ; lia|]. intros ?. apply spec_ret. intros r Hr.
    split; [done|]. split; [done|]. intros ->. erewrite aead_dec_enc in Hd by exact He. done.
Qed.
End Box.

(** The key that a step finds is the key. *)
Definition finds (x : result KeyError str) (r : Roots) : Prop := rooted r ∧ ∀ d, x = Ok d → d = dek.

Lemma at_pin_rooted r r' pin : rooted r → user pin → at_pin (keychain r) (hello_file r) (pin_holds pin) r' → rooted r'.
Proof.
  intros [H1 H2 H3 H4 _] Hu (Hk & Hh & b & Hb & Hp). split; rewrite ?Hk, ?Hh, ?Hb; try done; [intros ? [= <-]; by exists pin|].
  right; left. done.
Qed.
Lemma at_pin_weak kc hf (F G : bytes → Prop) r : (∀ b, F b → G b) → at_pin kc hf F r → at_pin kc hf G r.
Proof. intros HF (H1 & H2 & b & Hb & Hf). split_and!; [done..|]. exists b. auto. Qed.

Lemma open_rooted p : spec tame (λ r, rooted r ∧ no_collision p r) (pin_wrap_open p) (λ o, finds (opened o)) rooted.
Proof.
  apply spec_at. intros r [Hr Hp]. destruct (pin_file r) as [b|] eqn:Hb.
  - destruct (rt_pin r Hr b Hb) as (pin & Hu & c & salt & nonce & ct & -> & Hw).
    assert (Hback : ∀ s, at_pin (keychain r) (hello_file r) (boxed pin salt nonce ct) s → rooted s).
    { intros s Hs. eapply at_pin_rooted; [done..|]. eapply at_pin_weak; [apply boxed_holds|exact Hs]. }
    eapply spec_mono; [apply (open_spec (keychain r) (hello_file r) pin salt nonce ct p)|..].
    + right. intros m. by apply (Hp pin c).
    + intros s ->. split_and!; [done..|]. eexists. split; [exact Hb|]. by exists c.
    + intros o s (Hs & Ho & _). split; [by apply Hback|done].
    + exact Hback.
  - unfold pin_wrap_open. eapply (spec_bind _ _ _ _ (λ x s, x = None ∧ s = r)).
    + apply spec_reads. intros s ->. split_and!; done.
    + intros x. apply spec_pre. intros ->. apply spec_ret. by intros s ->.
Qed.

Lemma ask_rooted : spec tame rooted (act (λ r, Some r)) (λ _, rooted) rooted.
Proof. by apply spec_act. Qed.
Lemma lookup_rooted : spec tame rooted keychain_lookup (λ l, finds (from_lookup l)) rooted.
Proof.
  unfold keychain_lookup. eapply spec_bind; [apply ask_rooted|]. intros entry. apply spec_case; intros _; [by apply spec_ret|].
  eapply spec_bind; [apply ask_rooted|]. intros ok. apply spec_case; intros _; [by apply spec_ret|].
  eapply (spec_bind _ _ _ _ (λ x r, (x = None ∨ x = Some dek) ∧ rooted r)).
  { apply spec_gets. intros r Hr. split; [apply (rt_keychain r Hr)|done]. }
  intros x. apply spec_pre. intros [-> | ->]; [by apply spec_ret|]. apply spec_ret. intros r Hr.
  destruct dek_well_formed as [-> _]. split; [done|]. by intros d [= <-].
Qed.

Lemma hello_locked_keeps (X : Roots → Prop) : spec tame X hello_locked (λ b r, X r ∧ (b = true → is_Some (hello_file r))) X.
Proof.
  unfold hello_locked. apply spec_case; intros _; [|by apply spec_ret].
  eapply (spec_bind _ _ _ _ (λ x r, X r ∧ x = hello_file r)); [by apply spec_reads|]. intros x. apply spec_ret. intros r [Hr ->].
  split; [done|]. intros [w Hw]%bool_decide_eq_true. by destruct (hello_file r).
Qed.
Lemma hello_locked_rooted : spec tame rooted hello_locked (λ b r, rooted r ∧ (b = true → is_Some (hello_file r))) rooted.
Proof. apply hello_locked_keeps. Qed.
Lemma sign_rooted : spec tame rooted sign_challenge (λ x r, rooted r ∧ ∀ s, x = Some s → s = hello_sig) rooted.
Proof. unfold sign_challenge. eapply spec_bind; [apply ask_rooted|]. intros ok. apply spec_ret. intros r Hr. split; [done|]. intros s. by destruct ok; intros [= <-]. Qed.
Lemma hello_dek_rooted : spec tame rooted hello_dek finds rooted.
Proof.
  unfold hello_dek, hello_ct. eapply (spec_bind _ _ _ _ (λ x r, (∀ w, x = Ok w → length w = 60 ∧ aead_dec (kek hello_sig) (take 12 w) WRAP_AAD (drop 12 w) = Some raw) ∧ rooted r)).
  { eapply (spec_bind _ _ _ _ (λ x r, rooted r ∧ x = hello_file r)); [by apply spec_reads|]. intros x. apply spec_ret. intros r [Hr ->].
    split; [|done]. intros w. destruct (hello_file r) as [b|] eqn:Hb; [|done].
    destruct (hello_wrap_body raw b (rt_hello r Hr b Hb)) as (w' & Hw & Hlen & Hd). cbn [mbind option_bind]. rewrite Hw. by intros [= <-]. }
  intros x. apply spec_pre. intros Hx. destruct x as [w|e]; [|by apply spec_ret]. destruct (Hx w eq_refl) as [Hlen Hd].
  unfold open_. rewrite bool_decide_true by done. cbn [negb].
  eapply (spec_bind _ _ _ _ (λ x r, (∀ d, x = Ok d → d = raw) ∧ rooted r)).
  - eapply spec_bind; [apply sign_rooted|]. intros [sig|]; [|apply spec_ret; by intros r []]. cbv beta. eapply spec_mono with (P := λ r, sig = hello_sig ∧ rooted r); [|intros s [Hs H]; split; [by apply H|done]|intros ? ? H; exact H|intros ? H; exact H].
    apply spec_pre. intros ->. rewrite Hd, bool_decide_true by done. apply spec_ret. intros r Hr. split; [by intros d [= <-]|done].
  - intros y. apply spec_ret. intros r [Hy Hr]. split; [done|]. intros d. destruct y; intros [= <-]. by rewrite (Hy _ eq_refl).
Qed.

Lemma drop_keychain_rooted X : (∀ r, X r → is_Some (pin_file r) ∨ is_Some (hello_file r)) → (∀ r, X r → X (set_keychain None r)) → 
  spec tame (λ r, rooted r ∧ X r) drop_keychain (λ _, rooted) rooted.
Proof.
  intros HX HX'. unfold drop_keychain. eapply (spec_bind _ _ _ _ (λ _ r, rooted r ∧ X r)).
  { apply spec_act. by intros r [Hr Hx]. }
  intros entry. apply spec_case; intros _; [|apply spec_ret; by intros r []].
  eapply (spec_bind _ _ _ _ (λ _, rooted)); [|intros ?; by apply spec_ret].
  apply spec_act. intros r [Hr Hx]. split; [done|]. split; [done|]. destruct (keychain r); [|done].
  destruct Hr as [H1 H2 H3 H4 H5]. split; cbn; auto.
Qed.
Lemma store_rooted : spec tame rooted (store_key dek) (λ x r, rooted r ∧ (is_ok x = true → keychain r = Some dek)) rooted.
Proof.
  unfold store_key. eapply spec_bind; [apply ask_rooted|]. intros entry. apply spec_case; intros _; [by apply spec_ret|].
  eapply (spec_bind _ _ _ _ (λ ok r, rooted r ∧ (ok = true → keychain r = Some dek))).
  - apply spec_act. intros r [H1 H2 H3 H4 H5]. split; [done|]. split; [done|]. split; [|done]. split; cbn; auto.
  - intros ok. apply spec_ret. intros r [Hr Hk]. split; [done|]. by destruct ok.
Qed.


Lemma remove_pin_rooted : spec tame (λ r, rooted r ∧ (keychain r = Some dek ∨ is_Some (hello_file r))) remove_pin (λ _, rooted) rooted.
Proof.
  apply spec_act. intros r [Hr Hk]. split; [done|]. split; [done|]. destruct (pin_file r); [|done].
  destruct Hr as [H1 H2 H3 H4 H5]. split; cbn; try done. tauto.
Qed.
Lemma remove_hello_rooted : spec tame (λ r, rooted r ∧ (keychain r = Some dek ∨ is_Some (pin_file r))) remove_hello (λ _, rooted) rooted.
Proof.
  apply spec_act. intros r [Hr Hk]. split; [done|]. split; [done|]. destruct (hello_file r); [|done].
  destruct Hr as [H1 H2 H3 H4 H5]. split; cbn; try done; tauto.
Qed.

(** A PIN file is written from the key; the keychain is emptied only when it opens. *)
Lemma rewrap_rooted salt nonce new : user new → length salt = 16 → length nonce = 12 →
  spec tame rooted
    (w ← pin_wrap_write salt nonce new dek;
     match w with
     | Err e => mret (Err e)
     | Ok _ => o ← pin_wrap_open new; match o with Dek _ => _ ← drop_keychain; mret (Ok tt) | _ => _ ← remove_pin; mret (Err VerifyFailed) end
     end) (λ _, rooted) rooted.
Proof.
  intros Hu Hs Hn. apply spec_at. intros r Hr. pose proof dek_well_formed as [Hwell Hdec].
  destruct (aead_enc_some (derive_pin_kek new salt) nonce (pin_aad (pin_header 0 salt nonce) salt nonce) raw) as [ct He]; [rewrite raw_len; lia|].
  set (here := at_pin (keychain r) (hello_file r) (boxed new salt nonce ct)).
  assert (Hback : ∀ s, here s → rooted s).
  { intros s Hb. eapply at_pin_rooted; [done..|]. eapply at_pin_weak; [apply boxed_holds|exact Hb]. }
  eapply (spec_bind _ _ _ _ (λ w s, rooted s ∧ (is_ok w = true → here s))).
  { unfold pin_wrap_write. apply spec_case; intros _; [apply spec_ret; by intros s ->|]. rewrite Hwell, Hdec. cbn [negb].
    rewrite He. eapply (spec_bind _ _ _ _ (λ ok s, rooted s ∧ (ok = true → here s))).
    - assert (Hput : here (set_pin_file (Some (pin_header 0 salt nonce ++ ct)) r)).
      { split_and!; [done..|]. eexists. split; [done|]. exists 0%N. split; [done|]. split; try done.
        apply aead_enc_length in He. lia. }
      apply spec_write. intros s ->. split; [done|]. split; [done|]. split; [by apply Hback|done].
    - intros ok. apply spec_ret. intros s [H1 H2]. split; [done|]. by destruct ok. }
  intros w. destruct w as [u|e]; [|apply spec_ret; by intros s []].
  eapply (spec_bind _ _ _ _ (λ o s, o = Dek dek ∧ here s)).
  { eapply spec_mono; [apply (open_spec (keychain r) (hello_file r) new salt nonce ct new); by left|..].
    - intros s [_ H]. by apply H.
    - intros o s (H1 & _ & H2). by split; [apply H2|].
    - exact Hback. }
  intros o. apply spec_pre. intros ->. eapply (spec_bind _ _ _ _ (λ _, rooted)); [|intros ?; by apply spec_ret].
  eapply spec_mono; [apply (drop_keychain_rooted (λ s, is_Some (pin_file s)))|..]; [intros ? ?; by left|done| |done|done].
  intros s Hh. split; [by apply Hback|]. destruct Hh as (_ & _ & b & -> & _). done.
Qed.

Lemma spec_found {A} (Pre : Roots → Prop) (m : M Roots (result KeyError str)) (f : result KeyError str → M Roots A) :
  spec tame Pre m finds rooted → (∀ e, spec tame rooted (f (Err e)) (λ _, rooted) rooted) → spec tame rooted (f (Ok dek)) (λ _, rooted) rooted →
  spec tame Pre (m ≫= f) (λ _, rooted) rooted.
Proof.
  intros Hm He Hf. eapply spec_bind; [exact Hm|]. intros [d|e].
  - eapply (spec_mono _ (λ r, d = dek ∧ rooted r)); [|intros s [H1 H2]; split; [by apply H2|exact H1]|intros ? ? H; exact H|intros ? H; exact H]. apply spec_pre. by intros ->.
  - eapply spec_mono; [apply He| |intros ? ? H; exact H|intros ? H; exact H]. by intros s [].
Qed.
Lemma open_found p : spec tame (λ r, rooted r ∧ no_collision p r) (o ← pin_wrap_open p; mret (opened o)) finds rooted.
Proof. eapply spec_bind; [apply open_rooted|]. intros o. by apply spec_ret. Qed.
Lemma lookup_found : spec tame rooted (l ← keychain_lookup; mret (from_lookup l)) finds rooted.
Proof. eapply spec_bind; [apply lookup_rooted|]. intros l. by apply spec_ret. Qed.

(** A PIN that is entered, if one is. *)
Definition typed (p : option str) (r : Roots) : Prop := rooted r ∧ ∀ q, p = Some q → no_collision q r.
Lemma typed_rooted p r : typed p r → rooted r.
Proof. by intros []. Qed.

Lemma pin_set_rooted salt nonce old new : user new → length salt = 16 → length nonce = 12 →
  spec tame (typed old) (pin_set salt nonce old new) (λ _, rooted) rooted.
Proof.
  intros Hu Hs Hn. unfold pin_set. eapply spec_bind; [apply (spec_gets _ _ _ (λ _, typed old)); done|]. intros there.
  apply (spec_found (typed old)); [|intros e; by apply spec_ret|by apply rewrap_rooted].
  apply spec_case; intros _.
  - destruct old as [old|]; [|apply spec_ret; by intros r []]. eapply spec_mono; [apply open_found| |intros ? ? H; exact H|done].
    intros r [Hr Hp]. split; [done|by apply Hp].
  - eapply spec_bind; [eapply spec_mono; [apply hello_locked_rooted|apply typed_rooted|intros ? ? H; exact H|done]|]. intros b.
    eapply spec_mono with (P := rooted); [|by intros s []|intros ? ? H; exact H|intros ? H; exact H].
    apply spec_case; intros _; [|apply lookup_found]. apply spec_case; intros _; [apply hello_dek_rooted|by apply spec_ret].
Qed.

(** The key goes back to the keychain before its other place is emptied. *)
Lemma store_then (m : M Roots bool) : spec tame (λ r, rooted r ∧ keychain r = Some dek) m (λ _, rooted) rooted →
  spec tame rooted (stored ← store_key dek; match stored with Err e => mret (Err e) | Ok _ => _ ← m; mret (Ok tt) end) (λ _, rooted) rooted.
Proof.
  intros Hm. eapply spec_bind; [apply store_rooted|]. intros [u|e]; [|apply spec_ret; by intros s []].
  eapply (spec_bind _ _ _ _ (λ _, rooted)); [|intros ?; by apply spec_ret]. eapply spec_mono; [exact Hm| |done|done]. intros s [H1 H2]. auto.
Qed.

Lemma pin_clear_rooted pin : spec tame (typed (Some pin)) (pin_clear pin) (λ _, rooted) rooted.
Proof.
  unfold pin_clear. eapply spec_bind; [eapply spec_mono; [apply open_rooted| |intros ? ? H; exact H|done]|].
  { intros r [Hr Hp]. split; [done|by apply Hp]. }
  intros o.
  destruct (opened o) as [d|e] eqn:Ho; [|apply spec_ret; by intros s []].
  eapply (spec_mono _ (λ r, d = dek ∧ rooted r)); [|intros s [H1 H2]; split; [by apply H2|exact H1]|intros ? ? H; exact H|intros ? H; exact H]. apply spec_pre. intros ->.
  eapply spec_bind; [apply hello_locked_rooted|]. intros b. apply spec_case; intros ->.
  - eapply (spec_bind _ _ _ _ (λ _, rooted)); [|intros ?; by apply spec_ret]. eapply spec_mono; [apply remove_pin_rooted| |done|done]. intros s [H1 H2]. auto.
  - eapply spec_mono; [apply (store_then remove_pin)|by intros s []|done|done].
    eapply spec_mono; [apply remove_pin_rooted| |done|done]. intros s []. auto.
Qed.

Lemma hello_clear_rooted : spec tame rooted hello_clear (λ _, rooted) rooted.
Proof.
  unfold hello_clear. apply (spec_found rooted); [apply hello_dek_rooted|intros e; by apply spec_ret|].
  eapply (spec_bind _ _ _ _ (λ b r, rooted r ∧ (b = true → is_Some (pin_file r)))).
  { apply spec_gets. intros r Hr. split; [done|]. by intros H%bool_decide_eq_true. }
  intros b. apply spec_case; intros ->.
  - eapply (spec_bind _ _ _ _ (λ _, rooted)); [|intros ?; by apply spec_ret]. eapply spec_mono; [apply remove_hello_rooted| |done|done]. intros s []. auto.
  - eapply spec_mono; [apply (store_then remove_hello)|by intros s []|done|done].
    eapply spec_mono; [apply remove_hello_rooted| |done|done]. intros s []. auto.
Qed.


Lemma current_found pin : spec tame (typed pin) (current_dek pin) finds rooted.
Proof.
  unfold current_dek. eapply spec_bind; [apply (spec_gets _ _ _ (λ _, typed pin)); done|]. intros there. apply spec_case; intros _.
  - destruct pin as [pin|]; [|apply spec_ret; by intros r []]. eapply spec_mono; [apply open_found| |intros ? ? H; exact H|done].
    intros r [Hr Hp]. split; [done|by apply Hp].
  - eapply spec_bind; [eapply spec_mono; [apply hello_locked_rooted|apply typed_rooted|intros ? ? H; exact H|done]|]. intros b.
    eapply spec_mono with (P := rooted); [|by intros s []|intros ? ? H; exact H|intros ? H; exact H].
    apply spec_case; intros _; [apply hello_dek_rooted|apply lookup_found].
Qed.

Lemma seal_rooted nonce : length nonce = 12 →
  spec tame rooted (seal nonce raw) (λ x r, (∀ ct, x = Ok ct → hello_wraps raw (HELLO_MAGIC ++ [1%N] ++ ct)) ∧ rooted r) rooted.
Proof.
  intros Hn. unfold seal. rewrite bool_decide_true by done. cbn [negb]. eapply spec_bind; [apply sign_rooted|].
  intros [sig|]; [|apply spec_ret; by intros r []].
  eapply (spec_mono _ (λ r, sig = hello_sig ∧ rooted r)); [|intros s [H1 H2]; split; [by apply H2|exact H1]|intros ? ? H; exact H|intros ? H; exact H].
  apply spec_pre. intros ->. destruct (aead_enc (kek hello_sig) nonce WRAP_AAD raw) as [ct|] eqn:He; [|by apply spec_ret].
  rewrite (aead_dec_enc _ _ _ _ _ He), bool_decide_true by done. apply spec_ret. intros r Hr. split; [|done]. intros ? [= <-].
  exists nonce, ct. split_and!; try done. apply aead_enc_length in He. lia.
Qed.

Lemma hello_set_rooted nonce pin : windows = true → length nonce = 12 → spec tame (typed pin) (hello_set nonce pin) (λ _, rooted) rooted.
Proof.
  intros Hwin Hn. unfold hello_set.
  eapply spec_bind; [eapply spec_mono; [apply (hello_locked_keeps (typed pin))|done|intros ? ? H; exact H|apply typed_rooted]|]. intros b.
  eapply spec_mono with (P := typed pin); [|by intros s []|intros ? ? H; exact H|intros ? H; exact H].
  apply spec_case; intros _; [apply spec_ret; apply typed_rooted|]. apply (spec_found (typed pin)); [apply current_found|intros e; by apply spec_ret|].
  destruct dek_well_formed as [_ ->]. eapply spec_bind; [by apply seal_rooted|]. intros x. apply spec_pre. intros Hx.
  destruct x as [ct|e]; [|by apply spec_ret]. specialize (Hx ct eq_refl). cbv zeta.
  eapply (spec_bind _ _ _ _ (λ ok r, rooted r ∧ (ok = true → is_Some (hello_file r)))).
  - apply spec_write. intros r Hr. split; [done|]. split; [done|]. split; [|done]. destruct Hr as [H1 H2 H3 H4 H5].
    split; cbn; try done; [by intros ? [= <-]|]. right; right. done.
  - intros ok. apply spec_case; intros ->; [|apply spec_ret; by intros r []].
    eapply (spec_bind _ _ _ _ (λ _, rooted)); [|intros ?; by apply spec_ret].
    eapply spec_mono; [apply (drop_keychain_rooted (λ s, is_Some (hello_file s)))|..]; [intros ? ?; by right|done| |done|done].
    intros s [H1 H2]. auto.
Qed.

(** ** The life of a key and its data *)
Context {Sq : Sqlite} {SL : SqliteLaws}.

Inductive Op :=
| OpPinSet (salt nonce : bytes) (old_pin : option str) (new_pin : str) | OpPinClear (pin : str) | OpPinUnlock (pin : str)
| OpHelloSet (nonce : bytes) (pin : option str) | OpHelloClear | OpHelloUnlock.

Definition op_run (o : Op) : M Home unit :=
  match o with
  | OpPinSet salt nonce old_pin new_pin => _ ← on_roots (pin_set salt nonce old_pin new_pin); mret tt
  | OpPinClear pin => _ ← on_roots (pin_clear pin); mret tt
  | OpPinUnlock pin => _ ← pin_unlock pin; mret tt
  | OpHelloSet nonce pin => _ ← on_roots (hello_set nonce pin); mret tt
  | OpHelloClear => _ ← on_roots hello_clear; mret tt
  | OpHelloUnlock => _ ← hello_unlock; mret tt
  end.
(** Random values have their lengths, Hello is of Windows. *)
Definition fair (o : Op) : Prop :=
  match o with
  | OpPinSet salt nonce _ new_pin => user new_pin ∧ length salt = 16 ∧ length nonce = 12
  | OpHelloSet nonce _ => length nonce = 12 ∧ windows = true
  | OpHelloClear | OpHelloUnlock => windows = true
  | _ => True
  end.

(** The PIN that a step is given to open the file with. *)
Definition entered (o : Op) : option str :=
  match o with
  | OpPinSet _ _ old_pin _ => old_pin
  | OpPinClear pin | OpPinUnlock pin => Some pin
  | OpHelloSet _ pin => pin
  | OpHelloClear | OpHelloUnlock => None
  end.

Definition home_ok (ds : list db) (h : Home) : Prop := rooted h.1 ∧ all_hold dek ds h.2.

Lemma on_roots_ok {A} (Pre : Roots → Prop) (m : M Roots A) (Q : A → Roots → Prop) ds : spec tame Pre m Q rooted → (∀ x r, Q x r → rooted r) →
  spec tame (λ h, home_ok ds h ∧ Pre h.1) (on_roots m) (λ x h, home_ok ds h ∧ Q x h.1) (home_ok ds).
Proof.
  intros Hm HQ [r l] fs Hok [[Hr Hl] HP]. unfold on_roots, lift. cbn [fst]. specialize (Hm r fs Hok HP).
  destruct (m r fs) as [r' [[x fs']|]]; [|done]. destruct Hm as [Hx Hfs]. split; [|done]. split; [|done]. split; [by eapply HQ|done].
Qed.
Lemma on_accounts_ok {A} (m : M (list Account) A) (X : Roots → Prop) ds : spec tame (all_hold dek ds) m (λ _, all_hold dek ds) (all_hold dek ds) →
  spec tame (λ h, home_ok ds h ∧ X h.1) (on_accounts m) (λ _ h, home_ok ds h ∧ X h.1) (home_ok ds).
Proof.
  intros Hm [r l] fs Hok [[Hr Hl] Hx]. unfold on_accounts, lift. cbn [snd]. specialize (Hm l fs Hok Hl).
  destruct (m l fs) as [l' [[x fs']|]]; [|done]. destruct Hm. done.
Qed.

Lemma unlock_ok {A B} (Pre : Roots → Prop) (m : M Roots B) (view : B → result KeyError str) (f : Prepare → str → M Home A) (g : KeyError → A) (X : Roots → Prop) ds :
  spec tame Pre m (λ x r, finds (view x) r ∧ (is_ok (view x) = true → X r)) rooted →
  (∀ p, spec tame (λ h, home_ok ds h ∧ X h.1) (f p dek) (λ _, home_ok ds) (home_ok ds)) →
  spec tame (λ h, home_ok ds h ∧ Pre h.1)
    (x ← on_roots m; match view x with Err e => mret (g e) | Ok hex => report ← on_accounts (prepare (Some hex)); f report hex end)
    (λ _, home_ok ds) (home_ok ds).
Proof.
  intros Hm Hf. eapply spec_bind; [eapply on_roots_ok; [exact Hm|by intros x r [[]]]|]. intros x.
  destruct (view x) as [d|e] eqn:Hx; [|apply spec_ret; by intros h []].
  eapply (spec_mono _ (λ h, d = dek ∧ (home_ok ds h ∧ X h.1))); [| |intros ? ? H; exact H|intros ? H; exact H].
  - apply spec_pre. intros ->. eapply spec_bind; [apply on_accounts_ok, prepare_spec, tame_opens|]. intros p. apply Hf.
  - intros h (H1 & [H2 H3] & H4). split; [by apply H3|]. split; [exact H1|apply H4; by rewrite Hx].
Qed.
(** Runs that only look. *)
Definition looks {St A} (m : M St A) : Prop := ∀ s fs, (m s fs).1 = s.
Lemma looks_bind {St A B} (m : M St A) (f : A → M St B) : looks m → (∀ x, looks (f x)) → looks (m ≫= f).
Proof.
  intros Hm Hf s fs. specialize (Hm s fs). unfold mbind, M_bind. destruct (m s fs) as [s' [[x fs']|]]; cbn in Hm; subst; [apply Hf|done].
Qed.
Lemma looks_reads {St A} (f : St → option A) : looks (reads f).
Proof. intros s [|[| |b|b] fs]; done. Qed.
Lemma looks_ask : looks (act (λ r : Roots, Some r)).
Proof. intros s [|[| |b|b] fs]; done. Qed.
Lemma looks_hello : looks hello_dek.
Proof.
  apply looks_bind; [apply looks_bind; [apply looks_reads|done]|]. intros [w|e]; [|done]. apply looks_bind; [|done].
  unfold open_. destruct (negb _); [done|]. apply looks_bind; [apply looks_bind; [apply looks_ask|done]|]. intros [sig|]; [|done].
  by destruct (aead_dec _ _ _ _); [case_bool_decide|].
Qed.
Lemma hello_dek_there : spec tame rooted hello_dek (λ x r, finds x r ∧ (is_ok x = true → is_Some (hello_file r))) rooted.
Proof.
  intros r fs Hok Hr. pose proof (hello_dek_rooted r fs Hok Hr) as H. pose proof (looks_hello r fs) as Hl.
  destruct (hello_dek r fs) as [r' [[x fs']|]] eqn:Hd; [|done]. cbn in Hl. subst r'. destruct H as [Hf Hfs]. split; [|done]. split; [done|].
  intros Hx. destruct (hello_file r) as [b|] eqn:Hb; [done|exfalso]. revert Hd. unfold hello_dek, hello_ct, mbind, M_bind, reads.
  destruct Hok as [|[| |[t|]|[t|]] fs Hf' Hok]; try done; rewrite Hb; cbn; by intros [= <- <-].
Qed.

Lemma op_ok o ds : fair o → spec tame (λ h, home_ok ds h ∧ typed (entered o) h.1) (op_run o) (λ _, home_ok ds) (home_ok ds).
Proof.
  intros Hfair. assert (Hroots : ∀ A (m : M Roots A), spec tame (typed (entered o)) m (λ _, rooted) rooted →
    spec tame (λ h, home_ok ds h ∧ typed (entered o) h.1) (_ ← on_roots m; mret tt) (λ _, home_ok ds) (home_ok ds)).
  { intros A m Hm. eapply spec_bind; [eapply on_roots_ok; [exact Hm|done]|]. intros ?. apply spec_ret. by intros h []. }
  destruct o; cbn [op_run fair entered] in *.
  - destruct Hfair as (Hu & Hs & Hn). by apply Hroots, pin_set_rooted.
  - by apply Hroots, pin_clear_rooted.
  - eapply (spec_bind _ _ _ _ (λ _, home_ok ds)); [|intros ?; by apply spec_ret].
    apply (unlock_ok (typed (Some pin)) (pin_wrap_open pin) opened _ _ (λ _, True)).
    + eapply spec_mono; [apply open_rooted| |done|done]. intros r [Hr Hp]. split; [done|by apply Hp].
    + intros p. apply spec_case; intros _; apply spec_ret; by intros h [].
  - destruct Hfair. by apply Hroots, hello_set_rooted.
  - apply Hroots. eapply spec_mono; [apply hello_clear_rooted|apply typed_rooted|done|done].
  - eapply (spec_bind _ _ _ _ (λ _, home_ok ds)); [|intros ?; by apply spec_ret].
    apply (unlock_ok (typed None) hello_dek id _ _ (λ r, is_Some (hello_file r))); [eapply spec_mono; [apply hello_dek_there|apply typed_rooted|done|done]|].
    intros p. apply spec_case; intros _; [apply spec_ret; by intros h []|].
    eapply (spec_bind _ _ _ _ (λ _, home_ok ds)); [|intros ?; by apply spec_ret].
    intros [r l] fs Hok [[Hr Hl] Hx]. unfold on_roots, lift. cbn [fst snd] in *.
    pose proof (drop_keychain_rooted (λ r, is_Some (hello_file r)) (λ r H, or_intror H) (λ r H, H) r fs Hok (conj Hr Hx)) as Hd.
    destruct (drop_keychain r fs) as [r' [[x fs']|]]; [by destruct Hd|done].
Qed.

(** An install from its first key: any steps, and sessions that change what is under
    the key. *)
Inductive custody : list db → Home → Prop :=
| custody_begins ds l : all_hold dek ds l → custody ds (MkRoots (Some dek) None None, l)
| custody_op ds h o fs : custody ds h → fair o → Forall tame fs → (∀ p, entered o = Some p → no_collision p h.1) →
    custody ds (op_run o h fs).1
| custody_session ds r l i d d' a : custody ds (r, l) → ds !! i = Some d → l !! i = Some a → sealed dek d a →
    custody (<[i := d']> ds) (r, <[i := set_db (Some (encode (Some dek) d')) a]> l).

Lemma quiet_open pin c salt nonce ct r : pin_file r = Some (wrap_of c salt nonce ct) → well_wrapped pin raw c salt nonce ct →
  quiet (pin_wrap_open pin) r (Dek dek) (set_pin_file (Some (wrap_of 0 salt nonce ct)) r).
Proof.
  intros Hf Hw. destruct (parse_wrap pin raw c salt nonce ct Hw) as (Hlen & Hmagic & Hver & Hcount & Hsalt & Hnonce & Hct & Haad & Hput).
  eapply quiet_bind; [unfold quiet, reads; by rewrite Hf|]. cbv beta iota. rewrite Hlen, Hmagic, Hver, !bool_decide_true by done.
  cbn [negb orb N.eqb Pos.eqb]. cbv zeta. rewrite Hsalt, Hnonce, Hct, Haad, (aead_dec_enc _ _ _ _ _ (ww_enc _ _ _ _ _ _ Hw)).
  eapply quiet_bind; [|apply quiet_ret]. eapply quiet_bind; [unfold quiet, reads; by rewrite Hf|]. cbv beta iota. rewrite Hlen. cbn [N.leb N.compare].
  rewrite Hput. done.
Qed.
Lemma quiet_hello r b : hello_file r = Some b → hello_wraps raw b → quiet hello_dek r (Ok dek) r.
Proof.
  intros Hb Hw. destruct (hello_wrap_body raw b Hw) as (w & Hct & Hlen & Hd).
  eapply quiet_bind; [eapply quiet_bind; [unfold quiet, reads; by rewrite Hb|apply quiet_ret]|]. cbn [mbind option_bind]. rewrite Hct. cbn [ok_or].
  apply (quiet_bind _ _ r (Ok raw) r); [|apply quiet_ret]. unfold open_. rewrite bool_decide_true by done. cbn [negb].
  apply (quiet_bind _ _ r (Some hello_sig) r); [done|]. rewrite Hd, bool_decide_true by done. apply quiet_ret.
Qed.

(** [C8]: Whatever steps are taken to set, change, clear and use a PIN and Windows
    Hello, with wrong PINs, refusals of the keychain, the prompt and the disk, and
    crashes between any two steps, as long as a write is refused before it touches
    the file or is whole, a file that is there can be read, and no wrong PIN opens
    the box of the key by chance with other bytes: the key of the databases is in the
    keychain, or opens with a PIN that the user chose, or with Hello; and all data is
    there. *)
Theorem key_kept ds h : custody ds h →
  all_hold dek ds h.2 ∧
  (keychain h.1 = Some dek ∨ (∃ pin r', user pin ∧ pin_wrap_open pin h.1 [] = (r', Some (Dek dek, []))) ∨
   hello_dek h.1 [] = (h.1, Some (Ok dek, []))).
Proof.
  intros Hc. assert (Hh : home_ok ds h).
  { induction Hc as [ds l Hl|ds h o fs _ IH Ho Hfs Hcol|ds r l i d d' a _ [Hr Hl] Hd Ha Hs].
    - split; [|done]. split; cbn; [by right|done|done|by intros []|by left].
    - pose proof (op_ok o ds Ho h fs Hfs (conj IH (conj (proj1 IH) Hcol))) as H. destruct (op_run o h fs) as [h' [[x fs']|]]; [by destruct H|done].
    - split; [done|]. cbn. apply Forall2_insert; [done|]. apply holds_sealed; apply (sealed_encode dek d' (f_bak a) (f_enc a)). }
  destruct Hh as [Hr Hl]. split; [done|]. destruct (rt_some _ Hr) as [H|[[b H]|[b H]]]; [by left|right; left|right; right].
  - destruct (rt_pin _ Hr b H) as (pin & Hu & c & salt & nonce & ct & -> & Hw). exists pin, (set_pin_file (Some (wrap_of 0 salt nonce ct)) h.1).
    split; [done|]. by eapply quiet_open.
  - by apply (quiet_hello _ b H), (rt_hello _ Hr).
Qed.

(** ** PINs *)

Fixpoint tries (pins : list str) : M Roots (list PinOpen) :=
  match pins with
  | [] => mret []
  | pin :: pins => o ← pin_wrap_open pin; os ← tries pins; mret (o :: os)
  end.

Lemma quiet_wrong pin p c salt nonce ct r : pin_file r = Some (wrap_of c salt nonce ct) → well_wrapped pin raw c salt nonce ct →
  aead_dec (derive_pin_kek p salt) nonce (WRAP_MAGIC ++ [1%N] ++ salt ++ nonce) ct = None →
  quiet (pin_wrap_open p) r (Wrong (saturating_succ c) (backoff_secs (saturating_succ c)))
    (set_pin_file (Some (wrap_of (saturating_succ c) salt nonce ct)) r).
Proof.
  intros Hf Hw Hd. destruct (parse_wrap pin raw c salt nonce ct Hw) as (Hlen & Hmagic & Hver & Hcount & Hsalt & Hnonce & Hct & Haad & Hput).
  eapply quiet_bind; [unfold quiet, reads; by rewrite Hf|]. cbv beta iota. rewrite Hlen, Hmagic, Hver, !bool_decide_true by done.
  cbn [negb orb N.eqb Pos.eqb]. cbv zeta. rewrite Hcount, Hsalt, Hnonce, Hct, Haad, Hd.
  eapply quiet_bind; [|apply quiet_ret]. eapply quiet_bind; [unfold quiet, reads; by rewrite Hf|]. cbv beta iota. rewrite Hlen. cbn [N.leb N.compare].
  rewrite Hput. done.
Qed.

(** The [i]th wrong attempt. *)
Definition refused (i : nat) : PinOpen := Wrong (N.min (N.of_nat i) 4294967295) (N.min 30 (2 ^ (N.of_nat i - 1))).

Lemma tries_wrong pin salt nonce ct pins : ∀ n r,
  pin_file r = Some (wrap_of (N.min (N.of_nat n) 4294967295) salt nonce ct) → (∀ c, (c < 4294967296)%N → well_wrapped pin raw c salt nonce ct) →
  Forall (λ p, aead_dec (derive_pin_kek p salt) nonce (WRAP_MAGIC ++ [1%N] ++ salt ++ nonce) ct = None) pins →
  quiet (tries pins) r (refused <$> seq (S n) (length pins))
    (set_pin_file (Some (wrap_of (N.min (N.of_nat (n + length pins)) 4294967295) salt nonce ct)) r).
Proof.
  induction pins as [|p pins IH]; intros n r Hf Hw Hall.
  { cbn [length]. rewrite Nat.add_0_r. rewrite <- Hf. by destruct r. }
  apply Forall_cons in Hall as [Hp Hall]. cbn [tries length seq fmap list_fmap].
  assert (Hsucc : saturating_succ (N.min (N.of_nat n) 4294967295) = N.min (N.of_nat (S n)) 4294967295) by (unfold saturating_succ; lia).
  eapply quiet_bind; [eapply quiet_wrong; [exact Hf|apply Hw; lia|exact Hp]|]. rewrite Hsucc.
  eapply quiet_bind; [apply (IH (S n)); [done|done|done]|]. unfold refused at 2. rewrite <- backoff_value by lia.
  replace (n + S (length pins)) with (S n + length pins) by lia. done.
Qed.

(** [C28]: A PIN of six characters or more wraps the key in a file of 86 bytes; after
    any number of wrong attempts, each of which is counted (up to the largest 32-bit
    number) and told to wait 1, 2, 4 and so on up to 30 seconds, the PIN opens it at
    once, whatever wait was asked for, and the count is back at zero. *)
Theorem pin_opens salt nonce pin r : length salt = 16 → length nonce = 12 → (6 ≤ chars_count pin)%N →
  ∃ ct, length (wrap_of 0 salt nonce ct) = 86 ∧
    let at_count n := set_pin_file (Some (wrap_of n salt nonce ct)) r in
    pin_wrap_write salt nonce pin dek r [] = (at_count 0%N, Some (Ok tt, [])) ∧
    ∀ pins, Forall (λ p, aead_dec (derive_pin_kek p salt) nonce (WRAP_MAGIC ++ [1%N] ++ salt ++ nonce) ct = None) pins →
      let after := at_count (N.min (N.of_nat (length pins)) 4294967295) in
      tries pins (at_count 0%N) [] = (after, Some (refused <$> seq 1 (length pins), [])) ∧
      pin_wrap_open pin after [] = (at_count 0%N, Some (Dek dek, [])).
Proof.
  intros Hs Hn Hpin. pose proof dek_well_formed as [Hwell Hdec].
  destruct (aead_enc_some (derive_pin_kek pin salt) nonce (WRAP_MAGIC ++ [1%N] ++ salt ++ nonce) raw) as [ct He]; [rewrite raw_len; lia|].
  assert (Hw : ∀ c, (c < 4294967296)%N → well_wrapped pin raw c salt nonce ct).
  { intros c Hc. split; try done. apply aead_enc_length in He. lia. }
  exists ct. destruct (parse_wrap pin raw 0 salt nonce ct (Hw 0%N eq_refl)) as [Hlen _]. split; [lia|]. intros at_count. split.
  - unfold pin_wrap_write. destruct (N.ltb_spec (chars_count pin) 6); [lia|]. rewrite Hwell, Hdec. cbn [negb].
    replace (pin_aad (pin_header 0 salt nonce) salt nonce) with (WRAP_MAGIC ++ [1%N] ++ salt ++ nonce) by done. rewrite He. done.
  - intros pins Hall after. split.
    + apply (tries_wrong pin salt nonce ct pins 0 (at_count 0%N)); done.
    + apply (quiet_open pin (N.min (N.of_nat (length pins)) 4294967295) salt nonce ct after); [done|]. apply Hw. lia.
Qed.

(** ** A torn file *)

Section Torn.
Context (r : Roots) (t : bytes).
Hypothesis only_torn : keychain r = None ∧ hello_file r = None ∧ pin_file r = Some t.
Hypothesis torn : length t ≠ 86.

Definition stuck {A} (m : M Roots A) (Q : A → Prop) : Prop := spec any (λ s, s = r) m (λ x s, Q x ∧ s = r) (λ s, s = r).
Definition is_err {A} (x : result KeyError A) : Prop := is_ok x = false.

Lemma stuck_bind {A B} (m : M Roots A) (f : A → M Roots B) Q Q' : stuck m Q → (∀ x, Q x → stuck (f x) Q') → stuck (m ≫= f) Q'.
Proof. intros Hm Hf. eapply spec_bind; [exact Hm|]. intros x. apply spec_pre, Hf. Qed.
Lemma stuck_ret {A} (x : A) (Q : A → Prop) : Q x → stuck (mret x) Q.
Proof. intros Hx. by apply spec_ret. Qed.
Lemma stuck_reads {A} (f : Roots → option A) : stuck (reads f) (λ x, x = None ∨ x = f r).
Proof. eapply spec_mono; [apply (spec_reads_any _ (λ s, s = r))|done| |done]. by intros x s [H ->]. Qed.
Lemma stuck_act (f : Roots → option Roots) : default r (f r) = r → stuck (act f) (λ _, True).
Proof. intros Hf. apply spec_act. intros s ->. split; [done|]. split; [done|]. destruct (f r); cbn in Hf; by subst. Qed.
Lemma stuck_gets {A} (f : Roots → A) : stuck (gets f) (λ x, x = f r).
Proof. apply spec_gets. by intros s ->. Qed.
Lemma stuck_weak {A} (m : M Roots A) (Q Q' : A → Prop) : stuck m Q → (∀ x, Q x → Q' x) → stuck m Q'.
Proof. intros Hm HQ. eapply spec_mono; [exact Hm|done| |done]. intros x s [H ->]. auto. Qed.

Lemma stuck_open p : stuck (pin_wrap_open p) (λ o, o = Corrupt).
Proof.
  destruct only_torn as (_ & _ & Hf). eapply stuck_bind; [apply stuck_reads|]. intros x. rewrite Hf. intros [-> | ->]; [by apply stuck_ret|].
  destruct (N.eqb_spec (N.of_nat (length t)) 86) as [Ht|_]; [by apply (inj N.of_nat _ 86) in Ht|]. by apply stuck_ret.
Qed.
Lemma stuck_found p : stuck (o ← pin_wrap_open p; mret (opened o)) is_err.
Proof. eapply stuck_bind; [apply stuck_open|]. intros o ->. by apply stuck_ret. Qed.
Lemma stuck_hello_dek : stuck hello_dek is_err.
Proof.
  destruct only_torn as (_ & Hh & _). eapply (stuck_bind _ _ is_err).
  - eapply stuck_bind; [apply stuck_reads|]. intros x. rewrite Hh. intros [-> | ->]; by apply stuck_ret.
  - intros [w|e] Hx; [done|]. by apply stuck_ret.
Qed.
Lemma stuck_hello_locked : stuck hello_locked (λ b, b = false).
Proof.
  destruct only_torn as (_ & Hh & _). apply spec_case; intros _; [|by apply stuck_ret].
  eapply stuck_bind; [apply stuck_reads|]. intros x. rewrite Hh. intros [-> | ->]; by apply stuck_ret.
Qed.
Lemma stuck_err {A B} (m : M Roots (result KeyError A)) (f : result KeyError A → M Roots (result KeyError B)) :
  stuck m is_err → (∀ e, f (Err e) = mret (Err e)) → stuck (m ≫= f) is_err.
Proof. intros Hm Hf. eapply stuck_bind; [exact Hm|]. intros [x|e] Hx; [done|]. rewrite Hf. by apply stuck_ret. Qed.

Lemma stuck_set salt nonce old new : stuck (pin_set salt nonce old new) is_err.
Proof.
  destruct only_torn as (_ & _ & Hf). eapply stuck_bind; [apply stuck_gets|]. intros there ->. unfold pin_locked. rewrite Hf. cbn.
  apply stuck_err; [|done]. destruct old; [apply stuck_found|by apply stuck_ret].
Qed.
Lemma stuck_clear p : stuck (pin_clear p) is_err.
Proof. eapply stuck_bind; [apply stuck_open|]. intros o ->. by apply stuck_ret. Qed.
Lemma stuck_hello_set nonce p : stuck (hello_set nonce p) is_err.
Proof.
  eapply stuck_bind; [apply stuck_hello_locked|]. intros b ->. apply stuck_err; [|done].
  destruct only_torn as (_ & _ & Hf). eapply stuck_bind; [apply stuck_gets|]. intros there ->. unfold pin_locked. rewrite Hf. cbn.
  destruct p; [apply stuck_found|by apply stuck_ret].
Qed.
Lemma stuck_hello_clear : stuck hello_clear is_err.
Proof. apply stuck_err; [apply stuck_hello_dek|done]. Qed.

(** No step changes anything any more. *)
Lemma stuck_home {A} (m : M Roots A) Q l fs : stuck m Q → ∃ x, on_roots m (r, l) fs = ((r, l), x) ∧ ∀ y fs', x = Some (y, fs') → Q y.
Proof.
  intros Hm. specialize (Hm r fs (all_any fs) eq_refl). unfold on_roots, lift. cbn [fst snd].
  destruct (m r fs) as [r' [[y fs']|]]; [destruct Hm as [[Hy ->] _]|subst r']; eexists; (split; [done|]); [by intros ? ? [= <- <-]|done].
Qed.
Lemma stuck_op o l fs : (op_run o (r, l) fs).1 = (r, l).
Proof.
  assert (Hthen : ∀ A B (m : M Roots A) (f : A → M Home B) Q, stuck m Q → (∀ x fs, Q x → (f x (r, l) fs).1 = (r, l)) → ((on_roots m ≫= f) (r, l) fs).1 = (r, l)).
  { intros A B m f Q Hm Hf. destruct (stuck_home m Q l fs Hm) as (x & Hx & HQ). unfold mbind, M_bind. rewrite Hx.
    destruct x as [[y fs']|]; [|done]. apply Hf. by eapply HQ. }
  assert (Hthen' : ∀ A B (m : M Home A) (f : A → M Home B), ((m (r, l) fs).1 = (r, l)) → (∀ x fs, (f x (r, l) fs).1 = (r, l)) → ((m ≫= f) (r, l) fs).1 = (r, l)).
  { intros A B m f Hm Hf. unfold mbind, M_bind. destruct (m (r, l) fs) as [h [[y fs']|]]; cbn in Hm; subst h; [apply Hf|done]. }
  destruct o; cbn [op_run].
  - by eapply Hthen; [apply stuck_set|].
  - by eapply Hthen; [apply stuck_clear|].
  - apply Hthen'; [|done]. eapply Hthen; [apply stuck_open|]. by intros x fs' ->.
  - by eapply Hthen; [apply stuck_hello_set|].
  - by eapply Hthen; [apply stuck_hello_clear|].
  - apply Hthen'; [|done]. eapply Hthen; [apply stuck_hello_dek|]. by intros [x|e] fs' Hx.
Qed.
End Torn.

(** [C26]: When the PIN is where the key is kept, a crash while an attempt with the
    right PIN sets the count back to zero can tear the file; from then on no PIN
    opens it, every start is locked, and no step, whatever fails in it, changes
    anything: the key is lost. *)
Theorem torn_wrap_locks_out pin c salt nonce ct t r :
  well_wrapped pin raw c salt nonce ct → length t ≠ 86 →
  keychain r = None → hello_file r = None → pin_file r = Some (wrap_of c salt nonce ct) →
  let r' := set_pin_file (Some t) r in
  pin_wrap_open pin r [Fine; Fine; Crash (Some t)] = (r', None) ∧ pin_locked r' = true ∧
  (∀ p fs r'' o fs', pin_wrap_open p r' fs = (r'', Some (o, fs')) → o = Corrupt) ∧
  (∀ o l fs, (op_run o (r', l) fs).1 = (r', l)).
Proof.
  intros Hw Ht Hk Hh Hf r'. split; [|split; [done|split]].
  - destruct (parse_wrap pin raw c salt nonce ct Hw) as (Hlen & Hmagic & Hver & Hcount & Hsalt & Hnonce & Hct & Haad & Hput).
    unfold pin_wrap_open, mbind, M_bind. cbn [reads tail]. rewrite Hf, Hlen, Hmagic, Hver, !bool_decide_true by done.
    cbn [negb orb N.eqb Pos.eqb]. cbv zeta. rewrite Hsalt, Hnonce, Hct, Haad, (aead_dec_enc _ _ _ _ _ (ww_enc _ _ _ _ _ _ Hw)).
    unfold pin_counter_store, mbind, M_bind. cbn [reads tail]. by rewrite Hf, Hlen.
  - intros p fs r'' o fs' Ho. pose proof (stuck_open r' t (conj Hk (conj Hh eq_refl)) Ht p r' fs (all_any fs) eq_refl) as H.
    rewrite Ho in H. by destruct H as [[]].
  - intros o l fs. by apply (stuck_op r' t (conj Hk (conj Hh eq_refl)) Ht).
Qed.
End Wraps.

(** ** A concrete custody *)
Module Desk.
#[export] Instance custody_ : Custody := {|
  argon2id pw salt := pw ++ salt; sha256 b := b; hello_sig := [7%N]; windows := true;
|}.
Lemma toy_opens k k' n a m m' c : @aead_enc Toy.aead k n a m = Some c → @aead_dec Toy.aead k' n a c = Some m' → m' = m.
Proof.
  intros [= <-]. cbn. case_bool_decide as Hc; [|done]. intros [= <-].
  rewrite length_app. apply take_app_length'. cbn. lia.
Qed.
Definition raw : bytes := replicate 32 171%N.
Lemma raw_wf : wf_bytes raw.
Proof. by apply Forall_replicate. Qed.
Definition salt : bytes := replicate 16 5%N.
Definition nonce : bytes := replicate 12 6%N.
Definition pin : str := lit "314159".
Definition other : str := lit "271828".
Definition begin_ : Roots := MkRoots (Some (hex_encode (Platform := ToyNet.platform) raw)) None None.
(** The PIN is set while the keychain refuses to let go of the key; then Hello, and
    the PIN is cleared. *)
Definition move : list Op := [OpPinSet salt nonce None pin; OpHelloSet nonce (Some pin); OpPinClear pin].
End Desk.
Import ToyNet Toy Desk.
#[local] Existing Instances Toy.aead Toy.laws ToyNet.platform ToyNet.platform_laws Desk.custody_ Tables.sqlite Tables.laws.

Lemma key_kept_witness :
  let dek := Net.hex_encode Desk.raw in
  let h1 := (op_run (OpPinSet Desk.salt Desk.nonce None Desk.pin) (Desk.begin_, [Tables.clear 5]) [Fine; Fine; Fine; Fine; Fine; Fine; Fails None]).1 in
  let h2 := (op_run (OpPinClear Desk.other) h1 []).1 in
  all_hold dek [Tables.mail 5] h2.2 ∧
  (keychain h2.1 = Some dek ∨ (∃ pin r', pin = Desk.pin ∧ pin_wrap_open pin h2.1 [] = (r', Some (Dek dek, []))) ∨
   hello_dek h2.1 [] = (h2.1, Some (Ok dek, []))).
Proof.
  intros dek h1 h2. apply (key_kept Desk.raw eq_refl Desk.raw_wf (λ p, p = Desk.pin)).
  apply custody_op; [|exact I|by constructor|].
  - apply custody_op; [|by split_and!|by repeat constructor|discriminate]. apply custody_begins. by repeat constructor.
  - intros p _ pin c salt nonce ct m _ [_ _ _ _ He] Hdec. exact (Desk.toy_opens _ _ _ _ _ _ _ He Hdec).
Defined.
Lemma pin_opens_witness :
  let r := MkRoots None None None in
  ∃ b, pin_wrap_write Desk.salt Desk.nonce Desk.pin (Net.hex_encode Desk.raw) r [] = (set_pin_file (Some b) r, Some (Ok tt, [])) ∧
    ∃ b', tries [Desk.other; Desk.other] (set_pin_file (Some b) r) [] = (set_pin_file (Some b') r, Some ([Wrong 1 1; Wrong 2 2], [])) ∧
      pin_wrap_open Desk.pin (set_pin_file (Some b') r) [] = (set_pin_file (Some b) r, Some (Dek (Net.hex_encode Desk.raw), [])).
Proof.
  intros r. destruct (pin_opens Desk.raw eq_refl Desk.raw_wf Desk.salt Desk.nonce Desk.pin r eq_refl eq_refl) as (ct & _ & Hw & Ht); [done|].
  eexists. split; [exact Hw|].
  assert (Hct : ct = default [] (aead_enc (derive_pin_kek Desk.pin Desk.salt) Desk.nonce (WRAP_MAGIC ++ [1%N] ++ Desk.salt ++ Desk.nonce) Desk.raw)).
  { apply (f_equal (λ x, drop 38 (default [] (pin_file x.1)))) in Hw. symmetry. exact Hw. }
  eexists. apply (Ht [Desk.other; Desk.other]). rewrite Hct.
  assert (Hd : aead_dec (derive_pin_kek Desk.other Desk.salt) Desk.nonce (WRAP_MAGIC ++ [1%N] ++ Desk.salt ++ Desk.nonce)
    (default [] (aead_enc (derive_pin_kek Desk.pin Desk.salt) Desk.nonce (WRAP_MAGIC ++ [1%N] ++ Desk.salt ++ Desk.nonce) Desk.raw)) = None)
    by (vm_compute; reflexivity).
  by repeat constructor.
Defined.

Definition worn : bytes := wrap_of 3 Desk.salt Desk.nonce
  (default [] (aead_enc (derive_pin_kek Desk.pin Desk.salt) Desk.nonce (WRAP_MAGIC ++ [1%N] ++ Desk.salt ++ Desk.nonce) Desk.raw)).
Lemma torn_wrap_locks_out_witness :
  let r := MkRoots None (Some worn) None in
  pin_wrap_open Desk.pin r [Fine; Fine; Crash (Some [])] = (set_pin_file (Some []) r, None) ∧
  (op_run (OpPinSet Desk.salt Desk.nonce (Some Desk.pin) Desk.other) (set_pin_file (Some []) r, []) []).1 = (set_pin_file (Some []) r, []).
Proof.
  intros r. destruct (torn_wrap_locks_out Desk.raw Desk.pin 3 Desk.salt Desk.nonce
    (default [] (aead_enc (derive_pin_kek Desk.pin Desk.salt) Desk.nonce (WRAP_MAGIC ++ [1%N] ++ Desk.salt ++ Desk.nonce) Desk.raw)) [] r) as (H1 & _ & _ & H2).
  - by split.
  - done.
  - done.
  - done.
  - done.
  - split; [exact H1|apply H2].
Defined.
