(* ===== verification/PageFiles.v ===== *)
(** * Files that the page names ([lib.rs], commands with paths; [picked.rs])

    The page is not trusted with paths.  What it may have read, encrypted or
    opened is inside the data directory; what it may name outside is what the user
    picked, as far as Rust has seen it. *)

From S2P Require Import Prelude Str Ip Attachment Readers Paths MediaServer.

(** ** Inside the data directory *)

Definition without_verbatim (path : str) : str := default path (strip_prefix (lit "\\?\") path).
Definition upload_contains (file uploads : str) : bool := path_starts_with (without_verbatim file) (without_verbatim uploads).

Definition scoped_accounts_path (sv : Server) (t : Fs) (path : str) : option str :=
  let absolute := if is_absolute path then path else join (accounts_dir sv) path in
  canon ← canonicalize t absolute;
  let base := sv_dir sv in
  let base_canon := default base (canonicalize t base) in
  if negb (path_starts_with canon base_canon) then None else Some (without_verbatim canon).

Definition MAX_MEDIA_IPC_BYTES : N := 128 * 1024 * 1024.

(** [Path::file_name] *)
Definition file_name (s : str) : option str :=
  match last (names s) with Some n => if bool_decide (n = lit "..") then None else Some n | None => None end.

Definition resolve_upload_path (sv : Server) (filename : str) : str :=
  match file_name filename with
  | None => []
  | Some safe => join (join (sv_dir sv) (lit "uploads")) safe
  end.

(** The name under which another program gets a document. *)
Definition open_char (c : N) : N := if is_control c || bool_decide (c ∈ lit ":*?<>|") || (c =? 34)%N then 95%N else c.
Definition dot_or_space (c : N) : bool := (c =? 46)%N || (c =? 32)%N.
Fixpoint drop_while (p : N → bool) (s : str) : str :=
  match s with c :: s' => if p c then drop_while p s' else s | [] => [] end.
Definition trim_matches (p : N → bool) (s : str) : str := reverse (drop_while p (reverse (drop_while p s))).
Definition safe_open_name (name : option str) (src : str) : str :=
  let fallback := default (lit "file") (file_name src) in
  let raw := match trim <$> name with Some ((_ :: _) as n) => n | _ => fallback end in
  let raw := after_last (λ c, (c =? slash)%N || (c =? 92)%N) raw in
  let cleaned := trim_matches dot_or_space (open_char <$> raw) in
  let out := reverse (take 120 (reverse cleaned)) in
  match out with [] => lit "file" | _ => out end.

Section PageFiles.
Context {aead : Aead}.

Definition checked_media_read (sv : Server) (t : Fs) (canon : str) : option bytes :=
  r ← open_attachment sv t canon;
  if (MAX_MEDIA_IPC_BYTES <? r_len r)%N then None else res ← read_all r; result_ok res.
Definition read_media_bytes (sv : Server) (t : Fs) (src : str) : option bytes :=
  canon ← scoped_accounts_path sv t src; checked_media_read sv t canon.

(** The encrypted file is written beside the upload and renamed over it. *)
Definition encrypt_upload_blocking (e : Env) (sv : Server) (t : Fs) (path : str) : option Fs :=
  match sv_key sv with
  | None => Some t
  | Some key =>
      '(d, _) ← file_of t path;
      if is_encrypted d then Some t else
      match encrypt (encrypt_fuel (len d)) key (e_rand e) d (len d) with
      | Some (Ok sealed) => if e_disk e then p ← resolve t path; Some (set_node p (File sealed (e_now e)) t) else None
      | _ => None
      end
  end.
Definition encrypt_upload (e : Env) (sv : Server) (t : Fs) (path : str) : option Fs :=
  canon ← scoped_accounts_path sv t path;
  uploads ← canonicalize t (join (sv_dir sv) (lit "uploads"));
  if negb (upload_contains canon uploads) then None else encrypt_upload_blocking e sv t canon.

(** *** Documents for other programs *)

Definition open_docs (sv : Server) : str := join (sv_dir sv) (lit "open-docs").

(** Directories and links in it that are [old] are removed with what is in them. *)
Definition swept (t : Fs) (root : list str) (old : str → bool) (x : list str) : Prop :=
  root `prefix_of` x ∧ match x !! length root with
    | Some n => old n = true ∧ match fs_nodes t !! (root ++ [n]) with Some (File _ _) | None => False | _ => True end
    | None => False
    end.
#[export] Instance swept_dec t root old x : Decision (swept t root old x).
Proof. unfold swept. destruct (x !! length root); [destruct (fs_nodes t !! _) as [[]|]|]; apply _. Defined.
Definition sweep_open_docs (old : str → bool) (t : Fs) (dir : str) : Fs :=
  match resolve t dir with
  | None => t
  | Some root => MkFs (filter (λ x, ¬ swept t root old x.1) (fs_nodes t)) (fs_cwd t)
  end.

(** [File::create] and a write.  A link that leads nowhere is refused. *)
Definition create_file (e : Env) (t : Fs) (dir name : str) (data : bytes) : option Fs :=
  p ← resolve t dir;
  if negb (e_disk e) || negb (dir_exists t p) then None else
  match resolve t (join dir name), fs_nodes t !! (p ++ [name]) with
  | Some x, _ => match file_at t x with Some _ => Some (set_node x (File data (e_now e)) t) | None => None end
  | None, None => Some (set_node (p ++ [name]) (File data (e_now e)) t)
  | None, Some _ => None
  end.

(** The path of the copy, if it was made, and the files then. *)
Definition decrypted_open_copy (e : Env) (old : str → bool) (id : str) (sv : Server) (t : Fs) (src : str) (name : option str) : option str * Fs :=
  match scoped_accounts_path sv t src with
  | None => (None, t)
  | Some canon =>
      let root := open_docs sv in
      let t := sweep_open_docs old t root in
      let t := create_dir e (create_dir e t (sv_dir sv) (lit "open-docs")) root id in
      let dir := join root id in
      let out := safe_open_name name canon in
      match read_attachment sv t canon with
      | None => (None, t)
      | Some data => match create_file e t dir out data with Some t' => (Some (join dir out), t') | None => (None, t) end
      end
  end.
End PageFiles.

(** ** What the user picked *)

Definition normalize (t : Fs) (p : str) : str := default p (canonicalize t p).
(** [OPENED]: the paths that the system opened the program with. *)
Definition record (t : Fs) (path : str) (opened : list str) : list str := normalize t path :: opened.
Definition was_opened (t : Fs) (opened : list str) (path : str) : bool := bool_decide (normalize t path ∈ opened).
Definition is_within (t : Fs) (path : str) (bases : list str) : bool :=
  let p := normalize t path in
  if bool_decide (lit ".." ∈ names p) then false else
  existsb (λ b, let b := normalize t b in negb (bool_decide (b = [])) && path_starts_with p b) bases.

Definition opened_file_path (t : Fs) (url : str) : option str :=
  p ← match strip_prefix (lit "file://") url with
      | Some rest =>
          let rest := percent_decode rest in
          Some (match rest with c :: d :: x :: more => if ((c =? slash) && (d <? 128) && (x =? 58))%N then d :: x :: more else rest | _ => rest end)
      | None => if contains (lit "://") url || starts_with (lit "data:") url || starts_with (lit "content:") url then None else Some url
      end;
  if bool_decide (is_Some (file_of t p)) then Some p else None.
(** A link or a file that the system hands over. *)
Definition queue_opened (t : Fs) (url : str) (opened : list str) (queue : list str) : list str * list str :=
  if bool_decide (url = []) then (opened, queue) else
  (match opened_file_path t url with Some p => record t p opened | None => opened end,
   if bool_decide (url ∈ queue) then queue else queue ++ [url]).

(** [scope]: what the dialogs of the system added to the scope of the page. *)
Definition check (t : Fs) (opened bases : list str) (scope : str → bool) (path : str) : bool :=
  negb (bool_decide (path = [])) && (is_within t path bases || was_opened t opened path || scope path).

(** ** The commands stay in their directories *)

Section Confined.
Context {aead : Aead} {laws : AeadLaws}.

Lemma strip_absolute s c : is_absolute s = true → strip_prefix (lit "\\?\") s = c → c = None.
Proof.
  unfold is_absolute, starts_with. intros [y Hy]%bool_decide_eq_true <-. apply strip_prefix_Some in Hy as ->. by vm_compute.
Qed.
Lemma without_absolute s : is_absolute s = true → without_verbatim s = s.
Proof. intros H. unfold without_verbatim. by rewrite (strip_absolute s _ H eq_refl). Qed.

(** A path that a command accepts is a place under the data directory. *)
Lemma scoped_ok sv t path c q : fs_ok t → resolve t (sv_dir sv) = Some q → scoped_accounts_path sv t path = Some c →
  ∃ p, c = show_path p ∧ canonical t p ∧ q `prefix_of` p ∧ resolve t c = Some p.
Proof.
  intros Hok Hq. unfold scoped_accounts_path.
  destruct (canonicalize t (if is_absolute path then path else _)) as [canon|] eqn:Hc; [|done]. cbn [mbind option_bind].
  apply canonicalize_resolve in Hc as (p & -> & Hp & Hr); [|done].
  assert (canonicalize t (sv_dir sv) = Some (show_path q)) as -> by (unfold canonicalize; by rewrite Hq). cbn [default from_option id].
  rewrite show_starts_with by (first [apply Hp|by apply (resolve_canonical t (sv_dir sv))]).
  case_bool_decide as Hpre; [|done]. cbn [negb]. intros [= <-]. rewrite without_absolute by apply show_absolute.
  by exists p.
Qed.

Lemma resolve_file t p : canonical t p → file_of t (show_path p) = file_at t p.
Proof. intros Hp. unfold file_of. by rewrite resolve_show. Qed.

Lemma read_media_ok sv t src q b : fs_ok t → resolve t (sv_dir sv) = Some q → read_media_bytes sv t src = Some b →
  ∃ p d m, q `prefix_of` p ∧ canonical t p ∧ file_at t p = Some (d, m) ∧
    ∀ pt, holds (sv_key sv) d pt → b = pt ∧ (len b ≤ MAX_MEDIA_IPC_BYTES)%N.
Proof.
  intros Hok Hq. unfold read_media_bytes. destruct (scoped_accounts_path sv t src) as [c|] eqn:Hs; [|done].
  destruct (scoped_ok sv t src c q Hok Hq Hs) as (p & -> & Hp & Hpre & _). cbn [mbind option_bind].
  unfold checked_media_read, open_attachment. rewrite resolve_file by done. destruct (file_at t p) as [[d m]|] eqn:Hf; [|done].
  cbn [mbind option_bind]. destruct (open d (sv_key sv)) as [r|] eqn:Ho; [|done]. cbn [result_ok mbind option_bind].
  destruct (N.ltb_spec MAX_MEDIA_IPC_BYTES (r_len r)) as [|Hle]; [done|]. intros Hb. exists p, d, m. split_and!; try done.
  intros pt Hh. destruct (open_holds _ _ _ Hh) as (r' & Ho' & Hst). rewrite Ho in Ho'. injection Ho' as <-.
  rewrite (read_all_stands r pt Hst) in Hb. cbn in Hb. injection Hb as <-. split; [done|]. by rewrite <- (proj1 (stands_len _ _ _ Hst)).
Qed.

Lemma encrypt_upload_ok e sv t path t' q u : fs_ok t → resolve t (sv_dir sv) = Some q → resolve t (join (sv_dir sv) (lit "uploads")) = Some u →
  encrypt_upload e sv t path = Some t' → ∃ p d m, u `prefix_of` p ∧ q `prefix_of` p ∧ canonical t p ∧
    (t' = t ∨ file_at t p = Some (d, m) ∧ is_encrypted d = false ∧ ∃ key sealed, sv_key sv = Some key ∧
       encrypt (encrypt_fuel (len d)) key (e_rand e) d (len d) = Some (Ok sealed) ∧ t' = set_node p (File sealed (e_now e)) t).
Proof.
  intros Hok Hq Hu. unfold encrypt_upload. destruct (scoped_accounts_path sv t path) as [c|] eqn:Hs; [|done].
  destruct (scoped_ok sv t path c q Hok Hq Hs) as (p & -> & Hp & Hpre & Hr). cbn [mbind option_bind].
  assert (canonicalize t (join (sv_dir sv) (lit "uploads")) = Some (show_path u)) as -> by (unfold canonicalize; by rewrite Hu).
  cbn [mbind option_bind]. unfold upload_contains. rewrite !without_absolute by apply show_absolute.
  rewrite show_starts_with by (first [apply Hp|by apply (resolve_canonical t (join (sv_dir sv) (lit "uploads")))]).
  case_bool_decide as Hup; [|done]. cbn [negb]. unfold encrypt_upload_blocking. rewrite resolve_file by done.
  destruct (sv_key sv) as [key|] eqn:Hk; [|intros [= <-]; exists p, [], 0%N; by auto].
  destruct (file_at t p) as [[d m]|] eqn:Hf; [|done]. cbn [mbind option_bind]. exists p, d, m. split_and!; try done.
  destruct (is_encrypted d) eqn:He; [left; congruence|]. destruct (encrypt _ _ _ _ _) as [[sealed|]|] eqn:Henc; try done.
  destruct (e_disk e); [|done]. rewrite Hr in H. cbn in H. injection H as <-. right. split_and!; try done. by exists key, sealed.
Qed.

(** ** The name and the copy of a document *)

Lemma drop_while_head p s : match drop_while p s with c :: _ => p c = false | [] => True end.
Proof. induction s as [|c s IH]; [done|]. cbn. by destruct (p c) eqn:Hc. Qed.
Lemma drop_while_in p s c : c ∈ drop_while p s → c ∈ s.
Proof. induction s as [|x s IH]; [done|]. cbn. destruct (p x); [|done]. intros H%IH. set_solver. Qed.

Lemma safe_open_name_plain name src : plain_name (safe_open_name name src).
Proof.
  unfold safe_open_name, trim_matches. generalize (match trim <$> name with Some ((_ :: _) as n) => n | _ => default (lit "file") (file_name src) end) as raw. intros raw.
  set (chars := open_char <$> after_last _ raw). rewrite reverse_involutive.
  set (rest := drop_while dot_or_space (reverse (drop_while dot_or_space chars))).
  assert (Hslash : slash ∉ rest).
  { intros H%drop_while_in. rewrite elem_of_reverse in H. apply drop_while_in in H. apply list_elem_of_fmap in H as (c & Hc & Hin).
    pose proof (after_last_spec (λ c, (c =? slash)%N || (c =? 92)%N) raw) as Hall. rewrite Forall_forall in Hall. specialize (Hall c Hin).
    apply orb_false_iff in Hall as [Hne%N.eqb_neq _]. unfold open_char in Hc. destruct (_ || _); [done|congruence]. }
  pose proof (drop_while_head dot_or_space (reverse (drop_while dot_or_space chars))) as Hhead. fold rest in Hhead. clearbody rest. clear chars.
  destruct rest as [|c rest]; [cbn; split_and!; [done..|]; vm_compute; by intros H; repeat (apply elem_of_cons in H as [H|H]; [done|])|].
  cbn [take]. rewrite reverse_cons. destruct (reverse (take 119 rest) ++ [c]) as [|x out] eqn:Hout; [by destruct (reverse _)|].
  rewrite <- Hout. split_and!.
  - by destruct (reverse _).
  - intros H. apply (f_equal last) in H. rewrite last_snoc in H. injection H as ->. done.
  - intros H. apply (f_equal last) in H. rewrite last_snoc in H. injection H as ->. done.
  - rewrite elem_of_app, elem_of_reverse, list_elem_of_singleton. intros [H%elem_of_take|H]; [destruct H as (i & H & _); apply list_elem_of_lookup_2 in H|];
      apply Hslash; set_solver.
Qed.

Definition outside (r : list str) (t t' : Fs) : Prop :=
  fs_cwd t' = fs_cwd t ∧ ∀ x, ¬ r `prefix_of` x → fs_nodes t' !! x = fs_nodes t !! x.
Lemma outside_refl r t : outside r t t.
Proof. done. Qed.
Lemma outside_trans r t1 t2 t3 : outside r t1 t2 → outside r t2 t3 → outside r t1 t3.
Proof. intros [H1 H2] [H3 H4]. split; [congruence|]. intros x Hx. rewrite H4 by done. by apply H2. Qed.
Lemma outside_set r t p n : r `prefix_of` p → outside r t (set_node p n t).
Proof. intros Hp. split; [done|]. intros x Hx. cbn. apply lookup_insert_ne. by intros ->. Qed.
Lemma outside_sweep old t dir r : (∀ p, resolve t dir = Some p → p = r) → outside r t (sweep_open_docs old t dir).
Proof.
  intros Hr. unfold sweep_open_docs. destruct (resolve t dir) as [p|]; [|done]. rewrite (Hr p eq_refl). split; [done|]. intros x Hx. cbn.
  destruct (fs_nodes t !! x) as [n|] eqn:Hn; [|by apply map_lookup_filter_None_2; left].
  apply map_lookup_filter_Some_2; [done|]. by intros [? _].
Qed.

Lemma dirs_outside r t t' p : outside r t t' → ¬ r `prefix_of` p → dirs_to (fs_nodes t) p → dirs_to (fs_nodes t') p.
Proof.
  intros [_ Ho] Hp Hd x y -> Hx. rewrite Ho; [by apply (Hd x y)|]. intros [z ->]. apply Hp. exists (z ++ y). by rewrite <- app_assoc.
Qed.

Lemma plain_open_docs : plain_name (lit "open-docs").
Proof. split_and!; [done..|]. unfold slash. cbn. set_solver by lia. Qed.
Lemma plain_uploads : plain_name (lit "uploads").
Proof. split_and!; [done..|]. unfold slash. cbn. set_solver by lia. Qed.

(** The data directory [q], without links on the way, and its [open-docs], which is
    a directory if it is there; this directory is not the current one. *)
Record data_dir (sv : Server) (t : Fs) (q : list str) : Prop := {
  dd_dir : sv_dir sv = show_path q;
  dd_plain : Forall plain_name q;
  dd_dirs : dirs_to (fs_nodes t) q;
  dd_docs : fs_nodes t !! (q ++ [lit "open-docs"]) = None ∨ fs_nodes t !! (q ++ [lit "open-docs"]) = Some Dir;
  dd_ok : fs_ok t;
  dd_cwd : ¬ (q ++ [lit "open-docs"]) `prefix_of` fs_cwd t;
}.

Lemma not_below (q : list str) n : ¬ (q ++ [n]) `prefix_of` q.
Proof. intros H%prefix_length. rewrite length_app in H. cbn in H. lia. Qed.

Section Copy.
Context (sv : Server) (t : Fs) (q : list str) (Hdd : data_dir sv t q).
Let r := q ++ [lit "open-docs"].

Lemma show_nonempty : show_path q ≠ [].
Proof. by destruct q. Qed.
Lemma base_kept t' : outside r t t' → fs_ok t' ∧ resolve t' (sv_dir sv) = Some q ∧ is_dir (fs_nodes t') q.
Proof.
  intros Ho. assert (Hd : dirs_to (fs_nodes t') q) by (eapply dirs_outside; [exact Ho|apply not_below|apply Hdd]).
  split; [|split].
  - destruct (dd_ok _ _ _ Hdd) as [H1 H2]. split; rewrite (proj1 Ho); [done|]. eapply dirs_outside; [exact Ho|apply Hdd|done].
  - rewrite (dd_dir _ _ _ Hdd). apply resolve_show. split; [apply Hdd|by left].
  - destruct (decide (q = [])) as [->|Hq]; [by left|right]. apply (Hd q []); [by rewrite app_nil_r|done].
Qed.
Lemma docs_resolve t' : outside r t t' →
  match fs_nodes t' !! r with
  | Some Dir | Some (File _ _) => resolve t' (open_docs sv) = Some r
  | None => resolve t' (open_docs sv) = None
  | Some (Link _) => True
  end.
Proof.
  intros Ho. destruct (base_kept t' Ho) as (Hok & Hr & Hd). unfold open_docs, r.
  apply resolve_join; [done| |done|done|apply plain_open_docs]. rewrite (dd_dir _ _ _ Hdd). apply show_nonempty.
Qed.

(** The two directories: with a disk that works and a new [id], they are there. *)
Lemma copy_dirs e old id : plain_name id → (∀ x, fs_nodes t !! (r ++ [id] ++ x) = None) →
  let t1 := sweep_open_docs old t (open_docs sv) in
  let t3 := create_dir e (create_dir e t1 (sv_dir sv) (lit "open-docs")) (open_docs sv) id in
  outside r t t3 ∧
  (e_disk e = true → fs_ok t3 ∧ resolve t3 (join (open_docs sv) id) = Some (r ++ [id]) ∧ fs_nodes t3 !! (r ++ [id]) = Some Dir ∧
     ∀ n, fs_nodes t3 !! (r ++ [id] ++ [n]) = None).
Proof.
  intros Hid Hnew t1 t3. pose proof (docs_resolve t (outside_refl r t)) as Hr0.
  assert (H1 : outside r t t1).
  { apply outside_sweep. intros p Hp. destruct (dd_docs _ _ _ Hdd) as [Hn|Hn]; fold r in Hn; rewrite Hn in Hr0; congruence. }
  assert (Hnew1 : ∀ x, fs_nodes t1 !! (r ++ [id] ++ x) = None).
  { intros x. unfold t1, sweep_open_docs. destruct (resolve t (open_docs sv)); [|apply Hnew]. cbn. apply map_lookup_filter_None_2; left; apply Hnew. }
  assert (Hdoc1 : fs_nodes t1 !! r = fs_nodes t !! r).
  { unfold t1, sweep_open_docs. destruct (resolve t (open_docs sv)) as [p|] eqn:Hp; [|done]. cbn.
    assert (p = r) as -> by (destruct (dd_docs _ _ _ Hdd) as [Hn|Hn]; fold r in Hn; rewrite Hn in Hr0; congruence).
    destruct (fs_nodes t !! r) as [n|] eqn:Hn; [|by apply map_lookup_filter_None_2; left].
    apply map_lookup_filter_Some_2; [done|]. intros [_ Hs]. cbn in Hs. by rewrite lookup_ge_None_2 in Hs. }
  set (t2 := create_dir e t1 (sv_dir sv) (lit "open-docs")) in *.
  destruct (base_kept t1 H1) as (Hok1 & Hq1 & Hd1). pose proof (docs_resolve t1 H1) as Hr1.
  assert (H2 : outside r t t2 ∧ (e_disk e = true → fs_nodes t2 !! r = Some Dir) ∧ ∀ x, fs_nodes t2 !! (r ++ [id] ++ x) = None).
  { unfold t2, create_dir. fold (open_docs sv). rewrite Hq1. fold r. rewrite Hdoc1 in Hr1.
    destruct (dd_docs _ _ _ Hdd) as [Hn|Hn]; fold r in Hn; rewrite Hn in Hr1, Hdoc1; rewrite Hr1; [|split; [done|]; split; [done|exact Hnew1]].
    rewrite Hdoc1.
    unfold dir_exists. rewrite (bool_decide_true (q = [] ∨ _)) by exact Hd1. rewrite bool_decide_true by done.
    destruct (e_disk e); cbn [andb]; [|by split_and!]. split; [|split].
    - eapply outside_trans; [exact H1|]. by apply outside_set.
    - intros _. cbn. by rewrite lookup_insert_eq.
    - intros x. cbn [fs_nodes set_node]. rewrite lookup_insert_ne; [apply Hnew1|]. intros Heq. apply (f_equal length) in Heq. rewrite !length_app in Heq. cbn in Heq. lia. }
  destruct H2 as (H2 & Hdoc2 & Hnew2). clearbody t2. destruct (base_kept t2 H2) as (Hok2 & Hq2 & Hd2).
  pose proof (docs_resolve t2 H2) as Hr2.
  assert (Hoff : e_disk e = false → t3 = t2).
  { intros He. unfold t3, create_dir. rewrite He. by destruct (resolve t2 (join _ _)), (resolve t2 (open_docs sv)). }
  destruct (e_disk e) eqn:He; [|by rewrite Hoff].
  specialize (Hdoc2 eq_refl). rewrite Hdoc2 in Hr2.
  pose proof (resolve_join t2 (open_docs sv) r id Hok2) as Hj. rewrite <- (app_nil_r (r ++ [id])), <- app_assoc in Hj. rewrite Hnew2 in Hj.
  assert (Hjoin : resolve t2 (join (open_docs sv) id) = None).
  { apply Hj; [unfold open_docs, join; by destruct (sv_dir sv)|done|by right|done]. }
  assert (Ht3 : t3 = set_node (r ++ [id]) Dir t2).
  { unfold t3, create_dir. rewrite Hjoin, Hr2, He. unfold dir_exists. rewrite bool_decide_true by auto. rewrite bool_decide_true; [done|].
    specialize (Hnew2 []). by rewrite app_nil_r in Hnew2. }
  assert (H3 : outside r t t3) by (rewrite Ht3; eapply outside_trans; [exact H2|]; apply outside_set; by apply prefix_app_r).
  split; [done|]. intros _. destruct (base_kept t3 H3) as (Hok3 & _ & _). split; [done|].
  assert (Hnode : fs_nodes t3 !! (r ++ [id]) = Some Dir) by (rewrite Ht3; cbn; by rewrite lookup_insert_eq).
  assert (Hdoc3 : fs_nodes t3 !! r = Some Dir).
  { rewrite Ht3. cbn [fs_nodes set_node]. rewrite lookup_insert_ne; [done|]. intros Heq. apply (f_equal length) in Heq. rewrite length_app in Heq. cbn in Heq. lia. }
  pose proof (docs_resolve t3 H3) as Hr3. rewrite Hdoc3 in Hr3. split; [|split; [done|]].
  - pose proof (resolve_join t3 (open_docs sv) r id Hok3) as Hj3. rewrite Hnode in Hj3.
    apply Hj3; [unfold open_docs, join; by destruct (sv_dir sv)|done|by right|done].
  - intros n. rewrite Ht3. cbn [fs_nodes set_node]. rewrite lookup_insert_ne; [apply Hnew2|]. intros Heq. apply (f_equal length) in Heq. rewrite !length_app in Heq. cbn in Heq. lia.
Qed.

Lemma copy_ok e old id src name : plain_name id → (∀ x, fs_nodes t !! (r ++ [id] ++ x) = None) →
  let '(out, t') := decrypted_open_copy e old id sv t src name in
  outside r t t' ∧
  ∀ o, out = Some o → ∃ p n data, q `prefix_of` p ∧ canonical t p ∧ plain_name n ∧ o = join (join (open_docs sv) id) n ∧
    fs_nodes t' !! (r ++ [id] ++ [n]) = Some (File data (e_now e)) ∧
    ∀ d m pt, file_at t p = Some (d, m) → holds (sv_key sv) d pt → ¬ r `prefix_of` p → data = pt.
Proof.
  intros Hid Hnew. unfold decrypted_open_copy. destruct (scoped_accounts_path sv t src) as [c|] eqn:Hs; [|by split].
  destruct (base_kept t (outside_refl r t)) as (Hok & Hq & _).
  destruct (scoped_ok sv t src c q Hok Hq Hs) as (p & -> & Hp & Hpre & _).
  destruct (copy_dirs e old id Hid Hnew) as [H3 Hdirs]. set (t3 := create_dir e _ _ id) in *.
  destruct (read_attachment sv t3 (show_path p)) as [data|] eqn:Hdata; [|by split].
  destruct (create_file e t3 _ _ data) as [t4|] eqn:Hc; [|by split]. unfold create_file in Hc.
  destruct (resolve t3 (join (open_docs sv) id)) as [d|] eqn:Hd; [|done]. cbn [mbind option_bind] in Hc.
  destruct (e_disk e) eqn:He; [|done]. destruct (Hdirs eq_refl) as (Hok3 & [= ->] & Hnode & Hnone).
  unfold dir_exists in Hc. rewrite bool_decide_true in Hc by auto. cbn [negb orb] in Hc.
  set (n := safe_open_name name (show_path p)) in *. pose proof (safe_open_name_plain name (show_path p)) as Hn. fold n in Hn.
  pose proof (resolve_join t3 (join (open_docs sv) id) (r ++ [id]) n Hok3) as Hj. rewrite <- app_assoc in Hj, Hc. rewrite Hnone in Hj, Hc.
  rewrite Hj in Hc; [|unfold join, open_docs; by destruct (sv_dir sv)|done|by right|done]. injection Hc as <-. split.
  - eapply outside_trans; [exact H3|]. apply outside_set. by apply prefix_app_r.
  - intros o [= <-]. exists p, n, data. split_and!; try done; [cbn; by rewrite lookup_insert_eq|]. intros d m pt Hf Hh Hout.
    assert (Hf3 : file_of t3 (show_path p) = Some (d, m)).
    { assert (Hat : file_at t3 p = Some (d, m)) by (unfold file_at in *; by rewrite (proj2 H3)).
      rewrite resolve_file; [done|]. split; [apply Hp|]. destruct Hp as [_ [Hp|(p' & n' & d' & m' & -> & Hp & Hn')]].
      - left. by eapply dirs_outside.
      - right. exists p', n', d', m'. split; [done|]. split; [|by rewrite (proj2 H3)]. eapply dirs_outside; [exact H3| |done].
        intros H. apply Hout. by apply prefix_app_r. }
    pose proof (read_attachment_holds sv t3 _ d m pt Hf3 Hh) as Hrd. rewrite Hdata in Hrd. by injection Hrd.
Qed.
End Copy.

Lemma file_name_plain s n : file_name s = Some n → plain_name n.
Proof.
  unfold file_name. destruct (last (names s)) as [x|] eqn:Hl; [|done]. case_bool_decide as Hdd; [done|]. intros [= <-].
  apply last_Some_elem_of in Hl. unfold names in Hl. apply list_elem_of_filter in Hl as [[H1 H2] H3].
  split_and!; try done. pose proof (split_none slash s) as Hall. rewrite Forall_forall in Hall. by apply Hall.
Qed.

(** [C11]: Whatever path the page gives: what it reads is a regular file in the data
    directory, in the clear, of at most 128 MiB; what it encrypts is one file in the
    directory of uploads, whose content stays the same, and nothing else changes; a
    copy for another program is a new file with a plain name in a new directory, it
    holds the text in the clear, and nothing changes outside [open-docs]; a place
    for an upload is directly in the directory of uploads. *)
Theorem page_paths_confined e old id sv t q path name :
  data_dir sv t q → plain_name id → (∀ x, fs_nodes t !! (q ++ [lit "open-docs"] ++ [id] ++ x) = None) →
  (∀ b, read_media_bytes sv t path = Some b → ∃ p d m, q `prefix_of` p ∧ canonical t p ∧ file_at t p = Some (d, m) ∧
     ∀ pt, holds (sv_key sv) d pt → b = pt ∧ (len b ≤ MAX_MEDIA_IPC_BYTES)%N) ∧
  (∀ t' u, resolve t (join (sv_dir sv) (lit "uploads")) = Some u → encrypt_upload e sv t path = Some t' →
     t' = t ∨ ∃ p d m sealed, u `prefix_of` p ∧ file_at t p = Some (d, m) ∧ t' = set_node p (File sealed (e_now e)) t ∧
       is_encrypted d = false ∧ (key_fits (sv_key sv) e d → holds (sv_key sv) sealed d)) ∧
  (let '(out, t') := decrypted_open_copy e old id sv t path name in
   (∀ x, ¬ (q ++ [lit "open-docs"]) `prefix_of` x → fs_nodes t' !! x = fs_nodes t !! x) ∧
   ∀ o, out = Some o → ∃ p n data, q `prefix_of` p ∧ canonical t p ∧ plain_name n ∧ o = join (join (open_docs sv) id) n ∧
     fs_nodes t' !! (q ++ [lit "open-docs"; id; n]) = Some (File data (e_now e)) ∧
     ∀ d m pt, file_at t p = Some (d, m) → holds (sv_key sv) d pt → ¬ (q ++ [lit "open-docs"]) `prefix_of` p → data = pt) ∧
  (resolve_upload_path sv path = [] ∨ ∃ n, plain_name n ∧ resolve_upload_path sv path = join (join (sv_dir sv) (lit "uploads")) n).
Proof.
  intros Hdd Hid Hnew. assert (Hnew' : ∀ x, fs_nodes t !! ((q ++ [lit "open-docs"]) ++ [id] ++ x) = None).
  { intros x. rewrite <- app_assoc. apply Hnew. }
  destruct (base_kept sv t q Hdd t (outside_refl _ t)) as (Hok & Hq & _).
  split; [|split; [|split]].
  - intros b. by apply read_media_ok.
  - intros t' u Hu Henc. destruct (encrypt_upload_ok e sv t path t' q u Hok Hq Hu Henc) as (p & d & m & Hup & _ & _ & [->|(Hf & Hd & key & sealed & Hk & He & ->)]);
      [by left|right]. exists p, d, m, sealed. split_and!; try done. intros Hfit. apply (encrypt_holds (sv_key sv) e d sealed Hfit). by rewrite Hk.
  - pose proof (copy_ok sv t q Hdd e old id path name Hid Hnew') as H. destruct (decrypted_open_copy e old id sv t path name) as [out t'].
    destruct H as [[_ H1] H2]. split; [done|]. intros o Ho. destruct (H2 o Ho) as (p & n & data & Ha & Hb & Hc & Hd & He & Hf).
    exists p, n, data. split_and!; try done. by rewrite <- app_assoc in He.
  - unfold resolve_upload_path. destruct (file_name path) as [n|] eqn:Hn; [right|by left]. exists n. split; [by eapply file_name_plain|done].
Qed.
End Confined.

(** ** Only what the user picked *)

(** [C12]: A path that is let through, and not by the scope of the dialogs, leads to
    a file that is inside one of the directories of the program, links followed, or
    that is the very file the system opened the program with. *)
Theorem picked_confined t opened bases scope path d m :
  fs_ok t → check t opened bases scope path = true → file_of t path = Some (d, m) →
  scope path = true ∨
  ∃ p, resolve t path = Some p ∧ file_at t p = Some (d, m) ∧
    (show_path p ∈ opened ∨
     ∃ b w, b ∈ bases ∧ w `prefix_of` p ∧ (resolve t b = Some w ∨ resolve t b = None ∧ names b = w ∧ is_absolute b = true)).
Proof.
  intros Hok Hc Hf. unfold file_of in Hf. destruct (resolve t path) as [p|] eqn:Hr; [|done]. cbn [mbind option_bind] in Hf.
  assert (Hp : canonical t p) by (by eapply resolve_canonical).
  assert (Hn : normalize t path = show_path p) by (unfold normalize, canonicalize; by rewrite Hr).
  unfold check in Hc. apply andb_true_iff in Hc as [_ [[Hw|Ho]%orb_true_iff|Hs]%orb_true_iff]; [right|right|by left]; exists p; (split; [done|]; split; [done|]).
  - right. unfold is_within in Hw. rewrite Hn in Hw. destruct (bool_decide (lit ".." ∈ _)); [done|].
    apply existsb_exists in Hw as (b & Hb%list_elem_of_In & [_ Hpre]%andb_true_iff). exists b.
    unfold normalize, canonicalize in Hpre. destruct (resolve t b) as [w|] eqn:Hw; cbn [fmap option_fmap option_map default from_option id] in Hpre.
    + exists w. assert (canonical t w) by (by eapply resolve_canonical). rewrite show_starts_with in Hpre by (first [apply Hp|apply H]).
      apply bool_decide_eq_true in Hpre. by auto.
    + unfold path_starts_with in Hpre. apply bool_decide_eq_true in Hpre as [Ha Hpre]. rewrite names_show in Hpre by apply Hp.
      rewrite show_absolute in Ha. exists (names b). split; [done|]. split; [done|]. right. by rewrite <- Ha.
  - left. unfold was_opened in Ho. rewrite Hn in Ho. by apply bool_decide_eq_true in Ho.
Qed.

(** What is opened is a file that is there, under its canonical path. *)
Lemma queue_opened_records t url opened queue x : fs_ok t → x ∈ (queue_opened t url opened queue).1 → x ∉ opened →
  ∃ path p d m, opened_file_path t url = Some path ∧ resolve t path = Some p ∧ x = show_path p ∧ file_at t p = Some (d, m).
Proof.
  intros Hok. unfold queue_opened. case_bool_decide; [done|]. cbn [fst]. destruct (opened_file_path t url) as [path|] eqn:Hp; [|done].
  unfold record. intros [->|Hx]%elem_of_cons Hnot; [|done]. unfold opened_file_path in Hp.
  destruct (match strip_prefix _ url with Some _ => _ | None => _ end) as [y|]; [|done]. cbn [mbind option_bind] in Hp.
  case_bool_decide as Hf; [|done]. injection Hp as ->. destruct Hf as [[d m] Hf]. unfold file_of in Hf.
  destruct (resolve t path) as [p|] eqn:Hr; [|done]. exists path, p, d, m. split_and!; try done. unfold normalize, canonicalize. by rewrite Hr.
Qed.

(** ** A concrete disk *)
Module Shelf.
Import Toy Page.
Definition tree : Fs := MkFs (<[[lit "d"; lit "uploads"] := Dir]> (<[[lit "d"; lit "uploads"; lit "n.txt"] := File (lit "note") 3]>
  (<[[lit "home"] := Dir]> (<[[lit "home"; lit "cv.pdf"] := File (lit "cv") 4]> (fs_nodes Page.tree))))) [].
Definition old (n : str) : bool := true.
Definition id : str := lit "00ff".

Lemma data : data_dir Page.server tree [lit "d"].
Proof.
  split; [done| | | | |].
  - constructor; [|constructor]. split_and!; [done..|]. unfold slash. cbn. set_solver by lia.
  - intros x y H Hx. destruct x as [|n [|m x]]; [done| |by destruct y]. cbn in H. injection H as <- <-. by vm_compute.
  - left. by vm_compute.
  - split; [constructor|apply dirs_to_nil].
  - intros H%prefix_length. cbn in H. lia.
Qed.
Lemma plain_id : plain_name id.
Proof. split_and!; [done..|]. unfold slash. cbn. set_solver by lia. Qed.
Lemma new_id x : fs_nodes tree !! ([lit "d"] ++ [lit "open-docs"] ++ [id] ++ x) = None.
Proof.
  cbn [tree fs_nodes Page.tree]. rewrite !lookup_insert_ne by (intros H; cbn in H; apply (f_equal (λ l, l !! 1)) in H; by vm_compute in H).
  apply not_elem_of_list_to_map_1. intros H. cbn in H. repeat (apply elem_of_cons in H as [H|H];
    [apply (f_equal (λ l, l !! 1)) in H; by vm_compute in H|]). by apply elem_of_nil in H.
Qed.
End Shelf.
Import Toy Page.
#[local] Existing Instances Toy.aead Toy.laws.

Lemma page_paths_confined_witness :
  read_media_bytes Page.server Shelf.tree (lit "uploads/../a.jpg") = None ∧
  read_media_bytes Page.server Shelf.tree (lit "a.jpg") = Some Page.photo ∧
  (∃ p d m, [lit "d"] `prefix_of` p ∧ canonical Shelf.tree p ∧ file_at Shelf.tree p = Some (d, m) ∧
     ∀ pt, holds (Some Toy.key) d pt → Page.photo = pt ∧ (len Page.photo ≤ MAX_MEDIA_IPC_BYTES)%N).
Proof.
  split; [vm_compute; reflexivity|]. split; [vm_compute; reflexivity|].
  destruct (page_paths_confined Page.env Shelf.old Shelf.id Page.server Shelf.tree [lit "d"] (lit "a.jpg") None Shelf.data Shelf.plain_id Shelf.new_id) as [H _].
  apply H. vm_compute. reflexivity.
Defined.

Lemma picked_confined_witness :
  let opened := fst (queue_opened Shelf.tree (lit "file:///home/cv.pdf") [] []) in
  check Shelf.tree [] [lit "/d"] (λ _, false) (lit "/home/cv.pdf") = false ∧
  ∃ p, resolve Shelf.tree (lit "/home/cv.pdf") = Some p ∧ file_at Shelf.tree p = Some (lit "cv", 4%N) ∧
    (show_path p ∈ opened ∨
     ∃ b w, b ∈ [lit "/d"] ∧ w `prefix_of` p ∧ (resolve Shelf.tree b = Some w ∨ resolve Shelf.tree b = None ∧ names b = w ∧ is_absolute b = true)).
Proof.
  intros opened. split; [vm_compute; reflexivity|].
  destruct (picked_confined Shelf.tree opened [lit "/d"] (λ _, false) (lit "/home/cv.pdf") (lit "cv") 4) as [H|H].
  - apply Shelf.data.
  - vm_compute. reflexivity.
  - vm_compute. reflexivity.
  - discriminate.
  - exact H.
Defined.

(** A path to nothing is taken as it is written: a link in it is not followed. *)
Lemma link_to_nowhere :
  let t := set_node [lit "d"; lit "l"] (Link (lit "/home")) Shelf.tree in
  check t [] [lit "/d"] (λ _, false) (lit "/d/l/new") = true ∧
  resolve t (lit "/d/l") = Some [lit "home"] ∧ check t [] [lit "/d"] (λ _, false) (lit "/d/l/cv.pdf") = false.
Proof. split_and!; vm_compute; reflexivity. Qed.
