(* ===== verification/Webxdc.v ===== *)
(** * Files of webxdc apps ([webxdc_serve.rs], [sidecar.rs] routing)

    A webxdc app runs in a frame of the page and asks for its files by requests to
    a scheme of their own.  Each is answered with a round trip to the core, and only
    for the app that is open.  Here: the requests, step by step between what they
    share, the table of the waiting ones, the lines of the core and their routing.

    The script that is put into an app is a constructor, the decoding of base64 an
    argument.
    Requests that the page itself sends to the core carry other ids. *)

From stdpp Require Import gmap.
From S2P Require Import Prelude Str Ip Json Attachment Readers Paths MediaServer.

(** [s.find(pat)], cut there. *)
Fixpoint cut_str (pat s : str) : option (str * str) :=
  if starts_with pat s then Some ([], s) else
  match s with [] => None | x :: t => '(a, b) ← cut_str pat t; Some (x :: a, b) end.

(** [s.parse::<u32>()] *)
Definition parse_u32 (s : str) : option N :=
  let s := default s (strip_prefix (lit "+") s) in
  match s with
  | [] => None
  | _ => n ← digits_value s; if (n <? u32_bound)%N then Some n else None
  end.

(** ** Paths of requests *)

Definition is_public_icon (path : str) : bool := bool_decide (path = lit "icon.png") || bool_decide (path = lit "icon.jpg").

(** What follows the host, without the query. *)
Definition rest_of (uri : str) : option str :=
  '(_, b) ← cut_str (lit "://") uri;
  '(_, rest) ← split_once slash (drop 3 b);
  Some (before_char 63 rest).
(** The app and the path that it names, or no app. *)
Definition prefixed (rest : str) : option (N * N * str) :=
  match split slash rest with
  | a :: b :: more => account ← parse_u32 a; msg ← parse_u32 b; Some (account, msg, join_str [slash] more)
  | _ => None
  end.
Definition decoded (path : str) : str := let path := percent_decode path in if bool_decide (path = []) then lit "index.html" else path.

(** ** What is put into the start page of an app *)

Definition STUB : str := lit "<script>window.__TAURI_INTERNALS__=window.__TAURI_INTERNALS__||{plugins:{},metadata:{}};</script>".
Definition quote : str := [34%N].
Definition SHIM_TAG : str := lit "<script src=" ++ quote ++ lit "__velta-shim.js" ++ quote ++ lit "></script>".
(** [head_at] cuts the document. *)
Definition head_at (html : str) : str * str :=
  match cut_str (lit "<head") html with
  | Some (a, b) => match cut_at 62 b with Some (c, d) => (a ++ c ++ [62%N], tail d) | None => ([], html) end
  | None => ([], html)
  end.
Definition injected (b : bytes) : bytes :=
  let html := from_utf8_lossy b in
  let '(before, after) := head_at html in
  as_bytes (before ++ STUB ++ SHIM_TAG ++ after).

Section Webxdc.
Context {J : Json} (base64_nopad : bytes → option bytes).

(** ** Lines of the core *)

Inductive Route := RWebxdc | RWeb | REmit.
(** [Envelope]: the field [id] of an object, or the only entry of an array.  (An
    object that has the field twice is not told apart from one that has it once.) *)
Definition envelope_id (line : str) : option value :=
  v ← from_str line;
  x ← (if is_object v then get v "id" else match as_array v with Some [x] => Some x | _ => None end);
  if bool_decide (x = null) then None else Some x.
Definition route_sidecar_line (line : str) : Route :=
  match envelope_id line with
  | None => REmit
  | Some x => match as_str x with Some id => if starts_with (lit "wxdc-") id then RWebxdc else RWeb | None => RWeb end
  end.

Definition wxdc_id (n : N) : str := lit "wxdc-" ++ show_N n.
Definition answer_line (id : str) (res : result value value) : str :=
  to_string (obj [(lit "jsonrpc", of_str "2.0"); (lit "id", of_str id);
                  match res with Ok v => (lit "result", v) | Err e => (lit "error", e) end]).

(** ** Requests *)

Inductive Reply := NotFound | Shim | Blob (mime : str) (body : bytes).
(** A request between its accesses to what is shared; an app, and a path. *)
Abbreviation app := (N * N)%type.
Inductive Request :=
| QStart (uri : str)                                  (* nothing done *)
| QGate (a : app) (path : str)                        (* [OPEN_APP] is about to be looked at *)
| QAsk (a : app) (path : str)
| QWait (a : app) (path : str) (id : str) (slot : option str)
| QDone (a : option app) (path : str) (reply : Reply).

(** A line on its way: an answer, with the request it answers, or another one. *)
Inductive Line := Answer (id : str) (asked : app * str) (res : result value value) | Other (line : str).
Definition text (l : Line) : str := match l with Answer id _ res => answer_line id res | Other line => line end.

(** [w_told]: for the statement, what the core answered. *)
Record World := MkWorld {
  w_open : option app;                       (* [OPEN_APP] *)
  w_counter : N;
  w_pending : gmap str nat;                  (* [wxdc_pending] *)
  w_requests : list Request;
  w_core : list (str * (app * str));         (* what the core was asked *)
  w_lines : list Line;
  w_page : list str;                         (* lines that are not for a request *)
  w_told : list (app * str * result value value);
}.

Definition set_request (i : nat) (q : Request) (w : World) : World :=
  MkWorld (w_open w) (w_counter w) (w_pending w) (<[i := q]> (w_requests w)) (w_core w) (w_lines w) (w_page w) (w_told w).
Definition set_open (o : option app) (w : World) : World :=
  MkWorld o (w_counter w) (w_pending w) (w_requests w) (w_core w) (w_lines w) (w_page w) (w_told w).

Definition set_open_app (a : app) (w : World) : World := set_open (Some a) w.
Definition clear_open_app (a : app) (w : World) : World := if bool_decide (w_open w = Some a) then set_open None w else w.

(** From the address to the app and the path; a path without an app is of the one
    that is open now. *)
Definition start (open : option app) (uri : str) : Request :=
  match rest_of uri with
  | None => QDone None [] NotFound
  | Some rest =>
      match prefixed rest with
      | Some (account, msg, path) => QGate (account, msg) (decoded path)
      | None => match open with Some a => QGate a (decoded rest) | None => QDone None [] NotFound end
      end
  end.
(** The gate, and the paths that need no core. *)
Definition gate (open : option app) (a : app) (path : str) : Request :=
  if negb (is_public_icon path) && negb (bool_decide (open = Some a)) then QDone (Some a) path NotFound
  else if bool_decide (path = lit "__velta-shim.js") || bool_decide (path = lit "webxdc.js") then QDone (Some a) path Shim
  else QAsk a path.

(** What a request makes of the line it waited for. *)
Definition blob_of (path line : str) : Reply :=
  match from_str line with
  | None => NotFound
  | Some v =>
      match get v "error" with
      | Some _ => NotFound
      | None =>
          match get v "result" ≫= as_str with
          | None => NotFound
          | Some b64 =>
              match base64_nopad (as_bytes (trim_end_char 61 b64)) with
              | None => NotFound
              | Some b => Blob (guess_mime path) (if bool_decide (path = lit "index.html") then injected b else b)
              end
          end
      end
  end.

(** The sender of the request is taken out of the table; when the request has
    given up, the line is gone. *)
Definition webxdc_resolve_line (line : str) (w : World) : World :=
  match v ← from_str line; get v "id" ≫= as_str with
  | None => w
  | Some id =>
      match w_pending w !! id with
      | None => w
      | Some i =>
          let w := MkWorld (w_open w) (w_counter w) (delete id (w_pending w)) (w_requests w) (w_core w) (w_lines w) (w_page w) (w_told w) in
          match w_requests w !! i with
          | Some (QWait a path id' None) => set_request i (QWait a path id' (Some line)) w
          | _ => w
          end
      end
  end.

Inductive Event :=
| EBegin (a : app) | EEnd (a : app)          (* [webxdc_begin], [webxdc_end] *)
| ERequest (uri : str)
| EStart (i : nat) | EGate (i : nat) | EAsk (i : nat) (sent : bool)
| EAnswer (n : nat) (res : result value value) (* the core, to the [n]th that it was asked *)
| EOther (line : str)
| ELine                                      (* the thread that reads the lines *)
| ETake (i : nat) | ETimeout (i : nat).

Definition step (w : World) (e : Event) : option World :=
  match e with
  | EBegin a => Some (set_open_app a w)
  | EEnd a => Some (clear_open_app a w)
  | ERequest uri => Some (MkWorld (w_open w) (w_counter w) (w_pending w) (w_requests w ++ [QStart uri]) (w_core w) (w_lines w) (w_page w) (w_told w))
  | EStart i => match w_requests w !! i with Some (QStart uri) => Some (set_request i (start (w_open w) uri) w) | _ => None end
  | EGate i => match w_requests w !! i with Some (QGate a path) => Some (set_request i (gate (w_open w) a path) w) | _ => None end
  | EAsk i sent =>
      match w_requests w !! i with
      | Some (QAsk a path) =>
          let id := wxdc_id (w_counter w) in
          let n := wadd64 (w_counter w) 1 in
          Some (if sent
                then MkWorld (w_open w) n (<[id := i]> (w_pending w)) (<[i := QWait a path id None]> (w_requests w))
                       (w_core w ++ [(id, (a, path))]) (w_lines w) (w_page w) (w_told w)
                else MkWorld (w_open w) n (delete id (w_pending w)) (<[i := QDone (Some a) path NotFound]> (w_requests w))
                       (w_core w) (w_lines w) (w_page w) (w_told w))
      | _ => None
      end
  | EAnswer n res =>
      match w_core w !! n with
      | Some (id, t) =>
          Some (MkWorld (w_open w) (w_counter w) (w_pending w) (w_requests w) (delete n (w_core w))
                  (w_lines w ++ [Answer id t res]) (w_page w) (w_told w ++ [(t, res)]))
      | None => None
      end
  | EOther line => Some (MkWorld (w_open w) (w_counter w) (w_pending w) (w_requests w) (w_core w) (w_lines w ++ [Other line]) (w_page w) (w_told w))
  | ELine =>
      match w_lines w with
      | [] => None
      | l :: rest =>
          let line := text l in
          let w := MkWorld (w_open w) (w_counter w) (w_pending w) (w_requests w) (w_core w) rest (w_page w) (w_told w) in
          Some (match route_sidecar_line line with
                | RWebxdc => webxdc_resolve_line line w
                | _ => MkWorld (w_open w) (w_counter w) (w_pending w) (w_requests w) (w_core w) (w_lines w) (w_page w ++ [line]) (w_told w)
                end)
      end
  | ETake i => match w_requests w !! i with Some (QWait a path _ (Some line)) => Some (set_request i (QDone (Some a) path (blob_of path line)) w) | _ => None end
  | ETimeout i => match w_requests w !! i with Some (QWait a path _ None) => Some (set_request i (QDone (Some a) path NotFound) w) | _ => None end
  end.

(** ** What a frame can read *)

Context {JL : JsonLaws}.

Definition launched : World := MkWorld None 0 ∅ [] [] [] [] [].

(** Answers nest as the parser of JSON allows; other lines are not read as answers
    to a request of this file. *)
Definition fair (w : World) (e : Event) : Prop :=
  match e with
  | EAsk _ _ => (w_counter w < u64_bound - 1)%N
  | EAnswer _ (Ok v) | EAnswer _ (Err v) => plain 126 v
  | EOther line => ∀ n, (v ← from_str line; get v "id" ≫= as_str) ≠ Some (wxdc_id n)
  | _ => True
  end.

(** A history, the newest state first. *)
Inductive history : list World → Prop :=
| history_launch : history [launched]
| history_step w h e w' : history (w :: h) → fair w e → step w e = Some w' → history (w' :: w :: h).

Lemma wxdc_id_inj n m : wxdc_id n = wxdc_id m → n = m.
Proof. unfold wxdc_id. intros H. apply app_inv_head in H. by apply show_N_inj. Qed.

Lemma answer_reads id res : match res with Ok v | Err v => plain 126 v end →
  ∃ v, from_str (answer_line id res) = Some v ∧ is_object v = true ∧ get v "id" = Some (of_str id) ∧
    match res with
    | Ok x => get v "error" = None ∧ get v "result" = Some x
    | Err x => get v "error" = Some x
    end.
Proof.
  intros Hres. unfold answer_line. set (kv := match res with Ok v => (lit "result", v) | Err e => (lit "error", e) end).
  assert (Hnd : NoDup [lit "jsonrpc"; lit "id"; kv.1]) by (unfold kv; destruct res; keys).
  assert (Hget : ∀ k x, (k, x) ∈ [(lit "jsonrpc", of_str "2.0"); (lit "id", of_str id); kv] →
    get (obj [(lit "jsonrpc", of_str "2.0"); (lit "id", of_str id); kv]) k = Some x).
  { intros k x. apply get_obj. exact Hnd. }
  eexists. split; [|split; [apply obj_is_object|split]].
  - apply from_to_string, (plain_obj 126). cbn [fmap list_fmap snd]. rewrite !Forall_cons. unfold kv. destruct res; split_and!; auto with plain.
  - apply Hget. set_solver.
  - unfold kv in *. destruct res as [x|x]; cbn [fst snd] in *; [split|].
    + apply get_obj_none. keys.
    + apply Hget. set_solver.
    + apply Hget. set_solver.
Qed.

(** What a reply with content is made of. *)
Definition served (w : World) (a : app) (path : str) (reply : Reply) : Prop :=
  match reply with
  | Blob mime body => ∃ b64 raw, ((a, path), Ok (of_str b64)) ∈ w_told w ∧ base64_nopad (as_bytes (trim_end_char 61 b64)) = Some raw ∧
      mime = guess_mime path ∧ body = (if bool_decide (path = lit "index.html") then injected raw else raw)
  | _ => True
  end.
Definition issued (w : World) (id : str) : Prop := ∃ n, id = wxdc_id n ∧ (n < w_counter w)%N.
(** An id is that of one request only. *)
Definition asks (w : World) (id : str) (t : app * str) : Prop :=
  issued w id ∧ ∀ j a path slot, w_requests w !! j = Some (QWait a path id slot) → t = (a, path).
Definition plain_answer (res : result value value) : Prop := match res with Ok v | Err v => plain 126 v end.

Record ok (w : World) : Prop := {
  ok_core : ∀ id t, (id, t) ∈ w_core w → asks w id t;
  ok_lines : ∀ l, l ∈ w_lines w → match l with
    | Answer id t res => asks w id t ∧ (t, res) ∈ w_told w ∧ plain_answer res
    | Other line => ∀ n, (v ← from_str line; get v "id" ≫= as_str) ≠ Some (wxdc_id n)
    end;
  ok_pending : ∀ id i, w_pending w !! id = Some i → issued w id ∧
    ∃ q, w_requests w !! i = Some q ∧ match q with QWait _ _ id' _ => id' = id | QDone _ _ _ => True | _ => False end;
  ok_waits : ∀ i a path id slot, w_requests w !! i = Some (QWait a path id slot) → issued w id ∧
    ∀ line, slot = Some line → ∃ res, line = answer_line id res ∧ ((a, path), res) ∈ w_told w ∧ plain_answer res;
  ok_done : ∀ i a path reply, w_requests w !! i = Some (QDone (Some a) path reply) → served w a path reply;
}.

(** A request that goes on and does not wait for a line. *)
Definition settled (w : World) (q : Request) : Prop :=
  match q with QWait _ _ _ _ => False | QDone (Some a) path reply => served w a path reply | _ => True end.
Lemma insert_request (w : World) i j q q' : (<[i := q]> (w_requests w)) !! j = Some q' → q' = q ∨ w_requests w !! j = Some q'.
Proof. rewrite list_lookup_insert_Some. intros [(_ & -> & _)|[_ H]]; auto. Qed.

(** A request that has not asked yet, or one that is over. *)
Definition early (q : Request) : Prop := match q with QStart _ | QGate _ _ | QAsk _ _ => True | _ => False end.
Definition over (q : Request) : Prop := match q with QDone _ _ _ => True | _ => False end.

Lemma ok_set w i q0 q : ok w → w_requests w !! i = Some q0 → early q0 ∨ over q → settled w q → ok (set_request i q w).
Proof.
  intros [H1 H2 H3 H4 H5] Hi Hq0 Hq.
  assert (Hwait : ∀ j a path id slot, w_requests (set_request i q w) !! j = Some (QWait a path id slot) → w_requests w !! j = Some (QWait a path id slot)).
  { intros j a path id slot [Heq|?]%insert_request; [by subst q|done]. }
  assert (Hasks : ∀ id t, asks w id t → asks (set_request i q w) id t).
  { intros id t [Hiss Ht]. split; [done|]. intros j a path slot Hj%Hwait. by eapply Ht. }
  split.
  - intros id t Hin. by apply Hasks, H1.
  - intros l Hl. specialize (H2 l Hl). destruct l; [|done]. destruct H2. auto.
  - intros id j Hj. destruct (H3 id j Hj) as (Hid & q' & Hq' & Hkind). split; [done|]. destruct (decide (i = j)) as [<-|Hne].
    + exists q. split; [apply list_lookup_insert_eq; by eapply lookup_lt_Some|]. simplify_eq. destruct Hq0; [by destruct q0|by destruct q].
    + exists q'. split; [|done]. cbn. by rewrite list_lookup_insert_ne.
  - intros j a path id slot Hj%Hwait. by apply (H4 j a path id slot).
  - intros j a path reply [Heq|Hj]%insert_request; [subst q; exact Hq|by eapply H5].
Qed.

Lemma gate_settled w open a path : settled w (gate open a path).
Proof. unfold gate. destruct (_ && _); [done|]. by destruct (_ || _). Qed.
Lemma start_settled w open uri : settled w (start open uri).
Proof. unfold start. destruct (rest_of uri); [|done]. destruct (prefixed _) as [[[]]|]; [done|]. by destruct open. Qed.

Lemma blob_of_answer w a path id res : ((a, path), res) ∈ w_told w → plain_answer res → served w a path (blob_of path (answer_line id res)).
Proof.
  intros Htold Hp. destruct (answer_reads id res Hp) as (v & Hv & _ & _ & Hres). unfold blob_of. rewrite Hv.
  destruct res as [x|x]; [destruct Hres as [-> ->]|by rewrite Hres]. cbn [mbind option_bind].
  destruct (as_str x) as [b64|] eqn:Hs; [|done]. apply as_str_inv in Hs as ->. destruct (base64_nopad _) as [raw|] eqn:Hd; [|done].
  exists b64, raw. split_and!; done.
Qed.

Lemma route_answer id res : plain_answer res → starts_with (lit "wxdc-") id = true → route_sidecar_line (answer_line id res) = RWebxdc.
Proof.
  intros Hp Hid. destruct (answer_reads id res Hp) as (v & Hv & Ho & Hi & _). unfold route_sidecar_line, envelope_id. rewrite Hv. cbn [mbind option_bind].
  rewrite Ho, Hi. cbn [mbind option_bind]. rewrite bool_decide_false, as_str_of, Hid; [done|].
  intros Heq. pose proof (as_str_of id) as H. rewrite Heq in H. destruct as_null as (_ & _ & _ & _ & Hn & _). by rewrite Hn in H.
Qed.
Lemma wxdc_starts n : starts_with (lit "wxdc-") (wxdc_id n) = true.
Proof. unfold starts_with. apply bool_decide_eq_true. eexists. by apply strip_prefix_Some. Qed.

(** The line is read, and its sender taken out of the table. *)
Lemma ok_tail w l rest page : ok w → w_lines w = l :: rest →
  ok (MkWorld (w_open w) (w_counter w) (w_pending w) (w_requests w) (w_core w) rest page (w_told w)).
Proof. intros [H1 H2 H3 H4 H5] Hl. split; try done. intros l' Hin. apply (H2 l'). rewrite Hl. by apply elem_of_cons; right. Qed.
Lemma ok_unpend w id : ok w → ok (MkWorld (w_open w) (w_counter w) (delete id (w_pending w)) (w_requests w) (w_core w) (w_lines w) (w_page w) (w_told w)).
Proof. intros [H1 H2 H3 H4 H5]. split; try done. intros id' i Hi. cbn in Hi. apply lookup_delete_Some in Hi as [_ Hi]. by apply H3. Qed.

Lemma ok_deliver w id t res : ok w → asks w id t → (t, res) ∈ w_told w → plain_answer res → ok (webxdc_resolve_line (answer_line id res) w).
Proof.
  intros Hok Ht Htold Hp. destruct (answer_reads id res Hp) as (v & Hv & _ & Hi & _). unfold webxdc_resolve_line. rewrite Hv.
  cbn [mbind option_bind]. rewrite Hi. cbn [mbind option_bind]. rewrite as_str_of. destruct (w_pending w !! id) as [i|] eqn:Hpend; [|done].
  pose proof (ok_unpend w id Hok) as Hok'. set (w1 := MkWorld _ _ (delete id _) _ _ _ _ _) in *. cbv zeta.
  change (w_requests w1) with (w_requests w).
  destruct (ok_pending w Hok id i Hpend) as (_ & q & Hr & Hkind). rewrite Hr.
  destruct q as [|?|?|a path id' [|]|]; try done. subst id'.
  pose proof (proj2 Ht i a path None Hr) as ->. destruct Hok' as [H1 H2 H3 H4 H5].
  assert (Hwait : ∀ j a' path' id' slot, w_requests (set_request i (QWait a path id (Some (answer_line id res))) w1) !! j = Some (QWait a' path' id' slot) →
    ∃ slot', w_requests w1 !! j = Some (QWait a' path' id' slot')).
  { intros j a' path' id' slot Hj. apply list_lookup_insert_Some in Hj as [(-> & Heq & _)|[_ Hj]]; [|by eexists]. injection Heq as <- <- <- <-. by exists None. }
  assert (Hasks : ∀ id' t, asks w1 id' t → asks (set_request i (QWait a path id (Some (answer_line id res))) w1) id' t).
  { intros id' t' [Hi' Ht']. split; [done|]. intros j a' path' slot Hj. destruct (Hwait _ _ _ _ _ Hj) as [slot' Hj']. by eapply Ht'. }
  split.
  - intros id' t' Hin. by apply Hasks, H1.
  - intros l Hl. specialize (H2 l Hl). destruct l; [|done]. destruct H2. auto.
  - intros id' j Hj. destruct (H3 id' j Hj) as (Hi' & q & Hq & Hkind). split; [done|]. destruct (decide (i = j)) as [<-|Hne].
    + eexists. split; [apply list_lookup_insert_eq; by eapply lookup_lt_Some|]. change (w_requests w1) with (w_requests w) in Hq. by simplify_eq.
    + exists q. split; [|done]. cbn. by rewrite list_lookup_insert_ne.
  - intros j a' path' id' slot Hj. apply list_lookup_insert_Some in Hj as [(-> & Heq & _)|[_ Hj]]; [|by apply (H4 j a' path' id' slot)].
    injection Heq as <- <- <- <-. split; [by apply (H4 j a path id None)|]. intros line [= <-]. by exists res.
  - intros j a' path' reply [Heq|Hj]%insert_request; [done|by eapply H5].
Qed.

Lemma ok_line w w' : ok w → step w ELine = Some w' → ok w'.
Proof.
  intros Hok. cbn [step]. destruct (w_lines w) as [|l rest] eqn:Hl; [done|]. intros [= <-].
  pose proof (ok_tail w l rest (w_page w) Hok Hl) as Hok1. pose proof (ok_tail w l rest (w_page w ++ [text l]) Hok Hl) as Hok2.
  pose proof (ok_lines w Hok l) as H. rewrite Hl in H. specialize (H (list_elem_of_here _ _)).
  destruct l as [id t res|line]; cbn [text] in *.
  - destruct H as (Ht & Htold & Hp). destruct Ht as [(n & -> & Hn) Ht]. rewrite route_answer by (done || apply wxdc_starts).
    eapply ok_deliver; [exact Hok1|split; [by exists n|exact Ht]|done|done].
  - destruct (route_sidecar_line line); [|exact Hok2|exact Hok2]. unfold webxdc_resolve_line.
    destruct (v ← from_str line; get v "id" ≫= as_str) as [id|] eqn:Hid; [|exact Hok1]. cbn [w_pending].
    destruct (w_pending w !! id) as [i|] eqn:Hpend; [|exact Hok1]. exfalso.
    destruct (ok_pending w Hok id i Hpend) as [(n & -> & _) _]. by apply (H n).
Qed.

Lemma issued_next w w' id : w_counter w' = wadd64 (w_counter w) 1 → (w_counter w < u64_bound - 1)%N → issued w id → issued w' id.
Proof. intros Hc Hlt (n & -> & Hn). exists n. split; [done|]. rewrite Hc, wadd64_small; lia. Qed.

Lemma ok_ask w i sent w' : ok w → (w_counter w < u64_bound - 1)%N → step w (EAsk i sent) = Some w' → ok w'.
Proof.
  intros [H1 H2 H3 H4 H5] Hc. cbn [step]. destruct (w_requests w !! i) as [[|?|a path|?|]|] eqn:Hi; try done. intros [= <-].
  set (id := wxdc_id (w_counter w)).
  assert (Hnew : ∀ id', issued w id' → id' ≠ id) by (intros id' (n & -> & Hn) ->%wxdc_id_inj; lia).
  assert (Hcount : ∀ w1, w_counter w1 = wadd64 (w_counter w) 1 → issued w1 id).
  { intros w1 Hw1. exists (w_counter w). split; [done|]. rewrite Hw1, wadd64_small; lia. }
  assert (Hnotid : ∀ j a' path' slot, w_requests w !! j ≠ Some (QWait a' path' id slot)).
  { intros j a' path' slot Hj. by apply (Hnew id); [apply (H4 j _ _ _ _ Hj)|]. }
  destruct sent.
  - set (w1 := MkWorld _ _ _ _ _ _ _ _).
    assert (Hiss : ∀ id', issued w id' → issued w1 id') by (intros id'; by apply issued_next).
    assert (Hwait : ∀ j a' path' id' slot, w_requests w1 !! j = Some (QWait a' path' id' slot) →
      (j = i ∧ a' = a ∧ path' = path ∧ id' = id ∧ slot = None) ∨ (j ≠ i ∧ w_requests w !! j = Some (QWait a' path' id' slot))).
    { intros j a' path' id' slot Hj. apply list_lookup_insert_Some in Hj as [(-> & Heq & _)|[Hne Hj]]; [left|right; auto].
      by injection Heq as <- <- <- <-. }
    assert (Hasks : ∀ id' t, asks w id' t → asks w1 id' t).
    { intros id' t [Hid Ht]. split; [by apply Hiss|]. intros j a' path' slot Hj. destruct (Hwait _ _ _ _ _ Hj) as [(_ & _ & _ & -> & _)|[_ Hj']]; [|by eapply Ht].
      by apply Hnew in Hid. }
    split.
    + intros id' t. cbn [w_core w1]. rewrite elem_of_app, list_elem_of_singleton. intros [Hin|Heq]; [by apply Hasks, H1|]. injection Heq as -> ->.
      split; [by apply Hcount|]. intros j a' path' slot Hj. destruct (Hwait _ _ _ _ _ Hj) as [(_ & -> & -> & _)|[_ Hj']]; [done|]. by apply Hnotid in Hj'.
    + intros l Hl. specialize (H2 l Hl). destruct l; [|done]. destruct H2. auto.
    + intros id' j. cbn [w_pending w1]. rewrite lookup_insert_Some. intros [[<- <-]|[Hne Hj]].
      * split; [by apply Hcount|]. eexists. split; [apply list_lookup_insert_eq; by eapply lookup_lt_Some|done].
      * destruct (H3 id' j Hj) as (Hid & q & Hq & Hkind). split; [by apply Hiss|]. exists q. split; [|done]. cbn.
        rewrite list_lookup_insert_ne; [done|]. intros <-. rewrite Hi in Hq. by injection Hq as <-.
    + intros j a' path' id' slot Hj. destruct (Hwait _ _ _ _ _ Hj) as [(-> & -> & -> & -> & ->)|[_ Hj']]; [split; [by apply Hcount|done]|].
      destruct (H4 _ _ _ _ _ Hj') as [Hid Hs]. split; [by apply Hiss|done].
    + intros j a' path' reply [Heq|Hj]%insert_request; [done|by eapply H5].
  - set (w0 := MkWorld (w_open w) (wadd64 (w_counter w) 1) (delete id (w_pending w)) (w_requests w) (w_core w) (w_lines w) (w_page w) (w_told w)).
    apply (ok_set w0 i (QAsk a path) (QDone (Some a) path NotFound)); [|done|by left|done].
    assert (Hiss : ∀ id', issued w id' → issued w0 id') by (intros id'; by apply issued_next).
    assert (Hasks : ∀ id' t, asks w id' t → asks w0 id' t) by (intros id' t [Hid Ht]; split; [by apply Hiss|done]).
    split.
    + intros id' t Hin. by apply Hasks, H1.
    + intros l Hl. specialize (H2 l Hl). destruct l; [|done]. destruct H2. auto.
    + intros id' j Hj. cbn in Hj. apply lookup_delete_Some in Hj as [_ Hj]. destruct (H3 id' j Hj) as [Hid Hq]. split; [by apply Hiss|done].
    + intros j a' path' id' slot Hj. destruct (H4 _ _ _ _ _ Hj) as [Hid Hs]. split; [by apply Hiss|done].
    + done.
Qed.

Lemma served_told w w' a path reply : (∀ x, x ∈ w_told w → x ∈ w_told w') → served w a path reply → served w' a path reply.
Proof. intros Hsub. destruct reply; [done|done|]. intros (b64 & raw & Hin & H). exists b64, raw. auto. Qed.

Lemma ok_answer w n res w' : ok w → plain_answer res → step w (EAnswer n res) = Some w' → ok w'.
Proof.
  intros [H1 H2 H3 H4 H5] Hp. cbn [step]. destruct (w_core w !! n) as [[id t]|] eqn:Hn; [|done]. intros [= <-].
  set (w1 := MkWorld _ _ _ _ _ _ _ _). assert (Hsub : ∀ x, x ∈ w_told w → x ∈ w_told w1) by (intros x Hx; cbn; set_solver).
  split.
  - intros id' t' Hin. apply H1. cbn in Hin. apply list_elem_of_lookup in Hin as [m Hm]. destruct (decide (m < n)).
    + rewrite list_lookup_delete_lt in Hm by done. by eapply list_elem_of_lookup_2.
    + rewrite list_lookup_delete_ge in Hm by lia. by eapply list_elem_of_lookup_2.
  - intros l. cbn [w_lines w1]. rewrite elem_of_app, list_elem_of_singleton. intros [Hl| ->].
    + specialize (H2 l Hl). destruct l; [|done]. destruct H2 as (? & ? & ?). auto.
    + split; [apply H1; by eapply list_elem_of_lookup_2|]. split; [cbn; set_solver|done].
  - done.
  - intros i a path id' slot Hi. destruct (H4 _ _ _ _ _ Hi) as [Hid Hs]. split; [done|]. intros line Hline. destruct (Hs line Hline) as (r & -> & Hin & Hr). by exists r; auto.
  - intros i a path reply Hi. eapply served_told; [exact Hsub|by eapply H5].
Qed.

Lemma ok_step w e w' : ok w → fair w e → step w e = Some w' → ok w'.
Proof.
  intros Hok Hfair. destruct e as [a|a|uri|i|i|i sent|n res|line| |i|i].
  - intros [= <-]. by destruct Hok.
  - intros [= <-]. unfold clear_open_app. case_bool_decide; [by destruct Hok|done].
  - intros [= <-]. destruct Hok as [H1 H2 H3 H4 H5].
    assert (Hold : ∀ j q, (w_requests w ++ [QStart uri]) !! j = Some q → q = QStart uri ∨ w_requests w !! j = Some q).
    { intros j q Hj. apply lookup_app_Some in Hj as [Hj|[_ Hj]]; [by right|]. left. by apply list_lookup_singleton_Some in Hj as [_ <-]. }
    assert (Hasks : ∀ id t, asks w id t → ∀ j a path slot, (w_requests w ++ [QStart uri]) !! j = Some (QWait a path id slot) → t = (a, path)).
    { intros id t [_ Ht] j a path slot [Heq|Hj]%Hold; [done|by eapply Ht]. }
    split; cbn [w_requests w_core w_lines w_pending w_counter w_told].
    + intros id t Hin. split; [apply (H1 id t Hin)|]. by apply Hasks, H1.
    + intros l Hl. specialize (H2 l Hl). destruct l; [|done]. destruct H2 as (Ht & H). split; [|done]. split; [apply Ht|by apply Hasks].
    + intros id j Hj. destruct (H3 id j Hj) as (Hid & q & Hq & Hk). split; [done|]. exists q. split; [by apply lookup_app_l_Some|done].
    + intros j a path id slot [Heq|Hj]%Hold; [done|by apply (H4 j a path id slot)].
    + intros j a path reply [Heq|Hj]%Hold; [done|by eapply H5].
  - cbn [step]. destruct (w_requests w !! i) as [[uri| | | | ]|] eqn:Hi; try done. intros [= <-].
    eapply ok_set; [done|exact Hi|by left|apply start_settled].
  - cbn [step]. destruct (w_requests w !! i) as [[ |a path| | | ]|] eqn:Hi; try done. intros [= <-].
    eapply ok_set; [done|exact Hi|by left|apply gate_settled].
  - by apply ok_ask.
  - apply ok_answer; [done|]. by destruct res.
  - intros [= <-]. destruct Hok as [H1 H2 H3 H4 H5]. split; try done. intros l. cbn [w_lines]. rewrite elem_of_app, list_elem_of_singleton. intros [Hl| ->]; [by apply (H2 l)|exact Hfair].
  - by apply ok_line.
  - cbn [step]. destruct (w_requests w !! i) as [[ | | |a path id [line|]| ]|] eqn:Hi; try done. intros [= <-].
    eapply ok_set; [done|exact Hi|by right|]. destruct (proj2 (ok_waits w Hok _ _ _ _ _ Hi) line eq_refl) as (res & -> & Hin & Hp). by apply blob_of_answer.
  - cbn [step]. destruct (w_requests w !! i) as [[ | | |a path id [line|]| ]|] eqn:Hi; try done. intros [= <-].
    eapply ok_set; [done|exact Hi|by right|done].
Qed.

Lemma history_ok h w : history (w :: h) → ok w.
Proof.
  intros H. remember (w :: h) as l eqn:Hl. revert w h Hl. induction H as [|w0 h0 e w' H IH Hf Hs]; intros w h [= <- <-].
  - split; cbn; intros; (set_solver || by simplify_map_eq || done).
  - eapply ok_step; [by eapply IH|done|done].
Qed.

(** The app was open when its request came to the gate. *)
Definition open_at_gate (h : list World) (i : nat) (a : app) (path : str) : Prop :=
  ∃ w, w ∈ h ∧ w_open w = Some a ∧ w_requests w !! i = Some (QGate a path).
Definition allowed (h : list World) (i : nat) (q : Request) : Prop :=
  match q with
  | QAsk a path | QWait a path _ _ | QDone (Some a) path (Blob _ _) | QDone (Some a) path Shim =>
      is_public_icon path = true ∨ open_at_gate h i a path
  | _ => True
  end.
Lemma allowed_more h w i q : allowed h i q → allowed (w :: h) i q.
Proof.
  assert (∀ a path, is_public_icon path = true ∨ open_at_gate h i a path → is_public_icon path = true ∨ open_at_gate (w :: h) i a path) as H.
  { intros a path [?|(w' & Hin & Hw)]; [by left|right]. exists w'. split; [by apply elem_of_cons; right|done]. }
  destruct q as [| | | |[a|] path []]; cbn; auto.
Qed.

Lemma gate_allowed h w i a path : w_requests w !! i = Some (QGate a path) → allowed (w :: h) i (gate (w_open w) a path).
Proof.
  intros Hi. unfold gate. destruct (is_public_icon path) eqn:Hicon; cbn [negb andb].
  - destruct (_ || _); by left.
  - case_bool_decide as Ho; cbn [negb]; [|done]. assert (open_at_gate (w :: h) i a path) by (exists w; split; [by apply elem_of_cons; left|done]).
    destruct (_ || _); by right.
Qed.
Lemma blob_allowed h i a path line id slot : allowed h i (QWait a path id slot) → allowed h i (QDone (Some a) path (blob_of path line)).
Proof. intros H. cbn. by destruct (blob_of path line). Qed.

Lemma step_requests w e w' : step w e = Some w' → ∀ j q, w_requests w' !! j = Some q → w_requests w !! j = Some q ∨
  match e with
  | ERequest uri => q = QStart uri
  | EStart i => i = j ∧ ∃ uri, q = start (w_open w) uri
  | EGate i => i = j ∧ ∃ a path, w_requests w !! i = Some (QGate a path) ∧ q = gate (w_open w) a path
  | EAsk i sent => i = j ∧ ∃ a path, w_requests w !! i = Some (QAsk a path) ∧
      q = if sent then QWait a path (wxdc_id (w_counter w)) None else QDone (Some a) path NotFound
  | ELine => ∃ a path id line, w_requests w !! j = Some (QWait a path id None) ∧ q = QWait a path id (Some line)
  | ETake i => i = j ∧ ∃ a path id line, w_requests w !! i = Some (QWait a path id (Some line)) ∧ q = QDone (Some a) path (blob_of path line)
  | ETimeout i => ∃ a path, q = QDone (Some a) path NotFound
  | _ => False
  end.
Proof.
  assert (Hins : ∀ (l : list Request) i x j q, <[i := x]> l !! j = Some q → l !! j = Some q ∨ (i = j ∧ q = x)).
  { intros l i x j q. rewrite list_lookup_insert_Some. intros [(-> & -> & _)|[_ H]]; auto. }
  destruct e as [a|a|uri|i|i|i sent|n res|line| |i|i]; cbn [step].
  - intros [= <-]. by left.
  - intros [= <-] j q. unfold clear_open_app. case_bool_decide; by left.
  - intros [= <-] j q [Hj|[_ Hj]]%lookup_app_Some; [by left|right]. by apply list_lookup_singleton_Some in Hj as [_ <-].
  - destruct (w_requests w !! i) as [[uri| | | | ]|]; try done. intros [= <-] j q [Hj|[-> ->]]%Hins; [by left|right]. eauto.
  - destruct (w_requests w !! i) as [[ |a path| | | ]|] eqn:Hi; try done. intros [= <-] j q [Hj|[-> ->]]%Hins; [by left|right]. eauto.
  - destruct (w_requests w !! i) as [[ | |a path| | ]|] eqn:Hi; try done. destruct sent; intros [= <-] j q [Hj|[-> ->]]%Hins; try (by left); right; eauto.
  - destruct (w_core w !! n) as [[id t]|]; [|done]. intros [= <-]. by left.
  - intros [= <-]. by left.
  - destruct (w_lines w) as [|l rest]; [done|]. intros [= <-] j q. destruct (route_sidecar_line _); [|by left..]. unfold webxdc_resolve_line.
    destruct (v ← from_str (text l); _) as [id|]; [|by left]. cbn [w_pending]. destruct (w_pending w !! id) as [i|]; [|by left]. cbv zeta. cbn [w_requests].
    destruct (w_requests w !! i) as [[ | | |a path id' [|]| ]|] eqn:Hi; try by left. intros [Hj|[-> ->]]%Hins; [by left|right]. eauto 6.
  - destruct (w_requests w !! i) as [[ | | |a path id [line|]| ]|] eqn:Hi; try done. intros [= <-] j q [Hj|[-> ->]]%Hins; [by left|right]. eauto 8.
  - destruct (w_requests w !! i) as [[ | | |a path id [line|]| ]|] eqn:Hi; try done. intros [= <-] j q [Hj|[-> ->]]%Hins; [by left|right]. eauto.
Qed.

Lemma history_allowed h w : history (w :: h) → ∀ i q, w_requests w !! i = Some q → allowed h i q.
Proof.
  intros H. remember (w :: h) as l eqn:Hl. revert w h Hl. induction H as [|w0 h0 e w' H IH Hf Hs]; intros w h [= <- <-]; [done|].
  intros j q Hj. destruct (step_requests w0 e w' Hs j q Hj) as [Hold|Hnew]; [by eapply allowed_more, IH|].
  specialize (IH w0 h0 eq_refl).
  destruct e as [a|a|uri|i|i|i sent|n res|line| |i|i]; try done.
  - by subst.
  - destruct Hnew as [-> [uri ->]]. unfold start. destruct (rest_of uri); [|done]. destruct (prefixed _) as [[[]]|]; [done|]. by destruct (w_open w0).
  - destruct Hnew as (-> & a & path & Hi & ->). by apply gate_allowed.
  - destruct Hnew as (-> & a & path & Hi & ->). destruct sent; [|done]. by apply allowed_more, (IH j (QAsk a path)).
  - destruct Hnew as (a & path & id & line & Hi & ->). by apply allowed_more, (IH j (QWait a path id None)).
  - destruct Hnew as (-> & a & path & id & line & Hi & ->). eapply blob_allowed, allowed_more, IH. exact Hi.
  - by destruct Hnew as (a & path & ->).
Qed.

(** [C10]: However requests of frames, opening and closing of apps, the answers of
    the core, time limits and other lines interleave: a file that is served is what
    the core answered for that app and that path, the start page with the script
    put in and every other file as it is; and the app was the open one when the
    request came to the gate, unless the file is the icon. *)
Theorem webxdc_gated h w i a path mime body :
  history (w :: h) → w_requests w !! i = Some (QDone (Some a) path (Blob mime body)) →
  (is_public_icon path = true ∨ ∃ w', w' ∈ h ∧ w_open w' = Some a ∧ w_requests w' !! i = Some (QGate a path)) ∧
  ∃ b64 raw, ((a, path), Ok (of_str b64)) ∈ w_told w ∧ base64_nopad (as_bytes (trim_end_char 61 b64)) = Some raw ∧
    mime = guess_mime path ∧ body = if bool_decide (path = lit "index.html") then injected raw else raw.
Proof.
  intros Hh Hi. split; [apply (history_allowed h w Hh i _ Hi)|]. apply (ok_done w (history_ok h w Hh) i a path _ Hi).
Qed.
End Webxdc.

(** ** The script that is put in *)

(** The script that takes away WebRTC and defines [webxdc] is to run before
    the app's own: in a start page without a head, but with a [header], it comes
    after everything before that, scripts of the app included. *)
Theorem shim_after_header x y : wf_str (x ++ lit "<header>" ++ y) →
  cut_str (lit "<head") (x ++ lit "<header>" ++ y) = Some (x, lit "<header>" ++ y) →
  injected (as_bytes (x ++ lit "<header>" ++ y)) = as_bytes (x ++ lit "<header>" ++ STUB ++ SHIM_TAG ++ y).
Proof.
  intros Hwf Hcut. unfold injected. rewrite from_utf8_lossy_bytes by done. unfold head_at. rewrite Hcut.
  change (cut_at 62 (lit "<header>" ++ y)) with (Some (lit "<header", 62%N :: y)). cbn [tail]. rewrite <- !app_assoc. done.
Qed.

(** ** A run *)

Module Frame.
#[local] Existing Instances Tree.json Tree.json_laws.
(** Bytes of letters, for want of base64. *)
Definition base64 (b : bytes) : option bytes := Some (N.lxor 1 <$> b).
Definition uri : str := lit "webxdc://localhost/1/10/a.js?v=2".
Definition events : list Event :=
  [EBegin (1, 10)%N; ERequest uri; EStart 0; EGate 0; EAsk 0 true; EAnswer 0 (Ok (of_str (lit "code=="))); ELine; ETake 0].
Definition go (h : list World) (e : Event) : list World :=
  match h with w :: _ => match step base64 w e with Some w' => w' :: h | None => h end | [] => [] end.
Definition states : list World := foldl go [launched] events.

Lemma go_history w h e : history base64 (w :: h) → fair w e → history base64 (go (w :: h) e).
Proof. intros H Hf. unfold go. destruct (step base64 w e) eqn:Hs; [|done]. by eapply (history_step base64 w h e). Qed.
Definition fair_at (h : list World) (e : Event) : Prop := match h with w :: _ => fair w e | [] => False end.
Fixpoint fair_all (h : list World) (l : list Event) : Prop := match l with e :: l => fair_at h e ∧ fair_all (go h e) l | [] => True end.
Lemma foldl_history l h : history base64 h → fair_all h l → history base64 (foldl go h l).
Proof.
  revert h. induction l as [|e l IH]; intros h Hh; [done|]. intros [Hf Hl]. apply IH; [|done]. destruct h as [|w h]; [done|]. by apply go_history.
Qed.
Lemma states_history : history base64 states.
Proof.
  apply foldl_history; [constructor|]. unfold events.
  do 8 (split; [first [done|vm_compute; reflexivity|apply plain_str]|]); done.
Qed.
End Frame.
#[local] Existing Instances Tree.json Tree.json_laws.

Lemma webxdc_gated_witness :
  (∃ w h, history Frame.base64 (w :: h) ∧ w_requests w !! 0 = Some (QDone (Some (1, 10)%N) (lit "a.js") (Blob (lit "text/javascript") (lit "bned"))) ∧
    (is_public_icon (lit "a.js") = true ∨ ∃ w', w' ∈ h ∧ w_open w' = Some (1, 10)%N ∧ w_requests w' !! 0 = Some (QGate (1, 10)%N (lit "a.js"))) ∧
    ∃ b64 raw, (((1, 10)%N, lit "a.js"), Ok (of_str b64)) ∈ w_told w ∧ Frame.base64 (as_bytes (trim_end_char 61 b64)) = Some raw ∧
      lit "text/javascript" = guess_mime (lit "a.js") ∧ lit "bned" = if bool_decide (lit "a.js" = lit "index.html") then injected raw else raw).
Proof.
  assert (Hd : length Frame.states = 9 ∧ (head Frame.states ≫= λ w, w_requests w !! 0) =
    Some (QDone (Some (1, 10)%N) (lit "a.js") (Blob (lit "text/javascript") (lit "bned")))) by (split; vm_compute; reflexivity).
  generalize Frame.states_history, Hd. generalize Frame.states. clear Hd. intros [|w h] Hh [Hl Hd]; [discriminate|].
  cbn [head mbind option_bind] in Hd. clear Hl.
  exists w, h. split; [exact Hh|]. split; [exact Hd|].
  exact (webxdc_gated (JL := Tree.json_laws) Frame.base64 h w 0 (1, 10)%N (lit "a.js") (lit "text/javascript") (lit "bned") Hh Hd).
Defined.

Lemma shim_after_header_witness :
  let x := lit "<script>app()</script>" in
  injected (as_bytes (x ++ lit "<header>" ++ lit "</header>")) = as_bytes (x ++ lit "<header>" ++ STUB ++ SHIM_TAG ++ lit "</header>").
Proof.
  intros x. apply (shim_after_header x (lit "</header>")).
  - apply (bool_decide_unpack _). vm_compute. exact I.
  - vm_compute. reflexivity.
Defined.
