(* ===== verification/Tickets.v ===== *)
(** * Invitations of the local chat ([p2p.rs], tickets)

    An invitation is a line of text, shown as a QR code, that says which device to
    dial, at which addresses, and with which token.  Base32, base64 and serde's
    parser of the legacy form are parameters.  [SocketAddr] has no zone here: the
    binary form has no place for that of an IPv6 address. *)

From stdpp Require Import sorting.
From S2P Require Import Prelude Str Net Groups Frames Engine Chat Ops.

Definition TICKET_PREFIX : str := lit "VELTAP2P1:".
Definition TICKET_FMT_BIN : N := 2.

Record Ticket := MkTicket { t_v : N; t_node_id : str; t_addrs : list str; t_token : str; t_name : str }.

(** [BASE32_NOPAD], [BASE64URL_NOPAD], [serde_json::from_slice::<Ticket>]. *)
Class Encodings := {
  base32_encode : bytes → str;
  base32_decode : bytes → option bytes;
  base64url_decode : bytes → option bytes;
  ticket_of_json : bytes → option Ticket;
}.
Definition base32_char (c : N) : bool := in_range 65 90 c || in_range 50 55 c.
Class EncodingLaws {E : Encodings} := {
  base32_chars b : Forall (λ c, base32_char c = true) (base32_encode b);
  base32_decode_encode b : wf_bytes b → base32_decode (as_bytes (base32_encode b)) = Some b;
}.

Inductive Refusal :=
| Panic | NotAnInvite | BadEncoding | BadJson | Unsupported (v : N)
| TooShort | BadNodeId | TruncatedAddress | BadFamily
| OwnInvite.

Definition ascii_upper (c : N) : N := if in_range 97 122 c then (c - 32)%N else c.
Definition to_ascii_uppercase (s : str) : str := ascii_upper <$> s.

(** [b[i]], [b[i..j]]; out of range they panic. *)
Definition at_byte (b : bytes) (i : nat) : result Refusal N := ok_or (b !! i) Panic.
Definition slice (b : bytes) (i j : nat) : result Refusal bytes :=
  if ((i <=? j) && (j <=? length b))%nat then Ok (take (j - i) (drop i b)) else Err Panic.

Section Tickets.
Context {P : Platform} {E : Encodings}.

(** [NodeId::from_bytes] *)
Definition node_from_bytes (b : bytes) : option node_id := if bool_decide (node_parse (node_str b) = Some b) then Some b else None.

(** ** Reading *)

(** The address at [pos], and where the next one is. *)
Definition parse_ticket_addr (b : bytes) (pos : nat) : result Refusal (socket_addr * nat) :=
  _ ← ensure (negb (length b <? pos + 1)%nat) TruncatedAddress;
  family ← at_byte b pos;
  ip_len ← (if (family =? 4)%N then Ok 4 else if (family =? 6)%N then Ok 16 else Err BadFamily);
  _ ← ensure (negb (length b <? pos + 1 + ip_len + 2)%nat) TruncatedAddress;
  o ← slice b (pos + 1) (pos + 1 + ip_len);
  p1 ← at_byte b (pos + 1 + ip_len);
  p2 ← at_byte b (pos + 2 + ip_len);
  Ok (SockAddr (if (family =? 4)%N then V4 o else V6 o) (be_value [p1; p2]), pos + (1 + ip_len + 2)).
Fixpoint parse_ticket_addrs (n : nat) (b : bytes) (pos : nat) : result Refusal (list socket_addr) :=
  match n with
  | 0 => Ok []
  | S n => '(a, pos) ← parse_ticket_addr b pos; l ← parse_ticket_addrs n b pos; Ok (a :: l)
  end.
Definition parse_ticket_bin (b : bytes) : result Refusal Ticket :=
  _ ← ensure (negb (length b <? 46)%nat) TooShort;
  node_bytes ← slice b 1 33;
  node ← ok_or (node_from_bytes node_bytes) BadNodeId;
  token ← slice b 33 45;
  n_addrs ← at_byte b 45;
  addrs ← parse_ticket_addrs (N.to_nat n_addrs) b 46;
  Ok (MkTicket 2 (node_str node) (show_addr <$> addrs) (hex_encode token) []).

Definition parse_legacy (encoded : str) : result Refusal Ticket :=
  b ← ok_or (base64url_decode (as_bytes encoded)) BadEncoding;
  t ← ok_or (ticket_of_json b) BadJson;
  if negb (t_v t =? 1)%N then Err (Unsupported (t_v t)) else Ok t.
Definition parse_ticket (ticket : str) : result Refusal Ticket :=
  encoded ← ok_or (strip_prefix TICKET_PREFIX (trim ticket)) NotAnInvite;
  match base32_decode (as_bytes (to_ascii_uppercase encoded)) with
  | Some (x :: b) =>
      if (x =? TICKET_FMT_BIN)%N
      then match parse_ticket_bin (x :: b) with Ok t => Ok t | Err Panic => Err Panic | Err _ => parse_legacy encoded end
      else parse_legacy encoded
  | _ => parse_legacy encoded
  end.

(** ** Writing *)

Definition is_private (o : bytes) : bool :=
  match o with
  | [a; b; _; _] => (a =? 10)%N || ((a =? 172)%N && in_range 16 31 b) || ((a =? 192)%N && (b =? 168)%N)
  | _ => false
  end.
Definition addr_rank (a : socket_addr) : N :=
  match sa_ip a with V4 o => if is_private o then 0 else 1 | V6 _ => 2 end%N.
Definition chosen (addrs : list str) : list socket_addr :=
  take 3 (sort_by (λ a b, addr_rank a <=? addr_rank b)%N (omap parse_addr addrs)).
Definition addr_bytes (a : socket_addr) : bytes :=
  match sa_ip a with V4 o => 4%N :: o | V6 o => 6%N :: o end ++ be_bytes 2 (sa_port a).
Definition encode_ticket (node : node_id) (addrs : list str) (token : str) : str :=
  let parsed := chosen addrs in
  let buf := [TICKET_FMT_BIN] ++ node ++ default [] (hex_decode (as_bytes token))
             ++ [N.min (N.of_nat (length parsed)) 8] ++ concat (addr_bytes <$> parsed) in
  TICKET_PREFIX ++ base32_encode buf.

(** ** Making and accepting an invitation *)

(** [accept_invite], up to the dialling: the node, its token, its addresses. *)
Definition accept_invite (me : node_id) (ticket : str) : result Refusal (node_id * str * list socket_addr * str) :=
  t ← parse_ticket ticket;
  node ← ok_or (node_parse (t_node_id t)) BadNodeId;
  if bool_decide (node = me) then Err OwnInvite else
  Ok (node, t_token t, omap parse_addr (t_addrs t), t_name t).

Context {En : Env} (secret : secret_key).
(** [create_invite], with the addresses of the endpoint. *)
Definition invite (addrs : list str) : M str := token ← create_invite; mret (encode_ticket (me secret) addrs token).

(** ** Every byte string is read without a panic *)

Lemma slice_ok b i j : (i <= j)%nat → (j <= length b)%nat → slice b i j = Ok (take (j - i) (drop i b)).
Proof. intros Hi Hj. unfold slice. apply Nat.leb_le in Hi, Hj. by rewrite Hi, Hj. Qed.
Lemma at_byte_ok b i : (i < length b)%nat → ∃ x, at_byte b i = Ok x.
Proof. intros H. destruct (lookup_lt_is_Some_2 b i H) as [x Hx]. exists x. unfold at_byte. by rewrite Hx. Qed.

Lemma bind_no_panic {A B} (r : result Refusal A) (f : A → result Refusal B) :
  r ≠ Err Panic → (∀ x, r = Ok x → f x ≠ Err Panic) → r ≫= f ≠ Err Panic.
Proof. intros Hr Hf. destruct r as [x|e]; [by apply Hf|]. cbn. congruence. Qed.
Lemma parse_addr_no_panic b pos : parse_ticket_addr b pos ≠ Err Panic.
Proof.
  unfold parse_ticket_addr, ensure. destruct (Nat.ltb_spec (length b) (pos + 1)); [done|]. cbn [negb mbind result_bind].
  destruct (at_byte_ok b pos) as [f ->]; [lia|]. cbn [mbind result_bind].
  apply bind_no_panic; [by destruct (f =? 4)%N, (f =? 6)%N|]. intros n _.
  destruct (Nat.ltb_spec (length b) (pos + 1 + n + 2)); [done|]. cbn [negb mbind result_bind].
  rewrite slice_ok by lia. cbn [mbind result_bind]. destruct (at_byte_ok b (pos + 1 + n)) as [x ->]; [lia|]. cbn [mbind result_bind].
  destruct (at_byte_ok b (pos + 2 + n)) as [y ->]; [lia|]. done.
Qed.
Lemma parse_addrs_no_panic n b pos : parse_ticket_addrs n b pos ≠ Err Panic.
Proof.
  revert pos. induction n as [|n IH]; intros pos; [done|]. cbn [parse_ticket_addrs].
  apply bind_no_panic; [apply parse_addr_no_panic|]. intros [a pos'] _. apply bind_no_panic; [apply IH|done].
Qed.
Lemma parse_bin_no_panic b : parse_ticket_bin b ≠ Err Panic.
Proof.
  unfold parse_ticket_bin, ensure. destruct (Nat.ltb_spec (length b) 46); [done|]. cbn [negb mbind result_bind].
  rewrite !slice_ok by lia. cbn [mbind result_bind]. apply bind_no_panic; [by destruct (node_from_bytes _)|]. intros node _.
  destruct (at_byte_ok b 45) as [n ->]; [lia|]. cbn [mbind result_bind]. apply bind_no_panic; [apply parse_addrs_no_panic|done].
Qed.
Lemma parse_legacy_no_panic s : parse_legacy s ≠ Err Panic.
Proof.
  unfold parse_legacy. destruct (base64url_decode _) as [b|]; [|done]. cbn [ok_or mbind result_bind].
  destruct (ticket_of_json b); [|done]. cbn. by destruct (negb _).
Qed.
Lemma parse_no_panic t : parse_ticket t ≠ Err Panic.
Proof.
  unfold parse_ticket. destruct (strip_prefix _ _) as [s|]; [|done]. cbn [ok_or mbind result_bind].
  destruct (base32_decode _) as [[|x b]|]; [apply parse_legacy_no_panic| |apply parse_legacy_no_panic].
  destruct (x =? _)%N; [|apply parse_legacy_no_panic]. pose proof (parse_bin_no_panic (x :: b)). pose proof (parse_legacy_no_panic s).
  by destruct (parse_ticket_bin (x :: b)) as [|[]].
Qed.

(** ** An invitation is read as it was written *)

Context {PL : PlatformLaws} {EL : EncodingLaws}.

Definition wf_addr (a : socket_addr) : Prop :=
  (sa_port a < 65536)%N ∧ match sa_ip a with V4 o => length o = 4 | V6 o => length o = 16 end ∧
  match sa_ip a with V4 o | V6 o => wf_bytes o end.

Lemma addr_len a : wf_addr a → length (addr_bytes a) = match sa_ip a with V4 _ => 7 | V6 _ => 19 end.
Proof. intros (_ & Hl & _). unfold addr_bytes. rewrite length_app, length_be_bytes. destruct (sa_ip a); cbn; lia. Qed.
Lemma addr_wf a : wf_addr a → wf_bytes (addr_bytes a).
Proof. intros (_ & _ & Ho). unfold addr_bytes. apply Forall_app. split; [|apply be_bytes_wf]. destruct (sa_ip a); by constructor. Qed.

Lemma at_app (u v : bytes) x i : i = length u → at_byte (u ++ x :: v) i = Ok x.
Proof. intros ->. unfold at_byte. by rewrite list_lookup_middle. Qed.
Lemma slice_middle (u m v : bytes) i j : i = length u → j = length u + length m → slice (u ++ m ++ v) i j = Ok m.
Proof.
  intros -> ->. rewrite slice_ok by (rewrite ?length_app; lia). rewrite drop_app_length.
  replace (length u + length m - length u) with (length m) by lia. by rewrite take_app_length.
Qed.

Lemma parse_addr_bytes a u v : wf_addr a →
  parse_ticket_addr (u ++ addr_bytes a ++ v) (length u) = Ok (a, length u + length (addr_bytes a)).
Proof.
  intros Ha. pose proof (addr_len a Ha) as Hlen. pose proof Ha as (Hp & Hl & Ho).
  assert (Hshape : ∃ f o p1 p2, addr_bytes a = f :: o ++ [p1; p2] ∧ be_value [p1; p2] = sa_port a ∧
     ((f = 4%N ∧ sa_ip a = V4 o ∧ length o = 4) ∨ (f = 6%N ∧ sa_ip a = V6 o ∧ length o = 16))).
  { pose proof (be_value_bytes_small 2 (sa_port a) Hp) as Hv. unfold addr_bytes. cbn [be_bytes] in *.
    destruct (sa_ip a) as [o|o]; do 4 eexists; (split; [reflexivity|]); (split; [exact Hv|]); [left|right]; done. }
  destruct Hshape as (f & o & p1 & p2 & Hb & Hport & Hf). rewrite Hb in *. cbn [length] in Hlen.
  rewrite length_app in Hlen. cbn [length] in Hlen.
  unfold parse_ticket_addr, ensure. set (b := u ++ (f :: o ++ [p1; p2]) ++ v).
  assert (Hlb : length b = length u + (length o + 3) + length v) by (unfold b; rewrite !length_app; cbn; rewrite length_app; cbn; lia).
  destruct (Nat.ltb_spec (length b) (length u + 1)); [lia|]. cbn [negb mbind result_bind].
  assert (at_byte b (length u) = Ok f) as -> by (apply at_app; done). cbn [mbind result_bind].
  assert (Hn : (if (f =? 4)%N then Ok 4 else if (f =? 6)%N then Ok 16 else Err BadFamily) = @Ok Refusal nat (length o)).
  { destruct Hf as [(-> & _ & ->)|(-> & _ & ->)]; done. }
  rewrite Hn. cbn [mbind result_bind]. destruct (Nat.ltb_spec (length b) (length u + 1 + length o + 2)); [lia|]. cbn [negb mbind result_bind].
  assert (slice b (length u + 1) (length u + 1 + length o) = Ok o) as ->.
  { unfold b. replace (u ++ (f :: o ++ [p1; p2]) ++ v) with ((u ++ [f]) ++ o ++ [p1; p2] ++ v) by (rewrite <- !app_assoc; cbn; by rewrite <- app_assoc).
    apply slice_middle; rewrite length_app; done. }
  cbn [mbind result_bind].
  assert (at_byte b (length u + 1 + length o) = Ok p1) as ->.
  { unfold b. replace (u ++ (f :: o ++ [p1; p2]) ++ v) with ((u ++ f :: o) ++ p1 :: p2 :: v) by (rewrite <- !app_assoc; cbn; by rewrite <- app_assoc).
    apply at_app. rewrite length_app. cbn. lia. }
  cbn [mbind result_bind].
  assert (at_byte b (length u + 2 + length o) = Ok p2) as ->.
  { unfold b. replace (u ++ (f :: o ++ [p1; p2]) ++ v) with ((u ++ f :: o ++ [p1]) ++ p2 :: v) by (rewrite <- !app_assoc; cbn; by rewrite <- !app_assoc).
    apply at_app. rewrite length_app. cbn. rewrite length_app. cbn. lia. }
  cbn [mbind result_bind]. rewrite Hport. cbn [length]. rewrite length_app. cbn [length].
  f_equal. f_equal. destruct a as [ip port]. cbn in *. destruct Hf as [(-> & -> & _)|(-> & -> & _)]; done.
Qed.

Lemma parse_addrs_bytes l u v : Forall wf_addr l →
  parse_ticket_addrs (length l) (u ++ concat (addr_bytes <$> l) ++ v) (length u) = Ok l.
Proof.
  intros H. revert u. induction H as [|a l Ha Hl IH]; intros u; [done|]. cbn [length parse_ticket_addrs fmap list_fmap concat].
  rewrite <- app_assoc, parse_addr_bytes by done. cbn [mbind result_bind].
  rewrite <- length_app. rewrite (app_assoc u). rewrite IH. done.
Qed.

Lemma chosen_wf addrs : Forall wf_addr (omap parse_addr addrs) → Forall wf_addr (chosen addrs).
Proof. intros H. unfold chosen. apply Forall_take. by rewrite sort_by_perm. Qed.
Lemma chosen_len addrs : length (chosen addrs) ≤ 3.
Proof. unfold chosen. rewrite length_take. lia. Qed.
(** The best three, and all of them when there are no more. *)
Lemma chosen_best addrs a : a ∈ omap parse_addr addrs →
  a ∈ chosen addrs ∨ length (chosen addrs) = 3 ∧ ∀ b, b ∈ chosen addrs → (addr_rank b <= addr_rank a)%N.
Proof.
  unfold chosen. set (le := λ a b : socket_addr, (addr_rank a <=? addr_rank b)%N). intros Ha.
  assert (Hs : StronglySorted (λ x y, le x y = true) (sort_by le (omap parse_addr addrs))).
  { apply sort_by_sorted; unfold le; intros *; rewrite ?N.leb_gt, ?N.leb_le; lia. }
  rewrite <- (sort_by_perm le) in Ha. revert Hs Ha. generalize (sort_by le (omap parse_addr addrs)). intros l Hs Ha.
  rewrite <- (take_drop 3 l) in Hs, Ha. apply elem_of_app in Ha as [Ha|Ha]; [by left|right]. split.
  - rewrite length_take. apply list_elem_of_lookup in Ha as [i Hi]. apply lookup_lt_Some in Hi. rewrite length_drop in Hi. lia.
  - intros b Hb. apply StronglySorted_app in Hs as (Hs & _ & _). specialize (Hs b a Hb Ha). by apply N.leb_le.
Qed.

(** What [parse_ticket_bin] gets from [encode_ticket]. *)
Definition ticket_buf (node : node_id) (addrs : list str) (tb : bytes) : bytes :=
  [TICKET_FMT_BIN] ++ node ++ tb ++ [N.of_nat (length (chosen addrs))] ++ concat (addr_bytes <$> chosen addrs).
Lemma ticket_buf_wf node addrs tb : wf_bytes node → wf_bytes tb → Forall wf_addr (omap parse_addr addrs) → wf_bytes (ticket_buf node addrs tb).
Proof.
  intros Hn Ht Ha%chosen_wf. pose proof (chosen_len addrs). unfold ticket_buf. rewrite !Forall_app. split_and!; try done.
  - by repeat constructor.
  - constructor; [unfold is_byte; lia|done].
  - apply Forall_concat, Forall_fmap. eapply Forall_impl; [exact Ha|]. apply addr_wf.
Qed.
Lemma parse_ticket_buf node addrs tb : valid_node node → length tb = 12 → Forall wf_addr (omap parse_addr addrs) →
  parse_ticket_bin (ticket_buf node addrs tb) = Ok (MkTicket 2 (node_str node) (show_addr <$> chosen addrs) (hex_encode tb) []).
Proof.
  intros Hn Ht Ha%chosen_wf. pose proof (node_parse_len _ _ Hn) as Hl. unfold parse_ticket_bin, ensure. set (buf := ticket_buf node addrs tb).
  assert (46 <= length buf)%nat by (unfold buf, ticket_buf; rewrite !length_app, Hl, Ht; cbn; lia).
  destruct (Nat.ltb_spec (length buf) 46); [lia|]. cbn [negb mbind result_bind].
  assert (slice buf 1 33 = Ok node) as -> by (apply (slice_middle [TICKET_FMT_BIN] node); cbn; lia). cbn [mbind result_bind].
  assert (node_from_bytes node = Some node) as -> by (unfold node_from_bytes; by rewrite bool_decide_true). cbn [ok_or mbind result_bind].
  assert (slice buf 33 45 = Ok tb) as ->.
  { unfold buf, ticket_buf. rewrite app_assoc. apply slice_middle; rewrite length_app; cbn; lia. }
  cbn [mbind result_bind].
  assert (at_byte buf 45 = Ok (N.of_nat (length (chosen addrs)))) as ->.
  { unfold buf, ticket_buf. rewrite (app_assoc [_]), (app_assoc (_ ++ node)). apply at_app. rewrite !length_app. cbn. lia. }
  cbn [mbind result_bind]. rewrite Nat2N.id.
  pose proof (parse_addrs_bytes (chosen addrs) ([TICKET_FMT_BIN] ++ node ++ tb ++ [N.of_nat (length (chosen addrs))]) [] Ha) as Hp.
  rewrite app_nil_r in Hp. replace (length (_ ++ node ++ _)) with 46 in Hp by (rewrite !length_app; cbn; lia).
  replace buf with (([TICKET_FMT_BIN] ++ node ++ tb ++ [N.of_nat (length (chosen addrs))]) ++ concat (addr_bytes <$> chosen addrs))
    by (unfold buf, ticket_buf; by rewrite <- !app_assoc).
  rewrite Hp. done.
Qed.
Lemma encode_ticket_buf node addrs token tb : hex_decode (as_bytes token) = Some tb →
  encode_ticket node addrs token = TICKET_PREFIX ++ base32_encode (ticket_buf node addrs tb).
Proof.
  intros Ht. unfold encode_ticket, ticket_buf. rewrite Ht. cbn [default from_option]. pose proof (chosen_len addrs).
  by rewrite N.min_l by lia.
Qed.

(** The text as it is read or scanned, in either case and with white space around. *)
Definition shown_as (ticket t : str) : Prop :=
  ∃ encoded, trim t = TICKET_PREFIX ++ encoded ∧ ticket = TICKET_PREFIX ++ to_ascii_uppercase encoded.

Lemma parse_encoded node addrs token tb t : valid_node node → wf_bytes node → hex_decode (as_bytes token) = Some tb → length tb = 12 →
  Forall wf_addr (omap parse_addr addrs) → shown_as (encode_ticket node addrs token) t →
  parse_ticket t = Ok (MkTicket 2 (node_str node) (show_addr <$> chosen addrs) token []).
Proof.
  intros Hn Hw Htok Hlen Ha (enc & Ht & He). rewrite (encode_ticket_buf _ _ _ tb Htok) in He. apply app_inv_head in He.
  unfold parse_ticket. rewrite Ht. assert (strip_prefix TICKET_PREFIX (TICKET_PREFIX ++ enc) = Some enc) as -> by by apply strip_prefix_Some.
  cbn [ok_or mbind result_bind]. rewrite <- He, base32_decode_encode by (apply ticket_buf_wf; try done; by eapply hex_decode_wf).
  pose proof (parse_ticket_buf node addrs tb Hn Hlen Ha) as Hp. revert Hp. unfold ticket_buf at 1 2. cbn [app]. cbn [N.eqb TICKET_FMT_BIN Pos.eqb].
  intros ->. by rewrite (hex_encode_decode token tb).
Qed.
Lemma show_chosen addrs : omap parse_addr (show_addr <$> chosen addrs) = chosen addrs.
Proof.
  assert (Forall (λ a, parse_addr (show_addr a) = Some a) (chosen addrs)) as H.
  { unfold chosen. apply Forall_take. rewrite sort_by_perm. apply Forall_forall. intros a (s & _ & Hs)%list_elem_of_omap.
    by eapply parse_show_addr. }
  induction H as [|a l Ha _ IH]; [done|]. cbn. by rewrite Ha, IH.
Qed.

(** [C13]: An invitation is read as it was written, from any text that shows it with
    its code in capital or small letters (the prefix as it is) and with white space
    around, and by nobody as their own: the other device dials this one, at the best
    three of its addresses (private ones before public ones before IPv6), and says
    the token that this device pairs with without asking, as often as it comes while
    the token is the current one; whoever says it when another one has taken its
    place is refused.  The text consists of what a QR code packs best. *)
Theorem invite_pairs addrs e ticket e' :
  wf_bytes (me secret) →
  (∀ n, ∃ b, hex_decode (as_bytes (env_random_id n)) = Some b ∧ length b = 12) →
  Forall wf_addr (omap parse_addr addrs) →
  invite addrs e = (Ok ticket, e') →
  (∃ code, ticket = TICKET_PREFIX ++ code ∧ Forall (λ c, base32_char c = true) code) ∧
  ∀ t, shown_as ticket t → accept_invite (me secret) t = Err OwnInvite ∧
    ∀ other, other ≠ me secret → ∃ token l, accept_invite other t = Ok (me secret, token, l, []) ∧
      (∀ a, a ∈ l → a ∈ omap parse_addr addrs) ∧
      (∀ a, a ∈ omap parse_addr addrs → a ∈ l ∨ length l = 3 ∧ ∀ b, b ∈ l → (addr_rank b <= addr_rank a)%N) ∧
      ∀ node name, incoming_hello (in_token (e_inner e')) node token name e' = (Ok None, e') ∧
        ∀ e2, in_token (e_inner e2) ≠ token → incoming_hello (in_token (e_inner e2)) node token name e2 = (Err EWrongToken, e2).
Proof.
  intros Hw Hr Ha. unfold invite, create_invite, random_id, next_tick. cbn -[encode_ticket]. intros [= <- <-]. destruct (Hr (e_tick e)) as (tb & Htok & Hlen).
  set (token := env_random_id (e_tick e)) in *. pose proof (public_valid secret) as Hn. fold (me secret) in Hn. split.
  { rewrite (encode_ticket_buf _ _ _ tb Htok). eexists. split; [done|]. apply base32_chars. }
  intros t Ht. assert (Hacc : ∀ other, accept_invite other t = if bool_decide (me secret = other) then Err OwnInvite
      else Ok (me secret, token, chosen addrs, [])).
  { intros other. unfold accept_invite. rewrite (parse_encoded _ _ _ tb t Hn Hw Htok Hlen Ha Ht). cbn [mbind result_bind t_node_id t_addrs t_token t_name].
    rewrite Hn. cbn [ok_or mbind result_bind]. by rewrite show_chosen. }
  split; [rewrite Hacc; by rewrite bool_decide_true|]. intros other Ho. exists token, (chosen addrs).
  split; [rewrite Hacc; by rewrite bool_decide_false by congruence|]. split; [|split; [apply chosen_best|]].
  - unfold chosen. intros a (i & Hi & _)%elem_of_take. apply list_elem_of_lookup_2 in Hi. by rewrite sort_by_perm in Hi.
  - intros node name. split; [unfold incoming_hello; cbn; by rewrite bool_decide_true|]. intros e2 Hne. unfold incoming_hello. cbn.
    rewrite bool_decide_false by congruence. rewrite bool_decide_false; [done|].
    intros Hnil. rewrite <- (hex_encode_decode token tb Htok) in Hnil. destruct (hex_encode_chars tb (hex_decode_wf _ _ Htok)) as [Hl _].
    rewrite Hnil, Hlen in Hl. done.
Qed.
End Tickets.

(** Whatever text is pasted or scanned, reading it never panics; and an
    invitation that is accepted names a device, and another one. *)
Theorem any_text_read {P : Platform} {E : Encodings} (me : node_id) (t : str) :
  parse_ticket t ≠ Err Panic ∧ accept_invite me t ≠ Err Panic ∧
  ∀ node token addrs name, accept_invite me t = Ok (node, token, addrs, name) →
    node ≠ me ∧ ∃ ticket, parse_ticket t = Ok ticket ∧ node_parse (t_node_id ticket) = Some node ∧ token = t_token ticket.
Proof.
  pose proof (parse_no_panic t) as Hp. split_and!; [done|..]; unfold accept_invite.
  - apply bind_no_panic; [done|]. intros ticket _. destruct (node_parse _); [|done]. cbn. by case_bool_decide.
  - intros node token addrs name. destruct (parse_ticket t) as [ticket|]; [|done]. cbn [mbind result_bind].
    destruct (node_parse (t_node_id ticket)) as [n|] eqn:Hn; [|done]. cbn [ok_or mbind result_bind]. case_bool_decide; [done|].
    intros [= <- <- <- <-]. eauto.
Qed.

(** ** A concrete encoding: two letters for a byte *)
Module Letters.
Definition encode (b : bytes) : str := concat ((λ x, [(65 + x / 16)%N; (65 + x mod 16)%N]) <$> ((λ x, x mod 256)%N <$> b)).
Fixpoint decode (s : bytes) : option bytes :=
  match s with
  | [] => Some []
  | [_] => None
  | c :: d :: s => if in_range 65 80 c && in_range 65 80 d then cons (16 * (c - 65) + (d - 65))%N <$> decode s else None
  end.
#[export] Instance encodings : Encodings := {|
  base32_encode := encode; base32_decode := decode; base64url_decode := λ _, None; ticket_of_json := λ _, None |}.
#[export] Instance laws : EncodingLaws.
Proof.
  assert (Hd : ∀ x, (x mod 256 / 16 < 16)%N ∧ ((x mod 256) mod 16 < 16)%N).
  { intros x. split; [apply N.Div0.div_lt_upper_bound, N.mod_lt; lia|apply N.mod_lt; lia]. }
  split.
  - intros b. induction b as [|x b IH]; [constructor|]. cbn [base32_encode encodings] in *. unfold encode in *.
    cbn [fmap list_fmap concat app]. destruct (Hd x) as [H1 H2].
    assert (Hc : ∀ d, (d < 16)%N → base32_char (65 + d) = true) by (intros d Hd'; unfold base32_char; rewrite orb_true_iff, !in_range_spec; lia).
    constructor; [by apply Hc|constructor; [by apply Hc|exact IH]].
  - intros b Hb. induction Hb as [|x b Hx Hb IH]; [done|]. cbn [base32_encode base32_decode encodings] in *. unfold encode in *.
    cbn [fmap list_fmap concat app]. destruct (Hd x) as [H1 H2].
    assert (Has : ∀ c s, (c < 128)%N → as_bytes (c :: s) = c :: as_bytes s).
    { intros c s Hc. unfold as_bytes. cbn. unfold utf8_char. destruct (N.ltb_spec c 128); [done|lia]. }
    assert (Heq : x = (16 * (x mod 256 / 16) + (x mod 256) mod 16)%N).
    { rewrite <- N.div_mod' by done. symmetry. by apply N.mod_small. }
    revert H1 H2 Heq. generalize (x mod 256 / 16)%N ((x mod 256) mod 16)%N. intros h l H1 H2 ->.
    rewrite !Has by lia. cbn [decode]. rewrite !(proj2 (in_range_spec 65 80 _)) by lia. cbn [andb]. rewrite IH. cbn. f_equal. f_equal. lia.
Qed.
End Letters.

Module Shared.
Import ToyNet Letters.
Definition env : Env := {|
  env_now n := n; env_instant n := n; env_random_id n := hex_encode (replicate 11 0 ++ [n mod 256])%N;
  env_new_gid n := hex_encode (replicate 16 0)%N; env_append _ := AppWhole; env_row _ := RowWhole; env_save _ := SaveOutcome None true; env_write_ok _ := true
|}.
Definition addrs : list str := [[8; 8; 8; 8; 7]; lit "none"; [9; 9; 9; 9; 7]; [192; 168; 2; 1; 9]; [10; 0; 0; 1; 8]]%N.
Definition made : result p2p_error str * P2p := invite (En := env) 5%N addrs blank.
Definition ticket : str := match made.1 with Ok t => t | Err _ => [] end.
(** Pasted with a line feed, the code in small letters. *)
Definition pasted : str := TICKET_PREFIX ++ to_ascii_lowercase (drop 10 ticket) ++ [10%N].

Lemma random n : ∃ b, hex_decode (as_bytes (env_random_id (Env := env) n)) = Some b ∧ length b = 12.
Proof.
  exists (replicate 11 0 ++ [n mod 256])%N. split; [|done]. change (Net.hex_decode (as_bytes (Net.hex_encode (replicate 11 0 ++ [n mod 256]))) = Some (replicate 11 0 ++ [n mod 256]))%N. apply Net.hex_decode_encode.
  apply Forall_app. split; [by repeat constructor|]. constructor; [|done]. unfold is_byte. pose proof (N.mod_lt n 256). lia.
Qed.
Lemma wf : Forall wf_addr (omap parse_addr addrs).
Proof. cbn. repeat constructor. Qed.
Lemma pasted_shown : shown_as ticket pasted.
Proof. exists (to_ascii_lowercase (drop 10 ticket)). split; vm_compute; reflexivity. Qed.
End Shared.
Import ToyNet Letters.

Lemma invite_pairs_witness :
  ∃ token l, accept_invite (public 7%N) Shared.pasted = Ok (public 5%N, token, l, []) ∧ l = [SockAddr (V4 [192; 168; 2; 1]) 9; SockAddr (V4 [10; 0; 0; 1]) 8; SockAddr (V4 [8; 8; 8; 8]) 7]%N ∧
    incoming_hello (in_token (e_inner Shared.made.2)) (public 7%N) token [] Shared.made.2 = (Ok None, Shared.made.2).
Proof.
  destruct (invite_pairs (P := ToyNet.platform) (En := Shared.env) 5%N Shared.addrs blank Shared.ticket Shared.made.2) as [_ H].
  - repeat constructor.
  - apply Shared.random.
  - apply Shared.wf.
  - vm_compute. reflexivity.
  - destruct (H Shared.pasted Shared.pasted_shown) as [_ Ho].
    destruct (Ho (public 7%N)) as (token & l & Ha & _ & _ & Hp); [discriminate|].
    exists token, l. split; [exact Ha|]. split; [|apply Hp].
    assert (Hl : accept_invite (public 7%N) Shared.pasted = Ok (public 5%N, env_random_id (Env := Shared.env) 0,
      [SockAddr (V4 [192; 168; 2; 1]) 9; SockAddr (V4 [10; 0; 0; 1]) 8; SockAddr (V4 [8; 8; 8; 8]) 7]%N, [])) by (vm_compute; reflexivity).
    rewrite Hl in Ha. by injection Ha.
Defined.

Lemma any_text_read_witness :
  accept_invite (public 7%N) Shared.pasted ≠ Err Panic ∧ accept_invite (public 5%N) Shared.pasted = Err OwnInvite ∧
  public 5%N ≠ public 7%N.
Proof.
  destruct (any_text_read (public 7%N) Shared.pasted) as (_ & Hp & Hn). split; [exact Hp|]. split; [vm_compute; reflexivity|].
  apply (Hn (public 5%N) (env_random_id (Env := Shared.env) 0)
    [SockAddr (V4 [192; 168; 2; 1]) 9; SockAddr (V4 [10; 0; 0; 1]) 8; SockAddr (V4 [8; 8; 8; 8]) 7]%N []). vm_compute. reflexivity.
Defined.
