(* ===== verification/Identity.v ===== *)
(** * The identity of a device ([p2p.rs], [load_or_create_identity])

    The key by which the other devices know this one is made at the first start and
    kept in a file.  Here: starts, in which any step may fail or crash. *)

From S2P Require Import Prelude Str Net Crash.

Lemma trim_start_length s : (length (trim_start s) <= length s)%nat.
Proof. induction s as [|c s IH]; [done|]. cbn [trim_start length]. destruct (is_whitespace c); cbn [length]; lia. Qed.
Lemma trim_length s : (length (trim s) <= length s)%nat.
Proof.
  unfold trim, trim_end. rewrite length_reverse. etrans; [apply trim_start_length|]. rewrite length_reverse. apply trim_start_length.
Qed.

Section Identity.
Context {P : Platform}.

Inductive Bad := BadIdentityKey | NotThirtyTwo | WriteFailed.

(** The file [identity.key]; its text becomes a key ([SecretKey::from_bytes] takes
    any 32 bytes). *)
Abbreviation File := (option bytes).
Definition key_of (text : str) : result Bad bytes :=
  b ← ok_or (hex_decode (as_bytes (trim text))) BadIdentityKey;
  if bool_decide (length b = 32) then Ok b else Err NotThirtyTwo.
Definition write_identity (b : bytes) : Crash.M File bool :=
  tear (λ _, Some (Some (as_bytes (hex_encode b)))) (λ torn _, Some torn).
(** [random]: the bytes for a new key.  Anything that keeps the file from being read
    as text is taken for a first start. *)
Definition load_or_create_identity (random : bytes) : Crash.M File (result Bad bytes) :=
  text ← reads (λ s, s ≫= from_utf8);
  match text with
  | Some hex => mret (key_of hex)
  | None => ok ← write_identity random; mret (if ok : bool then Ok random else Err WriteFailed)
  end.

(** Starts one after the other, each with its random bytes and what becomes of its
    steps; [None]: it crashed. *)
Fixpoint starts (l : list (bytes * list Fate)) (s : File) : list (option (result Bad bytes)) :=
  match l with
  | [] => []
  | (random, fs) :: l => match load_or_create_identity random s fs with (s', r) => (fst <$> r) :: starts l s' end
  end.
Definition random_key (b : bytes) : Prop := length b = 32 ∧ wf_bytes b.
Definition calm (x : bytes * list Fate) : Prop := random_key x.1 ∧ Forall tame x.2.

Context {L : PlatformLaws}.

Lemma hex_plain_text b : wf_bytes b → as_bytes (hex_encode b) = hex_encode b ∧ trim (hex_encode b) = hex_encode b ∧ Forall (λ c, (c < 128)%N) (hex_encode b).
Proof.
  intros Hb. destruct (hex_encode_chars b Hb) as [_ Hch]. rewrite forallb_forall in Hch.
  assert (H : Forall (λ c, (48 <= c <= 57)%N ∨ (97 <= c <= 102)%N) (hex_encode b)).
  { apply Forall_forall. intros c Hc%list_elem_of_In%Hch. by rewrite orb_true_iff, !in_range_spec in Hc. }
  assert (Forall (λ c, (c < 128)%N) (hex_encode b)) by (eapply Forall_impl; [exact H|]; intros c [?|?]; lia).
  split_and!; [by apply as_bytes_ascii| |done]. apply trim_id. eapply Forall_impl; [exact H|].
  intros c [?|?]; apply not_true_iff_false; unfold is_whitespace; rewrite !orb_true_iff, !in_range_spec, !N.eqb_eq; lia.
Qed.
Lemma key_of_hex b : random_key b → key_of (hex_encode b) = Ok b.
Proof.
  intros [Hl Hw]. destruct (hex_plain_text b Hw) as (Ha & Ht & _). unfold key_of. rewrite Ht, hex_decode_encode by done.
  cbn [ok_or mbind result_bind]. by rewrite bool_decide_true.
Qed.
Lemma hex_text b : wf_bytes b → Some (as_bytes (hex_encode b)) ≫= from_utf8 = Some (hex_encode b).
Proof.
  intros Hw. cbn [mbind option_bind]. destruct (hex_plain_text b Hw) as (_ & _ & H). apply from_utf8_as_bytes. eapply Forall_impl; [exact H|].
  intros c Hc. cbn in Hc. unfold is_scalar. lia.
Qed.

(** A start with a file that is read, and one that makes a key. *)
Lemma start_reads s0 text random : s0 ≫= from_utf8 = Some text →
  spec tame (λ s, s = s0) (load_or_create_identity random) (λ r s, s = s0 ∧ r = key_of text) (λ s, s = s0).
Proof.
  intros Hs. unfold load_or_create_identity. eapply (spec_bind _ _ _ _ (λ x s, s = s0 ∧ x = Some text)).
  - apply spec_reads. by intros s ->.
  - intros x. apply (spec_mono tame (λ s, s = s0 ∧ x = Some text) _ _ (λ r s, s = s0 ∧ r = key_of text) _ (λ s, s = s0) _); [|done..].
    intros s fs Hf [-> ->]. done.
Qed.
Lemma start_makes s0 random : s0 ≫= from_utf8 = None →
  spec tame (λ s, s = s0) (load_or_create_identity random)
    (λ r s, s = s0 ∧ r = Err WriteFailed ∨ s = Some (as_bytes (hex_encode random)) ∧ r = Ok random) (λ s, s = s0).
Proof.
  intros Hs. unfold load_or_create_identity. eapply (spec_bind _ _ _ _ (λ x s, s = s0 ∧ x = None)).
  - apply spec_reads. by intros s ->.
  - intros [x|]; [by intros s fs _ [_ [=]]|]. eapply (spec_bind _ _ _ _ (λ ok s, if ok : bool then s = Some (as_bytes (hex_encode random)) else s = s0)).
    + apply spec_write. by intros s [-> _].
    + intros [|]; apply spec_ret; intros s ->; auto.
Qed.

(** Once the file holds a key, it is the key of every start. *)
Lemma starts_read l : ∀ s text, s ≫= from_utf8 = Some text → Forall calm l → Forall (λ o, ∀ r, o = Some r → r = key_of text) (starts l s).
Proof.
  induction l as [|[random fs] l IH]; intros s text Hs Hl; [constructor|]. apply Forall_cons in Hl as [[_ Hf] Hl]. cbn [starts].
  pose proof (start_reads s text random Hs s fs Hf eq_refl) as H. destruct (load_or_create_identity random s fs) as [s' [[r fs']|]]; constructor.
  - destruct H as [[_ ->] _]. by intros r' [= <-].
  - apply IH; [|done]. by destruct H as [[-> _] _].
  - done.
  - apply IH; [|done]. by rewrite H.
Qed.

(** When writes are whole or fail and a file that is there can be read: once
    a start ended with a key, every later start that ends has that key, whatever
    fails and crashes; before, starts end with a new key or say that it could not
    be written. *)
Theorem identity_kept l : Forall calm l → ∀ i, match starts l None !! i with
  | Some (Some (Ok k)) => random_key k ∧ ∀ j r, (i < j)%nat → starts l None !! j = Some (Some r) → r = Ok k
  | Some (Some (Err e)) => e = WriteFailed
  | _ => True
  end.
Proof.
  assert (Hgo : ∀ l, Forall calm l → ∀ i o, starts l None !! i = Some (Some o) →
    match o with Ok k => random_key k ∧ ∀ j r, (i < j)%nat → starts l None !! j = Some (Some r) → r = Ok k | Err e => e = WriteFailed end).
  { clear l. induction l as [|[random fs] l IH]; intros Hl i o; [done|]. apply Forall_cons in Hl as [[Hr Hf] Hl]. cbn [starts].
    pose proof (start_makes None random eq_refl None fs Hf eq_refl) as H. destruct (load_or_create_identity random None fs) as [s' [[r fs']|]].
    - destruct H as [[[-> ->]|[-> ->]] _].
      + destruct i as [|i]; [by intros [= <-]|]. cbn [lookup list_lookup]. intros Hi. specialize (IH Hl i o Hi). destruct o as [k|]; [|done].
        destruct IH as [Hk Hj]. split; [done|]. intros [|j] r Hij; [lia|]. apply Hj. lia.
      + pose proof (starts_read l _ _ (hex_text random (proj2 Hr)) Hl) as Hs. rewrite key_of_hex, Forall_lookup in Hs by done.
        assert (Hrest : ∀ j r, starts l (Some (as_bytes (hex_encode random))) !! j = Some (Some r) → r = Ok random) by (intros j r Hj; by eapply Hs).
        destruct i as [|i]; [intros [= <-]|cbn [lookup list_lookup]; intros ->%Hrest]; (split; [done|]); intros [|j] r Hij; try lia; apply Hrest.
    - subst s'. destruct i as [|i]; [done|]. cbn [lookup list_lookup]. intros Hi. specialize (IH Hl i o Hi). destruct o as [k|]; [|done].
      destruct IH as [Hk Hj]. split; [done|]. intros [|j] r Hij; [lia|]. apply Hj. lia. }
  intros Hl i. specialize (Hgo l Hl i). by destruct (starts l None !! i) as [[[]|]|]; try apply (Hgo _ eq_refl).
Qed.

(** Two ways in which the key is lost: a start at which the file cannot be
    read makes another one in its place, and a crash while the key is written leaves
    a file at which every later start fails. *)
Theorem identity_lost k k' torn l : random_key k → random_key k' → Forall calm l →
  (load_or_create_identity k' (Some (as_bytes (hex_encode k))) [Unread] = (Some (as_bytes (hex_encode k')), Some (Ok k', [])) ∧
   Forall (λ o, ∀ r, o = Some r → r = Ok k') (starts l (Some (as_bytes (hex_encode k'))))) ∧
  (torn `prefix_of` as_bytes (hex_encode k) → torn ≠ as_bytes (hex_encode k) →
   load_or_create_identity k None [Fine; Crash (Some torn)] = (Some torn, None) ∧
   Forall (λ o, ∀ r, o = Some r → is_ok r = false) (starts l (Some torn))).
Proof.
  intros Hk Hk' Hl. split.
  - split; [done|]. pose proof (starts_read l _ _ (hex_text k' (proj2 Hk')) Hl) as H. by rewrite key_of_hex in H.
  - intros Hpre Hne. split; [done|]. destruct (hex_plain_text k (proj2 Hk)) as (Ha & _ & Hasc). rewrite Ha in *.
    assert (Ht : Forall (λ c, (c < 128)%N) torn) by (destruct Hpre as [rest Hr]; rewrite Hr in Hasc; by apply Forall_app in Hasc as [? _]).
    assert (Hu : from_utf8 torn = Some torn).
    { rewrite <- (as_bytes_ascii torn) at 1 by done. apply from_utf8_as_bytes. eapply Forall_impl; [exact Ht|].
      intros c Hc. cbn in Hc. unfold is_scalar. lia. }
    pose proof (starts_read l (Some torn) torn Hu Hl) as H. eapply Forall_impl; [exact H|]. intros o Ho r ->. rewrite (Ho r eq_refl). clear Ho H.
    assert (Hlen : (length torn < 64)%nat).
    { destruct Hpre as [rest Hr]. destruct rest as [|x rest]; [rewrite app_nil_r in Hr; congruence|]. apply (f_equal length) in Hr.
      rewrite (proj1 (hex_encode_chars k (proj2 Hk))), (proj1 Hk), length_app in Hr. cbn in Hr. lia. }
    unfold key_of. destruct (hex_decode _) as [b|] eqn:Hb; [|done]. cbn [ok_or mbind result_bind]. case_bool_decide as H32; [|done].
    exfalso. pose proof (hex_encode_decode _ _ Hb) as Htr. pose proof (proj1 (hex_encode_chars b (hex_decode_wf _ _ Hb))) as Hl64. rewrite Htr, H32 in Hl64.
    pose proof (trim_length torn). lia.
Qed.
End Identity.

(** A first start that fails to write, one that crashes, one that makes the key, a
    crash, and another start. *)
Definition some_starts : list (bytes * list Fate) :=
  (λ x, (replicate 32 x.1, x.2)) <$> [(1, [Fine; Fails None]); (2, [Fine; Crash None]); (3, []); (4, [Crash None]); (5, [])]%N.
Lemma some_calm : Forall calm some_starts.
Proof. repeat constructor. Qed.
Import ToyNet.

Lemma identity_kept_witness :
  starts some_starts None = [Some (Err WriteFailed); None; Some (Ok (replicate 32 3)); None; Some (Ok (replicate 32 3))]%N ∧
  (∀ j r, (2 < j)%nat → starts some_starts None !! j = Some (Some r) → r = Ok (replicate 32 3%N)).
Proof.
  split; [vm_compute; reflexivity|]. pose proof (identity_kept some_starts some_calm 2) as H.
  assert (Hs : starts some_starts None !! 2 = Some (Some (Ok (replicate 32 3%N)))) by (vm_compute; reflexivity).
  rewrite Hs in H. apply H.
Defined.

Lemma identity_lost_witness :
  starts [(replicate 32 1, []); (replicate 32 2, [Unread]); (replicate 32 3, [])]%N None = (λ x, Some (Ok (replicate 32 x))) <$> [1; 2; 2]%N ∧
  Forall (λ o, ∀ r, o = Some r → r = Ok (replicate 32 2%N)) (starts some_starts (Some (as_bytes (hex_encode (replicate 32 2%N))))) ∧
  Forall (λ o, ∀ r, o = Some r → is_ok r = false) (starts some_starts (Some (lit "0101"))).
Proof.
  destruct (identity_lost (replicate 32 1%N) (replicate 32 2%N) (lit "0101") some_starts) as [[_ H1] H2].
  - repeat constructor.
  - repeat constructor.
  - apply some_calm.
  - split; [vm_compute; reflexivity|]. split; [exact H1|]. apply H2.
    + apply (bool_decide_unpack _). vm_compute. exact I.
    + vm_compute. discriminate.
Defined.
