(* ===== verification/Xdc.v ===== *)
(** * Built-in webxdc apps ([builtin_xdc.rs])

    The apps that come with the program are written to a file and checked: a zip
    whose directory names [index.html].  Here: the check, against a writer of zip
    files, and the write. *)

From S2P Require Import Prelude Str Crash.

(** [b[p..p + n]]; out of range it panics. *)
Definition size (b : bytes) : N := N.of_nat (length b).
Definition sub_ (b : bytes) (p n : N) : option bytes :=
  if (p + n <=? size b)%N then Some (take (N.to_nat n) (drop (N.to_nat p) b)) else None.
(** [from_le_bytes] of [n] bytes. *)
Definition le_bytes (n : nat) (x : N) : bytes := reverse (be_bytes n x).
Definition le_value (l : bytes) : N := be_value (reverse l).
Definition read_le (b : bytes) (p n : N) : option N := le_value <$> sub_ b p n.

Definition LOCAL : bytes := [80; 75; 3; 4]%N.
Definition CENTRAL : bytes := [80; 75; 1; 2]%N.
Definition END_ : bytes := [80; 75; 5; 6]%N.
Definition INDEX : bytes := lit "index.html".

(** [windows(4).rposition(|w| w == END)] *)
Fixpoint last_end (l : bytes) : option N :=
  match l with
  | [] => None
  | _ :: t => match last_end t with Some i => Some (i + 1)%N | None => if bool_decide (take 4 l = END_) then Some 0%N else None end
  end.

(** The loop over the directory, from [p]. *)
Fixpoint walk (fuel : nat) (b : bytes) (eocd p : N) : option bool :=
  match fuel with
  | 0 => None
  | S fuel =>
      if negb (p + 46 <=? eocd)%N then Some false else
      s ← sub_ b p 4;
      if negb (bool_decide (s = CENTRAL)) then Some false else
      n ← read_le b (p + 28) 2;
      x ← read_le b (p + 30) 2;
      c ← read_le b (p + 32) 2;
      if (size b <? p + 46 + n)%N then Some false else
      name ← sub_ b (p + 46) n;
      if bool_decide (name = INDEX) then Some true else walk fuel b eocd (p + 46 + n + x + c)
  end.

(** No result: a panic. *)
Definition is_valid_xdc (b : bytes) : option bool :=
  if (size b <? 30)%N || negb (bool_decide (take 4 b = LOCAL)) then Some false else
  let tail_start := (size b - (22 + 65535))%N in
  match last_end (drop (N.to_nat tail_start) b) with
  | None => Some false
  | Some i =>
      let eocd := (i + tail_start)%N in
      if (size b <? eocd + 22)%N then Some false else
      cd_off ← read_le b (eocd + 16) 4;
      walk (S (length b)) b eocd cd_off
  end.

(** ** The check never panics and always ends *)

Lemma sub_ok b p n : (p + n <= size b)%N → sub_ b p n = Some (take (N.to_nat n) (drop (N.to_nat p) b)).
Proof. intros H. unfold sub_. by destruct (N.leb_spec (p + n) (size b)); [|lia]. Qed.
Lemma read_le_ok b p n : (p + n <= size b)%N → ∃ x, read_le b p n = Some x.
Proof. intros H. unfold read_le. rewrite sub_ok by done. cbn. eauto. Qed.

Lemma walk_total fuel b eocd p : (eocd <= size b)%N → (eocd < p + N.of_nat fuel)%N → is_Some (walk (S fuel) b eocd p).
Proof.
  intros He. revert p. induction fuel as [|fuel IH]; intros p Hf; cbn [walk].
  - destruct (N.leb_spec (p + 46) eocd); [lia|]. by eexists.
  - destruct (N.leb_spec (p + 46) eocd); [|by eexists]. cbn [negb]. rewrite sub_ok by lia. cbn [mbind option_bind].
    case_bool_decide; [|by eexists]. cbn [negb].
    destruct (read_le_ok b (p + 28) 2) as [n ->]; [lia|]. destruct (read_le_ok b (p + 30) 2) as [x ->]; [lia|].
    destruct (read_le_ok b (p + 32) 2) as [c ->]; [lia|]. cbn [mbind option_bind].
    destruct (N.ltb_spec (size b) (p + 46 + n)); [by eexists|]. rewrite (sub_ok b (p + 46) n) by lia. cbn [mbind option_bind].
    case_bool_decide; [by eexists|]. apply IH. lia.
Qed.
Lemma last_end_bound l i : last_end l = Some i → (i + 1 <= size l)%N.
Proof.
  revert i. induction l as [|x l IH]; intros i; [done|]. cbn [last_end]. unfold size in *. cbn [length].
  destruct (last_end l) as [j|]; [intros [= <-]; specialize (IH j eq_refl); lia|]. case_bool_decide; [|done]. intros [= <-]. lia.
Qed.
Lemma valid_total b : is_Some (is_valid_xdc b).
Proof.
  unfold is_valid_xdc. destruct (_ || _); [by eexists|]. cbv zeta. destruct (last_end _) as [i|]; [|by eexists].
  set (eocd := (i + _)%N). destruct (N.ltb_spec (size b) (eocd + 22)); [by eexists|].
  destruct (read_le_ok b (eocd + 16) 4) as [cd ->]; [lia|]. cbn [mbind option_bind]. apply walk_total; unfold size in *; lia.
Qed.

(** ** A writer of zip files *)

(** An entry of the directory; [e_a] and [e_b] are the fields that do not matter. *)
Record Entry := MkEntry { e_a : bytes; e_b : bytes; e_name : bytes; e_extra : bytes; e_comment : bytes }.
Definition entry_bytes (e : Entry) : bytes :=
  CENTRAL ++ e_a e ++ le_bytes 2 (size (e_name e)) ++ le_bytes 2 (size (e_extra e)) ++ le_bytes 2 (size (e_comment e)) ++ e_b e
  ++ e_name e ++ e_extra e ++ e_comment e.
Definition entry_ok (e : Entry) : Prop :=
  length (e_a e) = 24 ∧ length (e_b e) = 12 ∧ (size (e_name e) < 65536)%N ∧ (size (e_extra e) < 65536)%N ∧ (size (e_comment e) < 65536)%N.

(** The files, the directory and the end record. *)
Definition end_bytes (disk : bytes) (cd_off : N) (comment : bytes) : bytes := END_ ++ disk ++ le_bytes 4 cd_off ++ le_bytes 2 (size comment) ++ comment.
Definition zip (files : bytes) (es : list Entry) (disk comment : bytes) : bytes :=
  (LOCAL ++ files) ++ concat (entry_bytes <$> es) ++ end_bytes disk (size (LOCAL ++ files)) comment.

Lemma size_app a b : size (a ++ b) = (size a + size b)%N.
Proof. unfold size. rewrite length_app. lia. Qed.
Lemma le_value_le n x : (x < 256 ^ N.of_nat n)%N → le_value (le_bytes n x) = x.
Proof. intros H. unfold le_value, le_bytes. rewrite reverse_involutive. by apply be_value_bytes_small. Qed.
Lemma size_le n x : size (le_bytes n x) = N.of_nat n.
Proof. unfold size, le_bytes. by rewrite length_reverse, length_be_bytes. Qed.

Lemma sub_app u m v p n : p = size u → n = size m → sub_ (u ++ m ++ v) p n = Some m.
Proof.
  intros -> ->. rewrite sub_ok by (rewrite !size_app; lia). unfold size. rewrite !Nat2N.id, drop_app_length. by rewrite take_app_length.
Qed.
Lemma read_app u v p k n x : p = size u → n = N.of_nat k → (x < 256 ^ n)%N → read_le (u ++ le_bytes k x ++ v) p n = Some x.
Proof.
  intros Hp -> Hx. unfold read_le. rewrite (sub_app u (le_bytes k x) v) by (rewrite ?size_le; done). cbn. by rewrite le_value_le.
Qed.

Lemma entry_size e : entry_ok e → size (entry_bytes e) = (46 + size (e_name e) + size (e_extra e) + size (e_comment e))%N.
Proof.
  intros (Ha & Hb & _). unfold entry_bytes. rewrite !size_app, !size_le.
  assert (size (e_a e) = 24%N) as -> by (unfold size; lia). assert (size (e_b e) = 12%N) as -> by (unfold size; lia).
  change (size CENTRAL) with 4%N. lia.
Qed.

(** One turn of the loop, at an entry. *)
Lemma walk_entry fuel u e v eocd : entry_ok e → (size u + size (entry_bytes e) <= eocd)%N → (eocd <= size (u ++ entry_bytes e ++ v))%N →
  walk (S fuel) (u ++ entry_bytes e ++ v) eocd (size u) =
    if bool_decide (e_name e = INDEX) then Some true else walk fuel (u ++ entry_bytes e ++ v) eocd (size (u ++ entry_bytes e)).
Proof.
  intros He Hle Hsz. pose proof (entry_size e He) as Hes. pose proof He as (Ha & Hb & Hn & Hx & Hc). set (b := u ++ entry_bytes e ++ v) in *.
  assert (Hsa : size (e_a e) = 24%N) by (unfold size; lia). assert (Hsb : size (e_b e) = 12%N) by (unfold size; lia).
  cbn [walk]. destruct (N.leb_spec (size u + 46) eocd); [|lia]. cbn [negb].
  assert (sub_ b (size u) 4 = Some CENTRAL) as -> by (unfold b, entry_bytes; rewrite <- !app_assoc; by apply sub_app).
  cbn [mbind option_bind]. rewrite bool_decide_true by done. cbn [negb].
  assert (read_le b (size u + 28) 2 = Some (size (e_name e))) as ->.
  { unfold b, entry_bytes. rewrite <- !app_assoc, (app_assoc u), (app_assoc (u ++ _)). apply read_app; [rewrite !size_app, Hsa; change (size CENTRAL) with 4%N; lia|done|done]. }
  assert (read_le b (size u + 30) 2 = Some (size (e_extra e))) as ->.
  { unfold b, entry_bytes. rewrite <- !app_assoc, (app_assoc u), (app_assoc (u ++ _)), (app_assoc ((u ++ _) ++ _)).
    apply read_app; [rewrite !size_app, Hsa, size_le; change (size CENTRAL) with 4%N; lia|done|done]. }
  assert (read_le b (size u + 32) 2 = Some (size (e_comment e))) as ->.
  { unfold b, entry_bytes. rewrite <- !app_assoc, (app_assoc u), (app_assoc (u ++ _)), (app_assoc ((u ++ _) ++ _)), (app_assoc (((u ++ _) ++ _) ++ _)).
    apply read_app; [rewrite !size_app, Hsa, !size_le; change (size CENTRAL) with 4%N; lia|done|done]. }
  cbn [mbind option_bind]. destruct (N.ltb_spec (size b) (size u + 46 + size (e_name e))); [lia|].
  assert (sub_ b (size u + 46) (size (e_name e)) = Some (e_name e)) as ->.
  { unfold b, entry_bytes. rewrite <- !app_assoc, (app_assoc u), (app_assoc (u ++ _)), (app_assoc ((u ++ _) ++ _)), (app_assoc (((u ++ _) ++ _) ++ _)),
      (app_assoc ((((u ++ _) ++ _) ++ _) ++ _)), (app_assoc (((((u ++ _) ++ _) ++ _) ++ _) ++ _)).
    apply sub_app; [rewrite !size_app, Hsa, Hsb, !size_le; change (size CENTRAL) with 4%N; lia|done]. }
  cbn [mbind option_bind]. case_bool_decide; [done|]. f_equal. rewrite size_app, Hes. lia.
Qed.

Lemma walk_entries fuel es : ∀ u v eocd, Forall entry_ok es → eocd = (size u + size (concat (entry_bytes <$> es)))%N → (length es <= fuel)%nat →
  walk (S fuel) (u ++ concat (entry_bytes <$> es) ++ v) eocd (size u) = Some (bool_decide (INDEX ∈ e_name <$> es)).
Proof.
  revert es. induction fuel as [|fuel IH]; intros es u v eocd Hes Heq Hf; destruct Hes as [|e es He Hes]; cbn [length] in Hf; try lia.
  1, 2: cbn [walk]; change (size (concat (entry_bytes <$> []))) with 0%N in Heq; destruct (N.leb_spec (size u + 46) eocd); [lia|]; done.
  cbn [fmap list_fmap concat] in *. rewrite size_app in Heq. rewrite <- app_assoc. rewrite walk_entry by (first [done|rewrite ?size_app; lia]).
  case_bool_decide as Hi.
  - symmetry. f_equal. apply bool_decide_true. rewrite Hi. apply elem_of_cons. by left.
  - rewrite (app_assoc u). rewrite IH by (first [done|rewrite size_app; lia|lia]). f_equal. apply bool_decide_ext. rewrite elem_of_cons. naive_solver.
Qed.

Lemma last_end_app u m i : last_end m = Some i → last_end (u ++ m) = Some (size u + i)%N.
Proof.
  intros H. induction u as [|x u IH]; [done|]. cbn [app last_end]. rewrite IH. f_equal. unfold size. cbn [length]. lia.
Qed.
Lemma last_end_none l : (∀ i, take 4 (drop i l) ≠ END_) → last_end l = None.
Proof.
  induction l as [|x l IH]; intros H; [done|]. cbn [last_end]. rewrite IH by (intros i; exact (H (S i))).
  by rewrite bool_decide_false by exact (H 0).
Qed.

(** [C18]: The check of a bundled app ends on every file without a panic; and of a
    zip file, as a writer makes it from files, directory entries and a comment, it
    says whether the directory names [index.html].  (The end record does not contain
    its own tag again, where a reader would look first.) *)
Theorem valid_xdc_iff :
  (∀ b, is_Some (is_valid_xdc b)) ∧
  ∀ files es disk comment,
    Forall entry_ok es → length disk = 12 → (size comment < 65536)%N →
    (size (LOCAL ++ files) + size (concat (entry_bytes <$> es)) < 4294967296)%N →
    (∀ i, take 4 (drop (S i) (end_bytes disk (size (LOCAL ++ files)) comment)) ≠ END_) →
    is_valid_xdc (zip files es disk comment) = Some (bool_decide (INDEX ∈ e_name <$> es)).
Proof.
  split; [apply valid_total|]. intros files es disk comment Hes Hd Hc Hoff Hlast. unfold is_valid_xdc. set (b := zip files es disk comment).
  set (off := size (LOCAL ++ files)) in *. set (en := end_bytes disk off comment) in *.
  assert (Hen : size en = (22 + size comment)%N).
  { unfold en, end_bytes. rewrite !size_app, !size_le. change (size END_) with 4%N. assert (size disk = 12%N) as -> by (unfold size; lia). lia. }
  set (dir := concat (entry_bytes <$> es)) in *. assert (Hsb : size b = (off + size dir + size en)%N) by (unfold b, zip; rewrite (size_app (LOCAL ++ files)), (size_app (concat _)); fold off dir en; lia).
  destruct (N.ltb_spec (size b) 30) as [Hlt|Hge]; cbn [orb].
  { assert (es = []) as ->; [|done]. destruct Hes as [|e es He _]; [done|]. exfalso. unfold dir in Hsb. cbn [fmap list_fmap concat] in Hsb.
    rewrite size_app, entry_size in Hsb by done. lia. }
  assert (take 4 b = LOCAL) as Hl by done. rewrite bool_decide_true by done. cbn [negb]. cbv zeta.
  assert (Hlast0 : last_end en = Some 0%N).
  { assert (Hcons : ∃ x t, en = x :: t) by (eexists _, _; reflexivity). destruct Hcons as (x & t & Hx). rewrite Hx. cbn [last_end].
    rewrite last_end_none by (intros i; specialize (Hlast i); by rewrite Hx in Hlast). by rewrite <- Hx, bool_decide_true. }
  set (start := (size b - (22 + 65535))%N).
  assert (Hstart : (start <= off + size dir)%N) by (unfold start; lia).
  assert (Htail : last_end (drop (N.to_nat start) b) = Some (off + size dir - start)%N).
  { assert (Hb : b = ((LOCAL ++ files) ++ dir) ++ en) by (unfold b, zip; by rewrite <- !app_assoc).
    assert (Hle : (N.to_nat start <= length ((LOCAL ++ files) ++ dir))%nat).
    { rewrite length_app. clear - Hstart. unfold off, size in *. lia. }
    rewrite Hb, drop_app_le by done. rewrite (last_end_app _ en 0%N) by done. f_equal. unfold size. rewrite length_drop, length_app. clear - Hstart. unfold off, size in *. lia. }
  rewrite Htail. rewrite N.sub_add by done.
  destruct (N.ltb_spec (size b) (off + size dir + 22)); [lia|].
  assert (read_le b (off + size dir + 16) 4 = Some off) as ->.
  { assert (b = ((LOCAL ++ files) ++ dir ++ END_ ++ disk) ++ le_bytes 4 off ++ le_bytes 2 (size comment) ++ comment) as ->
      by (unfold b, zip, en, end_bytes; by rewrite <- !app_assoc).
    apply read_app; [|done|]; [rewrite !size_app; change (size END_) with 4%N; unfold off; rewrite size_app; assert (size disk = 12%N) as -> by (unfold size; lia); lia|].
    change (256 ^ 4)%N with 4294967296%N. lia. }
  cbn [mbind option_bind]. unfold b, zip. fold dir. apply walk_entries; [done|done|].
  assert (Hlen : ∀ l, Forall entry_ok l → (length l <= length (concat (entry_bytes <$> l)))%nat).
  { intros l Hl'. induction Hl' as [|e l He _ IH]; [done|]. cbn [fmap list_fmap concat length]. rewrite length_app.
    pose proof (entry_size e He) as Hs. unfold size in Hs. lia. }
  rewrite !length_app. specialize (Hlen es Hes). fold dir in Hlen. lia.
Qed.

(** ** Writing it *)

Inductive Refused := Unknown | Corrupt | NoDirectory | NotWritten | NotReadable | Different.
Definition write_builtin (builtin_bytes : str → option bytes) (name : str) : M (option bytes) (result Refused unit) :=
  match builtin_bytes name with
  | None => mret (Err Unknown)
  | Some b =>
      if negb (bool_decide (is_valid_xdc b = Some true)) then mret (Err Corrupt) else
      made ← act Some;
      if negb made then mret (Err NoDirectory) else
      written ← tear (λ _, Some (Some b)) (λ torn _, Some torn);
      if negb written then mret (Err NotWritten) else
      back ← reads id;
      match back with
      | None => mret (Err NotReadable)
      | Some back => if bool_decide (back = b) then mret (Ok tt) else _ ← act (λ _, Some None); mret (Err Different)
      end
  end.

(** Success means that the file holds an app, and without failures it is success. *)
Lemma written_valid builtin_bytes name : 
  spec any (λ _, True) (write_builtin builtin_bytes name) (λ r s, r = Ok tt → ∃ b, builtin_bytes name = Some b ∧ s = Some b ∧ is_valid_xdc b = Some true) (λ _, True).
Proof.
  unfold write_builtin. destruct (builtin_bytes name) as [b|]; [|by apply spec_ret]. case_bool_decide as Hv; [|by apply spec_ret]. cbn [negb].
  eapply (spec_bind _ _ _ _ (λ _ _, True)); [by apply spec_act|]. intros [|]; [|by apply spec_ret]. cbn [negb].
  eapply (spec_bind _ _ _ _ (λ _ _, True)); [by apply spec_tear|]. intros [|]; [|by apply spec_ret]. cbn [negb].
  eapply (spec_bind _ _ _ _ (λ x s, (x = None ∨ x = s) ∧ True)).
  { eapply spec_mono; [apply (spec_reads_any any (λ _, True))|done|intros x s H; exact H|done]. }
  intros [back|]; [|by apply spec_ret]. case_bool_decide as Hb.
  - apply spec_ret. intros s [[Hs|<-] _] _; [done|]. subst. by exists b.
  - eapply (spec_bind _ _ _ _ (λ _ _, True)); [by apply spec_act|]. intros _. by apply spec_ret.
Qed.

(** ** A file *)

Lemma last_end_absent l : last_end l = None → ∀ i, take 4 (drop i l) ≠ END_.
Proof.
  induction l as [|x l IH]; [by intros _ [|i]|]. cbn [last_end]. destruct (last_end l) eqn:Hl; [done|]. case_bool_decide as Hx; [done|].
  intros _ [|i]; [done|]. by apply IH.
Qed.
Module Bundle.
Definition entry (name : string) : Entry := MkEntry (replicate 24 7%N) (replicate 12 7%N) (lit name) (lit "x") [].
Definition files : bytes := lit "the files".
Definition es : list Entry := [entry "icon.png"; entry "index.html"].
Definition disk : bytes := replicate 12 0%N.
Definition comment : bytes := lit "PK comment".
End Bundle.

Lemma valid_xdc_iff_witness :
  is_valid_xdc (zip Bundle.files Bundle.es Bundle.disk Bundle.comment) = Some true ∧
  is_valid_xdc (zip Bundle.files (take 1 Bundle.es) Bundle.disk Bundle.comment) = Some false.
Proof.
  destruct valid_xdc_iff as [_ H]. split.
  - rewrite (H Bundle.files Bundle.es Bundle.disk Bundle.comment); [reflexivity|repeat constructor|reflexivity|reflexivity|reflexivity|].
    intros i. apply (last_end_absent (tail (end_bytes Bundle.disk (size (LOCAL ++ Bundle.files)) Bundle.comment))). vm_compute. reflexivity.
  - rewrite (H Bundle.files (take 1 Bundle.es) Bundle.disk Bundle.comment); [reflexivity|repeat constructor|reflexivity|reflexivity|reflexivity|].
    intros i. apply (last_end_absent (tail (end_bytes Bundle.disk (size (LOCAL ++ Bundle.files)) Bundle.comment))). vm_compute. reflexivity.
Defined.
