(* ===== verification/Cryptex.v ===== *)
(** * Large files over a Cryptex server ([cryptex.rs])

    A file is sent to a server as a form and fetched from it with a token.  Here:
    the addresses and texts, the form against a reader of forms, the body that can
    be cancelled, and downloads into a directory, step by step between system calls.
    The client for HTTP and the server are arguments. *)

From stdpp Require Import gmap.
From S2P Require Import Prelude Str Ip Json Readers Net Groups Frames Engine Chat Files Webxdc.

Definition MAX_FILE : N := 1024 * 1024 * 1024.

(** ** Addresses and texts *)

Definition has_any (cs s : str) : bool := existsb (λ c, bool_decide (c ∈ cs)) s.
Definition base_url (server : str) : result str str :=
  let s := trim_end_char 47 (trim server) in
  rest ← ok_or (strip_prefix (lit "https://") s) (lit "the Cryptex server must use https://");
  if bool_decide (rest = []) || has_any (lit "?# @") rest then Err (lit "invalid Cryptex server URL") else Ok s.

Definition is_lower (c : N) : bool := in_range 97 122 c.
Definition is_digit (c : N) : bool := in_range 48 57 c.
Definition is_alnum (c : N) : bool := in_range 65 90 c || is_lower c || is_digit c.
Definition id_ok (id : str) : bool :=
  negb (bool_decide (id = [])) && (str_len id <=? 64)%N && forallb (λ c, is_lower c || is_digit c || (c =? 45)%N) id.

(** [s.parse::<u64>()] *)
Definition parse_u64 (s : str) : option N :=
  match default s (strip_prefix (lit "+") s) with
  | [] => None
  | s => n ← digits_value s; if (n <? u64_bound)%N then Some n else None
  end.
(** Multiplication wraps, as in the release profile. *)
Definition wmul64 (a b : N) : N := ((a * b) mod u64_bound)%N.
(** No result: the cut is inside a character, which panics. *)
Definition retention_ok (r : str) : option bool :=
  match last r with
  | Some c =>
      if (128 <=? c)%N then None else
      let n := take (length r - 1) r in
      Some match parse_u64 n with
           | None => false
           | Some n =>
               let mins := if (c =? ch "m")%N then Some n else if (c =? ch "h")%N then Some (wmul64 n 60)
                           else if (c =? ch "d")%N then Some (wmul64 n 1440) else None in
               match mins with Some mins => (0 <? n)%N && (mins <=? 7 * 1440)%N | None => false end
           end
  | None => Some false
  end.

Definition file_char (c : N) : N := if is_control c || bool_decide (c ∈ lit "/\:*?<>|" ++ quote) then 95%N else c.
Definition safe_filename (name : str) : str :=
  let s := trim_start_char 46 (trim (file_char <$> name)) in
  match s with [] => lit "file" | _ => take 120 s end.

Definition password_letters : str := lit "ABCDEFGHJKLMNPQRSTUVWXYZabcdefghijkmnopqrstuvwxyz23456789".
Definition new_password (random_bytes : bytes) : str := (λ b, nth (N.to_nat (b mod str_len password_letters)) password_letters 0%N) <$> random_bytes.

(** ** The form *)

Definition CRLF : str := [13; 10]%N.
Definition name_char (c : N) : N := if (c =? 34)%N || (c =? 13)%N || (c =? 10)%N then 95%N else c.
Definition quoted (s : str) : str := quote ++ s ++ quote.
Definition field_head (k : str) : str := lit "Content-Disposition: form-data; name=" ++ quoted k.
Definition file_head (name : str) : str :=
  lit "Content-Disposition: form-data; name=" ++ quoted (lit "file") ++ lit "; filename=" ++ quoted (name_char <$> name)
  ++ CRLF ++ lit "Content-Type: application/octet-stream".
Definition multipart_fields (password retention : str) (autodestroy : bool) : list (str * str) :=
  [(lit "password", password); (lit "retention", retention); (lit "autodestroy", if autodestroy then lit "true" else lit "false")].
Definition multipart_parts (boundary name password retention : str) (autodestroy : bool) : bytes * bytes :=
  let head := concat ((λ kv, lit "--" ++ boundary ++ CRLF ++ field_head kv.1 ++ CRLF ++ CRLF ++ kv.2 ++ CRLF) <$> multipart_fields password retention autodestroy)
    ++ lit "--" ++ boundary ++ CRLF ++ file_head name ++ CRLF ++ CRLF in
  (as_bytes head, as_bytes (CRLF ++ lit "--" ++ boundary ++ lit "--" ++ CRLF)).

(** ** The body that is sent *)

(** [CountingReader]: what is left in pieces as the parts give them, what was read,
    and whether the upload was cancelled by its [n]th read. *)
Inductive Read := Got (b : bytes) | Interrupted.
Record Body := MkBody { bd_left : list bytes; bd_sent : N; bd_reads : nat }.
Definition counting_read (cancelled : nat → bool) (b : Body) : Read * Body :=
  let b' := MkBody (bd_left b) (bd_sent b) (S (bd_reads b)) in
  if cancelled (bd_reads b) then (Interrupted, b') else
  match bd_left b with
  | [] => (Got [], b')
  | x :: l => (Got x, MkBody l (bd_sent b + len x)%N (S (bd_reads b)))
  end.
(** [std::io::copy], with which the client sends a body: an interrupted read is
    repeated, as the contract of [Read] has it.  No result: not yet. *)
Fixpoint copy (fuel : nat) (cancelled : nat → bool) (b : Body) (out : bytes) : option (bytes * Body) :=
  match fuel with
  | 0 => None
  | S fuel =>
      match counting_read cancelled b with
      | (Interrupted, b) => copy fuel cancelled b out
      | (Got [], b) => Some (out, b)
      | (Got x, b) => copy fuel cancelled b (out ++ x)
      end
  end.

(** ** Fetching *)

Section Fetch.
Context {J : Json}.

(** What the server does: the answer to the request for a token, and the file, in
    pieces, up to where the connection ends or breaks. *)
Record Served := MkServed { sv_token : result str value; sv_body : list bytes; sv_whole : bool }.

Definition download_token (t : value) : result str str :=
  token ← ok_or (get t "token" ≫= as_str) (lit "no download token");
  if forallb (λ c, is_alnum c || (c =? 45)%N || (c =? 95)%N) token then Ok token else Err (lit "bad download token").
(** [take(limit)] of a body. *)
Fixpoint limited (limit : N) (l : list bytes) : list bytes :=
  match l with
  | [] => []
  | x :: l => if (len x <=? limit)%N then x :: limited (limit - len x) l else [take (N.to_nat limit) x]
  end.
(** The requests of a fetch, and the pieces that are written out when it gets that far. *)
Definition token_url (base : str) : str := base ++ lit "/api/download".
Definition file_url (base token : str) : str := base ++ lit "/api/download/" ++ token.
Definition fetch_start (server id : str) (sv : Served) : result str (list str * list bytes) :=
  base ← base_url server;
  if negb (id_ok id) then Err (lit "invalid Cryptex id") else
  t ← sv_token sv;
  token ← download_token t;
  Ok ([token_url base; file_url base token], limited (MAX_FILE + 1) (sv_body sv)).

(** What a download gets of it. *)
Definition fetched (server id : str) (sv : Served) : option (list bytes * bool) :=
  match fetch_start server id sv with Ok (_, body) => Some (body, sv_whole sv) | Err _ => None end.

(** ** Downloads into a directory *)

(** Names lead to files, open files go on when their name is taken from them. *)
Record Store := MkStore { st_names : gmap str nat; st_files : gmap nat bytes; st_next : nat }.
Definition exists_ (st : Store) (name : str) : bool := bool_decide (is_Some (st_names st !! name)).
Definition content (st : Store) (name : str) : option bytes := i ← st_names st !! name; st_files st !! i.
(** [File::create] *)
Definition create (name : str) (st : Store) : nat * Store :=
  match st_names st !! name with
  | Some i => (i, MkStore (st_names st) (<[i := []]> (st_files st)) (st_next st))
  | None => (st_next st, MkStore (<[name := st_next st]> (st_names st)) (<[st_next st := []]> (st_files st)) (S (st_next st)))
  end.
(** A write at a place in an open file; a gap is filled with zeros. *)
Definition write_at (i off : nat) (b : bytes) (st : Store) : Store :=
  let old := default [] (st_files st !! i) in
  MkStore (st_names st) (<[i := take off old ++ replicate (off - length old) 0%N ++ b ++ drop (off + length b) old]> (st_files st)) (st_next st).
Definition rename (old new : str) (st : Store) : option Store :=
  i ← st_names st !! old; Some (MkStore (<[new := i]> (delete old (st_names st))) (st_files st) (st_next st)).
Definition remove (name : str) (st : Store) : Store := MkStore (delete name (st_names st)) (st_files st) (st_next st).

(** [dir.join(format!("{stem} ({i}){ext}"))] *)
Definition numbered (name : str) (i : N) : str :=
  let '(stem, ext) := match rsplit_once 46 name with Some ((_ :: _) as s, e) => (s, lit "." ++ e) | _ => (name, []) end in
  stem ++ lit " (" ++ show_N i ++ lit ")" ++ ext.
(** The loop that looks for a name, from the [i]th on. *)
Fixpoint free_name (fuel : nat) (st : Store) (name target : str) (i : N) : option str :=
  if exists_ st target then match fuel with 0 => None | S fuel => free_name fuel st name (numbered name i) (i + 1) end
  else Some target.
Definition part_of (target : str) : str := default target (file_stem target) ++ lit ".part".

(** A download between its system calls. *)
Inductive Pc :=
| PChoose (filename : str)
| PCreate (target : str)
| PWrite (target : str) (i off : nat) (more : list bytes) (ok : bool)
| PEnd (target : str) (ok : bool)
| PDone (res : option str).

(** [n]: how much the file has; [io]: whether the system call works; [fetch]: what
    [fetch_start] gave, and whether the connection held. *)
Definition advance (fetch : option (list bytes * bool)) (io : bool) (pc : Pc) (st : Store) : option (Pc * Store) :=
  match pc with
  | PChoose filename =>
      let name := safe_filename filename in
      target ← free_name (S (size (st_names st))) st name name 1; Some (PCreate target, st)
  | PCreate target =>
      if negb io then Some (PDone None, st) else
      let '(i, st) := create (part_of target) st in
      Some (match fetch with
            | Some (body, ok) => PWrite target i 0 body ok
            | None => PEnd target false
            end, st)
  | PWrite target i off (x :: more) ok =>
      if io then Some (PWrite target i (off + length x) more ok, write_at i off x st) else Some (PEnd target false, st)
  | PWrite target i off [] ok => Some (PEnd target (ok && (N.of_nat off <=? MAX_FILE)%N), st)
  | PEnd target true =>
      Some (match (if io then rename (part_of target) target st else None) with
            | Some st' => (PDone (Some target), st')
            | None => (PDone None, st)
            end)
  | PEnd target false => Some (PDone None, if io then remove (part_of target) st else st)
  | PDone _ => None
  end.

(** One download by itself. *)
Inductive alone (fetch : option (list bytes * bool)) : Pc → Store → Pc → Store → Prop :=
| alone_here pc st : alone fetch pc st pc st
| alone_step pc st io pc' st' pc'' st'' : advance fetch io pc st = Some (pc', st') → alone fetch pc' st' pc'' st'' → alone fetch pc st pc'' st''.
(** The same with the outcomes of the system calls in a list. *)
Fixpoint follow (fetch : option (list bytes * bool)) (ios : list bool) (pc : Pc) (st : Store) : Pc * Store :=
  match ios with
  | [] => (pc, st)
  | io :: ios => match advance fetch io pc st with Some (pc', st') => follow fetch ios pc' st' | None => (pc, st) end
  end.
(** Several at a time: which one goes on, and whether its system call works. *)
Definition together (fetches : list (option (list bytes * bool))) (w : list Pc * Store) (e : nat * bool) : option (list Pc * Store) :=
  pc ← w.1 !! e.1; fetch ← fetches !! e.1; '(pc', st) ← advance fetch e.2 pc w.2; Some (<[e.1 := pc']> w.1, st).
Definition runs (fetches : list (option (list bytes * bool))) (w : list Pc * Store) (es : list (nat * bool)) : option (list Pc * Store) :=
  foldl (λ w e, w ← w; together fetches w e) (Some w) es.
End Fetch.

(** ** A cancelled upload *)

Definition pieces_ok (l : list bytes) : Prop := Forall (λ x, x ≠ []) l.

Lemma copy_all cancelled l sent reads out fuel : pieces_ok l → (∀ n, cancelled n = false) → (length l < fuel)%nat →
  ∃ b', copy fuel cancelled (MkBody l sent reads) out = Some (out ++ concat l, b') ∧ bd_sent b' = (sent + len (concat l))%N.
Proof.
  intros Hl Hc. revert sent reads out fuel. induction Hl as [|x l Hx Hl IH]; intros sent reads out [|fuel] Hf; cbn [length] in Hf; try lia;
    cbn [copy]; unfold counting_read; cbn [bd_reads bd_left bd_sent]; rewrite Hc.
  - eexists. rewrite app_nil_r. split; [done|]. cbn. unfold len. cbn. lia.
  - destruct x as [|c x]; [done|]. destruct (IH (sent + len (c :: x))%N (S reads) (out ++ c :: x) fuel) as (b' & -> & Hs); [lia|].
    exists b'. cbn [concat]. rewrite <- app_assoc. split; [done|]. rewrite Hs. unfold len. rewrite length_app. lia.
Qed.
Lemma copy_stuck fuel cancelled b out : (∀ n, (bd_reads b <= n)%nat → cancelled n = true) → copy fuel cancelled b out = None.
Proof.
  revert b. induction fuel as [|fuel IH]; intros b Hc; [done|]. cbn [copy]. unfold counting_read. rewrite Hc by lia. apply IH.
  cbn. intros n Hn. apply Hc. lia.
Qed.

(** [C17]: An upload that nobody cancels sends the whole body and counts it; one that
    is cancelled before its last read never ends: the reader answers that it was
    interrupted, and the copy asks again, for ever. *)
Theorem cancel_never_ends cancelled l : pieces_ok l →
  ((∀ n, cancelled n = false) → ∃ b', copy (S (length l)) cancelled (MkBody l 0 0) [] = Some (concat l, b') ∧ bd_sent b' = len (concat l)) ∧
  (∀ k, (k <= length l)%nat → (∀ n, cancelled n = bool_decide (k <= n)%nat) → ∀ fuel, copy fuel cancelled (MkBody l 0 0) [] = None).
Proof.
  intros Hl. split.
  - intros Hc. apply (copy_all cancelled l 0 0 []); [done|done|lia].
  - intros k Hk Hc. assert (Hgo : ∀ l reads sent out fuel, pieces_ok l → (k <= reads + length l)%nat → copy fuel cancelled (MkBody l sent reads) out = None).
    { clear l Hl Hk. intros l reads sent out fuel. revert l reads sent out. induction fuel as [|fuel IH]; intros l reads sent out Hl Hk; [done|].
      destruct (decide (k <= reads)%nat) as [Hle|Hgt].
      - apply copy_stuck. cbn. intros n Hn. rewrite Hc. apply bool_decide_true. lia.
      - cbn [copy]. unfold counting_read. cbn [bd_reads bd_left bd_sent]. rewrite Hc, bool_decide_false by lia.
        destruct Hl as [|[|c x] l Hx Hl]; cbn [length] in Hk; [lia|done|]. apply IH; [done|lia]. }
    intros fuel. apply Hgo; [done|lia].
Qed.

(** ** The time a file is kept *)

Lemma retention_wraps : retention_ok (lit "12810238940076078d") = Some true ∧ retention_ok (lit "8d") = Some false ∧ retention_ok [55; 1076]%N = None.
Proof. vm_compute. done. Qed.

(** ** A reader of forms *)

(** Parts end where the line end, two dashes and the boundary come next; in a part,
    the head ends at the first empty line. *)
Definition delimiter (boundary : bytes) : bytes := CRLF ++ lit "--" ++ boundary.
Fixpoint read_parts (fuel : nat) (boundary b : bytes) : option (list (bytes * bytes)) :=
  match fuel with
  | 0 => None
  | S fuel =>
      if starts_with (lit "--") b then Some [] else
      b ← strip_prefix CRLF b;
      '(part, more) ← cut_str (delimiter boundary) b;
      '(head, v) ← cut_str (CRLF ++ CRLF) part;
      more ← strip_prefix (delimiter boundary) more;
      l ← read_parts fuel boundary more;
      Some ((head, drop 4 v) :: l)
  end.
Definition read_form (boundary b : bytes) : option (list (bytes * bytes)) :=
  b ← strip_prefix (lit "--" ++ boundary) b; read_parts (length b) boundary b.

Definition occurs (p s : bytes) : Prop := ∃ a b, s = a ++ p ++ b.

Lemma strip_app p s : strip_prefix p (p ++ s) = Some s.
Proof. by apply strip_prefix_Some. Qed.
Lemma starts_with_false p s : (∀ t, s ≠ p ++ t) → starts_with p s = false.
Proof. intros H. apply bool_decide_eq_false. intros [t Ht%strip_prefix_Some]. by apply (H t). Qed.
Lemma starts_with_app p s : starts_with p (p ++ s) = true.
Proof. apply bool_decide_eq_true. rewrite strip_app. by eexists. Qed.

Lemma cut_here p s : cut_str p (p ++ s) = Some ([], p ++ s).
Proof. destruct (p ++ s) eqn:H; unfold cut_str; rewrite <- H, starts_with_app; done. Qed.
Lemma cut_next p x s : (∀ t, x :: s ≠ p ++ t) → cut_str p (x :: s) = '(a, b) ← cut_str p s; Some (x :: a, b).
Proof. intros H. cbn [cut_str]. by rewrite starts_with_false. Qed.
(** What has not the first character of the pattern is passed over. *)
Lemma cut_skip c p u s a b : c ∉ u → cut_str (c :: p) s = Some (a, b) → cut_str (c :: p) (u ++ s) = Some (u ++ a, b).
Proof.
  intros Hu Hs. induction u as [|x u IH]; [done|]. cbn [app]. rewrite cut_next by (intros t [= -> _]; set_solver).
  by rewrite IH by set_solver.
Qed.
(** The first occurrence, of a pattern that does not overlap with itself. *)
Lemma cut_first c p u s : c ∉ p → ¬ occurs (c :: p) u → cut_str (c :: p) (u ++ (c :: p) ++ s) = Some (u, (c :: p) ++ s).
Proof.
  intros Hp. induction u as [|x u IH]; intros Hu; [exact (cut_here (c :: p) s)|]. rewrite <- (app_comm_cons u), cut_next.
  - rewrite IH; [done|]. intros (a & b & ->). apply Hu. by exists (x :: a), b.
  - intros t [= -> Ht]. destruct (decide (length p <= length u)%nat) as [Hle|Hgt].
    + apply Hu. exists [], (drop (length p) u). cbn. f_equal. assert (p = take (length p) u) as Hpu.
      { apply (f_equal (take (length p))) in Ht. rewrite take_app_length, take_app_le in Ht by done. done. }
      by rewrite Hpu at 1; rewrite take_drop.
    + apply (f_equal (lookup (length u))) in Ht. rewrite lookup_app_r, Nat.sub_diag in Ht by done. cbn in Ht.
      rewrite lookup_app_l in Ht by lia. symmetry in Ht. apply list_elem_of_lookup_2 in Ht. done.
Qed.

Section Form.
Context (boundary : bytes).
Hypothesis Hb : 13%N ∉ boundary.

(** A part: a head without an empty line, and a value without the boundary. *)
Definition head_ok (h : bytes) : Prop := ∃ u v, (h = u ++ CRLF ++ v ∧ (13%N ∉ u) ∧ (13%N ∉ v) ∧ v ≠ [] ∧ head v ≠ Some 45%N) ∨ (h = u ∧ (13%N ∉ u)).
Definition value_ok (v : bytes) : Prop := ¬ occurs (lit "--" ++ boundary) v.

Lemma value_delim v : value_ok v → ¬ occurs (delimiter boundary) (CRLF ++ v).
Proof.
  intros Hv (a & b & H). apply Hv. destruct a as [|x [|y a]]; cbn in H.
  - injection H as ->. by exists [], b.
  - discriminate.
  - injection H as _ _ ->. exists (a ++ CRLF), b. by rewrite <- !app_assoc.
Qed.
Lemma delim_cons : delimiter boundary = 13%N :: 10%N :: lit "--" ++ boundary.
Proof. done. Qed.

(** The empty line and the value. *)
Lemma cut_value v s : value_ok v →
  cut_str (delimiter boundary) (CRLF ++ CRLF ++ v ++ delimiter boundary ++ s) = Some (CRLF ++ CRLF ++ v, delimiter boundary ++ s).
Proof.
  intros Hv. change (CRLF ++ CRLF ++ v ++ delimiter boundary ++ s) with (13%N :: 10%N :: CRLF ++ v ++ delimiter boundary ++ s).
  rewrite !cut_next by (intros t; rewrite delim_cons; discriminate).
  rewrite (app_assoc CRLF v). rewrite delim_cons. rewrite cut_first; [done| |by rewrite <- delim_cons; apply value_delim].
  set_solver.
Qed.
Lemma cut_part h v s : head_ok h → value_ok v →
  cut_str (delimiter boundary) (h ++ CRLF ++ CRLF ++ v ++ delimiter boundary ++ s) = Some (h ++ CRLF ++ CRLF ++ v, delimiter boundary ++ s).
Proof.
  intros (u & w & [(-> & Hu & Hw & Hne & Hd)|(-> & Hu)]) Hv.
  - rewrite <- !app_assoc. rewrite delim_cons. apply cut_skip; [done|]. rewrite <- delim_cons.
    change (CRLF ++ ?x) with (13%N :: 10%N :: x). rewrite cut_next.
    2: { intros t. rewrite delim_cons. destruct w as [|c w]; [done|]. cbn. intros [= -> _]. by apply Hd. }
    rewrite cut_next by (intros t; rewrite delim_cons; discriminate). cbn [app].
    rewrite delim_cons at 1. rewrite (cut_skip 13 _ w _ (CRLF ++ CRLF ++ v) (delimiter boundary ++ s) Hw); [done|].
    by apply cut_value.
  - rewrite delim_cons at 1. apply cut_skip; [done|]. by apply cut_value.
Qed.
Lemma cut_head h v : head_ok h → cut_str (CRLF ++ CRLF) (h ++ CRLF ++ CRLF ++ v) = Some (h, CRLF ++ CRLF ++ v).
Proof.
  assert (Hhere : cut_str (CRLF ++ CRLF) (CRLF ++ CRLF ++ v) = Some ([], CRLF ++ CRLF ++ v)) by apply (cut_here (CRLF ++ CRLF) v).
  intros (u & w & [(-> & Hu & Hw & Hne & Hd)|(-> & Hu)]).
  - rewrite <- !app_assoc. apply cut_skip; [done|]. change (CRLF ++ ?x) with (13%N :: 10%N :: x).
    rewrite cut_next. 2: { intros t. destruct w as [|c w]; [done|]. cbn. intros [= -> _]. set_solver. }
    rewrite cut_next by (intros t; discriminate). cbn [app] in *. rewrite (cut_skip 13 _ w _ [] (CRLF ++ CRLF ++ v) Hw Hhere).
    by rewrite app_nil_r.
  - rewrite <- (app_nil_r u) at 2. by apply cut_skip.
Qed.

(** A form as it is written: parts, and the end. *)
Definition form_parts (l : list (bytes * bytes)) : bytes := concat ((λ hv, CRLF ++ hv.1 ++ CRLF ++ CRLF ++ hv.2 ++ delimiter boundary) <$> l).
Lemma parts_written l rest fuel : Forall (λ hv, head_ok hv.1 ∧ value_ok hv.2) l → (length l < fuel)%nat →
  read_parts fuel boundary (form_parts l ++ lit "--" ++ rest) = Some l.
Proof.
  intros Hl. revert fuel. induction Hl as [|[h v] l [Hh Hv] Hl IH]; intros [|fuel] Hf; cbn [length] in Hf; try lia; [done|].
  unfold form_parts. cbn [fmap list_fmap concat fst snd read_parts]. fold (form_parts l). rewrite <- !app_assoc.
  rewrite starts_with_false by (intros t; discriminate). rewrite strip_app. cbn [mbind option_bind].
  rewrite cut_part by done. cbn [mbind option_bind]. rewrite cut_head by done. cbn [mbind option_bind].
  rewrite strip_app. cbn [mbind option_bind]. rewrite IH by lia. done.
Qed.
End Form.

Lemma ascii_in_bytes c s : (c < 128)%N → c ∈ as_bytes s → c ∈ s.
Proof.
  intros Hc. unfold as_bytes. intros (x & Hx & Hin)%list_elem_of_bind. assert (c = x) as ->; [|done].
  unfold utf8_char in Hx. destruct (N.ltb_spec x 128); [by apply list_elem_of_singleton in Hx|].
  assert (Hbig : ∀ a b, (128 <= a)%N → c ≠ (a + b)%N) by lia.
  destruct (x <? 2048)%N; [|destruct (x <? 65536)%N]; rewrite !elem_of_cons, elem_of_nil in Hx;
    repeat (destruct Hx as [Hx|Hx]); try done; by apply Hbig in Hx.
Qed.
Lemma name_plain (name : str) c : c ∈ name_char <$> name → c ≠ 34%N ∧ c ≠ 13%N ∧ c ≠ 10%N.
Proof.
  intros (x & -> & _)%list_elem_of_fmap. unfold name_char.
  destruct (N.eqb_spec x 34), (N.eqb_spec x 13), (N.eqb_spec x 10); cbn; split_and!; done.
Qed.
Lemma no_cr s : 13%N ∉ s → 13%N ∉ as_bytes s.
Proof. intros H Hin. apply H. by apply ascii_in_bytes. Qed.

Lemma absent_app (c : N) (u v : str) : c ∉ u → c ∉ v → c ∉ u ++ v.
Proof. rewrite elem_of_app. tauto. Qed.
(** A character that a text does not have, the text being given but for parts. *)
Ltac absent := repeat apply absent_app; try assumption; try (apply (bool_decide_unpack _); vm_compute; exact I).

Lemma field_head_ok k : 13%N ∉ k → head_ok (as_bytes (field_head k)).
Proof. intros Hk. exists (as_bytes (field_head k)), []. right. split; [done|]. apply no_cr. unfold field_head, quoted, quote. absent. Qed.
Lemma file_head_ok name : head_ok (as_bytes (file_head name)).
Proof.
  assert (Hn : 13%N ∉ name_char <$> name) by (intros H; by apply name_plain in H as (_ & ? & _)).
  exists (as_bytes (lit "Content-Disposition: form-data; name=" ++ quoted (lit "file") ++ lit "; filename=" ++ quoted (name_char <$> name))),
    (as_bytes (lit "Content-Type: application/octet-stream")). left. split_and!; [|apply no_cr; unfold quoted, quote; absent|absent|done|done].
  unfold file_head. by rewrite !as_bytes_app, <- !app_assoc.
Qed.

(** [C15]: A reader of forms gets from the body of an upload exactly the four parts
    that were meant: the password, the time, the flag, and the file under its name,
    whatever the name is and whatever the file contains, as long as the boundary
    does not occur in a value.  No name can add a header or end its quotes. *)
Theorem multipart_reads_back boundary name password retention autodestroy data :
  is_ascii boundary → 13%N ∉ boundary →
  (∀ v, v ∈ [as_bytes password; as_bytes retention; data] → ¬ occurs (lit "--" ++ boundary) v) →
  ¬ occurs (lit "--" ++ boundary) (lit "true") → ¬ occurs (lit "--" ++ boundary) (lit "false") →
  let '(head, tail) := multipart_parts boundary name password retention autodestroy in
  read_form boundary (head ++ data ++ tail) =
    Some [(as_bytes (field_head (lit "password")), as_bytes password); (as_bytes (field_head (lit "retention")), as_bytes retention);
          (as_bytes (field_head (lit "autodestroy")), if autodestroy then lit "true" else lit "false"); (as_bytes (file_head name), data)] ∧
  ∃ safe, file_head name = field_head (lit "file") ++ lit "; filename=" ++ quoted safe ++ CRLF ++ lit "Content-Type: application/octet-stream" ∧
    length safe = length name ∧ ∀ c, c ∈ safe → c ≠ 34%N ∧ c ≠ 13%N ∧ c ≠ 10%N.
Proof.
  intros Hasc Hcr Hv Htrue Hfalse. unfold multipart_parts. split.
  2: { exists (name_char <$> name). split; [unfold file_head, field_head; by rewrite <- !app_assoc|]. split; [apply length_fmap|apply name_plain]. }
  set (fp := field_head (lit "password")). set (fr := field_head (lit "retention")). set (fa := field_head (lit "autodestroy")).
  set (flag := if autodestroy then lit "true" else lit "false"). set (fh := file_head name).
  set (l := [(as_bytes fp, as_bytes password); (as_bytes fr, as_bytes retention); (as_bytes fa, flag); (as_bytes fh, data)]).
  assert (Hl : Forall (λ hv, head_ok hv.1 ∧ value_ok boundary hv.2) l).
  { constructor; [|constructor; [|constructor; [|constructor; [|constructor]]]]; cbn [fst snd].
    - split; [apply field_head_ok; absent|apply Hv; by left].
    - split; [apply field_head_ok; absent|apply Hv; by right; left].
    - split; [apply field_head_ok; absent|unfold flag; by destruct autodestroy].
    - split; [apply file_head_ok|apply Hv; by right; right; left]. }
  assert (Hflag : as_bytes flag = flag) by (unfold flag; by destruct autodestroy).
  assert (Hbody : ∀ rest, as_bytes (concat ((λ kv, lit "--" ++ boundary ++ CRLF ++ field_head kv.1 ++ CRLF ++ CRLF ++ kv.2 ++ CRLF) <$> multipart_fields password retention autodestroy)
      ++ lit "--" ++ boundary ++ CRLF ++ fh ++ CRLF ++ CRLF) ++ data ++ as_bytes (CRLF ++ lit "--" ++ boundary ++ lit "--" ++ CRLF) ++ rest
    = (lit "--" ++ boundary) ++ form_parts boundary l ++ lit "--" ++ CRLF ++ rest).
  { intros rest. unfold form_parts, l, delimiter. cbn [fmap list_fmap concat multipart_fields fst snd]. fold fp fr fa flag.
    clearbody fp fr fa flag fh. rewrite !as_bytes_app, (as_bytes_ascii boundary), Hflag by done.
    change (as_bytes CRLF) with CRLF. change (as_bytes (lit "--")) with (lit "--"). change (as_bytes []) with (@nil N).
    rewrite <- !app_assoc. cbn [app]. rewrite ?app_nil_r. done. }
  specialize (Hbody []). rewrite !app_nil_r in Hbody. rewrite Hbody. unfold read_form. rewrite strip_app. cbn [mbind option_bind].
  apply parts_written; [done|done|]. rewrite length_app. cbn. lia.
Qed.

(** ** A download by itself *)

Lemma numbered_inj name i j : numbered name i = numbered name j → i = j.
Proof.
  unfold numbered. destruct (match rsplit_once 46 name with Some ((_ :: _) as s, e) => _ | _ => _ end) as [stem ext].
  rewrite !(app_assoc (lit " (")). intros H%app_inv_head. rewrite !app_assoc in H. apply app_inv_tail, app_inv_tail in H.
  by apply app_inv_head, show_N_inj in H.
Qed.
Lemma free_name_spec fuel st name target i t : free_name fuel st name target i = Some t → st_names st !! t = None ∧ (t = target ∨ ∃ j, t = numbered name j).
Proof.
  revert target i. induction fuel as [|fuel IH]; intros target i; cbn [free_name]; unfold exists_; case_bool_decide as Hx; try done.
  - intros [= <-]. split; [by apply eq_None_not_Some|by left].
  - intros [Hn Ht]%IH. split; [done|]. destruct Ht as [->|?]; [right; by exists i|by right].
  - intros [= <-]. split; [by apply eq_None_not_Some|by left].
Qed.
Lemma free_name_none fuel st name target i : free_name fuel st name target i = None →
  ∀ j, (i <= j)%N → (j < i + N.of_nat fuel)%N → is_Some (st_names st !! numbered name j).
Proof.
  revert target i. induction fuel as [|fuel IH]; intros target i; cbn [free_name]; unfold exists_; case_bool_decide as Hx; try done; [lia|].
  intros Hf j Hij Hj. destruct (decide (j = i)) as [->|Hne]; [|apply (IH _ _ Hf); lia].
  destruct fuel as [|fuel]; cbn [free_name] in Hf; unfold exists_ in Hf; case_bool_decide; done.
Qed.
(** The loop ends: there are more numbers than names. *)
Lemma free_name_found st name target : is_Some (free_name (S (size (st_names st))) st name target 1).
Proof.
  destruct (free_name _ _ _ _ _) as [t|] eqn:Hf; [by eexists|]. exfalso. pose proof (free_name_none _ _ _ _ _ Hf) as Hall.
  set (n := size (st_names st)) in *. set (l := (λ k, numbered name (N.of_nat k)) <$> seq 1 (S n)).
  assert (Hl : NoDup l).
  { apply NoDup_fmap_2; [|apply NoDup_seq]. intros a b H%numbered_inj. lia. }
  assert (Hsub : (list_to_set l : gset str) ⊆ dom (st_names st)).
  { intros x [k [-> Hk%elem_of_seq]]%elem_of_list_to_set%list_elem_of_fmap. apply elem_of_dom, Hall; lia. }
  apply subseteq_size in Hsub. rewrite size_list_to_set, size_dom in Hsub by done. unfold l in Hsub. rewrite length_fmap, length_seq in Hsub. fold n in Hsub. lia.
Qed.

(** No file has two names, and new ones get new files. *)
Record store_ok (st : Store) : Prop := {
  so_one : ∀ a b i, st_names st !! a = Some i → st_names st !! b = Some i → a = b;
  so_file : ∀ a i, st_names st !! a = Some i → is_Some (st_files st !! i) ∧ i < st_next st;
}.
(** Names other than the part's are as they were. *)
Definition others (part : str) (st0 st : Store) : Prop := ∀ n, n ≠ part → st_names st !! n = st_names st0 !! n ∧ content st n = content st0 n.
(** The part's name leads to [w] in the file [i], that no other name leads to. *)
Definition holds_part (part : str) (st : Store) (i : nat) (w : bytes) : Prop :=
  st_names st !! part = Some i ∧ st_files st !! i = Some w ∧ ∀ n, n ≠ part → st_names st !! n ≠ Some i.

Lemma create_ok part st i st' : store_ok st → create part st = (i, st') → others part st st' ∧ holds_part part st' i [].
Proof.
  intros [H1 H2]. unfold create. destruct (st_names st !! part) as [j|] eqn:Hj; intros [= <- <-].
  - assert (Hne : ∀ n, n ≠ part → st_names st !! n ≠ Some j) by (intros n Hn Hs; apply Hn; by eapply H1). split.
    + intros n Hn. split; [done|]. unfold content. cbn. destruct (st_names st !! n) as [k|] eqn:Hk; [|done]. cbn.
      rewrite lookup_insert_ne; [done|]. intros <-. by apply (Hne n).
    + split_and!; cbn; [done|by rewrite lookup_insert_eq|done].
  - assert (Hne : ∀ n, st_names st !! n ≠ Some (st_next st)) by (intros n Hs; apply H2 in Hs as [_ ?]; lia). split.
    + intros n Hn. cbn. rewrite lookup_insert_ne by done. split; [done|]. unfold content. cbn. rewrite lookup_insert_ne by done.
      destruct (st_names st !! n) as [k|] eqn:Hk; [|done]. cbn. rewrite lookup_insert_ne; [done|]. intros <-. by apply (Hne n).
    + split_and!; cbn; [by rewrite lookup_insert_eq|by rewrite lookup_insert_eq|]. intros n Hn. by rewrite lookup_insert_ne.
Qed.
Lemma write_ok part st0 st i w x : others part st0 st → holds_part part st i w →
  others part st0 (write_at i (length w) x st) ∧ holds_part part (write_at i (length w) x st) i (w ++ x).
Proof.
  intros Ho (Hn & Hf & Hone). unfold write_at. rewrite Hf. cbn [default from_option id].
  rewrite take_ge, Nat.sub_diag by lia. rewrite (drop_ge w) by lia. cbn [replicate app]. rewrite app_nil_r. split.
  - intros n Hne. destruct (Ho n Hne) as [Hn' Hc]. split; [done|]. rewrite <- Hc. unfold content. cbn.
    destruct (st_names st !! n) as [k|] eqn:Hk; [|done]. cbn. rewrite lookup_insert_ne; [done|]. intros <-. by apply (Hone n).
  - split_and!; cbn; [done|by rewrite lookup_insert_eq|done].
Qed.

(** Where a download is, seen from where it began. *)
Definition at_pc (fetch : option (list bytes * bool)) (st0 : Store) (target : str) (pc : Pc) (st : Store) : Prop :=
  match pc with
  | PChoose _ => False
  | PCreate t => t = target ∧ st = st0
  | PWrite t i off more ok => t = target ∧ others (part_of target) st0 st ∧
      ∃ w body, holds_part (part_of target) st i w ∧ off = length w ∧ fetch = Some (body, ok) ∧ concat body = w ++ concat more
  | PEnd t ok => t = target ∧ others (part_of target) st0 st ∧
      (ok = true → ∃ i body, holds_part (part_of target) st i (concat body) ∧ fetch = Some (body, true) ∧ (len (concat body) <= MAX_FILE)%N)
  | PDone None => others (part_of target) st0 st
  | PDone (Some t) => t = target ∧ (∀ n, n ≠ target → n ≠ part_of target → content st n = content st0 n) ∧
      (target ≠ part_of target → content st (part_of target) = None) ∧
      ∃ body, fetch = Some (body, true) ∧ content st target = Some (concat body) ∧ (len (concat body) <= MAX_FILE)%N
  end.

Lemma advance_ok fetch st0 target io pc st pc' st' : store_ok st0 → at_pc fetch st0 target pc st → advance fetch io pc st = Some (pc', st') → at_pc fetch st0 target pc' st'.
Proof.
  intros Hok Hat. destruct pc as [f|t|t i off [|x more] ok|t [|]|r]; cbn [advance at_pc] in *; try done.
  - destruct Hat as [-> ->]. destruct io; cbn [negb]; [|intros [= <- <-]; intros n Hn; done].
    destruct (create (part_of target) st0) as [i st1] eqn:Hc. apply create_ok in Hc as [Ho Hp]; [|done]. intros [= <- <-].
    destruct fetch as [[body ok]|]; cbn; [|done]. split; [done|]. split; [done|]. by exists [], body.
  - destruct Hat as (-> & Ho & w & body & Hp & -> & -> & Hb). intros [= <- <-]. cbn. split; [done|]. split; [done|].
    intros [Hk Hle]%andb_true_iff. destruct ok; [|done]. cbn in Hb. rewrite app_nil_r in Hb. exists i, body. rewrite Hb. split_and!; [done..|].
    by apply N.leb_le.
  - destruct Hat as (-> & Ho & w & body & Hp & -> & -> & Hb). destruct io; intros [= <- <-]; [|done]. cbn [at_pc].
    destruct (write_ok _ st0 st i w x Ho Hp) as [Ho' Hp']. split; [done|]. split; [done|]. exists (w ++ x), body. split_and!; [done|by rewrite length_app|done|].
    rewrite Hb. cbn. by rewrite <- app_assoc.
  - destruct Hat as (-> & Ho & Hend). destruct (Hend eq_refl) as (i & body & (Hn & Hf & Hone) & Hfe & Hle). destruct io; [|intros [= <- <-]; done].
    unfold rename. rewrite Hn. cbn [mbind option_bind]. intros [= <- <-]. cbn [at_pc]. split; [done|]. split_and!.
    + intros n Ht Hp. unfold content. cbn. rewrite lookup_insert_ne, lookup_delete_ne by done. apply (Ho n Hp).
    + intros Hne. unfold content. cbn. by rewrite lookup_insert_ne, lookup_delete_eq.
    + exists body. split_and!; [done| |done]. unfold content. cbn. rewrite lookup_insert_eq. done.
  - destruct Hat as (-> & Ho & _). intros [= <- <-]. cbn. destruct io; [|done]. intros n Hn. unfold content, remove. cbn.
    rewrite lookup_delete_ne by done. apply (Ho n Hn).
Qed.
Lemma alone_ok fetch st0 target pc st pc' st' : store_ok st0 → alone fetch pc st pc' st' → at_pc fetch st0 target pc st → at_pc fetch st0 target pc' st'.
Proof. intros Hok H. induction H as [|pc st io pc1 st1 pc2 st2 Hs H IH]; [done|]. intros Hat. apply IH. by eapply advance_ok. Qed.

(** Every step brings the download nearer to its end, whatever fails. *)
Definition pieces (fetch : option (list bytes * bool)) : nat := match fetch with Some (body, _) => length body | None => 0 end.
Definition steps_left (fetch : option (list bytes * bool)) (pc : Pc) : nat :=
  match pc with
  | PChoose _ => pieces fetch + 4
  | PCreate _ => pieces fetch + 3
  | PWrite _ _ _ more _ => length more + 2
  | PEnd _ _ => 1
  | PDone _ => 0
  end.
Lemma advance_nearer fetch io pc st pc' st' : advance fetch io pc st = Some (pc', st') → steps_left fetch pc' < steps_left fetch pc.
Proof.
  destruct pc as [f|t|t i off [|x more] ok|t [|]|r]; cbn [advance]; [| | | | | |done].
  - destruct (free_name _ _ _ _ _); [|done]. intros [= <- <-]. cbn. lia.
  - destruct (negb io); [intros [= <- <-]; cbn; lia|]. destruct (create _ _) as [i st1]. destruct fetch as [[body ok]|]; intros [= <- <-]; cbn; lia.
  - intros [= <- <-]. cbn. lia.
  - destruct io; intros [= <- <-]; cbn; lia.
  - destruct io; [destruct (rename _ _ _)|]; intros [= <- <-]; cbn; lia.
  - intros [= <- <-]. cbn. lia.
Qed.
Lemma advance_some fetch io pc st : (∀ r, pc ≠ PDone r) → is_Some (advance fetch io pc st).
Proof.
  intros Hpc. destruct pc as [f|t|t i off [|x more] ok|t [|]|r]; cbn [advance]; [| | | | | |by destruct (Hpc r)].
  - destruct (free_name_found st (safe_filename f) (safe_filename f)) as [t ->]. by eexists.
  - destruct (negb io); [by eexists|]. destruct (create _ _). by eexists.
  - by eexists.
  - destruct io; by eexists.
  - by eexists.
  - by eexists.
Qed.
Lemma follow_done fetch ios : ∀ pc st, steps_left fetch pc ≤ length ios → ∃ res st', follow fetch ios pc st = (PDone res, st').
Proof.
  induction ios as [|io ios IH]; intros pc st Hle; cbn [length] in Hle.
  - destruct pc; cbn in Hle; try lia. by eexists _, _.
  - cbn [follow]. destruct (advance fetch io pc st) as [[pc' st']|] eqn:Ha.
    + apply IH. apply advance_nearer in Ha. lia.
    + destruct pc; try (by eexists _, _); exfalso; (edestruct advance_some as [? Hs]; [|rewrite Ha in Hs; done]; done).
Qed.
Lemma follow_alone fetch ios : ∀ pc st pc' st', follow fetch ios pc st = (pc', st') → alone fetch pc st pc' st'.
Proof.
  induction ios as [|io ios IH]; intros pc st pc' st'; cbn [follow]; [intros [= <- <-]; apply alone_here|].
  destruct (advance fetch io pc st) as [[pc1 st1]|] eqn:Ha; [|intros [= <- <-]; apply alone_here].
  intros H. eapply alone_step; [exact Ha|]. by apply IH.
Qed.
Lemma follow_app fetch ios ios' : ∀ pc st, follow fetch (ios ++ ios') pc st =
  let '(pc', st') := follow fetch ios pc st in follow fetch ios' pc' st'.
Proof.
  induction ios as [|io ios IH]; intros pc st; [done|]. cbn [app follow].
  destruct (advance fetch io pc st) as [[pc1 st1]|] eqn:Ha; [apply IH|].
  destruct pc; try (exfalso; (edestruct advance_some as [? Hs]; [|rewrite Ha in Hs; done]; done)). by destruct ios'.
Qed.

(** When every system call works and all of a file that is not too large comes. *)
Lemma writes_end fetch t i more ok : ∀ off st, ∃ st', follow fetch (replicate (S (length more)) true) (PWrite t i off more ok) st =
  (PEnd t (ok && (N.of_nat (off + length (concat more)) <=? MAX_FILE)%N), st').
Proof.
  induction more as [|x more IH]; intros off st.
  - exists st. cbn. by rewrite Nat.add_0_r.
  - destruct (IH (off + length x) (write_at i off x st)) as [st' H]. exists st'.
    change (follow fetch (replicate (S (length (x :: more))) true) (PWrite t i off (x :: more) ok) st)
      with (follow fetch (replicate (S (length more)) true) (PWrite t i (off + length x) more ok) (write_at i off x st)).
    rewrite H. cbn [concat]. by rewrite length_app, Nat.add_assoc.
Qed.
Lemma download_succeeds body filename st : store_ok st → (len (concat body) <= MAX_FILE)%N →
  ∃ t st', follow (Some (body, true)) (replicate (length body + 4) true) (PChoose filename) st = (PDone (Some t), st').
Proof.
  intros Hok Hlen. destruct (free_name_found st (safe_filename filename) (safe_filename filename)) as [t Ht].
  destruct (create (part_of t) st) as [i st1] eqn:Hc. set (fetch := Some (body, true)).
  destruct (writes_end fetch t i body true 0 st1) as [st2 Hw]. cbn [Nat.add andb] in Hw.
  assert ((N.of_nat (length (concat body)) <=? MAX_FILE)%N = true) as Hle by by apply N.leb_le. rewrite Hle in Hw.
  assert (Hat : at_pc fetch st t (PEnd t true) st2).
  { apply (alone_ok fetch st t (PCreate t) st); [done| |done].
    eapply (alone_step _ _ _ true); [cbn [advance negb]; by rewrite Hc|]. by eapply follow_alone. }
  destruct Hat as (_ & _ & Hend). destruct (Hend eq_refl) as (j & body' & (Hn & _) & _).
  assert (Hr : ∃ st3, rename (part_of t) t st2 = Some st3) by (unfold rename; rewrite Hn; by eexists). destruct Hr as [st3 Hr].
  assert (Hstart : follow fetch (replicate 2 true) (PChoose filename) st = (PWrite t i 0 body true, st1)).
  { cbn [replicate follow advance]. rewrite Ht. cbn [mbind option_bind]. cbn [follow advance negb]. by rewrite Hc. }
  exists t, st3. replace (length body + 4) with (2 + (S (length body) + 1)) by lia.
  rewrite (replicate_add 2), follow_app, Hstart. rewrite (replicate_add (S (length body))), follow_app, Hw.
  cbn [replicate follow advance]. by rewrite Hr.
Qed.

(** *** Names of saved files *)

Lemma trim_start_char_in c s x : x ∈ trim_start_char c s → x ∈ s.
Proof. destruct (trim_start_char_spec c s) as (n & Hs & _). intros H. rewrite Hs. apply elem_of_app. by right. Qed.
Lemma safe_filename_plain name : safe_filename name ≠ [] ∧ head (safe_filename name) ≠ Some 46%N ∧ 47%N ∉ safe_filename name.
Proof.
  unfold safe_filename. set (s := trim_start_char 46 _). assert (Hd : head s ≠ Some 46%N) by (destruct (trim_start_char_spec 46 (trim (file_char <$> name))) as (n & _ & H); exact H).
  assert (Hs : 47%N ∉ s).
  { intros H%trim_start_char_in%trim_in. apply list_elem_of_fmap in H as (c & Hc & _). unfold file_char in Hc. destruct (_ || _) eqn:He; [done|].
    apply orb_false_iff in He as [_ He]. rewrite <- Hc in He. apply bool_decide_eq_false in He. apply He. apply (bool_decide_unpack _). vm_compute. exact I. }
  clearbody s. destruct s as [|c s]; [split_and!; [done..|apply (bool_decide_unpack _); vm_compute; exact I]|].
  split_and!; [done|exact Hd|]. intros H%elem_of_take. destruct H as (i & Hi & _). apply Hs. by eapply list_elem_of_lookup_2.
Qed.
Lemma numbered_plain name i : name ≠ [] → head name ≠ Some 46%N → 47%N ∉ name →
  numbered name i ≠ [] ∧ head (numbered name i) ≠ Some 46%N ∧ 47%N ∉ numbered name i.
Proof.
  intros Hne Hd Hs. unfold numbered.
  assert (Hcase : ∃ c stem ext, (match rsplit_once 46 name with Some ((_ :: _) as s, e) => (s, lit "." ++ e) | _ => (name, []) end) = (c :: stem, ext) ∧
     c ≠ 46%N ∧ (47%N ∉ c :: stem) ∧ 47%N ∉ ext).
  { destruct (rsplit_once 46 name) as [[[|c stem] e]|] eqn:Hr.
    1, 3: destruct name as [|c name]; [done|]; exists c, name, []; split_and!; [done|cbn in Hd; congruence|done|set_solver].
    apply rsplit_once_Some in Hr as [-> _]. exists c, stem, (lit "." ++ e). split_and!; [done|cbn in Hd; congruence|set_solver|].
    intros [H|H]%elem_of_app; [revert H; apply (bool_decide_unpack _); vm_compute; exact I|set_solver]. }
  destruct Hcase as (c & stem & ext & -> & Hc & Hst & Hex). split_and!; [done|cbn; congruence|].
  pose proof (show_N_digits i) as Hdig. rewrite Forall_forall in Hdig. repeat apply absent_app; try done; try (apply (bool_decide_unpack _); vm_compute; exact I).
  intros H%Hdig. lia.
Qed.

(** [C14]: A download by itself, whichever system calls fail and wherever the
    connection breaks.  It ends: after as many system calls as there are pieces and
    four more, whatever the outcomes; with success when all of a file of a gigabyte
    at most came and the system calls work.  It is saved under a plain name that was
    free, with exactly what the server sent; every other file is as it was, one with
    the name of the part file aside; without success only that one is touched. *)
Theorem download_lands fetch filename st : store_ok st →
  (∀ ios, pieces fetch + 4 ≤ length ios →
    ∃ res st', follow fetch ios (PChoose filename) st = (PDone res, st') ∧ alone fetch (PChoose filename) st (PDone res) st' ∧
      (Forall (λ io, io = true) ios → ∀ body, fetch = Some (body, true) → (len (concat body) <= MAX_FILE)%N → is_Some res)) ∧
  ∀ res st', alone fetch (PChoose filename) st (PDone res) st' →
  ∃ target, (target ≠ [] ∧ head target ≠ Some 46%N ∧ 47%N ∉ target) ∧ st_names st !! target = None ∧
    (∀ n, n ≠ target → n ≠ part_of target → content st' n = content st n) ∧
    match res with
    | Some t => t = target ∧ (target ≠ part_of target → content st' (part_of target) = None) ∧
        ∃ body, fetch = Some (body, true) ∧ content st' target = Some (concat body) ∧ (len (concat body) <= MAX_FILE)%N
    | None => target ≠ part_of target → content st' target = None
    end.
Proof.
  intros Hok. split.
  { intros ios Hl. destruct (follow_done fetch ios (PChoose filename) st Hl) as (res & st' & Hf). exists res, st'.
    split; [done|]. split; [by eapply follow_alone|]. intros Htrue body -> Hle.
    destruct (download_succeeds body filename st Hok Hle) as (t & st2 & Hs). cbn [pieces] in Hl.
    rewrite <- (take_drop (length body + 4) ios) in Hf. rewrite follow_app in Hf.
    replace (take (length body + 4) ios) with (replicate (length body + 4) true) in Hf.
    - rewrite Hs in Hf. destruct (drop _ ios); cbn in Hf; by injection Hf as <- <-.
    - apply replicate_as_Forall. split; [rewrite length_take; lia|]. eapply Forall_impl; [by apply Forall_take|]. by intros ? ->. }
  intros res st' Hrun. inversion Hrun as [|? ? io pc1 st1 ? ? Hs Hrest]; subst. cbn [advance] in Hs.
  destruct (free_name _ st _ _ _) as [t|] eqn:Ht; [|done]. cbn [mbind option_bind] in Hs. injection Hs as <- <-.
  pose proof (free_name_spec _ _ _ _ _ _ Ht) as [Hfree Hname].
  pose proof (alone_ok fetch st t _ _ _ _ Hok Hrest (conj eq_refl eq_refl)) as Hat. exists t. split; [|split; [done|]].
  - destruct (safe_filename_plain filename) as (H1 & H2 & H3). destruct Hname as [->|[j ->]]; [done|]. by apply numbered_plain.
  - destruct res as [t'|]; cbn in Hat.
    + destruct Hat as (-> & Ho & Hp & Hb). done.
    + split; [intros n _ Hn; apply (Hat n Hn)|]. intros Hne. rewrite (proj2 (Hat t Hne)). unfold content. by rewrite Hfree.
Qed.

(** The requests of a fetch go to the server that was named, whatever it answers. *)
Lemma requests_stay {J : Json} server id sv urls body : fetch_start server id sv = Ok (urls, body) →
  ∃ rest token, let base := lit "https://" ++ rest in
    rest ≠ [] ∧ has_any (lit "?# @") rest = false ∧ urls = [token_url base; file_url base token] ∧
    Forall (λ c, (is_alnum c || (c =? 45)%N || (c =? 95)%N) = true) token.
Proof.
  unfold fetch_start, base_url. destruct (strip_prefix _ _) as [rest|] eqn:Hs; [|done]. cbn [ok_or mbind result_bind].
  destruct (bool_decide (rest = []) || _) eqn:He; [done|]. cbn [mbind result_bind]. apply orb_false_iff in He as [Hr%bool_decide_eq_false Hany].
  destruct (negb _); [done|]. destruct (sv_token sv) as [t|]; [|done]. cbn [mbind result_bind]. unfold download_token.
  destruct (get t "token" ≫= as_str) as [token|]; [|done]. cbn [ok_or mbind result_bind]. destruct (forallb _ token) eqn:Hf; [|done]. cbn [mbind result_bind].
  intros [= <- _]. apply strip_prefix_Some in Hs. rewrite Hs. exists rest, token. cbv zeta. split_and!; [done..|].
  apply Forall_forall. rewrite forallb_forall in Hf. intros c Hc. apply Hf. by apply list_elem_of_In.
Qed.

(** [C16]: The part file is named after the target without its extension and made
    over whatever is there.  So a file of the user with that name is gone after a
    download, even one that fails; and of two downloads at a time, for names that
    differ in the extension only, one can end with success with bytes of the other. *)
Theorem downloads_mix :
  (∀ fetch filename st t d, store_ok st → free_name (S (size (st_names st))) st (safe_filename filename) (safe_filename filename) 1 = Some t →
     part_of t ≠ t → content st (part_of t) = Some d → ∃ st1, alone fetch (PChoose filename) st (match fetch with
        | Some (body, ok) => PWrite t (default 0 (st_names st !! part_of t)) 0 body ok | None => PEnd t false end) st1 ∧ content st1 (part_of t) = Some []) ∧
  let fetches := [Some ([lit "AAAA"; lit "aa"], true); Some ([lit "BBBB"], true)] in
  let w0 := ([PChoose (lit "a.pdf"); PChoose (lit "a.txt")], MkStore ∅ ∅ 0) in
  ∃ st, runs fetches w0 ((λ i, (i, true)) <$> [0; 0; 0; 1; 1; 1; 0; 0; 0; 1; 1]) = Some ([PDone (Some (lit "a.pdf")); PDone None], st) ∧
    content st (lit "a.pdf") = Some (lit "BBBBaa").
Proof.
  split.
  - intros fetch filename st t d Hok Ht Hne Hd. destruct (create (part_of t) st) as [i st1] eqn:Hc. pose proof (create_ok _ _ _ _ Hok Hc) as [_ (Hn & Hf & _)].
    exists st1. split.
    + unfold content in Hd. destruct (st_names st !! part_of t) as [j|] eqn:Hj; [|done]. cbn [default from_option].
      assert (i = j) as -> by (unfold create in Hc; rewrite Hj in Hc; congruence).
      eapply (alone_step _ _ _ true); [cbn [advance]; by rewrite Ht|]. eapply (alone_step _ _ _ true); [cbn [advance negb]; by rewrite Hc|]. by apply alone_here.
    + unfold content. rewrite Hn. cbn. by rewrite Hf.
  - cbv zeta. eexists. split; vm_compute; reflexivity.
Qed.

(** ** Runs *)

Module Sample.
Definition single (name : str) (b : bytes) : Store := MkStore {[name := 0]} {[0 := b]} 1.
Lemma single_ok name b : store_ok (single name b).
Proof.
  split; cbn [single st_names st_files st_next].
  - intros x y i Hx Hy. apply lookup_singleton_Some in Hx as [<- _], Hy as [<- _]. done.
  - intros x i Hx. apply lookup_singleton_Some in Hx as [_ <-]. rewrite lookup_singleton_eq. split; [by eexists|lia].
Qed.
Definition st : Store := single (lit "a.pdf") (lit "old").
Definition boundary : str := lit "velta0a1b".
Definition name : str := lit "a" ++ quote ++ CRLF ++ lit "X: y".
Definition data : bytes := lit "--velta0" ++ CRLF ++ CRLF ++ [0; 255]%N.
End Sample.

Lemma cancel_never_ends_witness :
  (∃ b', copy 3 (λ _, false) (MkBody [[1; 2]; [3]]%N 0 0) [] = Some ([1; 2; 3]%N, b') ∧ bd_sent b' = 3%N) ∧
  ∀ fuel, copy fuel (λ n, bool_decide (1 <= n)%nat) (MkBody [[1; 2]; [3]]%N 0 0) [] = None.
Proof.
  split.
  - destruct (cancel_never_ends (λ _, false) [[1; 2]; [3]]%N) as [H _]; [repeat constructor; discriminate|].
    destruct H as (b' & Hc & Hs); [reflexivity|]. exists b'. split; [exact Hc|exact Hs].
  - destruct (cancel_never_ends (λ n, bool_decide (1 <= n)%nat) [[1; 2]; [3]]%N) as [_ H]; [repeat constructor; discriminate|].
    apply (H 1); [cbn; lia|reflexivity].
Defined.

Lemma occurs_dec_false p s : cut_str p s = None → ¬ occurs p s.
Proof.
  intros H (a & b & ->). revert H. induction a as [|x a IH]; cbn [app]; [by rewrite cut_here|]. cbn [cut_str].
  destruct (starts_with _ _); [done|]. destruct (cut_str p (a ++ p ++ b)) as [[]|]; [done|]. by intros _; apply IH.
Qed.
Lemma multipart_reads_back_witness :
  read_form Sample.boundary ((multipart_parts Sample.boundary Sample.name (lit "pw") (lit "7d") false).1 ++ Sample.data
      ++ (multipart_parts Sample.boundary Sample.name (lit "pw") (lit "7d") false).2) =
    Some [(as_bytes (field_head (lit "password")), lit "pw"); (as_bytes (field_head (lit "retention")), lit "7d");
          (as_bytes (field_head (lit "autodestroy")), lit "false"); (as_bytes (file_head Sample.name), Sample.data)].
Proof.
  apply (multipart_reads_back Sample.boundary Sample.name (lit "pw") (lit "7d") false Sample.data).
  - apply (bool_decide_unpack _). vm_compute. exact I.
  - apply (bool_decide_unpack _). vm_compute. exact I.
  - intros v Hv. apply occurs_dec_false. repeat (apply elem_of_cons in Hv as [->|Hv]; [vm_compute; reflexivity|]). by apply elem_of_nil in Hv.
  - apply occurs_dec_false. vm_compute. reflexivity.
  - apply occurs_dec_false. vm_compute. reflexivity.
Defined.

Lemma download_lands_witness : ∃ res st', alone (Some ([lit "new"; lit "er"], true)) (PChoose (lit "a.pdf")) Sample.st (PDone res) st' ∧
  ∃ target, content st' target = Some (lit "newer") ∧ st_names Sample.st !! target = None ∧ (lit "a.pdf" ≠ part_of target → content st' (lit "a.pdf") = Some (lit "old")).
Proof.
  destruct (download_lands (Some ([lit "new"; lit "er"], true)) (lit "a.pdf") Sample.st (Sample.single_ok _ _)) as [Hends H].
  destruct (Hends (replicate 6 true)) as (res & st' & _ & Hrun & Hres); [cbn; lia|]. specialize (Hres ltac:(by repeat constructor)).
  exists res, st'. split; [exact Hrun|]. destruct (H res st' Hrun) as (target & _ & Hfree & Hsame & Hr).
  destruct (Hres [lit "new"; lit "er"] eq_refl) as [t ->]; [discriminate|]. destruct Hr as (_ & _ & body & [= <-] & Hc & _).
  exists target. split; [exact Hc|]. split; [exact Hfree|]. intros Hne. rewrite Hsame; [reflexivity| |exact Hne]. intros <-. discriminate.
Defined.

Lemma downloads_mix_witness : ∃ st1, alone None (PChoose (lit "b.pdf")) (Sample.single (lit "b.part") (lit "mine")) (PEnd (lit "b.pdf") false) st1 ∧
  content st1 (lit "b.part") = Some [].
Proof.
  apply (proj1 downloads_mix None (lit "b.pdf") (Sample.single (lit "b.part") (lit "mine")) (lit "b.pdf") (lit "mine")).
  - apply Sample.single_ok.
  - vm_compute. reflexivity.
  - vm_compute. discriminate.
  - vm_compute. reflexivity.
Defined.
